(* ===== verification/_CoqProject ===== *)
-Q . S2P
Prelude.v
GoString.v
GoUtf8.v
GoPath.v
GoError.v
Model.v
GoConv.v
Json.v
Url.v
Wire.v
Config.v
Logger.v
Sanitize.v
Validate.v
Manifest.v
Prog.v
JobStore.v
Token.v
FS.v
Sql.v
World.v
Storage.v
Interfaces.v
Writer.v
Repository.v
Client.v
Generator.v
Service.v
HttpMsg.v
ServeContent.v
Http.v
Process.v
Cleanup.v
Interference.v
Worker.v
Shutdown.v
Concurrency.v
Main.v
Queue.v
EndToEnd.v
