(* ===== verification/Prelude.v ===== *)
(** * YFS Archive API: a verification library

    The YFS Archive API (src/, Go) turns a folder of a file service into a
    downloadable ZIP or TAR.  A POST to /internal/archives, authenticated by a
    shared token, records a job and queues it; a pool of workers takes jobs
    from the queue, reads the folder tree and the files' latest versions from
    PostgreSQL, streams each file from its storage server into a temporary
    archive, renames it to its final name and issues a random download token;
    clients follow the job over server-sent events and download with the
    token; a cleanup worker removes expired jobs, their tokens and files, and
    files no job knows.

    ** How the program is modelled

    Strings are byte lists, [int64] is [Z] with its wrap-around written out,
    times and durations are nanoseconds.  A pure Go function is a Rocq
    function; a result [(A, error)] is [error + A].  Everything the goroutines
    share is one record, [World.World] (job map, token map, archive directory,
    queue, accepting flag, and what the main program keeps of its goroutines:
    the shutdown context, the wait group, and a trace of what it did);
    everything outside (clock, random source, kernel,
    database, storage servers, cancellation) is the class [World.Env], read at
    a moment the [World] counts, so a theorem for every [Env] covers every
    behaviour of the outside.  A method that touches shared state is a
    [Prog.prog]: a sequence of atomic actions (one critical section, one
    system call, one channel operation, one reading of the clock).  [Prog.run]
    executes one goroutine alone; [Prog.step] interleaves any number of them.

    ** Files

    - Prelude: bytes, machine integers, the error notation, tactics, the hint
      database [go], list lemmas.
    - GoString, GoUtf8, GoPath, GoConv, GoError: what the code uses of
      strings, unicode/utf8, sort, path, path/filepath, strconv,
      time.ParseDuration, errors and fmt.Errorf.
    - Json, Wire: what the code uses of encoding/json; the create request, the
      response bodies and the server-sent events as bytes
      (internal/handler, the tags of internal/model).
    - Url: what the code uses of net/url: escaping and query strings.
    - Model: internal/model.  Config: internal/config ([Load], [validate]).
      Logger: internal/logger.
    - Sanitize: [sanitizeArchivePath] (internal/archive/zip.go).
    - Validate, Manifest: the request validators, [archiveRootDir],
      [rebaseArchivePath], [computeEmptyFolders] and the manifest
      (internal/service/archive.go).
    - Prog, World: programs, interleaving, the shared state, the environment.
    - JobStore: internal/job, on values and on a heap of pointers.
    - Token: internal/token.
    - FS, Storage: a directory of inodes with failing system calls;
      internal/storage/local.go.
    - Interfaces: [job.Store], [token.Service] and [storage.ArchiveStorage]
      with their laws and their implementations.
    - Sql, Repository: the queries of internal/repository over tables, and
      the Go code around them (scanning, row errors, the page loop).
    - Client: internal/client and [StorageFetcher].
    - Writer, Generator: the ZIP and TAR writers and [Generate]/[writeFile]
      (internal/archive/zip.go).
    - Service, Process: [CreateJob], [ProcessJob] and what they call
      (internal/service/archive.go); Process proves what a run achieves.
    - HttpMsg, ServeContent, Http: requests and responses,
      [http.ServeContent] (ranges, multipart answers, conditional requests),
      and internal/handler with internal/server.
    - Cleanup: [sweep] of internal/worker/cleanup.go.
    - Worker: the worker pool and the cleanup loop (internal/worker), whose
      ticker panics for an interval of zero or less.
    - Interference: what [ProcessJob] guarantees to other goroutines, and the
      obligation of a worker to settle the job it has taken.
    - Shutdown: [shutdown] of cmd/server/main.go.
    - Concurrency: the invariant of all goroutines together, and two races.
    - Main: [main] and [run] of cmd/server/main.go, and
      internal/repository/postgres.go: the whole process.
    - Queue: what becomes of queued jobs.  EndToEnd: from a create request to
      the download of its archive.

    ** Interfaces

    [Repository.ArchiveRepository], [Repository.StorageServerRepository],
    [Client.StorageClient] and [Client.FileFetcher] are the Go interfaces of
    the same names as type classes, with the law that they only observe the
    shared state; the service's theorems are proved for every instance of the
    first and the last, and [pgArchiveRepository], [pgStorageServerRepository],
    [httpStorageClient_Get] and [StorageFetcher] are instances.
    [Interfaces.Store], [Interfaces.Service] and [Interfaces.ArchiveStorage]
    come with the laws their comments promise, which the implementations of this
    program are shown to keep.
    [Writer.ArchiveWriter] is the interface of the two container formats with
    the laws [Generate] needs; the ZIP and the TAR writer discharge them.

    ** What the theorems show

    - Paths (Sanitize, Validate, Manifest): entry names are relative and free
      of dot segments, backslashes and NULs; the byte-level [path.Clean] agrees
      with segment resolution; the binary search for empty folders is the
      plain definition; no folder is lost when paths are rebased.
    - Reading (Repository): the folder list and the paged file list are
      exactly what the tables hold, and both terminate.
    - Writing (Generator, Process), for a size limit below the largest
      [int64], at which its arithmetic wraps: a successful run leaves a
      finished container of exactly the manifest within the limit; no outcome
      exceeds the limit by more than a byte; every job ends completed or
      failed; jobs complete when nothing fails.
    - Stores (JobStore, Token, Storage): the pointer-level job store refines
      the map it stands for, tokens open one job until they expire or are
      revoked, and publication is by rename alone (Interfaces).
    - Storage servers (Client): the request for a file is built from its own
      server's row, asks for exactly the recorded location and carries that
      row's key.
    - Requests (Service, Http): accepted and refused requests, who may change
      state, who may download, what clients are told.
    - Downloads (Http, on ServeContent): an interrupted download resumes.
    - The whole way (EndToEnd): an accepted request becomes the archive that
      its client downloads.
    - Configuration (Config): which environments [Load] accepts and what a
      loaded configuration guarantees.
    - Wire formats (Wire): requests and event streams round-trip.
    - Cleanup and Concurrency: sweeps spare the live jobs they have listed,
      also among other goroutines, and reclaim the rest; two interleavings show
      races in the code.
    - The process (Worker, Queue, Shutdown, Main): from start-up on, every
      interleaving keeps the service's invariant, no event stream tells a client
      anything internal, and every job being processed has a worker that will
      settle it; no queued job is lost, and a worker takes the queue in order
      and ends every job; workers stop, the shutdown is bounded by its timeout, and when it sees the workers end no job is left in
      processing; the main program releases what it acquired on every path.
    - Defects that modelling showed are theorems too: archive names that can
      never be generated, a drive letter hidden by "./", a size limit whose
      arithmetic wraps.

    ** Bounds

    The recursive folder query iterates at most one round per row of the
    folder table; [Repository.GetFolderTree_terminates] shows that this is no
    restriction.  The file pages are read with a fuel that is a parameter;
    [Repository.GetFilesForFolderTree_terminates] gives a sufficient value.
    [GoConv.duration_loop] has one round per byte, which [duration_loop_fuel]
    shows to be enough; so [Json.Parse_enough] does for the JSON parser.  The
    worker, cleanup and event loops and the waits of the main program do not
    end by themselves; their fuel is how many rounds are looked at, and the
    theorems about them hold for every number.  [Worker.worker_stops] and
    [Shutdown.shutdown_returns] give the rounds after which a worker and the
    shutdown do return.

    ** Not modelled

    The byte encodings of ZIP and TAR: a container is its list of entries, and
    its bytes, which downloads serve, are a parameter of the environment; so
    are the texts of HTTP dates and the boundaries of multipart answers.
    Bodies of storage servers that never end, although the client sets no limit
    on the time a body takes: in the model every body ends or fails, and what
    is said of a job coming to its end is said under that condition.  Likewise
    the server is taken to stop a recursive query over a cyclic folder table
    some day, with an error.  The log lines of the components other than the
    main program and the request logger; connections, redirects (on which
    net/http passes the storage key on) and timeouts of net/http (the transport
    settings are recorded, not interpreted); [statusWriter]'s [Flush] and
    [Unwrap], which only forward.  [uuid], [godotenv], [url.Parse] with
    [URL.String], [pgx], [net.Listen], signals and the Unicode tables are
    parameters.

    ** Plan

    Next: the grammar of [url.Parse], so that [Load] and the storage client
    need no parameter for it; bodies as streams that may not end; fairness, so that a queue served by
    several workers is shown to drain. *)

From stdpp Require Export base tactics list gmap strings sorting.
From Stdlib Require Export ZArith Lia Ascii.

Declare Scope go_scope.
Delimit Scope go_scope with go.

(** ** Go strings and bytes

    A Go string is a byte sequence; a byte is an [ascii]. *)

Abbreviation str := (list ascii).

(** [lit "abc"] is the Go literal "abc". *)
Definition lit (s : string) : str := String.list_ascii_of_string s.

(** The numeric value of a byte, [0 <= code c < 256]. *)
Definition code (c : ascii) : Z := Z.of_N (N_of_ascii c).

(** The byte of a number taken modulo 256. *)
Definition chr (z : Z) : ascii := ascii_of_N (Z.to_N (z mod 256)).

Lemma code_range c : (0 <= code c < 256)%Z.
Proof. unfold code. pose proof (N_ascii_bounded c). lia. Qed.

#[global] Instance code_inj : Inj (=) (=) code.
Proof.
  intros a b H. unfold code in H. apply N2Z.inj in H.
  rewrite <- (ascii_N_embedding a), <- (ascii_N_embedding b). by rewrite H.
Qed.

Lemma chr_code c : chr (code c) = c.
Proof.
  unfold chr. rewrite Z.mod_small by apply code_range.
  unfold code. rewrite N2Z.id. apply ascii_N_embedding.
Qed.

Lemma code_chr z : code (chr z) = (z mod 256)%Z.
Proof.
  unfold chr, code. pose proof (Z.mod_pos_bound z 256 eq_refl).
  rewrite N_ascii_embedding by lia. lia.
Qed.

(** ** Machine integers

    [int64] values are [Z] in the range of [in_int64]; [wrap64] is Go's
    two's-complement wrap-around. *)

Definition min_int64 : Z := (- 2 ^ 63)%Z.
Definition max_int64 : Z := (2 ^ 63 - 1)%Z.
Definition in_int64 (z : Z) : Prop := (min_int64 <= z <= max_int64)%Z.

Definition wrap64 (z : Z) : Z := ((z + 2 ^ 63) mod 2 ^ 64 - 2 ^ 63)%Z.

(** [a + b] and [a - b] on [int64]. *)
Definition add64 (a b : Z) : Z := wrap64 (a + b).
Definition sub64 (a b : Z) : Z := wrap64 (a - b).

Lemma wrap64_range z : in_int64 (wrap64 z).
Proof.
  unfold in_int64, wrap64, min_int64, max_int64.
  pose proof (Z.mod_pos_bound (z + 2 ^ 63) (2 ^ 64) eq_refl). lia.
Qed.

Lemma wrap64_id z : in_int64 z → wrap64 z = z.
Proof.
  unfold in_int64, wrap64, min_int64, max_int64. intros ?.
  rewrite Z.mod_small by lia. lia.
Qed.

(** [wrap64] is a ring quotient: wrapping an operand early is harmless. *)
Lemma wrap64_add_l a b : wrap64 (wrap64 a + b) = wrap64 (a + b).
Proof.
  unfold wrap64. f_equal.
  replace ((a + 2 ^ 63) mod 2 ^ 64 - 2 ^ 63 + b + 2 ^ 63)%Z
    with ((a + 2 ^ 63) mod 2 ^ 64 + b)%Z by lia.
  rewrite Zplus_mod_idemp_l. f_equal. lia.
Qed.

#[global] Instance in_int64_dec z : Decision (in_int64 z).
Proof. unfold in_int64. apply _. Defined.

(** ** Fallible results

    A Go function returning [(A, error)] returns [error + A]: [inl e] is a
    non-nil error, [inr a] a nil error.  [let? x := e in k] is the idiom
    [if err != nil { return nil, err }]. *)

Notation "'let?' x ':=' e 'in' k" :=
  (match e with inl err__ => inl err__ | inr x => k end)
  (at level 10, x pattern, e at level 150, k at level 200,
   format "'let?'  x  ':='  e  'in' '//' k") : go_scope.

(** ** Automation *)

Create HintDb go discriminated.

(** Split boolean conjunctions, turn boolean tests into propositions. *)
Ltac breflect :=
  repeat match goal with
  | H : (_ && _)%bool = true |- _ => apply andb_prop in H; destruct H
  | H : (_ && _)%bool = false |- _ => apply andb_false_iff in H
  | H : (_ || _)%bool = false |- _ => apply orb_false_elim in H; destruct H
  | H : (_ || _)%bool = true |- _ => apply orb_prop in H
  | H : negb _ = true |- _ => apply negb_true_iff in H
  | H : negb _ = false |- _ => apply negb_false_iff in H
  | H : bool_decide _ = true |- _ => apply bool_decide_eq_true in H
  | H : bool_decide _ = false |- _ => apply bool_decide_eq_false in H
  | H : (_ <? _)%Z = true |- _ => apply Z.ltb_lt in H
  | H : (_ <? _)%Z = false |- _ => apply Z.ltb_ge in H
  | H : (_ <=? _)%Z = true |- _ => apply Z.leb_le in H
  | H : (_ <=? _)%Z = false |- _ => apply Z.leb_gt in H
  | H : (_ =? _)%Z = true |- _ => apply Z.eqb_eq in H
  | H : (_ =? _)%Z = false |- _ => apply Z.eqb_neq in H
  end.

(** Case on the innermost [match]/[if] scrutinee of a hypothesis, then
    reflect the boolean and close contradictory branches. *)
Ltac case_in H :=
  let E := fresh "E" in
  match type of H with
  | context [match ?x with _ => _ end] =>
      lazymatch x with
      | context [match _ with _ => _ end] => fail
      | _ => destruct x eqn:E
      end
  end; breflect; simplify_eq/=.

(** All the branches of a straight-line function applied in [H]. *)
Ltac cases_in H := repeat case_in H.

(** ** Generic list lemmas *)

Section lists.
Context {A : Type}.
Implicit Types (l k : list A).

Lemma existsb_elem_of (P : A → bool) l :
  existsb P l = true ↔ ∃ x, x ∈ l ∧ P x = true.
Proof. rewrite existsb_exists. by setoid_rewrite list_elem_of_In. Qed.

Lemma existsb_false (P : A → bool) l :
  existsb P l = false ↔ ∀ x, x ∈ l → P x = false.
Proof.
  rewrite <- not_true_iff_false, existsb_elem_of. split.
  - intros H x Hx. destruct (P x) eqn:E; [|done]. exfalso; eauto.
  - intros H (x & Hx & Hp). apply H in Hx. congruence.
Qed.

Lemma forallb_Forall (P : A → bool) l :
  forallb P l = true ↔ Forall (λ x, P x = true) l.
Proof.
  rewrite forallb_forall, Forall_forall. by setoid_rewrite list_elem_of_In.
Qed.

Lemma last_elem_of l x : last l = Some x → x ∈ l.
Proof. rewrite last_Some. intros [k ->]. set_solver. Qed.

(** Keys without duplicates identify their elements. *)
Lemma NoDup_key_inj {B} (f : A → B) l x y :
  NoDup (f <$> l) → x ∈ l → y ∈ l → f x = f y → x = y.
Proof.
  induction l as [|z l IH]; cbn; [set_solver|]. intros [Hz Hl]%NoDup_cons Hx Hy Hf.
  apply elem_of_cons in Hx, Hy. destruct Hx as [->|Hx], Hy as [->|Hy]; auto.
  - exfalso. apply Hz. rewrite Hf. by apply list_elem_of_fmap_2.
  - exfalso. apply Hz. rewrite <- Hf. by apply list_elem_of_fmap_2.
Qed.

Lemma NoDup_bind_keys {B C} (f : A → list B) (g : B → C) l :
  NoDup l → (∀ x, x ∈ l → NoDup (g <$> f x)) →
  (∀ x y a b, x ∈ l → y ∈ l → a ∈ f x → b ∈ f y → g a = g b → x = y) →
  NoDup (g <$> (l ≫= f)).
Proof.
  induction l as [|x l IH]; [constructor|]. intros [Hx Hl]%NoDup_cons Hn Hd.
  change ((x :: l) ≫= f) with (f x ++ (l ≫= f)). rewrite fmap_app. apply NoDup_app. split_and!.
  - apply Hn. left.
  - intros c (a & -> & Ha)%list_elem_of_fmap (b & Hab & Hb)%list_elem_of_fmap.
    apply list_elem_of_bind in Hb as (y & Hb & Hy). apply Hx.
    rewrite (Hd x y a b); [done|left|by right|done|done|done].
  - apply IH; [done|intros; apply Hn; by right|]. intros y z a b Hy Hz.
    apply Hd; by right.
Qed.

Lemma NoDup_key_filter {B} (f : A → B) (P : A → Prop) `{∀ x, Decision (P x)} l :
  NoDup (f <$> l) → NoDup (f <$> filter P l).
Proof.
  induction l as [|z l IH]; [constructor|]. rewrite fmap_cons, filter_cons.
  intros [Hz Hl]%NoDup_cons. case_decide; [|auto]. rewrite fmap_cons. constructor; [|auto].
  rewrite list_elem_of_fmap. intros (y & Hy & [_ Hin]%list_elem_of_filter). apply Hz.
  rewrite Hy. by apply list_elem_of_fmap_2.
Qed.

Lemma list_filter_all (P : A → Prop) `{∀ x, Decision (P x)} l : Forall P l → filter P l = l.
Proof.
  induction 1 as [|x l Hx _ IH]; [done|]. by rewrite filter_cons, decide_True, IH.
Qed.

Lemma list_filter_none (P : A → Prop) `{∀ x, Decision (P x)} l :
  Forall (λ x, ¬ P x) l → filter P l = [].
Proof.
  induction 1 as [|x l Hx _ IH]; [done|]. by rewrite filter_cons, decide_False.
Qed.
End lists.
