(* ===== verification/GoString.v ===== *)
(** * The Go string operations the program uses

    [strings] (HasPrefix, HasSuffix, TrimPrefix, TrimSuffix, IndexByte,
    Split, ReplaceAll, TrimSpace, ToLower, Map), [unicode/utf8] decoding and
    encoding, [sort.Strings] and [sort.SearchStrings], on byte strings. *)

From S2P Require Import Prelude.
From stdpp Require Import pretty.

(** ** Bytes with a name *)

Definition slash : ascii := "/"%char.
Definition backslash : ascii := "\"%char.
Definition dot : ascii := "."%char.
Definition colon : ascii := ":"%char.
Definition nul : ascii := "000"%char.

(** ** Prefixes and suffixes *)

Definition HasPrefix (s p : str) : bool := bool_decide (p `prefix_of` s).
Definition HasSuffix (s p : str) : bool := bool_decide (p `suffix_of` s).

Definition TrimPrefix (s p : str) : str :=
  if HasPrefix s p then drop (length p) s else s.
Definition TrimSuffix (s p : str) : str :=
  if HasSuffix s p then take (length s - length p) s else s.

(** [strings.Contains(s, string(c))] for one byte. *)
Definition ContainsByte (s : str) (c : ascii) : bool := bool_decide (c ∈ s).

(** [strings.ReplaceAll(s, string(a), string(b))] for one byte each. *)
Definition ReplaceByte (s : str) (a b : ascii) : str :=
  (λ c, if bool_decide (c = a) then b else c) <$> s.

(** [strings.IndexByte], [None] for the result -1. *)
Definition IndexByte (s : str) (c : ascii) : option nat :=
  fst <$> list_find (.= c) s.

(** ** Splitting and joining at one byte *)

Fixpoint Split (s : str) (c : ascii) : list str :=
  match s with
  | [] => [[]]
  | x :: s' =>
      if bool_decide (x = c) then [] :: Split s' c
      else match Split s' c with
           | [] => [[x]]
           | w :: ws => (x :: w) :: ws
           end
  end.

Fixpoint Join (ws : list str) (c : ascii) : str :=
  match ws with
  | [] => []
  | w :: ws' => match ws' with
                | [] => w
                | _ => w ++ c :: Join ws' c
                end
  end.

(** ** The order of Go's [<] on strings: bytewise lexicographic *)

Fixpoint str_leb (a b : str) : bool :=
  match a, b with
  | [], _ => true
  | _ :: _, [] => false
  | x :: a', y :: b' =>
      if (code x <? code y)%Z then true
      else if (code y <? code x)%Z then false
      else str_leb a' b'
  end.

Definition str_ltb (a b : str) : bool := negb (str_leb b a).

Definition str_le (a b : str) : Prop := str_leb a b = true.
#[global] Instance str_le_dec : RelDecision str_le.
Proof. intros a b. unfold str_le. apply _. Defined.

(** [sort.Strings]: the sorted permutation, which the order determines. *)
Definition sort_Strings (l : list str) : list str := merge_sort str_le l.

(** [sort.SearchStrings]: the binary search for the least index whose
    element is not below [x]. *)
Fixpoint search_loop (fuel : nat) (a : list str) (x : str) (i j : nat) : nat :=
  match fuel with
  | O => i
  | S fuel' =>
      if i <? j then
        let h := Nat.div2 (i + j) in
        match a !! h with
        | Some y => if str_ltb y x then search_loop fuel' a x (S h) j
                    else search_loop fuel' a x i h
        | None => i
        end
      else i
  end.

Definition SearchStrings (a : list str) (x : str) : nat :=
  search_loop (S (length a)) a x 0 (length a).

(** ** UTF-8 *)

Definition RuneError : Z := 0xFFFD.

(** A continuation byte in the accept range [lo..hi]. *)
Definition cont (lo hi : Z) (c : ascii) : bool := ((lo <=? code c) && (code c <=? hi))%Z.

(** The low six bits of a continuation byte. *)
Definition low6 (c : ascii) : Z := Z.land (code c) 0x3F.

(** The accept range of the second byte, by the first ([utf8.acceptRanges]). *)
Definition accept2 (c0 : Z) : Z * Z :=
  if (c0 =? 0xE0)%Z then (0xA0, 0xBF)%Z
  else if (c0 =? 0xED)%Z then (0x80, 0x9F)%Z
  else if (c0 =? 0xF0)%Z then (0x90, 0xBF)%Z
  else if (c0 =? 0xF4)%Z then (0x80, 0x8F)%Z
  else (0x80, 0xBF)%Z.

(** [utf8.DecodeRuneInString] on a non-empty string: the first rune and its
    width; an invalid encoding is [(RuneError, 1)]. *)
Definition DecodeRune (s : str) : Z * nat :=
  match s with
  | [] => (RuneError, 0)
  | c0 :: t =>
      let x := code c0 in
      let '(lo, hi) := accept2 x in
      if (x <? 0x80)%Z then (x, 1)
      else if (x <? 0xC2)%Z then (RuneError, 1)
      else if (x <? 0xE0)%Z then
        match t with
        | c1 :: _ => if cont lo hi c1 then (Z.lor (Z.shiftl (Z.land x 0x1F) 6) (low6 c1), 2)
                     else (RuneError, 1)
        | _ => (RuneError, 1)
        end
      else if (x <? 0xF0)%Z then
        match t with
        | c1 :: c2 :: _ =>
            if cont lo hi c1 && cont 0x80 0xBF c2
            then (Z.lor (Z.lor (Z.shiftl (Z.land x 0x0F) 12) (Z.shiftl (low6 c1) 6)) (low6 c2), 3)
            else (RuneError, 1)
        | _ => (RuneError, 1)
        end
      else if (x <? 0xF5)%Z then
        match t with
        | c1 :: c2 :: c3 :: _ =>
            if cont lo hi c1 && cont 0x80 0xBF c2 && cont 0x80 0xBF c3
            then (Z.lor (Z.lor (Z.lor (Z.shiftl (Z.land x 0x07) 18) (Z.shiftl (low6 c1) 12))
                               (Z.shiftl (low6 c2) 6)) (low6 c3), 4)
            else (RuneError, 1)
        | _ => (RuneError, 1)
        end
      else (RuneError, 1)
  end.

(** [utf8.AppendRune]: surrogates and out-of-range runes are written as
    [RuneError]. *)
Definition EncodeRune (r : Z) : str :=
  let r := if ((r <? 0) || (0x10FFFF <? r) || ((0xD800 <=? r) && (r <=? 0xDFFF)))%Z
           then RuneError else r in
  if (r <? 0x80)%Z then [chr r]
  else if (r <? 0x800)%Z then
    [chr (Z.lor 0xC0 (Z.shiftr r 6)); chr (Z.lor 0x80 (Z.land r 0x3F))]
  else if (r <? 0x10000)%Z then
    [chr (Z.lor 0xE0 (Z.shiftr r 12)); chr (Z.lor 0x80 (Z.land (Z.shiftr r 6) 0x3F));
     chr (Z.lor 0x80 (Z.land r 0x3F))]
  else
    [chr (Z.lor 0xF0 (Z.shiftr r 18)); chr (Z.lor 0x80 (Z.land (Z.shiftr r 12) 0x3F));
     chr (Z.lor 0x80 (Z.land (Z.shiftr r 6) 0x3F)); chr (Z.lor 0x80 (Z.land r 0x3F))].

(** The runes a [for range] loop visits, each with the bytes it was decoded
    from.  A rune takes at least one byte, so [length s] rounds suffice. *)
Fixpoint runes_loop (fuel : nat) (s : str) : list (Z * str) :=
  match fuel, s with
  | S fuel', _ :: _ =>
      let '(r, w) := DecodeRune s in
      (r, take w s) :: runes_loop fuel' (drop w s)
  | _, _ => []
  end.

Definition runes (s : str) : list (Z * str) := runes_loop (length s) s.

(** [utf8.RuneCountInString]. *)
Definition RuneCount (s : str) : nat := length (runes s).

(** [unicode.IsSpace]. *)
Definition IsSpace (r : Z) : bool :=
  (((9 <=? r) && (r <=? 13)) || (r =? 0x20) || (r =? 0x85) || (r =? 0xA0)
   || (r =? 0x1680) || ((0x2000 <=? r) && (r <=? 0x200A)) || (r =? 0x2028) || (r =? 0x2029)
   || (r =? 0x202F) || (r =? 0x205F) || (r =? 0x3000))%Z.

Fixpoint drop_while {A} (P : A → bool) (l : list A) : list A :=
  match l with
  | x :: l' => if P x then drop_while P l' else l
  | [] => []
  end.

(** [strings.TrimSpace]: leading and trailing white space runes removed. *)
Definition TrimSpace (s : str) : str :=
  let sp := λ ru : Z * str, IsSpace ru.1 in
  concat (snd <$> rev (drop_while sp (rev (drop_while sp (runes s))))).

(** [strings.Map] for a mapping that never drops a rune. *)
Definition MapRunes (f : Z → Z) (s : str) : str :=
  concat ((λ ru, EncodeRune (f ru.1)) <$> runes s).

(** The parts of the Unicode tables for non-ASCII runes: [unicode.ToLower]'s
    case mapping and [strconv.IsPrint]. *)
Class UnicodeTables := {
  unicode_lower : Z → Z;
  unicode_print : Z → bool
}.

(** Tables for concrete runs: U+0130 and U+212A lower to ASCII, as in Go. *)
Definition sample_tables : UnicodeTables :=
  {| unicode_lower := λ r, if (r =? 0x130)%Z then 0x69%Z else if (r =? 0x212A)%Z then 0x6B%Z else r;
     unicode_print := λ _, true |}.

Definition rune_ToLower `{!UnicodeTables} (r : Z) : Z :=
  if (r <=? 0x7F)%Z then (if (65 <=? r) && (r <=? 90) then r + 32 else r)%Z
  else unicode_lower r.

(** [strings.ToLower]. *)
Definition ToLower `{!UnicodeTables} (s : str) : str := MapRunes rune_ToLower s.

(** [strconv.Quote], the [%q] verb. *)
Definition hex_digit (z : Z) : ascii :=
  if (z <? 10)%Z then chr (48 + z) else chr (87 + z).

Fixpoint hex (digits : nat) (z : Z) : str :=
  match digits with
  | O => []
  | S d => hex d (z / 16)%Z ++ [hex_digit (z mod 16)%Z]
  end.

Definition IsPrint `{!UnicodeTables} (r : Z) : bool :=
  if (r <=? 0x7F)%Z then ((0x20 <=? r) && (r <? 0x7F))%Z else unicode_print r.

Definition escape_rune `{!UnicodeTables} (ru : Z * str) : str :=
  let '(r, bs) := ru in
  if (r =? RuneError)%Z && (length bs =? 1) then
    lit "\x" ++ hex 2 (match bs with c :: _ => code c | [] => 0 end)%Z
  else if (r =? 34)%Z || (r =? 92)%Z then [backslash; chr r]
  else if IsPrint r then EncodeRune r
  else if (r =? 7)%Z then lit "\a"
  else if (r =? 8)%Z then lit "\b"
  else if (r =? 12)%Z then lit "\f"
  else if (r =? 10)%Z then lit "\n"
  else if (r =? 13)%Z then lit "\r"
  else if (r =? 9)%Z then lit "\t"
  else if (r =? 11)%Z then lit "\v"
  else if (r <? 32)%Z || (r =? 127)%Z then lit "\x" ++ hex 2 r
  else if (r <? 0x10000)%Z then lit "\u" ++ hex 4 r
  else lit "\U" ++ hex 8 r.

Definition dquote : ascii := "034"%char.

Definition Quote `{!UnicodeTables} (s : str) : str :=
  dquote :: concat (escape_rune <$> runes s) ++ [dquote].

(** [strings.TrimRight(s, string(c))]. *)
Definition TrimRightByte (s : str) (c : ascii) : str :=
  rev (drop_while (λ x, bool_decide (x = c)) (rev s)).

(** [fmt.Sprintf("%d", z)]. *)
Definition Itoa (z : Z) : str := lit (pretty z).

(** ** Facts: prefixes, suffixes, bytes *)

Lemma HasPrefix_spec s p : HasPrefix s p = true ↔ ∃ k, s = p ++ k.
Proof. unfold HasPrefix. rewrite bool_decide_eq_true. done. Qed.

Lemma HasSuffix_spec s p : HasSuffix s p = true ↔ ∃ k, s = k ++ p.
Proof. unfold HasSuffix. rewrite bool_decide_eq_true. done. Qed.

Lemma HasPrefix_app p k : HasPrefix (p ++ k) p = true.
Proof. apply HasPrefix_spec. eauto. Qed.

Lemma HasSuffix_app p k : HasSuffix (k ++ p) p = true.
Proof. apply HasSuffix_spec. eauto. Qed.

Lemma TrimSuffix_app k p : TrimSuffix (k ++ p) p = k.
Proof.
  unfold TrimSuffix. rewrite HasSuffix_app, length_app.
  replace (_ + _ - _) with (length k) by lia. apply take_app_length.
Qed.

Lemma TrimSuffix_incl c s p : c ∈ TrimSuffix s p → c ∈ s.
Proof. unfold TrimSuffix. case_match; [|done]. apply subseteq_take. Qed.

Lemma ContainsByte_spec s c : ContainsByte s c = true ↔ c ∈ s.
Proof. unfold ContainsByte. by rewrite bool_decide_eq_true. Qed.

Lemma elem_of_ReplaceByte s a b c :
  c ∈ ReplaceByte s a b ↔ (c = b ∧ a ∈ s) ∨ (c ∈ s ∧ c ≠ a).
Proof.
  unfold ReplaceByte. rewrite list_elem_of_fmap. split.
  - intros (x & -> & Hx). case_bool_decide as Hc; [subst x|]; auto.
  - intros [[-> Ha]|[Hc Hn]].
    + exists a. by rewrite bool_decide_true.
    + exists c. by rewrite bool_decide_false.
Qed.

Lemma ReplaceByte_notin s a b : a ≠ b → a ∉ ReplaceByte s a b.
Proof. rewrite elem_of_ReplaceByte. naive_solver. Qed.

Lemma ReplaceByte_id s a b : a ∉ s → ReplaceByte s a b = s.
Proof.
  induction s as [|x s IH]; intros H; [done|]. apply not_elem_of_cons in H as [H1 H2].
  unfold ReplaceByte in *. cbn. rewrite bool_decide_false by done. by rewrite IH.
Qed.

Lemma IndexByte_Some s c i :
  IndexByte s c = Some i ↔ ∃ a b, s = a ++ (c :: b) ∧ c ∉ a ∧ length a = i.
Proof.
  unfold IndexByte. rewrite fmap_Some. split.
  - intros ([j x] & Hf & ->). apply list_find_Some in Hf as (Hl & -> & Hn).
    exists (take j s), (drop (S j) s). repeat split.
    + by rewrite take_drop_middle.
    + intros (k & Hk)%list_elem_of_lookup. apply lookup_take_Some in Hk as [Hk Hlt].
      by destruct (Hn k c Hk Hlt).
    + cbn. apply lookup_lt_Some in Hl. rewrite length_take. lia.
  - intros (a & b & -> & Hn & <-). exists (length a, c). split; [|done].
    apply list_find_Some. split_and!; [by apply list_lookup_middle|done|].
    intros j y Hj Hlt ->. apply Hn.
    rewrite lookup_app_l in Hj by done. by apply list_elem_of_lookup_2 in Hj.
Qed.

Lemma IndexByte_None s c : IndexByte s c = None ↔ c ∉ s.
Proof.
  unfold IndexByte. rewrite fmap_None, list_find_None, Forall_forall. naive_solver.
Qed.

(** ** Facts: splitting and joining *)

Lemma Split_not_nil s c : Split s c ≠ [].
Proof. destruct s; cbn; [done|]. case_bool_decide; [done|]. by destruct (Split _ _). Qed.

Lemma Split_notin s c : Forall (λ w, c ∉ w) (Split s c).
Proof.
  induction s as [|x s IH]; cbn.
  - constructor; [set_solver|constructor].
  - case_bool_decide; [constructor; [set_solver|done]|].
    destruct (Split s c); inv IH; repeat constructor; try done; set_solver.
Qed.

(** [strings.Join] undoes [strings.Split]. *)
Lemma Join_Split s c : Join (Split s c) c = s.
Proof.
  induction s as [|x s IH]; [done|]. cbn [Split].
  destruct (Split s c) as [|w ws] eqn:E; [by destruct (Split_not_nil s c)|].
  case_bool_decide as Hc; [subst x|].
  - cbn [Join]. change (match ws with [] => w | _ => w ++ c :: Join ws c end)
      with (Join (w :: ws) c). by rewrite IH.
  - cbn [Join] in *. by destruct ws; rewrite <- IH.
Qed.

Lemma Join_cons w ws c : ws ≠ [] → Join (w :: ws) c = w ++ c :: Join ws c.
Proof. by destruct ws. Qed.

Lemma Split_app w s c : c ∉ w → Split (w ++ c :: s) c = w :: Split s c.
Proof.
  induction w as [|x w IH]; intros H; cbn.
  - by rewrite bool_decide_true.
  - apply not_elem_of_cons in H as [H1 H2].
    rewrite bool_decide_false by done. by rewrite IH.
Qed.

Lemma Split_app_gen a b c : Split (a ++ c :: b) c = Split a c ++ Split b c.
Proof.
  induction a as [|x a IH]; cbn [app Split]; [by rewrite bool_decide_true|].
  rewrite IH. case_bool_decide; [done|].
  pose proof (Split_not_nil a c). by destruct (Split a c).
Qed.

Lemma Split_single w c : c ∉ w → Split w c = [w].
Proof.
  induction w as [|x w IH]; intros H; cbn; [done|].
  apply not_elem_of_cons in H as [H1 H2]. rewrite bool_decide_false by done. by rewrite IH.
Qed.

(** [strings.Split] undoes [strings.Join] on separator-free words. *)
Lemma Split_Join ws c :
  ws ≠ [] → Forall (λ w, c ∉ w) ws → Split (Join ws c) c = ws.
Proof.
  induction ws as [|w ws IH]; intros Hn Hf; [done|]. inv Hf.
  destruct ws as [|w' ws]; [cbn; by apply Split_single|].
  rewrite Join_cons by done. rewrite Split_app by done. f_equal. by apply IH.
Qed.

Lemma elem_of_Join x ws c : x ∈ Join ws c → x = c ∨ ∃ w, w ∈ ws ∧ x ∈ w.
Proof.
  induction ws as [|w ws IH]; cbn; [by intros ?%not_elem_of_nil|].
  destruct ws as [|w' ws].
  - intros. right. exists w. set_solver.
  - intros [H|[->|H]%elem_of_cons]%elem_of_app; [set_solver|by left|].
    destruct (IH H) as [->|(v & ? & ?)]; [by left|]. right. exists v. set_solver.
Qed.

Lemma elem_of_Join_segment x w ws c : w ∈ ws → x ∈ w → x ∈ Join ws c.
Proof.
  induction ws as [|v ws IH]; [by intros ?%not_elem_of_nil|].
  intros [->|Hw]%elem_of_cons Hx; destruct ws as [|u ws]; cbn [Join].
  - done.
  - apply elem_of_app. by left.
  - by apply not_elem_of_nil in Hw.
  - apply elem_of_app. right. apply elem_of_cons. right. by apply IH.
Qed.

(** ** Facts: the string order *)

Lemma str_leb_refl a : str_leb a a = true.
Proof. induction a; cbn; [done|]. by rewrite Z.ltb_irrefl. Qed.

Lemma str_leb_trans a b c : str_leb a b = true → str_leb b c = true → str_leb a c = true.
Proof.
  revert b c. induction a as [|x a IH]; intros [|y b] [|z c]; cbn; try done.
  destruct (Z.ltb_spec (code x) (code y)), (Z.ltb_spec (code y) (code z)),
    (Z.ltb_spec (code y) (code x)), (Z.ltb_spec (code z) (code y)),
    (Z.ltb_spec (code x) (code z)), (Z.ltb_spec (code z) (code x)); try lia; try done.
  apply IH.
Qed.

Lemma str_leb_total a b : str_leb a b = true ∨ str_leb b a = true.
Proof.
  revert b. induction a as [|x a IH]; intros [|y b]; cbn; auto.
  destruct (Z.ltb_spec (code x) (code y)), (Z.ltb_spec (code y) (code x)); auto; lia.
Qed.

Lemma str_leb_antisym a b : str_leb a b = true → str_leb b a = true → a = b.
Proof.
  revert b. induction a as [|x a IH]; intros [|y b]; cbn; try done.
  destruct (Z.ltb_spec (code x) (code y)), (Z.ltb_spec (code y) (code x)); try done; try lia.
  intros H1 H2. f_equal; [apply (inj code); lia|by apply IH].
Qed.

#[global] Instance str_le_preorder : PreOrder str_le.
Proof. split; [exact str_leb_refl|exact str_leb_trans]. Qed.
#[global] Instance str_le_antisymm : AntiSymm (=) str_le.
Proof. exact str_leb_antisym. Qed.
#[global] Instance str_le_total : Total str_le.
Proof. exact str_leb_total. Qed.

Lemma str_ltb_lt a b : str_ltb a b = true ↔ ¬ str_le b a.
Proof. unfold str_ltb, str_le. rewrite negb_true_iff, <- not_true_iff_false. done. Qed.

Lemma str_ltb_ge a b : str_ltb a b = false ↔ str_le b a.
Proof. unfold str_ltb, str_le. by rewrite negb_false_iff. Qed.

Lemma str_le_app a k : str_le a (a ++ k).
Proof. unfold str_le. induction a; cbn; [done|]. by rewrite Z.ltb_irrefl. Qed.

(** The strings with a given prefix form an interval that starts at it. *)
Lemma str_le_prefix_interval p k x :
  str_le p x → str_le x (p ++ k) → ∃ k', x = p ++ k'.
Proof.
  unfold str_le. revert x. induction p as [|c p IH]; intros x H1 H2; [by exists x|].
  destruct x as [|y x]; [done|]. cbn in *.
  destruct (Z.ltb_spec (code c) (code y)), (Z.ltb_spec (code y) (code c)); try done; try lia.
  destruct (IH x H1 H2) as [k' ->]. exists k'. cbn. f_equal. apply (inj code); lia.
Qed.

(** ** Facts: sorting and searching *)

Lemma sort_Strings_sorted l : StronglySorted str_le (sort_Strings l).
Proof. apply (StronglySorted_merge_sort str_le). Qed.

Lemma sort_Strings_perm l : sort_Strings l ≡ₚ l.
Proof. apply merge_sort_Permutation. Qed.

Lemma elem_of_sort_Strings l x : x ∈ sort_Strings l ↔ x ∈ l.
Proof. by rewrite sort_Strings_perm. Qed.

Lemma sorted_lookup_le l i j a b :
  StronglySorted str_le l → l !! i = Some a → l !! j = Some b → i ≤ j → str_le a b.
Proof.
  intros Hs. revert i j. induction Hs as [|x l Hs IH Hf]; intros i j Hi Hj Hij; [done|].
  destruct i as [|i], j as [|j]; simplify_eq/=; [done| |lia|eapply IH; eauto; lia].
  rewrite Forall_forall in Hf. apply Hf. by eapply list_elem_of_lookup_2.
Qed.

(** Everything before [i] is below [x], everything from [j] on is not. *)
Definition bracket (a : list str) (x : str) (i j : nat) : Prop :=
  (∀ k y, a !! k = Some y → k < i → ¬ str_le x y) ∧
  (∀ k y, a !! k = Some y → j ≤ k → str_le x y).

Lemma search_loop_spec fuel a x i j :
  StronglySorted str_le a → i ≤ j → j ≤ length a → j - i < fuel → bracket a x i j →
  let r := search_loop fuel a x i j in r ≤ length a ∧ bracket a x r r.
Proof.
  intros Hs. revert i j. induction fuel as [|fuel IH]; intros i j Hij Hj Hf Hb; [lia|].
  cbn zeta. cbn [search_loop]. destruct (Nat.ltb_spec i j) as [Hlt|Hge].
  2:{ assert (i = j) as -> by lia. split; [lia|done]. }
  destruct Hb as [Hlo Hhi].
  assert (i ≤ Nat.div2 (i + j) < j) as Hh.
  { rewrite Nat.div2_div. split; [apply Nat.div_le_lower_bound; lia|apply Nat.Div0.div_lt_upper_bound; lia]. }
  destruct (a !! Nat.div2 (i + j)) as [y|] eqn:Ey.
  2:{ apply lookup_ge_None in Ey. lia. }
  destruct (str_ltb y x) eqn:El.
  - apply str_ltb_lt in El. apply IH; [lia|lia|lia|]. split; [|done].
    intros k z Hk Hlt' Hxz. apply El. transitivity z; [done|].
    eapply sorted_lookup_le; eauto. lia.
  - apply str_ltb_ge in El. apply IH; [lia|lia|lia|]. split; [done|].
    intros k z Hk Hle. transitivity y; [done|]. eapply sorted_lookup_le; eauto.
Qed.

Lemma SearchStrings_spec a x :
  StronglySorted str_le a →
  SearchStrings a x ≤ length a ∧ bracket a x (SearchStrings a x) (SearchStrings a x).
Proof.
  intros Hs. apply search_loop_spec; [done|lia|lia|lia|]. split; intros k y Hk ?.
  - lia.
  - apply lookup_lt_Some in Hk. lia.
Qed.

(** A binary search for [p] in a sorted list finds an element with prefix
    [p] exactly when the list has one. *)
Lemma SearchStrings_prefix a p :
  StronglySorted str_le a →
  match a !! SearchStrings a p with
  | Some y => HasPrefix y p
  | None => false
  end = existsb (λ y, HasPrefix y p) a.
Proof.
  intros Hs. destruct (SearchStrings_spec a p Hs) as (_ & Hlo & Hhi).
  set (i := SearchStrings a p) in *. symmetry.
  destruct (existsb _ a) eqn:E.
  - apply existsb_elem_of in E as (y & Hy & [k ->]%HasPrefix_spec).
    apply list_elem_of_lookup in Hy as [j Hj].
    assert (i ≤ j) as Hij.
    { destruct (decide (j < i)); [|lia]. destruct (Hlo j (p ++ k)); auto. apply str_le_app. }
    destruct (a !! i) as [z|] eqn:Ez.
    2:{ apply lookup_ge_None in Ez. apply lookup_lt_Some in Hj. lia. }
    symmetry. apply HasPrefix_spec. eapply str_le_prefix_interval.
    + by apply (Hhi i z).
    + by eapply (sorted_lookup_le a i j).
  - destruct (a !! i) as [z|] eqn:Ez; [|done].
    rewrite existsb_false in E. symmetry. apply E. by eapply list_elem_of_lookup_2.
Qed.

(** ** Facts: runes *)

Lemma DecodeRune_width c s : 1 ≤ (DecodeRune (c :: s)).2 ≤ length (c :: s).
Proof.
  unfold DecodeRune. destruct (accept2 _) as [lo hi].
  repeat case_match; simplify_eq/=; lia.
Qed.

Lemma DecodeRune_ascii c s : (code c < 0x80)%Z → DecodeRune (c :: s) = (code c, 1).
Proof.
  intros H. unfold DecodeRune. destruct (accept2 _). by rewrite (proj2 (Z.ltb_lt _ _) H).
Qed.

Lemma runes_loop_concat fuel s :
  length s ≤ fuel → concat (snd <$> runes_loop fuel s) = s.
Proof.
  revert s. induction fuel as [|fuel IH]; intros [|c s] H; simpl in H; try done; [lia|].
  cbn [runes_loop]. pose proof (DecodeRune_width c s) as Hw.
  destruct (DecodeRune (c :: s)) as [r w]. cbn [snd] in Hw.
  cbn [fmap list_fmap snd concat]. rewrite IH.
  - apply take_drop.
  - rewrite length_drop. cbn [length] in *. lia.
Qed.

Lemma runes_concat s : concat (snd <$> runes s) = s.
Proof. by apply runes_loop_concat. Qed.

Lemma runes_loop_fuel f1 f2 s :
  length s ≤ f1 → length s ≤ f2 → runes_loop f1 s = runes_loop f2 s.
Proof.
  revert f2 s. induction f1 as [|f1 IH]; intros [|f2] [|c s] H1 H2; simpl in H1, H2; try done; try lia.
  cbn [runes_loop]. pose proof (DecodeRune_width c s) as Hw.
  destruct (DecodeRune (c :: s)) as [r w]. cbn [snd] in Hw. f_equal.
  apply IH; rewrite length_drop; cbn [length] in *; lia.
Qed.

(** The rune list of a string that starts with an ASCII byte. *)
Lemma runes_ascii c s : (code c < 0x80)%Z → runes (c :: s) = (code c, [c]) :: runes s.
Proof.
  intros H. unfold runes. cbn [length runes_loop]. by rewrite DecodeRune_ascii.
Qed.

Definition is_ascii (s : str) : Prop := Forall (λ c, (code c < 0x80)%Z) s.

Lemma runes_is_ascii s : is_ascii s → runes s = (λ c, (code c, [c])) <$> s.
Proof. induction 1 as [|c s Hc Hs IH]; [done|]. rewrite runes_ascii by done. by rewrite IH. Qed.

(** ** Facts: runes and ASCII bytes

    A byte below 0x80 is always a rune of its own, and no other rune has a
    value below 0x80; so a test for an ASCII rune is a test for the byte. *)

Lemma land_ge mask k lo hi :
  forallb (λ n, implb ((lo <=? Z.of_nat n) && (Z.of_nat n <=? hi))%Z (k <=? Z.land (Z.of_nat n) mask)%Z)
    (seq 0 256) = true →
  ∀ c, (lo <= code c <= hi)%Z → (k <= Z.land (code c) mask)%Z.
Proof.
  intros H c Hc. rewrite forallb_forall in H. pose proof (code_range c).
  specialize (H (Z.to_nat (code c))). rewrite Z2Nat.id in H by lia.
  assert (In (Z.to_nat (code c)) (seq 0 256)) as Hin by (apply in_seq; lia).
  specialize (H Hin). rewrite (proj2 (Z.leb_le lo _)), (proj2 (Z.leb_le _ hi)) in H by lia.
  by apply Z.leb_le in H.
Qed.

Lemma lor_ge_l a b : (0 <= a)%Z → (0 <= b)%Z → (a <= Z.lor a b)%Z.
Proof.
  intros Ha Hb. pose proof (Z.add_lor_land a b).
  assert (Z.land a b <= b)%Z; [|lia].
  rewrite Z.land_comm. apply Z.ldiff_le; [done|].
  apply Z.bits_inj'. intros n Hn. rewrite Z.ldiff_spec, Z.land_spec, Z.bits_0.
  by destruct (Z.testbit b n), (Z.testbit a n).
Qed.

Lemma lor_ge_r a b : (0 <= a)%Z → (0 <= b)%Z → (b <= Z.lor a b)%Z.
Proof. intros. rewrite Z.lor_comm. by apply lor_ge_l. Qed.

Lemma low6_nonneg c : (0 <= low6 c)%Z.
Proof. unfold low6. apply Z.land_nonneg. right. lia. Qed.

#[export] Hint Resolve low6_nonneg Z.lor_nonneg : go.

Lemma land_mask_nonneg c m : (0 <= m)%Z → (0 <= Z.land (code c) m)%Z.
Proof. intros. apply Z.land_nonneg. by right. Qed.

(** [a <= x] from [a <= y <= x], where [x] is built from [y] by [lor]s. *)
Ltac lor_nonneg :=
  repeat first
    [ apply low6_nonneg | apply land_mask_nonneg; lia
    | apply Z.lor_nonneg; split | apply Z.shiftl_nonneg ].

Lemma DecodeRune_high c s : (0x80 <= code c)%Z → (0x80 <= (DecodeRune (c :: s)).1)%Z.
Proof.
  intros Hc. unfold DecodeRune.
  destruct (accept2 (code c)) as [lo hi] eqn:Ea.
  rewrite (proj2 (Z.ltb_ge (code c) 0x80)) by done.
  destruct (Z.ltb_spec (code c) 0xC2) as [|H1]; [by vm_compute|].
  destruct (Z.ltb_spec (code c) 0xE0) as [H2|H2].
  { destruct s as [|c1 s]; [by vm_compute|]. destruct (cont lo hi c1); [|by vm_compute]. cbn [fst].
    etransitivity; [|apply lor_ge_l; lor_nonneg].
    pose proof (land_ge 0x1F 2 0xC2 0xDF eq_refl c ltac:(lia)). rewrite Z.shiftl_mul_pow2 by lia. lia. }
  destruct (Z.ltb_spec (code c) 0xF0) as [H3|H3].
  { destruct s as [|c1 [|c2 s]]; [by vm_compute..|].
    destruct (cont lo hi c1 && _) eqn:Ec; [|by vm_compute]. breflect. cbn [fst].
    etransitivity; [|apply lor_ge_l; lor_nonneg].
    destruct (decide (code c = 0xE0)%Z) as [E|E].
    - unfold accept2 in Ea. rewrite (proj2 (Z.eqb_eq _ _) E) in Ea. simplify_eq.
      unfold cont in *. breflect. etransitivity; [|apply lor_ge_r; lor_nonneg].
      pose proof (land_ge 0x3F 0x20 0xA0 0xBF eq_refl c1 ltac:(lia)). unfold low6.
      rewrite Z.shiftl_mul_pow2 by lia. lia.
    - etransitivity; [|apply lor_ge_l; lor_nonneg].
      pose proof (land_ge 0x0F 1 0xE1 0xEF eq_refl c ltac:(lia)). rewrite Z.shiftl_mul_pow2 by lia. lia. }
  destruct (Z.ltb_spec (code c) 0xF5) as [H4|H4]; [|by vm_compute].
  destruct s as [|c1 [|c2 [|c3 s]]]; [by vm_compute..|].
  destruct (cont lo hi c1 && _ && _) eqn:Ec; [|by vm_compute]. breflect. cbn [fst].
  etransitivity; [|apply lor_ge_l; lor_nonneg]. etransitivity; [|apply lor_ge_l; lor_nonneg].
  destruct (decide (code c = 0xF0)%Z) as [E|E].
  - unfold accept2 in Ea. rewrite E in Ea. cbn in Ea. simplify_eq.
    unfold cont in *. breflect. etransitivity; [|apply lor_ge_r; lor_nonneg].
    pose proof (land_ge 0x3F 0x10 0x90 0xBF eq_refl c1 ltac:(lia)). unfold low6.
    rewrite Z.shiftl_mul_pow2 by lia. lia.
  - etransitivity; [|apply lor_ge_l; lor_nonneg].
    pose proof (land_ge 0x07 1 0xF1 0xF4 eq_refl c ltac:(lia)). rewrite Z.shiftl_mul_pow2 by lia. lia.
Qed.

Lemma cont_high lo hi c : (0x80 <= lo)%Z → cont lo hi c = true → (0x80 <= code c)%Z.
Proof. unfold cont. intros ? H. breflect. lia. Qed.

Lemma accept2_lo x : (0x80 <= (accept2 x).1)%Z.
Proof. unfold accept2. repeat case_match; cbn; lia. Qed.

Lemma DecodeRune_high_bytes c s :
  (0x80 <= code c)%Z →
  Forall (λ b, (0x80 <= code b)%Z) (take (DecodeRune (c :: s)).2 (c :: s)).
Proof.
  intros Hc. unfold DecodeRune. pose proof (accept2_lo (code c)) as Hlo.
  destruct (accept2 (code c)) as [lo hi]. cbn [fst] in Hlo.
  repeat case_match; breflect; cbn [snd]; cbn -[code];
    repeat (apply Forall_cons; split); try apply Forall_nil; try lia;
    (eapply cont_high; [|eassumption]; lia).
Qed.

(** What a decoded rune can look like. *)
Definition chunk_ok (ru : Z * str) : Prop :=
  (∃ c, ru = (code c, [c]) ∧ (code c < 0x80)%Z) ∨
  ((0x80 <= ru.1)%Z ∧ Forall (λ b, (0x80 <= code b)%Z) ru.2 ∧ ru.2 ≠ []).

Lemma runes_chunks s : Forall chunk_ok (runes s).
Proof.
  unfold runes. generalize (length s) as fuel. intros fuel. revert s.
  induction fuel as [|fuel IH]; intros [|c s]; cbn [runes_loop]; try done.
  pose proof (DecodeRune_width c s) as Hw.
  destruct (DecodeRune (c :: s)) as [r w] eqn:E. constructor; [|apply IH].
  destruct (Z.lt_ge_cases (code c) 0x80) as [H|H].
  - left. exists c. rewrite DecodeRune_ascii in E by done. by simplify_eq.
  - right. pose proof (DecodeRune_high c s H) as H1. pose proof (DecodeRune_high_bytes c s H) as H2.
    rewrite E in H1, H2. cbn [snd] in Hw. split_and!; try done. by destruct w; [lia|].
Qed.

(** An ASCII byte occurs in a string exactly when its rune does. *)
Lemma ascii_byte_rune s c :
  (code c < 0x80)%Z → c ∈ s ↔ ∃ bs, (code c, bs) ∈ runes s.
Proof.
  intros Hc. pose proof (runes_chunks s) as Hf. rewrite Forall_forall in Hf. split.
  - intros H. rewrite <- (runes_concat s) in H.
    apply list_elem_of_In, in_concat in H as (bs & Hbs & Hin).
    apply list_elem_of_In, list_elem_of_fmap in Hbs as (ru & -> & Hru).
    apply list_elem_of_In in Hin. destruct (Hf ru Hru) as [(d & -> & Hd)|(_ & Hb & _)].
    + cbn in Hin. apply list_elem_of_singleton in Hin as ->. eauto.
    + rewrite Forall_forall in Hb. apply Hb in Hin. lia.
  - intros [bs Hru]. destruct (Hf _ Hru) as [(d & Heq & Hd)|(H & _)]; [|cbn in H; lia].
    simplify_eq. rewrite <- (runes_concat s).
    apply list_elem_of_In, in_concat. exists [d]. split; [|by left].
    apply list_elem_of_In, list_elem_of_fmap. by exists (code d, [d]).
Qed.

(** Trimming keeps a sublist of the runes, so it invents no byte. *)
Lemma drop_while_suffix {A} (P : A → bool) l : ∃ k, l = k ++ drop_while P l.
Proof.
  induction l as [|x l [k IH]]; [by exists []|]. cbn. destruct (P x); [|by exists []].
  exists (x :: k). cbn. by rewrite <- IH.
Qed.

Lemma TrimSpace_infix s : ∃ a b, s = a ++ TrimSpace s ++ b.
Proof.
  unfold TrimSpace. set (sp := λ ru : Z * str, IsSpace ru.1).
  destruct (drop_while_suffix sp (runes s)) as [k Hk].
  destruct (drop_while_suffix sp (rev (drop_while sp (runes s)))) as [k' Hk'].
  exists (concat (snd <$> k)), (concat (snd <$> rev k')).
  rewrite <- concat_app, <- fmap_app, <- rev_app_distr, <- Hk', rev_involutive.
  rewrite <- concat_app, <- fmap_app, <- Hk. by rewrite runes_concat.
Qed.

Lemma elem_of_TrimSpace s c : c ∈ TrimSpace s → c ∈ s.
Proof. destruct (TrimSpace_infix s) as (a & b & E). rewrite E at 2. set_solver. Qed.
