(* ===== verification/GoUtf8.v ===== *)
(** * UTF-8: decoding and encoding agree

    [EncodeRune] gives back the bytes a valid encoding was decoded from, and a
    decoded rune does not depend on what follows its bytes. *)

From S2P Require Import Prelude GoString.

Local Open Scope Z_scope.

(** ** Masks as arithmetic *)

Lemma lor_add a b k : 0 <= k → 0 <= b < 2 ^ k → Z.lor (a * 2 ^ k) b = a * 2 ^ k + b.
Proof.
  intros Hk Hb. rewrite <- Z.add_lor_land. enough (Z.land (a * 2 ^ k) b = 0) as -> by lia.
  apply Z.bits_inj'. intros n Hn. rewrite Z.land_spec, Z.bits_0, <- (Z.mod_small b (2 ^ k)) by done.
  destruct (Z.lt_ge_cases n k).
  - by rewrite Z.mul_pow2_bits_low.
  - rewrite Z.mod_pow2_bits_high by lia. apply andb_false_r.
Qed.

Lemma land_ones_mod a k : 0 <= k → Z.land a (Z.ones k) = a mod 2 ^ k.
Proof. intros. by apply Z.land_ones. Qed.

(** A byte below a power of two is its own remainder. *)
Lemma low6_arith c : (0x80 <= code c <= 0xBF) → low6 c = code c - 0x80.
Proof.
  intros Hc. unfold low6. change 0x3F with (Z.ones 6). rewrite land_ones_mod by lia.
  change (2 ^ 6) with 64. symmetry. apply (Z.mod_unique _ _ 2); lia.
Qed.

Definition cont_byte (z : Z) : ascii := chr (Z.lor 0x80 (Z.land z 0x3F)).

Lemma cont_byte_arith z c : code c = 0x80 + z mod 64 → cont_byte z = c.
Proof.
  intros Hc. unfold cont_byte. change 0x3F with (Z.ones 6). rewrite land_ones_mod by lia.
  change (Z.lor 0x80 (z mod 2 ^ 6)) with (Z.lor (2 * 2 ^ 6) (z mod 2 ^ 6)).
  rewrite lor_add by (try apply Z.mod_pos_bound; lia).
  change (2 * 2 ^ 6 + z mod 2 ^ 6) with (0x80 + z mod 64). rewrite <- Hc. apply chr_code.
Qed.

(** The lead byte's bits. *)
Lemma lead_arith x k q : 0 <= k → q * 2 ^ k <= x < (q + 1) * 2 ^ k → Z.land x (Z.ones k) = x - q * 2 ^ k.
Proof.
  intros Hk Hx. rewrite land_ones_mod by done. symmetry. apply (Z.mod_unique _ _ q); nia.
Qed.

(** Two, three and four bytes put together. *)
Lemma join6 a b : 0 <= b < 64 → Z.lor (Z.shiftl a 6) b = a * 64 + b.
Proof. intros. rewrite Z.shiftl_mul_pow2 by lia. apply (lor_add a b 6); lia. Qed.

Lemma rune2 x c1 : 0xC0 <= x < 0xE0 → 0x80 <= code c1 <= 0xBF →
  Z.lor (Z.shiftl (Z.land x 0x1F) 6) (low6 c1) = (x - 0xC0) * 64 + (code c1 - 0x80).
Proof.
  intros Hx H1. rewrite low6_arith by done. change 0x1F with (Z.ones 5). rewrite (lead_arith x 5 6) by lia.
  apply join6. lia.
Qed.

Lemma shiftl_12 a : Z.shiftl a 12 = a * 64 * 64.
Proof. rewrite Z.shiftl_mul_pow2 by lia. change (2 ^ 12) with (64 * 64). ring. Qed.
Lemma shiftl_18 a : Z.shiftl a 18 = a * 64 * 64 * 64.
Proof. rewrite Z.shiftl_mul_pow2 by lia. change (2 ^ 18) with (64 * 64 * 64). ring. Qed.

Lemma lor_64 a b : 0 <= b < 64 → Z.lor (a * 64) b = a * 64 + b.
Proof. intros. apply (lor_add a b 6); lia. Qed.
Lemma lor_4096 a b : 0 <= b < 4096 → Z.lor (a * 64 * 64) b = a * 64 * 64 + b.
Proof. intros. rewrite <- Z.mul_assoc. apply (lor_add a b 12); lia. Qed.
Lemma lor_262144 a b : 0 <= b < 262144 → Z.lor (a * 64 * 64 * 64) b = a * 64 * 64 * 64 + b.
Proof.
  intros. replace (a * 64 * 64 * 64) with (a * 2 ^ 18) by (change (2 ^ 18) with (64 * 64 * 64); ring).
  apply lor_add; lia.
Qed.

Lemma rune3 x c1 c2 : 0xE0 <= x < 0xF0 → 0x80 <= code c1 <= 0xBF → 0x80 <= code c2 <= 0xBF →
  Z.lor (Z.lor (Z.shiftl (Z.land x 0x0F) 12) (Z.shiftl (low6 c1) 6)) (low6 c2)
  = (x - 0xE0) * 64 * 64 + (code c1 - 0x80) * 64 + (code c2 - 0x80).
Proof.
  intros Hx H1 H2. rewrite !low6_arith by done. change 0x0F with (Z.ones 4). rewrite (lead_arith x 4 14) by lia.
  change (14 * 2 ^ 4) with 0xE0. rewrite shiftl_12, Z.shiftl_mul_pow2 by lia. change (2 ^ 6) with 64.
  rewrite lor_4096 by lia.
  replace ((x - 0xE0) * 64 * 64 + (code c1 - 128) * 64) with (((x - 0xE0) * 64 + (code c1 - 128)) * 64) by ring.
  rewrite lor_64 by lia. ring.
Qed.

Lemma rune4 x c1 c2 c3 : 0xF0 <= x < 0xF8 →
  0x80 <= code c1 <= 0xBF → 0x80 <= code c2 <= 0xBF → 0x80 <= code c3 <= 0xBF →
  Z.lor (Z.lor (Z.lor (Z.shiftl (Z.land x 0x07) 18) (Z.shiftl (low6 c1) 12)) (Z.shiftl (low6 c2) 6)) (low6 c3)
  = (x - 0xF0) * 64 * 64 * 64 + (code c1 - 0x80) * 64 * 64 + (code c2 - 0x80) * 64 + (code c3 - 0x80).
Proof.
  intros Hx H1 H2 H3. rewrite !low6_arith by done. change 0x07 with (Z.ones 3). rewrite (lead_arith x 3 30) by lia.
  change (30 * 2 ^ 3) with 0xF0. rewrite shiftl_18, shiftl_12, Z.shiftl_mul_pow2 by lia. change (2 ^ 6) with 64.
  rewrite lor_262144 by lia.
  replace ((x - 0xF0) * 64 * 64 * 64 + (code c1 - 128) * 64 * 64)
    with (((x - 0xF0) * 64 + (code c1 - 128)) * 64 * 64) by ring.
  rewrite lor_4096 by lia.
  replace (((x - 0xF0) * 64 + (code c1 - 128)) * 64 * 64 + (code c2 - 128) * 64)
    with ((((x - 0xF0) * 64 + (code c1 - 128)) * 64 + (code c2 - 128)) * 64) by ring.
  rewrite lor_64 by lia. ring.
Qed.

(** ** Encoding what was decoded *)

Lemma EncodeRune_ascii r : 0 <= r < 0x80 → EncodeRune r = [chr r].
Proof.
  intros Hr. unfold EncodeRune.
  replace ((r <? 0) || (0x10FFFF <? r) || ((0xD800 <=? r) && (r <=? 0xDFFF))) with false by lia.
  by rewrite (proj2 (Z.ltb_lt r 0x80)) by lia.
Qed.

Lemma lead_byte q k y c : 0 <= k → 0 <= y < 2 ^ k → code c = q * 2 ^ k + y → chr (Z.lor (q * 2 ^ k) y) = c.
Proof. intros Hk Hy Hc. rewrite lor_add by done. rewrite <- Hc. apply chr_code. Qed.

Lemma EncodeRune2 c0 c1 : 0xC2 <= code c0 < 0xE0 → 0x80 <= code c1 <= 0xBF →
  EncodeRune ((code c0 - 0xC0) * 64 + (code c1 - 0x80)) = [c0; c1].
Proof.
  intros H0 H1. set (r := _ + _). assert (0x80 <= r < 0x800) by lia. unfold EncodeRune.
  replace ((r <? 0) || (0x10FFFF <? r) || ((0xD800 <=? r) && (r <=? 0xDFFF))) with false by lia.
  rewrite (proj2 (Z.ltb_ge r 0x80)), (proj2 (Z.ltb_lt r 0x800)) by lia.
  assert (r / 64 = code c0 - 0xC0) as Ed by (symmetry; apply (Z.div_unique _ _ _ (code c1 - 0x80)); lia).
  assert (r mod 64 = code c1 - 0x80) as Em by (symmetry; apply (Z.mod_unique _ _ (code c0 - 0xC0)); lia).
  f_equal; [|f_equal; apply cont_byte_arith; lia].
  rewrite Z.shiftr_div_pow2 by lia. change (2 ^ 6) with 64. rewrite Ed. apply (lead_byte 6 5); lia.
Qed.

Lemma EncodeRune3 c0 c1 c2 : 0xE0 <= code c0 < 0xF0 →
  0x80 <= code c1 <= 0xBF → 0x80 <= code c2 <= 0xBF →
  (code c0 = 0xE0 → 0xA0 <= code c1) → (code c0 = 0xED → code c1 <= 0x9F) →
  EncodeRune ((code c0 - 0xE0) * 64 * 64 + (code c1 - 0x80) * 64 + (code c2 - 0x80)) = [c0; c1; c2].
Proof.
  intros H0 H1 H2 Hlo Hsur. set (r := _ + _). assert (0x800 <= r < 0x10000) by lia.
  assert (r < 0xD800 ∨ 0xDFFF < r) by lia. unfold EncodeRune.
  replace ((r <? 0) || (0x10FFFF <? r) || ((0xD800 <=? r) && (r <=? 0xDFFF))) with false by lia.
  rewrite (proj2 (Z.ltb_ge r 0x80)), (proj2 (Z.ltb_ge r 0x800)), (proj2 (Z.ltb_lt r 0x10000)) by lia.
  assert (r / 64 = (code c0 - 0xE0) * 64 + (code c1 - 0x80)) as Ed
    by (symmetry; apply (Z.div_unique _ _ _ (code c2 - 0x80)); lia).
  assert (r mod 64 = code c2 - 0x80) as Em by (symmetry; apply (Z.mod_unique _ _ ((code c0 - 0xE0) * 64 + (code c1 - 0x80))); lia).
  rewrite !Z.shiftr_div_pow2 by lia. change (2 ^ 12) with (64 * 64). change (2 ^ 6) with 64.
  rewrite <- Z.div_div, Ed by lia.
  assert (((code c0 - 0xE0) * 64 + (code c1 - 0x80)) / 64 = code c0 - 0xE0) as ->
    by (symmetry; apply (Z.div_unique _ _ _ (code c1 - 0x80)); lia).
  f_equal; [apply (lead_byte 14 4); lia|]. f_equal; [|f_equal; apply cont_byte_arith; lia].
  apply cont_byte_arith.
  rewrite <- (Z.mod_unique ((code c0 - 0xE0) * 64 + (code c1 - 0x80)) 64 (code c0 - 0xE0) (code c1 - 0x80)); lia.
Qed.

Lemma EncodeRune4 c0 c1 c2 c3 : 0xF0 <= code c0 < 0xF5 →
  0x80 <= code c1 <= 0xBF → 0x80 <= code c2 <= 0xBF → 0x80 <= code c3 <= 0xBF →
  (code c0 = 0xF0 → 0x90 <= code c1) → (code c0 = 0xF4 → code c1 <= 0x8F) →
  EncodeRune ((code c0 - 0xF0) * 64 * 64 * 64 + (code c1 - 0x80) * 64 * 64 + (code c2 - 0x80) * 64
              + (code c3 - 0x80)) = [c0; c1; c2; c3].
Proof.
  intros H0 H1 H2 H3 Hlo Hhi. set (r := _ + _). assert (0x10000 <= r <= 0x10FFFF) by lia. unfold EncodeRune.
  replace ((r <? 0) || (0x10FFFF <? r) || ((0xD800 <=? r) && (r <=? 0xDFFF))) with false by lia.
  rewrite (proj2 (Z.ltb_ge r 0x80)), (proj2 (Z.ltb_ge r 0x800)), (proj2 (Z.ltb_ge r 0x10000)) by lia.
  set (a := (code c0 - 0xF0) * 64 + (code c1 - 0x80)). set (b := a * 64 + (code c2 - 0x80)).
  assert (r / 64 = b) as Ed by (symmetry; apply (Z.div_unique _ _ _ (code c3 - 0x80)); lia).
  assert (r mod 64 = code c3 - 0x80) as Em by (symmetry; apply (Z.mod_unique _ _ b); lia).
  assert (b / 64 = a) as Eb by (symmetry; apply (Z.div_unique _ _ _ (code c2 - 0x80)); lia).
  assert (a / 64 = code c0 - 0xF0) as Ea by (symmetry; apply (Z.div_unique _ _ _ (code c1 - 0x80)); lia).
  rewrite !Z.shiftr_div_pow2 by lia. change (2 ^ 18) with (64 * (64 * 64)). change (2 ^ 12) with (64 * 64).
  change (2 ^ 6) with 64. rewrite <- !Z.div_div, Ed, Eb, Ea by lia.
  f_equal; [apply (lead_byte 30 3); lia|].
  f_equal; [apply cont_byte_arith; rewrite <- (Z.mod_unique a 64 (code c0 - 0xF0) (code c1 - 0x80)); lia|].
  f_equal; [apply cont_byte_arith; rewrite <- (Z.mod_unique b 64 a (code c2 - 0x80)); lia|].
  f_equal. apply cont_byte_arith. lia.
Qed.

Lemma cont_range lo hi c : cont lo hi c = true → lo <= code c <= hi.
Proof. unfold cont. intros H. breflect. lia. Qed.

Lemma accept2_range x : 0x80 <= (accept2 x).1 ∧ (accept2 x).2 <= 0xBF ∧
  (x = 0xE0 → (accept2 x).1 = 0xA0) ∧ (x = 0xED → (accept2 x).2 = 0x9F) ∧
  (x = 0xF0 → (accept2 x).1 = 0x90) ∧ (x = 0xF4 → (accept2 x).2 = 0x8F).
Proof. unfold accept2. repeat case_match; breflect; cbn; lia. Qed.

(** A valid encoding: not the replacement of one stray byte. *)
Definition valid_rune (r : Z) (w : nat) : Prop := ¬ (r = RuneError ∧ w = 1%nat).

(** The bytes of a valid rune decode to it whatever follows, and encode it. *)
Lemma DecodeRune_valid c s r w :
  DecodeRune (c :: s) = (r, w) → valid_rune r w →
  EncodeRune r = take w (c :: s) ∧ ∀ t, DecodeRune (take w (c :: s) ++ t) = (r, w).
Proof.
  unfold DecodeRune. destruct (accept2_range (code c)) as (Hlo & Hhi & HE0 & HED & HF0 & HF4).
  destruct (accept2 (code c)) as [lo hi] eqn:Ea. cbn [fst snd] in *. pose proof (code_range c) as Hc.
  assert (∀ r w, (RuneError, 1%nat) = (r, w) → valid_rune r w → False) as Hbad
    by (intros ? ? [= <- <-] Hv; by apply Hv).
  destruct (Z.ltb_spec (code c) 0x80) as [H1|H1].
  { intros [= <- <-] _. rewrite EncodeRune_ascii, chr_code by lia. split; [done|]. intros t. cbn [take app].
    rewrite Ea. by rewrite (proj2 (Z.ltb_lt (code c) 0x80)). }
  destruct (Z.ltb_spec (code c) 0xC2) as [H2|H2]; [intros; by exfalso; eapply Hbad|].
  destruct (Z.ltb_spec (code c) 0xE0) as [H3|H3].
  { destruct s as [|c1 s]; [intros; by exfalso; eapply Hbad|].
    destruct (cont lo hi c1) eqn:E1; [|intros; by exfalso; eapply Hbad].
    pose proof (cont_range _ _ _ E1). intros [= <- <-] _. split.
    - rewrite rune2 by lia. apply EncodeRune2; lia.
    - intros t. cbn [take app]. rewrite Ea. rewrite (proj2 (Z.ltb_ge (code c) 0x80)),
        (proj2 (Z.ltb_ge (code c) 0xC2)), (proj2 (Z.ltb_lt (code c) 0xE0)) by lia. by rewrite E1. }
  destruct (Z.ltb_spec (code c) 0xF0) as [H4|H4].
  { destruct s as [|c1 [|c2 s]]; try (intros; by exfalso; eapply Hbad).
    destruct (cont lo hi c1 && cont 0x80 0xBF c2) eqn:E1; [|intros; by exfalso; eapply Hbad].
    pose proof E1 as [E2%cont_range E3%cont_range]%andb_true_iff. intros [= <- <-] _. split.
    - rewrite rune3 by lia. apply EncodeRune3; lia.
    - intros t. cbn [take app]. rewrite Ea. rewrite (proj2 (Z.ltb_ge (code c) 0x80)),
        (proj2 (Z.ltb_ge (code c) 0xC2)), (proj2 (Z.ltb_ge (code c) 0xE0)), (proj2 (Z.ltb_lt (code c) 0xF0)) by lia.
      by rewrite E1. }
  destruct (Z.ltb_spec (code c) 0xF5) as [H5|H5]; [|intros; by exfalso; eapply Hbad].
  destruct s as [|c1 [|c2 [|c3 s]]]; try (intros; by exfalso; eapply Hbad).
  destruct (cont lo hi c1 && cont 0x80 0xBF c2 && cont 0x80 0xBF c3) eqn:E1; [|intros; by exfalso; eapply Hbad].
  pose proof E1 as [[E2%cont_range E3%cont_range]%andb_true_iff E4%cont_range]%andb_true_iff. intros [= <- <-] _. split.
  - rewrite rune4 by lia. apply EncodeRune4; lia.
  - intros t. cbn [take app]. rewrite Ea. rewrite (proj2 (Z.ltb_ge (code c) 0x80)),
      (proj2 (Z.ltb_ge (code c) 0xC2)), (proj2 (Z.ltb_ge (code c) 0xE0)), (proj2 (Z.ltb_ge (code c) 0xF0)),
      (proj2 (Z.ltb_lt (code c) 0xF5)) by lia. by rewrite E1.
Qed.

(** ** Strings *)

(** A decoded rune: its bytes are a valid encoding, or one stray byte. *)
Definition chunk (ru : Z * str) : Prop :=
  (ru.1 = RuneError ∧ length ru.2 = 1%nat) ∨
  (valid_rune ru.1 (length ru.2) ∧ EncodeRune ru.1 = ru.2 ∧
   ∀ t, DecodeRune (ru.2 ++ t) = (ru.1, length ru.2)).

Lemma runes_chunk s : Forall chunk (runes s).
Proof.
  unfold runes. generalize (length s) as fuel. intros fuel. revert s.
  induction fuel as [|fuel IH]; intros [|c s]; cbn [runes_loop]; try done.
  pose proof (DecodeRune_width c s) as Hw. destruct (DecodeRune (c :: s)) as [r w] eqn:E. cbn [snd] in Hw.
  constructor; [|apply IH]. assert (length (take w (c :: s)) = w) as Hl by (rewrite length_take; lia).
  destruct (decide (r = RuneError ∧ w = 1%nat)) as [[-> ->]|Hv]; [left; done|right]. cbn [fst snd].
  destruct (DecodeRune_valid _ _ _ _ E Hv) as [? ?]. rewrite Hl. done.
Qed.

(** [utf8.ValidString]. *)
Definition utf8_Valid (s : str) : bool :=
  forallb (λ ru : Z * str, negb ((ru.1 =? RuneError) && (length ru.2 =? 1)%nat)) (runes s).

(** Stray bytes replaced by [RuneError]. *)
Definition to_valid (s : str) : str := MapRunes id s.

Lemma to_valid_id s : utf8_Valid s = true → to_valid s = s.
Proof.
  intros Hv. unfold to_valid, MapRunes. rewrite <- (runes_concat s) at 2. f_equal.
  unfold utf8_Valid in Hv. rewrite forallb_forall in Hv. apply list_fmap_ext. intros i [r bs] Hi.
  assert ((r, bs) ∈ runes s) as Hin by (by eapply list_elem_of_lookup_2).
  pose proof (Hv _ (proj1 (list_elem_of_In _ _) Hin)) as Hb. cbn [fst snd id] in *.
  destruct (proj1 (Forall_forall _ _) (runes_chunk s) _ Hin) as [[E1 E2]|(_ & ? & _)]; [|done].
  cbn in E1, E2. by rewrite E1, E2 in Hb.
Qed.

Lemma ascii_valid s : is_ascii s → utf8_Valid s = true.
Proof.
  intros Hs. unfold utf8_Valid. rewrite runes_is_ascii by done. apply forallb_forall. intros ru Hin.
  apply list_elem_of_In, list_elem_of_fmap in Hin as (c & -> & Hc). cbn [fst snd].
  eapply Forall_forall in Hs; [|done]. cbn in Hs. unfold RuneError.
  rewrite (proj2 (Z.eqb_neq _ _)); [done|lia].
Qed.
