(* ===== verification/GoPath.v ===== *)
(** * [path.Clean] and [filepath.Join]

    [Clean] is the byte-level, single-pass algorithm of Go's [path] package;
    [resolve] is the reference: resolve the slash-separated segments against
    a stack.  [Clean_relative] proves the two agree on relative paths. *)

From S2P Require Import Prelude GoString.

(** ** The algorithm

    The loop reads [rest] and writes [out]; [dotdot] is the index in [out]
    where a ".." must stop backtracking. *)

(** [out.w--; for out.w > dotdot && out.index(out.w) != '/' { out.w-- }],
    from the already decremented [w]. *)
Fixpoint unwind (out : str) (dotdot w : nat) : nat :=
  match w with
  | O => O
  | S w' => if (dotdot <? w) && negb (bool_decide (out !! w = Some slash))
            then unwind out dotdot w' else w
  end.

(** The bytes of the element at the front, and what follows it. *)
Fixpoint span_elem (s : str) : str * str :=
  match s with
  | [] => ([], [])
  | c :: s' => if bool_decide (c = slash) then ([], s)
               else let '(e, r) := span_elem s' in (c :: e, r)
  end.

(** Whether [s] is at the end of the path or at a slash. *)
Definition at_sep (s : str) : bool :=
  match s with [] => true | c :: _ => bool_decide (c = slash) end.

Fixpoint clean_loop (fuel : nat) (rooted : bool) (rest out : str) (dotdot : nat) : str :=
  match fuel with
  | O => out
  | S fuel' =>
      match rest with
      | [] => out
      | c :: r =>
          if bool_decide (c = slash) then clean_loop fuel' rooted r out dotdot
          else if bool_decide (c = dot) && at_sep r then clean_loop fuel' rooted r out dotdot
          else if bool_decide (c = dot) && bool_decide (head r = Some dot) && at_sep (tail r) then
            let r' := tail r in
            if dotdot <? length out then
              let w := unwind out dotdot (length out - 1) in
              clean_loop fuel' rooted r' (take w out) dotdot
            else if negb rooted then
              let out' := (if 0 <? length out then out ++ [slash] else out) ++ [dot; dot] in
              clean_loop fuel' rooted r' out' (length out')
            else clean_loop fuel' rooted r' out dotdot
          else
            let out' := if (rooted && negb (length out =? 1)) || (negb rooted && negb (length out =? 0))
                        then out ++ [slash] else out in
            let '(e, r') := span_elem rest in
            clean_loop fuel' rooted r' (out' ++ e) dotdot
      end
  end.

Definition Clean (p : str) : str :=
  match p with
  | [] => [dot]
  | c :: r =>
      let rooted := bool_decide (c = slash) in
      let out := if rooted then clean_loop (length p) true r [slash] 1
                 else clean_loop (length p) false p [] 0 in
      match out with [] => [dot] | _ => out end
  end.

(** [filepath.Join] of two elements on Unix: empty elements are ignored. *)
Definition FilepathJoin (dir name : str) : str :=
  match dir, name with
  | [], [] => []
  | [], _ => Clean name
  | _, [] => Clean dir
  | _, _ => Clean (dir ++ slash :: name)
  end.

(** ** The reference

    A resolved relative path is a number [k] of leading ".." and the stack
    [st] of real segments below them. *)

Definition dotdots : str := [dot; dot].

Definition push_segment (seg : str) (kst : nat * list str) : nat * list str :=
  let '(k, st) := kst in
  if bool_decide (seg = []) || bool_decide (seg = [dot]) then (k, st)
  else if bool_decide (seg = dotdots) then
    match st with
    | [] => (S k, [])
    | _ :: _ => (k, removelast st)
    end
  else (k, st ++ [seg]).

Definition resolve (segs : list str) : nat * list str :=
  foldl (λ kst seg, push_segment seg kst) (0, []) segs.

(** The text of a resolved path. *)
Definition render (kst : nat * list str) : str :=
  Join (replicate kst.1 dotdots ++ kst.2) slash.

(** A real segment: none of "", ".", "..", and no slash inside. *)
Definition real_segment (seg : str) : Prop :=
  seg ≠ [] ∧ seg ≠ [dot] ∧ seg ≠ dotdots ∧ slash ∉ seg.

(** ** Correctness of [Clean] *)

Lemma span_elem_app e s : slash ∉ e → at_sep s = true → span_elem (e ++ s) = (e, s).
Proof.
  intros He Hs. induction e as [|c e IH]; cbn.
  - destruct s as [|d s]; [done|]. cbn in *. by rewrite Hs.
  - apply not_elem_of_cons in He as [? ?]. rewrite bool_decide_false by done.
    by rewrite IH.
Qed.

(** Backtracking from inside the last element stops where it began. *)
Lemma unwind_spec pre tl e dd n :
  slash ∉ e → dd ≤ length pre → tl = e ∧ length pre = dd ∨ tl = slash :: e →
  n < length tl → unwind (pre ++ tl) dd (length pre + n) = length pre.
Proof.
  intros He Hdd Htl. induction n as [|n IH]; intros Hn.
  - rewrite Nat.add_0_r. destruct (length pre) as [|w] eqn:Ew; [done|].
    cbn [unwind]. destruct (Nat.ltb_spec dd (S w)) as [Hlt|]; [|done].
    destruct Htl as [[-> ?]| ->]; [lia|].
    rewrite <- Ew, list_lookup_middle by done. by rewrite bool_decide_true.
  - rewrite Nat.add_succ_r. cbn [unwind].
    rewrite (proj2 (Nat.ltb_lt dd (S (length pre + n)))) by lia.
    replace (S (length pre + n)) with (length pre + S n) by lia.
    rewrite lookup_app_r by lia. replace (length pre + S n - length pre) with (S n) by lia.
    rewrite bool_decide_false.
    + cbn. apply IH. lia.
    + destruct Htl as [[-> _]| ->]; cbn; intros H; apply He.
      * by eapply list_elem_of_lookup_2.
      * by eapply list_elem_of_lookup_2.
Qed.

Lemma Join_snoc ws w c : ws ≠ [] → Join (ws ++ [w]) c = Join ws c ++ c :: w.
Proof.
  induction ws as [|v ws IH]; intros H; [done|]. cbn [app].
  destruct ws as [|u ws]; [done|].
  rewrite (Join_cons v) by (by destruct ws). rewrite IH by done.
  rewrite (Join_cons v) by done. by rewrite <- app_assoc.
Qed.

Lemma Join_length_app ws ws' c : length (Join ws c) ≤ length (Join (ws ++ ws') c).
Proof.
  induction ws as [|w ws IH]; [cbn; lia|]. destruct ws as [|v ws].
  - destruct ws'; [done|]. cbn [app]. rewrite (Join_cons w (_ :: _)) by done.
    rewrite length_app. cbn; lia.
  - cbn [app] in *. rewrite (Join_cons w (v :: ws)), (Join_cons w (v :: ws ++ ws')) by done.
    rewrite !length_app. cbn [length]. lia.
Qed.

Lemma Join_nonempty ws c : Forall (λ w, w ≠ []) ws → Join ws c = [] → ws = [].
Proof.
  intros Hf. destruct ws as [|w ws]; [done|]. inv Hf. cbn.
  destruct ws; [done|]. by destruct w.
Qed.

Definition wf_state (kst : nat * list str) : Prop := Forall real_segment kst.2.

Lemma wf_state_nonempty kst :
  wf_state kst → Forall (λ w, w ≠ []) (replicate kst.1 dotdots ++ kst.2).
Proof.
  intros H. apply Forall_app. split; [by apply Forall_replicate|].
  eapply Forall_impl; [exact H|]. by intros ? (? & _).
Qed.

Lemma push_removelast {A B} (f : list A → B) (b : B) (st : list A) (x : A) :
  match st ++ [x] with [] => b | _ :: _ => f (removelast (st ++ [x])) end = f st.
Proof. rewrite removelast_last. by destruct st. Qed.

Lemma push_segment_wf seg kst : slash ∉ seg → wf_state kst → wf_state (push_segment seg kst).
Proof.
  destruct kst as [k st]. unfold wf_state, push_segment. cbn. intros Hs Hst.
  case_bool_decide; [done|]. case_bool_decide; [done|]. cbn. case_bool_decide.
  - destruct st as [|x st _] using rev_ind; [done|].
    rewrite (push_removelast (λ l, (k, l))).
    by apply Forall_app in Hst as [? _].
  - cbn. apply Forall_app. split; [done|]. by repeat constructor.
Qed.

(** One ".." element: backtrack over the last real segment, or add a "..". *)
Lemma render_dotdot k st (H : wf_state (k, st)) fuel r :
  clean_loop fuel false r
    (if length (render (k, [])) <? length (render (k, st))
     then take (unwind (render (k, st)) (length (render (k, []))) (length (render (k, st)) - 1))
            (render (k, st))
     else (if 0 <? length (render (k, st)) then render (k, st) ++ [slash] else render (k, st))
            ++ [dot; dot])
    (if length (render (k, [])) <? length (render (k, st))
     then length (render (k, []))
     else length ((if 0 <? length (render (k, st)) then render (k, st) ++ [slash]
                   else render (k, st)) ++ [dot; dot]))
  = clean_loop fuel false r (render (push_segment dotdots (k, st)))
      (length (render ((push_segment dotdots (k, st)).1, []))).
Proof.
  unfold push_segment. change (bool_decide (dotdots = [])) with false.
  change (bool_decide (dotdots = [dot])) with false.
  change (bool_decide (dotdots = dotdots)) with true. cbn [orb].
  destruct st as [|seg st _] using rev_ind.
  - rewrite Nat.ltb_irrefl. cbn [fst].
    assert (render (S k, []) = (if 0 <? length (render (k, [])) then render (k, []) ++ [slash]
                                else render (k, [])) ++ [dot; dot]) as ->; [|done].
    unfold render. cbn [fst snd]. rewrite !app_nil_r.
    destruct k as [|k]; [done|].
    replace (replicate (S (S k)) dotdots) with (replicate (S k) dotdots ++ [dotdots])
      by (rewrite <- replicate_cons_app; done).
    rewrite Join_snoc by done.
    destruct (Join (replicate (S k) dotdots) slash) eqn:E.
    { apply Join_nonempty in E; [done|by apply (Forall_replicate _ (S k))]. }
    cbn [length Nat.ltb Nat.leb]. by rewrite <- app_assoc.
  - rewrite (push_removelast (λ l, (k, l))).
    apply Forall_app in H as [Hst Hseg]. inv Hseg.
    match goal with X : real_segment seg |- _ => destruct X as (Hne & _ & _ & Hsl) end.
    assert (∃ tl, render (k, st ++ [seg]) = render (k, st) ++ tl ∧
              (tl = seg ∧ length (render (k, st)) = length (render (k, [])) ∨ tl = slash :: seg) ∧
              length (render (k, [])) ≤ length (render (k, st))) as (tl & Htl & Hcase & Hle).
    { unfold render. cbn [fst snd]. rewrite app_nil_r, app_assoc.
      destruct (decide (replicate k dotdots ++ st = [])) as [E|E].
      - rewrite E. apply app_eq_nil in E as [E1 E2]. rewrite E1. exists seg. cbn. auto.
      - rewrite Join_snoc by done. exists (slash :: seg). split_and!; auto.
        apply Join_length_app. }
    assert (0 < length tl) as Hpos.
    { destruct Hcase as [[-> _]| ->]; [|cbn; lia]. destruct seg; [done|cbn; lia]. }
    rewrite Htl, length_app. rewrite (proj2 (Nat.ltb_lt _ _)) by lia.
    replace (length (render (k, st)) + length tl - 1)
      with (length (render (k, st)) + (length tl - 1)) by lia.
    rewrite (unwind_spec _ tl seg) by (done || lia). by rewrite take_app_length.
Qed.

Lemma at_sep_app seg s : slash ∉ seg → at_sep (seg ++ s) = true → seg = [].
Proof.
  destruct seg as [|c seg]; [done|]. cbn. intros H Hc. apply bool_decide_eq_true in Hc as ->.
  set_solver.
Qed.

(** A real element is none of the separator and dot cases of the loop. *)
Lemma real_segment_default c seg s :
  real_segment (c :: seg) →
  c ≠ slash ∧ bool_decide (c = dot) && at_sep (seg ++ s) = false ∧
  bool_decide (c = dot) && bool_decide (head (seg ++ s) = Some dot) && at_sep (tail (seg ++ s)) = false.
Proof.
  intros (_ & Hd & Hdd & Hs). apply not_elem_of_cons in Hs as [Hc Hs].
  split; [done|]. case_bool_decide as Ec; [subst c|done]. cbn [andb]. split.
  - apply not_true_iff_false. intros H. apply at_sep_app in H; [|done]. by subst.
  - apply not_true_iff_false. intros H. breflect. destruct seg as [|d seg]; [done|].
    simplify_eq/=. apply not_elem_of_cons in Hs as [_ Hs].
    match goal with X : at_sep _ = true |- _ => apply at_sep_app in X; [|done] end. by subst.
Qed.

Lemma render_push_real k st seg :
  wf_state (k, st) →
  render (k, st ++ [seg]) =
    (if negb (length (render (k, st)) =? 0) then render (k, st) ++ [slash] else render (k, st))
    ++ seg.
Proof.
  intros Hwf. pose proof (wf_state_nonempty _ Hwf) as Hn. unfold render in *. cbn [fst snd] in *.
  rewrite app_assoc. destruct (decide (replicate k dotdots ++ st = [])) as [E|E].
  - by rewrite E.
  - rewrite Join_snoc by done.
    destruct (Join (replicate k dotdots ++ st) slash) eqn:Ej.
    { by apply Join_nonempty in Ej. }
    cbn [length Nat.eqb negb]. by rewrite <- app_assoc.
Qed.

(** Reading one segment is one push on the reference stack. *)
Lemma clean_loop_segment fuel seg s kst :
  slash ∉ seg → at_sep s = true → wf_state kst → length (seg ++ s) ≤ fuel →
  ∃ fuel', length s ≤ fuel' ∧
    clean_loop fuel false (seg ++ s) (render kst) (length (render (kst.1, []))) =
    clean_loop fuel' false s (render (push_segment seg kst))
      (length (render ((push_segment seg kst).1, []))).
Proof.
  intros Hs Hsep Hwf Hlen. destruct kst as [k st].
  destruct seg as [|c seg]; [by exists fuel|].
  destruct fuel as [|fuel]; [cbn in Hlen; lia|]. cbn [app length] in Hlen.
  rewrite length_app in Hlen. exists fuel. split; [lia|].
  cbn [app clean_loop]. rewrite (bool_decide_false (c = slash)) by set_solver.
  destruct (decide (c :: seg = [dot])) as [[= -> ->]|Hd].
  { cbn [app]. rewrite Hsep, bool_decide_true by done. done. }
  destruct (decide (c :: seg = dotdots)) as [[= -> ->]|Hdd].
  { cbn [app head tail at_sep]. rewrite !bool_decide_true by done.
    rewrite (bool_decide_false (dot = slash)) by done. rewrite Hsep. cbn [andb negb].
    rewrite <- render_dotdot by done. by destruct (_ <? _). }
  destruct (real_segment_default c seg s) as (Hc & H1 & H2); [done|].
  rewrite H1, H2. cbn [andb orb negb].
  change (c :: seg ++ s) with ((c :: seg) ++ s).
  rewrite span_elem_app by done. cbn zeta. rewrite <- render_push_real by done.
  unfold push_segment. rewrite !bool_decide_false by done. done.
Qed.

Lemma clean_loop_segments segs fuel kst :
  Forall (λ w, slash ∉ w) segs → wf_state kst → length (Join segs slash) ≤ fuel →
  clean_loop fuel false (Join segs slash) (render kst) (length (render (kst.1, []))) =
  render (foldl (λ st seg, push_segment seg st) kst segs).
Proof.
  revert fuel kst. induction segs as [|seg segs IH]; intros fuel kst Hf Hwf Hlen.
  { by destruct fuel. }
  inv Hf. cbn [foldl]. destruct segs as [|seg' segs].
  - destruct (clean_loop_segment fuel seg [] kst) as (fuel' & ? & E); try done.
    { by rewrite app_nil_r. }
    rewrite app_nil_r in E. cbn [Join foldl]. rewrite E. by destruct fuel'.
  - rewrite Join_cons in Hlen |- * by done.
    destruct (clean_loop_segment fuel seg (slash :: Join (seg' :: segs) slash) kst)
      as (fuel' & Hf' & E); try done.
    rewrite E. destruct fuel' as [|fuel']; [simpl in Hf'; lia|].
    cbn [clean_loop]. rewrite bool_decide_true by done.
    apply IH; [done|by apply push_segment_wf|]. cbn [length] in Hf'. lia.
Qed.

(** [Clean] of a relative path is the rendered resolution of its segments,
    "." if nothing remains. *)
Lemma Clean_relative p :
  HasPrefix p [slash] = false →
  Clean p = match render (resolve (Split p slash)) with [] => [dot] | q => q end.
Proof.
  intros Hp. destruct p as [|c p]; [done|]. unfold Clean.
  rewrite (bool_decide_false (c = slash)).
  2:{ intros ->. apply not_true_iff_false in Hp. apply Hp, HasPrefix_spec. by exists p. }
  pose proof (clean_loop_segments (Split (c :: p) slash) (length (c :: p)) (0, [])) as H.
  rewrite Join_Split in H. unfold resolve.
  rewrite <- H; [|apply Split_notin|constructor|done].
  change (render (0, [])) with (@nil ascii). cbn [fst length].
  by destruct (clean_loop _ _ _ _ _).
Qed.

Lemma resolve_wf segs : Forall (λ w, slash ∉ w) segs → wf_state (resolve segs).
Proof.
  unfold resolve. assert (wf_state (0, [])) as H by constructor. revert H.
  generalize (0, @nil str). intros kst H Hf. revert kst H.
  induction Hf as [|seg segs Hs Hf IH]; intros kst H; cbn; [done|].
  by apply IH, push_segment_wf.
Qed.

(** A relative path resolves to [k] leading ".." and real segments. *)
Lemma render_split kst :
  wf_state kst → kst ≠ (0, []) → Split (render kst) slash = replicate kst.1 dotdots ++ kst.2.
Proof.
  destruct kst as [k st]. intros Hwf Hne. apply Split_Join.
  - destruct k; [by destruct st|done].
  - apply Forall_app. split.
    + apply Forall_replicate. unfold dotdots. rewrite !not_elem_of_cons.
      split_and!; [discriminate|discriminate|apply not_elem_of_nil].
    + eapply Forall_impl; [exact Hwf|]. by intros ? (_ & _ & _ & ?).
Qed.

Lemma render_empty kst : wf_state kst → render kst = [] → kst = (0, []).
Proof.
  intros Hwf H. apply Join_nonempty in H; [|by apply wf_state_nonempty].
  apply app_eq_nil in H as [H1 H2]. destruct kst as [[|k] st]; [|done]. by simplify_eq/=.
Qed.

(** Resolution keeps only segments it was given. *)
Lemma resolve_bytes segs w : w ∈ (resolve segs).2 → w ∈ segs.
Proof.
  unfold resolve. enough (∀ kst, w ∈ (foldl (λ st seg, push_segment seg st) kst segs).2 →
    w ∈ kst.2 ∨ w ∈ segs) as H by (intros [?%not_elem_of_nil|?]%H; done).
  induction segs as [|s segs IH]; intros [k st]; cbn [foldl]; [auto|].
  intros [H|H]%IH; [|set_solver].
  unfold push_segment in H. repeat case_bool_decide; cbn in H; auto.
  - destruct st as [|x st _] using rev_ind; [by apply not_elem_of_nil in H|].
    rewrite (push_removelast (λ l, (k, l))) in H. set_solver.
  - set_solver.
Qed.
