(* ===== verification/GoError.v ===== *)
(** * Go error values

    Package-level [errors.New] values are told apart by identity
    ([sentinel]); [fmt.Errorf] with [%w] builds a [WrapError] that keeps the
    formatted text and the wrapped error; [errors.Is] walks that chain. *)

From S2P Require Import Prelude GoString.

(** The package-level error values of the program. *)
Inductive sentinel :=
| ErrValidation          (* service *)
| ErrFolderNotFound      (* service *)
| ErrQueueFull           (* service *)
| ErrNotAccepting        (* service *)
| ErrNotFound            (* job *)
| ErrInvalidToken        (* token *)
| ErrTokenExpired.       (* token *)

#[global] Instance sentinel_eq_dec : EqDecision sentinel.
Proof. solve_decision. Defined.

Definition sentinel_text (s : sentinel) : str :=
  match s with
  | ErrValidation => lit "validation error"
  | ErrFolderNotFound => lit "root folder not found"
  | ErrQueueFull => lit "archive service is busy, try again shortly"
  | ErrNotAccepting => lit "archive service is shutting down"
  | ErrNotFound => lit "job not found"
  | ErrInvalidToken => lit "invalid download token"
  | ErrTokenExpired => lit "download token expired"
  end.

Inductive error :=
| Sentinel (s : sentinel)
| ErrorString (msg : str)                    (* no wrapped error, no shared identity *)
| OsError (notexist : bool) (msg : str)      (* a system call's error; [os.IsNotExist] *)
| ErrSizeLimitExceeded (max : Z)             (* *archive.ErrSizeLimitExceeded *)
| ErrUnknownServer (host : str)              (* *client.ErrUnknownServer *)
| ErrStorageResponse (host : str) (status : Z) (* *client.ErrStorageResponse *)
| WrapError (msg : str) (err : error).       (* fmt.Errorf("...%w...", err) *)

#[global] Instance error_eq_dec : EqDecision error.
Proof. solve_decision. Defined.

(** The [Error] method. *)
Definition Error `{!UnicodeTables} (e : error) : str :=
  match e with
  | Sentinel s => sentinel_text s
  | ErrorString m | OsError _ m | WrapError m _ => m
  | ErrSizeLimitExceeded m =>
      lit "archive exceeded maximum size of " ++ Itoa m ++ lit " bytes"
  | ErrUnknownServer h => lit "unknown storage server " ++ Quote h
  | ErrStorageResponse h c =>
      lit "storage server " ++ Quote h ++ lit " returned status " ++ Itoa c
  end.

(** [errors.Is(e, s)]. *)
Fixpoint Is (e : error) (s : sentinel) : bool :=
  match e with
  | Sentinel s' => bool_decide (s' = s)
  | WrapError _ e' => Is e' s
  | _ => false
  end.

(** [os.IsNotExist(e)], which does not unwrap. *)
Definition IsNotExist (e : error) : bool :=
  match e with OsError b _ => b | _ => false end.

(** [fmt.Errorf(pre + "%w" + post, e)]. *)
Definition Errorf_w `{!UnicodeTables} (pre : str) (e : error) (post : str) : error :=
  WrapError (pre ++ Error e ++ post) e.

Lemma Is_Errorf_w `{!UnicodeTables} pre e post s : Is (Errorf_w pre e post) s = Is e s.
Proof. done. Qed.
