(* ===== verification/Model.v ===== *)
(** * The domain types ([internal/model/archive.go])

    Times are nanoseconds since Go's zero [time.Time], so the zero value is
    [0]; durations are nanoseconds; [int64] fields are [Z]. *)

From S2P Require Import Prelude GoString.

Abbreviation time := Z.
Abbreviation duration := Z.

Definition IsZero (t : time) : bool := (t =? 0)%Z.
Definition Second : duration := 1000000000%Z.
Definition Minute : duration := (60 * Second)%Z.
Definition Hour : duration := (60 * Minute)%Z.

(** ** ExportType: a string type with two named constants *)

Definition ExportType := str.
Definition ExportTypeZip : ExportType := lit "zip".
Definition ExportTypeTar : ExportType := lit "tar".

Definition Extension (t : ExportType) : str :=
  if bool_decide (t = ExportTypeTar) then lit "tar" else lit "zip".

Definition ContentType (t : ExportType) : str :=
  if bool_decide (t = ExportTypeTar) then lit "application/x-tar" else lit "application/zip".

(** ** Requests, files, folders, manifests *)

Record ArchiveRequest := mkRequest {
  req_RootFolderID : str;
  req_ArchiveName : str;
  req_ExportType : ExportType
}.

Record StorageServer := mkStorageServer {
  srv_HostAddress : str;
  srv_APIKey : str
}.

Record ArchiveFile := mkFile {
  file_FileID : str;
  file_FileName : str;
  file_ArchivePath : str;
  file_FileVersion : Z;
  file_HostedAt : str;
  file_FileLocation : str;
  file_FileSize : Z;
  file_FileHash : str
}.

Record ArchiveFolder := mkFolder {
  folder_FolderID : str;
  folder_ParentFolderID : option str;
  folder_FolderName : str;
  folder_ArchivePath : str
}.

Record ArchiveManifest := mkManifest {
  man_RootFolderID : str;
  man_ArchiveName : str;
  man_ExportType : ExportType;
  man_Files : list ArchiveFile;
  man_EmptyFolders : list ArchiveFolder;
  man_TotalFiles : Z;
  man_TotalBytes : Z
}.

(** [f.ArchivePath = p]. *)
Definition set_file_path (p : str) (f : ArchiveFile) : ArchiveFile :=
  mkFile (file_FileID f) (file_FileName f) p (file_FileVersion f) (file_HostedAt f)
    (file_FileLocation f) (file_FileSize f) (file_FileHash f).
Definition set_folder_path (p : str) (f : ArchiveFolder) : ArchiveFolder :=
  mkFolder (folder_FolderID f) (folder_ParentFolderID f) (folder_FolderName f) p.

(** ** Jobs *)

Inductive JobStatus :=
| JobStatusQueued | JobStatusProcessing | JobStatusCompleted | JobStatusFailed
| JobStatusExpired.

#[global] Instance JobStatus_eq_dec : EqDecision JobStatus.
Proof. solve_decision. Defined.

Definition status_text (s : JobStatus) : str :=
  match s with
  | JobStatusQueued => lit "queued"
  | JobStatusProcessing => lit "processing"
  | JobStatusCompleted => lit "completed"
  | JobStatusFailed => lit "failed"
  | JobStatusExpired => lit "expired"
  end.

Record Job := mkJob {
  job_ID : str;
  job_RootFolderID : str;
  job_ArchiveName : str;
  job_ExportType : ExportType;
  job_Status : JobStatus;
  job_TotalFiles : Z;
  job_ProcessedFiles : Z;
  job_TotalBytes : Z;
  job_ProcessedBytes : Z;
  job_ArchivePath : str;
  job_ErrorMessage : str;
  job_DownloadToken : str;
  job_CreatedAt : time;
  job_UpdatedAt : time;
  job_StartedAt : time;
  job_CompletedAt : option time;
  job_ExpiresAt : time
}.

(** Field assignment, [j.Field = v]. *)
Definition set_Status (v : JobStatus) (j : Job) : Job :=
  mkJob (job_ID j) (job_RootFolderID j) (job_ArchiveName j) (job_ExportType j) v
    (job_TotalFiles j) (job_ProcessedFiles j) (job_TotalBytes j) (job_ProcessedBytes j)
    (job_ArchivePath j) (job_ErrorMessage j) (job_DownloadToken j) (job_CreatedAt j)
    (job_UpdatedAt j) (job_StartedAt j) (job_CompletedAt j) (job_ExpiresAt j).
Definition set_TotalFiles (v : Z) (j : Job) : Job :=
  mkJob (job_ID j) (job_RootFolderID j) (job_ArchiveName j) (job_ExportType j) (job_Status
    j) v (job_ProcessedFiles j) (job_TotalBytes j) (job_ProcessedBytes j) (job_ArchivePath
    j) (job_ErrorMessage j) (job_DownloadToken j) (job_CreatedAt j) (job_UpdatedAt j)
    (job_StartedAt j) (job_CompletedAt j) (job_ExpiresAt j).
Definition set_ProcessedFiles (v : Z) (j : Job) : Job :=
  mkJob (job_ID j) (job_RootFolderID j) (job_ArchiveName j) (job_ExportType j) (job_Status
    j) (job_TotalFiles j) v (job_TotalBytes j) (job_ProcessedBytes j) (job_ArchivePath j)
    (job_ErrorMessage j) (job_DownloadToken j) (job_CreatedAt j) (job_UpdatedAt j)
    (job_StartedAt j) (job_CompletedAt j) (job_ExpiresAt j).
Definition set_TotalBytes (v : Z) (j : Job) : Job :=
  mkJob (job_ID j) (job_RootFolderID j) (job_ArchiveName j) (job_ExportType j) (job_Status
    j) (job_TotalFiles j) (job_ProcessedFiles j) v (job_ProcessedBytes j) (job_ArchivePath
    j) (job_ErrorMessage j) (job_DownloadToken j) (job_CreatedAt j) (job_UpdatedAt j)
    (job_StartedAt j) (job_CompletedAt j) (job_ExpiresAt j).
Definition set_ProcessedBytes (v : Z) (j : Job) : Job :=
  mkJob (job_ID j) (job_RootFolderID j) (job_ArchiveName j) (job_ExportType j) (job_Status
    j) (job_TotalFiles j) (job_ProcessedFiles j) (job_TotalBytes j) v (job_ArchivePath j)
    (job_ErrorMessage j) (job_DownloadToken j) (job_CreatedAt j) (job_UpdatedAt j)
    (job_StartedAt j) (job_CompletedAt j) (job_ExpiresAt j).
Definition set_ArchivePath (v : str) (j : Job) : Job :=
  mkJob (job_ID j) (job_RootFolderID j) (job_ArchiveName j) (job_ExportType j) (job_Status
    j) (job_TotalFiles j) (job_ProcessedFiles j) (job_TotalBytes j) (job_ProcessedBytes j) v
    (job_ErrorMessage j) (job_DownloadToken j) (job_CreatedAt j) (job_UpdatedAt j)
    (job_StartedAt j) (job_CompletedAt j) (job_ExpiresAt j).
Definition set_ErrorMessage (v : str) (j : Job) : Job :=
  mkJob (job_ID j) (job_RootFolderID j) (job_ArchiveName j) (job_ExportType j) (job_Status
    j) (job_TotalFiles j) (job_ProcessedFiles j) (job_TotalBytes j) (job_ProcessedBytes j)
    (job_ArchivePath j) v (job_DownloadToken j) (job_CreatedAt j) (job_UpdatedAt j)
    (job_StartedAt j) (job_CompletedAt j) (job_ExpiresAt j).
Definition set_DownloadToken (v : str) (j : Job) : Job :=
  mkJob (job_ID j) (job_RootFolderID j) (job_ArchiveName j) (job_ExportType j) (job_Status
    j) (job_TotalFiles j) (job_ProcessedFiles j) (job_TotalBytes j) (job_ProcessedBytes j)
    (job_ArchivePath j) (job_ErrorMessage j) v (job_CreatedAt j) (job_UpdatedAt j)
    (job_StartedAt j) (job_CompletedAt j) (job_ExpiresAt j).
Definition set_UpdatedAt (v : time) (j : Job) : Job :=
  mkJob (job_ID j) (job_RootFolderID j) (job_ArchiveName j) (job_ExportType j) (job_Status
    j) (job_TotalFiles j) (job_ProcessedFiles j) (job_TotalBytes j) (job_ProcessedBytes j)
    (job_ArchivePath j) (job_ErrorMessage j) (job_DownloadToken j) (job_CreatedAt j) v
    (job_StartedAt j) (job_CompletedAt j) (job_ExpiresAt j).
Definition set_StartedAt (v : time) (j : Job) : Job :=
  mkJob (job_ID j) (job_RootFolderID j) (job_ArchiveName j) (job_ExportType j) (job_Status
    j) (job_TotalFiles j) (job_ProcessedFiles j) (job_TotalBytes j) (job_ProcessedBytes j)
    (job_ArchivePath j) (job_ErrorMessage j) (job_DownloadToken j) (job_CreatedAt j)
    (job_UpdatedAt j) v (job_CompletedAt j) (job_ExpiresAt j).
Definition set_CompletedAt (v : option time) (j : Job) : Job :=
  mkJob (job_ID j) (job_RootFolderID j) (job_ArchiveName j) (job_ExportType j) (job_Status
    j) (job_TotalFiles j) (job_ProcessedFiles j) (job_TotalBytes j) (job_ProcessedBytes j)
    (job_ArchivePath j) (job_ErrorMessage j) (job_DownloadToken j) (job_CreatedAt j)
    (job_UpdatedAt j) (job_StartedAt j) v (job_ExpiresAt j).
Definition set_ExpiresAt (v : time) (j : Job) : Job :=
  mkJob (job_ID j) (job_RootFolderID j) (job_ArchiveName j) (job_ExportType j) (job_Status
    j) (job_TotalFiles j) (job_ProcessedFiles j) (job_TotalBytes j) (job_ProcessedBytes j)
    (job_ArchivePath j) (job_ErrorMessage j) (job_DownloadToken j) (job_CreatedAt j)
    (job_UpdatedAt j) (job_StartedAt j) (job_CompletedAt j) v.

#[global] Instance Job_eq_dec : EqDecision Job.
Proof. solve_decision. Defined.
#[global] Instance ArchiveFile_eq_dec : EqDecision ArchiveFile.
Proof. solve_decision. Defined.
#[global] Instance ArchiveFolder_eq_dec : EqDecision ArchiveFolder.
Proof. solve_decision. Defined.

(** ** The payloads of the server-sent events *)

Record ProgressEvent := mkProgress {
  pe_ProcessedFiles : Z;
  pe_TotalFiles : Z;
  pe_ProcessedBytes : Z;
  pe_TotalBytes : Z
}.

Record CompletedEvent := mkCompleted {
  ce_JobID : str;
  ce_DownloadURL : str;
  ce_DownloadToken : str;
  ce_ExpiresInSecs : Z
}.

Record ErrorEvent := mkErrorEvent { ee_Message : str }.

#[global] Instance ProgressEvent_eq_dec : EqDecision ProgressEvent.
Proof. solve_decision. Defined.

(** Values for concrete runs. *)
Definition sample_folder (p : str) : ArchiveFolder := mkFolder (lit "d") None (lit "d") p.
Definition sample_file (p : str) (size : Z) : ArchiveFile :=
  mkFile (lit "f") (lit "f") p 1 (lit "https://s1") (lit "/loc") size (lit "h").
Definition sample_job (id name : str) (t : ExportType) : Job :=
  mkJob id (lit "root") name t JobStatusQueued 0 0 0 0 [] [] [] 1 1 0 None 0.
