(* ===== verification/GoConv.v ===== *)
(** * Text to numbers (strconv, time.ParseDuration)

    The conversions [internal/config] applies to environment variables:
    decimal integers with the 64-bit overflow checks of [strconv], booleans,
    and durations, whose fractions go through [float64] arithmetic (here the
    binary64 operations of the Standard Library's [SpecFloat]). *)

From Stdlib Require Import SpecFloat.
From stdpp Require Import pretty.
From S2P Require Import Prelude GoString GoError Model.

Local Open Scope go_scope.
Local Open Scope Z_scope.

(** ** strconv *)

Definition digit_val (c : ascii) : option Z :=
  if (48 <=? code c) && (code c <=? 57) then Some (code c - 48) else None.

Inductive num_error := ErrSyntax | ErrRange.

Definition max_uint64 : Z := 2 ^ 64 - 1.

(** The loop of [ParseUint] in base 10: a number that leaves the range is
    reported before the rest of the text is looked at. *)
Fixpoint parse_uint_loop (s : str) (n : Z) : num_error + Z :=
  match s with
  | [] => inr n
  | c :: s' =>
      match digit_val c with
      | None => inl ErrSyntax
      | Some d =>
          if max_uint64 / 10 + 1 <=? n then inl ErrRange
          else if max_uint64 <? n * 10 + d then inl ErrRange
          else parse_uint_loop s' (n * 10 + d)
      end
  end.

Definition ParseUint (s : str) : num_error + Z :=
  if bool_decide (s = []) then inl ErrSyntax else parse_uint_loop s 0.

(** The sign [ParseInt], [Atoi] and [ParseDuration] accept: whether the
    number is negative, and the rest. *)
Definition take_sign (s : str) : bool * str :=
  match s with
  | c :: s' => if bool_decide (c = "-"%char) then (true, s')
               else if bool_decide (c = "+"%char) then (false, s') else (false, s)
  | [] => (false, s)
  end.

(** [ParseInt(s, 10, 64)]; [Atoi] differs only in the name its errors carry. *)
Definition ParseInt (s : str) : num_error + Z :=
  if bool_decide (s = []) then inl ErrSyntax else
  let '(neg, s) := take_sign s in
  match ParseUint s with
  | inl e => inl e
  | inr un =>
      if negb neg && (2 ^ 63 <=? un) then inl ErrRange
      else if neg && (2 ^ 63 <? un) then inl ErrRange
      else inr (if neg then - un else un)
  end.

(** The text of a [*NumError]. *)
Definition num_error_text `{!UnicodeTables} (fn s : str) (e : num_error) : str :=
  lit "strconv." ++ fn ++ lit ": parsing " ++ Quote s ++ lit ": " ++
  match e with ErrSyntax => lit "invalid syntax" | ErrRange => lit "value out of range" end.

Definition ParseBool (s : str) : option bool :=
  if bool_decide (s ∈ map lit ["1"; "t"; "T"; "true"; "TRUE"; "True"]%string) then Some true
  else if bool_decide (s ∈ map lit ["0"; "f"; "F"; "false"; "FALSE"; "False"]%string) then Some false
  else None.

(** ** time.ParseDuration *)

(** [leadingInt]: the digits at the front, unless they exceed 2^63. *)
Fixpoint leadingInt (s : str) (x : Z) : option (Z * str) :=
  match s with
  | [] => Some (x, [])
  | c :: s' =>
      match digit_val c with
      | None => Some (x, s)
      | Some d =>
          if 2 ^ 63 / 10 <? x then None
          else if 2 ^ 63 <? x * 10 + d then None
          else leadingInt s' (x * 10 + d)
      end
  end.

(** [float64] arithmetic. *)
Definition float64 (n : Z) : spec_float := binary_normalize 53 1024 n 0 false.
Definition fmul : spec_float → spec_float → spec_float := SFmul 53 1024.
Definition fdiv : spec_float → spec_float → spec_float := SFdiv 53 1024.

(** The conversion of a non-negative [float64] to an integer. *)
Definition truncate (f : spec_float) : Z :=
  match f with
  | S754_finite _ m e => if 0 <=? e then Z.pos m * 2 ^ e else Z.pos m / 2 ^ (- e)
  | _ => 0
  end.

(** [leadingFraction]: the digits after the point and their scale; digits
    beyond the precision are dropped. *)
Fixpoint leadingFraction (s : str) (x : Z) (scale : spec_float) (overflow : bool) : Z * spec_float * str :=
  match s with
  | [] => (x, scale, [])
  | c :: s' =>
      match digit_val c with
      | None => (x, scale, s)
      | Some d =>
          if overflow then leadingFraction s' x scale true
          else if (2 ^ 63 - 1) / 10 <? x then leadingFraction s' x scale true
          else if 2 ^ 63 <? x * 10 + d then leadingFraction s' x scale true
          else leadingFraction s' (x * 10 + d) (fmul scale (float64 10)) false
      end
  end.

Definition unitMap (u : str) : option Z :=
  if bool_decide (u = lit "ns") then Some 1
  else if bool_decide (u = lit "us") then Some 1000
  else if bool_decide (u = [chr 0xC2; chr 0xB5; "s"%char]) then Some 1000   (* U+00B5 *)
  else if bool_decide (u = [chr 0xCE; chr 0xBC; "s"%char]) then Some 1000   (* U+03BC *)
  else if bool_decide (u = lit "ms") then Some 1000000
  else if bool_decide (u = lit "s") then Some 1000000000
  else if bool_decide (u = lit "m") then Some 60000000000
  else if bool_decide (u = lit "h") then Some 3600000000000
  else None.

(** A byte that ends a unit: a digit or a point. *)
Definition number_start (c : ascii) : bool :=
  bool_decide (c = "."%char) || bool_decide (is_Some (digit_val c)).

Fixpoint split_unit (s : str) : str * str :=
  match s with
  | [] => ([], [])
  | c :: s' => if number_start c then ([], s) else let '(u, r) := split_unit s' in (c :: u, r)
  end.

Inductive duration_error :=
| InvalidDuration
| MissingUnit
| UnknownUnit (u : str).

(** What may follow the integer part: the fraction, its scale, the rest, and
    whether there were digits. *)
Definition fraction_part (s : str) : Z * spec_float * str * bool :=
  match s with
  | c :: s' =>
      if bool_decide (c = "."%char) then
        let '(f, scale, r) := leadingFraction s' 0 (float64 1) false in
        (f, scale, r, negb (length s' =? length r)%nat)
      else (0, float64 1, s, false)
  | [] => (0, float64 1, s, false)
  end.

(** One number with its unit: its value in nanoseconds and the rest. *)
Definition parse_term (s : str) : duration_error + (Z * str) :=
  match s with
  | [] => inl InvalidDuration
  | c :: _ =>
      if negb (number_start c) then inl InvalidDuration else
      match leadingInt s 0 with
      | None => inl InvalidDuration
      | Some (v, s1) =>
          let pre := negb (length s =? length s1)%nat in
          let '(f, scale, s2, post) := fraction_part s1 in
          if negb pre && negb post then inl InvalidDuration else
          let '(u, s3) := split_unit s2 in
          if bool_decide (u = []) then inl MissingUnit else
          match unitMap u with
          | None => inl (UnknownUnit u)
          | Some unit =>
              if 2 ^ 63 / unit <? v then inl InvalidDuration else
              let v := v * unit in
              let v := if 0 <? f then v + truncate (fmul (float64 f) (fdiv (float64 unit) scale)) else v in
              if (0 <? f) && (2 ^ 63 <? v) then inl InvalidDuration else inr (v, s3)
          end
      end
  end.

(** The loop; every round consumes a byte, so [length s] rounds are enough. *)
Fixpoint duration_loop (fuel : nat) (s : str) (d : Z) : duration_error + Z :=
  match s, fuel with
  | [], _ => inr d
  | _, O => inl InvalidDuration
  | _, S fuel' =>
      match parse_term s with
      | inl e => inl e
      | inr (v, s') => if 2 ^ 63 <? d + v then inl InvalidDuration else duration_loop fuel' s' (d + v)
      end
  end.

Definition ParseDuration (s : str) : duration_error + duration :=
  let '(neg, s) := take_sign s in
  if bool_decide (s = lit "0") then inr 0
  else if bool_decide (s = []) then inl InvalidDuration
  else
    match duration_loop (length s) s 0 with
    | inl e => inl e
    | inr d =>
        if neg then inr (- d)
        else if 2 ^ 63 - 1 <? d then inl InvalidDuration else inr d
    end.

(** [time]'s own quoting: bytes outside printable ASCII in hexadecimal. *)
Definition time_quote (s : str) : str :=
  [dquote] ++ (s ≫= λ c,
    if (code c <? 0x20) || (0x80 <=? code c) then lit "\x" ++ hex 2 (code c)
    else if bool_decide (c = dquote) || bool_decide (c = backslash) then [backslash; c] else [c]) ++ [dquote].

Definition duration_error_text (orig : str) (e : duration_error) : str :=
  match e with
  | InvalidDuration => lit "time: invalid duration " ++ time_quote orig
  | MissingUnit => lit "time: missing unit in duration " ++ time_quote orig
  | UnknownUnit u => lit "time: unknown unit " ++ time_quote u ++ lit " in duration " ++ time_quote orig
  end.

(** ** Examples from the documentation of [ParseDuration] *)

Example duration_300ms : ParseDuration (lit "300ms") = inr 300000000.
Proof. by vm_compute. Qed.
Example duration_neg : ParseDuration (lit "-1.5h") = inr (-5400000000000).
Proof. by vm_compute. Qed.
Example duration_2h45m : ParseDuration (lit "2h45m") = inr 9900000000000.
Proof. by vm_compute. Qed.
Example duration_unit : ParseDuration (lit "30") = inl MissingUnit.
Proof. by vm_compute. Qed.
Example duration_frac : ParseDuration (lit "0.3333333333333333333h") = inr 1200000000000.
Proof. by vm_compute. Qed.

(** ** Ranges *)

Lemma digit_val_range c d : digit_val c = Some d → 0 <= d <= 9.
Proof. unfold digit_val. intros H. cases_in H. lia. Qed.

Lemma parse_uint_loop_range s : ∀ n m, 0 <= n <= max_uint64 → parse_uint_loop s n = inr m → 0 <= m <= max_uint64.
Proof.
  induction s as [|c s IH]; intros n m Hn H; cbn in H; [by simplify_eq|].
  destruct (digit_val c) as [d|] eqn:Hd; [|done]. apply digit_val_range in Hd.
  destruct (_ <=? n); [done|]. destruct (Z.ltb_spec max_uint64 (n * 10 + d)); [done|].
  by apply IH in H; [|lia].
Qed.

Lemma ParseInt_range s z : ParseInt s = inr z → in_int64 z.
Proof.
  unfold ParseInt, ParseUint. intros H. case_bool_decide; [done|]. destruct (take_sign s) as [neg s'].
  case_bool_decide; [done|]. destruct (parse_uint_loop s' 0) as [|un] eqn:E; [done|].
  apply parse_uint_loop_range in E; [|by vm_compute]. unfold in_int64, min_int64, max_int64.
  destruct neg; cbn [negb andb] in H; cases_in H; lia.
Qed.

Lemma truncate_nonneg f : 0 <= truncate f.
Proof.
  destruct f as [| | |b m e]; cbn; try lia. destruct (Z.leb_spec 0 e); [apply Z.mul_nonneg_nonneg; lia|].
  apply Z.div_pos; lia.
Qed.

Lemma leadingInt_spec s : ∀ x v r, 0 <= x → leadingInt s x = Some (v, r) → 0 <= v ∧ (length r <= length s)%nat.
Proof.
  induction s as [|c s IH]; intros x v r Hx H; cbn in H; [by simplify_eq|].
  destruct (digit_val c) as [d|] eqn:Hd; [|by simplify_eq]. apply digit_val_range in Hd.
  destruct (_ <? x); [done|]. destruct (_ <? _); [done|]. apply IH in H as [? ?]; [|lia]. cbn. split; lia.
Qed.

Lemma leadingFraction_length s : ∀ x sc o f sc' r,
  leadingFraction s x sc o = (f, sc', r) → (length r <= length s)%nat.
Proof.
  induction s as [|c s IH]; intros x sc o f sc' r H; cbn in H; [by simplify_eq|].
  destruct (digit_val c) as [d|]; [|by simplify_eq].
  repeat match type of H with (if ?b then _ else _) = _ => destruct b end; apply IH in H; cbn; lia.
Qed.

Lemma fraction_part_length s f sc r post : fraction_part s = (f, sc, r, post) → (length r <= length s)%nat.
Proof.
  unfold fraction_part. destruct s as [|c s]; [intros; by simplify_eq|].
  case_bool_decide; [|intros; by simplify_eq].
  destruct (leadingFraction s 0 _ _) as [[f' sc'] r'] eqn:Hf. apply leadingFraction_length in Hf.
  intros. simplify_eq. cbn. lia.
Qed.

Lemma split_unit_length s u r : split_unit s = (u, r) → (length u + length r = length s)%nat.
Proof.
  revert u r. induction s as [|c s IH]; intros u r H; cbn in H; [by simplify_eq|].
  destruct (number_start c); [by simplify_eq|]. destruct (split_unit s) as [u' r']. simplify_eq.
  cbn. f_equal. by apply IH.
Qed.

Lemma unitMap_pos u n : unitMap u = Some n → 0 < n.
Proof. unfold unitMap. intros H. by cases_in H. Qed.

(** A term is consumed, and its value is not negative. *)
Lemma parse_term_spec s v r : parse_term s = inr (v, r) → 0 <= v ∧ (length r < length s)%nat.
Proof.
  destruct s as [|c s]; [done|]. cbn [parse_term]. set (s0 := c :: s). destruct (negb (number_start c)); [done|].
  destruct (leadingInt s0 0) as [[v0 s1]|] eqn:Hi; [|done]. apply leadingInt_spec in Hi as [Hv0 Hl1]; [|lia].
  destruct (fraction_part s1) as [[[f sc] s2] post] eqn:Ht. apply fraction_part_length in Ht.
  destruct (_ && _); [done|]. destruct (split_unit s2) as [u s3] eqn:Hu. apply split_unit_length in Hu.
  case_bool_decide as Hne; [done|]. destruct (unitMap u) as [unit|] eqn:Hum; [|done].
  apply unitMap_pos in Hum. destruct (_ <? v0); [done|]. destruct (_ && _); [done|]. intros. simplify_eq.
  destruct u as [|uc u]; [done|]. cbn in Hu. split; [|lia].
  destruct (0 <? f); [|by apply Z.mul_nonneg_nonneg; lia].
  apply Z.add_nonneg_nonneg; [apply Z.mul_nonneg_nonneg; lia|apply truncate_nonneg].
Qed.

Lemma duration_loop_range n : ∀ s d d', 0 <= d <= 2 ^ 63 → duration_loop n s d = inr d' → 0 <= d' <= 2 ^ 63.
Proof.
  induction n as [|n IH]; intros [|c s] d d' Hd H; cbn [duration_loop] in H; try by simplify_eq.
  destruct (parse_term (c :: s)) as [|[v r]] eqn:E; [done|]. apply parse_term_spec in E as [? _].
  destruct (Z.ltb_spec (2 ^ 63) (d + v)); [done|]. by apply IH in H; [|lia].
Qed.

(** More rounds than bytes change nothing. *)
Lemma duration_loop_fuel n : ∀ m s d, (length s <= n)%nat → (length s <= m)%nat →
  duration_loop n s d = duration_loop m s d.
Proof.
  induction n as [|n IH]; intros m [|c s] d Hn Hm; cbn in Hn, Hm; try lia; [by destruct m|by destruct m|].
  destruct m as [|m]; [lia|]. cbn [duration_loop].
  destruct (parse_term (c :: s)) as [|[v r]] eqn:E; [done|]. apply parse_term_spec in E as [_ E]. cbn in E.
  destruct (_ <? _); [done|]. apply IH; lia.
Qed.

Lemma ParseDuration_range s d : ParseDuration s = inr d → in_int64 d.
Proof.
  unfold ParseDuration, in_int64, min_int64, max_int64. destruct (take_sign s) as [neg s'].
  case_bool_decide; [intros; simplify_eq; lia|]. case_bool_decide; [done|].
  destruct (duration_loop _ _ _) as [|d'] eqn:E; [done|]. apply duration_loop_range in E; [|lia].
  destruct neg; [intros; simplify_eq; lia|]. destruct (Z.ltb_spec (2 ^ 63 - 1) d'); [done|].
  intros. simplify_eq. lia.
Qed.

(** ** Round trips *)

Lemma digit_val_char n : (n < 10)%N → digit_val (pretty_N_char n) = Some (Z.of_N n).
Proof.
  intros Hn. assert (n = 0 ∨ n = 1 ∨ n = 2 ∨ n = 3 ∨ n = 4 ∨ n = 5 ∨ n = 6 ∨ n = 7 ∨ n = 8 ∨ n = 9)%N by lia.
  destruct_or!; subst; by vm_compute.
Qed.

(** A loop that shifts in one decimal digit at a time, as long as the number
    stays within [bound], reads back what [Itoa] prints. *)
Section decimal.
Context {R : Type} (loop : str → Z → R) (bound : Z).
Context (Hstep : ∀ c d s n, digit_val c = Some d → 0 <= n → n * 10 + d <= bound →
  loop (c :: s) n = loop s (n * 10 + d)).

Lemma decimal_go x s r : Z.of_N x <= bound →
  loop (lit (pretty_N_go x s) ++ r) 0 = loop (lit s ++ r) (Z.of_N x).
Proof using Hstep.
  revert s. induction (N.lt_wf_0 x) as [x _ IH]; intros s Hb.
  destruct (decide (x = 0)%N) as [->|Hx]; [done|]. rewrite pretty_N_go_step by lia.
  pose proof (N.div_mod x 10 ltac:(done)) as Hdm. pose proof (N.mod_lt x 10 ltac:(done)) as Hm.
  rewrite IH; [|by apply N.div_lt; [apply N.neq_0_lt_0|]|etransitivity; [|exact Hb]].
  2: apply N2Z.inj_le, N.Div0.div_le_upper_bound; lia.
  cbn [lit String.list_ascii_of_string app].
  rewrite (Hstep _ (Z.of_N (x mod 10))); [f_equal; lia|by apply digit_val_char|lia|lia].
Qed.

Lemma decimal_Itoa n r : 0 <= n <= bound → loop (Itoa n ++ r) 0 = loop r n.
Proof using Hstep.
  intros Hn. unfold Itoa. destruct n as [|p|p]; [| |lia].
  - apply (Hstep "0"%char 0); [done|lia|lia].
  - change (pretty (Z.pos p)) with (pretty_N_go (N.pos p) ""). rewrite decimal_go; [done|]. cbn. lia.
Qed.
End decimal.

Lemma parse_uint_Itoa n : 0 <= n <= max_uint64 → parse_uint_loop (Itoa n) 0 = inr n.
Proof.
  intros Hn. rewrite <- (app_nil_r (Itoa n)).
  rewrite (decimal_Itoa parse_uint_loop max_uint64); [done| |done].
  intros c d s m Hd Hm Hb. cbn. rewrite Hd. apply digit_val_range in Hd. unfold max_uint64 in *.
  destruct (Z.leb_spec ((2 ^ 64 - 1) / 10 + 1) m) as [H|H].
  { change ((2 ^ 64 - 1) / 10 + 1) with 1844674407370955162 in H. lia. }
  destruct (Z.ltb_spec (2 ^ 64 - 1) (m * 10 + d)); [lia|done].
Qed.

Lemma leadingInt_Itoa n c r : 0 <= n <= 2 ^ 63 → digit_val c = None →
  leadingInt (Itoa n ++ c :: r) 0 = Some (n, c :: r).
Proof.
  intros Hn Hc. rewrite (decimal_Itoa leadingInt (2 ^ 63)); [cbn; by rewrite Hc| |done].
  intros c' d s m Hd Hm Hb. cbn. rewrite Hd. apply digit_val_range in Hd.
  destruct (Z.ltb_spec (2 ^ 63 / 10) m) as [H|H].
  { change (2 ^ 63 / 10) with 922337203685477580 in H. lia. }
  destruct (Z.ltb_spec (2 ^ 63) (m * 10 + d)); [lia|done].
Qed.

(** The first byte of a printed number is a digit. *)
Lemma pretty_go_head x s : (0 < x)%N → ∃ c r d, lit (pretty_N_go x s) = c :: r ∧ digit_val c = Some d.
Proof.
  revert s. induction (N.lt_wf_0 x) as [x _ IH]; intros s Hx. rewrite pretty_N_go_step by done.
  destruct (decide (x / 10 = 0)%N) as [->|].
  - rewrite pretty_N_go_0. eexists _, _, _. split; [done|]. apply digit_val_char, N.mod_lt. done.
  - apply IH; [by apply N.div_lt|by apply N.neq_0_lt_0].
Qed.

Lemma Itoa_head n : 0 <= n → ∃ c s d, Itoa n = c :: s ∧ digit_val c = Some d.
Proof.
  intros Hn. destruct n as [|p|p]; [by eexists _, _, _| |lia].
  change (Itoa (Z.pos p)) with (lit (pretty_N_go (N.pos p) "")). by apply pretty_go_head.
Qed.

(** A number has no sign to take, and is not an empty text. *)
Lemma digit_not_sign c d r : digit_val c = Some d → take_sign (c :: r) = (false, c :: r).
Proof.
  intros Hd. cbn. rewrite !bool_decide_false; [done|..]; intros ->; by vm_compute in Hd.
Qed.

(** What [Itoa] prints, [ParseInt] reads back. *)
Lemma ParseInt_Itoa z : in_int64 z → ParseInt (Itoa z) = inr z.
Proof.
  unfold in_int64, min_int64, max_int64. intros Hz.
  assert (∀ n, 0 <= n <= 2 ^ 63 → ParseUint (Itoa n) = inr n) as HU.
  { intros n Hn. destruct (Itoa_head n) as (c & s & d & E & _); [lia|]. unfold ParseUint. rewrite E, <- E.
    rewrite bool_decide_false by (by rewrite E). apply parse_uint_Itoa. unfold max_uint64. lia. }
  unfold ParseInt. destruct (Z.ltb_spec z 0) as [Hneg|Hpos].
  - destruct z as [|p|p]; try lia. change (Itoa (Z.neg p)) with ("-"%char :: Itoa (Z.pos p)).
    rewrite bool_decide_false by done. cbn [take_sign]. rewrite bool_decide_true by done.
    rewrite HU by lia. cbn [negb andb]. destruct (Z.ltb_spec (2 ^ 63) (Z.pos p)); [lia|done].
  - destruct (Itoa_head z Hpos) as (c & s & d & E & Hd).
    rewrite bool_decide_false by (by rewrite E). rewrite E, (digit_not_sign c d), <- E by done.
    rewrite HU by lia. cbn [negb andb]. destruct (Z.leb_spec (2 ^ 63) z); [lia|done].
Qed.

(** A whole number of one unit is read as that many units. *)
Lemma parse_term_unit n u unit : 0 <= n → unitMap u = Some unit → n * unit <= 2 ^ 63 →
  split_unit u = (u, []) → (∃ c r, u = c :: r ∧ number_start c = false) →
  parse_term (Itoa n ++ u) = inr (n * unit, []).
Proof.
  intros Hn Hu Hb Hsp (c & r & Eu & Hc). pose proof (unitMap_pos _ _ Hu) as Hpos.
  assert (c ≠ "."%char ∧ digit_val c = None) as [Hdot Hd].
  { unfold number_start in Hc. breflect. split; [done|]. destruct (digit_val c); [|done]. by destruct H0. }
  destruct (Itoa_head n Hn) as (c0 & s0 & d0 & E & Hd0). unfold parse_term. rewrite E.
  cbn [app]. change (c0 :: s0 ++ u) with ((c0 :: s0) ++ u). rewrite <- E.
  assert (number_start c0 = true) as -> by (unfold number_start; rewrite Hd0; by rewrite orb_true_r). cbn [negb].
  assert (n <= 2 ^ 63) as Hn63 by nia. rewrite Eu, leadingInt_Itoa by (done || lia). cbn [fraction_part].
  rewrite bool_decide_false by done. rewrite <- Eu, Hsp.
  replace (length (Itoa n ++ u) =? length u)%nat with false
    by (symmetry; apply Nat.eqb_neq; rewrite length_app, E; cbn; lia). cbn [negb andb].
  rewrite bool_decide_false by (by rewrite Eu). rewrite Hu.
  destruct (Z.ltb_spec (2 ^ 63 / unit) n) as [H|H]; [|done].
  assert (n <= 2 ^ 63 / unit) by (apply Z.div_le_lower_bound; lia). lia.
Qed.

Lemma ParseDuration_units n u unit : 0 <= n → unitMap u = Some unit → n * unit < 2 ^ 63 →
  split_unit u = (u, []) → (∃ c r, u = c :: r ∧ number_start c = false) →
  ParseDuration (Itoa n ++ u) = inr (n * unit).
Proof.
  intros Hn Hu Hb Hsp Hc. pose proof (parse_term_unit n u unit Hn Hu ltac:(lia) Hsp Hc) as Ht.
  pose proof (unitMap_pos _ _ Hu) as Hpos. destruct (Itoa_head n Hn) as (c & s & d & E & Hd).
  destruct Hc as (cu & r & Eu & _). unfold ParseDuration. rewrite E in Ht |- *. cbn [app] in Ht |- *.
  rewrite (digit_not_sign c d) by done.
  rewrite bool_decide_false; [|intros E0; rewrite Eu in E0; destruct s; cbn in E0; simplify_eq].
  rewrite bool_decide_false by done. cbn [length duration_loop]. rewrite Ht.
  destruct (Z.ltb_spec (2 ^ 63) (0 + n * unit)); [nia|].
  replace (duration_loop _ [] (0 + n * unit)) with (@inr duration_error Z (n * unit))
    by (destruct (length (s ++ u)); done).
  destruct (Z.ltb_spec (2 ^ 63 - 1) (n * unit)); [lia|done].
Qed.
