(* ===== verification/Json.v ===== *)
(** * JSON as the program writes and reads it (encoding/json)

    [Marshal] for the structs the handlers send, [parse_value] for what the
    request decoder accepts, and that each reads what the other writes. *)

From stdpp Require Import pretty.
From S2P Require Import Prelude GoString GoUtf8 GoError GoConv.

Local Open Scope go_scope.

Inductive json :=
| JNull
| JBool (b : bool)
| JNumber (text : str)
| JString (s : str)
| JArray (l : list json)
| JObject (l : list (str * json)).

(** ** Writing *)

(** [appendString] with HTML escaping, for one rune. *)
Definition json_safe (r : Z) : bool :=
  ((0x20 <=? r) && negb (existsb (Z.eqb r) (code <$> lit "<>&\")) && negb (r =? code dquote))%Z.

Definition json_escape (ru : Z * str) : str :=
  let '(r, bs) := ru in
  if (r <? 0x80)%Z then
    if json_safe r then bs
    else if (r =? 34)%Z || (r =? 92)%Z then [backslash; chr r]
    else if (r =? 8)%Z then lit "\b"
    else if (r =? 12)%Z then lit "\f"
    else if (r =? 10)%Z then lit "\n"
    else if (r =? 13)%Z then lit "\r"
    else if (r =? 9)%Z then lit "\t"
    else lit "\u" ++ hex 4 r
  else if (r =? RuneError)%Z && (length bs =? 1) then lit "\ufffd"
  else if (r =? 0x2028)%Z || (r =? 0x2029)%Z then lit "\u" ++ hex 4 r
  else bs.

Definition json_string (s : str) : str := dquote :: concat (json_escape <$> runes s) ++ [dquote].

(** [json.Marshal] of a struct whose fields are strings and integers. *)
Inductive field_value := FString (s : str) | FInt (n : Z).

Definition json_field_value (v : field_value) : str :=
  match v with FString s => json_string s | FInt n => Itoa n end.

Definition json_field (f : str * field_value) : str := json_string f.1 ++ lit ":" ++ json_field_value f.2.

Definition Marshal (fields : list (str * field_value)) : str :=
  lit "{" ++ Join (json_field <$> fields) ","%char ++ lit "}".

(** ** Reading *)

Definition is_ws (c : ascii) : bool := existsb (λ d, bool_decide (c = d)) [" "; "009"; "010"; "013"]%char.
Definition skip_ws (s : str) : str := drop_while is_ws s.

Definition hex_val (c : ascii) : option Z :=
  let n := code c in
  if ((48 <=? n) && (n <=? 57))%Z then Some (n - 48)%Z
  else if ((97 <=? n) && (n <=? 102))%Z then Some (n - 87)%Z
  else if ((65 <=? n) && (n <=? 70))%Z then Some (n - 55)%Z
  else None.

(** Four hexadecimal digits, and what follows them. *)
Definition getu4 (s : str) : option (Z * str) :=
  match s with
  | a :: b :: c :: d :: s' =>
      match hex_val a, hex_val b, hex_val c, hex_val d with
      | Some a, Some b, Some c, Some d => Some ((((a * 16 + b) * 16 + c) * 16 + d)%Z, s')
      | _, _, _, _ => None
      end
  | _ => None
  end.

Definition is_surrogate (r : Z) : bool := ((0xD800 <=? r) && (r <=? 0xDFFF))%Z.

(** [utf16.DecodeRune], when the two halves fit. *)
Definition surrogate_pair (r1 r2 : Z) : option Z :=
  if ((0xD800 <=? r1) && (r1 <? 0xDC00) && (0xDC00 <=? r2) && (r2 <=? 0xDFFF))%Z
  then Some ((r1 - 0xD800) * 1024 + (r2 - 0xDC00) + 0x10000)%Z
  else None.

(** The rune of a [\u] escape, and what follows it. *)
Definition unicode_escape (s : str) : option (Z * str) :=
  match getu4 s with
  | None => None
  | Some (r, s') =>
      if is_surrogate r then
        match s' with
        | b :: u :: s'' =>
            if bool_decide (b = backslash) && bool_decide (u = "u"%char) then
              match getu4 s'' with
              | Some (r2, s3) =>
                  match surrogate_pair r r2 with
                  | Some r' => Some (r', s3)
                  | None => Some (RuneError, s')
                  end
              | None => Some (RuneError, s')
              end
            else Some (RuneError, s')
        | _ => Some (RuneError, s')
        end
      else Some (r, s')
  end.

Definition simple_escape (c : ascii) : option ascii :=
  if bool_decide (c = dquote) || bool_decide (c = backslash) || bool_decide (c = slash) then Some c
  else if bool_decide (c = "b"%char) then Some "008"%char
  else if bool_decide (c = "f"%char) then Some "012"%char
  else if bool_decide (c = "n"%char) then Some "010"%char
  else if bool_decide (c = "r"%char) then Some "013"%char
  else if bool_decide (c = "t"%char) then Some "009"%char
  else None.

(** A string literal after its opening quote: its value, and what follows the
    closing one.  Every round takes a byte, so [length s] rounds suffice. *)
Fixpoint parse_string (fuel : nat) (s : str) : option (str * str) :=
  match fuel, s with
  | S fuel', c :: s' =>
      let more (v : str) (rest : str) :=
        match parse_string fuel' rest with Some (v', r) => Some (v ++ v', r) | None => None end in
      if bool_decide (c = dquote) then Some ([], s')
      else if bool_decide (c = backslash) then
        match s' with
        | [] => None
        | e :: s'' =>
            if bool_decide (e = "u"%char) then
              match unicode_escape s'' with
              | Some (r, rest) => more (EncodeRune r) rest
              | None => None
              end
            else match simple_escape e with
                 | Some b => more [b] s''
                 | None => None
                 end
        end
      else if (code c <? 0x20)%Z then None
      else let '(r, w) := DecodeRune s in more (EncodeRune r) (drop w s)
  | _, _ => None
  end.

Fixpoint span_digits (s : str) : str * str :=
  match s with
  | c :: s' => if bool_decide (is_Some (digit_val c))
               then let '(ds, r) := span_digits s' in (c :: ds, r) else ([], s)
  | [] => ([], [])
  end.

Definition parse_frac (s : str) : option (str * str) :=
  match s with
  | c :: s' =>
      if bool_decide (c = dot) then
        match span_digits s' with
        | ([], _) => None
        | (ds, r) => Some (c :: ds, r)
        end
      else Some ([], s)
  | [] => Some ([], [])
  end.

Definition parse_exp (s : str) : option (str * str) :=
  match s with
  | c :: s' =>
      if bool_decide (c = "e"%char) || bool_decide (c = "E"%char) then
        let '(sg, s1) := match s' with
                         | d :: s2 => if bool_decide (d = "+"%char) || bool_decide (d = "-"%char)
                                      then ([d], s2) else ([], s')
                         | [] => ([], [])
                         end in
        match span_digits s1 with
        | ([], _) => None
        | (ds, r) => Some (c :: sg ++ ds, r)
        end
      else Some ([], s)
  | [] => Some ([], [])
  end.

Definition parse_number (s : str) : option (str * str) :=
  let '(sg, s1) := match s with
                   | c :: s' => if bool_decide (c = "-"%char) then ([c], s') else ([], s)
                   | [] => ([], [])
                   end in
  match s1 with
  | [] => None
  | c :: s2 =>
      let int := if bool_decide (c = "0"%char) then Some ([c], s2)
                 else match span_digits s1 with
                      | ([], _) => None
                      | ds => Some ds
                      end in
      match int with
      | None => None
      | Some (ds, s3) =>
          match parse_frac s3 with
          | None => None
          | Some (fr, s4) =>
              match parse_exp s4 with
              | None => None
              | Some (ex, s5) => Some (sg ++ ds ++ fr ++ ex, s5)
              end
          end
      end
  end.

Definition maxNestingDepth : Z := 10000.

Definition literal (text : str) (v : json) (s : str) : option (json * str) :=
  if HasPrefix s text then Some (v, drop (length text) s) else None.

(** A value at nesting [depth], and what follows it.  Of two nested calls at
    least one takes a byte, so [S (2 * length s)] rounds suffice. *)
Fixpoint parse_value (fuel : nat) (depth : Z) (s : str) : option (json * str) :=
  match fuel with
  | O => None
  | S fuel' =>
      match skip_ws s with
      | [] => None
      | c :: s' =>
          if bool_decide (c = "{"%char) then
            if (maxNestingDepth <=? depth)%Z then None
            else
              match skip_ws s' with
              | d :: r => if bool_decide (d = "}"%char) then Some (JObject [], r)
                          else match parse_members fuel' (depth + 1) s' with
                               | Some (l, r) => Some (JObject l, r)
                               | None => None
                               end
              | [] => None
              end
          else if bool_decide (c = "["%char) then
            if (maxNestingDepth <=? depth)%Z then None
            else
              match skip_ws s' with
              | d :: r => if bool_decide (d = "]"%char) then Some (JArray [], r)
                          else match parse_elems fuel' (depth + 1) s' with
                               | Some (l, r) => Some (JArray l, r)
                               | None => None
                               end
              | [] => None
              end
          else if bool_decide (c = dquote) then
            match parse_string (length s') s' with
            | Some (v, r) => Some (JString v, r)
            | None => None
            end
          else if bool_decide (c = "t"%char) then literal (lit "true") (JBool true) (c :: s')
          else if bool_decide (c = "f"%char) then literal (lit "false") (JBool false) (c :: s')
          else if bool_decide (c = "n"%char) then literal (lit "null") JNull (c :: s')
          else match parse_number (c :: s') with
               | Some (t, r) => Some (JNumber t, r)
               | None => None
               end
      end
  end
with parse_members (fuel : nat) (depth : Z) (s : str) : option (list (str * json) * str) :=
  match fuel with
  | O => None
  | S fuel' =>
      match skip_ws s with
      | q :: s1 =>
          if bool_decide (q = dquote) then
            match parse_string (length s1) s1 with
            | None => None
            | Some (k, s2) =>
                match skip_ws s2 with
                | c :: s3 =>
                    if bool_decide (c = colon) then
                      match parse_value fuel' depth s3 with
                      | None => None
                      | Some (v, s4) =>
                          match skip_ws s4 with
                          | d :: s5 =>
                              if bool_decide (d = "}"%char) then Some ([(k, v)], s5)
                              else if bool_decide (d = ","%char) then
                                match parse_members fuel' depth s5 with
                                | Some (l, r) => Some ((k, v) :: l, r)
                                | None => None
                                end
                              else None
                          | [] => None
                          end
                      end
                    else None
                | [] => None
                end
            end
          else None
      | [] => None
      end
  end
with parse_elems (fuel : nat) (depth : Z) (s : str) : option (list json * str) :=
  match fuel with
  | O => None
  | S fuel' =>
      match parse_value fuel' depth s with
      | None => None
      | Some (v, s4) =>
          match skip_ws s4 with
          | d :: s5 =>
              if bool_decide (d = "]"%char) then Some ([v], s5)
              else if bool_decide (d = ","%char) then
                match parse_elems fuel' depth s5 with
                | Some (l, r) => Some (v :: l, r)
                | None => None
                end
              else None
          | [] => None
          end
      end
  end.

Definition Parse (s : str) : option (json * str) := parse_value (S (2 * length s)) 0 s.

(** ** Reading back a string *)

Lemma parse_string_more fuel c s v rest :
  c ≠ dquote → c ≠ backslash → (0x20 <= code c)%Z →
  DecodeRune (c :: s) = v → rest = drop v.2 (c :: s) →
  parse_string (S fuel) (c :: s) =
    match parse_string fuel rest with Some (v', r) => Some (EncodeRune v.1 ++ v', r) | None => None end.
Proof.
  intros H1 H2 H3 Hd ->. cbn -[DecodeRune EncodeRune drop]. rewrite !bool_decide_false by done.
  rewrite (proj2 (Z.ltb_ge _ _)) by done. by rewrite Hd; destruct v.
Qed.

(** An ASCII byte, escaped or not. *)
Lemma parse_string_ascii fuel c t : (code c < 0x80)%Z →
  parse_string (S fuel) (json_escape (code c, [c]) ++ t) =
    match parse_string fuel t with Some (v', r) => Some (c :: v', r) | None => None end.
Proof.
  intros Hc. destruct (json_safe (code c)) eqn:E.
  - unfold json_escape. rewrite (proj2 (Z.ltb_lt _ _) Hc), E. cbn [app].
    unfold json_safe in E. breflect.
    assert (c ≠ dquote) by (intros ->; done).
    assert (c ≠ backslash) by (intros ->; by vm_compute in H1).
    rewrite (parse_string_more _ _ _ (code c, 1) t); [|done|done|lia|by apply DecodeRune_ascii|done].
    cbn [fst]. by rewrite EncodeRune_ascii, chr_code by (pose proof (code_range c); lia).
  - destruct c as [[] [] [] [] [] [] [] []]; try (by vm_compute in E); try (by vm_compute in Hc); reflexivity.
Qed.

(** The two runes escaped although they are valid, and stray bytes. *)
Lemma parse_string_u fuel (h : str) r t :
  getu4 (h ++ t) = Some (r, t) → is_surrogate r = false →
  parse_string (S fuel) (lit "\u" ++ h ++ t) =
    match parse_string fuel t with Some (v', r') => Some (EncodeRune r ++ v', r') | None => None end.
Proof. intros Hu Hs. cbn -[getu4 EncodeRune]. unfold unicode_escape. by rewrite Hu, Hs. Qed.

Lemma parse_string_chunk fuel ru t : chunk_ok ru → chunk ru →
  parse_string (S fuel) (json_escape ru ++ t) =
    match parse_string fuel t with Some (v', r) => Some (EncodeRune ru.1 ++ v', r) | None => None end.
Proof.
  intros [(c & -> & Hc)|(Hr & Hb & Hn)] Hch.
  { rewrite parse_string_ascii by done. cbn [fst].
    by rewrite EncodeRune_ascii, chr_code by (pose proof (code_range c); lia). }
  destruct ru as [r bs]. cbn [fst snd] in *. unfold json_escape. rewrite (proj2 (Z.ltb_ge _ _)) by done.
  destruct ((r =? RuneError)%Z && (length bs =? 1)) eqn:E1.
  { breflect. subst r. by apply (parse_string_u fuel (lit "fffd")). }
  destruct Hch as [[E El]|(_ & _ & Hd)]; cbn [fst snd] in *; [subst r; by rewrite El in E1|].
  destruct ((r =? 0x2028)%Z || (r =? 0x2029)%Z) eqn:E2.
  { apply orb_true_iff in E2 as [->%Z.eqb_eq| ->%Z.eqb_eq]; rewrite <- app_assoc; by apply parse_string_u. }
  destruct bs as [|c bs]; [done|]. apply Forall_cons in Hb as [Hc _]. cbn [app].
  apply (parse_string_more _ _ _ (r, length (c :: bs))); [| |lia|apply Hd|].
  - intros ->. by vm_compute in Hc.
  - intros ->. by vm_compute in Hc.
  - cbn [snd]. change (c :: bs ++ t) with ((c :: bs) ++ t). by rewrite drop_app_length.
Qed.

Lemma parse_string_runes l : ∀ fuel rest, Forall chunk_ok l → Forall chunk l →
  length l < fuel →
  parse_string fuel (concat (json_escape <$> l) ++ dquote :: rest) =
    Some (concat ((λ ru, EncodeRune ru.1) <$> l), rest).
Proof.
  induction l as [|ru l IH]; intros [|fuel] rest Hl Hc Hf; cbn [length] in Hf; try lia; [done|].
  apply Forall_cons in Hl as [? ?], Hc as [? ?].
  change (concat (json_escape <$> ru :: l)) with (json_escape ru ++ concat (json_escape <$> l)).
  rewrite <- app_assoc, parse_string_chunk by done. by rewrite IH by (done || lia).
Qed.

Lemma json_escape_nonempty ru : chunk_ok ru → 1 ≤ length (json_escape ru).
Proof.
  intros [(c & -> & Hc)|(Hr & _ & Hn)].
  - unfold json_escape. repeat case_match; cbn; lia.
  - destruct ru as [r bs]. cbn in Hn. unfold json_escape. repeat case_match; cbn; try lia.
    all: destruct bs; [done|cbn; lia].
Qed.

Lemma escaped_length l : Forall chunk_ok l → length l ≤ length (concat (json_escape <$> l)).
Proof.
  induction 1 as [|ru l Hru _ IH]; [done|].
  change (concat (json_escape <$> ru :: l)) with (json_escape ru ++ concat (json_escape <$> l)).
  rewrite length_app. cbn [length]. pose proof (json_escape_nonempty ru Hru). lia.
Qed.

(** A written string reads back, each stray byte as U+FFFD. *)
Lemma parse_json_string s rest :
  let t := concat (json_escape <$> runes s) ++ dquote :: rest in
  parse_string (length t) t = Some (to_valid s, rest).
Proof.
  cbn zeta. rewrite parse_string_runes; [done|apply runes_chunks|apply runes_chunk|].
  pose proof (escaped_length (runes s) (runes_chunks s)). rewrite length_app. cbn [length]. lia.
Qed.

(** ** Reading back a number *)

Definition is_digit (c : ascii) : Prop := is_Some (digit_val c).

(** The digits of a positive number; the first is not 0. *)
Lemma pretty_digits x s : x ≠ 0%N →
  ∃ c ds, lit (pretty_N_go x s) = c :: ds ++ lit s ∧ is_digit c ∧ c ≠ "0"%char ∧ Forall is_digit ds.
Proof.
  revert s. induction (N.lt_wf_0 x) as [x _ IH]; intros s Hx. rewrite pretty_N_go_step by lia.
  pose proof (N.mod_lt x 10 ltac:(done)) as Hm. pose proof (digit_val_char (x mod 10) Hm) as Hd.
  destruct (decide (x / 10 = 0)%N) as [E|E].
  - rewrite E. exists (pretty_N_char (x mod 10)), []. split_and!; [done|by eexists| |done].
    assert (x < 10)%N as Hlt by (apply N.div_small_iff; [done|exact E]). rewrite N.mod_small in Hd |- * by done.
    intros Ec. rewrite Ec in Hd. change (Some 0%Z = Some (Z.of_N x)) in Hd. injection Hd as Hd. lia.
  - destruct (IH (x / 10)%N ltac:(apply N.div_lt; [by apply N.neq_0_lt_0|done])
      (String.String (pretty_N_char (x mod 10)) s) E) as (c & ds & -> & Hc & H0 & Hds).
    exists c, (ds ++ [pretty_N_char (x mod 10)]). split_and!; [by rewrite <- app_assoc|done|done|].
    apply Forall_app. split; [done|]. apply Forall_singleton. by eexists.
Qed.

Lemma Itoa_shape n : ∃ sg c ds, Itoa n = sg ++ c :: ds ∧ (sg = [] ∨ sg = ["-"%char]) ∧ is_digit c ∧
  Forall is_digit ds ∧ (c = "0"%char → ds = []).
Proof.
  unfold Itoa. destruct n as [|p|p].
  - exists [], "0"%char, []. split_and!; try done; [by left|by eexists].
  - destruct (pretty_digits (N.pos p) "" ltac:(done)) as (c & ds & E & ? & ? & ?).
    exists [], c, ds. rewrite app_nil_r in E. split_and!; try done; by left.
  - destruct (pretty_digits (N.pos p) "" ltac:(done)) as (c & ds & E & ? & ? & ?).
    exists ["-"%char], c, ds. rewrite app_nil_r in E. split_and!; try done; [|by right].
    change (lit (pretty (Z.neg p))) with ("-"%char :: lit (pretty_N_go (N.pos p) "")). by rewrite E.
Qed.

Lemma span_digits_app ds c r : Forall is_digit ds → digit_val c = None →
  span_digits (ds ++ c :: r) = (ds, c :: r).
Proof.
  intros Hds Hc. induction Hds as [|d ds Hd _ IH]; cbn.
  - by rewrite bool_decide_false by (rewrite Hc; by apply is_Some_None).
  - by rewrite bool_decide_true, IH.
Qed.

(** What may follow a field. *)
Definition field_end (c : ascii) : Prop := c = ","%char ∨ c = "}"%char.

Lemma parse_number_Itoa n c r : field_end c → parse_number (Itoa n ++ c :: r) = Some (Itoa n, c :: r).
Proof.
  intros Hc. destruct (Itoa_shape n) as (sg & d & ds & -> & Hsg & Hd & Hds & H0).
  assert (digit_val c = None) as Hcd by (destruct Hc; by subst).
  assert (d ≠ "-"%char) as Hneg by (intros ->; by destruct Hd).
  assert (parse_frac (c :: r) = Some ([], c :: r)) as Hf by (destruct Hc; by subst).
  assert (parse_exp (c :: r) = Some ([], c :: r)) as He by (destruct Hc; by subst).
  assert (span_digits (d :: ds ++ c :: r) = (d :: ds, c :: r)) as Hsp
    by (apply (span_digits_app (d :: ds)); [by constructor|done]).
  assert ((if bool_decide (d = "0"%char) then Some ([d], ds ++ c :: r)
           else match span_digits (d :: ds ++ c :: r) with ([], _) => None | p => Some p end)
          = Some (d :: ds, c :: r)) as Hint.
  { case_bool_decide as E; [by rewrite (H0 E)|by rewrite Hsp]. }
  rewrite <- app_assoc. unfold parse_number. destruct Hsg as [-> | ->]; cbn [app].
  - rewrite (bool_decide_false (d = _)) by done. cbv zeta. rewrite Hint, Hf, He. cbn. by rewrite app_nil_r.
  - rewrite bool_decide_true by done. cbv zeta. rewrite Hint, Hf, He. cbn. by rewrite app_nil_r.
Qed.

(** ** Reading back a struct *)

Definition value_json (v : field_value) : json :=
  match v with FString s => JString (to_valid s) | FInt n => JNumber (Itoa n) end.
Definition field_json (f : str * field_value) : str * json := (to_valid f.1, value_json f.2).

Lemma skip_ws_not c s : is_ws c = false → skip_ws (c :: s) = c :: s.
Proof. intros H. unfold skip_ws. cbn [drop_while]. by rewrite H. Qed.

Lemma json_string_app s t : json_string s ++ t = dquote :: concat (json_escape <$> runes s) ++ dquote :: t.
Proof. unfold json_string. cbn [app]. by rewrite <- app_assoc. Qed.

(** A number starts with none of the bytes that start another value. *)
Lemma number_first c : is_digit c ∨ c = "-"%char → is_ws c = false ∧
  c ∉ ["{"; "["; dquote; "t"; "f"; "n"]%char.
Proof.
  intros Hc. split; [apply not_true_is_false; unfold is_ws; intros [d [Hd ->%bool_decide_eq_true]]%existsb_exists|intros Hin];
    [apply list_elem_of_In in Hd; rename Hd into Hin|];
    rewrite !elem_of_cons, elem_of_nil in Hin; destruct Hc as [[x Hx]| ->];
    repeat destruct Hin as [->|Hin]; try done; repeat destruct Hin as [E|Hin]; done.
Qed.

Lemma parse_field_value fuel depth v c r : field_end c →
  parse_value (S fuel) depth (json_field_value v ++ c :: r) = Some (value_json v, c :: r).
Proof.
  intros Hc. destruct v as [s|n]; cbn [json_field_value value_json].
  - rewrite json_string_app. cbn [parse_value]. rewrite skip_ws_not by done.
    by rewrite parse_json_string.
  - pose proof (parse_number_Itoa n c r Hc) as Hp.
    destruct (Itoa_shape n) as (sg & d & ds & E & Hsg & Hd & _). rewrite E in Hp |- *.
    assert (∃ a t, (sg ++ d :: ds) ++ c :: r = a :: t ∧ (is_digit a ∨ a = "-"%char)) as (a & t & Ea & Ha).
    { destruct Hsg as [-> | ->]; eexists _, _; (split; [done|]); auto. }
    rewrite Ea in Hp |- *. destruct (number_first a Ha) as [Hw Hn].
    cbn [parse_value]. rewrite skip_ws_not by done.
    rewrite !bool_decide_false by (intros ->; apply Hn; rewrite !elem_of_cons; tauto). by rewrite Hp.
Qed.

Lemma parse_fields fields : ∀ fuel depth rest, fields ≠ [] → length fields < fuel →
  parse_members fuel depth (Join (json_field <$> fields) ","%char ++ "}"%char :: rest) =
    Some (field_json <$> fields, rest).
Proof.
  induction fields as [|[k v] fields IH]; intros [|[|fuel]] depth rest Hn Hf; try done; cbn [length] in Hf; [lia|lia|].
  assert (∀ c r, field_end c → ∃ s2 s3, skip_ws (json_field (k, v) ++ c :: r) = dquote :: s2 ∧
    parse_string (length s2) s2 = Some (to_valid k, colon :: s3) ∧
    parse_value (S fuel) depth s3 = Some (value_json v, c :: r)) as Hfield.
  { intros c r Hc. unfold json_field. cbn [fst snd]. rewrite <- !app_assoc, json_string_app.
    eexists _, _. split; [by rewrite skip_ws_not|]. split; [apply parse_json_string|]. by apply parse_field_value. }
  destruct fields as [|f fields].
  - cbn [fmap list_fmap Join]. destruct (Hfield "}"%char rest) as (s2 & s3 & E1 & E2 & E3); [by right|].
    unfold fmap in E1 |- *. remember (S fuel) as m eqn:Em. cbn [parse_members].
    rewrite E1. rewrite bool_decide_true by done. rewrite E2. rewrite skip_ws_not by done.
    rewrite bool_decide_true by done. rewrite E3. rewrite skip_ws_not by done. done.
  - change (json_field <$> (k, v) :: f :: fields) with (json_field (k, v) :: (json_field <$> f :: fields)).
    rewrite Join_cons by done. rewrite <- app_assoc. cbn [app].
    destruct (Hfield ","%char (Join (json_field <$> f :: fields) ","%char ++ "}"%char :: rest))
      as (s2 & s3 & E1 & E2 & E3); [by left|].
    pose proof (IH (S fuel) depth rest ltac:(done) ltac:(cbn [length] in *; lia)) as IH'.
    remember (S fuel) as m eqn:Em. cbn [parse_members].
    rewrite E1. rewrite bool_decide_true by done. rewrite E2. rewrite skip_ws_not by done.
    rewrite bool_decide_true by done. rewrite E3. rewrite skip_ws_not by done.
    rewrite bool_decide_false by done. rewrite bool_decide_true by done. by rewrite IH'.
Qed.

Lemma Join_length (l : list str) c : (∀ s, s ∈ l → s ≠ []) → length l ≤ length (Join l c).
Proof.
  induction l as [|s l IH]; intros Hl; [done|]. assert (length s ≠ 0) by (rewrite length_zero_iff_nil; apply Hl; by left).
  destruct l as [|s' l]; [cbn in *; lia|]. rewrite Join_cons by done. rewrite length_app. cbn [length] in *.
  assert (S (length l) ≤ length (Join (s' :: l) c)) by (apply IH; intros; apply Hl; by right). lia.
Qed.

Lemma Parse_Marshal fields rest :
  Parse (Marshal fields ++ rest) = Some (JObject (field_json <$> fields), rest).
Proof.
  assert (length fields ≤ length (Join (json_field <$> fields) ","%char)) as Hlen.
  { rewrite <- (length_fmap json_field fields) at 1. apply Join_length. by intros s (f & -> & _)%list_elem_of_fmap. }
  unfold Parse, Marshal. rewrite <- !app_assoc. cbn [app lit String.list_ascii_of_string].
  set (t := Join (json_field <$> fields) ","%char) in *. set (s := "{"%char :: t ++ "}"%char :: rest).
  assert (S (length fields) < 2 * length s) as Hfuel by (unfold s; cbn [length]; rewrite length_app; cbn [length]; lia).
  remember (2 * length s) as fuel eqn:Ef. clear Ef. cbn [parse_value].
  unfold s. rewrite skip_ws_not by done. rewrite bool_decide_true by done. rewrite (proj2 (Z.leb_gt _ _)) by done.
  destruct fields as [|[k v] fields].
  { unfold t. cbn [fmap list_fmap Join app]. rewrite skip_ws_not by done. by rewrite bool_decide_true. }
  assert (∃ t', t = dquote :: t') as [t' Et].
  { unfold t. change (json_field <$> (k, v) :: fields) with (json_field (k, v) :: (json_field <$> fields)).
    destruct fields as [|f fields]; [by eexists|]. rewrite Join_cons by done. by eexists. }
  pose proof (parse_fields ((k, v) :: fields) fuel (0 + 1)%Z rest ltac:(done) ltac:(lia)) as Hp. fold t in Hp.
  rewrite Et in Hp |- *. cbn [app] in Hp |- *. rewrite skip_ws_not by done. rewrite bool_decide_false by done. by rewrite Hp.
Qed.

(** ** Nothing written breaks a line *)

Definition printable (s : str) : Prop := Forall (λ c, (0x20 <= code c)%Z) s.

Lemma hex_printable n z : printable (hex n z).
Proof.
  revert z. induction n as [|n IH]; intros z; [constructor|]. apply Forall_app. split; [apply IH|].
  apply Forall_singleton. pose proof (Z.mod_pos_bound z 16 ltac:(done)). unfold hex_digit.
  case_match; rewrite code_chr, Z.mod_small; lia.
Qed.

Lemma json_escape_printable ru : chunk_ok ru → printable (json_escape ru).
Proof.
  intros Hru. destruct ru as [r bs]. unfold json_escape.
  assert (json_safe r = true → (0x20 <= r)%Z) as Hsafe by (unfold json_safe; intros; breflect; lia).
  assert ((0x80 <= r)%Z → printable bs) as Hhigh.
  { intros Hr. destruct Hru as [(c & [= -> ->] & Hc)|(_ & Hb & _)]; [lia|].
    eapply Forall_impl; [exact Hb|]. cbn. lia. }
  destruct (Z.ltb_spec r 0x80) as [Hr|Hr].
  - destruct (json_safe r) eqn:E.
    { destruct Hru as [(c & [= -> ->] & Hc)|(H & _)]; [|cbn in H; lia]. apply Forall_singleton. auto. }
    destruct ((r =? 34)%Z || (r =? 92)%Z) eqn:E2.
    { apply orb_true_iff in E2 as [->%Z.eqb_eq| ->%Z.eqb_eq]; by repeat constructor. }
    repeat (case_match; [by repeat constructor|]). apply Forall_app. split; [by repeat constructor|apply hex_printable].
  - case_match; [by repeat constructor|]. case_match; [|auto].
    apply Forall_app. split; [by repeat constructor|apply hex_printable].
Qed.

Lemma json_string_printable s : printable (json_string s).
Proof.
  unfold json_string. constructor; [done|]. apply Forall_app. split; [|by repeat constructor].
  pose proof (runes_chunks s) as H. induction H as [|ru l Hru _ IH]; [constructor|].
  apply Forall_app. split; [by apply json_escape_printable|exact IH].
Qed.

Lemma Itoa_printable n : printable (Itoa n).
Proof.
  destruct (Itoa_shape n) as (sg & c & ds & -> & Hsg & Hc & Hds & _).
  assert (∀ d, is_digit d → (0x20 <= code d)%Z) as Hd.
  { intros d [x Hx]. unfold digit_val in Hx. case_match; [breflect; lia|done]. }
  apply Forall_app. split; [destruct Hsg as [-> | ->]; by repeat constructor|].
  constructor; [auto|]. eapply Forall_impl; eauto.
Qed.

Lemma Marshal_printable fields : printable (Marshal fields).
Proof.
  apply Forall_app. split; [by repeat constructor|]. apply Forall_app. split; [|by repeat constructor].
  apply Forall_forall. intros c [->|(w & Hw & Hc)]%elem_of_Join; [by vm_compute|].
  apply list_elem_of_fmap in Hw as ([k v] & -> & _). revert c Hc. apply Forall_forall.
  apply Forall_app. split; [apply json_string_printable|]. apply Forall_app. split; [by repeat constructor|].
  destruct v; [apply json_string_printable|apply Itoa_printable].
Qed.

(** ** The bound on the rounds is no restriction *)

Lemma skip_ws_length s : length (skip_ws s) ≤ length s.
Proof. unfold skip_ws. induction s as [|c s IH]; [done|]. cbn [drop_while]. case_match; cbn [length]; lia. Qed.

Lemma getu4_length s r s' : getu4 s = Some (r, s') → length s' < length s.
Proof. unfold getu4. intros H. repeat case_match; simplify_eq; cbn; lia. Qed.

Lemma unicode_escape_length s r s' : unicode_escape s = Some (r, s') → length s' < length s.
Proof.
  unfold unicode_escape. intros H. destruct (getu4 s) as [[r0 s0]|] eqn:E; [|done]. apply getu4_length in E.
  destruct (is_surrogate r0); [|by simplify_eq]. destruct s0 as [|b [|u s2]]; [by simplify_eq..|].
  case_match; [|by simplify_eq]. destruct (getu4 s2) as [[r2 s3]|] eqn:E2; [|by simplify_eq].
  apply getu4_length in E2. destruct (surrogate_pair _ _); simplify_eq; [cbn in E; lia|done].
Qed.

Lemma parse_string_length fuel : ∀ s v r, parse_string fuel s = Some (v, r) → length r < length s.
Proof.
  induction fuel as [|fuel IH]; intros [|c s] v r; try done. cbn [parse_string]. case_bool_decide; [intros; simplify_eq; cbn; lia|].
  assert (∀ (p : str) s0, length s0 < length (c :: s) →
    match parse_string fuel s0 with Some (v', r') => Some (p ++ v', r') | None => None end = Some (v, r) →
    length r < length (c :: s)) as Hmore.
  { intros p s0 Hs0 Hp. destruct (parse_string fuel s0) as [[v' r']|] eqn:E; [|done]. simplify_eq.
    apply IH in E. lia. }
  case_bool_decide.
  - destruct s as [|e s]; [done|]. case_bool_decide.
    + destruct (unicode_escape s) as [[r0 s0]|] eqn:E; [|done]. apply unicode_escape_length in E.
      apply Hmore. cbn. lia.
    + destruct (simple_escape e); [|done]. apply Hmore. cbn. lia.
  - case_match; [done|]. pose proof (DecodeRune_width c s) as Hw. destruct (DecodeRune (c :: s)) as [r0 w].
    apply Hmore. rewrite length_drop. cbn [snd length] in *. lia.
Qed.

Lemma span_digits_length s : length (span_digits s).1 + length (span_digits s).2 = length s.
Proof. induction s as [|c s IH]; [done|]. cbn. case_bool_decide; [|done]. destruct (span_digits s). cbn in *. lia. Qed.

Lemma parse_frac_length s t r : parse_frac s = Some (t, r) → length r ≤ length s.
Proof.
  unfold parse_frac. destruct s as [|c s]; [intros; by simplify_eq|]. case_bool_decide; [|intros; by simplify_eq].
  pose proof (span_digits_length s). destruct (span_digits s) as [[|d ds] r']; [done|]. intros. simplify_eq. cbn in *. lia.
Qed.

Lemma parse_exp_length s t r : parse_exp s = Some (t, r) → length r ≤ length s.
Proof.
  unfold parse_exp. destruct s as [|c s]; [intros; by simplify_eq|]. case_match; [|intros; by simplify_eq].
  assert (∀ (sg s1 : str), length s1 ≤ length s →
    (match span_digits s1 with ([], _) => None | (ds, r) => Some (c :: sg ++ ds, r) end = Some (t, r)) →
    length r ≤ length (c :: s)) as Hd.
  { intros sg s1 Hs1. pose proof (span_digits_length s1). destruct (span_digits s1) as [[|d ds] r']; [done|].
    intros. simplify_eq. cbn in *. lia. }
  destruct s as [|d s]; [by apply Hd|]. destruct (bool_decide (d = "+"%char) || bool_decide (d = "-"%char)); apply Hd; cbn [length]; lia.
Qed.

Lemma parse_number_length s t r : parse_number s = Some (t, r) → length r < length s.
Proof.
  unfold parse_number. destruct s as [|c s]; [done|].
  assert (∀ (sg s1 : str), length s1 ≤ length (c :: s) →
    match s1 with
    | [] => None
    | c' :: s2 =>
        match (if bool_decide (c' = "0"%char) then Some ([c'], s2)
               else match span_digits s1 with ([], _) => None | ds => Some ds end) with
        | None => None
        | Some (ds, s3) =>
            match parse_frac s3 with
            | None => None
            | Some (fr, s4) =>
                match parse_exp s4 with
                | None => None
                | Some (ex, s5) => Some (sg ++ ds ++ fr ++ ex, s5)
                end
            end
        end
    end = Some (t, r) → length r < length (c :: s)) as Hint.
  { intros sg [|c' s2] Hs1; [done|]. pose proof (span_digits_length (c' :: s2)) as Hsp.
    destruct (if bool_decide _ then _ else _) as [[ds s3]|] eqn:Ei; [|done].
    assert (length s3 < length (c' :: s2)) as Hs3.
    { case_bool_decide; [simplify_eq; cbn; lia|]. destruct (span_digits (c' :: s2)) as [[|d ds'] r']; [done|].
      simplify_eq. cbn in *. lia. }
    destruct (parse_frac s3) as [[fr s4]|] eqn:Ef; [|done]. apply parse_frac_length in Ef.
    destruct (parse_exp s4) as [[ex s5]|] eqn:Ee; [|done]. apply parse_exp_length in Ee. intros. simplify_eq. lia. }
  case_bool_decide; [apply (Hint [c] s)|apply (Hint [] (c :: s))]; cbn [length]; lia.
Qed.

Lemma literal_length text v s v' r : text ≠ [] → literal text v s = Some (v', r) → length r < length s.
Proof.
  unfold literal. intros Ht H. case_match eqn:Hp; [|done]. simplify_eq. apply HasPrefix_spec in Hp as [k ->].
  rewrite drop_app_length, length_app. destruct text; [done|cbn; lia].
Qed.

(** What follows is shorter. *)
Lemma parse_shorter fuel :
  (∀ d s v r, parse_value fuel d s = Some (v, r) → length r < length s) ∧
  (∀ d s l r, parse_members fuel d s = Some (l, r) → length r < length s) ∧
  (∀ d s l r, parse_elems fuel d s = Some (l, r) → length r < length s).
Proof.
  induction fuel as [|fuel (IHv & IHm & IHe)]; [by split_and!|]. split_and!; intros d s.
  - intros v r. cbn [parse_value]. pose proof (skip_ws_length s) as Hs. destruct (skip_ws s) as [|c s']; [done|].
    cbn [length] in Hs. pose proof (skip_ws_length s') as Hs'. case_bool_decide.
    { case_match; [done|]. destruct (skip_ws s') as [|x r']; [done|]. cbn [length] in Hs'.
      case_bool_decide; [intros; simplify_eq; lia|]. destruct (parse_members _ _ s') as [[l r0]|] eqn:E; [|done].
      apply IHm in E. intros. simplify_eq. lia. }
    case_bool_decide.
    { case_match; [done|]. destruct (skip_ws s') as [|x r']; [done|]. cbn [length] in Hs'.
      case_bool_decide; [intros; simplify_eq; lia|]. destruct (parse_elems _ _ s') as [[l r0]|] eqn:E; [|done].
      apply IHe in E. intros. simplify_eq. lia. }
    case_bool_decide.
    { destruct (parse_string _ s') as [[t r0]|] eqn:E; [|done]. apply parse_string_length in E. intros. simplify_eq. lia. }
    do 3 (case_bool_decide; [intros E; apply literal_length in E; [cbn [length] in E; lia|done]|]).
    destruct (parse_number _) as [[t r0]|] eqn:E; [|done]. apply parse_number_length in E. cbn [length] in E.
    intros. simplify_eq. lia.
  - intros l r. cbn [parse_members]. pose proof (skip_ws_length s) as Hs. destruct (skip_ws s) as [|q s1]; [done|].
    cbn [length] in Hs. case_bool_decide; [|done]. destruct (parse_string _ s1) as [[k s2]|] eqn:E; [|done].
    apply parse_string_length in E. pose proof (skip_ws_length s2). destruct (skip_ws s2) as [|c s3]; [done|].
    cbn [length] in *. case_bool_decide; [|done]. destruct (parse_value fuel d s3) as [[v s4]|] eqn:Ev; [|done].
    apply IHv in Ev. pose proof (skip_ws_length s4). destruct (skip_ws s4) as [|x s5]; [done|]. cbn [length] in *.
    case_bool_decide; [intros; simplify_eq; lia|]. case_bool_decide; [|done].
    destruct (parse_members fuel d s5) as [[l' r']|] eqn:Em; [|done]. apply IHm in Em. intros. simplify_eq. lia.
  - intros l r. cbn [parse_elems]. destruct (parse_value fuel d s) as [[v s4]|] eqn:Ev; [|done].
    apply IHv in Ev. pose proof (skip_ws_length s4). destruct (skip_ws s4) as [|x s5]; [done|]. cbn [length] in *.
    case_bool_decide; [intros; simplify_eq; lia|]. case_bool_decide; [|done].
    destruct (parse_elems fuel d s5) as [[l' r']|] eqn:Em; [|done]. apply IHe in Em. intros. simplify_eq. lia.
Qed.

Lemma parse_fuel f1 : ∀ f2,
  (∀ d s, 2 * length s < f1 → 2 * length s < f2 → parse_value f1 d s = parse_value f2 d s) ∧
  (∀ d s, 2 * length s < f1 → 2 * length s < f2 → parse_members f1 d s = parse_members f2 d s) ∧
  (∀ d s, 2 * length s + 1 < f1 → 2 * length s + 1 < f2 → parse_elems f1 d s = parse_elems f2 d s).
Proof.
  induction f1 as [|f1 IH]; intros [|f2]; [by split_and!; intros; lia..|].
  destruct (IH f2) as (IHv & IHm & IHe). destruct (parse_shorter f2) as (Lv & _ & _). clear IH.
  split_and!; intros d s H1 H2.
  - cbn [parse_value]. pose proof (skip_ws_length s) as Hs. destruct (skip_ws s) as [|c s']; [done|].
    cbn [length] in Hs. by rewrite (IHm (d + 1)%Z s'), (IHe (d + 1)%Z s') by lia.
  - cbn [parse_members]. pose proof (skip_ws_length s) as Hs. destruct (skip_ws s) as [|q s1]; [done|].
    cbn [length] in Hs. case_bool_decide; [|done]. destruct (parse_string _ s1) as [[k s2]|] eqn:E; [|done].
    apply parse_string_length in E. pose proof (skip_ws_length s2). destruct (skip_ws s2) as [|c s3]; [done|].
    cbn [length] in *. rewrite (IHv d s3) by lia. case_bool_decide; [|done].
    destruct (parse_value f2 d s3) as [[v s4]|] eqn:Ev; [|done]. apply Lv in Ev.
    pose proof (skip_ws_length s4). destruct (skip_ws s4) as [|x s5]; [done|]. cbn [length] in *.
    by rewrite (IHm d s5) by lia.
  - cbn [parse_elems]. rewrite (IHv d s) by lia. destruct (parse_value f2 d s) as [[v s4]|] eqn:Ev; [|done].
    apply Lv in Ev. pose proof (skip_ws_length s4). destruct (skip_ws s4) as [|x s5]; [done|]. cbn [length] in *.
    by rewrite (IHe d s5) by lia.
Qed.

(** More rounds than [Parse] takes give the same result. *)
Lemma Parse_enough fuel s : 2 * length s < fuel → parse_value fuel 0 s = Parse s.
Proof. intros Hf. unfold Parse. apply parse_fuel; lia. Qed.
