(* ===== verification/Url.v ===== *)
(** * Escaping and query strings (package net/url)

    What the handlers and the storage client use of it: [PathEscape],
    [QueryEscape] and their inverses, [ParseQuery], [Values.Get], [Values.Set]
    and [Values.Encode].  A [Values] is the list of its pairs, the values of
    one key in order. *)

From S2P Require Import Prelude GoString Json.

Local Open Scope go_scope.

(** ** Escaping *)

(** The bytes both escapings keep, and those [PathEscape] keeps besides. *)
Definition unreserved (c : ascii) : bool :=
  let n := code c in
  (((97 <=? n) && (n <=? 122)) || ((65 <=? n) && (n <=? 90)) || ((48 <=? n) && (n <=? 57)))%Z ||
  existsb (λ d, bool_decide (c = d)) (lit "-_.~").
Definition unescaped (c : ascii) : bool := unreserved c || existsb (λ d, bool_decide (c = d)) (lit "$&+=:@").

Definition upper_hex (n : Z) : ascii := if (n <? 10)%Z then chr (48 + n) else chr (55 + n).
Definition percent_byte (c : ascii) : str := ["%"%char; upper_hex (code c / 16); upper_hex (code c mod 16)].

Definition path_byte (c : ascii) : str := if unescaped c then [c] else percent_byte c.
Definition query_byte (c : ascii) : str :=
  if unreserved c then [c] else if bool_decide (c = " "%char) then ["+"%char] else percent_byte c.

Definition PathEscape (s : str) : str := s ≫= path_byte.
Definition QueryEscape (s : str) : str := s ≫= query_byte.

(** [unescape]: in a query a plus sign stands for a space. *)
Fixpoint unescape (query : bool) (s : str) : option str :=
  match s with
  | [] => Some []
  | c :: s' =>
      if bool_decide (c = "%"%char) then
        match s' with
        | a :: b :: s'' =>
            match hex_val a, hex_val b with
            | Some x, Some y => cons (chr (x * 16 + y)) <$> unescape query s''
            | _, _ => None
            end
        | _ => None
        end
      else cons (if query && bool_decide (c = "+"%char) then " "%char else c) <$> unescape query s'
  end.
Definition QueryUnescape (s : str) : option str := unescape true s.
Definition PathUnescape (s : str) : option str := unescape false s.

(** ** Query strings *)

(** [strings.Cut] at one byte. *)
Definition CutByte (s : str) (c : ascii) : str * str :=
  match IndexByte s c with
  | Some i => (take i s, drop (S i) s)
  | None => (s, [])
  end.

(** [url.ParseQuery]: a pair with a semicolon or a bad escape is left out. *)
Definition query_pair (kv : str) : option (str * str) :=
  if ContainsByte kv ";"%char || bool_decide (kv = []) then None
  else
    let '(k, v) := CutByte kv "="%char in
    match QueryUnescape k, QueryUnescape v with
    | Some k, Some v => Some (k, v)
    | _, _ => None
    end.
Definition Values : Type := list (str * str).
Definition ParseQuery (q : str) : Values := omap query_pair (Split q "&"%char).

Definition Values_Get (vs : Values) (key : str) : str :=
  match list_find (λ kv, kv.1 = key) vs with
  | Some (_, (_, v)) => v
  | None => []
  end.
Definition Values_Set (vs : Values) (key value : str) : Values :=
  filter (λ kv, kv.1 ≠ key) vs ++ [(key, value)].

(** [Encode] sorts by key. *)
Definition key_le (kv kv' : str * str) : Prop := str_le kv.1 kv'.1.
#[export] Instance key_le_dec : RelDecision key_le.
Proof. unfold key_le. solve_decision. Defined.
Definition encode_pair (kv : str * str) : str := QueryEscape kv.1 ++ lit "=" ++ QueryEscape kv.2.
Definition Encode (vs : Values) : str := Join (encode_pair <$> merge_sort key_le vs) "&"%char.

(** [u.Query().Get(key)]. *)
Definition Query_Get (q key : str) : str := Values_Get (ParseQuery q) key.

(** ** Round trips *)

Lemma upper_hex_spec n : (0 <= n < 16)%Z → hex_val (upper_hex n) = Some n ∧ unreserved (upper_hex n) = true.
Proof.
  intros Hn. assert (n ∈ seqZ 0 16) as Hin by (apply elem_of_seqZ; lia).
  assert (forallb (λ n, bool_decide (hex_val (upper_hex n) = Some n) && unreserved (upper_hex n)) (seqZ 0 16) = true)
    as HF by (by vm_compute).
  rewrite forallb_forall in HF. apply list_elem_of_In, HF, andb_prop in Hin as [? ?]. by breflect.
Qed.

Lemma nibbles c : (0 <= code c / 16 < 16)%Z ∧ (0 <= code c mod 16 < 16)%Z.
Proof.
  pose proof (code_range c). split; [|apply Z.mod_pos_bound; lia].
  split; [apply Z.div_pos; lia|apply Z.div_lt_upper_bound; lia].
Qed.

Lemma unescape_percent q c s : unescape q (percent_byte c ++ s) = cons c <$> unescape q s.
Proof.
  destruct (nibbles c) as [H1 H2]. destruct (upper_hex_spec _ H1) as [E1 _], (upper_hex_spec _ H2) as [E2 _].
  unfold percent_byte. cbn [app unescape]. rewrite bool_decide_true, E1, E2 by done.
  rewrite Z.mul_comm, <- Z.div_mod, chr_code by done. done.
Qed.

Lemma percent_byte_chars c : Forall (λ d, unreserved d = true ∨ d = "%"%char) (percent_byte c).
Proof.
  destruct (nibbles c) as [H1 H2]. destruct (upper_hex_spec _ H1) as [_ E1], (upper_hex_spec _ H2) as [_ E2].
  apply Forall_cons_2; [by right|]. do 2 (apply Forall_cons_2; [by left|]). apply Forall_nil_2.
Qed.

Lemma PathUnescape_Escape s : PathUnescape (PathEscape s) = Some s.
Proof.
  induction s as [|c s IH]; [done|]. change (PathEscape (c :: s)) with (path_byte c ++ PathEscape s).
  unfold PathUnescape, path_byte in *. destruct (unescaped c) eqn:E; [|by rewrite unescape_percent, IH].
  cbn [app unescape andb]. rewrite bool_decide_false by (intros ->; by vm_compute in E). by rewrite IH.
Qed.

Lemma QueryUnescape_Escape s : QueryUnescape (QueryEscape s) = Some s.
Proof.
  induction s as [|c s IH]; [done|]. change (QueryEscape (c :: s)) with (query_byte c ++ QueryEscape s).
  unfold QueryUnescape, query_byte in *. destruct (unreserved c) eqn:E.
  - cbn [app unescape andb]. rewrite !bool_decide_false by (intros ->; by vm_compute in E). by rewrite IH.
  - case_bool_decide as Hs; [|by rewrite unescape_percent, IH]. subst. cbn [app unescape andb]. by rewrite IH.
Qed.

Definition query_char (c : ascii) : Prop := unreserved c = true ∨ c = "%"%char ∨ c = "+"%char.

Lemma QueryEscape_chars s : Forall query_char (QueryEscape s).
Proof.
  apply Forall_bind, Forall_true. intros c. unfold query_byte, compose. cbv beta.
  destruct (unreserved c) eqn:E; [apply Forall_singleton; by left|].
  case_bool_decide; [apply Forall_singleton; by right; right|].
  eapply Forall_impl; [apply percent_byte_chars|]. unfold query_char. naive_solver.
Qed.

Lemma QueryEscape_notin c s : unreserved c = false → c ≠ "%"%char → c ≠ "+"%char → c ∉ QueryEscape s.
Proof. intros H1 H2 H3 Hin. eapply Forall_forall in Hin; [|apply QueryEscape_chars]. destruct Hin as [?|[?|?]]; congruence. Qed.

Lemma encode_pair_notin c kv : c ≠ "="%char → unreserved c = false → c ≠ "%"%char → c ≠ "+"%char → c ∉ encode_pair kv.
Proof.
  intros ? ? ? ? Hin. unfold encode_pair in Hin. rewrite !elem_of_app in Hin.
  destruct Hin as [Hin|[Hin|Hin]]; [by eapply QueryEscape_notin| |by eapply QueryEscape_notin].
  by apply list_elem_of_singleton in Hin.
Qed.

Lemma query_pair_encode kv : query_pair (encode_pair kv) = Some kv.
Proof.
  unfold query_pair. destruct (ContainsByte _ _) eqn:Hc.
  { apply ContainsByte_spec in Hc. exfalso. revert Hc. by apply encode_pair_notin. }
  rewrite bool_decide_false; [|unfold encode_pair; by destruct (QueryEscape kv.1)]. cbn [orb].
  assert (IndexByte (encode_pair kv) "="%char = Some (length (QueryEscape kv.1))) as Hi.
  { apply IndexByte_Some. eexists _, _. split_and!; [done|by apply QueryEscape_notin|done]. }
  unfold CutByte. rewrite Hi. unfold encode_pair.
  rewrite take_app_length, drop_app_ge by lia. replace (S _ - _) with 1 by lia.
  change (drop 1 (lit "=" ++ QueryEscape kv.2)) with (QueryEscape kv.2).
  rewrite !QueryUnescape_Escape. by destruct kv.
Qed.

(** [ParseQuery] gets back what [Encode] wrote, in the order of the keys. *)
Lemma ParseQuery_Encode vs : ParseQuery (Encode vs) = merge_sort key_le vs.
Proof.
  unfold ParseQuery, Encode. destruct (decide (merge_sort key_le vs = [])) as [->|Hne]; [done|].
  rewrite Split_Join; [|by destruct (merge_sort key_le vs)|apply Forall_fmap, Forall_true; intros kv; by apply encode_pair_notin].
  generalize (merge_sort key_le vs). intros l. induction l as [|kv l IH]; [done|]. cbn.
  by rewrite query_pair_encode, IH.
Qed.

Lemma Values_Get_unique vs key value :
  (key, value) ∈ vs → (∀ v, (key, v) ∈ vs → v = value) → Values_Get vs key = value.
Proof.
  intros Hin Hu. unfold Values_Get. destruct (list_find _ vs) as [[i [k v]]|] eqn:E.
  - apply list_find_Some in E as (Hl & Hk & _). cbn in Hk. subst k. apply Hu. by eapply list_elem_of_lookup_2.
  - apply list_find_None in E. rewrite Forall_forall in E. by destruct (E _ Hin).
Qed.

(** What one side sets the other side reads, whatever else the query holds. *)
Lemma Query_Get_Set vs key value : Query_Get (Encode (Values_Set vs key value)) key = value.
Proof.
  unfold Query_Get. rewrite ParseQuery_Encode.
  assert (∀ v, (key, v) ∈ merge_sort key_le (Values_Set vs key value) ↔ v = value) as H.
  { intros v. rewrite merge_sort_Permutation. unfold Values_Set.
    rewrite elem_of_app, list_elem_of_filter, list_elem_of_singleton. naive_solver. }
  apply Values_Get_unique; intros; by apply H.
Qed.
