(* ===== verification/Wire.v ===== *)
(** * Wire formats (internal/handler, internal/model)

    The JSON of requests and responses and the framing of server-sent events.
    [read_events] is a client of the event stream, by the rules of the
    EventSource standard. *)

From S2P Require Import Prelude GoString GoUtf8 GoError GoConv Json Model.

Local Open Scope go_scope.

(** ** The create request *)

(** What reading a request body yields: its bytes and then the end, or an
    error. *)
Record request_body := mkBody { bd_bytes : str; bd_err : option error }.

Definition maxCreateBodyBytes : Z := 2 ^ 20.

(** [http.MaxBytesReader]. *)
Definition MaxBytesReader (limit : Z) (b : request_body) : request_body :=
  if (limit <? Z.of_nat (length (bd_bytes b)))%Z
  then mkBody (take (Z.to_nat limit) (bd_bytes b)) (Some (ErrorString (lit "http: request body too large")))
  else b.

(** [json.Decoder.Decode] of the first value.  A value that ends with its own
    bracket needs no byte after it; a literal or a number has to see one, or
    the end. *)
Definition bracketed (v : json) : bool := match v with JObject _ | JArray _ => true | _ => false end.

Definition Decode_value (b : request_body) : error + json :=
  match Parse (bd_bytes b), bd_err b with
  | Some (v, rest), Some err =>
      if negb (bracketed v) && bool_decide (rest = []) then inl err else inr v
  | Some (v, _), None => inr v
  | None, Some err => inl err
  | None, None => inl (ErrorString (lit "invalid JSON"))
  end.

(** The fields of [ArchiveRequest], found by their names without regard to
    case.  Folding maps only U+017F and U+212A to ASCII letters (S and K),
    which no field name has. *)
Definition ascii_lower (c : ascii) : ascii :=
  if ((65 <=? code c) && (code c <=? 90))%Z then chr (code c + 32) else c.

Definition request_field (key : str) : option (str → ArchiveRequest → ArchiveRequest) :=
  let k := ascii_lower <$> key in
  if bool_decide (k = lit "root_folder_id") then
    Some (λ v r, mkRequest v (req_ArchiveName r) (req_ExportType r))
  else if bool_decide (k = lit "archive_name") then
    Some (λ v r, mkRequest (req_RootFolderID r) v (req_ExportType r))
  else if bool_decide (k = lit "export_type") then
    Some (λ v r, mkRequest (req_RootFolderID r) (req_ArchiveName r) v)
  else None.

(** One member of the object: [null] leaves the field alone, a value of
    another type is the error reported at the end. *)
Definition decode_member (st : ArchiveRequest * option error) (m : str * json) : ArchiveRequest * option error :=
  match request_field m.1, m.2 with
  | None, _ | Some _, JNull => st
  | Some set, JString v => (set v st.1, st.2)
  | Some _, _ =>
      (st.1, match st.2 with
             | Some e => Some e
             | None => Some (ErrorString (lit "json: cannot unmarshal into Go struct field"))
             end)
  end.

Definition decode_request (v : json) : error + ArchiveRequest :=
  match v with
  | JNull => inr (mkRequest [] [] [])
  | JObject l =>
      match foldl decode_member (mkRequest [] [] [], None) l with
      | (r, None) => inr r
      | (_, Some e) => inl e
      end
  | _ => inl (ErrorString (lit "json: cannot unmarshal into Go value of type model.ArchiveRequest"))
  end.

Definition Decode_request (b : request_body) : error + ArchiveRequest :=
  match Decode_value (MaxBytesReader maxCreateBodyBytes b) with
  | inl e => inl e
  | inr v => decode_request v
  end.

(** The struct tags. *)
Definition request_fields (r : ArchiveRequest) : list (str * field_value) :=
  [(lit "root_folder_id", FString (req_RootFolderID r)); (lit "archive_name", FString (req_ArchiveName r));
   (lit "export_type", FString (req_ExportType r))].

(** C17: a create request round-trips: what a client marshals, the handler
    decodes to the same request, whatever follows it in the body and however
    the body ends, as long as the strings are UTF-8 and the request itself
    fits the limit of 1 MiB. *)
Theorem request_roundtrip r rest err :
  utf8_Valid (req_RootFolderID r) = true → utf8_Valid (req_ArchiveName r) = true →
  utf8_Valid (req_ExportType r) = true →
  (Z.of_nat (length (Marshal (request_fields r))) <= maxCreateBodyBytes)%Z →
  Decode_request (mkBody (Marshal (request_fields r) ++ rest) err) = inr r.
Proof.
  intros H1 H2 H3 Hlen. unfold Decode_request.
  assert (∃ rest' err', MaxBytesReader maxCreateBodyBytes (mkBody (Marshal (request_fields r) ++ rest) err)
    = mkBody (Marshal (request_fields r) ++ rest') err') as (rest' & err' & ->).
  { unfold MaxBytesReader. cbn [bd_bytes]. case_match; [|by eexists _, _].
    rewrite take_app_ge by lia. by eexists _, _. }
  unfold Decode_value. cbn [bd_bytes bd_err]. rewrite Parse_Marshal. cbn [bracketed negb andb].
  assert (decode_request (JObject (field_json <$> request_fields r)) = inr r) as Hd.
  { destruct r as [a b c]. cbn [req_RootFolderID req_ArchiveName req_ExportType] in *.
    change (field_json <$> request_fields (mkRequest a b c)) with
      [(to_valid (lit "root_folder_id"), JString (to_valid a)); (to_valid (lit "archive_name"), JString (to_valid b));
       (to_valid (lit "export_type"), JString (to_valid c))].
    by rewrite !to_valid_id. }
  by destruct err'.
Qed.

Definition sample_request : ArchiveRequest := mkRequest (lit "r") (lit "A & B.zip") (lit "zip").

Lemma request_roundtrip_witness :
  Decode_request (mkBody (Marshal (request_fields sample_request) ++ lit " trailing") None) = inr sample_request.
Proof. apply (request_roundtrip sample_request (lit " trailing") None); by vm_compute. Defined.

(** ** Responses *)

(** [writeJSON] writes the value and a line feed. *)
Definition lf : ascii := "010"%char.
Definition cr : ascii := "013"%char.
Definition json_text (fields : list (str * field_value)) : str := Marshal fields ++ [lf].

Definition errorBody_fields (msg : str) : list (str * field_value) := [(lit "error", FString msg)].
Definition createArchiveResponse_fields (jobID status eventsURL : str) (expiresIn : Z) : list (str * field_value) :=
  [(lit "job_id", FString jobID); (lit "status", FString status); (lit "events_url", FString eventsURL);
   (lit "expires_in", FInt expiresIn)].

(** ** Events *)

Inductive sse_event :=
| EvProgress (p : ProgressEvent)
| EvCompleted (c : CompletedEvent)
| EvError (e : ErrorEvent).

Definition event_name (e : sse_event) : str :=
  match e with
  | EvProgress _ => lit "progress"
  | EvCompleted _ => lit "completed"
  | EvError _ => lit "error"
  end.

Definition event_fields (e : sse_event) : list (str * field_value) :=
  match e with
  | EvProgress p =>
      [(lit "processed_files", FInt (pe_ProcessedFiles p)); (lit "total_files", FInt (pe_TotalFiles p));
       (lit "processed_bytes", FInt (pe_ProcessedBytes p)); (lit "total_bytes", FInt (pe_TotalBytes p))]
  | EvCompleted c =>
      [(lit "job_id", FString (ce_JobID c)); (lit "download_url", FString (ce_DownloadURL c));
       (lit "download_token", FString (ce_DownloadToken c)); (lit "expires_in", FInt (ce_ExpiresInSecs c))]
  | EvError e => [(lit "message", FString (ee_Message e))]
  end.

(** [writeSSEEvent]; none of these structs fails to marshal. *)
Definition sse_frame (event data : str) : str :=
  lit "event: " ++ event ++ [lf] ++ lit "data: " ++ data ++ [lf; lf].
Definition writeSSEEvent (e : sse_event) : str := sse_frame (event_name e) (Marshal (event_fields e)).

Definition stream_text (evs : list sse_event) : str := concat (writeSSEEvent <$> evs).

(** ** A client of the stream

    Lines end in LF, CR or CRLF; what follows the last end is not a line. *)
Fixpoint lines_from (line : str) (s : str) : list str :=
  match s with
  | [] => []
  | c :: s' =>
      if bool_decide (c = lf) then rev line :: lines_from [] s'
      else if bool_decide (c = cr) then
        match s' with
        | d :: s'' => if bool_decide (d = lf) then rev line :: lines_from [] s'' else rev line :: lines_from [] s'
        | [] => [rev line]
        end
      else lines_from (c :: line) s'
  end.

(** The value of a field after its colon, less one space. *)
Definition field_value_of (name line : str) : option str :=
  if HasPrefix line (name ++ lit ":")
  then Some (TrimPrefix (drop (length name + 1) line) (lit " "))
  else if bool_decide (line = name) then Some [] else None.

(** The event type and the data lines of the event being read. *)
Fixpoint dispatch (event : str) (data : list str) (ls : list str) : list (str * str) :=
  match ls with
  | [] => []
  | line :: ls' =>
      if bool_decide (line = []) then
        match data with
        | [] => dispatch [] [] ls'
        | _ => (if bool_decide (event = []) then lit "message" else event, Join data lf) :: dispatch [] [] ls'
        end
      else
        match field_value_of (lit "event") line with
        | Some v => dispatch v data ls'
        | None =>
            match field_value_of (lit "data") line with
            | Some v => dispatch event (data ++ [v]) ls'
            | None => dispatch event data ls'
            end
        end
  end.

Definition sse_parse (s : str) : list (str * str) := dispatch [] [] (lines_from [] s).

Definition lookup_string (l : list (str * json)) (k : str) : option str :=
  match list_find (λ m, m.1 = k) l with
  | Some (_, (_, JString v)) => Some v
  | _ => None
  end.

Definition lookup_int (l : list (str * json)) (k : str) : option Z :=
  match list_find (λ m, m.1 = k) l with
  | Some (_, (_, JNumber t)) => match ParseInt t with inr n => Some n | inl _ => None end
  | _ => None
  end.

Definition read_event (ev : str * str) : option sse_event :=
  match Parse ev.2 with
  | Some (JObject l, _) =>
      if bool_decide (ev.1 = lit "progress") then
        match lookup_int l (lit "processed_files"), lookup_int l (lit "total_files"),
              lookup_int l (lit "processed_bytes"), lookup_int l (lit "total_bytes") with
        | Some a, Some b, Some c, Some d => Some (EvProgress (mkProgress a b c d))
        | _, _, _, _ => None
        end
      else if bool_decide (ev.1 = lit "completed") then
        match lookup_string l (lit "job_id"), lookup_string l (lit "download_url"),
              lookup_string l (lit "download_token"), lookup_int l (lit "expires_in") with
        | Some a, Some b, Some c, Some d => Some (EvCompleted (mkCompleted a b c d))
        | _, _, _, _ => None
        end
      else if bool_decide (ev.1 = lit "error") then
        match lookup_string l (lit "message") with
        | Some a => Some (EvError (mkErrorEvent a))
        | None => None
        end
      else None
  | _ => None
  end.

Definition read_events (s : str) : list (option sse_event) := read_event <$> sse_parse s.

(** ** The client reads what was sent *)

Lemma lines_from_line w : ∀ acc s, printable w → lines_from acc (w ++ lf :: s) = (rev acc ++ w) :: lines_from [] s.
Proof.
  induction w as [|c w IH]; intros acc s Hw.
  - cbn [app lines_from]. rewrite bool_decide_true by done. by rewrite app_nil_r.
  - apply Forall_cons in Hw as [Hc Hw]. cbn [app lines_from].
    rewrite !bool_decide_false by (intros ->; by vm_compute in Hc). rewrite IH by done.
    cbn [rev]. by rewrite <- app_assoc.
Qed.

Lemma lines_from_frame event data s : printable event → printable data →
  lines_from [] (sse_frame event data ++ s) =
    (lit "event: " ++ event) :: (lit "data: " ++ data) :: [] :: lines_from [] s.
Proof.
  intros He Hd. unfold sse_frame.
  replace ((lit "event: " ++ event ++ [lf] ++ lit "data: " ++ data ++ [lf; lf]) ++ s)
    with ((lit "event: " ++ event) ++ lf :: (lit "data: " ++ data) ++ lf :: [] ++ lf :: s)
    by (rewrite <- ?app_assoc; reflexivity).
  rewrite !lines_from_line; [done|constructor|..]; (apply Forall_app; split; [by repeat constructor|done]).
Qed.

Lemma dispatch_frame event data ls : event ≠ [] →
  dispatch [] [] ((lit "event: " ++ event) :: (lit "data: " ++ data) :: [] :: ls) =
    (event, data) :: dispatch [] [] ls.
Proof.
  intros He.
  assert (∀ n v, n ≠ [] → field_value_of n (n ++ lit ": " ++ v) = Some v) as Hf.
  { intros n v Hn. unfold field_value_of.
    replace (n ++ lit ": " ++ v) with ((n ++ lit ":") ++ lit " " ++ v) by (by rewrite <- app_assoc).
    rewrite HasPrefix_app. rewrite drop_app_length' by (by rewrite length_app). unfold TrimPrefix.
    by rewrite HasPrefix_app. }
  pose proof (Hf (lit "event") event ltac:(done)) as Hev. pose proof (Hf (lit "data") data ltac:(done)) as Hda.
  change (lit "event" ++ lit ": " ++ event) with (lit "event: " ++ event) in Hev.
  change (lit "data" ++ lit ": " ++ data) with (lit "data: " ++ data) in Hda.
  cbn [dispatch]. rewrite bool_decide_false by done. rewrite Hev, bool_decide_false by done.
  assert (field_value_of (lit "event") (lit "data: " ++ data) = None) as ->.
  { unfold field_value_of. rewrite bool_decide_false by done.
    destruct (HasPrefix _ _) eqn:E; [|done]. apply HasPrefix_spec in E as [k E]. by vm_compute in E. }
  rewrite Hda, bool_decide_true by done. cbn [app Join].
  by rewrite bool_decide_false.
Qed.

(** The framing is unambiguous. *)
Lemma sse_parse_frames (l : list (str * str)) :
  (∀ ev, ev ∈ l → ev.1 ≠ [] ∧ printable ev.1 ∧ printable ev.2) →
  sse_parse (concat ((λ ev, sse_frame ev.1 ev.2) <$> l)) = l.
Proof.
  unfold sse_parse. induction l as [|[n d] l IH]; intros Hl; [done|].
  destruct (Hl (n, d)) as (Hn & Hp & Hd); [by left|]. cbn [fst snd] in *.
  change (concat ((λ ev, sse_frame ev.1 ev.2) <$> (n, d) :: l)) with
    (sse_frame n d ++ concat ((λ ev, sse_frame ev.1 ev.2) <$> l)).
  rewrite lines_from_frame, dispatch_frame by done. f_equal. apply IH. intros ev Hev. apply Hl. by right.
Qed.

(** Texts in UTF-8 and numbers in range. *)
Definition wire_ok (e : sse_event) : Prop :=
  match e with
  | EvProgress p => in_int64 (pe_ProcessedFiles p) ∧ in_int64 (pe_TotalFiles p) ∧
                    in_int64 (pe_ProcessedBytes p) ∧ in_int64 (pe_TotalBytes p)
  | EvCompleted c => utf8_Valid (ce_JobID c) = true ∧ utf8_Valid (ce_DownloadURL c) = true ∧
                     utf8_Valid (ce_DownloadToken c) = true ∧ in_int64 (ce_ExpiresInSecs c)
  | EvError e => utf8_Valid (ee_Message e) = true
  end.

Lemma read_event_written e : wire_ok e → read_event (event_name e, Marshal (event_fields e)) = Some e.
Proof.
  intros He. unfold read_event. cbn [fst snd]. rewrite <- (app_nil_r (Marshal _)), Parse_Marshal.
  destruct e as [[a b c d]|[a b c d]|[a]]; cbn [wire_ok pe_ProcessedFiles pe_TotalFiles pe_ProcessedBytes pe_TotalBytes
    ce_JobID ce_DownloadURL ce_DownloadToken ce_ExpiresInSecs ee_Message] in He.
  - destruct He as (Ha%ParseInt_Itoa & Hb%ParseInt_Itoa & Hc%ParseInt_Itoa & Hd%ParseInt_Itoa).
    change (field_json <$> event_fields (EvProgress (mkProgress a b c d))) with
      [(to_valid (lit "processed_files"), JNumber (Itoa a)); (to_valid (lit "total_files"), JNumber (Itoa b));
       (to_valid (lit "processed_bytes"), JNumber (Itoa c)); (to_valid (lit "total_bytes"), JNumber (Itoa d))].
    rewrite !to_valid_id by done. lazy -[ParseInt Itoa]. by rewrite Ha, Hb, Hc, Hd.
  - destruct He as (Ha & Hb & Hc & Hd%ParseInt_Itoa).
    change (field_json <$> event_fields (EvCompleted (mkCompleted a b c d))) with
      [(to_valid (lit "job_id"), JString (to_valid a)); (to_valid (lit "download_url"), JString (to_valid b));
       (to_valid (lit "download_token"), JString (to_valid c)); (to_valid (lit "expires_in"), JNumber (Itoa d))].
    rewrite !to_valid_id by done. lazy -[ParseInt Itoa]. by rewrite Hd.
  - change (field_json <$> event_fields (EvError (mkErrorEvent a))) with
      [(to_valid (lit "message"), JString (to_valid a))].
    by rewrite !to_valid_id.
Qed.

(** C18: an event stream round-trips: from the bytes the handler writes for
    any list of events whose texts are UTF-8, a client that follows the EventSource rules and
    decodes the JSON of each event reads exactly those events, in order; no
    job ID, URL, token or message can break the framing. *)
Theorem stream_roundtrip evs : Forall wire_ok evs → read_events (stream_text evs) = Some <$> evs.
Proof.
  intros Hevs. unfold read_events.
  assert (stream_text evs = concat ((λ ev, sse_frame ev.1 ev.2) <$> ((λ e, (event_name e, Marshal (event_fields e))) <$> evs)))
    as -> by (unfold stream_text; by rewrite <- list_fmap_compose).
  rewrite sse_parse_frames.
  - rewrite <- list_fmap_compose. apply list_fmap_ext. intros i e Hi.
    apply read_event_written. by eapply Forall_lookup_1.
  - intros ev (e & -> & _)%list_elem_of_fmap. cbn [fst snd].
    split_and!; [by destruct e|by destruct e; repeat constructor|apply Marshal_printable].
Qed.

Definition sample_events : list sse_event :=
  [EvProgress (mkProgress 0 2 0 30); EvCompleted (mkCompleted (lit "j") (lit "https://h/archives/j/download") (lit "tok") 3599)].

Lemma stream_roundtrip_witness : read_events (stream_text sample_events) = Some <$> sample_events.
Proof.
  apply (stream_roundtrip sample_events). repeat apply Forall_cons_2; [| |apply Forall_nil_2].
  - unfold wire_ok, in_int64. cbn. split_and!; done.
  - unfold wire_ok, in_int64. split_and!; by vm_compute.
Defined.
