(* ===== verification/Config.v ===== *)
(** * Configuration (internal/config/config.go)

    The typed settings, [Load] and [validate].  The process environment and
    what [godotenv] reads from a .env file are maps; [net/url] is the
    parameter [UrlLib]. *)

From S2P Require Import Prelude GoString GoError Model GoConv.

Local Open Scope go_scope.
Local Open Scope Z_scope.

(** ** Settings *)

Record AppConfig := mkAppConfig { app_Env : str }.

Record ServerConfig := mkServerConfig {
  sv_Host : str;
  sv_Port : Z;
  sv_ReadTimeout : duration;
  sv_WriteTimeout : duration;
  sv_IdleTimeout : duration;
  sv_ShutdownTimeout : duration;
  sv_PublicBaseURL : str;
  sv_SelfAPIToken : str
}.

Definition Addr (s : ServerConfig) : str := sv_Host s ++ lit ":" ++ Itoa (sv_Port s).

Record DatabaseConfig := mkDatabaseConfig {
  dc_URL : str;
  dc_MaxConns : Z;                (* int32 *)
  dc_MinConns : Z;                (* int32 *)
  dc_MaxConnLifetime : duration;
  dc_MaxConnIdleTime : duration
}.

Definition LogOutputStdout : str := lit "stdout".
Definition LogOutputStderr : str := lit "stderr".
Definition LogOutputFile : str := lit "file".

Record LogConfig := mkLogConfig {
  lc_Level : str;
  lc_Output : str;
  lc_File : str;
  lc_MaxSizeMB : Z;
  lc_MaxBackups : Z;
  lc_MaxAgeDays : Z;
  lc_Compress : bool
}.

Record ArchiveConfig := mkArchiveConfig {
  ac_TempDir : str;
  ac_MaxSizeBytes : Z;
  ac_Expiry : duration;
  ac_Workers : Z;
  ac_QueueSize : Z;
  ac_CleanupInterval : duration;
  ac_FileConcurrency : Z
}.

Record StorageConfig := mkStorageConfig { stc_RequestTimeout : duration }.

Record Config := mkConfig {
  c_App : AppConfig;
  c_Server : ServerConfig;
  c_Database : DatabaseConfig;
  c_Log : LogConfig;
  c_Archive : ArchiveConfig;
  c_Storage : StorageConfig
}.

(** [url.Parse]: the scheme and the host of a URL. *)
Class UrlLib := { url_Parse : str → error + (str * str) }.

(** ** Reading variables *)

Section load.
Context {UT : UnicodeTables} {URL : UrlLib} (environ : gmap str str).

(** [os.LookupEnv], an empty value counting as unset. *)
Definition lookup_env (key : str) : option str :=
  match environ !! key with
  | Some v => if bool_decide (v = []) then None else Some v
  | None => None
  end.

Definition getString (key def : str) : str := default def (lookup_env key).

Definition getInt (key : str) (def : Z) : error + Z :=
  match lookup_env key with
  | None => inr def
  | Some v =>
      match ParseInt v with
      | inl e => inl (ErrorString (lit "invalid int for " ++ key ++ lit ": " ++ num_error_text (lit "Atoi") v e))
      | inr n => inr n
      end
  end.

Definition getInt64 (key : str) (def : Z) : error + Z :=
  match lookup_env key with
  | None => inr def
  | Some v =>
      match ParseInt v with
      | inl e => inl (ErrorString (lit "invalid int64 for " ++ key ++ lit ": " ++ num_error_text (lit "ParseInt") v e))
      | inr n => inr n
      end
  end.

Definition getBool (key : str) (def : bool) : error + bool :=
  match lookup_env key with
  | None => inr def
  | Some v =>
      match ParseBool v with
      | None => inl (ErrorString (lit "invalid bool for " ++ key ++ lit ": "
                      ++ num_error_text (lit "ParseBool") v ErrSyntax))
      | Some b => inr b
      end
  end.

Definition getDuration (key : str) (def : duration) : error + duration :=
  match lookup_env key with
  | None => inr def
  | Some v =>
      match ParseDuration v with
      | inl e => inl (ErrorString (lit "invalid duration for " ++ key ++ lit ": " ++ duration_error_text v e))
      | inr d => inr d
      end
  end.

(** [int32(n)]. *)
Definition int32 (z : Z) : Z := (z + 2 ^ 31) mod 2 ^ 32 - 2 ^ 31.

(** ** Validation *)

Definition base_url_ok (u : str) : bool :=
  match url_Parse u with
  | inl _ => false
  | inr (scheme, host) =>
      (bool_decide (scheme = lit "http") || bool_decide (scheme = lit "https"))
      && negb (bool_decide (host = []))
  end.

Definition validate (c : Config) : option error :=
  if bool_decide (dc_URL (c_Database c) = []) then Some (ErrorString (lit "DATABASE_URL is required"))
  else if bool_decide (sv_SelfAPIToken (c_Server c) = []) then Some (ErrorString (lit "SELF_API_TOKEN is required"))
  else if bool_decide (ac_TempDir (c_Archive c) = []) then Some (ErrorString (lit "ARCHIVE_TEMP_DIR is required"))
  else if ac_MaxSizeBytes (c_Archive c) <=? 0 then Some (ErrorString (lit "ARCHIVE_MAX_SIZE_BYTES must be positive"))
  else if ac_Workers (c_Archive c) <=? 0 then Some (ErrorString (lit "ARCHIVE_WORKERS must be positive"))
  else if ac_QueueSize (c_Archive c) <=? 0 then Some (ErrorString (lit "ARCHIVE_QUEUE_SIZE must be positive"))
  else if negb (bool_decide (sv_PublicBaseURL (c_Server c) = []))
          && negb (base_url_ok (sv_PublicBaseURL (c_Server c))) then
    Some (ErrorString (lit "SERVER_PUBLIC_BASE_URL must be an absolute http(s) URL, got "
                       ++ Quote (sv_PublicBaseURL (c_Server c))))
  else if bool_decide (lc_Output (c_Log c) = LogOutputFile) && bool_decide (lc_File (c_Log c) = []) then
    Some (ErrorString (lit "LOG_FILE is required when LOG_OUTPUT=file"))
  else None.

(** [Load] once the .env file is read. *)
Definition load_environ : error + Config :=
  let? port := getInt (lit "SERVER_PORT") 8080 in
  let? readTimeout := getDuration (lit "SERVER_READ_TIMEOUT") (15 * Second) in
  let? writeTimeout := getDuration (lit "SERVER_WRITE_TIMEOUT") (15 * Second) in
  let? idleTimeout := getDuration (lit "SERVER_IDLE_TIMEOUT") (60 * Second) in
  let? shutdownTimeout := getDuration (lit "SERVER_SHUTDOWN_TIMEOUT") (30 * Second) in
  let? maxConns := getInt (lit "DATABASE_MAX_CONNS") 20 in
  let? minConns := getInt (lit "DATABASE_MIN_CONNS") 5 in
  let? maxConnLifetime := getDuration (lit "DATABASE_MAX_CONN_LIFETIME") (30 * Minute) in
  let? maxConnIdleTime := getDuration (lit "DATABASE_MAX_CONN_IDLE_TIME") (5 * Minute) in
  let? maxSizeMB := getInt (lit "LOG_MAX_SIZE_MB") 100 in
  let? maxBackups := getInt (lit "LOG_MAX_BACKUPS") 10 in
  let? maxAgeDays := getInt (lit "LOG_MAX_AGE_DAYS") 30 in
  let? compress := getBool (lit "LOG_COMPRESS") true in
  let? maxSizeBytes := getInt64 (lit "ARCHIVE_MAX_SIZE_BYTES") (4 * 1024 * 1024 * 1024) in
  let? expiry := getDuration (lit "ARCHIVE_EXPIRY") Hour in
  let? workers := getInt (lit "ARCHIVE_WORKERS") 4 in
  let? queueSize := getInt (lit "ARCHIVE_QUEUE_SIZE") 100 in
  let? cleanupInterval := getDuration (lit "ARCHIVE_CLEANUP_INTERVAL") (10 * Minute) in
  let? fileConcurrency := getInt (lit "ARCHIVE_FILE_CONCURRENCY") 4 in
  let? requestTimeout := getDuration (lit "STORAGE_REQUEST_TIMEOUT") (30 * Second) in
  let cfg := mkConfig
    (mkAppConfig (getString (lit "APP_ENV") (lit "development")))
    (mkServerConfig (getString (lit "SERVER_HOST") (lit "0.0.0.0")) port readTimeout writeTimeout idleTimeout
       shutdownTimeout (TrimRightByte (getString (lit "SERVER_PUBLIC_BASE_URL") []) slash)
       (getString (lit "SELF_API_TOKEN") []))
    (mkDatabaseConfig (getString (lit "DATABASE_URL") []) (int32 maxConns) (int32 minConns)
       maxConnLifetime maxConnIdleTime)
    (mkLogConfig (getString (lit "LOG_LEVEL") (lit "info")) (getString (lit "LOG_OUTPUT") (lit "stdout"))
       (getString (lit "LOG_FILE") []) maxSizeMB maxBackups maxAgeDays compress)
    (mkArchiveConfig (getString (lit "ARCHIVE_TEMP_DIR") []) maxSizeBytes expiry workers queueSize
       cleanupInterval fileConcurrency)
    (mkStorageConfig requestTimeout) in
  match validate cfg with
  | Some err => inl err
  | None => inr cfg
  end.
End load.

(** [godotenv.Load] sets the variables of the file that the process does not
    have yet. *)
Definition Load {UT : UnicodeTables} {URL : UrlLib} (dotenv : error + gmap str str) (environ : gmap str str)
    : error + Config :=
  match dotenv with
  | inl err => if IsNotExist err then load_environ environ else inl (Errorf_w (lit "load .env: ") err [])
  | inr file => load_environ (environ ∪ file)
  end.

(** ** What [Load] accepts *)

Section accepts.
Context {UT : UnicodeTables} {URL : UrlLib}.
Implicit Types environ : gmap str str.

Definition int_keys : list str :=
  map lit ["SERVER_PORT"; "DATABASE_MAX_CONNS"; "DATABASE_MIN_CONNS"; "LOG_MAX_SIZE_MB"; "LOG_MAX_BACKUPS";
           "LOG_MAX_AGE_DAYS"; "ARCHIVE_FILE_CONCURRENCY"]%string.
Definition positive_keys : list str :=
  map lit ["ARCHIVE_MAX_SIZE_BYTES"; "ARCHIVE_WORKERS"; "ARCHIVE_QUEUE_SIZE"]%string.
Definition duration_keys : list str :=
  map lit ["SERVER_READ_TIMEOUT"; "SERVER_WRITE_TIMEOUT"; "SERVER_IDLE_TIMEOUT"; "SERVER_SHUTDOWN_TIMEOUT";
           "DATABASE_MAX_CONN_LIFETIME"; "DATABASE_MAX_CONN_IDLE_TIME"; "ARCHIVE_EXPIRY";
           "ARCHIVE_CLEANUP_INTERVAL"; "STORAGE_REQUEST_TIMEOUT"]%string.
Definition required_keys : list str := map lit ["DATABASE_URL"; "SELF_API_TOKEN"; "ARCHIVE_TEMP_DIR"]%string.

(** The variable, when set, has a value in [P]. *)
Definition var_ok environ (P : str → Prop) (key : str) : Prop :=
  ∀ v, lookup_env environ key = Some v → P v.

Definition int_text (v : str) : Prop := ∃ n, ParseInt v = inr n.
Definition positive_text (v : str) : Prop := ∃ n, ParseInt v = inr n ∧ 0 < n.
Definition duration_text (v : str) : Prop := ∃ d, ParseDuration v = inr d.
Definition bool_text (v : str) : Prop := ∃ b, ParseBool v = Some b.

(** The environments [Load] is meant to accept. *)
Record acceptable environ : Prop := {
  acc_ints : Forall (var_ok environ int_text) int_keys;
  acc_positives : Forall (var_ok environ positive_text) positive_keys;
  acc_durations : Forall (var_ok environ duration_text) duration_keys;
  acc_bool : var_ok environ bool_text (lit "LOG_COMPRESS");
  acc_required : Forall (λ k, is_Some (lookup_env environ k)) required_keys;
  acc_base_url : let u := TrimRightByte (getString environ (lit "SERVER_PUBLIC_BASE_URL") []) slash in
                 u = [] ∨ base_url_ok u = true;
  acc_log_file : getString environ (lit "LOG_OUTPUT") (lit "stdout") = LogOutputFile →
                 is_Some (lookup_env environ (lit "LOG_FILE"))
}.

Lemma lookup_env_nonempty environ key v : lookup_env environ key = Some v → v ≠ [].
Proof. unfold lookup_env. intros H. by cases_in H. Qed.

Lemma getString_set environ key : getString environ key [] ≠ [] ↔ is_Some (lookup_env environ key).
Proof.
  unfold getString. split.
  - by destruct (lookup_env environ key).
  - intros [v Hv]. rewrite Hv. cbn. by eapply lookup_env_nonempty.
Qed.

(** Each getter succeeds exactly on a well-formed variable. *)
Ltac solve_getter :=
  split; [intros (? & ?); intros; destruct_and?; simplify_eq; eauto
         |intros Hv; first [destruct (Hv _ eq_refl) as (? & ?)|idtac]; destruct_and?;
          repeat match goal with H1 : ?a = _, H2 : ?a = _ |- _ => rewrite H1 in H2 end; simplify_eq; eauto].

Lemma getInt_ok environ key def : (∃ n, getInt environ key def = inr n) ↔ var_ok environ int_text key.
Proof.
  unfold getInt, var_ok, int_text. destruct (lookup_env environ key) as [v|]; [|solve_getter].
  destruct (ParseInt v) eqn:E; solve_getter.
Qed.

Lemma getInt64_getInt environ key def n : getInt64 environ key def = inr n ↔ getInt environ key def = inr n.
Proof. unfold getInt64, getInt. destruct (lookup_env _ _); [|done]. by destruct (ParseInt _). Qed.

Lemma getInt_positive environ key def : 0 < def →
  (∃ n, getInt environ key def = inr n ∧ 0 < n) ↔ var_ok environ positive_text key.
Proof.
  intros Hd. unfold getInt, var_ok, positive_text. destruct (lookup_env environ key) as [v|]; [|solve_getter].
  destruct (ParseInt v) eqn:E; solve_getter.
Qed.

Lemma getDuration_ok environ key def : (∃ d, getDuration environ key def = inr d) ↔ var_ok environ duration_text key.
Proof.
  unfold getDuration, var_ok, duration_text. destruct (lookup_env environ key) as [v|]; [|solve_getter].
  destruct (ParseDuration v) eqn:E; solve_getter.
Qed.

Lemma getBool_ok environ key def : (∃ b, getBool environ key def = inr b) ↔ var_ok environ bool_text key.
Proof.
  unfold getBool, var_ok, bool_text. destruct (lookup_env environ key) as [v|]; [|solve_getter].
  destruct (ParseBool v) eqn:E; solve_getter.
Qed.

Lemma getInt_positive_text environ key def n :
  getInt environ key def = inr n → 0 < n → var_ok environ positive_text key.
Proof.
  unfold getInt, var_ok, positive_text. intros H Hn v Hv. rewrite Hv in H.
  destruct (ParseInt v); [done|]. simplify_eq. eauto.
Qed.

Lemma getInt_range environ key def n : in_int64 def → getInt environ key def = inr n → in_int64 n.
Proof.
  intros Hd. unfold getInt. destruct (lookup_env environ key) as [v|]; [|intros; by simplify_eq].
  destruct (ParseInt v) eqn:E; [done|]. intros. simplify_eq. by eapply ParseInt_range.
Qed.

(** What [validate] lets through. *)
Definition valid (c : Config) : Prop :=
  dc_URL (c_Database c) ≠ [] ∧ sv_SelfAPIToken (c_Server c) ≠ [] ∧ ac_TempDir (c_Archive c) ≠ [] ∧
  0 < ac_MaxSizeBytes (c_Archive c) ∧ 0 < ac_Workers (c_Archive c) ∧ 0 < ac_QueueSize (c_Archive c) ∧
  (sv_PublicBaseURL (c_Server c) = [] ∨ base_url_ok (sv_PublicBaseURL (c_Server c)) = true) ∧
  (lc_Output (c_Log c) = LogOutputFile → lc_File (c_Log c) ≠ []).

Lemma validate_valid c : validate c = None ↔ valid c.
Proof.
  unfold validate, valid. split.
  - intros H. repeat match type of H with (if ?b then _ else _) = _ => destruct b eqn:?; [done|] end.
    breflect. split_and!; try done; try lia; [destruct_or!; breflect; auto|].
    intros ?. destruct_or!; breflect; done.
  - intros (?&?&?&?&?&?&Hu&Hl). repeat case_bool_decide; cbn [negb andb]; try done;
      repeat match goal with |- context [?a <=? 0] => destruct (Z.leb_spec a 0); [lia|] end; try done.
    all: try (exfalso; by apply Hl).
    all: destruct Hu as [?|Hu]; [done|rewrite Hu]; try done; exfalso; by apply Hl.
Qed.

(** The environment is acceptable exactly when it loads. *)
Lemma load_environ_ok environ : (∃ c, load_environ environ = inr c) → acceptable environ.
Proof.
  intros [c H]. unfold load_environ in H.
  repeat match type of H with (match ?g with inl _ => _ | inr _ => _ end) = _ => destruct g eqn:?; [done|] end.
  cbn zeta in H. match type of H with (match validate ?k with _ => _ end) = _ =>
    destruct (validate k) eqn:Hv; [done|] end.
  apply validate_valid in Hv as (Hdb & Htok & Hdir & Hmax & Hwork & Hq & Hurl & Hfile). cbn in *.
  split.
  - repeat apply Forall_cons_2; try apply Forall_nil_2; eapply getInt_ok; eauto.
  - repeat apply Forall_cons_2; try apply Forall_nil_2; 
      (eapply getInt_positive_text; [first [eassumption|eapply getInt64_getInt; eassumption]|done]).
  - repeat apply Forall_cons_2; try apply Forall_nil_2; eapply getDuration_ok; eauto.
  - eapply getBool_ok; eauto.
  - repeat apply Forall_cons_2; try apply Forall_nil_2; by apply getString_set.
  - exact Hurl.
  - intros Ho. apply getString_set. by apply Hfile.
Qed.

Ltac in_keys H := eapply (proj1 (Forall_forall _ _) H), (bool_decide_unpack _); by vm_compute.

Lemma acceptable_load environ : acceptable environ → ∃ c, load_environ environ = inr c.
Proof.
  intros [Hi Hp Hd Hb Hr Hu Hl]. unfold load_environ.
  assert (∀ key def, key ∈ positive_keys → 0 < def → ∃ n, getInt environ key def = inr n ∧ 0 < n) as HP.
  { intros key def Hk Hdef. apply getInt_positive; [done|]. by apply (proj1 (Forall_forall _ _) Hp). }
  repeat match goal with
  | |- ∃ c, match ?g with inl _ => _ | inr _ => _ end = inr c =>
      let H := fresh in let n := fresh "n" in let Hn := fresh "Hn" in
      first
        [ assert (∃ n, g = inr n) as [n H];
          [first [eapply getInt_ok; in_keys Hi|eapply getDuration_ok; in_keys Hd|eapply getBool_ok; exact Hb]|]
        | assert (∃ n, g = inr n ∧ 0 < n) as (n & H & Hn);
          [setoid_rewrite getInt64_getInt || idtac;
           apply HP; [apply (bool_decide_unpack _); by vm_compute|by vm_compute]|] ];
      rewrite H; clear H
  end.
  cbn zeta. match goal with |- context [validate ?k] => assert (validate k = None) as -> end; [|by eexists].
  apply validate_valid. unfold valid. cbn.
  apply Forall_cons in Hr as [? Hr]. apply Forall_cons in Hr as [? Hr]. apply Forall_cons in Hr as [? _].
  split_and!; try done; try (by apply getString_set). intros Ho. by apply getString_set, Hl.
Qed.
End accepts.

(** ** Loading *)


Section loading.
Context {UT : UnicodeTables} {URL : UrlLib}.

(** The variables in effect once the .env file has been read, if it can be. *)
Definition effective (dotenv : error + gmap str str) (environ : gmap str str) : option (gmap str str) :=
  match dotenv with
  | inl err => if IsNotExist err then Some environ else None
  | inr file => Some (environ ∪ file)
  end.

Lemma Load_effective dotenv environ c : Load dotenv environ = inr c ↔
  ∃ vars, effective dotenv environ = Some vars ∧ load_environ vars = inr c.
Proof.
  unfold Load, effective. destruct dotenv as [e|file]; [destruct (IsNotExist e)|]; split; naive_solver.
Qed.

(** What [Load] returns has passed [validate]. *)
Lemma Load_validated dotenv environ c : Load dotenv environ = inr c → valid c.
Proof.
  intros (vars & _ & H)%Load_effective. unfold load_environ in H.
  repeat match type of H with (match ?g with inl _ => _ | inr _ => _ end) = _ => destruct g eqn:?; [done|] end.
  cbn zeta in H. match type of H with (match validate ?k with _ => _ end) = _ =>
    destruct (validate k) eqn:Hv; [done|] end. simplify_eq. by apply validate_valid.
Qed.

(** C34: [Load] accepts exactly the environments it is meant to: the .env file
    is readable or absent, and, a variable of the process winning over the
    file and an empty one counting as unset, the database URL, the API token
    and the archive directory are set, every number, duration and boolean
    that is set parses, the size limit, worker count and queue size are
    positive, the public base URL is absent or an absolute http(s) URL, and
    a log file is named when logs go to a file. *)
Theorem Load_iff dotenv environ :
  (∃ c, Load dotenv environ = inr c) ↔ ∃ vars, effective dotenv environ = Some vars ∧ acceptable vars.
Proof.
  split.
  - intros [c (vars & He & Hl)%Load_effective]. exists vars. split; [done|]. apply load_environ_ok. by eexists.
  - intros (vars & He & [c Hc]%acceptable_load). exists c. apply Load_effective. by exists vars.
Qed.

Lemma TrimRightByte_last s c : last (TrimRightByte s c) ≠ Some c.
Proof.
  unfold TrimRightByte. rewrite (rev_alt (drop_while _ _)). fold (reverse (drop_while (λ x, bool_decide (x = c)) (rev s))).
  rewrite last_reverse.
  induction (rev s) as [|x l IH]; [done|]. cbn. case_bool_decide; [done|]. cbn. congruence.
Qed.

(** C35: a configuration [Load] returns meets what the rest of the program
    relies on: the API token and the archive directory are not empty, the
    size limit is a positive [int64], there is at least one worker and one
    place in the queue, and the base URL of the links ends in no slash. *)
Theorem Load_sound dotenv environ c :
  Load dotenv environ = inr c →
  sv_SelfAPIToken (c_Server c) ≠ [] ∧ dc_URL (c_Database c) ≠ [] ∧ ac_TempDir (c_Archive c) ≠ [] ∧
  0 < ac_MaxSizeBytes (c_Archive c) <= max_int64 ∧ 0 < ac_Workers (c_Archive c) ∧
  0 < ac_QueueSize (c_Archive c) ∧ last (sv_PublicBaseURL (c_Server c)) ≠ Some slash.
Proof.
  intros (vars & _ & H)%Load_effective. unfold load_environ in H.
  repeat match type of H with (match ?g with inl _ => _ | inr _ => _ end) = _ => destruct g eqn:?; [done|] end.
  cbn zeta in H. match type of H with (match validate ?k with _ => _ end) = _ =>
    destruct (validate k) eqn:Hv; [done|] end.
  apply validate_valid in Hv as (Hdb & Htok & Hdir & Hmax & Hwork & Hq & _). simplify_eq. cbn in *.
  split_and!; try done; [|apply TrimRightByte_last].
  match goal with E : getInt64 _ _ _ = inr ?z |- ?z <= _ => apply getInt64_getInt, getInt_range in E end;
    [|by vm_compute]. unfold in_int64 in *. lia.
Qed.

(** The Go types of the numbers. *)
Definition in_int32 (z : Z) : Prop := - 2 ^ 31 <= z < 2 ^ 31.

Lemma int32_range z : in_int32 (int32 z).
Proof. unfold in_int32, int32. pose proof (Z.mod_pos_bound (z + 2 ^ 31) (2 ^ 32) ltac:(done)). lia. Qed.

Lemma getDuration_range environ key def d : in_int64 def → getDuration environ key def = inr d → in_int64 d.
Proof.
  intros Hd. unfold getDuration. destruct (lookup_env environ key) as [v|]; [|intros; by simplify_eq].
  destruct (ParseDuration v) eqn:E; [done|]. intros. simplify_eq. by eapply ParseDuration_range.
Qed.

Record config_typed (c : Config) : Prop := {
  typed_server : Forall in_int64 [sv_Port (c_Server c); sv_ReadTimeout (c_Server c); sv_WriteTimeout (c_Server c);
    sv_IdleTimeout (c_Server c); sv_ShutdownTimeout (c_Server c)];
  typed_database : in_int32 (dc_MaxConns (c_Database c)) ∧ in_int32 (dc_MinConns (c_Database c)) ∧
    Forall in_int64 [dc_MaxConnLifetime (c_Database c); dc_MaxConnIdleTime (c_Database c)];
  typed_log : Forall in_int64 [lc_MaxSizeMB (c_Log c); lc_MaxBackups (c_Log c); lc_MaxAgeDays (c_Log c)];
  typed_archive : Forall in_int64 [ac_MaxSizeBytes (c_Archive c); ac_Expiry (c_Archive c); ac_Workers (c_Archive c);
    ac_QueueSize (c_Archive c); ac_CleanupInterval (c_Archive c); ac_FileConcurrency (c_Archive c)];
  typed_storage : in_int64 (stc_RequestTimeout (c_Storage c))
}.

(** Every number of a configuration [Load] returns is a value of its Go
    type, whatever the variables say: durations, counts and sizes are 64-bit
    signed integers and the connection limits 32-bit ones. *)
Lemma Load_typed dotenv environ c : Load dotenv environ = inr c → config_typed c.
Proof.
  intros (vars & _ & H)%Load_effective. unfold load_environ in H.
  repeat match type of H with (match ?g with inl _ => _ | inr _ => _ end) = _ => destruct g eqn:?; [done|] end.
  cbn zeta in H. match type of H with (match ?v with _ => _ end) = _ => destruct v; [done|] end. simplify_eq.
  repeat match goal with
  | E : getInt64 _ _ _ = inr _ |- _ => apply getInt64_getInt in E
  | E : getInt _ _ _ = inr _ |- _ => apply getInt_range in E; [|by vm_compute]
  | E : getDuration _ _ _ = inr _ |- _ => apply getDuration_range in E; [|by vm_compute]
  end.
  split; cbn -[in_int64]; [| split_and!; [apply int32_range|apply int32_range|] | | |done];
    by repeat (apply Forall_cons_2; [done|]); apply Forall_nil_2.
Qed.
End loading.

(** ** Concrete environments *)

Definition no_urls : UrlLib := {| url_Parse := λ _, inl (ErrorString (lit "unparsable")) |}.
Definition no_dotenv : error + gmap str str := inl (OsError true (lit "open .env: no such file or directory")).

(** The three required variables. *)
Definition minimal_environ : gmap str str :=
  {[ lit "DATABASE_URL" := lit "postgres://db"; lit "SELF_API_TOKEN" := lit "s3cret";
     lit "ARCHIVE_TEMP_DIR" := lit "/data" ]}.

Abbreviation sample_Load := (@Load sample_tables no_urls no_dotenv).

(** The documented defaults. *)
Definition default_config : Config :=
  mkConfig (mkAppConfig (lit "development"))
    (mkServerConfig (lit "0.0.0.0") 8080 (15 * Second) (15 * Second) (60 * Second) (30 * Second) [] (lit "s3cret"))
    (mkDatabaseConfig (lit "postgres://db") 20 5 (30 * Minute) (5 * Minute))
    (mkLogConfig (lit "info") (lit "stdout") [] 100 10 30 true)
    (mkArchiveConfig (lit "/data") 4294967296 Hour 4 100 (10 * Minute) 4)
    (mkStorageConfig (30 * Second)).

Lemma Load_minimal : sample_Load minimal_environ = inr default_config.
Proof. by vm_compute. Qed.

Lemma Load_sound_witness :
  ac_TempDir (c_Archive default_config) ≠ [] ∧ sv_SelfAPIToken (c_Server default_config) ≠ [].
Proof.
  destruct (@Load_sound sample_tables no_urls no_dotenv minimal_environ default_config) as (H1 & _ & H2 & _);
    [by vm_compute|]. split; [exact H2|exact H1].
Defined.

Lemma Load_typed_witness : in_int32 (dc_MaxConns (c_Database default_config)).
Proof.
  apply (@Load_typed sample_tables no_urls no_dotenv minimal_environ default_config). by vm_compute.
Defined.

(** Nothing rejects a cleanup interval that [time.NewTicker] panics on. *)
Lemma Load_accepts_zero_interval :
  (λ c, ac_CleanupInterval (c_Archive c)) <$>
    (match sample_Load (<[lit "ARCHIVE_CLEANUP_INTERVAL" := lit "0s"]> minimal_environ) with
     | inl _ => None | inr c => Some c end) = Some 0.
Proof. by vm_compute. Qed.

(** A connection limit of 2^32 is truncated to 0. *)
Lemma Load_truncates_conns :
  (λ c, dc_MaxConns (c_Database c)) <$>
    (match sample_Load (<[lit "DATABASE_MAX_CONNS" := lit "4294967296"]> minimal_environ) with
     | inl _ => None | inr c => Some c end) = Some 0.
Proof. by vm_compute. Qed.
