(* ===== verification/Logger.v ===== *)
(** * The logger (internal/logger/logger.go)

    [New] chooses a level, a destination and what to close at shutdown.  The
    packages [log/slog] and [lumberjack] do the writing. *)

From S2P Require Import Prelude GoString GoError Config.

(** [slog.Level]. *)
Definition LevelDebug : Z := -4.
Definition LevelInfo : Z := 0.
Definition LevelWarn : Z := 4.
Definition LevelError : Z := 8.

(** [lumberjack.Logger]. *)
Record lumberjack := mkLumberjack {
  lj_Filename : str;
  lj_MaxSize : Z;
  lj_MaxBackups : Z;
  lj_MaxAge : Z;
  lj_Compress : bool
}.

Inductive log_writer := Stdout | Stderr | RotatedFile (lj : lumberjack).

(** The [io.Closer] returned with the logger. *)
Inductive log_closer := nopCloser | CloseFile (lj : lumberjack).

(** [slog.New] of a JSON handler. *)
Record slog_logger := mkLogger { lg_writer : log_writer; lg_level : Z }.

Section logger.
Context {UT : UnicodeTables}.

Definition parseLevel (level : str) : error + Z :=
  if bool_decide (level ∈ [lit "debug"; lit "DEBUG"]) then inr LevelDebug
  else if bool_decide (level ∈ [lit "info"; lit "INFO"; []]) then inr LevelInfo
  else if bool_decide (level ∈ [lit "warn"; lit "WARN"; lit "warning"; lit "WARNING"]) then inr LevelWarn
  else if bool_decide (level ∈ [lit "error"; lit "ERROR"]) then inr LevelError
  else inl (ErrorString (lit "invalid LOG_LEVEL " ++ Quote level)).

Definition logger_New (cfg : LogConfig) : error + (slog_logger * log_closer) :=
  match parseLevel (lc_Level cfg) with
  | inl err => inl err
  | inr level =>
      if bool_decide (lc_Output cfg ∈ [LogOutputStdout; []]) then inr (mkLogger Stdout level, nopCloser)
      else if bool_decide (lc_Output cfg = LogOutputStderr) then inr (mkLogger Stderr level, nopCloser)
      else if bool_decide (lc_Output cfg = LogOutputFile) then
        let lj := mkLumberjack (lc_File cfg) (lc_MaxSizeMB cfg) (lc_MaxBackups cfg) (lc_MaxAgeDays cfg)
                    (lc_Compress cfg) in
        inr (mkLogger (RotatedFile lj) level, CloseFile lj)
      else inl (ErrorString (lit "unknown LOG_OUTPUT " ++ Quote (lc_Output cfg)))
  end.

(** The level names [parseLevel] knows. *)
Definition level_names : list (str * Z) :=
  [(lit "debug", LevelDebug); (lit "DEBUG", LevelDebug); (lit "info", LevelInfo); (lit "INFO", LevelInfo);
   ([], LevelInfo); (lit "warn", LevelWarn); (lit "WARN", LevelWarn); (lit "warning", LevelWarn);
   (lit "WARNING", LevelWarn); (lit "error", LevelError); (lit "ERROR", LevelError)].

Lemma parseLevel_spec level n : parseLevel level = inr n ↔ (level, n) ∈ level_names.
Proof.
  unfold parseLevel. split.
  - assert (∀ (l : list str) m, (∀ s, s ∈ l → (s, m) ∈ level_names) → level ∈ l → inr m = @inr error Z n → (level, n) ∈ level_names)
      as Hin by (intros l m Hl Hlevel [= <-]; auto).
    do 4 (case_bool_decide as E; [intros H; eapply Hin; [|exact E|exact H];
      apply Forall_forall, (bool_decide_unpack _); by vm_compute|clear E]). done.
  - intros H. unfold level_names in H. rewrite !elem_of_cons, elem_of_nil in H.
    repeat destruct H as [H|H]; simplify_eq; try done; by vm_compute.
Qed.

(** The writer that is closed is the one written to. *)
Lemma logger_New_closes cfg lg c lj :
  logger_New cfg = inr (lg, c) → c = CloseFile lj ↔ lg_writer lg = RotatedFile lj.
Proof. unfold logger_New. intros H. repeat case_match; simplify_eq; naive_solver. Qed.
End logger.
