(* ===== verification/Sanitize.v ===== *)
(** * Archive entry names ([sanitizeArchivePath], internal/archive/zip.go)

    The guard between database-supplied paths and archive entries.
    [sanitize_iff] is its functional specification, by segments;
    [sanitize_safe] is what extraction relies on. *)

From S2P Require Import Prelude GoString GoPath GoError.

Section sanitize.
Context {UT : UnicodeTables}.

Definition invalid_path (p why : str) : error :=
  ErrorString (lit "invalid archive path " ++ Quote p ++ lit ": " ++ why).

(** The final loop: the first segment that is "", "." or "..". *)
Fixpoint bad_segment (segs : list str) : option str :=
  match segs with
  | [] => None
  | s :: segs' =>
      if bool_decide (s = []) || bool_decide (s = [dot]) || bool_decide (s = dotdots)
      then Some s else bad_segment segs'
  end.

(** [len(s) >= 2 && s[1] == ':']. *)
Definition drive_letter (s : str) : bool :=
  (2 <=? length s) && bool_decide (s !! 1 = Some colon).

Definition sanitizeArchivePath (p : str) : error + str :=
  if bool_decide (p = []) then inl (ErrorString (lit "empty archive path")) else
  let normalized := ReplaceByte p backslash slash in
  if ContainsByte normalized nul then inl (invalid_path p (lit "contains null byte")) else
  if drive_letter normalized then inl (invalid_path p (lit "contains drive letter")) else
  let cleaned := TrimPrefix (Clean normalized) [slash] in
  if bool_decide (cleaned = [dot]) || bool_decide (cleaned = dotdots)
     || HasPrefix cleaned (dotdots ++ [slash]) || HasPrefix normalized [slash]
  then inl (invalid_path p (lit "escapes archive root")) else
  match bad_segment (Split cleaned slash) with
  | Some segment => inl (invalid_path p (lit "invalid segment " ++ Quote segment))
  | None => inr cleaned
  end.

(** ** Specification *)

(** A relative, forward-slash path of real segments: nothing in it can make
    an extractor leave the extraction directory. *)
Definition safe_entry_path (q : str) : Prop :=
  q ≠ [] ∧ HasPrefix q [slash] = false ∧ nul ∉ q ∧ backslash ∉ q ∧
  Forall real_segment (Split q slash).

Lemma bad_segment_None segs :
  Forall (λ w, slash ∉ w) segs → bad_segment segs = None ↔ Forall real_segment segs.
Proof.
  induction 1 as [|s segs Hs Hf IH]; cbn; [done|].
  rewrite Forall_cons. repeat case_bool_decide; cbn; unfold real_segment; try naive_solver.
Qed.

Lemma Join_real_prefix st :
  st ≠ [] → Forall real_segment st → HasPrefix (Join st slash) [slash] = false.
Proof.
  intros Hne Hr. destruct st as [|s st]; [done|]. inv Hr.
  match goal with X : real_segment s |- _ => destruct X as (Hn & _ & _ & Hs) end.
  destruct s as [|c s]; [done|]. apply not_elem_of_cons in Hs as [Hc _].
  apply not_true_iff_false. intros [k Hk]%HasPrefix_spec.
  destruct st; simplify_eq/=.
Qed.

(** What [Clean] leaves of a relative path, seen through the escape check. *)
Lemma escape_check k st :
  wf_state (k, st) →
  let cleaned := TrimPrefix (match render (k, st) with [] => [dot] | q => q end) [slash] in
  bool_decide (cleaned = [dot]) || bool_decide (cleaned = dotdots)
    || HasPrefix cleaned (dotdots ++ [slash]) = false →
  k = 0 ∧ st ≠ [] ∧ cleaned = Join st slash.
Proof.
  intros Hwf. destruct (decide ((k, st) = (0, []))) as [[= -> ->]|Hne]; [done|].
  destruct (render (k, st)) as [|c q] eqn:E.
  { by apply render_empty in E. }
  destruct k as [|k].
  - assert (st ≠ []) as Hst by (by intros ->). cbn zeta. rewrite <- E.
    unfold render. cbn [fst snd replicate app]. unfold TrimPrefix.
    rewrite Join_real_prefix by done. done.
  - unfold render in E. cbn [fst snd replicate app] in E.
    destruct (replicate k dotdots ++ st) as [|w ws] eqn:E2.
    + cbn zeta. rewrite <- E. intros H. by vm_compute in H.
    + rewrite Join_cons in E by done. cbn zeta. rewrite <- E.
      change (TrimPrefix (dotdots ++ slash :: Join (w :: ws) slash) [slash])
        with (dotdots ++ slash :: Join (w :: ws) slash).
      rewrite (cons_middle slash), app_assoc, HasPrefix_app, orb_true_r. done.
Qed.

Lemma drive_letter_spec s : drive_letter s = true ↔ s !! 1 = Some colon.
Proof.
  unfold drive_letter. split; intros H; breflect; [done|].
  rewrite bool_decide_true by done. apply lookup_lt_Some in H.
  by rewrite (proj2 (Nat.leb_le _ _)).
Qed.

Lemma resolve_real st : Forall real_segment st → resolve st = (0, st).
Proof.
  intros Hr. unfold resolve. change st with ([] ++ st) at 2.
  generalize (@nil str) as acc. induction Hr as [|s st Hs Hr IH]; intros acc; cbn [foldl].
  - by rewrite app_nil_r.
  - destruct Hs as (? & ? & ? & ?). unfold push_segment at 2.
    rewrite !bool_decide_false by done. cbn [orb]. rewrite IH. by rewrite <- app_assoc.
Qed.

Lemma Join_real_not_dots st :
  Forall real_segment st →
  Join st slash ≠ [dot] ∧ Join st slash ≠ dotdots ∧ HasPrefix (Join st slash) (dotdots ++ [slash]) = false.
Proof.
  intros Hr. destruct (decide (st = [])) as [->|Hne]; [by vm_compute|].
  pose proof (Split_Join st slash Hne) as Hsj.
  assert (Forall (λ w, slash ∉ w) st) as Hs
    by (eapply Forall_impl; [exact Hr|by intros ? (_ & _ & _ & ?)]).
  specialize (Hsj Hs).
  assert (∀ w ws, st = w :: ws → w ≠ [dot] ∧ w ≠ dotdots) as Hh.
  { intros w ws ->. inv Hr. by match goal with X : real_segment w |- _ => destruct X as (_ & ? & ? & _) end. }
  split_and!.
  - intros E. rewrite E in Hsj. by destruct (Hh [dot] [] (eq_sym Hsj)).
  - intros E. rewrite E in Hsj. by destruct (Hh dotdots [] (eq_sym Hsj)).
  - apply not_true_iff_false. intros [k Hk]%HasPrefix_spec. rewrite Hk in Hsj.
    rewrite <- app_assoc in Hsj. cbn [app] in Hsj.
    by destruct (Hh dotdots (Split k slash) (eq_sym Hsj)).
Qed.

(** The guards of [sanitizeArchivePath] and the resolution of the segments,
    in both directions. *)
Lemma sanitize_char p q :
  sanitizeArchivePath p = inr q ↔
  p ≠ [] ∧ nul ∉ ReplaceByte p backslash slash ∧
  drive_letter (ReplaceByte p backslash slash) = false ∧
  HasPrefix (ReplaceByte p backslash slash) [slash] = false ∧
  ∃ st, resolve (Split (ReplaceByte p backslash slash) slash) = (0, st) ∧ st ≠ [] ∧
        q = Join st slash.
Proof.
  unfold sanitizeArchivePath. set (n := ReplaceByte p backslash slash).
  pose proof (resolve_wf _ (Split_notin n slash)) as Hwf.
  case_bool_decide as Hp; [naive_solver|]. cbn zeta.
  destruct (ContainsByte n nul) eqn:Hn.
  { apply ContainsByte_spec in Hn. naive_solver. }
  assert (nul ∉ n) as Hn' by (by rewrite <- ContainsByte_spec, Hn).
  destruct (drive_letter n) eqn:Hd; [naive_solver|].
  destruct (HasPrefix n [slash]) eqn:Hs; [rewrite orb_true_r; naive_solver|].
  rewrite orb_false_r, Clean_relative by done.
  destruct (resolve (Split n slash)) as [k st] eqn:Hr. cbn in Hwf.
  destruct (_ || _ || _) eqn:Hesc.
  - split; [done|]. intros (_ & _ & _ & _ & st' & [= -> ->] & Hne & ->).
    exfalso. destruct (Join_real_not_dots st' Hwf) as (H1 & H2 & H3).
    unfold render in Hesc. cbn [fst snd replicate app] in Hesc.
    destruct (Join st' slash) as [|c r] eqn:Ej.
    { apply Join_nonempty in Ej; [done|]. by apply (wf_state_nonempty (0, st')). }
    rewrite <- Ej in *. unfold TrimPrefix in Hesc. rewrite Join_real_prefix in Hesc by done.
    by rewrite !bool_decide_false, H3 in Hesc by done.
  - apply escape_check in Hesc as (-> & Hne & ->); [|done].
    assert (Forall (λ w, slash ∉ w) st) as Hsl
      by (eapply Forall_impl; [exact Hwf|by intros ? (_ & _ & _ & ?)]).
    rewrite Split_Join by done. rewrite (proj2 (bad_segment_None st Hsl)) by done.
    naive_solver.
Qed.

Lemma sanitize_accepts p q :
  sanitizeArchivePath p = inr q ↔
  p ≠ [] ∧ nul ∉ p ∧ p !! 1 ≠ Some colon ∧
  HasPrefix (ReplaceByte p backslash slash) [slash] = false ∧
  ∃ st, resolve (Split (ReplaceByte p backslash slash) slash) = (0, st) ∧ st ≠ [] ∧
        q = Join st slash.
Proof.
  rewrite sanitize_char. rewrite <- (not_true_iff_false (drive_letter _)), drive_letter_spec.
  unfold ReplaceByte at 2. rewrite list_lookup_fmap, elem_of_ReplaceByte.
  assert ((λ c, if bool_decide (c = backslash) then slash else c) <$> p !! 1 = Some colon
          ↔ p !! 1 = Some colon) as ->.
  { destruct (p !! 1) as [c|]; cbn; [|done].
    case_bool_decide as Hc; [subst c; split; intros ?; discriminate|done]. }
  assert ((nul = slash ∧ backslash ∈ p) ∨ (nul ∈ p ∧ nul ≠ backslash) ↔ nul ∈ p) as ->; [|done].
  split; [intros [[[=] _]|[? _]]; done|]. intros. right. split; [done|discriminate].
Qed.

(** C20: [sanitizeArchivePath] accepts [p] exactly when [p] is non-empty, has
    no NUL byte, no colon as its second byte and no leading (forward or back)
    slash, and its segments resolve (dropping "" and ".", popping on "..")
    without climbing above the root to a non-empty list [st]; the cleaned
    path is then [st] joined with forward slashes.  The byte-level
    [path.Clean] is thereby proved equivalent to segment resolution. *)
Theorem sanitize_iff p q :
  sanitizeArchivePath p = inr q ↔
  p ≠ [] ∧ nul ∉ p ∧ p !! 1 ≠ Some colon ∧
  HasPrefix (ReplaceByte p backslash slash) [slash] = false ∧
  ∃ st, resolve (Split (ReplaceByte p backslash slash) slash) = (0, st) ∧ st ≠ [] ∧
        q = Join st slash.
Proof. apply sanitize_accepts. Qed.

Lemma sanitized_path_safe p q : sanitizeArchivePath p = inr q → safe_entry_path q.
Proof.
  rewrite sanitize_char. intros (Hp & Hn & _ & _ & st & Hr & Hne & ->).
  pose proof (resolve_wf _ (Split_notin (ReplaceByte p backslash slash) slash)) as Hwf.
  pose proof (resolve_bytes (Split (ReplaceByte p backslash slash) slash)) as Hb.
  rewrite Hr in Hwf, Hb. cbn in Hwf.
  assert (∀ c, c ∈ Join st slash → c = slash ∨ c ∈ ReplaceByte p backslash slash) as Hin.
  { intros c [->|(w & Hw & Hc)]%elem_of_Join; [by left|]. right.
    rewrite <- (Join_Split (ReplaceByte p backslash slash) slash).
    eapply elem_of_Join_segment; [|exact Hc]. by apply Hb. }
  split_and!.
  - intros E. apply Join_nonempty in E; [done|]. by apply (wf_state_nonempty (0, st)).
  - by apply Join_real_prefix.
  - intros [[=]|?]%Hin. done.
  - intros [[=]|Hx]%Hin. revert Hx. apply ReplaceByte_notin. discriminate.
  - rewrite Split_Join; [done|done|].
    eapply Forall_impl; [exact Hwf|by intros ? (_ & _ & _ & ?)].
Qed.

(** C11: every path [sanitizeArchivePath] returns is safe to use as an archive
    entry name: it is non-empty and relative, contains no NUL and no
    backslash, and none of its slash-separated segments is empty, "." or
    "..", whatever the database held. *)
Theorem sanitize_safe p q : sanitizeArchivePath p = inr q → safe_entry_path q.
Proof. apply sanitized_path_safe. Qed.

(** [sanitizeArchivePath] leaves an already sanitised path unchanged,
    unless its second byte is a colon: the drive-letter test is the only
    check that can still fire on a cleaned path. *)
Theorem sanitize_idempotent p q :
  sanitizeArchivePath p = inr q → drive_letter q = false → sanitizeArchivePath q = inr q.
Proof.
  intros Hs Hd. pose proof (sanitized_path_safe p q Hs) as (Hq & Hsl & Hnul & Hbs & Hreal).
  apply sanitize_char. rewrite (ReplaceByte_id q) by done. split_and!; try done.
  exists (Split q slash).
  split_and!; [by apply resolve_real|apply Split_not_nil|by rewrite Join_Split].
Qed.

(** The drive-letter test runs before the path is cleaned, so a leading
    "./" hides a drive letter from it: "./X:" is accepted and the entry is
    named "X:", for every byte X that is not a separator, a dot or NUL. *)
Theorem sanitize_drive_letter_bypass c :
  c ≠ slash → c ≠ backslash → c ≠ dot → c ≠ nul →
  sanitizeArchivePath ([dot; slash; c; colon]) = inr [c; colon].
Proof.
  intros Hs Hb Hd Hn. apply sanitize_char.
  rewrite ReplaceByte_id.
  2:{ rewrite !not_elem_of_cons. split_and!; try discriminate; [done|apply not_elem_of_nil]. }
  split_and!; try done.
  - rewrite !not_elem_of_cons. split_and!; try discriminate; [done|apply not_elem_of_nil].
  - exists [[c; colon]]. split_and!; [|done|done]. cbn [Split].
    rewrite (bool_decide_false (c = slash)) by done.
    assert (push_segment [c; colon] (0, []) = (0, [[c; colon]])) as E; [|exact E].
    unfold push_segment. rewrite !bool_decide_false; [done|..]; unfold dotdots; congruence.
Qed.
End sanitize.

Lemma sanitize_safe_witness :
  @sanitizeArchivePath sample_tables (lit "Docs\a/../b.txt") = inr (lit "Docs/b.txt") ∧
  safe_entry_path (lit "Docs/b.txt").
Proof.
  split; [by vm_compute|].
  apply (@sanitize_safe sample_tables (lit "Docs\a/../b.txt")). by vm_compute.
Defined.

Lemma sanitize_idempotent_witness :
  @sanitizeArchivePath sample_tables (lit "Docs/b.txt") = inr (lit "Docs/b.txt").
Proof.
  apply (@sanitize_idempotent sample_tables (lit "./Docs//b.txt")); by vm_compute.
Defined.

Lemma sanitize_drive_letter_bypass_witness :
  @sanitizeArchivePath sample_tables (lit "./C:") = inr (lit "C:").
Proof. apply (@sanitize_drive_letter_bypass sample_tables "C"%char); discriminate. Defined.
