(* ===== verification/Validate.v ===== *)
(** * Request validation and archive root names (internal/service/archive.go)

    [validateRootFolderID], [validateArchiveName], [validateExportType],
    [archiveRootDir] and [rebaseArchivePath]. *)

From S2P Require Import Prelude GoString GoPath GoError Model.

(** The third-party uuid package: parsing and the canonical text. *)
Class UuidLib := {
  uuid_t : Type;
  uuid_Parse : str → error + uuid_t;
  uuid_String : uuid_t → str
}.

Section validate.
Context {UT : UnicodeTables} {UL : UuidLib}.

Definition validation_error (msg : str) : error :=
  Errorf_w [] (Sentinel ErrValidation) (lit ": " ++ msg).

Definition validateRootFolderID (raw : str) : error + str :=
  if bool_decide (raw = []) then inl (validation_error (lit "root_folder_id is required"))
  else match uuid_Parse raw with
       | inl _ => inl (validation_error (lit "root_folder_id is not a valid UUID"))
       | inr id => inr (uuid_String id)
       end.

(** [archiveNamePattern], [^[^/\\\x00]{1,255}$]: between 1 and 255 runes,
    none of them a separator or NUL. *)
Definition archiveNamePattern (s : str) : bool :=
  let rs := runes s in
  (1 <=? length rs) && (length rs <=? 255) &&
  forallb (λ ru, negb ((ru.1 =? code slash) || (ru.1 =? code backslash) || (ru.1 =? code nul))%Z) rs.

Definition validateArchiveName (raw : str) : error + str :=
  let name := TrimSpace raw in
  if bool_decide (name = []) then inl (validation_error (lit "archive_name is required"))
  else if negb (archiveNamePattern name) then
    inl (validation_error
      (lit "archive_name must be 1-255 characters and contain no path separators"))
  else if bool_decide (name = [dot]) || bool_decide (name = dotdots) then
    inl (validation_error (lit "archive_name is invalid"))
  else inr name.

Definition validateExportType (raw : ExportType) : error + ExportType :=
  if bool_decide (raw = []) then inr ExportTypeZip
  else if bool_decide (raw = ExportTypeZip) || bool_decide (raw = ExportTypeTar) then inr raw
  else inl (validation_error
    (lit "export_type must be " ++ [dquote] ++ lit "zip" ++ [dquote] ++ lit " or "
     ++ [dquote] ++ lit "tar" ++ [dquote])).

(** The loop over [".zip"] and [".tar"] with its [break]. *)
Fixpoint strip_ext (name lower : str) (exts : list str) : str :=
  match exts with
  | [] => name
  | ext :: exts' =>
      if HasSuffix lower ext then TrimSpace (take (length name - length ext) name)
      else strip_ext name lower exts'
  end.

Definition archiveRootDir (archiveName : str) : str :=
  let name := TrimSpace archiveName in
  let name := strip_ext name (ToLower name) [lit ".zip"; lit ".tar"] in
  if bool_decide (name = [dot]) || bool_decide (name = dotdots) then [] else name.

Definition rebaseArchivePath (p root : str) : str :=
  if bool_decide (root = []) then p
  else match IndexByte p slash with
       | Some i => root ++ drop i p
       | None => root
       end.

(** ** Correctness *)

(** A name that can serve as one path segment. *)
Definition valid_name (name : str) : Prop :=
  1 ≤ RuneCount name ≤ 255 ∧ slash ∉ name ∧ backslash ∉ name ∧ nul ∉ name ∧
  name ≠ [dot] ∧ name ≠ dotdots.

Lemma runes_nil s : runes s = [] ↔ s = [].
Proof.
  split; [|by intros ->]. intros H. by rewrite <- (runes_concat s), H.
Qed.

Lemma archiveNamePattern_spec s :
  archiveNamePattern s = true ↔
  1 ≤ RuneCount s ≤ 255 ∧ slash ∉ s ∧ backslash ∉ s ∧ nul ∉ s.
Proof.
  unfold archiveNamePattern, RuneCount.
  rewrite !andb_true_iff, !Nat.leb_le, forallb_Forall, Forall_forall.
  rewrite !ascii_byte_rune by (by vm_compute). split.
  - intros [[Hlo Hhi] Hall]. split_and!; try done;
      intros [bs Hin]; apply Hall in Hin; cbn in Hin; by rewrite ?Z.eqb_refl, ?orb_true_r in Hin.
  - intros (Hlen & H1 & H2 & H3). split; [done|]. intros [r bs] Hin.
    apply negb_true_iff. cbn [fst]. rewrite !orb_false_iff, !Z.eqb_neq.
    split_and!; intros ->; naive_solver.
Qed.

Lemma validateArchiveName_accepts raw name :
  validateArchiveName raw = inr name ↔ name = TrimSpace raw ∧ valid_name name.
Proof.
  unfold validateArchiveName, valid_name. set (t := TrimSpace raw).
  pose proof (archiveNamePattern_spec t) as Hp.
  case_bool_decide as He.
  { split; [done|]. intros (-> & Hc & _). rewrite He in Hc. cbn in Hc. lia. }
  destruct (archiveNamePattern t) eqn:Ea; cbn [negb].
  2:{ split; [done|]. intros (-> & ? & ? & ? & ? & _). destruct Hp as [_ Hp].
      by discriminate Hp. }
  destruct Hp as [Hp _]. specialize (Hp eq_refl).
  repeat case_bool_decide; cbn [orb]; naive_solver.
Qed.

(** [validateArchiveName] accepts exactly the names whose trimmed form
    has 1 to 255 characters (runes), contains no slash, backslash or NUL byte
    and is neither "." nor ".."; it returns that trimmed form. *)
Theorem validateArchiveName_iff raw name :
  validateArchiveName raw = inr name ↔ name = TrimSpace raw ∧ valid_name name.
Proof. apply validateArchiveName_accepts. Qed.

(** The validation error class of the three validators. *)
Lemma validation_error_Is msg : Is (validation_error msg) ErrValidation = true.
Proof. done. Qed.

(** Every rejection by the three request validators is an
    [ErrValidation], so the handler answers it with 400 and never with
    another status. *)
Theorem validate_errors raw e :
  validateRootFolderID raw = inl e ∨ validateArchiveName raw = inl e ∨
  validateExportType raw = inl e →
  Is e ErrValidation = true.
Proof.
  unfold validateRootFolderID, validateArchiveName, validateExportType.
  intros [H|[H|H]]; repeat case_match; simplify_eq; apply validation_error_Is.
Qed.

Lemma validateExportType_ok raw t :
  validateExportType raw = inr t → t = ExportTypeZip ∨ t = ExportTypeTar.
Proof.
  unfold validateExportType. intros H. cases_in H; auto.
  match goal with X : _ ∨ _ |- _ => destruct X; breflect; subst; auto end.
Qed.

Lemma strip_ext_bytes name lower exts c : c ∈ strip_ext name lower exts → c ∈ name.
Proof.
  induction exts as [|ext exts IH]; cbn; [done|]. case_match; [|done].
  intros Hx%elem_of_TrimSpace. rewrite <- (take_drop (length name - length ext) name). set_solver.
Qed.

Lemma archiveRootDir_bytes name c : c ∈ archiveRootDir name → c ∈ name.
Proof.
  unfold archiveRootDir. case_match; [by intros ?%not_elem_of_nil|].
  by intros ?%strip_ext_bytes%elem_of_TrimSpace.
Qed.

Lemma archiveRootDir_real name :
  valid_name name → archiveRootDir name = [] ∨ real_segment (archiveRootDir name).
Proof.
  intros (_ & Hs & _). destruct (decide (archiveRootDir name = [])) as [|Hne]; [by left|right].
  split_and!; [done| | |by intros ?%archiveRootDir_bytes];
    unfold archiveRootDir in *; repeat case_bool_decide; cbn [orb] in *; naive_solver.
Qed.

(** [rebaseArchivePath] replaces the first segment and nothing else. *)
Lemma rebase_segments p root :
  root ≠ [] → slash ∉ root →
  Split (rebaseArchivePath p root) slash = root :: tail (Split p slash).
Proof.
  intros Hne Hs. unfold rebaseArchivePath. rewrite bool_decide_false by done.
  destruct (IndexByte p slash) as [i|] eqn:E.
  - apply IndexByte_Some in E as (a & b & -> & Ha & <-).
    rewrite drop_app_length, !Split_app by done. done.
  - apply IndexByte_None in E. by rewrite !Split_single.
Qed.

(** For a validated archive name, [archiveRootDir] yields either nothing
    or one real path segment, and rebasing a repository path on it replaces
    exactly the first segment (the root folder's own name) and keeps every
    other segment. *)
Theorem rebase_on_validated_name raw name p :
  validateArchiveName raw = inr name → archiveRootDir name ≠ [] →
  real_segment (archiveRootDir name) ∧
  Split (rebaseArchivePath p (archiveRootDir name)) slash =
    archiveRootDir name :: tail (Split p slash).
Proof.
  intros [_ Hv]%validateArchiveName_accepts Hne.
  destruct (archiveRootDir_real name Hv) as [|Hr]; [done|]. split; [done|].
  apply rebase_segments; [done|]. by destruct Hr as (_ & _ & _ & ?).
Qed.

(** ** Stripping the extension of an ASCII name *)

Definition ascii_lower (c : ascii) : ascii := chr (rune_ToLower (code c)).

Lemma rune_ToLower_range c :
  (code c < 0x80)%Z → (0 <= rune_ToLower (code c) < 0x80)%Z.
Proof.
  intros H. unfold rune_ToLower. pose proof (code_range c).
  destruct (Z.leb_spec (code c) 0x7F); [|lia].
  destruct (_ && _) eqn:E; breflect; lia.
Qed.

Lemma ToLower_ascii s : is_ascii s → ToLower s = ascii_lower <$> s.
Proof.
  intros Hs. unfold ToLower, MapRunes. rewrite runes_is_ascii by done.
  induction Hs as [|c s Hc Hs IH]; [done|]. cbn. rewrite <- IH.
  unfold EncodeRune. pose proof (rune_ToLower_range c Hc) as Hr.
  destruct (_ || _) eqn:E; breflect.
  - exfalso. repeat (match goal with X : _ ∨ _ |- _ => destruct X end; breflect); lia.
  - by rewrite (proj2 (Z.ltb_lt _ 0x80)) by lia.
Qed.

Lemma TrimSpace_id c d s :
  is_ascii (c :: s) → last (c :: s) = Some d →
  IsSpace (code c) = false → IsSpace (code d) = false → TrimSpace (c :: s) = c :: s.
Proof.
  intros Ha Hl Hc Hd. apply last_Some in Hl as [l' Hl].
  unfold TrimSpace. rewrite runes_is_ascii by done. set (f := λ x : ascii, (code x, [x])).
  assert (drop_while (λ ru, IsSpace ru.1) (f <$> (c :: s)) = f <$> (c :: s)) as ->.
  { cbn. by rewrite Hc. }
  rewrite Hl, fmap_app, rev_app_distr.
  assert (drop_while (λ ru, IsSpace ru.1) (rev (f <$> [d]) ++ rev (f <$> l')) =
          rev (f <$> [d]) ++ rev (f <$> l')) as ->.
  { cbn. by rewrite Hd. }
  rewrite <- rev_app_distr, rev_involutive, <- fmap_app. clear.
  induction (l' ++ [d]) as [|x l IH]; [done|]. cbn in *. by f_equal.
Qed.

Lemma TrimSpace_fixed_head c s :
  (code c < 0x80)%Z → TrimSpace (c :: s) = c :: s → IsSpace (code c) = false.
Proof.
  intros Hc H. destruct (IsSpace (code c)) eqn:E; [|done]. exfalso.
  unfold TrimSpace in H. rewrite runes_ascii in H by done. cbn [drop_while fst] in H.
  rewrite E in H. fold (TrimSpace s) in H.
  destruct (TrimSpace_infix s) as (a & b & Hi). apply (f_equal length) in Hi, H.
  rewrite !length_app in Hi. cbn in H. lia.
Qed.

(** The bytes of an extension that lowercases to ".zip" or ".tar". *)
Lemma ext_last ext :
  is_ascii ext → ToLower ext = lit ".zip" ∨ ToLower ext = lit ".tar" →
  length ext = 4 ∧ ∃ d, last ext = Some d ∧ IsSpace (code d) = false.
Proof.
  intros Ha Hext. rewrite ToLower_ascii in Hext by done.
  assert (length ext = 4) as Hlen.
  { destruct Hext as [H|H]; apply (f_equal length) in H; by rewrite length_fmap in H. }
  split; [done|]. destruct ext as [|a [|b [|c [|d [|]]]]]; try done. exists d. split; [done|].
  assert (code (ascii_lower d) = 112 ∨ code (ascii_lower d) = 114)%Z as Hd.
  { destruct Hext as [H|H]; injection H as _ _ _ ->; [by left|by right]. }
  unfold ascii_lower in Hd. inv Ha. rewrite !Forall_cons in *. destruct_and!.
  pose proof (code_range d). pose proof (rune_ToLower_range d ltac:(done)) as Hr.
  rewrite code_chr, Z.mod_small in Hd by lia. unfold rune_ToLower in Hd.
  unfold IsSpace. rewrite !orb_false_iff, !andb_false_iff, !Z.leb_gt, !Z.eqb_neq.
  destruct (code d <=? 0x7F)%Z eqn:E1; breflect; [|lia].
  destruct ((65 <=? code d) && (code d <=? 90))%Z eqn:E2; breflect; lia.
Qed.

(** For an ASCII archive name made of an already trimmed base and a
    ".zip" or ".tar" in any letter case, the archive's top-level directory is
    the base. *)
Theorem archiveRootDir_strips base ext :
  is_ascii base → is_ascii ext → base ≠ [] → base ≠ [dot] → base ≠ dotdots →
  TrimSpace base = base → ToLower ext = lit ".zip" ∨ ToLower ext = lit ".tar" →
  archiveRootDir (base ++ ext) = base.
Proof.
  intros Hb He Hne Hd Hdd Ht Hext. assert (is_ascii (base ++ ext)) as Ha by by apply Forall_app.
  assert (length ext = 4 ∧ ∃ d, last ext = Some d ∧ IsSpace (code d) = false) as (Hlen & d & Hl & Hsp).
  { apply (ext_last ext He Hext). }
  assert (TrimSpace (base ++ ext) = base ++ ext) as Htr.
  { destruct base as [|c base]; [done|]. apply (TrimSpace_id c d).
    - done.
    - rewrite app_comm_cons, last_app, Hl. done.
    - apply (TrimSpace_fixed_head c base); [by inv Hb|done].
    - done. }
  unfold archiveRootDir. rewrite Htr, ToLower_ascii, fmap_app by done.
  rewrite <- !ToLower_ascii by done.
  assert (strip_ext (base ++ ext) (ToLower base ++ ToLower ext) [lit ".zip"; lit ".tar"] = base) as ->.
  { cbn [strip_ext].
    replace (length (base ++ ext) - length (lit ".zip")) with (length base)
      by (rewrite length_app, Hlen; cbn; lia).
    replace (length (base ++ ext) - length (lit ".tar")) with (length base)
      by (rewrite length_app, Hlen; cbn; lia).
    rewrite take_app_length, Ht.
    destruct Hext as [->| ->]; rewrite HasSuffix_app; [done|]. by case_match. }
  by rewrite !bool_decide_false.
Qed.
End validate.

(** A stand-in for the uuid package for concrete runs: 36-byte texts. *)
Definition sample_uuid : UuidLib :=
  {| uuid_t := str;
     uuid_Parse := λ s, if length s =? 36 then inr s else inl (ErrorString (lit "invalid UUID"));
     uuid_String := λ s, s |}.

Lemma validate_errors_witness :
  Is (@validation_error sample_tables (lit "archive_name is required")) ErrValidation = true.
Proof.
  apply (@validate_errors sample_tables sample_uuid []). right; left. by vm_compute.
Defined.

Lemma rebase_on_validated_name_witness :
  real_segment (lit "Documents") ∧
  Split (rebaseArchivePath (lit "Docs/a/b.txt") (lit "Documents")) slash =
    [lit "Documents"; lit "a"; lit "b.txt"].
Proof.
  apply (@rebase_on_validated_name sample_tables (lit " Documents.zip ") (lit "Documents.zip")
           (lit "Docs/a/b.txt")); by vm_compute.
Defined.

Lemma archiveRootDir_strips_witness :
  @archiveRootDir sample_tables (lit "My Docs" ++ lit ".ZiP") = lit "My Docs".
Proof.
  apply (@archiveRootDir_strips sample_tables); try by vm_compute.
  - by apply (bool_decide_unpack _).
  - by apply (bool_decide_unpack _).
  - left. by vm_compute.
Defined.
