(* ===== verification/Manifest.v ===== *)
(** * Manifest assembly (internal/service/archive.go)

    [computeEmptyFolders] and the part of [buildManifest] that follows the
    two repository queries: rebasing, totals, empty folders. *)

From S2P Require Import Prelude GoString GoPath GoError Model Sanitize Validate.

Section manifest.
Context {UT : UnicodeTables}.

(** The closure [hasFileInSubtree] over the sorted [paths]. *)
Definition hasFileInSubtree (paths : list str) (prefix : str) : bool :=
  let target := prefix ++ [slash] in
  let idx := SearchStrings paths target in
  match paths !! idx with
  | Some y => HasPrefix y target
  | None => false
  end.

Definition computeEmptyFolders (folders : list ArchiveFolder) (files : list ArchiveFile)
    : list ArchiveFolder :=
  match folders with
  | [] => []
  | _ :: _ =>
      let paths := sort_Strings (file_ArchivePath <$> files) in
      filter (λ folder, hasFileInSubtree paths (folder_ArchivePath folder) = false) folders
  end.

(** [totalBytes += f.FileSize], at 64 bits. *)
Definition total_bytes (files : list ArchiveFile) : Z :=
  foldl (λ t f, add64 t (file_FileSize f)) 0%Z files.

(** [buildManifest] once both queries have answered. *)
Definition assemble_manifest (j : Job) (folders : list ArchiveFolder) (files : list ArchiveFile)
    : ArchiveManifest :=
  let root := archiveRootDir (job_ArchiveName j) in
  let folders := (λ f, set_folder_path (rebaseArchivePath (folder_ArchivePath f) root) f) <$> folders in
  let files := (λ f, set_file_path (rebaseArchivePath (file_ArchivePath f) root) f) <$> files in
  mkManifest (job_RootFolderID j) (job_ArchiveName j) (job_ExportType j) files
    (computeEmptyFolders folders files) (Z.of_nat (length files)) (total_bytes files).

(** ** Correctness *)

(** Some file lies below the folder at path [p]. *)
Definition has_file_below (files : list ArchiveFile) (p : str) : bool :=
  existsb (λ f, HasPrefix (file_ArchivePath f) (p ++ [slash])) files.

Lemma existsb_perm {A} (P : A → bool) l k : l ≡ₚ k → existsb P l = existsb P k.
Proof.
  intros H. apply eq_true_iff_eq. rewrite !existsb_elem_of. by setoid_rewrite H.
Qed.

Lemma hasFileInSubtree_spec files p :
  hasFileInSubtree (sort_Strings (file_ArchivePath <$> files)) p = has_file_below files p.
Proof.
  unfold hasFileInSubtree. rewrite SearchStrings_prefix by apply sort_Strings_sorted.
  rewrite (existsb_perm _ _ _ (sort_Strings_perm _)). unfold has_file_below.
  induction files as [|f files IH]; [done|]. cbn in *. by rewrite IH.
Qed.

Lemma computeEmptyFolders_filter folders files :
  computeEmptyFolders folders files =
  filter (λ f, has_file_below files (folder_ArchivePath f) = false) folders.
Proof.
  destruct folders as [|f0 folders]; [done|]. unfold computeEmptyFolders.
  apply list_filter_iff. intros f. by rewrite hasFileInSubtree_spec.
Qed.

(** C28: [computeEmptyFolders], which sorts the file paths and answers each
    folder with one binary search, returns exactly the folders, in their
    order, below which no file path lies. *)
Theorem computeEmptyFolders_spec folders files :
  computeEmptyFolders folders files =
  filter (λ f, has_file_below files (folder_ArchivePath f) = false) folders.
Proof. apply computeEmptyFolders_filter. Qed.

Lemma total_bytes_wrap files :
  total_bytes files = wrap64 (foldr (λ f t, file_FileSize f + t)%Z 0%Z files).
Proof.
  unfold total_bytes. enough (∀ a, wrap64 a = a →
    foldl (λ t f, add64 t (file_FileSize f)) a files =
    wrap64 (a + foldr (λ f t, file_FileSize f + t) 0 files))%Z as H by (by rewrite H).
  induction files as [|f files IH]; intros a Ha; cbn.
  - by rewrite Z.add_0_r.
  - rewrite IH; [|apply wrap64_id, wrap64_range]. unfold add64.
    rewrite wrap64_add_l. f_equal. lia.
Qed.

(** The directories a rebased manifest asks an archive to contain. *)
Definition materialised (m : ArchiveManifest) (p : str) : Prop :=
  (∃ f, f ∈ man_EmptyFolders m ∧ folder_ArchivePath f = p) ∨
  (∃ f, f ∈ man_Files m ∧ ∃ rest, file_ArchivePath f = p ++ slash :: rest).

(** C15: no folder of the tree is lost: after rebasing, every folder the
    repository returned either has a file below it in the manifest or is
    listed as an explicit empty directory; and a folder listed as empty has
    no file below it. *)
Theorem manifest_preserves_folders j folders files f :
  f ∈ folders →
  let m := assemble_manifest j folders files in
  let p := rebaseArchivePath (folder_ArchivePath f) (archiveRootDir (job_ArchiveName j)) in
  materialised m p ∧
  ((∃ g, g ∈ man_EmptyFolders m ∧ folder_ArchivePath g = p) →
   ∀ g, g ∈ man_Files m → HasPrefix (file_ArchivePath g) (p ++ [slash]) = false).
Proof.
  intros Hf m p. unfold materialised, m, assemble_manifest. cbn [man_EmptyFolders man_Files].
  set (folders' := _ <$> folders). set (files' := _ <$> files).
  rewrite computeEmptyFolders_filter.
  assert (set_folder_path p f ∈ folders') as Hf'.
  { unfold folders'. apply list_elem_of_fmap. by exists f. }
  split.
  - destruct (has_file_below files' p) eqn:E.
    + right. apply existsb_elem_of in E as (g & Hg & [k Hk]%HasPrefix_spec).
      exists g. split; [done|]. exists k. by rewrite Hk, <- app_assoc.
    + left. exists (set_folder_path p f). split; [|done]. by apply list_elem_of_filter.
  - intros (g & [Hg _]%list_elem_of_filter & Hp) h Hh. rewrite Hp in Hg.
    unfold has_file_below in Hg. rewrite existsb_false in Hg. by apply Hg.
Qed.

(** The manifest's totals: the file count is exact, and the byte total is
    the sum of the recorded sizes reduced to 64 bits, so it is the true sum
    whenever that sum fits an [int64]. *)
Theorem manifest_totals j folders files :
  let m := assemble_manifest j folders files in
  let sum := foldr (λ f t, file_FileSize f + t)%Z 0%Z files in
  man_TotalFiles m = Z.of_nat (length files) ∧ man_TotalBytes m = wrap64 sum ∧
  (in_int64 sum → man_TotalBytes m = sum).
Proof.
  intros m sum. assert (man_TotalBytes m = wrap64 sum) as H.
  { unfold m, assemble_manifest. cbn [man_TotalBytes]. rewrite total_bytes_wrap. f_equal.
    unfold sum. clear. induction files as [|f files IH]; [done|]. cbn in *. by rewrite IH. }
  split_and!.
  - unfold m, assemble_manifest. cbn. by rewrite length_fmap.
  - done.
  - intros. rewrite H. by apply wrap64_id.
Qed.

End manifest.

Lemma manifest_preserves_folders_witness :
  let j := sample_job (lit "j") (lit "Out.zip") ExportTypeZip in
  let folders := [sample_folder (lit "Docs"); sample_folder (lit "Docs/e")] in
  let files := [sample_file (lit "Docs/a.txt") 3] in
  materialised (@assemble_manifest sample_tables j folders files) (lit "Out/e").
Proof.
  intros j folders files.
  apply (@manifest_preserves_folders sample_tables j folders files (sample_folder (lit "Docs/e"))).
  right. left.
Defined.

