(* ===== verification/Prog.v ===== *)
(** * Programs over shared state

    A goroutine is a [prog W A]: a sequence of atomic actions on the shared
    state [W] (a critical section, a system call, a channel operation, one
    reading of the clock), each choosing what to do next from its result.
    [run] executes one goroutine alone; [step] interleaves any number of
    them, one atomic action at a time. *)

From S2P Require Import Prelude.

Inductive prog (W A : Type) : Type :=
| Ret (a : A)
| Atomic {X : Type} (f : W → X * W) (k : X → prog W A).
Arguments Ret {W A} a.
Arguments Atomic {W A X} f k.

Fixpoint prog_bind {W A B} (k : A → prog W B) (p : prog W A) : prog W B :=
  match p with
  | Ret a => k a
  | Atomic f k' => Atomic f (λ x, prog_bind k (k' x))
  end.

#[global] Instance prog_mret W : MRet (prog W) := λ A a, Ret a.
#[global] Instance prog_mbind W : MBind (prog W) := λ A B k p, prog_bind k p.

(** One atomic action. *)
Definition atomic {W X} (f : W → X * W) : prog W X := Atomic f Ret.

(** [if err != nil { return err }] in a program. *)
Definition try {W E A B} (p : prog W (E + A)) (k : A → prog W (E + B)) : prog W (E + B) :=
  r ← p; match r with inl e => Ret (inl e) | inr a => k a end.

Notation "'let*' x ':=' p 'in' k" := (try p (λ x, k))
  (at level 10, x pattern, p at level 150, k at level 200,
   format "'let*'  x  ':='  p  'in' '//' k") : go_scope.

(** ** Sequential execution *)

Fixpoint run {W A} (p : prog W A) (w : W) : A * W :=
  match p with
  | Ret a => (a, w)
  | Atomic f k => let '(x, w') := f w in run (k x) w'
  end.

Lemma run_bind {W A B} (p : prog W A) (k : A → prog W B) w :
  run (p ≫= k) w = let '(a, w') := run p w in run (k a) w'.
Proof.
  revert w. induction p as [a|X f k' IH]; intros w; cbn; [done|].
  destruct (f w) as [x w']. apply IH.
Qed.

Lemma run_atomic {W X} (f : W → X * W) w : run (atomic f) w = f w.
Proof. cbn. by destruct (f w). Qed.

Lemma run_try {W E A B} (p : prog W (E + A)) (k : A → prog W (E + B)) w :
  run (try p k) w =
    match run p w with
    | (inl e, w') => (inl e, w')
    | (inr a, w') => run (k a) w'
    end.
Proof. unfold try. rewrite run_bind. by destruct (run p w) as [[e|a] w']. Qed.

(** ** Interleaved execution *)

Section interleaving.
Context {W : Type} (spawnable : prog W unit → Prop).

(** The goroutines and the state they share. *)
Definition conf : Type := list (prog W unit) * W.

(** One goroutine takes one atomic action, or a new one is started. *)
Inductive step : conf → conf → Prop :=
| step_thread ths w i X (f : W → X * W) k :
    ths !! i = Some (Atomic f k) →
    step (ths, w) (<[i := k (f w).1]> ths, (f w).2)
| step_spawn ths w p :
    spawnable p → step (ths, w) (ths ++ [p], w).

(** An executable scheduler: [run_schedule] lets the goroutines with the
    given indices take one action each, in turn. *)
Definition run_thread (i : nat) (c : conf) : conf :=
  match c.1 !! i with
  | Some (Atomic f k) => (<[i := k (f c.2).1]> c.1, (f c.2).2)
  | _ => c
  end.
Definition run_schedule (sch : list nat) (c : conf) : conf := foldl (λ c i, run_thread i c) c sch.

Lemma run_schedule_rtc sch c : rtc step c (run_schedule sch c).
Proof.
  revert c. induction sch as [|i sch IH]; intros [ths w]; [done|]. cbn [run_schedule foldl].
  etransitivity; [|apply IH]. unfold run_thread. cbn.
  destruct (ths !! i) as [[|X f k]|] eqn:E; [done| |done]. apply rtc_once. by constructor.
Qed.

Lemma spawn_rtc ps ths w : Forall spawnable ps → rtc step (ths, w) (ths ++ ps, w).
Proof.
  intros Hps. revert ths. induction Hps as [|p ps Hp _ IH]; intros ths; [by rewrite app_nil_r|].
  eapply rtc_l; [by apply step_spawn|]. specialize (IH (ths ++ [p])). by rewrite <- app_assoc in IH.
Qed.

(** [safe Inv p]: whatever the other goroutines do in between, as long as
    they keep [Inv], every action of [p] keeps [Inv]. *)
Fixpoint safe {A} (Inv : W → Prop) (p : prog W A) : Prop :=
  match p with
  | Ret _ => True
  | Atomic f k => ∀ w, Inv w → Inv (f w).2 ∧ safe Inv (k (f w).1)
  end.

(** [safe_post Inv Q p]: moreover every result satisfies [Q]. *)
Fixpoint safe_post {A} (Inv : W → Prop) (Q : A → Prop) (p : prog W A) : Prop :=
  match p with
  | Ret a => Q a
  | Atomic f k => ∀ w, Inv w → Inv (f w).2 ∧ safe_post Inv Q (k (f w).1)
  end.

Lemma safe_post_safe {A} Inv (Q : A → Prop) p : safe_post Inv Q p → safe Inv p.
Proof.
  induction p as [a|X f k IH]; cbn; [done|]. intros H w Hw.
  destruct (H w Hw) as [? ?]. auto.
Qed.

(** In particular a run without interference keeps the invariant. *)
Lemma safe_post_run {A} Inv (Q : A → Prop) p w :
  safe_post Inv Q p → Inv w → Inv (run p w).2 ∧ Q (run p w).1.
Proof.
  revert w. induction p as [a|X f k IH]; cbn; intros w Hp Hw; [done|].
  destruct (Hp w Hw) as [? ?]. destruct (f w) as [x w']. by apply IH.
Qed.

Lemma safe_post_mono {A} Inv (Q Q' : A → Prop) p :
  (∀ a, Q a → Q' a) → safe_post Inv Q p → safe_post Inv Q' p.
Proof.
  intros HQ. induction p as [a|X f k IH]; cbn; [auto|]. intros H w Hw.
  destruct (H w Hw) as [? ?]. auto.
Qed.

Lemma safe_post_bind {A B} Inv (Q : A → Prop) (R : B → Prop) p k :
  safe_post Inv Q p → (∀ a, Q a → safe_post Inv R (k a)) → safe_post Inv R (p ≫= k).
Proof.
  intros Hp Hk. induction p as [a|X f k' IH]; cbn in *; [auto|]. intros w Hw.
  destruct (Hp w Hw) as [? ?]. split; [done|]. by apply IH.
Qed.

Lemma safe_post_atomic {X} Inv (Q : X → Prop) (f : W → X * W) :
  (∀ w, Inv w → Inv (f w).2 ∧ Q (f w).1) → safe_post Inv Q (atomic f).
Proof. intros H w Hw. cbn. by apply H. Qed.

Lemma safe_post_try {E A B} Inv (Q : A → Prop) (R : E + B → Prop) (p : prog W (E + A)) k :
  safe_post Inv (λ r, match r with inl e => R (inl e) | inr a => Q a end) p →
  (∀ a, Q a → safe_post Inv R (k a)) → safe_post Inv R (try p k).
Proof.
  intros Hp Hk. unfold try. eapply safe_post_bind; [exact Hp|]. intros [e|a] Ha; [done|auto].
Qed.

(** [guar Inv G Q p]: moreover every action of [p] is a [G] transition, what
    [p] guarantees to the others. *)
Fixpoint guar {A} (Inv : W → Prop) (G : W → W → Prop) (Q : A → Prop) (p : prog W A) : Prop :=
  match p with
  | Ret a => Q a
  | Atomic f k => ∀ w, Inv w → Inv (f w).2 ∧ G w (f w).2 ∧ guar Inv G Q (k (f w).1)
  end.

Lemma guar_safe_post {A} Inv G (Q : A → Prop) p : guar Inv G Q p → safe_post Inv Q p.
Proof.
  induction p as [a|X f k IH]; cbn; [done|]. intros H w Hw. destruct (H w Hw) as (? & _ & ?). auto.
Qed.

Lemma safe_post_guar {A} Inv (Q : A → Prop) p : safe_post Inv Q p → guar Inv (λ _ _, True) Q p.
Proof.
  induction p as [a|X f k IH]; cbn; [done|]. intros H w Hw. destruct (H w Hw) as (? & ?). auto.
Qed.

Lemma guar_mono {A} Inv G G' (Q Q' : A → Prop) p :
  (∀ w w', G w w' → G' w w') → (∀ a, Q a → Q' a) → guar Inv G Q p → guar Inv G' Q' p.
Proof.
  intros HG HQ. induction p as [a|X f k IH]; cbn; [auto|]. intros H w Hw.
  destruct (H w Hw) as (? & ? & ?). auto.
Qed.

Lemma guar_bind {A B} Inv G (Q : A → Prop) (R : B → Prop) p k :
  guar Inv G Q p → (∀ a, Q a → guar Inv G R (k a)) → guar Inv G R (p ≫= k).
Proof.
  intros Hp Hk. induction p as [a|X f k' IH]; cbn in *; [auto|]. intros w Hw.
  destruct (Hp w Hw) as (? & ? & ?). split_and!; [done|done|]. by apply IH.
Qed.

(** Then ignore the result. *)
Lemma guar_then {A B} Inv G (R : B → Prop) (p : prog W A) q :
  guar Inv G (λ _, True) p → guar Inv G R q → guar Inv G R (p ≫= λ _, q).
Proof. intros Hp Hq. eapply guar_bind; [exact Hp|]. auto. Qed.

Lemma guar_atomic {X} Inv G (Q : X → Prop) (f : W → X * W) :
  (∀ w, Inv w → Inv (f w).2 ∧ G w (f w).2 ∧ Q (f w).1) → guar Inv G Q (atomic f).
Proof. intros H w Hw. cbn. by apply H. Qed.

Lemma guar_try {E A B} Inv G (Q : A → Prop) (R : E + B → Prop) (p : prog W (E + A)) k :
  guar Inv G (λ r, match r with inl e => R (inl e) | inr a => Q a end) p →
  (∀ a, Q a → guar Inv G R (k a)) → guar Inv G R (try p k).
Proof.
  intros Hp Hk. unfold try. eapply guar_bind; [exact Hp|]. intros [e|a] Ha; [done|auto].
Qed.

(** An invariant kept by every goroutine holds in every interleaving. *)
Lemma safe_interleaving Inv ths w ths' w' :
  (∀ p, spawnable p → safe Inv p) →
  rtc step (ths, w) (ths', w') → Inv w → Forall (safe Inv) ths →
  Inv w' ∧ Forall (safe Inv) ths'.
Proof.
  intros Hsp Hst. remember (ths, w) as c eqn:Ec. remember (ths', w') as c' eqn:Ec'.
  revert ths w Ec. induction Hst as [c|c c1 c2 Hs Hr IH]; intros ths w Ec Hw Hths.
  { by simplify_eq. }
  destruct Hs as [ths0 w0 i X f k Hi|ths0 w0 p Hp]; simplify_eq.
  - eapply Forall_lookup_1 in Hi as Hsafe; [|done]. cbn in Hsafe.
    destruct (Hsafe w Hw) as [? ?].
    eapply IH; [done|done|done|]. by apply Forall_insert.
  - eapply IH; [done|done|done|]. apply Forall_app. split; [done|]. by repeat constructor; apply Hsp.
Qed.

(** One goroutine watched for its result, among the others. *)
Inductive watch_step {A} : prog W A * conf → prog W A * conf → Prop :=
| watch_own X (f : W → X * W) k ths w :
    watch_step (Atomic f k, (ths, w)) (k (f w).1, (ths, (f w).2))
| watch_others p c c' : step c c' → watch_step (p, c) (p, c').

Lemma watch_waits {A} (p : prog W A) c c' : rtc step c c' → rtc watch_step (p, c) (p, c').
Proof. intros Hr. induction Hr as [|c c1 c' Hs _ IH]; [done|]. eapply rtc_l; [by apply watch_others|exact IH]. Qed.

Lemma watch_runs {A} (p : prog W A) ths w :
  rtc watch_step (p, (ths, w)) (Ret (run p w).1, (ths, (run p w).2)).
Proof.
  revert w. induction p as [a|X f k IH]; intros w; [done|]. eapply rtc_l; [apply watch_own|]. cbn [run].
  destruct (f w) as [x w']. apply IH.
Qed.

Lemma watch_after {A} (p : prog W A) c c' : rtc step c c' →
  rtc watch_step (p, c) (Ret (run p c'.2).1, (c'.1, (run p c'.2).2)).
Proof. intros Hr. etransitivity; [by apply watch_waits|]. destruct c' as [ths w]. apply watch_runs. Qed.

(** Whatever the others do in between, its result is as [safe_post] says. *)
Lemma watched_post {A} Inv (Q : A → Prop) p ths w a c' :
  (∀ q, spawnable q → safe Inv q) → Inv w → Forall (safe Inv) ths → safe_post Inv Q p →
  rtc watch_step (p, (ths, w)) (Ret a, c') → Q a.
Proof.
  intros Hsp Hw Hths Hp Hr. remember (p, (ths, w)) as x eqn:Ex. remember (Ret a, c') as y eqn:Ey.
  revert p ths w Ex Hw Hths Hp. induction Hr as [x|x x1 y Hs Hr IH]; intros p ths w -> Hw Hths Hp.
  { by injection Ey as -> _. }
  inversion Hs as [X f k ths0 w0|p0 c0 [ths1 w1] Hc]; subst.
  - destruct (Hp w Hw) as [? ?]. by eapply IH.
  - destruct (safe_interleaving Inv ths w ths1 w1) as [? ?]; [done|by apply rtc_once|done|done|]. by eapply IH.
Qed.
End interleaving.
