(* ===== verification/JobStore.v ===== *)
(** * The in-memory job store (internal/job)

    [store_*] are [MemoryStore]'s methods on values; the second half models
    the pointers: the store keeps [*model.Job] values, callers keep others,
    and [Clone] is what separates them.  [heap_refines] shows that the
    pointer-level store behaves as the value-level one under any caller
    mutation. *)

From S2P Require Import Prelude GoString GoError Model.

(** ** Values *)

(** [NewMemoryStore]. *)
Definition NewMemoryStore : gmap str Job := ∅.

Definition store_Create (j : Job) (jobs : gmap str Job) : option error * gmap str Job :=
  match jobs !! job_ID j with
  | Some _ => (Some (ErrorString (lit "job " ++ job_ID j ++ lit " already exists")), jobs)
  | None => (None, <[job_ID j := j]> jobs)
  end.

Definition store_Get (jobID : str) (jobs : gmap str Job) : error + Job :=
  match jobs !! jobID with
  | None => inl (Sentinel ErrNotFound)
  | Some j => inr j
  end.

Definition store_Update (j : Job) (jobs : gmap str Job) : option error * gmap str Job :=
  match jobs !! job_ID j with
  | None => (Some (Sentinel ErrNotFound), jobs)
  | Some _ => (None, <[job_ID j := j]> jobs)
  end.

Definition store_Delete (jobID : str) (jobs : gmap str Job) : option error * gmap str Job :=
  (None, delete jobID jobs).

Definition store_List (jobs : gmap str Job) : list Job := (map_to_list jobs).*2.

(** Every record is filed under its own ID. *)
Definition keyed (jobs : gmap str Job) : Prop :=
  ∀ id j, jobs !! id = Some j → job_ID j = id.

Lemma keyed_empty : keyed ∅.
Proof. intros ?? H. by rewrite lookup_empty in H. Qed.

Lemma keyed_insert j jobs : keyed jobs → keyed (<[job_ID j := j]> jobs).
Proof. intros Hk id j' H. rewrite lookup_insert in H. case_decide; simplify_eq; auto. Qed.

Lemma keyed_delete id jobs : keyed jobs → keyed (delete id jobs).
Proof. intros Hk id' j' H. rewrite lookup_delete in H. case_decide; simplify_eq; auto. Qed.

Lemma store_Create_keyed j jobs : keyed jobs → keyed (store_Create j jobs).2.
Proof. unfold store_Create. case_match; cbn; auto using keyed_insert. Qed.

Lemma store_Update_keyed j jobs : keyed jobs → keyed (store_Update j jobs).2.
Proof. unfold store_Update. case_match; cbn; auto using keyed_insert. Qed.

#[export] Hint Resolve keyed_empty keyed_insert keyed_delete store_Create_keyed
  store_Update_keyed : go.

Lemma elem_of_store_List jobs j :
  keyed jobs → j ∈ store_List jobs ↔ jobs !! job_ID j = Some j.
Proof.
  intros Hk. unfold store_List. rewrite list_elem_of_fmap. split.
  - intros ([id j'] & -> & H%elem_of_map_to_list). cbn. by rewrite (Hk _ _ H).
  - intros H. exists (job_ID j, j). split; [done|]. by apply elem_of_map_to_list.
Qed.

(** ** Pointers

    A job object holds its fields by value except [CompletedAt], a pointer
    to a time ([o_val]'s own [job_CompletedAt] is not used). *)

Record obj := mkObj { o_val : Job; o_completed : option nat }.

Record heap := mkHeap {
  h_jobs : gmap nat obj;
  h_times : gmap nat time;
  h_next : nat
}.

(** The job value a pointer denotes. *)
Definition obj_value (h : heap) (o : obj) : Job :=
  set_CompletedAt (o_completed o ≫= λ t, h_times h !! t) (o_val o).
Definition deref (h : heap) (p : nat) : option Job := obj_value h <$> h_jobs h !! p.

Definition new_time (t : time) (h : heap) : nat * heap :=
  (h_next h, mkHeap (h_jobs h) (<[h_next h := t]> (h_times h)) (S (h_next h))).
Definition new_obj (o : obj) (h : heap) : nat * heap :=
  (h_next h, mkHeap (<[h_next h := o]> (h_jobs h)) (h_times h) (S (h_next h))).

(** [Job.Clone] of the object at [p] (a nil receiver clones to nil). *)
Definition Clone (p : nat) (h : heap) : option nat * heap :=
  match h_jobs h !! p with
  | None => (None, h)
  | Some o =>
      match o_completed o with
      | None => let '(p', h') := new_obj o h in (Some p', h')
      | Some tp =>
          let '(tp', h1) := new_time (default 0%Z (h_times h !! tp)) h in
          let '(p', h2) := new_obj (mkObj (o_val o) (Some tp')) h1 in (Some p', h2)
      end
  end.

(** The methods of [MemoryStore], on its map of pointers.  [Create] and
    [Update] read a field of their argument, which panics if it is nil; the
    deferred unlock runs, the state stays as it was. *)
Inductive outcome := Returns (e : option error) | NilDereference.

Definition heap_Create (p : nat) (h : heap) (st : gmap str nat)
    : outcome * heap * gmap str nat :=
  match h_jobs h !! p with
  | None => (NilDereference, h, st)
  | Some o =>
      let id := job_ID (o_val o) in
      match st !! id with
      | Some _ => (Returns (Some (ErrorString (lit "job " ++ id ++ lit " already exists"))), h, st)
      | None => match Clone p h with
                | (Some p', h') => (Returns None, h', <[id := p']> st)
                | (None, h') => (Returns None, h', st)
                end
      end
  end.

Definition heap_Get (jobID : str) (h : heap) (st : gmap str nat) : (error + nat) * heap :=
  match st !! jobID with
  | None => (inl (Sentinel ErrNotFound), h)
  | Some p => match Clone p h with
              | (Some p', h') => (inr p', h')
              | (None, h') => (inl (Sentinel ErrNotFound), h')
              end
  end.

Definition heap_Update (p : nat) (h : heap) (st : gmap str nat)
    : outcome * heap * gmap str nat :=
  match h_jobs h !! p with
  | None => (NilDereference, h, st)
  | Some o =>
      let id := job_ID (o_val o) in
      match st !! id with
      | None => (Returns (Some (Sentinel ErrNotFound)), h, st)
      | Some _ => match Clone p h with
                  | (Some p', h') => (Returns None, h', <[id := p']> st)
                  | (None, h') => (Returns None, h', st)
                  end
      end
  end.

Definition heap_Delete (jobID : str) (st : gmap str nat) : gmap str nat := delete jobID st.

(** [List]: a clone of every stored object. *)
Fixpoint clone_all (ps : list nat) (h : heap) : list nat * heap :=
  match ps with
  | [] => ([], h)
  | p :: ps' =>
      let '(r, h1) := Clone p h in
      let '(rs, h2) := clone_all ps' h1 in
      (option_list r ++ rs, h2)
  end.
Definition heap_List (h : heap) (st : gmap str nat) : list nat * heap :=
  clone_all (map_to_list st).*2 h.

(** Callers write through the pointers they hold. *)
Definition write_job (p : nat) (o : obj) (h : heap) : heap :=
  mkHeap (<[p := o]> (h_jobs h)) (h_times h) (h_next h).
Definition write_time (tp : nat) (t : time) (h : heap) : heap :=
  mkHeap (h_jobs h) (<[tp := t]> (h_times h)) (h_next h).

(** ** Refinement *)

Definition store_ptr (st : gmap str nat) (p : nat) : Prop := ∃ id, st !! id = Some p.
Definition store_time (h : heap) (st : gmap str nat) (tp : nat) : Prop :=
  ∃ p o, store_ptr st p ∧ h_jobs h !! p = Some o ∧ o_completed o = Some tp.

(** Addresses in use are below [h_next], and every time pointer is valid. *)
Definition heap_ok (h : heap) : Prop :=
  (∀ p o, h_jobs h !! p = Some o → p < h_next h ∧
     (∀ tp, o_completed o = Some tp → is_Some (h_times h !! tp))) ∧
  (∀ tp t, h_times h !! tp = Some t → tp < h_next h).

(** The store's objects exist, are filed under their own IDs, and no other
    object shares a time cell with them. *)
Definition store_ok (h : heap) (st : gmap str nat) : Prop :=
  heap_ok h ∧
  (∀ id p, st !! id = Some p → ∃ o, h_jobs h !! p = Some o ∧ job_ID (o_val o) = id) ∧
  (∀ p p' o o' tp, store_ptr st p → h_jobs h !! p = Some o → h_jobs h !! p' = Some o' →
     o_completed o = Some tp → o_completed o' = Some tp → p = p').

(** The pointer store represents the value store [m]. *)
Definition rep (h : heap) (st : gmap str nat) (m : gmap str Job) : Prop :=
  store_ok h st ∧ ∀ id, m !! id = st !! id ≫= deref h.

Lemma obj_value_ID h o : job_ID (obj_value h o) = job_ID (o_val o).
Proof. done. Qed.

(** [h'] only adds objects and times to [h]. *)
Definition heap_ext (h h' : heap) : Prop :=
  (∀ p o, h_jobs h !! p = Some o → h_jobs h' !! p = Some o) ∧
  (∀ tp t, h_times h !! tp = Some t → h_times h' !! tp = Some t).

Lemma deref_ext h h' p o :
  heap_ok h → heap_ext h h' → h_jobs h !! p = Some o → deref h' p = deref h p.
Proof.
  intros [Hok _] [Hj Ht] Hp. unfold deref. rewrite (Hj _ _ Hp), Hp. cbn. f_equal.
  unfold obj_value. f_equal. destruct (o_completed o) as [tp|] eqn:E; [|done]. cbn.
  destruct (Hok _ _ Hp) as [_ Hv]. destruct (Hv tp E) as [t Ht']. by rewrite Ht', (Ht _ _ Ht').
Qed.

(** What [Clone] guarantees: a fresh object, equal in value to the original,
    that shares no address with any earlier object. *)
Record cloned (h : heap) (o : obj) (p' : nat) (h' : heap) (o' : obj) : Prop := {
  cl_ok : heap_ok h';
  cl_ext : heap_ext h h';
  cl_fresh : h_jobs h !! p' = None;
  cl_new : h_jobs h' !! p' = Some o';
  cl_val : o_val o' = o_val o;
  cl_value : obj_value h' o' = obj_value h o;
  cl_only : ∀ q oq, h_jobs h' !! q = Some oq → q = p' ∨ h_jobs h !! q = Some oq;
  cl_time : ∀ tp, o_completed o' = Some tp → h_times h !! tp = None
}.
Arguments cl_ok {_ _ _ _ _} _.
Arguments cl_ext {_ _ _ _ _} _.
Arguments cl_fresh {_ _ _ _ _} _.
Arguments cl_new {_ _ _ _ _} _.
Arguments cl_val {_ _ _ _ _} _.
Arguments cl_value {_ _ _ _ _} _.
Arguments cl_only {_ _ _ _ _} _.
Arguments cl_time {_ _ _ _ _} _.

Lemma heap_ok_fresh_time h : heap_ok h → h_times h !! h_next h = None.
Proof.
  intros [_ Ht]. destruct (h_times h !! h_next h) eqn:E; [|done]. apply Ht in E. lia.
Qed.
Lemma heap_ok_fresh_job h n : heap_ok h → h_next h ≤ n → h_jobs h !! n = None.
Proof.
  intros [Hj _] Hn. destruct (h_jobs h !! n) eqn:E; [|done]. apply Hj in E as [? _]. lia.
Qed.

Lemma new_time_ok t h : heap_ok h → heap_ok (new_time t h).2.
Proof.
  intros Hok. pose proof (heap_ok_fresh_time h Hok). destruct Hok as [Hj Ht]. split; cbn.
  - intros p o Hp. destruct (Hj p o Hp) as [? Hv]. split; [lia|]. intros tp Htp.
    destruct (Hv tp Htp) as [t' Ht']. exists t'. rewrite lookup_insert_ne; [done|]. congruence.
  - intros tp t' Hl. rewrite lookup_insert in Hl. case_decide; [lia|]. apply Ht in Hl. lia.
Qed.

Lemma new_obj_ok o h :
  heap_ok h → (∀ tp, o_completed o = Some tp → is_Some (h_times h !! tp)) →
  heap_ok (new_obj o h).2.
Proof.
  intros [Hj Ht] Ho. split; cbn.
  - intros p o' Hp. rewrite lookup_insert in Hp. case_decide; simplify_eq; [split; [lia|done]|].
    destruct (Hj p o' Hp) as [? ?]. split; [lia|done].
  - intros tp t Hl. apply Ht in Hl. lia.
Qed.

Lemma Clone_spec p o h :
  heap_ok h → h_jobs h !! p = Some o →
  ∃ p' h' o', Clone p h = (Some p', h') ∧ cloned h o p' h' o'.
Proof.
  intros Hok Hp. unfold Clone. rewrite Hp. destruct (o_completed o) as [tp|] eqn:Ec.
  - destruct (proj2 (proj1 Hok p o Hp) tp Ec) as [t Ht].
    pose proof (heap_ok_fresh_time h Hok) as Hft.
    pose proof (heap_ok_fresh_job h (S (h_next h)) Hok ltac:(lia)) as Hfj.
    cbn. eexists _, _, _. split; [done|]. split; cbn.
    + apply (new_obj_ok (mkObj (o_val o) (Some (h_next h))) (new_time _ h).2).
      * by apply new_time_ok.
      * cbn. intros tp' [= <-]. rewrite lookup_insert_eq. eauto.
    + split; cbn; intros q x Hq; rewrite lookup_insert_ne; (done || congruence).
    + done.
    + apply lookup_insert_eq.
    + done.
    + unfold obj_value. cbn. rewrite lookup_insert_eq, Ec. cbn. by rewrite Ht.
    + intros q oq Hq. rewrite lookup_insert in Hq. case_decide; simplify_eq; auto.
    + by intros tp' [= <-].
  - pose proof (heap_ok_fresh_job h (h_next h) Hok ltac:(lia)) as Hfj.
    cbn. eexists _, _, _. split; [done|]. split; cbn.
    + apply (new_obj_ok o h); [done|]. by rewrite Ec.
    + split; cbn; intros q x Hq; [rewrite lookup_insert_ne|]; (done || congruence).
    + done.
    + apply lookup_insert_eq.
    + done.
    + done.
    + intros q oq Hq. rewrite lookup_insert in Hq. case_decide; simplify_eq; auto.
    + by rewrite Ec.
Qed.

(** Old objects keep their value when a clone is added, and the store stays
    separate from the clone. *)
Lemma rep_clone h st m o p' h' o' : rep h st m → cloned h o p' h' o' → rep h' st m.
Proof.
  intros [(Hok & Hid & Hsep) Hm] Hc. split; [split_and!|].
  - apply (cl_ok Hc).
  - intros id p Hp. destruct (Hid id p Hp) as (o1 & Ho1 & ?). exists o1. split; [|done].
    by apply (cl_ext Hc).
  - intros p q op oq tp [id Hp] Hop Hoq Hcp Hcq.
    destruct (Hid id p Hp) as (o1 & Ho1 & _).
    assert (op = o1) as -> by (apply (cl_ext Hc) in Ho1; congruence).
    destruct (cl_only Hc q oq Hoq) as [->|Hq]; [|eapply Hsep; eauto; by exists id].
    rewrite (cl_new Hc) in Hoq. simplify_eq.
    destruct (proj2 (proj1 Hok p o1 Ho1) tp Hcp) as [t Ht].
    by rewrite (cl_time Hc tp Hcq) in Ht.
  - intros id. rewrite Hm. destruct (st !! id) as [p|] eqn:Hp; [|done]. cbn.
    destruct (Hid id p Hp) as (o1 & Ho1 & _). symmetry.
    eapply deref_ext; [done|apply (cl_ext Hc)|done].
Qed.

(** Filing the clone is an insertion in the represented map. *)
Lemma rep_file h st m p o p' h' o' :
  rep h st m → h_jobs h !! p = Some o → cloned h o p' h' o' →
  rep h' (<[job_ID (o_val o) := p']> st) (<[job_ID (o_val o) := obj_value h o]> m).
Proof.
  intros Hrep Hp Hc. destruct (rep_clone _ _ _ _ _ _ _ Hrep Hc) as [(Hok & Hid & Hsep) Hm].
  assert (¬ store_ptr st p') as Hfresh.
  { intros [id Hs]. destruct Hrep as [(_ & Hid0 & _) _].
    destruct (Hid0 id p' Hs) as (? & H0 & _). by rewrite (cl_fresh Hc) in H0. }
  split; [split_and!|].
  - done.
  - intros id q. rewrite lookup_insert. case_decide as E; [|apply Hid]. intros [= <-].
    exists o'. split; [apply (cl_new Hc)|]. by rewrite (cl_val Hc).
  - intros q q' oq oq' tp [id Hq] Hoq Hoq' Htp Htp'.
    rewrite lookup_insert in Hq. case_decide as E; simplify_eq.
    + rewrite (cl_new Hc) in Hoq. simplify_eq.
      destruct (cl_only Hc q' oq' Hoq') as [->|Hq']; [done|].
      destruct Hrep as [(Hok0 & _) _].
      destruct (proj2 (proj1 Hok0 q' oq' Hq') tp Htp') as [t Ht].
      by rewrite (cl_time Hc tp Htp) in Ht.
    + eapply Hsep; eauto. by exists id.
  - intros id. rewrite !lookup_insert. case_decide; [|apply Hm]. cbn. unfold deref.
    rewrite (cl_new Hc). cbn. by rewrite (cl_value Hc).
Qed.

Lemma rep_delete h st m id : rep h st m → rep h (delete id st) (delete id m).
Proof.
  intros [(Hok & Hid & Hsep) Hm].
  assert (∀ q, store_ptr (delete id st) q → store_ptr st q) as Hsub.
  { intros q [i Hi]. rewrite lookup_delete in Hi. case_decide; [done|]. by exists i. }
  split; [split_and!|].
  - done.
  - intros i q Hi. rewrite lookup_delete in Hi. case_decide; [done|]. by apply Hid.
  - intros q q' oq oq' tp Hq. eapply Hsep. by apply Hsub.
  - intros i. rewrite !lookup_delete. case_decide; [done|]. apply Hm.
Qed.

(** A caller's write reaches no object or time cell of the store. *)
Lemma rep_write h st m p o :
  rep h st m → is_Some (h_jobs h !! p) → ¬ store_ptr st p →
  (∀ tp, o_completed o = Some tp → is_Some (h_times h !! tp) ∧ ¬ store_time h st tp) →
  rep (write_job p o h) st m.
Proof.
  intros [((Hj & Ht) & Hid & Hsep) Hm] [o0 Hp] Hns Ho.
  assert (∀ q, store_ptr st q → h_jobs (write_job p o h) !! q = h_jobs h !! q) as Hsame.
  { intros q Hq. cbn. rewrite lookup_insert_ne; [done|]. by intros ->. }
  split; [split_and!|].
  - split; [|done]. cbn. intros q oq Hq. rewrite lookup_insert in Hq. case_decide; simplify_eq.
    + split; [by eapply Hj|]. intros tp Htp. by apply Ho.
    + by apply Hj.
  - intros id q Hq. rewrite Hsame by (by exists id). by apply Hid.
  - intros q q' oq oq' tp Hq Hoq Hoq' Htp Htp'. rewrite Hsame in Hoq by done.
    cbn in Hoq'. rewrite lookup_insert in Hoq'. case_decide; simplify_eq; [|by eapply Hsep].
    destruct (Ho tp Htp') as [_ []]. by exists q, oq.
  - intros id. rewrite Hm. destruct (st !! id) as [q|] eqn:Hq; [|done]. cbn. unfold deref.
    rewrite Hsame by (by exists id). done.
Qed.

Lemma rep_write_time h st m tp t :
  rep h st m → is_Some (h_times h !! tp) → ¬ store_time h st tp → rep (write_time tp t h) st m.
Proof.
  intros [((Hj & Ht) & Hid & Hsep) Hm] [t0 Htp] Hns. split; [split_and!|]; cbn; try done.
  - split; cbn.
    + intros q oq Hq. destruct (Hj q oq Hq) as [? Hv]. split; [done|]. intros tp' Hc.
      rewrite lookup_insert. case_decide; eauto.
    + intros tp' t' Hl. rewrite lookup_insert in Hl. case_decide; subst; eauto.
  - intros id. rewrite Hm. destruct (st !! id) as [q|] eqn:Hq; [|done]. cbn. unfold deref. cbn.
    destruct (Hid id q Hq) as (o & Ho & _). rewrite Ho. cbn. f_equal. unfold obj_value. f_equal.
    destruct (o_completed o) as [tp'|] eqn:E; [|done]. cbn. rewrite lookup_insert_ne; [done|].
    intros ->. apply Hns. exists q, o. split_and!; [by exists id|done|done].
Qed.

(** ** The simulation

    One operation of a caller of the package: a store method, or a mutation
    of an object the caller owns. *)
Inductive caller_op :=
| CallCreate (p : nat) | CallGet (id : str) | CallUpdate (p : nat) | CallDelete (id : str) | CallList
| CallWriteJob (p : nat) (o : obj) | CallWriteTime (tp : nat) (t : time).

(** Callers write only through pointers they own, and pass valid pointers. *)
Definition caller_may (c : caller_op) (h : heap) (st : gmap str nat) : Prop :=
  match c with
  | CallCreate _ | CallUpdate _ | CallGet _ | CallDelete _ | CallList => True
  | CallWriteJob p o =>
      is_Some (h_jobs h !! p) ∧ ¬ store_ptr st p ∧
      ∀ tp, o_completed o = Some tp → is_Some (h_times h !! tp) ∧ ¬ store_time h st tp
  | CallWriteTime tp _ => is_Some (h_times h !! tp) ∧ ¬ store_time h st tp
  end.

(** The pointer-level store: the outcome and the pointers returned. *)
Definition heap_op (c : caller_op) (h : heap) (st : gmap str nat)
    : (outcome * list nat) * (heap * gmap str nat) :=
  match c with
  | CallCreate p => let '(e, h', st') := heap_Create p h st in ((e, []), (h', st'))
  | CallUpdate p => let '(e, h', st') := heap_Update p h st in ((e, []), (h', st'))
  | CallGet id => match heap_Get id h st with
                  | (inl e, h') => ((Returns (Some e), []), (h', st))
                  | (inr p, h') => ((Returns None, [p]), (h', st))
                  end
  | CallDelete id => ((Returns None, []), (h, heap_Delete id st))
  | CallList => let '(ps, h') := heap_List h st in ((Returns None, ps), (h', st))
  | CallWriteJob p o => ((Returns None, []), (write_job p o h, st))
  | CallWriteTime tp t => ((Returns None, []), (write_time tp t h, st))
  end.

(** The value-level store, [at_ptr] giving the value a pointer denotes. *)
Definition value_op (at_ptr : nat → option Job) (c : caller_op) (m : gmap str Job)
    : (outcome * list Job) * gmap str Job :=
  match c with
  | CallCreate p => match at_ptr p with
                    | Some j => let '(e, m') := store_Create j m in ((Returns e, []), m')
                    | None => ((NilDereference, []), m)
                    end
  | CallUpdate p => match at_ptr p with
                    | Some j => let '(e, m') := store_Update j m in ((Returns e, []), m')
                    | None => ((NilDereference, []), m)
                    end
  | CallGet id => match store_Get id m with
                  | inl e => ((Returns (Some e), []), m)
                  | inr j => ((Returns None, [j]), m)
                  end
  | CallDelete id => ((Returns None, []), (store_Delete id m).2)
  | CallList => ((Returns None, store_List m), m)
  | CallWriteJob _ _ | CallWriteTime _ _ => ((Returns None, []), m)
  end.

Lemma rep_lookup h st m id :
  rep h st m → m !! id = None ↔ st !! id = None.
Proof.
  intros [(_ & Hid & _) Hm]. rewrite Hm. destruct (st !! id) as [p|] eqn:E; [|done]. cbn.
  destruct (Hid id p E) as (o & Ho & _). unfold deref. by rewrite Ho.
Qed.

(** What every method has to show of its outcome. *)
Definition refined (r : (outcome * list nat) * (heap * gmap str nat))
    (r' : (outcome * list Job) * gmap str Job) : Prop :=
  let '((e, ps), (h', st')) := r in
  let '((e', js), m') := r' in
  rep h' st' m' ∧ e = e' ∧ deref h' <$> ps = Some <$> js ∧ Forall (λ p, ¬ store_ptr st' p) ps.

Lemma fresh_not_stored h st m p : rep h st m → h_jobs h !! p = None → ¬ store_ptr st p.
Proof.
  intros [(_ & Hid & _) _] Hp [id Hs]. destruct (Hid id p Hs) as (o & Ho & _). congruence.
Qed.

Lemma clone_all_spec st m ps : ∀ h, rep h st m → Forall (λ p, is_Some (h_jobs h !! p)) ps →
  let '(rs, h') := clone_all ps h in
  rep h' st m ∧ heap_ext h h' ∧ deref h' <$> rs = deref h <$> ps ∧
  Forall (λ r, h_jobs h !! r = None) rs.
Proof.
  induction ps as [|p ps IH]; intros h Hrep Hps; cbn [clone_all].
  { split_and!; [done|by split|done|constructor]. }
  apply Forall_cons in Hps as [[o Ho] Hps].
  destruct (Clone_spec p o h) as (p' & h1 & o' & -> & Hc); [apply Hrep|done|].
  pose proof (rep_clone _ _ _ _ _ _ _ Hrep Hc) as Hrep1. pose proof (cl_ext Hc) as Hext.
  assert (Forall (λ q, is_Some (h_jobs h1 !! q)) ps) as Hps1.
  { eapply Forall_impl; [exact Hps|]. intros q [oq Hq]. exists oq. by apply Hext. }
  specialize (IH h1 Hrep1 Hps1). destruct (clone_all ps h1) as [rs h2].
  destruct IH as (Hrep2 & Hext2 & Hrs & Hfr). split_and!; [done| | |].
  - destruct Hext, Hext2. split; auto.
  - cbn. f_equal.
    + rewrite (deref_ext h1 h2 p' o'); [|apply Hrep1|done|apply (cl_new Hc)].
      unfold deref. rewrite (cl_new Hc), Ho. cbn. by rewrite (cl_value Hc).
    + rewrite Hrs. apply list_fmap_ext. intros i q Hq. apply list_elem_of_lookup_2 in Hq.
      rewrite Forall_forall in Hps. destruct (Hps q Hq) as [oq Hoq].
      apply (deref_ext h h1 q oq); [apply Hrep|done|done].
  - apply Forall_cons_2; [apply (cl_fresh Hc)|]. eapply Forall_impl; [exact Hfr|].
    intros r Hr. destruct (h_jobs h !! r) as [or|] eqn:E; [|done]. apply Hext in E. cbn in Hr. congruence.
Qed.

Lemma rep_values h st m : rep h st m → deref h <$> (map_to_list st).*2 = Some <$> store_List m.
Proof.
  intros [(_ & Hid & _) Hm].
  assert (m = (λ p, default (sample_job [] [] []) (deref h p)) <$> st) as ->.
  { apply map_eq. intros id. rewrite Hm, lookup_fmap. destruct (st !! id) as [p|] eqn:E; [|done]. cbn.
    destruct (Hid id p E) as (o & Ho & _). unfold deref. by rewrite Ho. }
  unfold store_List. rewrite map_to_list_fmap, <- !list_fmap_compose. apply list_fmap_ext.
  intros i [id p] Hp. cbn. apply list_elem_of_lookup_2, elem_of_map_to_list in Hp.
  destruct (Hid id p Hp) as (o & Ho & _). unfold deref. by rewrite Ho.
Qed.

Lemma heap_List_refined h st m :
  rep h st m → refined (heap_op CallList h st) (value_op (deref h) CallList m).
Proof.
  intros Hrep. cbn [heap_op value_op]. unfold heap_List.
  pose proof (clone_all_spec st m (map_to_list st).*2 h Hrep) as Hc.
  destruct (clone_all _ h) as [rs h']. destruct Hc as (Hrep' & _ & Hrs & Hfr).
  { apply Forall_fmap, Forall_forall. intros [id p] Hp. apply elem_of_map_to_list in Hp.
    destruct Hrep as [(_ & Hid & _) _]. destruct (Hid id p Hp) as (o & ? & _). by exists o. }
  unfold refined. split_and!; [done|done|by rewrite Hrs; apply rep_values|].
  eapply Forall_impl; [exact Hfr|]. intros p Hp. by apply (fresh_not_stored h st m).
Qed.

Lemma heap_Get_refined id h st m :
  rep h st m → refined (heap_op (CallGet id) h st) (value_op (deref h) (CallGet id) m).
Proof.
  intros Hrep. cbn [heap_op value_op]. unfold heap_Get, store_Get.
  rewrite (proj2 Hrep id). destruct (st !! id) as [p|] eqn:Es; cbn; [|by unfold refined; split_and!].
  destruct (proj1 (proj2 (proj1 Hrep)) id p Es) as (o & Ho & _).
  unfold deref at 1. rewrite Ho. cbn.
  destruct (Clone_spec p o h) as (p' & h' & o' & -> & Hc); [apply Hrep|done|].
  split_and!; try done.
  - by eapply rep_clone.
  - cbn. unfold deref. rewrite (cl_new Hc). cbn. by rewrite (cl_value Hc).
  - apply Forall_singleton. apply (fresh_not_stored h st m); [done|apply (cl_fresh Hc)].
Qed.

Lemma heap_op_refined c h st m :
  rep h st m → caller_may c h st → refined (heap_op c h st) (value_op (deref h) c m).
Proof.
  intros Hrep Hmay. pose proof (rep_lookup h st m) as Hl.
  destruct c as [p|id|p|id| |p o|tp t]; [|by apply heap_Get_refined| | |by apply heap_List_refined| |];
    cbn [heap_op value_op].
  - clear Hmay. unfold heap_Create, deref. destruct (h_jobs h !! p) as [o|] eqn:Ho; [|by unfold refined; split_and!].
    cbn. unfold store_Create.
    rewrite obj_value_ID. specialize (Hl (job_ID (o_val o)) Hrep).
    destruct (st !! job_ID (o_val o)) eqn:Es, (m !! job_ID (o_val o)) eqn:Em;
      try (exfalso; naive_solver).
    + by unfold refined; split_and!.
    + destruct (Clone_spec p o h) as (p' & h' & o' & -> & Hc); [apply Hrep|done|].
      unfold refined; split_and!; try done. by eapply rep_file.
  - clear Hmay. unfold heap_Update, deref. destruct (h_jobs h !! p) as [o|] eqn:Ho; [|by unfold refined; split_and!].
    cbn. unfold store_Update.
    rewrite obj_value_ID. specialize (Hl (job_ID (o_val o)) Hrep).
    destruct (st !! job_ID (o_val o)) eqn:Es, (m !! job_ID (o_val o)) eqn:Em;
      try (exfalso; naive_solver).
    + destruct (Clone_spec p o h) as (p' & h' & o' & -> & Hc); [apply Hrep|done|].
      unfold refined; split_and!; try done. by eapply rep_file.
    + by unfold refined; split_and!.
  - unfold refined; split_and!; try done. by apply rep_delete.
  - destruct Hmay as (? & ? & ?). unfold refined; split_and!; try done. by apply rep_write.
  - destruct Hmay as (? & ?). unfold refined; split_and!; try done. by apply rep_write_time.
Qed.

(** C10: [MemoryStore] isolates its callers.  Related states stay related
    under every store method and under every mutation a caller performs
    through a pointer it owns; the error results agree, as do the panics on a
    nil argument; and the pointers
    [Get] and [List] return denote private copies of the stored values, none
    of them one of the store's own pointers.  This is what the [Clone] calls
    buy. *)
Theorem heap_refines c h st m :
  rep h st m → caller_may c h st →
  let '((e, ps), (h', st')) := heap_op c h st in
  let '((e', js), m') := value_op (deref h) c m in
  rep h' st' m' ∧ e = e' ∧ deref h' <$> ps = Some <$> js ∧ Forall (λ p, ¬ store_ptr st' p) ps.
Proof. apply heap_op_refined. Qed.

(** A caller's job object at address 0, its completion time at address 1. *)
Definition sample_heap : heap :=
  mkHeap {[0 := mkObj (sample_job (lit "j1") (lit "a") ExportTypeZip) (Some 1)]} {[1 := 5%Z]} 2.

Lemma heap_refines_witness :
  let '((e, ps), (h', st')) := heap_op (CallCreate 0) sample_heap ∅ in
  let '((e', js), m') := value_op (deref sample_heap) (CallCreate 0) ∅ in
  rep h' st' m' ∧ e = e' ∧ deref h' <$> ps = Some <$> js ∧ Forall (λ p, ¬ store_ptr st' p) ps.
Proof.
  apply (heap_refines (CallCreate 0) sample_heap ∅ ∅); [|done].
  split; [split_and!|].
  - split; cbn.
    + intros p o [<- <-]%lookup_singleton_Some. split; [lia|]. intros tp [= <-]. by eexists.
    + intros tp t [<- _]%lookup_singleton_Some. lia.
  - intros id p Hp. by rewrite lookup_empty in Hp.
  - intros p p' o o' tp [id Hp]. by rewrite lookup_empty in Hp.
  - intros id. by rewrite !lookup_empty.
Defined.
