(* ===== verification/Token.v ===== *)
(** * Download tokens (internal/token/token.go)

    The token text (base64url of 32 random bytes), the constant-time
    comparison, and [InMemoryService] on its map of entries. *)

From S2P Require Import Prelude GoString GoError Model.

(** ** encoding/base64, RawURLEncoding *)

Definition base64_digit (n : Z) : ascii :=
  if (n <? 26)%Z then chr (65 + n)
  else if (n <? 52)%Z then chr (71 + n)
  else if (n <? 62)%Z then chr (n - 4)
  else if (n =? 62)%Z then "-"%char else "_"%char.

(** Three bytes are four digits; one or two trailing bytes are two or three
    digits, unpadded. *)
Fixpoint EncodeToString (src : str) : str :=
  match src with
  | a :: b :: c :: rest =>
      let v := (code a * 65536 + code b * 256 + code c)%Z in
      base64_digit (v / 262144 mod 64) :: base64_digit (v / 4096 mod 64)
      :: base64_digit (v / 64 mod 64) :: base64_digit (v mod 64) :: EncodeToString rest
  | [a; b] =>
      let v := (code a * 65536 + code b * 256)%Z in
      [base64_digit (v / 262144 mod 64); base64_digit (v / 4096 mod 64); base64_digit (v / 64 mod 64)]
  | [a] =>
      let v := (code a * 65536)%Z in
      [base64_digit (v / 262144 mod 64); base64_digit (v / 4096 mod 64)]
  | [] => []
  end.

(** ** crypto/subtle *)

(** The xor of all byte pairs, or-ed together. *)
Fixpoint compare_acc (v : Z) (x y : str) : Z :=
  match x, y with
  | a :: x', b :: y' => compare_acc (Z.lor v (Z.lxor (code a) (code b))) x' y'
  | _, _ => v
  end.

Definition ConstantTimeCompare (x y : str) : Z :=
  if length x =? length y then (if compare_acc 0 x y =? 0 then 1 else 0)%Z else 0%Z.

(** ** InMemoryService *)

Record entry := mkEntry { ent_jobID : str; ent_expiresAt : time }.

Definition NewInMemoryService : gmap str entry := ∅.

Definition tokenBytes : nat := 32.

(** [Issue]: [raw] is what crypto/rand delivered, [now] the clock reading
    taken under the lock. *)
Definition token_Issue {UT : UnicodeTables} (raw : error + str) (jobID : str) (ttl : duration) (now : time)
    (tokens : gmap str entry) : (error + str) * gmap str entry :=
  match raw with
  | inl err => (inl (Errorf_w (lit "generate token: ") err []), tokens)
  | inr raw =>
      let tok := EncodeToString raw in
      (inr tok, <[tok := mkEntry jobID (now + ttl)%Z]> tokens)
  end.

(** [Validate]: the entry read under the lock, the clock read after it. *)
Definition token_Validate (jobID tok : str) (now : time) (e : option entry) : option error :=
  match e with
  | None => Some (Sentinel ErrInvalidToken)
  | Some e =>
      if negb (ConstantTimeCompare (ent_jobID e) jobID =? 1)%Z then Some (Sentinel ErrInvalidToken)
      else if (ent_expiresAt e <? now)%Z then Some (Sentinel ErrTokenExpired)
      else None
  end.

(** [Revoke] deletes, in one critical section, every entry of the job. *)
Definition token_Revoke (jobID : str) (tokens : gmap str entry) : gmap str entry :=
  filter (λ kv, ent_jobID kv.2 ≠ jobID) tokens.

(** ** Facts: comparison *)

Lemma compare_acc_zero v x y :
  length x = length y → (0 <= v)%Z → compare_acc v x y = 0%Z ↔ v = 0%Z ∧ x = y.
Proof.
  revert v y. induction x as [|a x IH]; intros v [|b y] Hl Hv; simpl in Hl; try lia; cbn.
  { naive_solver. }
  pose proof (code_range a). pose proof (code_range b).
  assert (0 <= Z.lxor (code a) (code b))%Z as Hx by (apply Z.lxor_nonneg; lia).
  rewrite IH; [|lia|apply Z.lor_nonneg; lia].
  rewrite Z.lor_eq_0_iff, Z.lxor_eq_0_iff.
  split; [intros [[-> ->%(inj code)] ->]; done|]. intros [-> [= -> ->]]. done.
Qed.

(** [ConstantTimeCompare] is equality. *)
Lemma ConstantTimeCompare_spec x y : ConstantTimeCompare x y = 1%Z ↔ x = y.
Proof.
  unfold ConstantTimeCompare. destruct (Nat.eqb_spec (length x) (length y)) as [Hl|Hl].
  - pose proof (compare_acc_zero 0 x y Hl ltac:(lia)) as Hc.
    destruct (Z.eqb_spec (compare_acc 0 x y) 0); naive_solver.
  - split; [done|]. intros ->. done.
Qed.

(** ** Facts: base64 *)

Lemma base64_digit_inj a b :
  (0 <= a < 64)%Z → (0 <= b < 64)%Z → base64_digit a = base64_digit b → a = b.
Proof.
  intros Ha Hb H. apply (f_equal code) in H. revert H. unfold base64_digit.
  repeat case_match; breflect; rewrite ?code_chr; try rewrite !Z.mod_small by lia;
    try (change (code "-"%char) with 45%Z); try (change (code "_"%char) with 95%Z); lia.
Qed.

Ltac b64_inj :=
  repeat match goal with
  | H : base64_digit _ = base64_digit _ |- _ =>
      apply base64_digit_inj in H; [|apply Z.mod_pos_bound; lia..]
  end.

(** Three digits' worth of equations determine the bytes. *)
Lemma b64_solve a b c a' b' c' :
  (0 <= a < 256 → 0 <= b < 256 → 0 <= c < 256 → 0 <= a' < 256 → 0 <= b' < 256 → 0 <= c' < 256 →
   let v := a * 65536 + b * 256 + c in let v' := a' * 65536 + b' * 256 + c' in
   v / 262144 mod 64 = v' / 262144 mod 64 → v / 4096 mod 64 = v' / 4096 mod 64 →
   v / 64 mod 64 = v' / 64 mod 64 → v mod 64 = v' mod 64 → a = a' ∧ b = b' ∧ c = c')%Z.
Proof. intros. unfold v, v' in *. Z.to_euclidean_division_equations; lia. Qed.

Lemma list_ind3 {A} (P : list A → Prop) :
  P [] → (∀ a, P [a]) → (∀ a b, P [a; b]) → (∀ a b c l, P l → P (a :: b :: c :: l)) →
  ∀ l, P l.
Proof.
  intros H0 H1 H2 H3. fix IH 1. intros [|a [|b [|c l]]]; [exact H0|exact (H1 a)|exact (H2 a b)|]. apply H3, IH.
Qed.

(** Distinct random draws give distinct tokens. *)
Lemma EncodeToString_inj x y :
  length x = length y → EncodeToString x = EncodeToString y → x = y.
Proof.
  revert y. induction x as [|a|a b|a b c x IH] using list_ind3; intros y Hl H.
  - by destruct y.
  - destruct y as [|a' [|]]; try done. cbn in H. injection H as E1 E2. b64_inj.
    pose proof (code_range a). pose proof (code_range a'). f_equal. apply (inj code).
    Z.to_euclidean_division_equations; lia.
  - destruct y as [|a' [|b' [|]]]; try done. cbn in H. injection H as E1 E2 E3. b64_inj.
    pose proof (code_range a). pose proof (code_range a').
    pose proof (code_range b). pose proof (code_range b').
    destruct (b64_solve (code a) (code b) 0 (code a') (code b') 0) as (Ha & Hb & _);
      rewrite ?Z.add_0_r; try lia; try done.
    { Z.to_euclidean_division_equations; lia. }
    by apply (inj code) in Ha as ->, Hb as ->.
  - destruct y as [|a' [|b' [|c' y]]]; try done. cbn in H. injection H as E1 E2 E3 E4 E5. b64_inj.
    destruct (b64_solve (code a) (code b) (code c) (code a') (code b') (code c'))
      as (Ha & Hb & Hc); try apply code_range; try done.
    apply (inj code) in Ha as ->, Hb as ->, Hc as ->. f_equal. f_equal. f_equal.
    apply IH; [simpl in Hl; lia|done].
Qed.

(** The characters of a base64url text. *)
Definition url_safe (c : ascii) : Prop :=
  (65 <= code c <= 90 ∨ 97 <= code c <= 122 ∨ 48 <= code c <= 57)%Z ∨ c = "-"%char ∨ c = "_"%char.

Lemma base64_digit_url_safe n : (0 <= n < 64)%Z → url_safe (base64_digit n).
Proof.
  intros Hn. unfold base64_digit, url_safe.
  repeat case_match; breflect; auto; left; rewrite code_chr, Z.mod_small by lia; lia.
Qed.

Lemma EncodeToString_url_safe x : Forall url_safe (EncodeToString x).
Proof.
  induction x as [|a|a b|a b c x IH] using list_ind3; cbn [EncodeToString];
    repeat (apply Forall_cons; split); try apply Forall_nil_2; try exact IH;
    apply base64_digit_url_safe, Z.mod_pos_bound; lia.
Qed.

(** Token texts.  A token issued from 32 random bytes is 43 URL-safe
    characters, and two different draws never give the same token. *)
Theorem token_text raw1 raw2 :
  length raw1 = tokenBytes → length raw2 = tokenBytes →
  length (EncodeToString raw1) = 43 ∧ Forall url_safe (EncodeToString raw1) ∧
  (EncodeToString raw1 = EncodeToString raw2 → raw1 = raw2).
Proof.
  intros H1 H2. split_and!.
  - do 32 (destruct raw1; [done|]). by destruct raw1.
  - apply EncodeToString_url_safe.
  - apply EncodeToString_inj. congruence.
Qed.

(** ** Facts: the service *)

(** [Validate] accepts a token exactly when the service holds an entry
    for it, the entry was issued for that very job, and the clock has not
    passed its expiry (the expiry instant itself is still accepted). *)
Theorem token_Validate_iff (jobID tok : str) (now : time) (tokens : gmap str entry) :
  token_Validate jobID tok now (tokens !! tok) = None ↔
  ∃ e, tokens !! tok = Some e ∧ ent_jobID e = jobID ∧ (now <= ent_expiresAt e)%Z.
Proof.
  unfold token_Validate. destruct (tokens !! tok) as [e|]; [|naive_solver].
  destruct (Z.eqb_spec (ConstantTimeCompare (ent_jobID e) jobID) 1) as [Hc|Hc]; cbn [negb].
  - apply ConstantTimeCompare_spec in Hc.
    destruct (Z.ltb_spec (ent_expiresAt e) now); split; try naive_solver lia.
  - split; [done|]. intros (e' & [= <-] & He & _). by rewrite ConstantTimeCompare_spec in Hc.
Qed.

Lemma token_Revoke_lookup (jobID tok : str) (tokens : gmap str entry) :
  token_Revoke jobID tokens !! tok =
  match tokens !! tok with
  | Some e => if bool_decide (ent_jobID e = jobID) then None else Some e
  | None => None
  end.
Proof.
  unfold token_Revoke. destruct (tokens !! tok) as [e|] eqn:E.
  - case_bool_decide as Hj.
    + apply map_lookup_filter_None. right. intros e' He'. simplify_eq. cbn. naive_solver.
    + by apply map_lookup_filter_Some.
  - apply map_lookup_filter_None. by left.
Qed.

(** C21: the life of a token.  Issued at [now] for [jobID] with lifetime
    [ttl], it is accepted for that job up to and including [now + ttl],
    reported expired after that, rejected as invalid for every other job at
    any time, and rejected for every job once the job is revoked; issuing
    and revoking leave the other jobs' tokens as they were. *)
Theorem token_lifecycle {UT : UnicodeTables} (raw jobID : str) (ttl : duration) (now : time)
    (tokens : gmap str entry) :
  let '(r, tokens') := token_Issue (inr raw) jobID ttl now tokens in
  ∃ tok, r = inr tok ∧
  (∀ t, (t <= now + ttl)%Z → token_Validate jobID tok t (tokens' !! tok) = None) ∧
  (∀ t, (now + ttl < t)%Z →
     token_Validate jobID tok t (tokens' !! tok) = Some (Sentinel ErrTokenExpired)) ∧
  (∀ other t, other ≠ jobID →
     token_Validate other tok t (tokens' !! tok) = Some (Sentinel ErrInvalidToken)) ∧
  (∀ id t, token_Validate id tok t (token_Revoke jobID tokens' !! tok)
        = Some (Sentinel ErrInvalidToken)) ∧
  (∀ tok' e, tok' ≠ tok → tokens !! tok' = Some e → ent_jobID e ≠ jobID →
     token_Revoke jobID tokens' !! tok' = Some e).
Proof.
  cbn. set (tok := EncodeToString raw). exists tok. split; [done|].
  assert (ConstantTimeCompare jobID jobID = 1%Z) as Hc by by apply ConstantTimeCompare_spec.
  unfold token_Validate. rewrite token_Revoke_lookup, lookup_insert_eq. cbn. rewrite Hc. cbn.
  split_and!.
  - intros t Ht. by rewrite (proj2 (Z.ltb_ge _ _)).
  - intros t Ht. by rewrite (proj2 (Z.ltb_lt _ _)).
  - intros other t Ho. destruct (Z.eqb_spec (ConstantTimeCompare jobID other) 1) as [E|]; [|done].
    by apply ConstantTimeCompare_spec in E.
  - intros t. by rewrite bool_decide_true.
  - intros tok' e Hne Hl Hj. rewrite token_Revoke_lookup, lookup_insert_ne, Hl by done.
    by rewrite bool_decide_false.
Qed.

Lemma token_text_witness :
  length (EncodeToString (replicate 32 "a"%char)) = 43 ∧
  Forall url_safe (EncodeToString (replicate 32 "a"%char)) ∧
  (EncodeToString (replicate 32 "a"%char) = EncodeToString (replicate 32 "b"%char) →
   replicate 32 "a"%char = replicate 32 "b"%char).
Proof. by apply token_text. Defined.
