(* ===== verification/FS.v ===== *)
(** * The archive directory and the system calls on it

    The state is one directory: its entries by full path, and the contents
    of the inodes they name, so that a file stays writable through an open
    handle after its name is removed.  Every call takes the outcome the
    kernel decided: [None], or [Some msg] for a failure such as EIO. *)

From S2P Require Import Prelude GoString GoPath GoError.

Inductive dirent := DFile (ino : nat) | DDir.

#[global] Instance dirent_eq_dec : EqDecision dirent.
Proof. solve_decision. Defined.

Record fs (C : Type) := mkFs {
  fs_names : gmap str dirent;
  fs_data : gmap nat C;
  fs_next : nat
}.
Arguments mkFs {C} _ _ _.
Arguments fs_names {C} _.
Arguments fs_data {C} _.
Arguments fs_next {C} _.

Section syscalls.
Context {C : Type}.
Implicit Types (s : fs C) (p : str).

Definition enoent (p : str) : error := OsError true (p ++ lit ": no such file or directory").

(** [os.OpenFile(p, O_CREATE|O_WRONLY|O_TRUNC)]: the inode written to. *)
Definition sys_create (empty : C) (p : str) (fault : option str) (s : fs C)
    : (error + nat) * fs C :=
  match fault with
  | Some m => (inl (OsError false m), s)
  | None =>
      match fs_names s !! p with
      | Some DDir => (inl (OsError false (p ++ lit ": is a directory")), s)
      | Some (DFile i) => (inr i, mkFs (fs_names s) (<[i := empty]> (fs_data s)) (fs_next s))
      | None => (inr (fs_next s),
                 mkFs (<[p := DFile (fs_next s)]> (fs_names s))
                      (<[fs_next s := empty]> (fs_data s)) (S (fs_next s)))
      end
  end.

(** [os.MkdirAll] of the archive directory; the entries in it stay. *)
Definition sys_mkdirall (p : str) (fault : option str) (s : fs C) : option error :=
  match fault with
  | Some m => Some (OsError false m)
  | None => match fs_names s !! p with
            | Some (DFile _) => Some (OsError false (lit "mkdir " ++ p ++ lit ": not a directory"))
            | _ => None
            end
  end.

(** Writing through a handle: the inode's contents are replaced. *)
Definition sys_write (i : nat) (c : C) (s : fs C) : fs C :=
  mkFs (fs_names s) (<[i := c]> (fs_data s)) (fs_next s).

(** [os.Open]. *)
Definition sys_open (p : str) (fault : option str) (s : fs C) : error + dirent :=
  match fault with
  | Some m => inl (OsError false m)
  | None => match fs_names s !! p with
            | None => inl (enoent p)
            | Some d => inr d
            end
  end.

(** [os.Remove]. *)
Definition sys_remove (p : str) (fault : option str) (s : fs C) : option error * fs C :=
  match fs_names s !! p with
  | None => (Some (match fault with Some m => OsError false m | None => enoent p end), s)
  | Some _ =>
      match fault with
      | Some m => (Some (OsError false m), s)
      | None => (None, mkFs (delete p (fs_names s)) (fs_data s) (fs_next s))
      end
  end.

(** [os.Rename], atomic; a directory and a file do not replace each other. *)
Definition sys_rename (old new : str) (fault : option str) (s : fs C) : option error * fs C :=
  match fault with
  | Some m => (Some (OsError false m), s)
  | None =>
      match fs_names s !! old, fs_names s !! new with
      | None, _ => (Some (enoent old), s)
      | Some (DFile _), Some DDir => (Some (OsError false (lit "file exists")), s)
      | Some DDir, Some (DFile _) => (Some (OsError false (lit "not a directory")), s)
      | Some d, _ => (None, mkFs (<[new := d]> (delete old (fs_names s))) (fs_data s) (fs_next s))
      end
  end.

(** [os.ReadDir]: the entries of [dir], by name, with whether each is a
    directory. *)
Definition base_name (p : str) : str := default [] (last (Split p slash)).

Definition entries_of (dir : str) (s : fs C) : list (str * bool) :=
  omap (λ pd : str * dirent,
          let n := base_name pd.1 in
          if bool_decide (FilepathJoin dir n = pd.1)
          then Some (n, match pd.2 with DDir => true | DFile _ => false end)
          else None)
       (map_to_list (fs_names s)).

Definition name_le (a b : str * bool) : Prop := str_le a.1 b.1.
#[global] Instance name_le_dec : RelDecision name_le.
Proof. intros a b. unfold name_le. apply _. Defined.

Definition sys_readdir (dir : str) (fault : option str) (s : fs C) : error + list (str * bool) :=
  match fault with
  | Some m => inl (OsError false m)
  | None => inr (merge_sort name_le (entries_of dir s))
  end.

(** Inodes named in the directory have contents and are below [fs_next]. *)
Definition fs_ok s : Prop :=
  (∀ p i, fs_names s !! p = Some (DFile i) → is_Some (fs_data s !! i)) ∧
  (∀ i c, fs_data s !! i = Some c → i < fs_next s).

(** No two names share an inode: the program makes no hard links. *)
Definition fs_unshared s : Prop :=
  ∀ p q i, fs_names s !! p = Some (DFile i) → fs_names s !! q = Some (DFile i) → p = q.
End syscalls.

(** ** Facts: joining a directory and one name

    [filepath.Join(dir, name)] for a name that is one real segment appends
    it to a prefix that depends on [dir] alone. *)

Lemma span_elem_sep r name : at_sep (r ++ slash :: name) = at_sep r.
Proof. by destruct r. Qed.

Lemma span_elem_tail r rest : span_elem (r ++ slash :: rest) =
  ((span_elem r).1, (span_elem r).2 ++ slash :: rest).
Proof.
  induction r as [|c r IH]; cbn; [done|]. case_bool_decide; [done|]. rewrite IH.
  by destruct (span_elem r).
Qed.

Lemma span_elem_length c r : c ≠ slash → length (span_elem (c :: r)).2 ≤ length r.
Proof.
  intros Hc. cbn. rewrite bool_decide_false by done.
  destruct (span_elem r) as [e r'] eqn:E. cbn. clear Hc. revert e r' E.
  induction r as [|d r IH]; cbn; intros e r' E; simplify_eq/=; [done|].
  case_bool_decide; simplify_eq/=; [done|]. destruct (span_elem r) as [e1 r1].
  simplify_eq. specialize (IH e1 r' eq_refl). lia.
Qed.

(** The directory part: empty, or ending in a slash. *)
Definition dir_prefix (P : str) : Prop := P = [] ∨ ∃ P', P = P' ++ [slash].

Definition with_sep (rooted : bool) (out : str) : str :=
  if (rooted && negb (length out =? 1)) || (negb rooted && negb (length out =? 0))
  then out ++ [slash] else out.

Lemma with_sep_prefix rooted out :
  (rooted = true → ∃ o, out = slash :: o) → dir_prefix (with_sep rooted out).
Proof.
  unfold with_sep, dir_prefix. intros Hr. destruct rooted; cbn.
  - destruct (Hr eq_refl) as [o ->]. right. destruct o as [|a o]; [by exists []|].
    by exists (slash :: a :: o).
  - destruct out as [|a o]; [by left|]. right. by exists (a :: o).
Qed.

Lemma clean_loop_last_elem fuel rooted name out dd :
  real_segment name → 0 < fuel → clean_loop fuel rooted name out dd = with_sep rooted out ++ name.
Proof.
  intros Hr Hf. destruct fuel as [|fuel]; [lia|]. destruct name as [|c name]; [by destruct Hr|].
  destruct (real_segment_default c name [] Hr) as (Hc & H1 & H2). rewrite app_nil_r in H1, H2.
  cbn [clean_loop]. rewrite (bool_decide_false (c = slash)) by done. rewrite H1, H2. cbn zeta.
  fold (with_sep rooted out).
  replace (span_elem (c :: name)) with (c :: name, @nil ascii).
  - by destruct fuel.
  - rewrite <- (app_nil_r (c :: name)) at 2. symmetry.
    apply span_elem_app; [by destruct Hr as (_ & _ & _ & ?)|done].
Qed.

Lemma unwind_ge out dd w : dd ≤ w → dd ≤ unwind out dd w.
Proof.
  induction w as [|w IH]; intros H; cbn [unwind]; [lia|].
  destruct (Nat.ltb_spec dd (S w)); cbn [andb]; [|lia].
  case_bool_decide; cbn; [lia|]. apply IH. lia.
Qed.

(** What rooted paths keep: the leading slash is never unwound. *)
Definition root_ok (rooted : bool) (out : str) (dd : nat) : Prop :=
  rooted = true → (∃ o, out = slash :: o) ∧ 1 ≤ dd.

Lemma root_ok_take rooted out dd :
  root_ok rooted out dd → dd < length out →
  root_ok rooted (take (unwind out dd (length out - 1)) out) dd.
Proof.
  intros H Hlt Hr. destruct (H Hr) as [[o ->] Hdd]. split; [|done].
  pose proof (unwind_ge (slash :: o) dd (length (slash :: o) - 1) ltac:(lia)).
  destruct (unwind _ _ _); [lia|]. cbn. eauto.
Qed.

Lemma root_ok_app rooted out dd e : root_ok rooted out dd → root_ok rooted (out ++ e) dd.
Proof. intros H Hr. destruct (H Hr) as [[o ->] ?]. split; [|done]. cbn. eauto. Qed.

Lemma root_ok_with_sep rooted out dd : root_ok rooted out dd → root_ok rooted (with_sep rooted out) dd.
Proof. intros H. unfold with_sep. case_match; [by apply root_ok_app|done]. Qed.

Lemma head_tail_sep (r name : str) :
  bool_decide (head (r ++ slash :: name) = Some dot) && at_sep (tail (r ++ slash :: name)) =
  bool_decide (head r = Some dot) && at_sep (tail r).
Proof. destruct r as [|d r]; cbn [app head tail]; [done|]. by rewrite span_elem_sep. Qed.

(** Reading [rest], a slash and a last real name appends the name to a
    prefix that [rest] determines. *)
Lemma clean_loop_child n rooted rest out dd :
  root_ok rooted out dd → length rest ≤ n →
  ∃ P, dir_prefix P ∧ ∀ name fuel, real_segment name → length rest + 2 ≤ fuel →
    clean_loop fuel rooted (rest ++ slash :: name) out dd = P ++ name.
Proof.
  revert rest out dd. induction n as [|n IH]; intros rest out dd Hout Hn; destruct rest as [|c r];
    try (cbn in Hn; lia).
  1,2: exists (with_sep rooted out); split; [apply with_sep_prefix; intros; by apply Hout|];
    intros name [|[|fuel]] Hr Hf; try (cbn in Hf; lia); cbn [app];
    rewrite <- (clean_loop_last_elem (S fuel) rooted name out dd Hr) by lia; done.
  cbn [length] in Hn. destruct (decide (c = slash)) as [->|Hc].
  { destruct (IH r out dd) as (P & HP & H); [done|lia|]. exists P. split; [done|].
    intros name [|fuel] Hr Hf; [lia|]. cbn [app clean_loop]. rewrite bool_decide_true by done.
    apply H; [done|cbn in Hf; lia]. }
  enough (∃ P, dir_prefix P ∧ ∀ name fuel, real_segment name → length r + 2 ≤ fuel →
      (if bool_decide (c = dot) && at_sep r then clean_loop fuel rooted (r ++ slash :: name) out dd
       else if bool_decide (c = dot) && (bool_decide (head r = Some dot) && at_sep (tail r)) then
         if dd <? length out then
           clean_loop fuel rooted (tail r ++ slash :: name)
             (take (unwind out dd (length out - 1)) out) dd
         else if negb rooted then
           let out' := (if 0 <? length out then out ++ [slash] else out) ++ [dot; dot] in
           clean_loop fuel rooted (tail r ++ slash :: name) out' (length out')
         else clean_loop fuel rooted (tail r ++ slash :: name) out dd
       else clean_loop fuel rooted ((span_elem (c :: r)).2 ++ slash :: name)
              (with_sep rooted out ++ (span_elem (c :: r)).1) dd) = P ++ name) as (P & HP & H).
  { exists P. split; [done|]. intros name [|fuel] Hr Hf; [lia|].
    rewrite <- (H name fuel) by (done || (cbn in Hf; lia)).
    cbn [app clean_loop]. rewrite (bool_decide_false (c = slash)), span_elem_sep by done.
    rewrite <- andb_assoc, head_tail_sep.
    change (c :: r ++ slash :: name) with ((c :: r) ++ slash :: name). rewrite span_elem_tail.
    unfold with_sep. destruct (bool_decide (c = dot) && at_sep r); [done|].
    destruct (bool_decide (c = dot) && _) eqn:E; [|done]. breflect. by destruct r. }
  destruct (bool_decide (c = dot) && at_sep r); [apply IH; [done|lia]|].
  assert (length (tail r) ≤ length r) as Htl by (destruct r; cbn; lia).
  assert (∀ rest' out' dd', length rest' ≤ length r → root_ok rooted out' dd' →
    ∃ P, dir_prefix P ∧ ∀ name fuel, real_segment name → length r + 2 ≤ fuel →
      clean_loop fuel rooted (rest' ++ slash :: name) out' dd' = P ++ name) as IH'.
  { intros rest' out' dd' Hl Hro. destruct (IH rest' out' dd') as (P & HP & H); [done|lia|].
    exists P. split; [done|]. intros name fuel Hr Hf. apply H; [done|lia]. }
  destruct (bool_decide (c = dot) && _).
  - destruct (Nat.ltb_spec dd (length out)); [apply IH'; [done|by apply root_ok_take]|].
    destruct rooted; cbn [negb]; (apply IH'; [done|]); [done|by intros [=]].
  - apply IH'; [by apply span_elem_length|by apply root_ok_app, root_ok_with_sep].
Qed.

(** The path of an entry is a prefix of the directory's and the entry's name. *)
Lemma FilepathJoin_child dir :
  dir ≠ [] → ∃ P, dir_prefix P ∧ ∀ name, real_segment name → FilepathJoin dir name = P ++ name.
Proof.
  intros Hd. destruct dir as [|c d]; [done|].
  assert (∃ P, dir_prefix P ∧ ∀ name, real_segment name →
            Clean ((c :: d) ++ slash :: name) = P ++ name) as (P & HP & H).
  { destruct (decide (c = slash)) as [->|Hc].
    - destruct (clean_loop_child (length d) true d [slash] 1) as (P & HP & H).
      { intros _. split; [by exists []|lia]. }
      { done. }
      exists P. split; [done|]. intros name Hn. unfold Clean. cbn [app].
      rewrite bool_decide_true by done. rewrite H; [|done|].
      + destruct (P ++ name) eqn:E; [|done]. apply app_eq_nil in E as [_ ->]. by destruct Hn.
      + cbn [length]. rewrite length_app. cbn. lia.
    - destruct (clean_loop_child (length (c :: d)) false (c :: d) [] 0) as (P & HP & H).
      { by intros [=]. }
      { done. }
      exists P. split; [done|]. intros name Hn. unfold Clean. cbn [app].
      rewrite (bool_decide_false (c = slash)) by done.
      change (c :: d ++ slash :: name) with ((c :: d) ++ slash :: name). rewrite H; [|done|].
      + destruct (P ++ name) eqn:E; [|done]. apply app_eq_nil in E as [_ ->]. by destruct Hn.
      + rewrite length_app. destruct name; [by destruct Hn|]. cbn. lia. }
  exists P. split; [done|]. intros name Hn. rewrite <- H by done.
  unfold FilepathJoin. destruct name; [by destruct Hn|done].
Qed.

(** The last segment of such a path is the name. *)
Lemma base_name_child P name : dir_prefix P → real_segment name → base_name (P ++ name) = name.
Proof.
  intros HP (_ & _ & _ & Hs). unfold base_name.
  assert (last (Split (P ++ name) slash) = Some name) as ->; [|done].
  destruct HP as [->|[P' ->]]; [by rewrite Split_single|].
  rewrite <- app_assoc. cbn [app]. rewrite Split_app_gen, (Split_single name) by done.
  by rewrite last_app.
Qed.
