(* ===== verification/Sql.v ===== *)
(** * The SQL of internal/repository/archive.go

    The tables the service reads and the meaning of its queries:
    [folderExistsQuery], [folderTreeQuery] and [filesForFolderTreePageQuery].
    A recursive CTE is the iteration of its working table; text is ordered by
    the database's collation, a parameter. *)

From S2P Require Import Prelude GoString GoPath GoError Model.

(** ** Tables *)

Record folder_row := mkFolderRow {
  fo_folder_id : str;
  fo_parent : option str;
  fo_user_id : str;
  fo_name : str;
  fo_deleted : bool
}.

Record file_row := mkFileRow {
  fi_file_id : str;
  fi_folder_id : str;
  fi_user_id : str;
  fi_name : str;
  fi_deleted : bool
}.

Record version_row := mkVersionRow {
  ve_file_id : str;
  ve_version : Z;
  ve_hosted_at : str;
  ve_location : str;
  ve_size : Z;
  ve_hash : str
}.

Record Database := mkDatabase {
  db_folders : list folder_row;
  db_files : list file_row;
  db_versions : list version_row;
  db_servers : list StorageServer
}.

(** The order of the text type: a deterministic collation is a total order. *)
Class Collation := {
  coll_leb : str → str → bool;
  coll_refl : ∀ a, coll_leb a a = true;
  coll_trans : ∀ a b c, coll_leb a b = true → coll_leb b c = true → coll_leb a c = true;
  coll_antisym : ∀ a b, coll_leb a b = true → coll_leb b a = true → a = b;
  coll_total : ∀ a b, coll_leb a b = true ∨ coll_leb b a = true
}.

(** The "C" collation: bytewise order. *)
Definition c_collation : Collation :=
  {| coll_leb := str_leb; coll_refl := str_leb_refl; coll_trans := str_leb_trans;
     coll_antisym := str_leb_antisym; coll_total := str_leb_total |}.

(** ** folderExistsQuery *)

Definition folderExistsQuery (db : Database) (folderID : str) : bool :=
  existsb (λ f, bool_decide (fo_folder_id f = folderID) && negb (fo_deleted f)) (db_folders db).

(** ** The recursive folder_tree CTE *)

Record tree_row := mkTreeRow {
  tr_folder_id : str;
  tr_parent : option str;
  tr_user_id : str;
  tr_name : str;
  tr_path : str
}.

(** The non-recursive term. *)
Definition tree_base (db : Database) (root : str) : list tree_row :=
  (λ f, mkTreeRow (fo_folder_id f) (fo_parent f) (fo_user_id f) (fo_name f) (fo_name f))
    <$> filter (λ f, fo_folder_id f = root ∧ fo_deleted f = false) (db_folders db).

(** The recursive term over one working table. *)
Definition tree_children (db : Database) (parent : tree_row) : list tree_row :=
  (λ c, mkTreeRow (fo_folder_id c) (fo_parent c) (fo_user_id c) (fo_name c)
          (tr_path parent ++ slash :: fo_name c))
    <$> filter (λ c, fo_parent c = Some (tr_folder_id parent) ∧ fo_deleted c = false)
          (db_folders db).

Definition tree_step (db : Database) (work : list tree_row) : list tree_row :=
  work ≫= tree_children db.

(** [UNION ALL] until the working table is empty; [None] if it is still not
    empty after [fuel] rounds. *)
Fixpoint tree_iter (fuel : nat) (db : Database) (work : list tree_row) : option (list tree_row) :=
  match work with
  | [] => Some []
  | _ :: _ =>
      match fuel with
      | O => None
      | S fuel' => rest ← tree_iter fuel' db (tree_step db work); Some (work ++ rest)
      end
  end.

(** A chain of distinct live folders is no longer than the table, so this
    many rounds empty the working table of every acyclic table. *)
Definition folder_tree (db : Database) (root : str) : option (list tree_row) :=
  tree_iter (S (length (db_folders db))) db (tree_base db root).

Section queries.
Context {COL : Collation}.

(** ** folderTreeQuery *)

Definition path_le (a b : tree_row) : Prop := coll_leb (tr_path a) (tr_path b) = true.
#[export] Instance path_le_dec : RelDecision path_le.
Proof. intros a b. unfold path_le. apply _. Defined.

Definition folderTreeQuery (db : Database) (root : str) : option (list ArchiveFolder) :=
  rows ← folder_tree db root;
  Some ((λ r, mkFolder (tr_folder_id r) (tr_parent r) (tr_name r) (tr_path r))
          <$> merge_sort path_le rows).

(** ** filesForFolderTreePageQuery *)

(** [ORDER BY file_version DESC LIMIT 1] of the LATERAL subquery. *)
Fixpoint max_version (best : option version_row) (vs : list version_row) : option version_row :=
  match vs with
  | [] => best
  | v :: vs' =>
      max_version (match best with
                   | Some b => if (ve_version b <? ve_version v)%Z then Some v else best
                   | None => Some v
                   end) vs'
  end.

Definition latest_version (db : Database) (fileID : str) : option version_row :=
  max_version None (filter (λ v, ve_file_id v = fileID) (db_versions db)).

(** The rows of the "resolved" CTE for one folder of the tree. *)
Definition resolve_file (ft : tree_row) (db : Database) (f : file_row) : option ArchiveFile :=
  v ← latest_version db (fi_file_id f);
  Some (mkFile (fi_file_id f) (fi_name f) (tr_path ft ++ slash :: fi_name f)
          (ve_version v) (ve_hosted_at v) (ve_location v) (ve_size v) (ve_hash v)).

Definition resolved_in (db : Database) (ft : tree_row) : list ArchiveFile :=
  omap (resolve_file ft db)
    (filter (λ f, fi_folder_id f = tr_folder_id ft ∧ fi_user_id f = tr_user_id ft ∧
                  fi_deleted f = false) (db_files db)).

Definition resolved (db : Database) (root : str) : option (list ArchiveFile) :=
  rows ← folder_tree db root; Some (rows ≫= resolved_in db).

(** The key (archive_path, file_id); uuid order is the order of its text. *)
Definition file_key (f : ArchiveFile) : str * str := (file_ArchivePath f, file_FileID f).

Definition key_leb (a b : str * str) : bool :=
  if bool_decide (a.1 = b.1) then str_leb a.2 b.2 else coll_leb a.1 b.1.
Definition key_ltb (a b : str * str) : bool := negb (key_leb b a).

Definition file_le (a b : ArchiveFile) : Prop := key_leb (file_key a) (file_key b) = true.
#[export] Instance file_le_dec : RelDecision file_le.
Proof. intros a b. unfold file_le. apply _. Defined.

(** The cursor parameters [$2], [$3]; [None] is NULL. *)
Definition after_cursor (cursor : option (str * str)) (f : ArchiveFile) : bool :=
  match cursor with
  | None => true
  | Some k => key_ltb k (file_key f)
  end.

Definition page_of (rows : list ArchiveFile) (cursor : option (str * str)) (limit : nat)
    : list ArchiveFile :=
  take limit (merge_sort file_le (filter (λ f, after_cursor cursor f = true) rows)).

Definition filesForFolderTreePageQuery (db : Database) (root : str)
    (cursor : option (str * str)) (limit : nat) : option (list ArchiveFile) :=
  rows ← resolved db root; Some (page_of rows cursor limit).
End queries.

(** ** The folder tree as a relation *)

Definition live (f : folder_row) (db : Database) : Prop := f ∈ db_folders db ∧ fo_deleted f = false.

Definition root_row (f : folder_row) : tree_row :=
  mkTreeRow (fo_folder_id f) (fo_parent f) (fo_user_id f) (fo_name f) (fo_name f).
Definition child_row (p : tree_row) (c : folder_row) : tree_row :=
  mkTreeRow (fo_folder_id c) (fo_parent c) (fo_user_id c) (fo_name c) (tr_path p ++ slash :: fo_name c).

(** The live folders reachable from [root] through live folders, each with
    the path of names that leads to it. *)
Inductive in_tree (db : Database) (root : str) : tree_row → Prop :=
| in_tree_root f : live f db → fo_folder_id f = root → in_tree db root (root_row f)
| in_tree_child p c : in_tree db root p → live c db → fo_parent c = Some (tr_folder_id p) →
    in_tree db root (child_row p c).

(** The working table of round [n]. *)
Definition level (db : Database) (root : str) (n : nat) : list tree_row :=
  Nat.iter n (tree_step db) (tree_base db root).

Lemma elem_of_tree_base db root r :
  r ∈ tree_base db root ↔ ∃ f, live f db ∧ fo_folder_id f = root ∧ r = root_row f.
Proof.
  unfold tree_base, live. rewrite list_elem_of_fmap. setoid_rewrite list_elem_of_filter. naive_solver.
Qed.

Lemma elem_of_tree_children db p r :
  r ∈ tree_children db p ↔ ∃ c, live c db ∧ fo_parent c = Some (tr_folder_id p) ∧ r = child_row p c.
Proof.
  unfold tree_children, live. rewrite list_elem_of_fmap. setoid_rewrite list_elem_of_filter. naive_solver.
Qed.

Lemma elem_of_tree_step db work r :
  r ∈ tree_step db work ↔ ∃ p, p ∈ work ∧ r ∈ tree_children db p.
Proof. unfold tree_step. rewrite list_elem_of_bind. naive_solver. Qed.

Lemma level_S db root n : level db root (S n) = tree_step db (level db root n).
Proof. done. Qed.

Lemma in_tree_level db root r : in_tree db root r ↔ ∃ n, r ∈ level db root n.
Proof.
  split.
  - induction 1 as [f Hf Hr|p c _ [n Hp] Hc Hpar].
    + exists 0. apply elem_of_tree_base. eauto.
    + exists (S n). rewrite level_S. apply elem_of_tree_step. exists p.
      rewrite elem_of_tree_children. eauto.
  - intros [n Hn]. revert r Hn. induction n as [|n IH]; intros r Hn.
    + apply elem_of_tree_base in Hn as (f & ? & ? & ->). by constructor.
    + rewrite level_S in Hn. apply elem_of_tree_step in Hn as (p & Hp & Hr).
      apply elem_of_tree_children in Hr as (c & ? & ? & ->). constructor; auto.
Qed.

Lemma level_empty_S db root n : level db root n = [] → level db root (S n) = [].
Proof. rewrite level_S. by intros ->. Qed.

Lemma level_empty_le db root n m : level db root n = [] → n ≤ m → level db root m = [].
Proof. intros Hn. induction 1; auto using level_empty_S. Qed.

(** The iteration collects the levels up to the first empty one. *)
Lemma tree_iter_levels db root n fuel rows :
  tree_iter fuel db (level db root n) = Some rows →
  ∃ k, k ≤ fuel ∧ level db root (n + k) = [] ∧ rows = mjoin (level db root <$> seq n k).
Proof.
  revert n rows. induction fuel as [|fuel IH]; intros n rows H.
  - exists 0. cbn in H. destruct (level db root n) eqn:E; simplify_eq. by rewrite Nat.add_0_r.
  - cbn in H. destruct (level db root n) as [|r0 l0] eqn:E.
    { simplify_eq. exists 0. rewrite Nat.add_0_r. split_and!; [lia|done|done]. }
    rewrite <- E in H. change (tree_step db (level db root n)) with (level db root (S n)) in H.
    destruct (tree_iter fuel db (level db root (S n))) as [rest|] eqn:E'; cbn in H; simplify_eq.
    apply IH in E' as (k & Hk & He & ->). exists (S k).
    split_and!; [lia|by rewrite <- plus_n_Sm|]. cbn. by rewrite E.
Qed.

Lemma tree_iter_total db root n fuel :
  level db root (n + fuel) = [] → is_Some (tree_iter fuel db (level db root n)).
Proof.
  revert n. induction fuel as [|fuel IH]; intros n H; cbn.
  - rewrite Nat.add_0_r in H. by rewrite H.
  - destruct (level db root n) as [|r l] eqn:E; [done|]. rewrite <- E.
    change (tree_step db (level db root n)) with (level db root (S n)).
    destruct (IH (S n)) as [rest ->]; [by rewrite <- plus_n_Sm in H|]. done.
Qed.

Lemma folder_tree_levels db root rows :
  folder_tree db root = Some rows →
  ∃ k, level db root k = [] ∧ rows = mjoin (level db root <$> seq 0 k).
Proof. intros (k & _ & ? & ?)%(tree_iter_levels db root 0). eauto. Qed.

Lemma elem_of_levels db root k r :
  r ∈ mjoin (level db root <$> seq 0 k) ↔ ∃ n, n < k ∧ r ∈ level db root n.
Proof.
  rewrite list_elem_of_join. setoid_rewrite list_elem_of_fmap. setoid_rewrite elem_of_seq.
  split; [|naive_solver lia]. intros (l & Hr & n & -> & Hn). exists n. split; [lia|done].
Qed.

Lemma folder_tree_in_tree db root rows r :
  folder_tree db root = Some rows → r ∈ rows ↔ in_tree db root r.
Proof.
  intros (k & Hk & ->)%folder_tree_levels. rewrite elem_of_levels, in_tree_level.
  split; [naive_solver|]. intros [n Hn]. exists n. split; [|done].
  destruct (decide (n < k)); [done|]. rewrite (level_empty_le db root k n) in Hn; [set_solver|done|lia].
Qed.

(** ** Termination of the recursive query *)

Definition edge (db : Database) (x y : str) : Prop :=
  ∃ c, live c db ∧ fo_parent c = Some x ∧ fo_folder_id c = y.

Definition acyclic (db : Database) : Prop := ∀ x, ¬ tc (edge db) x x.

Lemma level_ids db root n y :
  (∃ r, r ∈ level db root n ∧ tr_folder_id r = y) ↔
  (∃ f, live f db ∧ fo_folder_id f = root) ∧ nsteps (edge db) n root y.
Proof.
  revert y. induction n as [|n IH]; intros y; split.
  - intros (r & (f & Hf & Hr & ->)%elem_of_tree_base & <-). cbn. rewrite Hr. split; [eauto|constructor].
  - intros [(f & Hf & Hr) Hs]. inversion Hs; simplify_eq. exists (root_row f).
    split; [|done]. apply elem_of_tree_base. eauto.
  - intros (r & Hr & <-). rewrite level_S in Hr. apply elem_of_tree_step in Hr as (p & Hp & Hr).
    apply elem_of_tree_children in Hr as (c & Hc & Hpar & ->).
    destruct (proj1 (IH (tr_folder_id p))) as [Hroot Hs]; [eauto|].
    split; [done|]. eapply nsteps_r; [exact Hs|]. by exists c.
  - intros [Hroot Hs]. apply nsteps_inv_r in Hs as (x & Hs & c & Hc & Hpar & <-).
    destruct (proj2 (IH x)) as (p & Hp & <-); [done|]. exists (child_row p c). split; [|done].
    rewrite level_S. apply elem_of_tree_step. exists p. rewrite elem_of_tree_children. eauto.
Qed.

(** A long walk revisits a folder. *)
Lemma walk_cycle db x n y :
  nsteps (edge db) n x y →
  (∃ i m z, nsteps (edge db) i x z ∧ 0 < m ∧ nsteps (edge db) m z z) ∨
  (∃ l, length l = S n ∧ NoDup l ∧ (∀ z, z ∈ l → ∃ i, nsteps (edge db) i x z) ∧
        (∀ z, z ∈ l → z = x ∨ z ∈ fo_folder_id <$> db_folders db)).
Proof.
  induction 1 as [x|n x x' y Hxx' Hs [(i & m & z & Hi & Hm & Hz)|(l & Hl & Hnd & Hr & Hin)]].
  - right. exists [x]. split_and!; [done|apply NoDup_singleton| |set_solver].
    intros z ->%list_elem_of_singleton. exists 0. constructor.
  - left. exists (S i), m, z. split; [by econstructor|done].
  - destruct (decide (x ∈ l)) as [Hx|Hx].
    + left. destruct (Hr x Hx) as [i Hi]. exists 0, (S i), x.
      split_and!; [constructor|lia|by econstructor].
    + right. exists (x :: l). split_and!; [by cbn; rewrite Hl|by constructor| |].
      * intros z [->|Hz]%elem_of_cons; [exists 0; constructor|].
        destruct (Hr z Hz) as [i Hi]. exists (S i). by econstructor.
      * intros z [->|Hz]%elem_of_cons; [by left|right].
        destruct (Hin z Hz) as [->|?]; [|done].
        destruct Hxx' as (c & [Hc _] & _ & <-). apply list_elem_of_fmap. eauto.
Qed.

Lemma walk_cycle_table db root n y f :
  live f db → fo_folder_id f = root → length (db_folders db) ≤ n → nsteps (edge db) n root y →
  ∃ i m z, nsteps (edge db) i root z ∧ 0 < m ∧ nsteps (edge db) m z z.
Proof.
  intros [Hf _] Hr Hn [?|(l & Hl & Hnd & _ & Hin)]%walk_cycle; [done|].
  assert (length l ≤ length (fo_folder_id <$> db_folders db)) as Hle.
  { apply submseteq_length, NoDup_submseteq; [done|]. intros z [->|?]%Hin; [|done].
    rewrite <- Hr. apply list_elem_of_fmap. eauto. }
  rewrite length_fmap in Hle. lia.
Qed.

Lemma walk_repeat (R : relation str) m z k : nsteps R m z z → nsteps R (k * m) z z.
Proof. intros Hm. induction k; cbn; [constructor|]. by eapply nsteps_trans. Qed.

(** A working table that outlives the table size never becomes empty. *)
Lemma level_forever db root n :
  length (db_folders db) ≤ n → level db root n ≠ [] → ∀ k, level db root k ≠ [].
Proof.
  intros Hn Hne k Hk. destruct (level db root n) as [|r l] eqn:E; [done|].
  destruct (proj1 (level_ids db root n (tr_folder_id r))) as [(f & Hf & Hr) Hs].
  { exists r. rewrite E. split; [left|done]. }
  destruct (walk_cycle_table db root n _ f Hf Hr Hn Hs) as (i & m & z & Hi & Hm & Hz).
  destruct (proj2 (level_ids db root (i + k * m) z)) as (r' & Hr' & _).
  { split; [eauto|]. eapply nsteps_trans; [exact Hi|]. by apply walk_repeat. }
  rewrite (level_empty_le db root k) in Hr'; [set_solver|done|]. nia.
Qed.

Lemma tree_iter_mono fuel fuel' db work rows :
  tree_iter fuel db work = Some rows → fuel ≤ fuel' → tree_iter fuel' db work = Some rows.
Proof.
  revert fuel' work rows. induction fuel as [|fuel IH]; intros fuel' work rows H Hle.
  - destruct work; cbn in H; simplify_eq. by destruct fuel'.
  - destruct fuel' as [|fuel']; [lia|]. destruct work as [|r work]; [done|].
    cbn in H |- *. destruct (tree_iter fuel db _) as [rest|] eqn:E; cbn in H; simplify_eq.
    erewrite IH; [done|exact E|lia].
Qed.

Lemma folder_tree_ends db root fuel rows :
  tree_iter fuel db (tree_base db root) = Some rows → folder_tree db root = Some rows.
Proof.
  intros H. destruct (tree_iter_levels db root 0 fuel rows H) as (k & _ & Hk & _).
  destruct (tree_iter_total db root 0 (S (length (db_folders db)))) as [rows' Hr'].
  { cbn [Nat.add]. destruct (level db root (S (length (db_folders db)))) as [|r l] eqn:E; [done|]. exfalso.
    apply (level_forever db root (S (length (db_folders db)))) with (k := k); [lia|by rewrite E|done]. }
  change (level db root 0) with (tree_base db root) in *. unfold folder_tree. rewrite Hr'.
  apply (tree_iter_mono _ (fuel + S (length (db_folders db)))) in H; [|lia].
  apply (tree_iter_mono _ (fuel + S (length (db_folders db)))) in Hr'; [|lia]. congruence.
Qed.

Lemma folder_tree_acyclic db root : acyclic db → is_Some (folder_tree db root).
Proof.
  intros Hac. apply (tree_iter_total db root 0). cbn [Nat.add].
  destruct (level db root (S (length (db_folders db)))) as [|r l] eqn:E; [done|]. exfalso.
  destruct (proj1 (level_ids db root (S (length (db_folders db))) (tr_folder_id r)))
    as [(f & Hf & Hr) Hs]; [exists r; rewrite E; split; [left|done]|].
  destruct (walk_cycle_table db root _ _ f Hf Hr (Nat.le_succ_diag_r _) Hs) as (i & m & z & _ & Hm & Hz).
  apply (Hac z). apply tc_nsteps; eauto.
Qed.

(** ** Primary keys: every folder and every file is listed once *)

Record primary_keys (db : Database) : Prop := {
  pk_folders : NoDup (fo_folder_id <$> db_folders db);
  pk_files : NoDup (fi_file_id <$> db_files db)
}.

Section keys.
Context (db : Database) (PK : primary_keys db).

Lemma live_inj c d : live c db → live d db → fo_folder_id c = fo_folder_id d → c = d.
Proof. intros [Hc _] [Hd _]. by apply (NoDup_key_inj _ _ _ _ (pk_folders _ PK)). Qed.

Lemma edge_inj x x' y : edge db x y → edge db x' y → x = x'.
Proof.
  intros (c & Hc & Hpc & <-) (d & Hd & Hpd & Hi). apply live_inj in Hi as ->; [|done..]. congruence.
Qed.

Lemma walk_back n d x y z :
  nsteps (edge db) n x y → nsteps (edge db) (d + n) z y → nsteps (edge db) d z x.
Proof.
  revert y. induction n as [|n IH]; intros y Hx Hz.
  - inversion Hx; subst. by rewrite Nat.add_0_r in Hz.
  - rewrite <- plus_n_Sm in Hz. apply nsteps_inv_r in Hx as (x' & Hx & E1).
    apply nsteps_inv_r in Hz as (z' & Hz & E2). rewrite (edge_inj z' x' y) in Hz by done. eauto.
Qed.

Lemma level_NoDup root n : NoDup (tr_folder_id <$> level db root n).
Proof.
  assert (∀ (P : folder_row → Prop) `{∀ x, Decision (P x)} g, (∀ f, tr_folder_id (g f) = fo_folder_id f) →
    NoDup (tr_folder_id <$> (g <$> filter P (db_folders db)))) as Hrows.
  { intros P ? g Hg. rewrite <- list_fmap_compose. rewrite (list_fmap_ext _ fo_folder_id) by (intros; apply Hg).
    apply NoDup_key_filter, PK. }
  induction n as [|n IH]; [by apply Hrows|]. rewrite level_S. unfold tree_step.
  apply NoDup_bind_keys; [by eapply NoDup_fmap_1|intros; by apply Hrows|].
  intros p q a b Hp Hq (c & Hc & Hpc & ->)%elem_of_tree_children (d & Hd & Hpd & ->)%elem_of_tree_children E.
  cbn in E. apply live_inj in E as ->; [|done..]. apply (NoDup_key_inj tr_folder_id _ _ _ IH Hp Hq).
  congruence.
Qed.

(** The levels of a finite tree are disjoint. *)
Lemma levels_disjoint root k n m a b :
  level db root k = [] → a ∈ level db root n → b ∈ level db root m →
  tr_folder_id a = tr_folder_id b → n = m.
Proof.
  assert (∀ n d a b, level db root k = [] → a ∈ level db root n → b ∈ level db root (S d + n) →
    tr_folder_id a = tr_folder_id b → False) as Hlt.
  { clear n m a b. intros n d a b Hk Ha Hb E.
    destruct (proj1 (level_ids db root n (tr_folder_id a))) as [Hroot Hsa]; [eauto|].
    destruct (proj1 (level_ids db root (S d + n) (tr_folder_id a))) as [_ Hsb]; [eauto|].
    pose proof (walk_repeat _ _ _ k (walk_back n (S d) _ _ _ Hsa Hsb)) as Hr.
    destruct (proj2 (level_ids db root (k * S d) root)) as (r & Hr' & _); [done|].
    rewrite (level_empty_le db root k) in Hr'; [set_solver|done|nia]. }
  intros Hk Ha Hb E. destruct (lt_eq_lt_dec n m) as [[?|?]|?]; [exfalso|done|exfalso].
  - apply (Hlt n (m - S n) a b); [done|done| |done]. by replace (S (m - S n) + n) with m by lia.
  - apply (Hlt m (n - S m) b a); [done|done| |done]. by replace (S (n - S m) + m) with n by lia.
Qed.

Lemma folder_tree_NoDup root rows :
  folder_tree db root = Some rows → NoDup (tr_folder_id <$> rows).
Proof.
  intros (k & Hk & ->)%folder_tree_levels.
  assert (mjoin (level db root <$> seq 0 k) = (seq 0 k ≫= level db root)) as ->.
  { induction (seq 0 k) as [|n l IH]; [done|].
    change (level db root n ++ mjoin (level db root <$> l) = level db root n ++ (l ≫= level db root)).
    by rewrite IH. }
  apply NoDup_bind_keys; [apply NoDup_seq|intros; apply level_NoDup|].
  intros n m a b _ _. by apply levels_disjoint with (k := k).
Qed.
End keys.

(** ** The latest version *)

Lemma max_version_spec vs best v :
  max_version best vs = Some v →
  (best = Some v ∨ v ∈ vs) ∧ (∀ b, best = Some b → ve_version b <= ve_version v)%Z ∧
  (∀ u, u ∈ vs → ve_version u <= ve_version v)%Z.
Proof.
  revert best. induction vs as [|u vs IH]; intros best H; cbn in H.
  { simplify_eq. split_and!; [by left| |set_solver]. intros b [= ->]. lia. }
  apply IH in H as (Hin & Hb & Hvs). destruct best as [b|].
  - destruct (Z.ltb_spec (ve_version b) (ve_version u)) as [Hlt|Hge].
    + specialize (Hb u eq_refl). split_and!.
      * right. destruct Hin as [[= ->]|?]; [left|by right].
      * intros ? [= <-]. lia.
      * intros x [->|Hx]%elem_of_cons; [lia|auto].
    + specialize (Hb b eq_refl). split_and!.
      * destruct Hin as [?|?]; [by left|by right; right].
      * intros ? [= <-]. lia.
      * intros x [->|Hx]%elem_of_cons; [lia|auto].
  - specialize (Hb u eq_refl). split_and!; [|done|].
    + right. destruct Hin as [[= ->]|?]; [left|by right].
    + intros x [->|Hx]%elem_of_cons; [lia|auto].
Qed.

Lemma max_version_is_Some vs best : is_Some best ∨ vs ≠ [] → is_Some (max_version best vs).
Proof.
  revert best. induction vs as [|u vs IH]; intros best H; cbn; [destruct H; done|].
  apply IH. left. destruct best; [case_match|]; eauto.
Qed.

(** [v] is a version of [fileID] and none has a higher number. *)
Definition is_latest (db : Database) (fileID : str) (v : version_row) : Prop :=
  v ∈ db_versions db ∧ ve_file_id v = fileID ∧
  ∀ u, u ∈ db_versions db → ve_file_id u = fileID → (ve_version u <= ve_version v)%Z.

Lemma latest_version_Some db fileID v : latest_version db fileID = Some v → is_latest db fileID v.
Proof.
  intros (Hin & _ & Hmax)%max_version_spec. destruct Hin as [|[? ?]%list_elem_of_filter]; [done|].
  split_and!; [done..|]. intros u Hu Hi. apply Hmax, list_elem_of_filter. done.
Qed.

Lemma latest_version_None db fileID v :
  latest_version db fileID = None → v ∈ db_versions db → ve_file_id v ≠ fileID.
Proof.
  intros H Hv Hi. unfold latest_version in H.
  destruct (max_version_is_Some (filter (λ v, ve_file_id v = fileID) (db_versions db)) None) as [? E];
    [|congruence].
  right. intros E. assert (v ∈ filter (λ v, ve_file_id v = fileID) (db_versions db)) as Hf
    by (by apply list_elem_of_filter). rewrite E in Hf. set_solver.
Qed.

(** ** The files of the tree *)

(** [f] is the file [fi] in folder [ft] at its latest version [v]. *)
Definition file_at (ft : tree_row) (fi : file_row) (v : version_row) : ArchiveFile :=
  mkFile (fi_file_id fi) (fi_name fi) (tr_path ft ++ slash :: fi_name fi)
    (ve_version v) (ve_hosted_at v) (ve_location v) (ve_size v) (ve_hash v).

Lemma elem_of_resolved_in db ft f :
  f ∈ resolved_in db ft ↔ ∃ fi v, f = file_at ft fi v ∧ fi ∈ db_files db ∧
    fi_folder_id fi = tr_folder_id ft ∧ fi_user_id fi = tr_user_id ft ∧ fi_deleted fi = false ∧
    latest_version db (fi_file_id fi) = Some v.
Proof.
  unfold resolved_in. rewrite list_elem_of_omap. setoid_rewrite list_elem_of_filter.
  unfold resolve_file. split.
  - intros (fi & ((? & ? & ?) & ?) & Hf). destruct (latest_version _ _) as [v|] eqn:E; [|done].
    cbn in Hf. simplify_eq. exists fi, v. done.
  - intros (fi & v & -> & ? & ? & ? & ? & E). exists fi. rewrite E. done.
Qed.

Lemma resolved_NoDup db root rows :
  primary_keys db → resolved db root = Some rows → NoDup (file_FileID <$> rows).
Proof.
  intros PK Hres. unfold resolved in Hres. destruct (folder_tree db root) as [ts|] eqn:E; [|done].
  cbn in Hres. simplify_eq. pose proof (folder_tree_NoDup db PK root ts E) as Hts.
  apply NoDup_bind_keys; [by eapply NoDup_fmap_1| |].
  - intros ft _. unfold resolved_in. pose proof (pk_files db PK) as Hf.
    apply (NoDup_key_filter _ (λ f, fi_folder_id f = tr_folder_id ft ∧ fi_user_id f = tr_user_id ft ∧
      fi_deleted f = false)) in Hf. revert Hf. generalize (filter (λ f, fi_folder_id f = tr_folder_id ft ∧
      fi_user_id f = tr_user_id ft ∧ fi_deleted f = false) (db_files db)) as l.
    induction l as [|fi l IH]; [constructor|]. rewrite fmap_cons. intros [Hn Hl]%NoDup_cons.
    cbn [omap list_omap]. unfold resolve_file at 1. destruct (latest_version db _) as [v|]; cbn [mbind option_bind]; [|auto].
    rewrite fmap_cons. constructor; [|by apply IH]. cbn [file_FileID].
    intros (f & Hf & (fi' & Hfi' & Hr)%list_elem_of_omap)%list_elem_of_fmap. apply Hn.
    unfold resolve_file in Hr. destruct (latest_version db (fi_file_id fi')); [|done]. cbn in Hr. simplify_eq/=.
    rewrite Hf. by apply list_elem_of_fmap_2.
  - intros x y a b Hx Hy (fi & v & -> & Hfi & Hix & _)%elem_of_resolved_in
      (fj & u & -> & Hfj & Hjy & _)%elem_of_resolved_in Hid. cbn in Hid.
    apply (NoDup_key_inj _ _ _ _ (pk_files db PK)) in Hid as ->; [|done..].
    apply (NoDup_key_inj _ _ _ _ Hts); [done..|congruence].
Qed.

(** ** Keyset pages *)

Section pages.
Context {COL : Collation}.

Lemma key_leb_refl a : key_leb a a = true.
Proof. unfold key_leb. rewrite bool_decide_true by done. apply str_leb_refl. Qed.

Lemma key_leb_trans a b c : key_leb a b = true → key_leb b c = true → key_leb a c = true.
Proof.
  unfold key_leb. intros Hab Hbc. do 2 case_bool_decide; case_bool_decide; try congruence.
  - by eapply str_leb_trans.
  - exfalso. assert (a.1 = b.1); [|done]. apply coll_antisym; [done|]. congruence.
  - by eapply coll_trans.
Qed.

Lemma key_leb_antisym a b : key_leb a b = true → key_leb b a = true → a = b.
Proof.
  destruct a as [a1 a2], b as [b1 b2]. unfold key_leb. cbn. intros Hab Hba.
  do 2 case_bool_decide; try congruence.
  - f_equal; [done|]. by apply str_leb_antisym.
  - exfalso. assert (a1 = b1); [|done]. by apply coll_antisym.
Qed.

Lemma key_leb_total a b : key_leb a b = true ∨ key_leb b a = true.
Proof.
  unfold key_leb. do 2 case_bool_decide; try congruence; [apply str_leb_total|apply coll_total].
Qed.

#[local] Instance file_le_trans : Transitive file_le.
Proof. intros a b c. apply key_leb_trans. Qed.
#[local] Instance file_le_total : Total file_le.
Proof. intros a b. apply key_leb_total. Qed.

(** [a] comes strictly before [b]. *)
Definition file_lt (a b : ArchiveFile) : Prop := key_ltb (file_key a) (file_key b) = true.

Lemma file_lt_iff a b : file_lt a b ↔ file_le a b ∧ file_key a ≠ file_key b.
Proof.
  unfold file_lt, file_le, key_ltb. rewrite negb_true_iff. split.
  - intros Hba. destruct (key_leb_total (file_key a) (file_key b)) as [?|?]; [|congruence].
    split; [done|]. intros E. rewrite E, key_leb_refl in Hba. done.
  - intros [Hab Hne]. destruct (key_leb (file_key b) (file_key a)) eqn:E; [|done].
    exfalso. by apply Hne, key_leb_antisym.
Qed.

Lemma file_lt_not_le a b : file_lt a b ↔ ¬ file_le b a.
Proof. unfold file_lt, file_le, key_ltb. rewrite negb_true_iff. by rewrite not_true_iff_false. Qed.

(** All the rows, in the order of the key. *)
Definition in_order (rows : list ArchiveFile) : list ArchiveFile := merge_sort file_le rows.

Lemma in_order_strict rows :
  NoDup (file_FileID <$> rows) → StronglySorted file_lt (in_order rows).
Proof.
  intros Hnd. assert (StronglySorted file_le (in_order rows)) as Hs
    by (apply Sorted_StronglySorted; [apply _|apply Sorted_merge_sort, _]).
  assert (NoDup (file_FileID <$> in_order rows)) as Hn.
  { unfold in_order. by rewrite merge_sort_Permutation. }
  induction Hs as [|f l Hs IH Hf]; [constructor|]. rewrite fmap_cons in Hn.
  apply NoDup_cons in Hn as [Hn1 Hn2]. constructor; [auto|].
  rewrite Forall_forall in Hf |- *. intros g Hg. apply file_lt_iff. split; [auto|].
  intros E. apply Hn1. replace (file_FileID f) with (file_FileID g) by (unfold file_key in E; congruence).
  by apply list_elem_of_fmap_2.
Qed.

Lemma filter_in_order rows (P : ArchiveFile → Prop) `{!∀ f, Decision (P f)} :
  NoDup (file_FileID <$> rows) → in_order (filter P rows) = filter P (in_order rows).
Proof.
  intros Hnd. apply (StronglySorted_unique_strong file_lt).
  - intros a b _ _ Hab Hba. apply file_lt_iff in Hab as [Hab _]. by apply file_lt_not_le in Hba.
  - apply in_order_strict. by apply NoDup_key_filter.
  - pose proof (in_order_strict rows Hnd) as Hs. induction Hs as [|f l Hs IH Hf]; [constructor|].
    rewrite filter_cons. case_decide; [|done]. constructor; [done|].
    rewrite Forall_forall in Hf |- *. intros g [_ Hg]%list_elem_of_filter. auto.
  - unfold in_order. by rewrite !merge_sort_Permutation.
Qed.

(** The page after the last of [done] is the beginning of the rest. *)
Lemma page_of_rest rows xs f rest limit :
  NoDup (file_FileID <$> rows) → in_order rows = xs ++ f :: rest →
  page_of rows (Some (file_key f)) limit = take limit rest.
Proof.
  intros Hnd E. unfold page_of. fold (in_order (filter (λ g, after_cursor (Some (file_key f)) g = true) rows)).
  rewrite filter_in_order, E by done. f_equal.
  pose proof (in_order_strict rows Hnd) as Hs. rewrite E in Hs.
  apply StronglySorted_app in Hs as (Hx & _ & Hs). apply StronglySorted_cons in Hs as [Hr _].
  rewrite filter_app, filter_cons. rewrite decide_False.
  2:{ cbn. unfold key_ltb. by rewrite key_leb_refl. }
  rewrite (list_filter_all _ rest).
  2:{ exact Hr. }
  rewrite list_filter_none; [done|]. apply Forall_forall. intros g Hg Hlt.
  assert (file_lt g f) as [Hle _]%file_lt_iff by (apply Hx; [done|left]).
  by apply (proj1 (file_lt_not_le f g)) in Hlt.
Qed.

Lemma page_of_first rows limit : page_of rows None limit = take limit (in_order rows).
Proof.
  unfold page_of. f_equal. unfold in_order. f_equal. apply list_filter_all. by apply Forall_true.
Qed.
End pages.
