(* ===== verification/World.v ===== *)
(** * The process state and its environment

    [World] is what the goroutines of one process share; [Env] is everything
    outside it (clock, randomness, kernel, database, storage servers), read
    at a moment that [w_tick] counts, so that every run is deterministic in
    its environment and a theorem for all [Env] covers every behaviour of
    the outside. *)

From S2P Require Import Prelude GoString GoError GoConv Model Prog JobStore Token FS Sql.

(** ** Archive containers on disk

    A container is modelled as the entries written to it so far and whether
    its trailer has been written; the bytes of the ZIP and TAR encodings are
    not modelled. *)

Inductive archive_entry :=
| FileEntry (name data : str)
| DirEntry (name : str).

#[global] Instance archive_entry_eq_dec : EqDecision archive_entry.
Proof. solve_decision. Defined.

Record image := mkImage {
  img_type : ExportType;
  img_entries : list archive_entry;
  img_closed : bool
}.

Definition empty_image : image := mkImage [] [] false.

(** ** HTTP to the storage servers *)

Record http_request := mkHttpRequest {
  hr_url : str;                       (* the URL before its query string *)
  hr_RawQuery : str;
  hr_Header : list (str * str)
}.

(** A response body delivers [rs_body] and then ends, or fails with
    [rs_body_err].  A body that never ends, which no timeout of the client cuts
    off, is not represented. *)
Record http_response := mkHttpResponse {
  rs_status : Z;
  rs_body : str;
  rs_body_err : option error
}.

(** ** Environment *)

(** How one database query went. *)
Inductive query_outcome :=
| QueryOk
| QueryFails (e : error)
| ScanFails (i : nat) (e : error)       (* the i-th row cannot be scanned *)
| RowsFail (i : nat) (e : error).       (* iteration breaks off after i rows *)

Class Env := {
  env_now : nat → time;
  env_rand : nat → error + str;                 (* crypto/rand.Read of 32 bytes *)
  env_uuid : nat → str;                         (* uuid.NewString *)
  env_fault : nat → option str;                 (* a failing system call *)
  env_short_write : nat → option (nat * str);   (* bytes written before a write fails *)
  env_db : nat → Database;
  env_query : nat → query_outcome;
  env_runaway : nat → error;                    (* how the server ends a recursion that has no end *)
  env_http : nat → http_request → error + http_response;
  env_url : str → error + (str * str);          (* url.Parse: what URL.String prints before
                                                   the query and the fragment, and RawQuery *)
  env_request_error : http_request → option error; (* http.NewRequestWithContext *)
  env_ctx : nat → option error;                 (* a cancelled request context *)
  env_select : nat → bool;                      (* which of two ready cases a select takes *)
  env_bytes : image → str;                      (* the bytes archive/zip and archive/tar write *)
  env_dir_end : option Z;                       (* seeking to the end of a directory *)
  env_http_time : str → option time;            (* http.ParseTime *)
  env_http_date : time → str;                   (* Time.Format(http.TimeFormat) *)
  env_boundary : nat → str                      (* mime/multipart's random boundary *)
}.

(** [context.Background()] never ends; a request's context may.  The main
    program's shutdown context is the flag [w_shutdown]. *)
Inductive context := Background | RequestContext.

(** ** State *)

(** What the main goroutine did, in order. *)
Inductive resource := LogOutput | SignalHandler | DatabasePool | PingContext | ShutdownContext | TimeoutContext.

Inductive wait_case := WorkersDone | CleanupDone | ServerIdle | DeadlineExceeded.

Inductive main_event :=
| Acquired (r : resource)
| Released (r : resource)                    (* a deferred call *)
| StartedWorkers (n : nat)
| StartedCleanup
| Listening (addr : str)
| Waited (c : wait_case)                     (* the case a wait of [shutdown] ended with *)
| Exited (status : Z)
| LogLine (level msg : str).

#[global] Instance resource_eq_dec : EqDecision resource.
Proof. solve_decision. Defined.
#[global] Instance wait_case_eq_dec : EqDecision wait_case.
Proof. solve_decision. Defined.
#[global] Instance main_event_eq_dec : EqDecision main_event.
Proof. solve_decision. Defined.

(** The main program's handles on its goroutines. *)
Record lifecycle := mkLifecycle {
  lf_shutdown : bool;             (* shutdownCtx is done *)
  lf_workers : nat;               (* Pool.wg *)
  lf_cleanup_done : bool;         (* cleanupDone is closed *)
  lf_trace : list main_event
}.

Record World := mkWorld {
  w_jobs : gmap str Job;          (* job.MemoryStore *)
  w_tokens : gmap str entry;      (* token.InMemoryService *)
  w_fs : fs image;                (* the archive directory *)
  w_queue : list str;             (* ArchiveService.queue *)
  w_accepting : bool;             (* ArchiveService.accepting *)
  w_life : lifecycle;
  w_tick : nat
}.

Definition set_jobs (v : gmap str Job) (w : World) : World :=
  mkWorld v (w_tokens w) (w_fs w) (w_queue w) (w_accepting w) (w_life w) (w_tick w).
Definition set_tokens (v : gmap str entry) (w : World) : World :=
  mkWorld (w_jobs w) v (w_fs w) (w_queue w) (w_accepting w) (w_life w) (w_tick w).
Definition set_fs (v : fs image) (w : World) : World :=
  mkWorld (w_jobs w) (w_tokens w) v (w_queue w) (w_accepting w) (w_life w) (w_tick w).
Definition set_queue (v : list str) (w : World) : World :=
  mkWorld (w_jobs w) (w_tokens w) (w_fs w) v (w_accepting w) (w_life w) (w_tick w).
Definition set_accepting (v : bool) (w : World) : World :=
  mkWorld (w_jobs w) (w_tokens w) (w_fs w) (w_queue w) v (w_life w) (w_tick w).
Definition set_life (v : lifecycle) (w : World) : World :=
  mkWorld (w_jobs w) (w_tokens w) (w_fs w) (w_queue w) (w_accepting w) v (w_tick w).
Definition tick (w : World) : World :=
  mkWorld (w_jobs w) (w_tokens w) (w_fs w) (w_queue w) (w_accepting w) (w_life w) (S (w_tick w)).

Definition w_shutdown (w : World) : bool := lf_shutdown (w_life w).
Definition w_workers (w : World) : nat := lf_workers (w_life w).
Definition w_cleanup_done (w : World) : bool := lf_cleanup_done (w_life w).
Definition w_trace (w : World) : list main_event := lf_trace (w_life w).

Definition set_shutdown (v : bool) (w : World) : World :=
  set_life (mkLifecycle v (w_workers w) (w_cleanup_done w) (w_trace w)) w.
Definition set_workers (v : nat) (w : World) : World :=
  set_life (mkLifecycle (w_shutdown w) v (w_cleanup_done w) (w_trace w)) w.
Definition set_cleanup_done (v : bool) (w : World) : World :=
  set_life (mkLifecycle (w_shutdown w) (w_workers w) v (w_trace w)) w.
Definition add_event (e : main_event) (w : World) : World :=
  set_life (mkLifecycle (w_shutdown w) (w_workers w) (w_cleanup_done w) (w_trace w ++ [e])) w.

Section actions.
Context {ENV : Env}.

(** Reading the environment takes one tick. *)
Definition observe {X} (f : nat → X) : prog World X :=
  atomic (λ w, (f (w_tick w), tick w)).

(** [time.Now().UTC()]. *)
Definition Now : prog World time := observe env_now.

(** One critical section of the job store; of the token service. *)
Definition with_jobs {X} (f : gmap str Job → X * gmap str Job) : prog World X :=
  atomic (λ w, let '(x, m) := f (w_jobs w) in (x, set_jobs m w)).
Definition with_tokens {X} (f : nat → gmap str entry → X * gmap str entry) : prog World X :=
  atomic (λ w, let '(x, m) := f (w_tick w) (w_tokens w) in (x, set_tokens m (tick w))).

(** One system call, with the kernel's verdict. *)
Definition syscall {X} (f : option str → fs image → X * fs image) : prog World X :=
  atomic (λ w, let '(x, s) := f (env_fault (w_tick w)) (w_fs w) in (x, set_fs s (tick w))).

(** [ctx.Err()]. *)
Definition ctx_Err (ctx : context) : prog World (option error) :=
  match ctx with
  | Background => Ret None
  | RequestContext => observe env_ctx
  end.

(** [pool.Query]: the rows, each scanned or not, and [rows.Err()].  The
    recursion of a query over a cyclic table has no end of its own and no
    statement timeout is set: it goes on until the server stops it, out of disk
    space, at a limit of its configuration or cancelled by an operator. *)
Definition query {R} (sem : Database → option (list R))
    : prog World (error + (list (error + R) * option error)) :=
  observe (λ t,
    match env_query t, sem (env_db t) with
    | QueryFails e, _ => inl e
    | _, None => inl (env_runaway t)
    | QueryOk, Some rows => inr (map inr rows, None)
    | ScanFails i e, Some rows => inr (<[i := inl e]> (map inr rows), None)
    | RowsFail i e, Some rows => inr (map inr (take i rows), Some e)
    end).
End actions.

Lemma run_observe {X} (f : nat → X) w : run (observe f) w = (f (w_tick w), tick w).
Proof. unfold observe. by rewrite run_atomic. Qed.

Lemma run_Now {ENV : Env} w : run Now w = (env_now (w_tick w), tick w).
Proof. apply run_observe. Qed.

(** A program that only observes: none of its actions changes the state. *)
Fixpoint observer {A} (p : prog World A) : Prop :=
  match p with
  | Ret _ => True
  | Atomic f k => ∀ w, ((f w).2 = w ∨ (f w).2 = tick w) ∧ observer (k (f w).1)
  end.

Lemma observer_Ret {A} (a : A) : observer (Ret a).
Proof. done. Qed.

Lemma observer_observe {X} (f : nat → X) : observer (observe f).
Proof. intros w. cbn. auto. Qed.

Lemma observer_bind {A B} (p : prog World A) (k : A → prog World B) :
  observer p → (∀ a, observer (k a)) → observer (p ≫= k).
Proof.
  intros Hp Hk. induction p as [a|X f k' IH]; cbn in *; [auto|]. intros w.
  destruct (Hp w) as [? ?]. split; [done|]. by apply IH.
Qed.

Lemma observer_try {E A B} (p : prog World (E + A)) (k : A → prog World (E + B)) :
  observer p → (∀ a, observer (k a)) → observer (try p k).
Proof. intros Hp Hk. apply observer_bind; [done|]. intros [e|a]; [apply observer_Ret|apply Hk]. Qed.

#[export] Hint Resolve observer_Ret observer_observe observer_bind observer_try : go.

Lemma observer_run {A} (p : prog World A) : observer p → ∀ w, ∃ n, (run p w).2 = Nat.iter n tick w.
Proof.
  induction p as [a|X f k IH]; intros Hp w; [by exists 0|]. cbn in Hp |- *.
  destruct (Hp w) as [Hs Hk]. destruct (f w) as [x w'] eqn:E. cbn in *.
  destruct (IH x Hk w') as [n ->]. destruct Hs as [->| ->]; [by exists n|].
  exists (S n). by rewrite Nat.iter_succ_r.
Qed.

(** Only the clock moved. *)
Definition same_state (w w' : World) : Prop :=
  w_jobs w' = w_jobs w ∧ w_tokens w' = w_tokens w ∧ w_fs w' = w_fs w ∧ w_queue w' = w_queue w ∧
  w_accepting w' = w_accepting w ∧ w_life w' = w_life w.

#[export] Instance same_state_preorder : PreOrder same_state.
Proof.
  split; [by intros w|]. intros w1 w2 w3 (?&?&?&?&?&?) (?&?&?&?&?&?). split_and!; congruence.
Qed.

Lemma same_state_iter n w : same_state w (Nat.iter n tick w).
Proof. induction n as [|n IH]; [done|]. by etransitivity; [exact IH|]. Qed.

Lemma run_observer {A} (p : prog World A) w :
  observer p → ∃ a w', run p w = (a, w') ∧ same_state w w'.
Proof.
  intros Hp. destruct (observer_run p Hp w) as [n Hn]. destruct (run p w) as [a w']. cbn in Hn. subst w'.
  eexists _, _. split; [done|]. apply same_state_iter.
Qed.

(** A program none of whose actions changes the state, whatever happens in
    between. *)
Fixpoint reader {A} (p : prog World A) : Prop :=
  match p with
  | Ret _ => True
  | Atomic f k => ∀ w, same_state w (f w).2 ∧ reader (k (f w).1)
  end.

Lemma reader_bind {A B} (p : prog World A) (k : A → prog World B) :
  reader p → (∀ a, reader (k a)) → reader (p ≫= k).
Proof.
  intros Hp Hk. induction p as [a|X f k' IH]; cbn in *; [auto|]. intros w.
  destruct (Hp w) as [? ?]. split; [done|]. by apply IH.
Qed.

Lemma reader_observe {X} (f : nat → X) : reader (observe f).
Proof. intros w. done. Qed.

Lemma observer_reader {A} (p : prog World A) : observer p → reader p.
Proof.
  induction p as [a|X f k IH]; cbn; [done|]. intros Hp w.
  destruct (Hp w) as [[->| ->] Hk]; split; auto; done.
Qed.

Lemma reader_run {A} (p : prog World A) w : reader p → same_state w (run p w).2.
Proof.
  revert w. induction p as [a|X f k IH]; cbn; intros w Hp; [done|].
  destruct (Hp w) as [Hs Hk]. destruct (f w) as [x w']. etransitivity; [exact Hs|]. by apply IH.
Qed.

Lemma reader_safe {A} (Inv : World → Prop) (p : prog World A) :
  (∀ w w', Inv w → same_state w w' → Inv w') → reader p → safe_post Inv (λ _, True) p.
Proof.
  intros HI. induction p as [a|X f k IH]; cbn; [done|]. intros Hp w Hw.
  destruct (Hp w) as [Hs Hk]. split; [by eapply HI|by apply IH].
Qed.

(** Only the archive directory and the clock moved. *)
Definition same_but_fs (w w' : World) : Prop :=
  w_jobs w' = w_jobs w ∧ w_tokens w' = w_tokens w ∧ w_queue w' = w_queue w ∧
  w_accepting w' = w_accepting w ∧ w_life w' = w_life w.

(** An invariant that does not look at the archive directory. *)
Definition ignores_fs (Inv : World → Prop) : Prop := ∀ w w', Inv w → same_but_fs w w' → Inv w'.

Section safety.
Context {ENV : Env} (Inv : World → Prop) (HI : ignores_fs Inv).

Lemma observe_safe {X} (f : nat → X) : safe_post Inv (λ _, True) (observe f).
Proof using HI. apply safe_post_atomic. intros w Hw. split; [|done]. by apply (HI w). Qed.

Lemma syscall_safe {X} (f : option str → fs image → X * fs image) :
  safe_post Inv (λ _, True) (syscall f).
Proof using HI.
  apply safe_post_atomic. intros w Hw. destruct (f _ _). split; [|done]. by apply (HI w).
Qed.

Lemma observer_safe {A} (p : prog World A) : observer p → safe_post Inv (λ _, True) p.
Proof using HI.
  induction p as [a|X f k IH]; intros Hp; cbn in *; [done|]. intros w Hw.
  destruct (Hp w) as [[->| ->] ?]; split; auto. by apply (HI w).
Qed.

Lemma ctx_Err_safe ctx : safe_post Inv (λ _, True) (ctx_Err ctx).
Proof using HI. destruct ctx; [done|apply observe_safe]. Qed.
End safety.

(** The same, with a guarantee that allows the disk and the clock to move. *)
Section guarantee.
Context {ENV : Env} (Inv : World → Prop) (HI : ignores_fs Inv).
Context (G : World → World → Prop) (HG : ∀ w w', same_but_fs w w' → G w w').

Lemma observe_guar {X} (f : nat → X) : guar Inv G (λ _, True) (observe f).
Proof using HI HG. apply guar_atomic. intros w Hw. split_and!; [by apply (HI w)|by apply HG|done]. Qed.

Lemma syscall_guar {X} (f : option str → fs image → X * fs image) : guar Inv G (λ _, True) (syscall f).
Proof using HI HG.
  apply guar_atomic. intros w Hw. destruct (f _ _). split_and!; [by apply (HI w)|by apply HG|done].
Qed.

Lemma reader_guar {A} (p : prog World A) : reader p → guar Inv G (λ _, True) p.
Proof using HI HG.
  induction p as [a|X f k IH]; intros Hp; cbn in *; [done|]. intros w Hw.
  destruct (Hp w) as [(?&?&?&?&?&?) Hk]. split_and!; [by apply (HI w)|by apply HG|by apply IH].
Qed.

Lemma observer_guar {A} (p : prog World A) : observer p → guar Inv G (λ _, True) p.
Proof using HI HG. intros Hp. apply reader_guar. by apply observer_reader. Qed.

Lemma ctx_Err_guar ctx : guar Inv G (λ _, True) (ctx_Err ctx).
Proof using HI HG. destruct ctx; [done|apply observe_guar]. Qed.
End guarantee.

(** The state of a fresh process whose archive directory holds [s]. *)
Definition initial_world (s : fs image) : World :=
  mkWorld NewMemoryStore NewInMemoryService s [] true (mkLifecycle false 0 false []) 0.

(** An environment without failures, for concrete runs: the clock advances
    by one nanosecond per observation. *)
Definition sample_bytes (i : image) : str :=
  img_type i ++ (img_entries i ≫= λ e, match e with FileEntry n d => n ++ d | DirEntry n => n end).

Definition quiet_env (db : Database) (http : http_request → error + http_response) : Env :=
  {| env_now := λ t, (1000 + Z.of_nat t)%Z;
     env_rand := λ t, inr (replicate 32 (chr (Z.of_nat t)));
     env_uuid := λ t, lit "job-" ++ Itoa (Z.of_nat t);
     env_fault := λ _, None;
     env_short_write := λ _, None;
     env_db := λ _, db;
     env_query := λ _, QueryOk;
     env_runaway := λ _, ErrorString (lit "could not write to file: No space left on device");
     env_http := λ _, http;
     env_url := λ u, inr (u, []);
     env_request_error := λ _, None;
     env_ctx := λ _, None;
     env_select := λ _, true;
     env_bytes := sample_bytes;
     env_dir_end := None;
     env_http_time := λ s, match ParseInt s with inl _ => None | inr n => Some (n * Second)%Z end;
     env_http_date := λ t, Itoa (t / Second);
     env_boundary := λ t, replicate 60 (chr (Z.of_nat t)) |}.

Definition empty_db : Database := mkDatabase [] [] [] [].
Definition empty_fs : fs image := mkFs ∅ ∅ 0.
Definition no_http (_ : http_request) : error + http_response := inl (ErrorString (lit "refused")).
