(* ===== verification/Storage.v ===== *)
(** * Archive files on local disk (internal/storage/local.go)

    [LocalArchiveStorage] over the archive directory of [World]: temporary
    and final names, creation, publication by rename, deletion, listing. *)

From S2P Require Import Prelude GoString GoPath GoError Model Prog FS World.

Definition tempSuffix : str := lit ".zip.tmp".
Definition finalSuffix : str := lit ".zip".

(** The loop of [ListJobIDs], with its [seen] set. *)
Definition entry_id (name : str) : option str :=
  if HasSuffix name tempSuffix then Some (TrimSuffix name tempSuffix)
  else if HasSuffix name finalSuffix then Some (TrimSuffix name finalSuffix)
  else None.

Fixpoint list_ids (entries : list (str * bool)) (seen : gset str) : list str :=
  match entries with
  | [] => []
  | (name, isdir) :: entries' =>
      if isdir then list_ids entries' seen
      else match entry_id name with
           | None => list_ids entries' seen
           | Some id => if bool_decide (id ∈ seen) then list_ids entries' seen
                        else id :: list_ids entries' ({[id]} ∪ seen)
           end
  end.

Lemma temp_final_suffix a b : a ++ tempSuffix ≠ b ++ finalSuffix.
Proof.
  intros H. apply (f_equal (@rev ascii)) in H. rewrite !rev_app_distr in H. discriminate H.
Qed.

Lemma entry_id_spec name id :
  entry_id name = Some id ↔ name = id ++ tempSuffix ∨ name = id ++ finalSuffix.
Proof.
  unfold entry_id. split.
  - intros H. destruct (HasSuffix name tempSuffix) eqn:E1; [|destruct (HasSuffix name finalSuffix) eqn:E2; [|done]].
    + apply HasSuffix_spec in E1 as [k ->]. rewrite TrimSuffix_app in H. naive_solver.
    + apply HasSuffix_spec in E2 as [k ->]. rewrite TrimSuffix_app in H. naive_solver.
  - intros [->| ->]; [by rewrite HasSuffix_app, TrimSuffix_app|].
    destruct (HasSuffix (id ++ finalSuffix) tempSuffix) eqn:E.
    + apply HasSuffix_spec in E as [k E]. by destruct (temp_final_suffix k id).
    + by rewrite HasSuffix_app, TrimSuffix_app.
Qed.

Lemma list_ids_spec entries seen :
  NoDup (list_ids entries seen) ∧
  ∀ id, id ∈ list_ids entries seen ↔
        id ∉ seen ∧ ∃ n, (n, false) ∈ entries ∧ entry_id n = Some id.
Proof.
  revert seen. induction entries as [|[n b] entries IH]; intros seen; cbn [list_ids].
  { split; [constructor|]. set_solver. }
  assert (b = true ∨ entry_id n = None ∨ (∃ id, b = false ∧ entry_id n = Some id ∧ id ∈ seen) →
    NoDup (list_ids entries seen) ∧ ∀ id, id ∈ list_ids entries seen ↔
      id ∉ seen ∧ ∃ n', (n', false) ∈ (n, b) :: entries ∧ entry_id n' = Some id) as Hskip.
  { intros Hs. destruct (IH seen) as [Hnd Hin]. split; [done|]. intros id. rewrite Hin.
    split; [set_solver|]. intros (Hns & n' & [Heq|?]%elem_of_cons & Hid); [|set_solver].
    exfalso. destruct Hs as [->|[Hs|(id' & -> & Hs & ?)]]; simplify_eq. done. }
  destruct b; [apply Hskip; auto|]. destruct (entry_id n) as [id|] eqn:En; [|apply Hskip; auto].
  case_bool_decide; [apply Hskip; right; right; by exists id|].
  destruct (IH ({[id]} ∪ seen)) as [Hnd Hin]. split.
  - constructor; [|done]. rewrite Hin. set_solver.
  - intros id'. rewrite elem_of_cons, Hin. split.
    + intros [->|(Hns & n' & ? & ?)]; [split; [done|]; exists n; set_solver|]. set_solver.
    + intros (Hns & n' & [Heq|?]%elem_of_cons & Hid); [left; by simplify_eq|].
      destruct (decide (id' = id)); [by left|right]. set_solver.
Qed.

Section storage.
Context {UT : UnicodeTables} {ENV : Env} (dir : str).

Definition tempPath (jobID : str) : str := FilepathJoin dir (jobID ++ tempSuffix).
Definition finalPath (jobID : str) : str := FilepathJoin dir (jobID ++ finalSuffix).

Definition NewLocalArchiveStorage : prog World (error + unit) :=
  r ← syscall (λ flt s, (sys_mkdirall dir flt s, s));
  Ret (match r with
       | Some err => inl (Errorf_w (lit "create archive temp dir: ") err [])
       | None => inr tt
       end).

Definition storage_Create (jobID : str) : prog World (error + nat) :=
  r ← syscall (sys_create empty_image (tempPath jobID));
  Ret (match r with
       | inl err => inl (Errorf_w (lit "create temp archive: ") err [])
       | inr f => inr f
       end).

Definition storage_Open (jobID : str) : prog World (error + dirent) :=
  r ← syscall (λ flt s, (sys_open (finalPath jobID) flt s, s));
  Ret (match r with
       | inl err => inl (Errorf_w (lit "open archive: ") err [])
       | inr f => inr f
       end).

Fixpoint remove_all (paths : list str) : prog World (option error) :=
  match paths with
  | [] => Ret None
  | p :: paths' =>
      r ← syscall (sys_remove p);
      match r with
      | Some err => if negb (IsNotExist err)
                    then Ret (Some (Errorf_w (lit "delete " ++ p ++ lit ": ") err []))
                    else remove_all paths'
      | None => remove_all paths'
      end
  end.

Definition storage_Delete (jobID : str) : prog World (option error) :=
  remove_all [tempPath jobID; finalPath jobID].

Definition storage_RenameTemp (jobID : str) : prog World (option error) :=
  r ← syscall (sys_rename (tempPath jobID) (finalPath jobID));
  Ret (match r with
       | Some err => Some (Errorf_w (lit "finalize archive: ") err [])
       | None => None
       end).

(** [Size]; [info_Size] is the length the kernel reports. *)
Definition storage_Size (info_Size : dirent → fs image → Z) (jobID : str) : prog World (error + Z) :=
  r ← syscall (λ flt s, (match sys_open (finalPath jobID) flt s with
                         | inl err => inl err
                         | inr d => inr (info_Size d s)
                         end, s));
  Ret (match r with
       | inl err => inl (Errorf_w (lit "stat archive: ") err [])
       | inr n => inr n
       end).

Definition storage_ListJobIDs : prog World (error + list str) :=
  r ← syscall (λ flt s, (sys_readdir dir flt s, s));
  Ret (match r with
       | inl err => inl (Errorf_w (lit "read archive dir: ") err [])
       | inr entries => inr (list_ids entries ∅)
       end).

(** ** Names *)

Context (Hdir : dir ≠ []).

(** A job ID that is one path segment when a suffix is added. *)
Definition plain_id (id : str) : Prop := slash ∉ id.

Lemma suffixed_real id suf :
  plain_id id → slash ∉ suf → 2 < length suf → real_segment (id ++ suf).
Proof.
  intros Hi Hs Hl. split_and!.
  - intros H. apply app_eq_nil in H as [_ ->]. cbn in Hl; lia.
  - intros H. apply (f_equal length) in H. rewrite length_app in H. cbn in H. lia.
  - intros H. apply (f_equal length) in H. rewrite length_app in H. cbn in H. lia.
  - rewrite elem_of_app. naive_solver.
Qed.

Lemma slash_not_in_suffixes : slash ∉ tempSuffix ∧ slash ∉ finalSuffix.
Proof.
  split; rewrite <- ContainsByte_spec; by vm_compute.
Qed.

Lemma temp_real id : plain_id id → real_segment (id ++ tempSuffix).
Proof. intros. apply suffixed_real; [done|apply slash_not_in_suffixes|cbn; lia]. Qed.
Lemma final_real id : plain_id id → real_segment (id ++ finalSuffix).
Proof. intros. apply suffixed_real; [done|apply slash_not_in_suffixes|cbn; lia]. Qed.

Lemma paths_prefix : ∃ P, dir_prefix P ∧
  (∀ name, real_segment name → FilepathJoin dir name = P ++ name) ∧
  (∀ id, plain_id id → tempPath id = P ++ id ++ tempSuffix) ∧
  (∀ id, plain_id id → finalPath id = P ++ id ++ finalSuffix).
Proof using Hdir.
  destruct (FilepathJoin_child dir Hdir) as (P & HP & H). exists P. split_and!; [done|done|..];
    intros id Hid; unfold tempPath, finalPath; apply H; auto using temp_real, final_real.
Qed.

Lemma tempPath_inj a b : plain_id a → plain_id b → tempPath a = tempPath b → a = b.
Proof using Hdir.
  intros Ha Hb. destruct paths_prefix as (P & _ & _ & Ht & _). rewrite !Ht by done.
  intros H%app_inv_head%app_inv_tail. done.
Qed.

Lemma finalPath_inj a b : plain_id a → plain_id b → finalPath a = finalPath b → a = b.
Proof using Hdir.
  intros Ha Hb. destruct paths_prefix as (P & _ & _ & _ & Hf). rewrite !Hf by done.
  intros H%app_inv_head%app_inv_tail. done.
Qed.

(** A temporary name is never a final one: the second byte from the end differs. *)
Lemma temp_final_ne a b : plain_id a → plain_id b → tempPath a ≠ finalPath b.
Proof using Hdir.
  intros Ha Hb. destruct paths_prefix as (P & _ & _ & Ht & Hf). rewrite Ht, Hf by done.
  intros H%app_inv_head. by apply temp_final_suffix in H.
Qed.

(** ** Deletion *)

(** [s'] is [s] without some of the names [ps]. *)
Definition names_removed (ps : list str) (s s' : fs image) : Prop :=
  fs_data s' = fs_data s ∧ fs_next s' = fs_next s ∧
  ∀ q, fs_names s' !! q = fs_names s !! q ∨ (q ∈ ps ∧ fs_names s' !! q = None).

Lemma names_removed_refl ps s : names_removed ps s s.
Proof. split_and!; auto. Qed.

Lemma names_removed_trans ps qs s1 s2 s3 :
  names_removed ps s1 s2 → names_removed qs s2 s3 → names_removed (ps ++ qs) s1 s3.
Proof.
  intros (Hd & Hn & H) (Hd' & Hn' & H'). split_and!; [congruence..|]. intros q.
  rewrite elem_of_app. destruct (H q) as [E|[? E]], (H' q) as [E'|[? E']]; rewrite ?E', ?E; auto.
Qed.

Lemma sys_remove_spec p flt (s s' : fs image) r :
  sys_remove p flt s = (r, s') →
  names_removed [p] s s' ∧
  ((r = None ∨ ∃ e, r = Some e ∧ IsNotExist e = true) → fs_names s' !! p = None) ∧
  (flt = None → r = None ∨ ∃ e, r = Some e ∧ IsNotExist e = true).
Proof.
  unfold sys_remove. destruct (fs_names s !! p) eqn:E; destruct flt; intros [= <- <-].
  - split; [apply names_removed_refl|]. split; [|done]. intros [?|(e & [= <-] & ?)]; done.
  - split; [split; [done|split; [done|]]|split; [|by left]].
    + cbn. intros q. rewrite lookup_delete. case_decide; [subst|by left].
      right. split; [by left|done].
    + intros _. apply lookup_delete_eq.
  - split; [apply names_removed_refl|]. by split.
  - split; [apply names_removed_refl|]. split; [done|]. intros _. right. by eexists.
Qed.

Lemma remove_all_spec ps w :
  let '(r, w') := run (remove_all ps) w in
  same_but_fs w w' ∧ names_removed ps (w_fs w) (w_fs w') ∧
  (r = None → ∀ q, q ∈ ps → fs_names (w_fs w') !! q = None) ∧
  ((∀ t, env_fault t = None) → r = None).
Proof.
  revert w. induction ps as [|p ps IH]; intros w; cbn [remove_all].
  { cbn. split; [done|]. split; [apply names_removed_refl|].
    split; [by intros _ q ?%not_elem_of_nil|done]. }
  rewrite run_bind. unfold syscall. rewrite run_atomic.
  destruct (sys_remove p (env_fault (w_tick w)) (w_fs w)) as [r s'] eqn:E.
  apply sys_remove_spec in E as (Hrem & Hnone & Hflt).
  set (w1 := set_fs s' (tick w)).
  assert (∀ r1, (let '(r2, w2) := run (remove_all ps) w1 in
            same_but_fs w1 w2 ∧ names_removed ps (w_fs w1) (w_fs w2) ∧
            (r2 = None → ∀ q, q ∈ ps → fs_names (w_fs w2) !! q = None) ∧
            ((∀ t, env_fault t = None) → r2 = None)) →
          r = r1 → (r1 = None ∨ ∃ e, r1 = Some e ∧ IsNotExist e = true) →
          let '(r2, w2) := run (remove_all ps) w1 in
          same_but_fs w w2 ∧ names_removed (p :: ps) (w_fs w) (w_fs w2) ∧
          (r2 = None → ∀ q, q ∈ p :: ps → fs_names (w_fs w2) !! q = None) ∧
          ((∀ t, env_fault t = None) → r2 = None)) as Hgo.
  { intros r1 Hr <- Hok. destruct (run (remove_all ps) w1) as [r2 w2].
    destruct Hr as (Hs & Hr' & Hall & Hf). split_and!; [done| |idtac|done].
    - by apply (names_removed_trans [p] ps _ (w_fs w1)).
    - intros -> q [->|Hq]%elem_of_cons; [|by apply Hall].
      destruct Hr' as (_ & _ & Hr'). destruct (Hr' p) as [->|[_ ?]]; [|done]. by apply Hnone. }
  destruct r as [err|]; [|apply (Hgo None); [apply IH|done|by left]].
  destruct (IsNotExist err) eqn:Ene; cbn [negb].
  - apply (Hgo (Some err)); [apply IH|done|]. right. by eexists.
  - cbn. split_and!; try done.
    + destruct Hrem as (? & ? & Hr). split_and!; try done. intros q.
      destruct (Hr q) as [?|[->%list_elem_of_singleton ?]]; [by left|]. right. split; [by left|done].
    + intros Hf. destruct (Hflt (Hf _)) as [?|(e & [= <-] & ?)]; congruence.
Qed.

(** [Delete] touches nothing but the two names of its job: on success
    both are gone, every other name and every file's contents stay as they
    were, and when the kernel raises no error it succeeds whether or not the
    files exist. *)
Theorem storage_Delete_spec id w :
  let '(r, w') := run (storage_Delete id) w in
  (r = None → fs_names (w_fs w') !! tempPath id = None ∧ fs_names (w_fs w') !! finalPath id = None) ∧
  (∀ q, q ≠ tempPath id → q ≠ finalPath id → fs_names (w_fs w') !! q = fs_names (w_fs w) !! q) ∧
  fs_data (w_fs w') = fs_data (w_fs w) ∧
  w_jobs w' = w_jobs w ∧ w_tokens w' = w_tokens w ∧ w_queue w' = w_queue w ∧
  ((∀ t, env_fault t = None) → r = None).
Proof using Type.
  clear Hdir.
  unfold storage_Delete. pose proof (remove_all_spec [tempPath id; finalPath id] w) as H.
  destruct (run _ w) as [r w']. destruct H as ((? & ? & ? & ?) & (? & ? & Hr) & Hall & Hf).
  split_and!; try done.
  - intros ->. split; apply Hall; [done|set_solver|done|set_solver].
  - intros q Hq1 Hq2. destruct (Hr q) as [?|[Hin _]]; [done|]. exfalso. set_solver.
Qed.

(** ** Publication *)

(** What a successful [Create] and a successful [RenameTemp] do. *)
Lemma storage_Create_ok id i w w1 :
  run (storage_Create id) w = (inr i, w1) →
  same_but_fs w w1 ∧ fs_names (w_fs w1) !! tempPath id = Some (DFile i) ∧
  fs_data (w_fs w1) !! i = Some empty_image ∧
  ∀ q, q ≠ tempPath id → fs_names (w_fs w1) !! q = fs_names (w_fs w) !! q.
Proof using Type.
  clear Hdir.
  unfold storage_Create. rewrite run_bind. unfold syscall. rewrite run_atomic. unfold sys_create.
  destruct (env_fault (w_tick w)); [done|].
  destruct (fs_names (w_fs w) !! tempPath id) as [[j|]|] eqn:E; cbn; intros; simplify_eq/=.
  - split_and!; try done. by rewrite lookup_insert_eq.
  - split_and!; try done; [by rewrite lookup_insert_eq..|]. intros q Hq. by rewrite lookup_insert_ne.
Qed.

Lemma storage_Create_error id e w w1 :
  run (storage_Create id) w = (inl e, w1) → same_but_fs w w1 ∧ w_fs w1 = w_fs w.
Proof using Type.
  clear Hdir.
  unfold storage_Create. rewrite run_bind. unfold syscall. rewrite run_atomic. unfold sys_create.
  repeat case_match; intros; simplify_eq/=; done.
Qed.

Lemma storage_RenameTemp_ok id w w' :
  run (storage_RenameTemp id) w = (None, w') →
  same_but_fs w w' ∧ fs_data (w_fs w') = fs_data (w_fs w) ∧
  ∃ d, fs_names (w_fs w) !! tempPath id = Some d ∧
       fs_names (w_fs w') = <[finalPath id := d]> (delete (tempPath id) (fs_names (w_fs w))).
Proof using Type.
  clear Hdir.
  unfold storage_RenameTemp. rewrite run_bind. unfold syscall. rewrite run_atomic. unfold sys_rename.
  destruct (env_fault (w_tick w)); [done|].
  destruct (fs_names (w_fs w) !! tempPath id) as [d|]; [|done].
  destruct d, (fs_names (w_fs w) !! finalPath id) as [[]|]; cbn; intros; simplify_eq/=;
    (split_and!; [done..|]); eauto.
Qed.

Lemma storage_RenameTemp_error id e w w' :
  run (storage_RenameTemp id) w = (Some e, w') → same_but_fs w w' ∧ w_fs w' = w_fs w.
Proof using Type.
  clear Hdir.
  unfold storage_RenameTemp. rewrite run_bind. unfold syscall. rewrite run_atomic. unfold sys_rename.
  repeat case_match; intros; simplify_eq/=; done.
Qed.

(** ** Listing *)

Lemma elem_of_entries_of (s : fs image) n b :
  (n, b) ∈ entries_of dir s ↔
  ∃ p d, fs_names s !! p = Some d ∧ n = base_name p ∧ FilepathJoin dir n = p ∧
         b = match d with DDir => true | DFile _ => false end.
Proof.
  unfold entries_of. rewrite list_elem_of_omap. split.
  - intros ([p d] & Hin%elem_of_map_to_list & H). cbn in H. case_bool_decide; simplify_eq.
    by exists p, d.
  - intros (p & d & Hp & -> & Hj & ->). exists (p, d).
    split; [by apply elem_of_map_to_list|]. cbn. by rewrite bool_decide_true.
Qed.

Lemma base_name_noslash p : slash ∉ base_name p.
Proof.
  unfold base_name. destruct (last (Split p slash)) as [w|] eqn:E; [|apply not_elem_of_nil].
  pose proof (Split_notin p slash) as Hf. rewrite Forall_forall in Hf. cbn.
  by apply Hf, last_elem_of.
Qed.

(** A file of the directory carries a real name exactly at its path. *)
Lemma entries_of_name (s : fs image) name :
  real_segment name →
  (name, false) ∈ entries_of dir s ↔ ∃ i, fs_names s !! FilepathJoin dir name = Some (DFile i).
Proof using Hdir.
  intros Hn. rewrite elem_of_entries_of. split.
  - intros (p & d & Hp & -> & Hj & Hd). rewrite Hj, Hp. destruct d; [eauto|done].
  - intros [i Hi]. exists (FilepathJoin dir name), (DFile i). split_and!; try done.
    + destruct paths_prefix as (P & HP & Hj & _). rewrite Hj by done. symmetry. by apply base_name_child.
Qed.

Lemma storage_ListJobIDs_ids w :
  env_fault (w_tick w) = None →
  ∃ ids, run storage_ListJobIDs w = (inr ids, set_fs (w_fs w) (tick w)) ∧ NoDup ids ∧
  ∀ id, id ∈ ids ↔ plain_id id ∧ ∃ i,
    fs_names (w_fs w) !! tempPath id = Some (DFile i) ∨
    fs_names (w_fs w) !! finalPath id = Some (DFile i).
Proof using Hdir.
  intros Hf. unfold storage_ListJobIDs. rewrite run_bind. unfold syscall. rewrite run_atomic, Hf.
  cbn. eexists. split; [done|].
  destruct (list_ids_spec (merge_sort name_le (entries_of dir (w_fs w))) ∅) as [Hnd Hin].
  split; [done|]. intros id. rewrite Hin.
  setoid_rewrite (merge_sort_Permutation name_le (entries_of dir (w_fs w))).
  setoid_rewrite entry_id_spec. split.
  - intros (_ & n & He & Hn).
    assert (slash ∉ n) as Hs.
    { apply elem_of_entries_of in He as (p & d & _ & -> & _). apply base_name_noslash. }
    assert (plain_id id) as Hid by (destruct Hn as [->| ->]; unfold plain_id; set_solver).
    split; [done|]. destruct Hn as [->| ->]; apply entries_of_name in He as [i Hi]; eauto using temp_real, final_real.
  - intros (Hid & i & Hi). split; [set_solver|].
    destruct Hi as [Hi|Hi]; [exists (id ++ tempSuffix)|exists (id ++ finalSuffix)];
      (split; [|auto]); apply entries_of_name; eauto using temp_real, final_real.
Qed.

Lemma listed_plain entries id :
  (∀ n, (n, false) ∈ entries → slash ∉ n) → id ∈ list_ids entries ∅ → plain_id id.
Proof.
  intros Hs (_ & n & He & Hn)%(proj2 (list_ids_spec entries ∅)). apply Hs in He.
  apply entry_id_spec in Hn as [->| ->]; unfold plain_id; set_solver.
Qed.

(** When the directory can be read, [ListJobIDs] returns, without
    repetition, exactly the job IDs for which a temporary or a final archive
    file is present; other files and directories are ignored. *)
Theorem storage_ListJobIDs_spec w :
  env_fault (w_tick w) = None →
  ∃ ids, run storage_ListJobIDs w = (inr ids, set_fs (w_fs w) (tick w)) ∧ NoDup ids ∧
  ∀ id, id ∈ ids ↔ plain_id id ∧ ∃ i,
    fs_names (w_fs w) !! tempPath id = Some (DFile i) ∨
    fs_names (w_fs w) !! finalPath id = Some (DFile i).
Proof using Hdir. apply storage_ListJobIDs_ids. Qed.
End storage.

Lemma storage_ListJobIDs_spec_witness :
  let ENV := quiet_env empty_db no_http in
  ∃ ids, run (@storage_ListJobIDs sample_tables ENV (lit "/tmp/a")) (initial_world empty_fs) =
         (inr ids, set_fs empty_fs (tick (initial_world empty_fs))) ∧ NoDup ids.
Proof.
  intros ENV.
  destruct (@storage_ListJobIDs_spec sample_tables ENV (lit "/tmp/a") ltac:(discriminate)
              (initial_world empty_fs)) as (ids & H1 & H2 & _); [done|].
  by exists ids.
Defined.
