(* ===== verification/Interfaces.v ===== *)
(** * The interfaces between the packages (job.Store, token.Service,
      storage.ArchiveStorage)

    Each Go interface is a class of operations, and what its comments promise
    a class of laws.  The implementations of this program are instances; what
    is proved from the laws holds of any other implementation, such as the
    shared stores the comments foresee. *)

From S2P Require Import Prelude GoString GoPath GoError Model Prog JobStore Token FS Sql World Storage.

(** ** job.Store *)

Class Store (S : Type) := {
  Store_Create : Job → S → option error * S;
  Store_Get : str → S → (error + Job) * S;
  Store_Update : Job → S → option error * S;
  Store_Delete : str → S → option error * S;
  Store_List : S → (error + list Job) * S
}.

(** An implementation holds a map of records, which its methods read and
    change as [MemoryStore]'s do; the order of [List] is open. *)
Class StoreLaws (S : Type) {ST : Store S} := {
  store_valid : S → Prop;
  store_view : S → gmap str Job;
  Create_law j s : store_valid s → let '(r, s') := Store_Create j s in
    store_valid s' ∧ (r, store_view s') = store_Create j (store_view s);
  Get_law id s : store_valid s → let '(r, s') := Store_Get id s in
    store_valid s' ∧ store_view s' = store_view s ∧ r = store_Get id (store_view s);
  Update_law j s : store_valid s → let '(r, s') := Store_Update j s in
    store_valid s' ∧ (r, store_view s') = store_Update j (store_view s);
  Delete_law id s : store_valid s → let '(r, s') := Store_Delete id s in
    store_valid s' ∧ (r, store_view s') = store_Delete id (store_view s);
  List_law s : store_valid s → let '(r, s') := Store_List s in
    store_valid s' ∧ store_view s' = store_view s ∧ ∃ l, r = inr l ∧ l ≡ₚ store_List (store_view s)
}.

(** The store of values. *)
#[export] Instance MemoryStore_values : Store (gmap str Job) := {
  Store_Create := store_Create;
  Store_Get id s := (store_Get id s, s);
  Store_Update := store_Update;
  Store_Delete := store_Delete;
  Store_List s := (inr (store_List s), s)
}.

#[export] Program Instance MemoryStore_values_laws : StoreLaws (gmap str Job) := {|
  store_valid _ := True;
  store_view s := s
|}.
Solve Obligations with intros; cbn; by repeat case_match.
Next Obligation. intros s _. cbn. split_and!; [done|done|]. by eexists. Qed.

(** The store of pointers, for callers that deal in values: a record passed
    in is an object of the caller's, and a pointer returned is read at once.
    The argument is never nil. *)
Definition returned (o : outcome) : option error :=
  match o with Returns e => e | NilDereference => None end.

Definition import_job (j : Job) (h : heap) : nat * heap :=
  match job_CompletedAt j with
  | None => new_obj (mkObj j None) h
  | Some t => let '(tp, h1) := new_time t h in new_obj (mkObj j (Some tp)) h1
  end.

Definition MemoryStore : Type := heap * gmap str nat.

#[export] Instance MemoryStore_pointers : Store MemoryStore := {
  Store_Create j s := let '(p, h) := import_job j s.1 in let '(e, h', st) := heap_Create p h s.2 in (returned e, (h', st));
  Store_Get id s := match heap_Get id s.1 s.2 with
                    | (inl e, h') => (inl e, (h', s.2))
                    | (inr p, h') => (match deref h' p with Some j => inr j | None => inl (Sentinel ErrNotFound) end, (h', s.2))
                    end;
  Store_Update j s := let '(p, h) := import_job j s.1 in let '(e, h', st) := heap_Update p h s.2 in (returned e, (h', st));
  Store_Delete id s := (None, (s.1, heap_Delete id s.2));
  Store_List s := let '(ps, h') := heap_List s.1 s.2 in (inr (omap (deref h') ps), (h', s.2))
}.

Lemma rep_new_time t h st m : rep h st m → rep (new_time t h).2 st m.
Proof.
  intros [(Hok & Hid & Hsep) Hm]. pose proof (heap_ok_fresh_time h Hok) as Hf.
  split; [split_and!|]; [by apply new_time_ok|done|done|]. intros id. rewrite Hm.
  destruct (st !! id) as [p|] eqn:E; [|done]. cbn. destruct (Hid id p E) as (o & Ho & _).
  symmetry. eapply deref_ext; [done| |exact Ho]. split; [done|]. cbn. intros tp t' Ht.
  rewrite lookup_insert_ne; [done|]. congruence.
Qed.

Lemma rep_new_obj o h st m :
  (∀ tp, o_completed o = Some tp → is_Some (h_times h !! tp) ∧ ¬ store_time h st tp) →
  rep h st m → rep (new_obj o h).2 st m.
Proof.
  intros Ho [(Hok & Hid & Hsep) Hm].
  pose proof (heap_ok_fresh_job h (h_next h) Hok ltac:(lia)) as Hf.
  assert (∀ p, store_ptr st p → h_jobs (new_obj o h).2 !! p = h_jobs h !! p) as Hsame.
  { intros p [id Hp]. cbn. destruct (Hid id p Hp) as (o' & Ho' & _). rewrite lookup_insert_ne; [done|]. congruence. }
  split; [split_and!|].
  - apply new_obj_ok; [done|]. intros tp Htp. by apply Ho.
  - intros id p Hp. rewrite Hsame by (by exists id). by apply Hid.
  - intros p p' op op' tp Hp Hop Hop' Htp Htp'. rewrite Hsame in Hop by done.
    cbn in Hop'. rewrite lookup_insert in Hop'. case_decide; simplify_eq; [|by eapply Hsep].
    destruct (Ho tp Htp') as [_ []]. by exists p, op.
  - intros id. rewrite Hm. destruct (st !! id) as [p|] eqn:E; [|done]. cbn. unfold deref.
    by rewrite Hsame by (by exists id).
Qed.

(** An imported record is an object with its value, and the store is as
    before. *)
Lemma import_job_spec j h st m : rep h st m →
  let '(p, h') := import_job j h in rep h' st m ∧ deref h' p = Some j.
Proof.
  intros Hrep. assert (set_CompletedAt (job_CompletedAt j) j = j) as Hj by (by destruct j).
  unfold import_job. destruct (job_CompletedAt j) as [t|] eqn:E.
  - pose proof (rep_new_time t h st m Hrep) as Hr1. pose proof (heap_ok_fresh_time h ltac:(apply Hrep)) as Hf.
    destruct (new_time t h) as [tp h1] eqn:E1. cbn in Hr1. injection E1 as <- <-. split.
    + apply rep_new_obj; [|done]. cbn. intros tp [= <-]. rewrite lookup_insert_eq. split; [by eexists|].
      intros (p & o & Hp & Ho & Hc). cbn in Ho. destruct Hrep as [((Hj1 & _) & _) _].
      destruct (Hj1 p o Ho) as [_ Hv]. destruct (Hv _ Hc) as [? Hx]. congruence.
    + unfold deref. cbn. rewrite lookup_insert_eq. unfold obj_value. cbn. by rewrite lookup_insert_eq, Hj.
  - destruct (new_obj (mkObj j None) h) as [p h1] eqn:E1. injection E1 as <- <-. split.
    + by apply (rep_new_obj (mkObj j None)).
    + unfold deref. cbn. rewrite lookup_insert_eq. cbn. unfold obj_value. cbn. by rewrite Hj.
Qed.

Definition pointers_view (s : MemoryStore) : gmap str Job := omap (deref s.1) s.2.

Lemma pointers_view_rep h st m : rep h st m → pointers_view (h, st) = m ∧ store_ok h st.
Proof. intros [Hok Hm]. split; [|done]. apply map_eq. intros id. unfold pointers_view. by rewrite lookup_omap, Hm. Qed.

Lemma rep_pointers_view s : store_ok s.1 s.2 → rep s.1 s.2 (pointers_view s).
Proof. intros Hok. split; [done|]. intros id. unfold pointers_view. by rewrite lookup_omap. Qed.

Lemma imported j s : store_ok s.1 s.2 →
  let '(p, h) := import_job j s.1 in
  rep h s.2 (pointers_view s) ∧ deref h p = Some j ∧ is_Some (h_jobs h !! p).
Proof.
  intros Hok. pose proof (import_job_spec j s.1 s.2 _ (rep_pointers_view s Hok)) as Hi.
  destruct (import_job j s.1) as [p h]. destruct Hi as [Hr Hd]. split_and!; [done|done|].
  unfold deref in Hd. destruct (h_jobs h !! p); [by eexists|done].
Qed.

#[export] Program Instance MemoryStore_pointers_laws : StoreLaws MemoryStore := {|
  store_valid s := store_ok s.1 s.2;
  store_view := pointers_view
|}.
Next Obligation.
  intros j s Hok. cbn. pose proof (imported j s Hok) as Hi. destruct (import_job j s.1) as [p h].
  destruct Hi as (Hr & Hd & Hp). pose proof (heap_op_refined (CallCreate p) h s.2 _ Hr I) as Ho.
  cbn [heap_op value_op] in Ho. rewrite Hd in Ho. destruct (heap_Create p h s.2) as [[e h2] st2], (store_Create j _) as [e' m'].
  destruct Ho as (Hr2 & -> & _). by destruct (pointers_view_rep _ _ _ Hr2) as [-> ?].
Qed.
Next Obligation.
  intros id s Hok. cbn. pose proof (heap_op_refined (CallGet id) s.1 s.2 _ (rep_pointers_view s Hok) I) as Ho.
  cbn [heap_op value_op] in Ho. destruct (heap_Get id s.1 s.2) as [[e|p] h2], (store_Get id _) as [e'|j];
    destruct Ho as (Hr2 & He & Hps & _); try discriminate He; destruct (pointers_view_rep _ _ _ Hr2) as [-> ?].
  - by injection He as ->.
  - injection Hps as Hps. by rewrite Hps.
Qed.
Next Obligation.
  intros j s Hok. cbn. pose proof (imported j s Hok) as Hi. destruct (import_job j s.1) as [p h].
  destruct Hi as (Hr & Hd & Hp). pose proof (heap_op_refined (CallUpdate p) h s.2 _ Hr I) as Ho.
  cbn [heap_op value_op] in Ho. rewrite Hd in Ho. destruct (heap_Update p h s.2) as [[e h2] st2], (store_Update j _) as [e' m'].
  destruct Ho as (Hr2 & -> & _). by destruct (pointers_view_rep _ _ _ Hr2) as [-> ?].
Qed.
Next Obligation.
  intros id s Hok. cbn. pose proof (heap_op_refined (CallDelete id) s.1 s.2 _ (rep_pointers_view s Hok) I) as (Hr & _).
  destruct (pointers_view_rep _ _ _ Hr) as [E ?]. split; [done|]. unfold store_Delete. f_equal. exact E.
Qed.
Next Obligation.
  intros s Hok. cbn. pose proof (heap_op_refined CallList s.1 s.2 _ (rep_pointers_view s Hok) I) as Ho.
  cbn [heap_op value_op] in Ho. destruct (heap_List s.1 s.2) as [ps h2]. destruct Ho as (Hr & _ & Hps & _).
  destruct (pointers_view_rep _ _ _ Hr) as [-> ?]. split_and!; [done|done|]. eexists. split; [done|].
  assert (omap (deref h2) ps = store_List (pointers_view s)) as ->; [|done].
  revert Hps. generalize (store_List (pointers_view s)). clear. intros l. revert l.
  induction ps as [|p ps IH]; intros [|j l] H; try done. injection H as Hp Hps. cbn. by rewrite Hp, (IH l).
Qed.

(** A caller's calls, and what it sees of them. *)
Inductive store_call := CreateCall (j : Job) | GetCall (id : str) | UpdateCall (j : Job) | DeleteCall (id : str) | ListCall.
Inductive store_result := ErrResult (e : option error) | JobResult (r : error + Job) | ListResult (r : error + list Job).

Definition store_step {S} `{!Store S} (c : store_call) (s : S) : store_result * S :=
  match c with
  | CreateCall j => let '(r, s') := Store_Create j s in (ErrResult r, s')
  | GetCall id => let '(r, s') := Store_Get id s in (JobResult r, s')
  | UpdateCall j => let '(r, s') := Store_Update j s in (ErrResult r, s')
  | DeleteCall id => let '(r, s') := Store_Delete id s in (ErrResult r, s')
  | ListCall => let '(r, s') := Store_List s in (ListResult r, s')
  end.

Fixpoint store_run {S} `{!Store S} (cs : list store_call) (s : S) : list store_result * S :=
  match cs with
  | [] => ([], s)
  | c :: cs' => let '(r, s1) := store_step c s in let '(rs, s2) := store_run cs' s1 in (r :: rs, s2)
  end.

(** The same answer, but for the order of a list. *)
Definition same_result (r r' : store_result) : Prop :=
  match r, r' with
  | ListResult (inr l), ListResult (inr l') => l ≡ₚ l'
  | _, _ => r = r'
  end.

Lemma store_step_view {S} {ST : Store S} {SL : StoreLaws S} c (s : S) : store_valid s →
  let '(r, s') := store_step c s in let '(r0, m) := store_step c (store_view s) in
  store_valid s' ∧ store_view s' = m ∧ same_result r r0.
Proof.
  intros Hs. destruct c as [j|id|j|id|]; cbn.
  - pose proof (Create_law j s Hs) as H. destruct (Store_Create j s) as [r s']. destruct H as [? <-]. done.
  - pose proof (Get_law id s Hs) as H. destruct (Store_Get id s) as [r s']. destruct H as (? & -> & ->). done.
  - pose proof (Update_law j s Hs) as H. destruct (Store_Update j s) as [r s']. destruct H as [? <-]. done.
  - pose proof (Delete_law id s Hs) as H. destruct (Store_Delete id s) as [r s']. destruct H as [? [= -> ->]]. done.
  - pose proof (List_law s Hs) as H. destruct (Store_List s) as [r s']. destruct H as (? & -> & l & -> & ?). done.
Qed.

Lemma store_run_view {S} {ST : Store S} {SL : StoreLaws S} cs : ∀ s : S, store_valid s →
  let '(rs, s') := store_run cs s in let '(rs0, m) := store_run cs (store_view s) in
  store_valid s' ∧ store_view s' = m ∧ Forall2 same_result rs rs0.
Proof.
  induction cs as [|c cs IH]; intros s Hs; cbn [store_run]; [done|].
  pose proof (store_step_view c s Hs) as H. destruct (store_step c s) as [r s1], (store_step c (store_view s)) as [r0 m1].
  destruct H as (Hs1 & <- & Hr). specialize (IH s1 Hs1).
  destruct (store_run cs s1) as [rs s2], (store_run cs (store_view s1)) as [rs0 m2]. destruct IH as (? & ? & ?).
  split_and!; [done|done|]. by constructor.
Qed.

(** Any sequence of calls: [MemoryStore] with its pointers answers as the
    map of records does, up to the order of [List]. *)
Corollary MemoryStore_runs cs (s : MemoryStore) : store_ok s.1 s.2 →
  let '(rs, s') := store_run cs s in let '(rs0, m) := store_run cs (pointers_view s) in
  store_ok s'.1 s'.2 ∧ pointers_view s' = m ∧ Forall2 same_result rs rs0.
Proof. exact (store_run_view cs s). Qed.

(** ** token.Service *)

(** [raw] is what the random source delivered and [now] a reading of the
    clock. *)
Class Service (S : Type) := {
  Service_Issue : error + str → str → duration → time → S → (error + str) * S;
  Service_Validate : str → str → time → S → option error;
  Service_Revoke : str → S → option error * S
}.

Class ServiceLaws {UT : UnicodeTables} (S : Type) {SV : Service S} : Prop := {
  (* a token is valid for its job for [ttl], and for no other job *)
  Issue_accepted raw id ttl now t s tok s' : Service_Issue (inr raw) id ttl now s = (inr tok, s') →
    (t <= now + ttl)%Z → Service_Validate id tok t s' = None;
  Issue_expires raw id ttl now t s tok s' : Service_Issue (inr raw) id ttl now s = (inr tok, s') →
    (now + ttl < t)%Z → Service_Validate id tok t s' = Some (Sentinel ErrTokenExpired);
  Issue_scoped raw id ttl now other t s tok s' : Service_Issue (inr raw) id ttl now s = (inr tok, s') →
    other ≠ id → Service_Validate other tok t s' = Some (Sentinel ErrInvalidToken);
  (* the other tokens are not affected; a failed [Issue] affects none *)
  Issue_others raw id ttl now other tok' t s tok s' : Service_Issue (inr raw) id ttl now s = (inr tok, s') →
    tok' ≠ tok → Service_Validate other tok' t s' = Service_Validate other tok' t s;
  Issue_fails err id ttl now s : ∃ e, Service_Issue (inl err) id ttl now s = (inl e, s);
  (* [Revoke] invalidates all tokens of the job, and only those *)
  Revoke_invalidates id tok t s : (Service_Revoke id s).1 = None ∧
    Service_Validate id tok t (Service_Revoke id s).2 = Some (Sentinel ErrInvalidToken);
  Revoke_others id other tok t s : Service_Validate other tok t s = None → other ≠ id →
    Service_Validate other tok t (Service_Revoke id s).2 = None
}.

#[export] Instance InMemoryService {UT : UnicodeTables} : Service (gmap str entry) := {
  Service_Issue raw id ttl now s := token_Issue raw id ttl now s;
  Service_Validate id tok now s := token_Validate id tok now (s !! tok);
  Service_Revoke id s := (None, token_Revoke id s)
}.

Lemma validate_entry id tok now e :
  token_Validate id tok now (Some e) =
    if decide (ent_jobID e = id) then if (ent_expiresAt e <? now)%Z then Some (Sentinel ErrTokenExpired) else None
    else Some (Sentinel ErrInvalidToken).
Proof.
  unfold token_Validate. destruct (Z.eqb_spec (ConstantTimeCompare (ent_jobID e) id) 1) as [E|E];
    rewrite ConstantTimeCompare_spec in E; by case_decide.
Qed.

#[export] Instance InMemoryService_laws {UT : UnicodeTables} : ServiceLaws (gmap str entry).
Proof.
  split; cbn.
  - intros raw id ttl now t s tok s' [= <- <-] Ht. rewrite lookup_insert_eq, validate_entry, decide_True by done.
    cbn. by rewrite (proj2 (Z.ltb_ge _ _)).
  - intros raw id ttl now t s tok s' [= <- <-] Ht. rewrite lookup_insert_eq, validate_entry, decide_True by done.
    cbn. by rewrite (proj2 (Z.ltb_lt _ _)).
  - intros raw id ttl now other t s tok s' [= <- <-] Ho. rewrite lookup_insert_eq, validate_entry.
    by rewrite decide_False by (cbn; congruence).
  - intros raw id ttl now other tok' t s tok s' [= <- <-] Hne. by rewrite lookup_insert_ne.
  - by eexists.
  - intros id tok t s. split; [done|]. rewrite token_Revoke_lookup. destruct (s !! tok) as [e|]; [|done].
    case_bool_decide; [done|]. by rewrite validate_entry, decide_False.
  - intros id other tok t s H Ho. rewrite token_Revoke_lookup. destruct (s !! tok) as [e|]; [|done].
    rewrite validate_entry in H. case_decide; [|done]. subst. by rewrite bool_decide_false, validate_entry, decide_True.
Qed.

(** ** storage.ArchiveStorage *)

Class ArchiveStorage := {
  AS_Create : str → prog World (error + nat);
  AS_Open : str → prog World (error + dirent);
  AS_Delete : str → prog World (option error);
  AS_RenameTemp : str → prog World (option error);
  AS_Size : str → prog World (error + Z);
  AS_ListJobIDs : prog World (error + list str)
}.

(** [unfinished_file] and [finished_file] are what the storage has of a job;
    job IDs are UUIDs, which have no slash. *)
Class ArchiveStorageLaws {ENV : Env} {AS : ArchiveStorage} := {
  unfinished_file : str → World → option dirent;
  finished_file : str → World → option dirent;
  (* Create opens a new write target; nothing finished changes *)
  AS_Create_law id i w w' : plain_id id → run (AS_Create id) w = (inr i, w') →
    unfinished_file id w' = Some (DFile i) ∧ fs_data (w_fs w') !! i = Some empty_image ∧
    ∀ id', plain_id id' → finished_file id' w' = finished_file id' w ∧
      (id' ≠ id → unfinished_file id' w' = unfinished_file id' w);
  (* Open opens the finished archive *)
  AS_Open_law id f w w' : run (AS_Open id) w = (inr f, w') → finished_file id w = Some f ∧ w_fs w' = w_fs w;
  (* Delete removes both; it does not err if neither exists *)
  AS_Delete_law id w : plain_id id → let '(r, w') := run (AS_Delete id) w in
    ((∀ t, env_fault t = None) → r = None) ∧
    (r = None → unfinished_file id w' = None ∧ finished_file id w' = None) ∧
    ∀ id', plain_id id' → id' ≠ id →
      unfinished_file id' w' = unfinished_file id' w ∧ finished_file id' w' = finished_file id' w;
  (* RenameTemp publishes the temporary file *)
  AS_RenameTemp_law id w w' : plain_id id → run (AS_RenameTemp id) w = (None, w') →
    finished_file id w' = unfinished_file id w ∧ is_Some (unfinished_file id w) ∧ unfinished_file id w' = None ∧
    fs_data (w_fs w') = fs_data (w_fs w) ∧
    ∀ id', plain_id id' → id' ≠ id →
      unfinished_file id' w' = unfinished_file id' w ∧ finished_file id' w' = finished_file id' w;
  (* writing through a handle changes no name *)
  AS_write_law i img id w : let w' := set_fs (sys_write i img (w_fs w)) w in
    unfinished_file id w' = unfinished_file id w ∧ finished_file id w' = finished_file id w;
  (* ListJobIDs finds every file, finished or not *)
  AS_ListJobIDs_law w : env_fault (w_tick w) = None → ∃ ids w', run AS_ListJobIDs w = (inr ids, w') ∧ NoDup ids ∧
    ∀ id, id ∈ ids ↔ plain_id id ∧ ∃ i, unfinished_file id w = Some (DFile i) ∨ finished_file id w = Some (DFile i)
}.

(** What the laws give together, for any storage: [Open] after [RenameTemp]
    opens what was written after [Create]. *)
Lemma published_opens {ENV : Env} {AS : ArchiveStorage} {ASL : ArchiveStorageLaws} id img i f w w1 w2 w3 :
  plain_id id → run (AS_Create id) w = (inr i, w1) →
  run (AS_RenameTemp id) (set_fs (sys_write i img (w_fs w1)) w1) = (None, w2) →
  run (AS_Open id) w2 = (inr f, w3) →
  (∀ id', plain_id id' → finished_file id' w1 = finished_file id' w) ∧
  f = DFile i ∧ fs_data (w_fs w3) !! i = Some img ∧ unfinished_file id w2 = None ∧
  ∀ id', plain_id id' → id' ≠ id →
    finished_file id' w2 = finished_file id' w ∧ unfinished_file id' w2 = unfinished_file id' w.
Proof.
  intros Hid Hc Hr Ho. apply AS_Create_law in Hc as (Hu & _ & Hoth); [|done].
  apply AS_RenameTemp_law in Hr as (Hf & _ & Hn & Hd & Hoth'); [|done]. apply AS_Open_law in Ho as [Ho Efs].
  set (w1' := set_fs _ w1) in *. assert (∀ x, unfinished_file x w1' = unfinished_file x w1 ∧
    finished_file x w1' = finished_file x w1) as Hw by (intros x; apply AS_write_law).
  split_and!; [intros id' Hid'; by apply Hoth| | |done|].
  - rewrite Hf, (proj1 (Hw id)), Hu in Ho. congruence.
  - rewrite Efs, Hd. apply lookup_insert_eq.
  - intros id' Hid' Hne. destruct (Hoth' id' Hid' Hne) as [-> ->], (Hw id') as [-> ->], (Hoth id' Hid') as [-> Hx].
    auto.
Qed.

Section local.
Context {UT : UnicodeTables} {ENV : Env} (dir : str) (info_Size : dirent → fs image → Z).

#[export] Instance LocalArchiveStorage : ArchiveStorage := {
  AS_Create := storage_Create dir;
  AS_Open := storage_Open dir;
  AS_Delete := storage_Delete dir;
  AS_RenameTemp := storage_RenameTemp dir;
  AS_Size := storage_Size dir info_Size;
  AS_ListJobIDs := storage_ListJobIDs dir
}.

Lemma storage_Delete_names id w :
  let '(r, w') := run (storage_Delete dir id) w in
  ((∀ t, env_fault t = None) → r = None) ∧
  (r = None → fs_names (w_fs w') !! tempPath dir id = None ∧ fs_names (w_fs w') !! finalPath dir id = None) ∧
  ∀ q, q ≠ tempPath dir id → q ≠ finalPath dir id → fs_names (w_fs w') !! q = fs_names (w_fs w) !! q.
Proof.
  unfold storage_Delete. pose proof (remove_all_spec [tempPath dir id; finalPath dir id] w) as H.
  destruct (run _ w) as [r w']. destruct H as (_ & (_ & _ & Hr) & Hall & Hf). split_and!; [done| |].
  - intros ->. split; apply Hall; [done|set_solver|done|set_solver].
  - intros q H1 H2. destruct (Hr q) as [?|[Hin _]]; [done|]. set_solver.
Qed.

#[export] Program Instance LocalArchiveStorage_laws (Hdir : dir ≠ []) : ArchiveStorageLaws := {|
  unfinished_file id w := fs_names (w_fs w) !! tempPath dir id;
  finished_file id w := fs_names (w_fs w) !! finalPath dir id
|}.
Next Obligation.
  intros Hdir id i w w' Hid (_ & Ht & Hd & Hq)%storage_Create_ok. split_and!; [done|done|]. intros id' Hid'. split.
  - apply Hq. intros E. symmetry in E. revert E. by apply temp_final_ne.
  - intros Hne. apply Hq. intros E. by apply tempPath_inj in E.
Qed.
Next Obligation.
  intros Hdir id f w w'. change (AS_Open id) with (storage_Open dir id). unfold storage_Open. rewrite run_bind. unfold syscall. rewrite run_atomic.
  unfold sys_open. destruct (env_fault _); [done|]. destruct (fs_names _ !! _); cbn; [|done]. by intros [= <- <-].
Qed.
Next Obligation.
  intros Hdir id w Hid. pose proof (storage_Delete_names id w) as H. change (AS_Delete id) with (storage_Delete dir id). destruct (run _ w) as [r w'].
  destruct H as (? & ? & Hq). split_and!; [done|done|]. intros id' Hid' Hne. split; apply Hq.
  - intros E. by apply tempPath_inj in E.
  - by apply temp_final_ne.
  - intros E. symmetry in E. revert E. by apply temp_final_ne.
  - intros E. by apply finalPath_inj in E.
Qed.
Next Obligation.
  intros Hdir id w w' Hid (_ & Hd & d & Ht & Hn)%storage_RenameTemp_ok. rewrite Hn.
  assert (∀ a b, plain_id a → plain_id b → finalPath dir a ≠ tempPath dir b) as Hft.
  { intros a b Ha Hb E. symmetry in E. revert E. by apply temp_final_ne. }
  split_and!; [by rewrite lookup_insert_eq|by rewrite Ht| |done|].
  - rewrite lookup_insert_ne by auto. apply lookup_delete_eq.
  - intros id' Hid' Hne. split.
    + rewrite lookup_insert_ne, lookup_delete_ne; [done| |auto]. intros E. by apply tempPath_inj in E.
    + rewrite lookup_insert_ne, lookup_delete_ne; [done|by apply not_eq_sym; auto|]. intros E. by apply finalPath_inj in E.
Qed.
Next Obligation. done. Qed.
Next Obligation.
  intros Hdir w Hf. destruct (storage_ListJobIDs_ids dir Hdir w Hf) as (ids & Hr & Hnd & Hin). by eexists ids, _.
Qed.
End local.

(** C33: publication is by rename alone in [LocalArchiveStorage]: [Create]
    changes the final name of no job, so a download sees the previous archive
    until [RenameTemp]; once that succeeded, [Open] opens exactly what was
    written to the file [Create] opened, the temporary name is gone, and both
    names of every other job are as they were before. *)
Theorem publish_then_open {UT : UnicodeTables} {ENV : Env} dir id img i f w w1 w2 w3 :
  dir ≠ [] → plain_id id → run (storage_Create dir id) w = (inr i, w1) →
  run (storage_RenameTemp dir id) (set_fs (sys_write i img (w_fs w1)) w1) = (None, w2) →
  run (storage_Open dir id) w2 = (inr f, w3) →
  (∀ id', plain_id id' → fs_names (w_fs w1) !! finalPath dir id' = fs_names (w_fs w) !! finalPath dir id') ∧
  f = DFile i ∧ fs_data (w_fs w3) !! i = Some img ∧ fs_names (w_fs w2) !! tempPath dir id = None ∧
  ∀ id', plain_id id' → id' ≠ id →
    fs_names (w_fs w2) !! finalPath dir id' = fs_names (w_fs w) !! finalPath dir id' ∧
    fs_names (w_fs w2) !! tempPath dir id' = fs_names (w_fs w) !! tempPath dir id'.
Proof. intros Hdir. exact (published_opens (ASL := LocalArchiveStorage_laws dir (λ _ _, 0%Z) Hdir) id img i f w w1 w2 w3). Qed.

Lemma publish_then_open_witness :
  let ENV := quiet_env empty_db no_http in
  let dir := lit "/tmp/a" in
  let w := initial_world empty_fs in
  let w1 := (run (@storage_Create sample_tables ENV dir (lit "j1")) w).2 in
  let img := mkImage ExportTypeZip [DirEntry (lit "d/")] true in
  let w2 := (run (@storage_RenameTemp sample_tables ENV dir (lit "j1")) (set_fs (sys_write 0 img (w_fs w1)) w1)).2 in
  let w3 := (run (@storage_Open sample_tables ENV dir (lit "j1")) w2).2 in
  (run (@storage_Open sample_tables ENV dir (lit "j1")) w2).1 = inr (DFile 0) ∧ fs_data (w_fs w3) !! 0 = Some img.
Proof.
  intros ENV dir w w1 img w2 w3. split; [by vm_compute|].
  apply (@publish_then_open sample_tables ENV dir (lit "j1") img 0 (DFile 0) w w1 w2 w3);
    [done| |by vm_compute..].
  unfold plain_id. rewrite <- ContainsByte_spec. by vm_compute.
Defined.
