(* ===== verification/Writer.v ===== *)
(** * The container writers (internal/archive/zip.go, [archiveWriter])

    The interface is the class [ArchiveWriter]; [ArchiveWriterLaws] is what
    [Generate] relies on; the ZIP and TAR writers are its two instances, at
    the level of entries.  TAR declares each entry's size in its header and
    accounts for it; ZIP does not. *)

From S2P Require Import Prelude GoString GoPath GoError Model World.

(** Each method takes the kernel's verdict on the writes it causes. *)
Class ArchiveWriter (S : Type) := {
  aw_new : S;
  aw_CreateFile : str → Z → option str → S → option error * S;
  (** writing to the entry created last: bytes written, error, new state *)
  aw_Write : str → option (nat * str) → S → (nat * option error) * S;
  aw_CreateDir : str → option str → S → option error * S;
  aw_Close : option str → S → option error * S;
  aw_image : S → image;
  (** bytes the current entry still owes its declared size *)
  aw_pending : S → Z
}.

(** Append [data] to the last entry. *)
Definition append_data (data : str) (es : list archive_entry) : list archive_entry :=
  match last es with
  | Some (FileEntry n d) => take (length es - 1) es ++ [FileEntry n (d ++ data)]
  | _ => es
  end.

Lemma append_data_snoc data es n d :
  append_data data (es ++ [FileEntry n d]) = es ++ [FileEntry n (d ++ data)].
Proof.
  unfold append_data. rewrite last_snoc, length_app. cbn.
  replace (length es + 1 - 1) with (length es) by lia. by rewrite take_app_length.
Qed.

(** ** ZIP *)

Record zip_state := mkZip { z_entries : list archive_entry; z_closed : bool }.

Definition errLongName : error := ErrorString (lit "zip: FileHeader.Name too long").

(** [zip.Writer.CreateHeader]: a name ending in a slash is a directory. *)
Definition zip_CreateHeader (name : str) (fault : option str) (z : zip_state)
    : option error * zip_state :=
  match fault with
  | Some m => (Some (OsError false m), z)
  | None =>
      if (65535 <? Z.of_nat (length name))%Z then (Some errLongName, z)
      else (None, mkZip (z_entries z ++ [if HasSuffix name [slash] then DirEntry name
                                         else FileEntry name []]) (z_closed z))
  end.

Definition zip_CreateFile (path : str) (_ : Z) : option str → zip_state → option error * zip_state :=
  zip_CreateHeader path.

Definition zip_CreateDir (path : str) : option str → zip_state → option error * zip_state :=
  zip_CreateHeader (path ++ [slash]).

Definition zip_Write (data : str) (short : option (nat * str)) (z : zip_state)
    : (nat * option error) * zip_state :=
  match last (z_entries z) with
  | Some (FileEntry _ _) =>
      match short with
      | Some (n, m) => ((Nat.min n (length data), Some (OsError false m)),
                        mkZip (append_data (take n data) (z_entries z)) (z_closed z))
      | None => ((length data, None), mkZip (append_data data (z_entries z)) (z_closed z))
      end
  | _ => match data with
         | [] => ((0, None), z)
         | _ :: _ => ((0, Some (ErrorString (lit "zip: write to directory"))), z)
         end
  end.

Definition zip_Close (fault : option str) (z : zip_state) : option error * zip_state :=
  match fault with
  | Some m => (Some (OsError false m), z)
  | None => if z_closed z then (Some (ErrorString (lit "zip: writer closed twice")), z)
            else (None, mkZip (z_entries z) true)
  end.

#[export] Instance zipArchiveWriter : ArchiveWriter zip_state := {|
  aw_new := mkZip [] false;
  aw_CreateFile := zip_CreateFile;
  aw_Write := zip_Write;
  aw_CreateDir := zip_CreateDir;
  aw_Close := zip_Close;
  aw_image := λ z, mkImage ExportTypeZip (z_entries z) (z_closed z);
  aw_pending := λ _, 0%Z
|}.

(** ** TAR *)

Record tar_state := mkTar {
  t_entries : list archive_entry;
  t_remaining : Z;          (* what the current entry's header still promises *)
  t_closed : bool
}.

Definition header_error (why : str) : error :=
  ErrorString (lit "archive/tar: cannot encode header: " ++ why).
Definition ErrWriteTooLong : error := ErrorString (lit "archive/tar: write too long").
Definition ErrWriteAfterClose : error := ErrorString (lit "archive/tar: write after close").

(** [Flush]: the previous entry must be complete. *)
Definition tar_flush (t : tar_state) : option error :=
  if (0 <? t_remaining t)%Z
  then Some (ErrorString (lit "archive/tar: missed writing " ++ Itoa (t_remaining t) ++ lit " bytes"))
  else None.

(** [WriteHeader] of a regular file. *)
Definition tar_CreateFile (path : str) (size : Z) (fault : option str) (t : tar_state)
    : option error * tar_state :=
  if t_closed t then (Some ErrWriteAfterClose, t)
  else match tar_flush t with
  | Some err => (Some err, t)
  | None =>
      if HasSuffix path [slash] then
        (Some (header_error (lit "filename may not have trailing slash")), t)
      else if (size <? 0)%Z then
        (Some (header_error (lit "negative size on header-only type")), t)
      else match fault with
           | Some m => (Some (OsError false m), t)
           | None => (None, mkTar (t_entries t ++ [FileEntry path []]) size (t_closed t))
           end
  end.

(** [WriteHeader] of a directory: a header and no content. *)
Definition tar_CreateDir (path : str) (fault : option str) (t : tar_state)
    : option error * tar_state :=
  if t_closed t then (Some ErrWriteAfterClose, t)
  else match tar_flush t, fault with
  | Some err, _ => (Some err, t)
  | None, Some m => (Some (OsError false m), t)
  | None, None => (None, mkTar (t_entries t ++ [DirEntry (path ++ [slash])]) 0 (t_closed t))
  end.

(** [Write]: what exceeds the declared size is not written. *)
Definition tar_Write (data : str) (short : option (nat * str)) (t : tar_state)
    : (nat * option error) * tar_state :=
  let room := Z.to_nat (t_remaining t) in
  match short with
  | Some (n, m) =>
      let k := Nat.min n (Nat.min room (length data)) in
      ((k, Some (OsError false m)),
       mkTar (append_data (take k data) (t_entries t)) (t_remaining t - Z.of_nat k) (t_closed t))
  | None =>
      let k := Nat.min room (length data) in
      ((k, if room <? length data then Some ErrWriteTooLong else None),
       mkTar (append_data (take k data) (t_entries t)) (t_remaining t - Z.of_nat k) (t_closed t))
  end.

Definition tar_Close (fault : option str) (t : tar_state) : option error * tar_state :=
  if t_closed t then (None, t)
  else match tar_flush t, fault with
  | Some err, _ => (Some err, t)
  | None, Some m => (Some (OsError false m), t)
  | None, None => (None, mkTar (t_entries t) (t_remaining t) true)
  end.

#[export] Instance tarArchiveWriter : ArchiveWriter tar_state := {|
  aw_new := mkTar [] 0 false;
  aw_CreateFile := tar_CreateFile;
  aw_Write := tar_Write;
  aw_CreateDir := tar_CreateDir;
  aw_Close := tar_Close;
  aw_image := λ t, mkImage ExportTypeTar (t_entries t) (t_closed t);
  aw_pending := t_remaining
|}.

(** ** What a successful call means *)

Definition aw_entries {S} `{!ArchiveWriter S} (s : S) : list archive_entry :=
  img_entries (aw_image s).

(** The content bytes of a list of entries. *)
Definition entry_bytes (e : archive_entry) : nat :=
  match e with FileEntry _ d => length d | DirEntry _ => 0 end.
Definition bytes_of (es : list archive_entry) : nat := sum_list_with entry_bytes es.

Lemma bytes_of_snoc es e : bytes_of (es ++ [e]) = bytes_of es + entry_bytes e.
Proof. unfold bytes_of. rewrite sum_list_with_app. cbn. lia. Qed.

Lemma bytes_of_append data es : bytes_of (append_data data es) ≤ bytes_of es + length data.
Proof.
  unfold append_data. destruct (last es) as [e|] eqn:E; [|lia].
  apply last_Some in E as [es' ->]. destruct e as [n d|n]; [|lia].
  rewrite length_app. cbn. replace (length es' + 1 - 1) with (length es') by lia.
  rewrite take_app_length. unfold bytes_of. rewrite !sum_list_with_app. cbn. rewrite length_app. lia.
Qed.

(** [exact]: whether the format holds entries to their declared size. *)
Class ArchiveWriterLaws (S : Type) {AW : ArchiveWriter S} (exact : bool) := {
  law_new : aw_entries aw_new = [] ∧ aw_pending aw_new = 0%Z ∧
            img_closed (aw_image aw_new) = false;
  law_CreateFile path size flt s s' :
    aw_CreateFile path size flt s = (None, s') → HasSuffix path [slash] = false →
    aw_entries s' = aw_entries s ++ [FileEntry path []] ∧ (aw_pending s <= 0)%Z ∧
    aw_pending s' = (if exact then size else 0)%Z ∧ (if exact then 0 <= size else True)%Z;
  law_Write data short s n s' es p d :
    aw_Write data short s = ((n, None), s') → aw_entries s = es ++ [FileEntry p d] →
    (if exact then 0 <= aw_pending s else True)%Z →
    n = length data ∧ aw_entries s' = es ++ [FileEntry p (d ++ data)] ∧
    aw_pending s' = (aw_pending s - if exact then Z.of_nat (length data) else 0)%Z ∧
    (if exact then 0 <= aw_pending s' else True)%Z;
  law_CreateDir path flt s s' :
    aw_CreateDir path flt s = (None, s') →
    aw_entries s' = aw_entries s ++ [DirEntry (path ++ [slash])] ∧ (aw_pending s <= 0)%Z ∧
    aw_pending s' = 0%Z;
  law_Close flt s s' :
    aw_Close flt s = (None, s') → img_closed (aw_image s) = false →
    aw_entries s' = aw_entries s ∧ (aw_pending s <= 0)%Z ∧ img_closed (aw_image s') = true;
  law_bytes :
    (∀ path size flt s, bytes_of (aw_entries (aw_CreateFile path size flt s).2) = bytes_of (aw_entries s)) ∧
    (∀ data short s, bytes_of (aw_entries (aw_Write data short s).2) ≤ bytes_of (aw_entries s) + length data) ∧
    (∀ path flt s, bytes_of (aw_entries (aw_CreateDir path flt s).2) = bytes_of (aw_entries s)) ∧
    (∀ flt s, bytes_of (aw_entries (aw_Close flt s).2) = bytes_of (aw_entries s));
  law_open : (∀ path size flt s, img_closed (aw_image (aw_CreateFile path size flt s).2) = img_closed (aw_image s)) ∧
             (∀ data short s, img_closed (aw_image (aw_Write data short s).2) = img_closed (aw_image s)) ∧
             (∀ path flt s, img_closed (aw_image (aw_CreateDir path flt s).2) = img_closed (aw_image s))
}.

#[export] Instance zip_laws : ArchiveWriterLaws zip_state false.
Proof.
  split; cbn.
  - done.
  - intros path size flt s s' H Hs. unfold zip_CreateFile, zip_CreateHeader in H.
    rewrite Hs in H. by cases_in H.
  - intros data short s n s' es p d H He _. unfold aw_entries in *. cbn in *.
    unfold zip_Write in H. rewrite He, last_snoc, append_data_snoc in H.
    destruct short as [[]|]; simplify_eq/=. done.
  - intros path flt s s' H. unfold zip_CreateDir, zip_CreateHeader in H.
    rewrite HasSuffix_app in H. by cases_in H.
  - intros flt s s' H Hc. unfold zip_Close in H. rewrite Hc in H. by cases_in H.
  - unfold aw_entries; cbn; split_and!; intros; unfold zip_CreateFile, zip_CreateDir, zip_CreateHeader,
      zip_Write, zip_Close.
    1,3,4: repeat case_match; cbn; rewrite ?bytes_of_snoc; cbn; try done; lia.
    repeat case_match; cbn [snd z_entries t_entries]; first [apply Nat.le_add_r |
      etransitivity; [apply bytes_of_append|]; apply Nat.add_le_mono_l; rewrite ?length_take; lia].
  - split_and!; intros; unfold zip_CreateFile, zip_CreateDir, zip_CreateHeader, zip_Write;
      repeat case_match; simplify_eq/=; done.
Qed.

#[export] Instance tar_laws : ArchiveWriterLaws tar_state true.
Proof.
  split; cbn.
  - done.
  - intros path size flt s s' H Hs. unfold tar_CreateFile, tar_flush in H. rewrite Hs in H.
    by cases_in H.
  - intros data short s n s' es p d H He Hp. unfold aw_entries in *. cbn in *.
    unfold tar_Write in H. rewrite He in H. destruct short as [[]|]; [simplify_eq|].
    destruct (Nat.ltb_spec (Z.to_nat (t_remaining s)) (length data)); [simplify_eq|].
    rewrite Nat.min_r in H by lia. rewrite take_ge, append_data_snoc in H by lia.
    simplify_eq/=. split_and!; [done|done|done|lia].
  - intros path flt s s' H. unfold tar_CreateDir, tar_flush in H. by cases_in H.
  - intros flt s s' H Hc. unfold tar_Close, tar_flush in H. rewrite Hc in H. by cases_in H.
  - unfold aw_entries; cbn; split_and!; intros; unfold tar_CreateFile, tar_CreateDir,
      tar_Write, tar_Close.
    1,3,4: repeat case_match; cbn; rewrite ?bytes_of_snoc; cbn; try done; lia.
    repeat case_match; cbn [snd z_entries t_entries]; first [apply Nat.le_add_r |
      etransitivity; [apply bytes_of_append|]; apply Nat.add_le_mono_l; rewrite ?length_take; lia].
  - split_and!; intros; unfold tar_CreateFile, tar_CreateDir, tar_Write;
      repeat case_match; simplify_eq/=; done.
Qed.

(** ** When a call is sure to succeed *)

Class ArchiveWriterTotal (S : Type) {AW : ArchiveWriter S} (exact : bool) := {
  total_CreateFile path size s :
    img_closed (aw_image s) = false → (aw_pending s <= 0)%Z → HasSuffix path [slash] = false →
    (Z.of_nat (length path) <= 65535)%Z → (0 <= size)%Z → ∃ s', aw_CreateFile path size None s = (None, s');
  total_Write data s es p d :
    aw_entries s = es ++ [FileEntry p d] →
    (if exact then Z.of_nat (length data) <= aw_pending s else True)%Z →
    ∃ s', aw_Write data None s = ((length data, None), s');
  total_CreateDir path s :
    img_closed (aw_image s) = false → (aw_pending s <= 0)%Z → (Z.of_nat (length path) < 65535)%Z →
    ∃ s', aw_CreateDir path None s = (None, s');
  total_Close s :
    img_closed (aw_image s) = false → (aw_pending s <= 0)%Z → ∃ s', aw_Close None s = (None, s')
}.

#[export] Instance zip_total : ArchiveWriterTotal zip_state false.
Proof.
  split; cbn.
  - intros path size s _ _ Hs Hl _. unfold zip_CreateFile, zip_CreateHeader.
    destruct (Z.ltb_spec 65535 (Z.of_nat (length path))); [lia|]. by eexists.
  - intros data s es p d He _. unfold aw_entries in He. cbn in He. unfold zip_Write.
    rewrite He, last_snoc. by eexists.
  - intros path s _ _ Hl. unfold zip_CreateDir, zip_CreateHeader. rewrite length_app. cbn [length].
    destruct (Z.ltb_spec 65535 (Z.of_nat (length path + 1))); [lia|]. by eexists.
  - intros s Hc _. unfold zip_Close. rewrite Hc. by eexists.
Qed.

Lemma tar_flush_done t : (t_remaining t <= 0)%Z → tar_flush t = None.
Proof. intros H. unfold tar_flush. by destruct (Z.ltb_spec 0 (t_remaining t)); [lia|]. Qed.

#[export] Instance tar_total : ArchiveWriterTotal tar_state true.
Proof.
  split; cbn.
  - intros path size s Hc Hp Hs Hl Hz. unfold tar_CreateFile.
    rewrite Hc, tar_flush_done, Hs by done. destruct (Z.ltb_spec size 0); [lia|]. by eexists.
  - intros data s es p d He Hp. change (∃ s', tar_Write data None s = ((length data, None), s')).
    unfold tar_Write. destruct (Nat.ltb_spec (Z.to_nat (t_remaining s)) (length data)); [lia|].
    rewrite Nat.min_r by lia. by eexists.
  - intros path s Hc Hp Hl. unfold tar_CreateDir. rewrite Hc, tar_flush_done by done. by eexists.
  - intros s Hc Hp. unfold tar_Close. rewrite Hc, tar_flush_done by done. by eexists.
Qed.
