(* ===== verification/Repository.v ===== *)
(** * The database repositories (internal/repository)

    [ArchiveRepository] and [StorageServerRepository]: every method runs its
    query in one round trip, scans the rows and reports errors; the files of
    a tree are fetched in keyset pages. *)

From S2P Require Import Prelude GoString GoPath GoError Model Prog Sql World.

Local Open Scope go_scope.

(** The interface [StorageServerRepository]: it only reads. *)
Class StorageServerRepository := {
  ListServers : prog World (error + list StorageServer);
  ListServers_observer : observer ListServers
}.

(** The interface [repository.ArchiveRepository]; its methods only read. *)
Class ArchiveRepository := {
  FolderExists : str → prog World (error + bool);
  GetFolderTree : str → prog World (error + list ArchiveFolder);
  GetFilesForFolderTree : str → prog World (error + list ArchiveFile);
  FolderExists_observer : ∀ id, observer (FolderExists id);
  GetFolderTree_observer : ∀ id, observer (GetFolderTree id);
  GetFilesForFolderTree_observer : ∀ id, observer (GetFilesForFolderTree id)
}.

(** The loop [for rows.Next() { rows.Scan(..); append }]. *)
Fixpoint scan_rows {UT : UnicodeTables} {R} (msg : str) (rows : list (error + R)) (acc : list R) : error + list R :=
  match rows with
  | [] => inr acc
  | inl err :: _ => inl (Errorf_w msg err [])
  | inr r :: rows' => scan_rows msg rows' (acc ++ [r])
  end.

(** The common body: query, scan every row, check [rows.Err()]. *)
Definition query_all {UT : UnicodeTables} {ENV : Env} {R} (query_msg scan_msg iterate_msg : str)
    (sem : Database → option (list R)) : prog World (error + list R) :=
  r ← query sem;
  match r with
  | inl err => Ret (inl (Errorf_w query_msg err []))
  | inr (rows, rows_err) =>
      match scan_rows scan_msg rows [] with
      | inl err => Ret (inl err)
      | inr l =>
          match rows_err with
          | Some err => Ret (inl (Errorf_w iterate_msg err []))
          | None => Ret (inr l)
          end
      end
  end.

Section repository.
Context {UT : UnicodeTables} {ENV : Env} {COL : Collation}.

(** [QueryRow(..).Scan(&exists)]: no row is an error too. *)
Definition pg_FolderExists (folderID : str) : prog World (error + bool) :=
  r ← query (λ db, Some [folderExistsQuery db folderID]);
  let wrap err := Ret (inl (Errorf_w (lit "check folder exists: ") err [])) in
  match r with
  | inl err => wrap err
  | inr ([], Some err) => wrap err
  | inr ([], None) => wrap (ErrorString (lit "no rows in result set"))
  | inr (inl err :: _, _) => wrap err
  | inr (inr _ :: _, Some err) => wrap err
  | inr (inr exists_ :: _, None) => Ret (inr exists_)
  end.

Definition pg_GetFolderTree (rootFolderID : str) : prog World (error + list ArchiveFolder) :=
  query_all (lit "query folder tree: ") (lit "scan folder row: ") (lit "iterate folder rows: ")
    (λ db, folderTreeQuery db rootFolderID).

Definition filesPageSize : nat := Z.to_nat 5000.

(** The cursor is the pair (archive path, file id), [None] for nil. *)
Definition getFilesPage (rootFolderID : str) (cursor : option (str * str))
    : prog World (error + list ArchiveFile) :=
  query_all (lit "query files for folder tree: ") (lit "scan file row: ") (lit "iterate file rows: ")
    (λ db, filesForFolderTreePageQuery db rootFolderID cursor filesPageSize).

(** The page loop.  It ends at the first short page; against a database that
    grows faster than it is read it need not end, so it runs on fuel. *)
Definition out_of_pages : error := ErrorString (lit "page loop has not ended").

Fixpoint files_loop (fuel : nat) (rootFolderID : str) (files : list ArchiveFile)
    (cursor : option (str * str)) : prog World (error + list ArchiveFile) :=
  match fuel with
  | O => Ret (inl out_of_pages)
  | S fuel' =>
      let* page := getFilesPage rootFolderID cursor in
      let files := files ++ page in
      if length page <? filesPageSize then Ret (inr files)
      else
        match last page with
        | None => Ret (inr files)     (* a full page has a last element *)
        | Some l => files_loop fuel' rootFolderID files (Some (file_ArchivePath l, file_FileID l))
        end
  end.

Definition pg_GetFilesForFolderTree (fuel : nat) (rootFolderID : str)
    : prog World (error + list ArchiveFile) :=
  files_loop fuel rootFolderID [] None.

(** The storage servers. *)
Definition host_le (a b : StorageServer) : Prop := coll_leb (srv_HostAddress a) (srv_HostAddress b) = true.
#[export] Instance host_le_dec : RelDecision host_le.
Proof. intros a b. unfold host_le. apply _. Defined.

Definition listStorageServersQuery (db : Database) : list StorageServer := merge_sort host_le (db_servers db).

Definition pg_ListServers : prog World (error + list StorageServer) :=
  query_all (lit "query storage servers: ") (lit "scan storage server row: ")
    (lit "iterate storage server rows: ") (λ db, Some (listStorageServersQuery db)).

(** ** Reading only *)

Lemma query_all_observer {R} a b c (sem : Database → option (list R)) :
  observer (query_all a b c sem).
Proof. apply observer_bind; [apply observer_observe|]. intros. repeat case_match; apply observer_Ret. Qed.

#[export] Instance pgStorageServerRepository : StorageServerRepository := {|
  ListServers := pg_ListServers;
  ListServers_observer := query_all_observer _ _ _ _
|}.

Lemma pg_FolderExists_observer id : observer (pg_FolderExists id).
Proof. apply observer_bind; [apply observer_observe|]. intros. repeat case_match; apply observer_Ret. Qed.

Lemma files_loop_observer fuel id files cursor : observer (files_loop fuel id files cursor).
Proof.
  revert files cursor. induction fuel as [|fuel IH]; intros files cursor; [apply observer_Ret|].
  apply observer_try; [apply query_all_observer|]. intros page.
  repeat case_match; try apply observer_Ret. apply IH.
Qed.
End repository.

(** The production repository. *)
Definition pgArchiveRepository {UT : UnicodeTables} {ENV : Env} {COL : Collation} (fuel : nat) : ArchiveRepository := {|
  FolderExists := pg_FolderExists;
  GetFolderTree := pg_GetFolderTree;
  GetFilesForFolderTree := pg_GetFilesForFolderTree fuel;
  FolderExists_observer := pg_FolderExists_observer;
  GetFolderTree_observer := λ id, query_all_observer _ _ _ _;
  GetFilesForFolderTree_observer := λ id, files_loop_observer _ _ _ _
|}.

(** ** What a query returns *)

Section facts.
Context {UT : UnicodeTables} {ENV : Env} {COL : Collation}.

Lemma scan_rows_inr {R} msg (rows : list R) acc : scan_rows msg (map inr rows) acc = inr (acc ++ rows).
Proof.
  revert acc. induction rows as [|r rows IH]; intros acc; cbn; [by rewrite app_nil_r|].
  by rewrite IH, <- app_assoc.
Qed.

Lemma scan_rows_ok {R} msg (rows : list (error + R)) acc l :
  scan_rows msg rows acc = inr l → ∃ rs, rows = map inr rs ∧ l = acc ++ rs.
Proof.
  revert acc. induction rows as [|[e|r] rows IH]; intros acc Hs; cbn in Hs; simplify_eq.
  - exists []. by rewrite app_nil_r.
  - apply IH in Hs as (rs & -> & ->). exists (r :: rs). by rewrite <- app_assoc.
Qed.

(** A list that is returned is the whole result of the query on the database
    as it was; a failed scan or a broken iteration is never a shorter list. *)
Lemma query_all_ok {R} a b c (sem : Database → option (list R)) w l w' :
  run (query_all a b c sem) w = (inr l, w') → sem (env_db (w_tick w)) = Some l ∧ w' = tick w.
Proof.
  unfold query_all. rewrite run_bind. unfold query, observe. rewrite run_atomic.
  assert (Inj (=) (=) (@inr error R)) as HI by (intros ?? [=]; done).
  destruct (env_query (w_tick w)) as [|e|i e|i e], (sem (env_db (w_tick w))) as [rows|]; try done;
    intros H; cbn in H.
  - rewrite scan_rows_inr in H. cbn in H. by simplify_eq.
  - destruct (scan_rows b _ []) as [|l'] eqn:E; [done|]. cbn in H. simplify_eq.
    apply scan_rows_ok in E as (rs & E & ->). split; [|done]. f_equal.
    assert (length rows ≤ i) as Hi.
    { destruct (decide (length rows ≤ i)) as [|Hi]; [done|].
      assert (Some (inl e) = @inr error R <$> rs !! i) as Hx; [|by destruct (rs !! i)].
      rewrite <- list_lookup_fmap. change (inr <$> rs) with (map (@inr error R) rs). rewrite <- E.
      rewrite list_lookup_insert_eq; [done|]. rewrite length_map. lia. }
    rewrite list_insert_ge in E by (by rewrite length_map).
    change (inr <$> rows = @inr error R <$> rs) in E. by apply list_fmap_eq_inj in E.
  - by destruct (scan_rows b _ []).
Qed.

Lemma query_all_total {R} a b c (sem : Database → option (list R)) w l :
  env_query (w_tick w) = QueryOk → sem (env_db (w_tick w)) = Some l →
  run (query_all a b c sem) w = (inr l, tick w).
Proof.
  intros Hq Hs. unfold query_all. rewrite run_bind. unfold query, observe. rewrite run_atomic, Hq, Hs.
  cbn. by rewrite scan_rows_inr.
Qed.

(** ** The folder tree *)

Definition folder_of (r : tree_row) : ArchiveFolder :=
  mkFolder (tr_folder_id r) (tr_parent r) (tr_name r) (tr_path r).

(** C24: the list [GetFolderTree] returns is exactly the live folders reachable
    from the root through live folders, each with the slash-joined path of
    folder names that leads to it, ordered by that path; with [folder_id] a
    primary key, no folder is listed twice. *)
Theorem GetFolderTree_ok root w folders w' :
  run (pg_GetFolderTree root) w = (inr folders, w') →
  let db := env_db (w_tick w) in
  (∀ d, d ∈ folders ↔ ∃ r, in_tree db root r ∧ d = folder_of r) ∧
  Sorted (λ a b, coll_leb (folder_ArchivePath a) (folder_ArchivePath b) = true) folders ∧
  (primary_keys db → NoDup (folder_FolderID <$> folders)).
Proof.
  intros [Hq _]%query_all_ok. cbn zeta. unfold folderTreeQuery in Hq.
  destruct (folder_tree _ root) as [rows|] eqn:E; [|done]. cbn in Hq. simplify_eq.
  assert (Total path_le) by (intros a b; apply coll_total). split_and!.
  - intros d. rewrite list_elem_of_fmap. setoid_rewrite (merge_sort_Permutation path_le rows).
    setoid_rewrite (folder_tree_in_tree _ _ _ _ E). naive_solver.
  - eapply Sorted_fmap; [|by apply Sorted_merge_sort]. done.
  - intros PK. rewrite <- list_fmap_compose. rewrite merge_sort_Permutation.
    exact (folder_tree_NoDup _ PK root rows E).
Qed.

(** C40: the recursive query terminates on every table without a cycle of
    parent links, so [GetFolderTree] then returns a list; and the bound the
    model iterates to is no restriction: if any number of rounds empties the
    working table, that bound does, with the same rows. *)
Theorem GetFolderTree_terminates root w :
  env_query (w_tick w) = QueryOk → acyclic (env_db (w_tick w)) →
  (∃ folders, run (pg_GetFolderTree root) w = (inr folders, tick w)) ∧
  (∀ fuel db rows, tree_iter fuel db (tree_base db root) = Some rows → folder_tree db root = Some rows).
Proof.
  intros Hq Hac. split; [|intros ???; apply folder_tree_ends].
  destruct (folder_tree_acyclic _ root Hac) as [rows Hr]. eexists. apply query_all_total; [done|].
  unfold folderTreeQuery. by rewrite Hr.
Qed.

(** ** The files of the tree *)

(** Where the page loop is: [files] read, [rest] to come. *)
Definition loop_at (rows files rest : list ArchiveFile) (cursor : option (str * str)) : Prop :=
  in_order rows = files ++ rest ∧
  ((cursor = None ∧ files = []) ∨ ∃ xs f, files = xs ++ [f] ∧ cursor = Some (file_key f)).

Lemma loop_at_page rows files rest cursor limit :
  NoDup (file_FileID <$> rows) → loop_at rows files rest cursor →
  page_of rows cursor limit = take limit rest.
Proof.
  intros Hnd [E [[-> ->]|(xs & f & -> & ->)]].
  - by rewrite page_of_first, E.
  - apply page_of_rest with xs; [done|]. by rewrite E, <- app_assoc.
Qed.

Lemma loop_at_next rows files rest cursor l n :
  loop_at rows files rest cursor → last (take n rest) = Some l →
  loop_at rows (files ++ take n rest) (drop n rest) (Some (file_ArchivePath l, file_FileID l)).
Proof.
  intros [E _] [k Hk]%last_Some. split; [by rewrite <- app_assoc, take_drop|].
  right. exists (files ++ k), l. by rewrite Hk, app_assoc.
Qed.

Lemma filesPageSize_pos : 0 < filesPageSize.
Proof. apply Nat2Z.inj_lt. unfold filesPageSize. rewrite Z2Nat.id; lia. Qed.
#[local] Opaque filesPageSize.

Lemma files_loop_ok db root rows :
  (∀ t, env_db t = db) → resolved db root = Some rows → NoDup (file_FileID <$> rows) →
  ∀ fuel files rest cursor w res w',
  loop_at rows files rest cursor →
  run (files_loop fuel root files cursor) w = (inr res, w') → res = in_order rows.
Proof.
  intros Hdb Hrows Hnd. induction fuel as [|fuel IH]; intros files rest cursor w res w' Hat Hrun; [done|].
  cbn [files_loop] in Hrun. rewrite run_try in Hrun.
  destruct (run (getFilesPage root cursor) w) as [[e|page] w1] eqn:Hp; [done|].
  apply query_all_ok in Hp as [Hp ->]. rewrite Hdb in Hp.
  unfold filesForFolderTreePageQuery in Hp. rewrite Hrows in Hp. cbn in Hp.
  rewrite (loop_at_page rows files rest) in Hp by done. injection Hp as <-.
  pose proof filesPageSize_pos. rewrite length_take in Hrun.
  destruct (Nat.ltb_spec (filesPageSize `min` length rest) filesPageSize) as [Hlt|Hge].
  - cbn in Hrun. simplify_eq. destruct Hat as [-> _]. f_equal. apply take_ge. lia.
  - destruct (last (take filesPageSize rest)) as [l|] eqn:El.
    + eapply IH; [|exact Hrun]. by apply loop_at_next with (cursor := cursor).
    + apply last_None in El. apply (f_equal length) in El. rewrite length_take in El. cbn in El. lia.
Qed.

Lemma files_loop_total db root rows :
  (∀ t, env_db t = db) → (∀ t, env_query t = QueryOk) →
  resolved db root = Some rows → NoDup (file_FileID <$> rows) →
  ∀ fuel files rest cursor w, loop_at rows files rest cursor →
  length rest < fuel * filesPageSize →
  ∃ res w', run (files_loop fuel root files cursor) w = (inr res, w').
Proof.
  intros Hdb Hq Hrows Hnd. induction fuel as [|fuel IH]; intros files rest cursor w Hat Hlen; [lia|].
  cbn [files_loop]. rewrite run_try. unfold getFilesPage.
  rewrite (query_all_total _ _ _ _ _ (take filesPageSize rest)); [|done|].
  2:{ rewrite Hdb. unfold filesForFolderTreePageQuery. rewrite Hrows. cbn.
      by rewrite (loop_at_page rows files rest). }
  destruct (Nat.ltb_spec (length (take filesPageSize rest)) filesPageSize) as [Hlt|Hge].
  - cbn. eauto.
  - rewrite length_take in Hge. destruct (last (take filesPageSize rest)) as [l|] eqn:El; [|cbn; eauto].
    apply (IH _ (drop filesPageSize rest)); [by eapply loop_at_next|]. rewrite length_drop. lia.
Qed.

(** [f] is the file row [fi] of the live tree, at a latest version. *)
Definition tree_file (db : Database) (root : str) (ft : tree_row) (fi : file_row) : Prop :=
  in_tree db root ft ∧ fi ∈ db_files db ∧ fi_folder_id fi = tr_folder_id ft ∧
  fi_user_id fi = tr_user_id ft ∧ fi_deleted fi = false.

Lemma elem_of_resolved db root rows f :
  resolved db root = Some rows →
  f ∈ rows ↔ ∃ ft fi v, tree_file db root ft fi ∧ latest_version db (fi_file_id fi) = Some v ∧
                        f = file_at ft fi v.
Proof.
  intros Hres. unfold resolved in Hres. destruct (folder_tree db root) as [ts|] eqn:E; [|done].
  cbn in Hres. simplify_eq. rewrite list_elem_of_bind. setoid_rewrite elem_of_resolved_in.
  setoid_rewrite (folder_tree_in_tree _ _ _ _ E). unfold tree_file. naive_solver.
Qed.

Lemma files_loop_resolved fuel root files cursor w res w' :
  run (files_loop fuel root files cursor) w = (inr res, w') →
  is_Some (resolved (env_db (w_tick w)) root).
Proof.
  destruct fuel as [|fuel]; [done|]. cbn [files_loop]. rewrite run_try.
  destruct (run (getFilesPage root cursor) w) as [[e|page] w1] eqn:Hp; [done|]. intros _.
  apply query_all_ok in Hp as [Hp _]. unfold filesForFolderTreePageQuery in Hp.
  destruct (resolved _ root); [eauto|done].
Qed.

(** C14: keyset pagination loses and repeats nothing: on a database that does
    not change meanwhile, a list returned by [GetFilesForFolderTree] holds
    exactly the undeleted files of the live folders of the tree (of the same
    user as their folder, with at least one version), each at its latest
    version and its full path, in strict (path, id) order. *)
Theorem GetFilesForFolderTree_ok db fuel root w files w' :
  (∀ t, env_db t = db) → primary_keys db →
  run (pg_GetFilesForFolderTree fuel root) w = (inr files, w') →
  StronglySorted file_lt files ∧
  (∀ f, f ∈ files → ∃ ft fi v, tree_file db root ft fi ∧ is_latest db (fi_file_id fi) v ∧
                               f = file_at ft fi v) ∧
  (∀ ft fi u, tree_file db root ft fi → u ∈ db_versions db → ve_file_id u = fi_file_id fi →
     ∃ v, is_latest db (fi_file_id fi) v ∧ file_at ft fi v ∈ files).
Proof.
  intros Hdb PK Hrun. destruct (files_loop_resolved _ _ _ _ _ _ _ Hrun) as [rows Hres].
  rewrite Hdb in Hres. pose proof (resolved_NoDup db root rows PK Hres) as Hnd.
  rewrite (files_loop_ok db root rows Hdb Hres Hnd fuel [] (in_order rows) None w files w');
    [|split; [done|by left]|done].
  split; [by apply in_order_strict|].
  assert (∀ f, f ∈ in_order rows ↔ f ∈ rows) as Hin
    by (intros f; unfold in_order; by rewrite merge_sort_Permutation).
  setoid_rewrite Hin. setoid_rewrite (elem_of_resolved _ _ _ _ Hres). split.
  - intros f (ft & fi & v & Ht & Hv%latest_version_Some & ->). by exists ft, fi, v.
  - intros ft fi u Ht Hu Hi. destruct (latest_version db (fi_file_id fi)) as [v|] eqn:E.
    + exists v. split; [by apply latest_version_Some|]. by exists ft, fi, v.
    + by apply (latest_version_None _ _ _ E) in Hi.
Qed.

Lemma resolved_length db root rows :
  primary_keys db → resolved db root = Some rows → length rows ≤ length (db_files db).
Proof.
  intros PK Hres. pose proof (resolved_NoDup db root rows PK Hres) as Hnd.
  rewrite <- (length_fmap file_FileID rows), <- (length_fmap fi_file_id (db_files db)).
  apply submseteq_length, NoDup_submseteq; [done|].
  intros x (f & -> & Hf)%list_elem_of_fmap.
  apply (elem_of_resolved _ _ _ _ Hres) in Hf as (ft & fi & v & (_ & Hfi & _) & _ & ->).
  apply list_elem_of_fmap. by exists fi.
Qed.

(** C32: the page loop terminates: on an unchanging database without a cycle
    of folders and with working queries, [GetFilesForFolderTree] returns a
    list after at most one page more than the file table fills. *)
Theorem GetFilesForFolderTree_terminates db fuel root w :
  (∀ t, env_db t = db) → (∀ t, env_query t = QueryOk) → primary_keys db → acyclic db →
  length (db_files db) < fuel * filesPageSize →
  ∃ files w', run (pg_GetFilesForFolderTree fuel root) w = (inr files, w').
Proof.
  intros Hdb Hq PK Hac Hfuel. destruct (folder_tree_acyclic db root Hac) as [ts Hts].
  assert (resolved db root = Some (ts ≫= resolved_in db)) as Hres by (unfold resolved; by rewrite Hts).
  pose proof (resolved_length _ _ _ PK Hres). set (rows := ts ≫= resolved_in db) in *.
  apply (files_loop_total db root rows Hdb Hq Hres (resolved_NoDup _ _ _ PK Hres) fuel [] (in_order rows) None);
    [split; [done|by left]|]. unfold in_order. rewrite merge_sort_Permutation. lia.
Qed.

Lemma page_of_sorted rows cursor limit :
  NoDup (file_FileID <$> rows) → StronglySorted file_lt (page_of rows cursor limit) ∧
  ∀ f, f ∈ page_of rows cursor limit → after_cursor cursor f = true.
Proof.
  intros Hnd. unfold page_of. set (l := filter _ rows). fold (in_order l).
  assert (StronglySorted file_lt (in_order l)) as Hs by (apply in_order_strict; by apply NoDup_key_filter).
  split.
  - rewrite <- (take_drop limit (in_order l)) in Hs. by apply StronglySorted_app in Hs as (_ & ? & _).
  - intros f Hf. assert (f ∈ in_order l) as Hf' by (rewrite <- (take_drop limit); set_solver).
    clear Hf. rename Hf' into Hf. unfold in_order in Hf.
    rewrite merge_sort_Permutation in Hf. by apply list_elem_of_filter in Hf as [? _].
Qed.

Lemma file_lt_trans a b c : file_lt a b → file_lt b c → file_lt a c.
Proof.
  rewrite !file_lt_iff. intros [Hab Hn] [Hbc _]. split; [by eapply key_leb_trans|].
  intros E. apply Hn. apply key_leb_antisym; [done|]. by rewrite E.
Qed.

(** The files so far are in order and the cursor is the last of them. *)
Definition sorted_to (files : list ArchiveFile) (cursor : option (str * str)) : Prop :=
  StronglySorted file_lt files ∧
  match cursor with None => files = [] | Some k => ∃ xs l, files = xs ++ [l] ∧ k = file_key l end.

Lemma sorted_to_app files cursor page :
  sorted_to files cursor → StronglySorted file_lt page →
  (∀ f, f ∈ page → after_cursor cursor f = true) → StronglySorted file_lt (files ++ page).
Proof.
  intros [Hs Hc] Hp Ha. apply StronglySorted_app_2; [|done|done]. intros x y Hx Hy.
  specialize (Ha y Hy). destruct cursor as [k|]; [|subst; set_solver].
  destruct Hc as (xs & l & -> & ->). change (file_lt l y) in Ha.
  apply elem_of_app in Hx as [Hx| ->%list_elem_of_singleton]; [|done].
  eapply file_lt_trans; [|exact Ha]. eapply StronglySorted_app_1_elem_of; [exact Hs|done|by left].
Qed.

Lemma files_loop_sorted fuel root :
  (∀ t, primary_keys (env_db t)) → ∀ files cursor w res w', sorted_to files cursor →
  run (files_loop fuel root files cursor) w = (inr res, w') → StronglySorted file_lt res.
Proof.
  intros PK. induction fuel as [|fuel IH]; intros files cursor w res w' Hst Hrun; [done|].
  cbn [files_loop] in Hrun. rewrite run_try in Hrun.
  destruct (run (getFilesPage root cursor) w) as [[e|page] w1] eqn:Hp; [done|].
  apply query_all_ok in Hp as [Hp ->]. unfold filesForFolderTreePageQuery in Hp.
  destruct (resolved (env_db (w_tick w)) root) as [rows|] eqn:Hres; [|done]. cbn in Hp.
  injection Hp as <-.
  destruct (page_of_sorted rows cursor filesPageSize (resolved_NoDup _ _ _ (PK _) Hres)) as [Hs Ha].
  pose proof (sorted_to_app _ _ _ Hst Hs Ha) as Happ.
  destruct (_ <? _); [cbn in Hrun; by simplify_eq|].
  destruct (last _) as [l|] eqn:El; [|cbn in Hrun; by simplify_eq].
  eapply IH; [|exact Hrun]. split; [done|]. apply last_Some in El as [k ->].
  exists (files ++ k), l. by rewrite app_assoc.
Qed.

(** Even when the database changes between two pages, the list
    [GetFilesForFolderTree] returns is strictly increasing in (path, id): no
    entry is ever listed twice. *)
Theorem GetFilesForFolderTree_strict fuel root w files w' :
  (∀ t, primary_keys (env_db t)) →
  run (pg_GetFilesForFolderTree fuel root) w = (inr files, w') → StronglySorted file_lt files.
Proof. intros PK. apply files_loop_sorted; [done|]. split; [constructor|done]. Qed.
End facts.

(** ** A concrete database *)

(** Folder [r] with a subfolder [c], a file in each, two versions of one. *)
Definition sample_db : Database :=
  mkDatabase
    [mkFolderRow (lit "r") None (lit "u") (lit "Docs") false;
     mkFolderRow (lit "c") (Some (lit "r")) (lit "u") (lit "sub") false]
    [mkFileRow (lit "1") (lit "r") (lit "u") (lit "b.txt") false;
     mkFileRow (lit "2") (lit "c") (lit "u") (lit "a.txt") false]
    [mkVersionRow (lit "1") 1 (lit "https://s1") (lit "/1v1") 3 (lit "h");
     mkVersionRow (lit "1") 2 (lit "https://s1") (lit "/1v2") 2 (lit "h");
     mkVersionRow (lit "2") 1 (lit "https://s1") (lit "/2v1") 2 (lit "h")]
    [mkStorageServer (lit "https://s1") (lit "k1")].

Definition db_env : Env := quiet_env sample_db no_http.

Lemma sample_db_keys : primary_keys sample_db.
Proof. split; apply (bool_decide_unpack _); by vm_compute. Qed.

Lemma sample_db_edge x y : edge sample_db x y → x = lit "r" ∧ y = lit "c".
Proof.
  intros (c & [Hc _] & Hp & <-). cbn in Hc.
  repeat (apply elem_of_cons in Hc as [->|Hc]; [cbn in Hp; simplify_eq; done|]).
  by apply not_elem_of_nil in Hc.
Qed.

Lemma sample_db_acyclic : acyclic sample_db.
Proof.
  intros x Hx. inversion Hx as [? ? E|? y ? E H]; subst.
  - apply sample_db_edge in E as [-> E]. by vm_compute in E.
  - apply sample_db_edge in E as [-> ->].
    inversion H as [? ? E'|? y ? E' _]; subst; apply sample_db_edge in E' as [E' _]; by vm_compute in E'.
Qed.

Lemma GetFolderTree_ok_witness :
  ∃ folders, (run (@pg_GetFolderTree sample_tables db_env c_collation (lit "r")) (initial_world empty_fs)).1
               = inr folders ∧ NoDup (folder_FolderID <$> folders).
Proof.
  eexists. split; [by vm_compute|].
  apply (@GetFolderTree_ok sample_tables db_env c_collation (lit "r") (initial_world empty_fs) _
    (tick (initial_world empty_fs))); [by vm_compute|exact sample_db_keys].
Defined.

Lemma GetFolderTree_terminates_witness :
  ∃ folders, run (@pg_GetFolderTree sample_tables db_env c_collation (lit "r")) (initial_world empty_fs)
             = (inr folders, tick (initial_world empty_fs)).
Proof.
  apply (@GetFolderTree_terminates sample_tables db_env c_collation (lit "r") (initial_world empty_fs));
    [done|exact sample_db_acyclic].
Defined.

Lemma GetFilesForFolderTree_ok_witness :
  ∃ files, (run (@pg_GetFilesForFolderTree sample_tables db_env c_collation 1 (lit "r"))
              (initial_world empty_fs)).1 = inr files ∧ length files = 2 ∧
           StronglySorted (@file_lt c_collation) files.
Proof.
  eexists. split_and!; [by vm_compute|by vm_compute|].
  apply (@GetFilesForFolderTree_ok sample_tables db_env c_collation sample_db 1 (lit "r")
    (initial_world empty_fs) _ (tick (initial_world empty_fs)));
    [done|exact sample_db_keys|by vm_compute].
Defined.

Lemma GetFilesForFolderTree_terminates_witness :
  ∃ files w', run (@pg_GetFilesForFolderTree sample_tables db_env c_collation 1 (lit "r"))
                (initial_world empty_fs) = (inr files, w').
Proof.
  apply (@GetFilesForFolderTree_terminates sample_tables db_env c_collation sample_db 1 (lit "r"));
    [done|done|exact sample_db_keys|exact sample_db_acyclic|].
  apply Nat.ltb_lt. by vm_compute.
Defined.

Lemma GetFilesForFolderTree_strict_witness :
  ∃ files, StronglySorted (@file_lt c_collation) files ∧ length files = 2.
Proof.
  eexists. split.
  - eapply (@GetFilesForFolderTree_strict sample_tables db_env c_collation 1 (lit "r")
      (initial_world empty_fs) _ (tick (initial_world empty_fs)));
      [intros; exact sample_db_keys|by vm_compute].
  - by vm_compute.
Defined.
