(* ===== verification/Client.v ===== *)
(** * The storage server client (internal/client/storage.go) and the
    production [FileFetcher] (internal/archive/zip.go)

    [FileFetcher] is the interface [Generator] is written against. *)

From S2P Require Import Prelude GoString GoError Model Url Prog World.

(** The interface [client.StorageClient]: a response, or an error. *)
Class StorageClient := {
  StorageClient_Get : str → str → prog World (error + http_response);
  StorageClient_observer : ∀ h l, observer (StorageClient_Get h l)
}.

Record ServerConfig := mkServerConfig { sc_BaseURL : str; sc_APIKey : str }.

Definition storageAPITokenHeader : str := lit "X-API-Token".
Definition downloadPath : str := lit "/internal/files/download".

(** [http.Transport], the fields that are set.  There is no limit on the time
    a body takes: [http.Client] has no [Timeout]. *)
Record Transport := mkTransport {
  tr_MaxIdleConns : Z;
  tr_MaxIdleConnsPerHost : Z;
  tr_IdleConnTimeout : duration;
  tr_ResponseHeaderTimeout : duration
}.

Record httpStorageClient := mkHttpStorageClient {
  hc_client : Transport;
  hc_servers : gmap str ServerConfig
}.

(** [NewHTTPStorageClient] copies the map, dropping one trailing slash of
    each base URL. *)
Definition NewHTTPStorageClient (servers : gmap str ServerConfig) (requestTimeout : duration) : httpStorageClient :=
  mkHttpStorageClient (mkTransport 100 50 (90 * Second) requestTimeout)
    ((λ v, mkServerConfig (TrimSuffix (sc_BaseURL v) (lit "/")) (sc_APIKey v)) <$> servers).

(** [run] in cmd/server/main.go builds the map from the servers table. *)
Definition server_map (rows : list StorageServer) : gmap str ServerConfig :=
  foldl (λ m s, <[srv_HostAddress s := mkServerConfig (srv_HostAddress s) (srv_APIKey s)]> m) ∅ rows.

(** The interface [archive.FileFetcher]: a body, or an error. *)
Class FileFetcher := {
  Fetch : ArchiveFile → prog World (error + http_response);
  Fetch_observer : ∀ f, observer (Fetch f)
}.

(** [StorageFetcher.Fetch]; the [responseBody] reads and closes the body of
    the response. *)
Definition StorageFetcher_Fetch {SC : StorageClient} (af : ArchiveFile) : prog World (error + http_response) :=
  StorageClient_Get (file_HostedAt af) (file_FileLocation af).

#[export] Instance StorageFetcher {SC : StorageClient} : FileFetcher := {|
  Fetch := StorageFetcher_Fetch;
  Fetch_observer := λ f, StorageClient_observer _ _
|}.

Section client.
Context {UT : UnicodeTables} {ENV : Env} (c : httpStorageClient).

(** The request [Get] sends to the parsed URL [reqURL]. *)
Definition storage_request (cfg : ServerConfig) (reqURL : str * str) (location : str) : http_request :=
  let '(base, query) := reqURL in
  mkHttpRequest base (Encode (Values_Set (ParseQuery query) (lit "file_location") location))
    (if bool_decide (sc_APIKey cfg = []) then [] else [(storageAPITokenHeader, sc_APIKey cfg)]).

Definition client_Get (hostAddress location : str) : prog World (error + http_response) :=
  match hc_servers c !! hostAddress with
  | None => Ret (inl (ErrUnknownServer hostAddress))
  | Some cfg =>
      match env_url (sc_BaseURL cfg ++ downloadPath) with
      | inl err => Ret (inl (Errorf_w (lit "build storage url: ") err []))
      | inr reqURL =>
          let req := storage_request cfg reqURL location in
          match env_request_error req with
          | Some err => Ret (inl (Errorf_w (lit "build storage request: ") err []))
          | None =>
              r ← observe (λ t, env_http t req);
              match r with
              | inl err =>
                  Ret (inl (Errorf_w (lit "request file from storage server " ++ Quote hostAddress
                                      ++ lit ": ") err []))
              | inr resp =>
                  if ((rs_status resp <? 200) || (300 <=? rs_status resp))%Z
                  then Ret (inl (ErrStorageResponse hostAddress (rs_status resp)))
                  else Ret (inr resp)
              end
          end
      end
  end.

Lemma client_Get_observer h l : observer (client_Get h l).
Proof.
  unfold client_Get. repeat case_match; try apply observer_Ret.
  apply observer_bind; [apply observer_observe|]. intros [e|r]; [done|]. by case_match.
Qed.

#[export] Instance httpStorageClient_Get : StorageClient := {|
  StorageClient_Get := client_Get;
  StorageClient_observer := client_Get_observer
|}.

(** [Get] returns a body only for a configured server that answered its
    request with a 2xx status. *)
Lemma client_Get_request h l resp w w' :
  run (client_Get h l) w = (inr resp, w') →
  ∃ cfg u, hc_servers c !! h = Some cfg ∧ (200 <= rs_status resp < 300)%Z ∧
  env_url (sc_BaseURL cfg ++ downloadPath) = inr u ∧ env_http (w_tick w) (storage_request cfg u l) = inr resp.
Proof.
  unfold client_Get. intros H. destruct (hc_servers c !! h) as [cfg|]; [|done]. exists cfg.
  destruct (env_url _) as [|u]; [done|]. exists u. destruct (env_request_error _); [done|].
  cbn in H. destruct (env_http _ _) as [|r]; [done|].
  destruct (_ || _) eqn:E; [done|]. breflect. by simplify_eq/=.
Qed.
End client.

(** The parameter reaches the server as it was recorded. *)
Lemma storage_request_location cfg u l : Query_Get (hr_RawQuery (storage_request cfg u l)) (lit "file_location") = l.
Proof. destruct u as [base query]. apply Query_Get_Set. Qed.

(** The servers table as the client sees it: the last row of a host wins. *)
Lemma server_map_lookup rows h :
  server_map rows !! h =
  (λ s, mkServerConfig (srv_HostAddress s) (srv_APIKey s))
    <$> last (filter (λ s, srv_HostAddress s = h) rows).
Proof.
  unfold server_map. rewrite <- (rev_involutive rows).
  induction (rev rows) as [|s l IH]; [done|]. cbn [rev].
  rewrite foldl_app. cbn [foldl]. rewrite lookup_insert, filter_app, IH.
  rewrite filter_cons, filter_nil. case_decide as Hs.
  - by rewrite last_snoc.
  - by rewrite app_nil_r.
Qed.

(** C29: each server is asked for the right file with its own key: with the
    map built from the servers table, the request that yields a body for files
    hosted at [h] is built from a table row for [h]: its URL is what [url.Parse]
    makes of [h] (less one trailing slash) and the download path, with the
    query replaced by one that gives back exactly the recorded location; and
    its only header is that row's key, absent if the key is empty.  It is the
    request [Get] hands to net/http, which follows redirects by itself. *)
Theorem storage_key_stays_home {UT : UnicodeTables} {ENV : Env} rows timeout h l resp w w' :
  run (client_Get (NewHTTPStorageClient (server_map rows) timeout) h l) w = (inr resp, w') →
  ∃ row req query, row ∈ rows ∧ srv_HostAddress row = h ∧ env_http (w_tick w) req = inr resp ∧
  (200 <= rs_status resp < 300)%Z ∧
  env_url (TrimSuffix h (lit "/") ++ downloadPath) = inr (hr_url req, query) ∧
  Query_Get (hr_RawQuery req) (lit "file_location") = l ∧
  hr_Header req = (if bool_decide (srv_APIKey row = []) then [] else [(storageAPITokenHeader, srv_APIKey row)]).
Proof.
  intros (cfg & [base query] & Hcfg & Hst & Hu & Hr)%client_Get_request. unfold NewHTTPStorageClient in Hcfg.
  cbn [hc_servers] in Hcfg. rewrite lookup_fmap, server_map_lookup in Hcfg.
  destruct (last (filter _ rows)) as [row|] eqn:E; [|done]. cbn in Hcfg. injection Hcfg as <-.
  apply last_elem_of, list_elem_of_filter in E as [<- Hin]. eexists row, _, query.
  split_and!; [done|done|exact Hr|lia..|exact Hu|apply storage_request_location|done].
Qed.

(** One server that answers every request with two bytes. *)
Definition sample_rows : list StorageServer := [mkStorageServer (lit "https://s1/") (lit "k1")].
Definition sample_http (_ : http_request) : error + http_response :=
  inr (mkHttpResponse 200 (lit "hi") None).

Lemma storage_key_stays_home_witness :
  ∃ req, hr_url req = lit "https://s1/internal/files/download" ∧
         Query_Get (hr_RawQuery req) (lit "file_location") = lit "/a b&c" ∧
         hr_Header req = [(storageAPITokenHeader, lit "k1")].
Proof.
  destruct (@storage_key_stays_home sample_tables (quiet_env empty_db sample_http) sample_rows Second
    (lit "https://s1/") (lit "/a b&c") (mkHttpResponse 200 (lit "hi") None)
    (initial_world empty_fs) (tick (initial_world empty_fs))) as (row & req & q & H1 & _ & _ & _ & H4 & H2 & H3);
    [by vm_compute|].
  apply list_elem_of_singleton in H1. subst row. exists req. rewrite H2, H3. split_and!; [|done|done].
  assert (Some (lit "https://s1/internal/files/download", []) = Some (hr_url req, q)) as E
    by (revert H4; generalize (hr_url req); intros u; vm_compute; by intros [= <- <-]).
  by injection E.
Defined.
