(* ===== verification/Generator.v ===== *)
(** * Archive generation (internal/archive/zip.go, [Generator])

    [Generate] and [writeFile], against the [ArchiveWriter] and
    [FileFetcher] interfaces, with Go's 64-bit arithmetic on sizes. *)

From S2P Require Import Prelude GoString GoPath GoError Model Sanitize Prog FS World Writer Client.

(** The first [n] bytes, nothing for [n <= 0]. *)
Fixpoint take_Z {A} (n : Z) (l : list A) : list A :=
  match l with
  | [] => []
  | x :: l' => if (n <=? 0)%Z then [] else x :: take_Z (n - 1) l'
  end.

(** [io.LimitReader(body, n)]: the bytes it delivers and the error, if any,
    that ends it before the limit does. *)
Definition LimitReader (body : http_response) (n : Z) : str * option error :=
  (take_Z n (rs_body body),
   if (Z.of_nat (length (rs_body body)) <? n)%Z then rs_body_err body else None).

(** [ProgressFunc], nil or a closure over a variable of type [J]. *)
Abbreviation ProgressFunc J := (option (Z → Z → J → prog World J)).

Section generator.
Context {UT : UnicodeTables} {ENV : Env} {FF : FileFetcher}.
Context {S J : Type} {AW : ArchiveWriter S}.
Context (MaxSizeBytes : Z).

(** A writer method: its writes reach the open file [ino]. *)
Definition writer_call {X} (ino : nat) (m : nat → S → X * S) (s : S) : prog World (X * S) :=
  atomic (λ w, let '(x, s') := m (w_tick w) s in
               ((x, s'), set_fs (sys_write ino (aw_image s') (w_fs w)) (tick w))).

(** The new running total of bytes, or an error. *)
Definition writeFile (ino : nat) (archivePath : str) (f : ArchiveFile) (processedBytes : Z) (s : S)
    : prog World ((error + Z) * S) :=
  r ← Fetch f;
  match r with
  | inl err => Ret (inl (Errorf_w (lit "fetch from storage: ") err []), s)
  | inr body =>
      '(cerr, s) ← writer_call ino (λ t, aw_CreateFile archivePath (file_FileSize f) (env_fault t)) s;
      match cerr with
      | Some err => Ret (inl (Errorf_w (lit "create archive entry: ") err []), s)
      | None =>
          let '(data, rerr) := LimitReader body (add64 (sub64 MaxSizeBytes processedBytes) 1) in
          '((n, werr), s) ← writer_call ino (λ t, aw_Write data (env_short_write t)) s;
          match werr, rerr with
          | Some err, _ | None, Some err =>
              Ret (inl (Errorf_w (lit "stream file content: ") err []), s)
          | None, None =>
              let processedBytes := add64 processedBytes (Z.of_nat n) in
              if (MaxSizeBytes <? processedBytes)%Z
              then Ret (inl (ErrSizeLimitExceeded MaxSizeBytes), s)
              else Ret (inr processedBytes, s)
          end
      end
  end.

(** The loop over [manifest.Files]. *)
Fixpoint write_files (ctx : context) (onProgress : ProgressFunc J) (ino : nat)
    (files : list ArchiveFile) (processedFiles processedBytes : Z) (s : S) (j : J)
    : prog World (option error * S * J) :=
  match files with
  | [] => Ret (None, s, j)
  | f :: files' =>
      cerr ← ctx_Err ctx;
      match cerr with
      | Some err => Ret (Some err, s, j)
      | None =>
          match sanitizeArchivePath (file_ArchivePath f) with
          | inl err => Ret (Some (Errorf_w (lit "file " ++ file_FileID f ++ lit ": ") err []), s, j)
          | inr archivePath =>
              if (MaxSizeBytes <? add64 processedBytes (file_FileSize f))%Z
              then Ret (Some (ErrSizeLimitExceeded MaxSizeBytes), s, j)
              else
                '(r, s) ← writeFile ino archivePath f processedBytes s;
                match r with
                | inl err =>
                    Ret (Some (Errorf_w (lit "write file " ++ file_FileID f ++ lit " ("
                                         ++ file_ArchivePath f ++ lit "): ") err []), s, j)
                | inr processedBytes =>
                    let processedFiles := add64 processedFiles 1 in
                    j ← match onProgress with
                        | Some g => g processedFiles processedBytes j
                        | None => Ret j
                        end;
                    write_files ctx onProgress ino files' processedFiles processedBytes s j
                end
          end
      end
  end.

(** The loop over [manifest.EmptyFolders]. *)
Fixpoint write_dirs (ino : nat) (dirs : list ArchiveFolder) (s : S) : prog World (option error * S) :=
  match dirs with
  | [] => Ret (None, s)
  | d :: dirs' =>
      match sanitizeArchivePath (folder_ArchivePath d) with
      | inl err => Ret (Some (Errorf_w (lit "folder " ++ folder_FolderID d ++ lit ": ") err []), s)
      | inr dirPath =>
          '(err, s) ← writer_call ino (λ t, aw_CreateDir dirPath (env_fault t)) s;
          match err with
          | Some err =>
              Ret (Some (Errorf_w (lit "create directory entry " ++ dirPath ++ lit ": ") err []), s)
          | None => write_dirs ino dirs' s
          end
      end
  end.

(** [Generate] with the writer chosen. *)
Definition generate_with (ctx : context) (ino : nat) (manifest : ArchiveManifest)
    (onProgress : ProgressFunc J) (j : J) : prog World (option error * S * J) :=
  '(e, s, j) ← write_files ctx onProgress ino (man_Files manifest) 0 0 aw_new j;
  match e with
  | Some err => Ret (Some err, s, j)
  | None =>
      '(e, s) ← write_dirs ino (man_EmptyFolders manifest) s;
      match e with
      | Some err => Ret (Some err, s, j)
      | None =>
          '(e, s) ← writer_call ino (λ t, aw_Close (env_fault t)) s;
          match e with
          | Some err => Ret (Some (Errorf_w (lit "close archive writer: ") err []), s, j)
          | None => Ret (None, s, j)
          end
      end
  end.
End generator.

(** [Generator]; its [Fetcher] is the instance of the interface. *)
Record Generator := mkGenerator { gen_MaxSizeBytes : Z; gen_copyBufSize : Z }.
Definition NewGenerator (maxSizeBytes : Z) : Generator := mkGenerator maxSizeBytes (Z.shiftl 1 20).

(** [newArchiveWriter] picks the format; [Generate] streams [manifest] into
    the open file [ino].  The size of the copy buffer decides how the copy is
    cut into reads and writes, not what is copied. *)
Definition Generate {UT : UnicodeTables} {ENV : Env} {FF : FileFetcher} {J : Type} (g : Generator)
    (ctx : context) (ino : nat) (manifest : ArchiveManifest) (onProgress : ProgressFunc J) (j : J)
    : prog World (option error * J) :=
  if bool_decide (man_ExportType manifest = ExportTypeTar)
  then '(e, _, j) ← generate_with (S := tar_state) (gen_MaxSizeBytes g) ctx ino manifest onProgress j; Ret (e, j)
  else '(e, _, j) ← generate_with (S := zip_state) (gen_MaxSizeBytes g) ctx ino manifest onProgress j; Ret (e, j).

(** ** Facts on the pieces *)

Lemma take_Z_take {A} (n : Z) (l : list A) : take_Z n l = take (Z.to_nat n) l.
Proof.
  revert n. induction l as [|x l IH]; intros n; cbn; [by rewrite take_nil|].
  destruct (Z.leb_spec n 0).
  - by replace (Z.to_nat n) with 0 by lia.
  - rewrite IH. by replace (Z.to_nat n) with (S (Z.to_nat (n - 1))) by lia.
Qed.

Lemma take_Z_length {A} (n : Z) (l : list A) : length (take_Z n l) ≤ Z.to_nat n.
Proof. rewrite take_Z_take, length_take. lia. Qed.

(** What the limit of [writeFile] lets through: a body that fits is
    delivered whole, with the error that ended it. *)
Lemma LimitReader_fits body n data rerr :
  LimitReader body n = (data, rerr) → (Z.of_nat (length data) < n)%Z →
  data = rs_body body ∧ rerr = rs_body_err body.
Proof.
  unfold LimitReader. intros [= <- <-]. rewrite take_Z_take, length_take. intros H.
  rewrite take_ge by lia. split; [done|]. by destruct (Z.ltb_spec (Z.of_nat (length (rs_body body))) n); [|lia].
Qed.

Lemma sanitized_no_slash {UT : UnicodeTables} p q :
  sanitizeArchivePath p = inr q → HasSuffix q [slash] = false.
Proof.
  intros (_ & _ & _ & _ & Hreal)%sanitized_path_safe.
  destruct (HasSuffix q [slash]) eqn:E; [|done]. apply HasSuffix_spec in E as [k ->].
  rewrite Split_app_gen in Hreal. apply Forall_app in Hreal as [_ Hreal].
  apply Forall_cons_1 in Hreal as [(Hne & _) _]. done.
Qed.

(** Only the contents of inode [ino] changed. *)
Definition only_inode (ino : nat) (s s' : fs image) : Prop :=
  fs_names s' = fs_names s ∧ fs_next s' = fs_next s ∧
  ∀ j, j ≠ ino → fs_data s' !! j = fs_data s !! j.

#[export] Instance only_inode_preorder ino : PreOrder (only_inode ino).
Proof.
  split; [by intros s|]. intros s1 s2 s3 (A1 & A2 & A3) (B1 & B2 & B3).
  split_and!; [congruence..|]. intros j Hj. rewrite B3, A3; done.
Qed.

Lemma only_inode_write ino c s : only_inode ino s (sys_write ino c s).
Proof. split_and!; [done..|]. intros j Hj. cbn. by rewrite lookup_insert_ne. Qed.

(** The disk shows the writer's state, or nothing has been written yet. *)
Definition on_disk {S} {AW : ArchiveWriter S} (ino : nat) (s : S) (w : World) : Prop :=
  fs_data (w_fs w) !! ino = Some (aw_image s).

Lemma fs_iter_tick n w : w_fs (Nat.iter n tick w) = w_fs w.
Proof. induction n; cbn; done. Qed.

Lemma run_Fetch {FF : FileFetcher} f w :
  ∃ n, run (Fetch f) w = ((run (Fetch f) w).1, Nat.iter n tick w).
Proof.
  destruct (observer_run _ (Fetch_observer f) w) as [n H]. exists n. rewrite <- H. apply surjective_pairing.
Qed.

(** ** One file *)

Section correctness.
Context {UT : UnicodeTables} {ENV : Env} {FF : FileFetcher}.
Context {S J : Type} {AW : ArchiveWriter S} {exact : bool} {L : ArchiveWriterLaws S exact}.
Context (MaxSizeBytes : Z) (Hmax : (0 <= MaxSizeBytes < max_int64)%Z).

Lemma run_writer_call {X} ino (m : nat → S → X * S) s w :
  run (writer_call ino m s) w =
    (m (w_tick w) s, set_fs (sys_write ino (aw_image (m (w_tick w) s).2) (w_fs w)) (tick w)).
Proof. unfold writer_call. rewrite run_atomic. by destruct (m (w_tick w) s). Qed.

(** [e] is the entry of [f]: named by its sanitised path, holding the whole
    body the storage server delivered. *)
Definition entry_for (f : ArchiveFile) (e : archive_entry) : Prop :=
  ∃ path body wt, sanitizeArchivePath (file_ArchivePath f) = inr path ∧
    (run (Fetch f) wt).1 = inr body ∧ rs_body_err body = None ∧
    e = FileEntry path (rs_body body).

(** [e] has the size recorded for [f]. *)
Definition sized (f : ArchiveFile) (e : archive_entry) : Prop :=
  Z.of_nat (entry_bytes e) = file_FileSize f.

(** What every writer call leaves alone, and that it reaches the disk. *)
Definition written (ino : nat) (s s' : S) (w w' : World) : Prop :=
  only_inode ino (w_fs w) (w_fs w') ∧
  (on_disk ino s' w' ∨ (s' = s ∧ w_fs w' = w_fs w)) ∧
  img_closed (aw_image s') = img_closed (aw_image s).

Lemma written_fs ino s w w' : w_fs w' = w_fs w → written ino s s w w'.
Proof. intros H. unfold written. rewrite H. split_and!; [done|by right|done]. Qed.

Lemma written_trans ino s1 s2 s3 w1 w2 w3 :
  written ino s1 s2 w1 w2 → written ino s2 s3 w2 w3 → written ino s1 s3 w1 w3.
Proof.
  intros (A & B & C) (A' & B' & C'). split_and!; [by transitivity (w_fs w2)| |congruence].
  destruct B' as [?|[-> H]]; [by left|]. unfold on_disk in *. rewrite H.
  destruct B as [?|[-> ?]]; [by left|by right].
Qed.

(** A writer method that does not close the container. *)
Lemma written_call {X} ino (m : nat → S → X * S) s w :
  (∀ t, img_closed (aw_image (m t s).2) = img_closed (aw_image s)) →
  written ino s (m (w_tick w) s).2 w
    (set_fs (sys_write ino (aw_image (m (w_tick w) s).2) (w_fs w)) (tick w)).
Proof.
  intros Hc. split_and!; [apply only_inode_write| |apply Hc].
  left. unfold on_disk. cbn. by rewrite lookup_insert_eq.
Qed.

Lemma limit_value pb : (0 <= pb <= MaxSizeBytes)%Z →
  add64 (sub64 MaxSizeBytes pb) 1 = (MaxSizeBytes - pb + 1)%Z.
Proof.
  intros Hpb. unfold add64, sub64. rewrite (wrap64_id (MaxSizeBytes - pb)), wrap64_id; [done|..];
  unfold in_int64, min_int64, max_int64 in *; lia.
Qed.

(** After a successful [writeFile] of [f]. *)
Definition file_written (path : str) (f : ArchiveFile) (pb pb' : Z) (s s' : S) (w : World) : Prop :=
  ∃ body, (run (Fetch f) w).1 = inr body ∧ rs_body_err body = None ∧
  aw_entries s' = aw_entries s ++ [FileEntry path (rs_body body)] ∧
  pb' = (pb + Z.of_nat (length (rs_body body)))%Z ∧ (pb' <= MaxSizeBytes)%Z ∧
  (if exact then aw_pending s <= 0 ∧ 0 <= aw_pending s' ∧
     aw_pending s' = file_FileSize f - Z.of_nat (length (rs_body body)) else True)%Z.

(** The content copy, after the entry has been created in state [s1]. *)
Lemma copy_spec path f body pb s s1 n s2 t data rerr w :
  (0 <= pb <= MaxSizeBytes)%Z → HasSuffix path [slash] = false →
  (run (Fetch f) w).1 = inr body →
  aw_CreateFile path (file_FileSize f) (env_fault t) s = (None, s1) →
  LimitReader body (MaxSizeBytes - pb + 1) = (data, rerr) →
  aw_Write data (env_short_write (Datatypes.S t)) s1 = ((n, None), s2) → rerr = None →
  add64 pb (Z.of_nat n) = (pb + Z.of_nat n)%Z ∧
  ((pb + Z.of_nat n <= MaxSizeBytes)%Z → file_written path f pb (pb + Z.of_nat n) s s2 w).
Proof.
  intros Hpb Hs Hf Hc Hl Hw Hr. destruct (law_CreateFile _ _ _ _ _ Hc Hs) as (He & Hp0 & Hp & Hsz).
  destruct (law_Write _ _ _ _ _ _ _ _ Hw He) as (-> & He2 & Hp2 & Hp3).
  { rewrite Hp. by destruct exact. }
  pose proof (take_Z_length (MaxSizeBytes - pb + 1) (rs_body body)) as Hlen.
  replace (take_Z _ _) with data in Hlen by (unfold LimitReader in Hl; by simplify_eq).
  split. { apply wrap64_id. unfold in_int64, min_int64, max_int64 in *. lia. }
  intros Hfit. apply LimitReader_fits in Hl as [-> ->]; [|lia].
  exists body. split_and!; try done. rewrite Hp in Hp2. destruct exact; [|done].
  rewrite <- Hp2. done.
Qed.

Lemma writeFile_spec ino path f pb s w r s' w' :
  run (writeFile MaxSizeBytes ino path f pb s) w = ((r, s'), w') →
  HasSuffix path [slash] = false → (0 <= pb <= MaxSizeBytes)%Z →
  written ino s s' w w' ∧
  (Z.of_nat (bytes_of (aw_entries s')) <=
     Z.of_nat (bytes_of (aw_entries s)) + (MaxSizeBytes - pb + 1))%Z ∧
  ∀ pb', r = inr pb' → file_written path f pb pb' s s' w.
Proof.
  intros H Hs Hpb. unfold writeFile in H. rewrite run_bind in H.
  destruct (run_Fetch f w) as [k Hk]. rewrite Hk in H.
  assert (written ino s s w (Nat.iter k tick w)) as W0 by apply written_fs, fs_iter_tick.
  destruct ((run (Fetch f) w).1) as [e|body] eqn:Hbody.
  { cbn in H. simplify_eq. split_and!; [done|lia|done]. }
  rewrite run_bind, run_writer_call in H. revert H W0. generalize (Nat.iter k tick w) as wf. intros wf H W0.
  pose proof (written_call ino (λ t, aw_CreateFile path (file_FileSize f) (env_fault t)) s wf) as W1.
  specialize (W1 (λ _, proj1 law_open _ _ _ _)). cbn beta in W1.
  pose proof (proj1 law_bytes path (file_FileSize f) (env_fault (w_tick wf)) s) as B1.
  destruct (aw_CreateFile path _ _ s) as [[e|] s1] eqn:Hc.
  { cbn in H, W1, B1. simplify_eq. split_and!; [by eapply written_trans|lia|done]. }
  rewrite limit_value in H by done.
  destruct (LimitReader body _) as [data rerr] eqn:Hl.
  assert (length data ≤ Z.to_nat (MaxSizeBytes - pb + 1)) as Hlen.
  { unfold LimitReader in Hl. simplify_eq. apply take_Z_length. }
  rewrite run_bind, run_writer_call in H. cbn [w_tick set_fs tick] in H.
  pose proof (written_call ino (λ t, aw_Write data (env_short_write t)) s1
    (set_fs (sys_write ino (aw_image s1) (w_fs wf)) (tick wf))
    (λ _, proj1 (proj2 law_open) _ _ _)) as W2. cbn beta in W2. cbn [w_tick set_fs tick] in W2.
  pose proof (proj1 (proj2 law_bytes) data (env_short_write (Datatypes.S (w_tick wf))) s1) as B2.
  destruct (aw_Write data _ s1) as [[n werr] s2] eqn:Hw. cbn [fst snd] in *.
  assert (written ino s s2 w (set_fs (sys_write ino (aw_image s2) (w_fs (set_fs
    (sys_write ino (aw_image s1) (w_fs wf)) (tick wf)))) (tick (set_fs
    (sys_write ino (aw_image s1) (w_fs wf)) (tick wf))))) as W.
  { eapply written_trans; [exact W0|]. eapply written_trans; [exact W1|exact W2]. }
  clear W0 W1 W2.
  destruct werr as [e|]; [by cbn in H; simplify_eq; split_and!; [done|lia|]|].
  destruct rerr as [e|]; [by cbn in H; simplify_eq; split_and!; [done|lia|]|].
  destruct (copy_spec path f body pb s s1 n s2 (w_tick wf) data None w) as [Hn Hok]; try done.
  rewrite Hn in H. destruct (Z.ltb_spec MaxSizeBytes (pb + Z.of_nat n)); cbn in H; simplify_eq.
  - split_and!; [done|lia|done].
  - split_and!; [done|lia|]. intros pb' [= <-]. auto.
Qed.

(** ** The loops *)

(** The progress callback does not touch the archive directory, and leaves
    its variable in a state [Pj] describes. *)
Definition progress_ok (Pj : Z → Z → J → Prop) (onProgress : ProgressFunc J) : Prop :=
  match onProgress with
  | Some g => ∀ a b j w, w_fs (run (g a b j) w).2 = w_fs w ∧ Pj a b (run (g a b j) w).1
  | None => ∀ a b j, Pj a b j
  end.

Definition files_written (files : list ArchiveFile) (es : list archive_entry) (s s' : S) : Prop :=
  aw_entries s' = aw_entries s ++ es ∧ Forall2 entry_for files es ∧
  (Z.of_nat (bytes_of (aw_entries s')) <= MaxSizeBytes)%Z ∧
  (if exact then (aw_pending s' <= 0)%Z → (aw_pending s <= 0)%Z ∧ Forall2 sized files es else True).

Lemma ctx_Err_fs ctx w : w_fs (run (ctx_Err ctx) w).2 = w_fs w.
Proof. by destruct ctx. Qed.

Lemma progress_run Pj onProgress a b j w : progress_ok Pj onProgress →
  let r := run (match onProgress with Some g => g a b j | None => Ret j end) w in
  w_fs r.2 = w_fs w ∧ Pj a b r.1.
Proof. destruct onProgress; cbn; auto. Qed.

(** What the callback last reported, for [n] files of [bytes] bytes. *)
Definition reported (Pj : Z → Z → J → Prop) (files : list ArchiveFile) (pf pb : Z) (j j' : J)
    (bytes : nat) : Prop :=
  (files = [] ∧ j' = j ∧ bytes = 0) ∨
  Pj (wrap64 (pf + Z.of_nat (length files))) (pb + Z.of_nat bytes)%Z j'.

Lemma reported_cons Pj f files pf pb j j1 j' path body es :
  Pj (add64 pf 1) (pb + Z.of_nat (length body))%Z j1 →
  reported Pj files (add64 pf 1) (pb + Z.of_nat (length body)) j1 j' (bytes_of es) →
  reported Pj (f :: files) pf pb j j' (bytes_of (FileEntry path body :: es)).
Proof.
  intros H1 Hr. right. cbn [length].
  replace (bytes_of (FileEntry path body :: es)) with (length body + bytes_of es) by done.
  destruct Hr as [(-> & -> & ->)|Hr].
  - by rewrite Nat.add_0_r.
  - unfold add64 in Hr. rewrite wrap64_add_l in Hr.
    by replace (pf + Z.of_nat (Datatypes.S (length files)))%Z with (pf + 1 + Z.of_nat (length files))%Z by lia;
    replace (pb + Z.of_nat (length body + bytes_of es))%Z with (pb + Z.of_nat (length body) + Z.of_nat (bytes_of es))%Z by lia.
Qed.

Lemma write_files_spec Pj ctx onProgress ino files : progress_ok Pj onProgress →
  ∀ pf pb s j w r s' j' w',
  run (write_files MaxSizeBytes ctx onProgress ino files pf pb s j) w = ((r, s', j'), w') →
  (0 <= pb <= MaxSizeBytes)%Z → (Z.of_nat (bytes_of (aw_entries s)) <= pb)%Z →
  written ino s s' w w' ∧ (Z.of_nat (bytes_of (aw_entries s')) <= MaxSizeBytes + 1)%Z ∧
  (r = None → ∃ es, files_written files es s s' ∧ reported Pj files pf pb j j' (bytes_of es)).
Proof.
  intros Hk. induction files as [|f files IH]; intros pf pb s j w r s' j' w' H Hpb Hb.
  { cbn in H. simplify_eq. split_and!; [by apply written_fs|lia|]. intros _. exists [].
    unfold files_written. rewrite app_nil_r. split; [|by left].
    split_and!; [done|constructor|lia|]. destruct exact; [|done].
    split; [done|constructor]. }
  cbn [write_files] in H. rewrite run_bind in H.
  pose proof (ctx_Err_fs ctx w) as F0. destruct (run (ctx_Err ctx) w) as [[e|] w0].
  { cbn in H. simplify_eq. split_and!; [by apply written_fs|lia|done]. }
  destruct (sanitizeArchivePath (file_ArchivePath f)) as [e|path] eqn:Hsan.
  { cbn in H. simplify_eq. split_and!; [by apply written_fs|lia|done]. }
  destruct (MaxSizeBytes <? _)%Z.
  { cbn in H. simplify_eq. split_and!; [by apply written_fs|lia|done]. }
  rewrite run_bind in H.
  destruct (run (writeFile _ _ _ _ _ _) w0) as [[r1 s1] w1] eqn:Hw.
  apply writeFile_spec in Hw as (W & B & Hok); [|by eapply sanitized_no_slash|done].
  assert (written ino s s1 w w1) as W1.
  { eapply written_trans; [apply (written_fs ino s w w0)|]; done. }
  destruct r1 as [e|pb1]. { cbn in H. simplify_eq. split_and!; [done|lia|done]. }
  destruct (Hok pb1 eq_refl) as (body & Hbody & Herr & He & -> & Hfit & Hp).
  assert (Z.of_nat (bytes_of (aw_entries s1)) <= pb + Z.of_nat (length (rs_body body)))%Z as B1.
  { rewrite He, bytes_of_snoc. cbn [entry_bytes]. lia. }
  rewrite run_bind in H. pose proof (progress_run Pj onProgress (add64 pf 1)
    (pb + Z.of_nat (length (rs_body body))) j w1 Hk) as [F1 R1].
  destruct (run _ w1) as [j1 w2]. cbn in F1, R1.
  apply IH in H as (W2 & B2 & Hok2); [|lia|done]. split_and!; [|lia|].
  { eapply written_trans; [exact W1|]. eapply written_trans; [|exact W2]. by apply written_fs. }
  intros ->. destruct (Hok2 eq_refl) as (es & (He2 & Hes & Hbytes & Hp2) & Hrep).
  exists (FileEntry path (rs_body body) :: es). split; [split_and!; [| |done|]|].
  { by rewrite He2, He, <- app_assoc. }
  { constructor; [|done]. by eexists path, body, w0. }
  { destruct exact; [|done]. intros Hz. destruct (Hp2 Hz) as [Hz1 Hsz].
    destruct Hp as (? & ? & ?). split; [done|]. constructor; [|done]. unfold sized. cbn. lia. }
  by apply reported_cons with (j1 := j1).
Qed.

Lemma write_dirs_spec ino dirs : ∀ s w r s' w',
  run (write_dirs ino dirs s) w = ((r, s'), w') →
  written ino s s' w w' ∧ bytes_of (aw_entries s') = bytes_of (aw_entries s) ∧
  (r = None → ∃ paths,
     Forall2 (λ d p, sanitizeArchivePath (folder_ArchivePath d) = inr p) dirs paths ∧
     aw_entries s' = aw_entries s ++ ((λ p, DirEntry (p ++ [slash])) <$> paths) ∧
     (dirs = [] ∨ aw_pending s <= 0)%Z ∧ (dirs = [] → s' = s)).
Proof.
  induction dirs as [|d dirs IH]; intros s w r s' w' H.
  { cbn in H. simplify_eq. split_and!; [by apply written_fs|done|]. intros _. exists [].
    rewrite app_nil_r. split_and!; [constructor|done|by left|done]. }
  cbn [write_dirs] in H. destruct (sanitizeArchivePath _) as [e|p] eqn:Hsan.
  { cbn in H. simplify_eq. split_and!; [by apply written_fs|done|done]. }
  rewrite run_bind, run_writer_call in H.
  pose proof (written_call ino (λ t, aw_CreateDir p (env_fault t)) s w
    (λ _, proj2 (proj2 law_open) _ _ _)) as W1. cbn beta in W1.
  pose proof (proj1 (proj2 (proj2 law_bytes)) p (env_fault (w_tick w)) s) as B1.
  destruct (aw_CreateDir p _ s) as [[e|] s1] eqn:Hc; cbn [fst snd] in *.
  { cbn in H. simplify_eq. split_and!; done. }
  apply IH in H as (W2 & B2 & Hok). split_and!; [by eapply written_trans|congruence|].
  intros ->. destruct (Hok eq_refl) as (paths & Hps & He & _ & _).
  apply law_CreateDir in Hc as (He1 & Hp & _). exists (p :: paths). split_and!.
  - by constructor.
  - by rewrite He, He1, <- app_assoc.
  - by right.
  - done.
Qed.

(** What a generated container holds: one entry per file in manifest order,
    then the empty directories. *)
Definition container_for (m : ArchiveManifest) (es : list archive_entry) : Prop :=
  ∃ fes paths, es = fes ++ ((λ p, DirEntry (p ++ [slash])) <$> paths) ∧
  Forall2 entry_for (man_Files m) fes ∧
  Forall2 (λ d p, sanitizeArchivePath (folder_ArchivePath d) = inr p) (man_EmptyFolders m) paths ∧
  (Z.of_nat (bytes_of es) <= MaxSizeBytes)%Z ∧
  (if exact then Forall2 sized (man_Files m) fes else True).

Lemma generate_with_spec Pj ctx ino m onProgress j w r s' j' w' : progress_ok Pj onProgress →
  run (generate_with MaxSizeBytes ctx ino m onProgress j) w = ((r, s', j'), w') →
  only_inode ino (w_fs w) (w_fs w') ∧
  (Z.of_nat (bytes_of (aw_entries s')) <= MaxSizeBytes + 1)%Z ∧
  (on_disk ino s' w' ∨ w_fs w' = w_fs w) ∧
  (r = None → on_disk ino s' w' ∧ img_closed (aw_image s') = true ∧
              container_for m (aw_entries s') ∧
              reported Pj (man_Files m) 0 0 j j' (bytes_of (aw_entries s'))).
Proof.
  intros Hk H. unfold generate_with in H. rewrite run_bind in H.
  destruct (run (write_files _ _ _ _ _ _ _ _ _) w) as [[[r1 s1] j1] w1] eqn:H1.
  destruct law_new as (Hn1 & Hn2 & Hn3).
  apply (write_files_spec Pj) in H1 as (W1 & B1 & Hok1); [|done|lia|by rewrite Hn1; cbn; lia].
  destruct r1 as [e|].
  { cbn in H. simplify_eq. destruct W1 as (I & D & _). split_and!; naive_solver lia. }
  rewrite run_bind in H.
  destruct (run (write_dirs _ _ _) w1) as [[r2 s2] w2] eqn:H2.
  apply write_dirs_spec in H2 as (W2 & B2 & Hok2). rewrite <- B2 in B1.
  destruct (written_trans _ _ _ _ _ _ _ W1 W2) as (I & D & C).
  destruct r2 as [e|]. { cbn in H. simplify_eq. split_and!; naive_solver lia. }
  rewrite run_bind, run_writer_call in H.
  pose proof (proj2 (proj2 (proj2 law_bytes)) (env_fault (w_tick w2)) s2) as B3.
  destruct (aw_Close _ s2) as [r3 s3] eqn:Hc. cbn [fst snd] in *.
  assert (s3 = s' ∧ j1 = j' ∧ set_fs (sys_write ino (aw_image s3) (w_fs w2)) (tick w2) = w')
    as (-> & -> & <-) by (by destruct r3; cbn in H; simplify_eq).
  assert (on_disk ino s' (set_fs (sys_write ino (aw_image s') (w_fs w2)) (tick w2))) as Hd.
  { unfold on_disk. cbn. by rewrite lookup_insert_eq. }
  rewrite B3. split_and!; [|lia|by left|].
  { transitivity (w_fs w2); [done|]. apply only_inode_write. }
  intros ->. destruct r3 as [e|]; [done|].
  apply law_Close in Hc as (He3 & Hp3 & Hcl); [|congruence].
  destruct (Hok1 eq_refl) as (fes & (He1 & Hfes & Hb1 & Hsz) & Hrep). rewrite Hn1 in He1. cbn in He1.
  destruct (Hok2 eq_refl) as (paths & Hps & He2 & Hp1 & Hnil).
  split_and!; [done|done| |by rewrite B2, He1].
  exists fes, paths. rewrite He3. split_and!; [by rewrite He2, He1|done|done|lia|].
  destruct exact; [|done]. apply Hsz. destruct Hp1 as [Hd0|?]; [|done]. by rewrite <- (Hnil Hd0).
Qed.
End correctness.

(** ** [Generate] *)

Section generate.
Context {UT : UnicodeTables} {ENV : Env} {FF : FileFetcher}.
Context (MaxSizeBytes : Z) (Hmax : (0 <= MaxSizeBytes < max_int64)%Z).

Context {J : Type}.

(** The callback does not touch the archive directory. *)
Definition keeps_fs (onProgress : ProgressFunc J) : Prop := progress_ok (λ _ _ _, True) onProgress.

(** Only TAR holds entries to the recorded size. *)
Definition is_tar (m : ArchiveManifest) : bool := bool_decide (man_ExportType m = ExportTypeTar).

(** The format written: anything but TAR means ZIP. *)
Definition format_of (m : ArchiveManifest) : ExportType :=
  if is_tar m then ExportTypeTar else ExportTypeZip.

Lemma Generate_spec (Pj : Z → Z → J → Prop) ctx ino m onProgress j w r j' w' : progress_ok Pj onProgress →
  run (Generate (NewGenerator MaxSizeBytes) ctx ino m onProgress j) w = ((r, j'), w') →
  only_inode ino (w_fs w) (w_fs w') ∧
  (w_fs w' = w_fs w ∨
   ∃ img, fs_data (w_fs w') !! ino = Some img ∧
          (Z.of_nat (bytes_of (img_entries img)) <= MaxSizeBytes + 1)%Z) ∧
  (r = None → ∃ es, fs_data (w_fs w') !! ino = Some (mkImage (format_of m) es true) ∧
                    container_for (exact := is_tar m) MaxSizeBytes m es ∧
                    reported Pj (man_Files m) 0 0 j j' (bytes_of es)).
Proof.
  intros Hk H. unfold Generate, format_of, is_tar in *. destruct (bool_decide _); rewrite run_bind in H;
    destruct (run (generate_with _ _ _ _ _ _) w) as [[[r1 s1] j1] w1] eqn:E; cbn in H; simplify_eq;
    apply (generate_with_spec _ Hmax Pj) in E as (I & B & D & Hok); try done.
  all: split_and!; [done|destruct D; eauto|].
  all: intros ->; destruct (Hok eq_refl) as (Hd & Hcl & Hc & Hrep); exists (aw_entries s1).
  all: split_and!; [|done|done]; rewrite Hd; unfold aw_image, aw_entries in *; cbn in *; by rewrite Hcl.
Qed.

(** C22: the size limit, if it is not the largest [int64], holds on every outcome, also when a storage server
    delivers more than the database recorded, when a write fails half way or
    when the context ends: at most one byte beyond [MaxSizeBytes] of content
    is ever in the output file. *)
Theorem Generate_bounded ctx ino m onProgress j w r w' img : keeps_fs onProgress →
  fs_data (w_fs w) !! ino = Some empty_image →
  run (Generate (NewGenerator MaxSizeBytes) ctx ino m onProgress j) w = (r, w') →
  fs_data (w_fs w') !! ino = Some img →
  (Z.of_nat (bytes_of (img_entries img)) <= MaxSizeBytes + 1)%Z.
Proof.
  intros Hk H0 H Hi. destruct r as [r j'].
  apply (Generate_spec _ _ _ _ _ _ _ _ _ _ Hk) in H as (_ & [E|(img' & E & Hb)] & _).
  - rewrite E, H0 in Hi. simplify_eq. cbn. lia.
  - by simplify_eq.
Qed.
End generate.

(** C3: when [Generate] returns nil, and [MaxSizeBytes] is not the largest
    [int64] (for which see [writeFile_limit_wraps]), the output file is a
    finished container of the requested format whose entries are, in manifest
    order, one per file, named by its sanitised path and holding the whole body
    its storage server delivered without error, followed by one directory entry
    per empty folder; the content is at most [MaxSizeBytes] bytes, in a TAR
    every entry has exactly its recorded size, and no other file was
    touched. *)
Theorem Generate_success {UT : UnicodeTables} {ENV : Env} {FF : FileFetcher} (MaxSizeBytes : Z) {J : Type}
    ctx ino m (onProgress : ProgressFunc J) j w j' w' :
  (0 <= MaxSizeBytes < max_int64)%Z → keeps_fs onProgress →
  run (Generate (NewGenerator MaxSizeBytes) ctx ino m onProgress j) w = ((None, j'), w') →
  only_inode ino (w_fs w) (w_fs w') ∧
  ∃ es, fs_data (w_fs w') !! ino = Some (mkImage (format_of m) es true) ∧
        container_for (exact := is_tar m) MaxSizeBytes m es.
Proof.
  intros Hmax Hk H. apply (Generate_spec _ Hmax _ _ _ _ _ _ _ _ _ _ Hk) in H as (? & _ & Hok).
  split; [done|]. destruct (Hok eq_refl) as (es & ? & ? & _). eauto.
Qed.

(** ** What generation leaves alone

    Whatever else runs meanwhile, [Generate] keeps every invariant on the
    rest of the state that its callback keeps. *)

Section safety.
Context {UT : UnicodeTables} {ENV : Env} {FF : FileFetcher}.
Context {J : Type} (Inv : World → Prop) (HI : ignores_fs Inv) (Pj : J → Prop).
Context (G : World → World → Prop) (HG : ∀ w w', same_but_fs w w' → G w w').
Context (onProgress : ProgressFunc J).
(** The callback is only given [int64] values. *)
Context (Hg : ∀ g a b j, onProgress = Some g → in_int64 a → in_int64 b → Pj j → guar Inv G Pj (g a b j)).

Lemma writer_call_guar {S X} {AW : ArchiveWriter S} ino (m : nat → S → X * S) s :
  guar Inv G (λ _, True) (writer_call ino m s).
Proof using HI HG.
  apply guar_atomic. intros w Hw. destruct (m _ _). split_and!; [by apply (HI w)|by apply HG|done].
Qed.

Lemma writeFile_guar {S} {AW : ArchiveWriter S} max ino path f pb (s : S) :
  guar Inv G (λ r, match r.1 with inl _ => True | inr pb' => in_int64 pb' end) (writeFile max ino path f pb s).
Proof using HI HG.
  eapply guar_bind; [apply observer_guar; [done|done|apply Fetch_observer]|]. intros [e|body] _; [done|].
  eapply guar_bind; [apply writer_call_guar|]. intros [[e|] s1] _; [done|].
  destruct (LimitReader _ _) as [data rerr].
  eapply guar_bind; [apply writer_call_guar|]. intros [[n [e|]] s2] _; [done|].
  destruct rerr as [e|]; [done|].
  cbn zeta. destruct (max <? add64 pb (Z.of_nat n))%Z; [done|apply wrap64_range].
Qed.

Lemma write_files_guar {S} {AW : ArchiveWriter S} max ctx ino files : ∀ pf pb (s : S) j, Pj j →
  guar Inv G (λ r, Pj r.2) (write_files max ctx onProgress ino files pf pb s j).
Proof using HI HG Hg.
  induction files as [|f files IH]; intros pf pb s j Hj; [done|]. cbn [write_files].
  eapply guar_bind; [by apply ctx_Err_guar|]. intros [e|] _; [done|].
  destruct (sanitizeArchivePath _); [done|]. case_match; [done|].
  eapply guar_bind; [apply writeFile_guar|]. intros [[e|pb'] s1] Hpb; [done|].
  eapply (guar_bind Inv G Pj); [|intros j' Hj'; by apply IH].
  destruct onProgress as [g|] eqn:E; [by apply Hg; [| apply wrap64_range| |]|done].
Qed.

Lemma write_dirs_guar {S} {AW : ArchiveWriter S} ino dirs : ∀ s : S,
  guar Inv G (λ _, True) (write_dirs ino dirs s).
Proof using HI HG.
  induction dirs as [|d dirs IH]; intros s; [done|]. cbn [write_dirs].
  destruct (sanitizeArchivePath _); [done|].
  eapply guar_bind; [apply writer_call_guar|]. intros [[e|] s1] _; [done|apply IH].
Qed.

Lemma generate_with_guar {S} {AW : ArchiveWriter S} max ctx ino m j : Pj j →
  guar Inv G (λ r, Pj r.2) (generate_with (S := S) max ctx ino m onProgress j).
Proof using HI HG Hg.
  intros Hj. eapply guar_bind; [by apply write_files_guar|]. intros [[[e|] s] j'] Hj'; [done|].
  eapply guar_bind; [apply write_dirs_guar|]. intros [[e|] s1] _; [done|].
  eapply guar_bind; [apply writer_call_guar|]. by intros [[e|] s2] _.
Qed.

Lemma Generate_guar max ctx ino m j : Pj j →
  guar Inv G (λ r, Pj r.2) (Generate (NewGenerator max) ctx ino m onProgress j).
Proof using HI HG Hg.
  intros Hj. unfold Generate. case_match;
    (eapply guar_bind; [by apply generate_with_guar|]); by intros [[e s] j'] Hj'.
Qed.
End safety.

Lemma Generate_safe {UT : UnicodeTables} {ENV : Env} {FF : FileFetcher} {J} (Inv : World → Prop)
    (HI : ignores_fs Inv) (Pj : J → Prop) (onProgress : ProgressFunc J) max ctx ino m j :
  (∀ g a b j, onProgress = Some g → Pj j → safe_post Inv Pj (g a b j)) → Pj j →
  safe_post Inv (λ r, Pj r.2) (Generate (NewGenerator max) ctx ino m onProgress j).
Proof.
  intros Hg Hj. apply (guar_safe_post _ (λ _ _, True)). apply Generate_guar; [done|done| |done].
  intros g a b j' Ho _ _ Hj'. by apply safe_post_guar, Hg.
Qed.

(** ** When generation is sure to succeed *)

Section complete.
Context {UT : UnicodeTables} {ENV : Env} {FF : FileFetcher}.
Context (Hfault : ∀ t, env_fault t = None) (Hshort : ∀ t, env_short_write t = None).

(** The storage servers deliver [f] whole and as recorded, and its path can
    name an entry. *)
Definition deliverable (f : ArchiveFile) : Prop :=
  (∃ path, sanitizeArchivePath (file_ArchivePath f) = inr path ∧ (Z.of_nat (length path) <= 65535)%Z) ∧
  ∀ w, ∃ body, (run (Fetch f) w).1 = inr body ∧ rs_body_err body = None ∧
               Z.of_nat (length (rs_body body)) = file_FileSize f.

Definition nameable (d : ArchiveFolder) : Prop :=
  ∃ path, sanitizeArchivePath (folder_ArchivePath d) = inr path ∧ (Z.of_nat (length path) < 65535)%Z.

Definition recorded_bytes (files : list ArchiveFile) : Z :=
  foldr (λ f t, file_FileSize f + t)%Z 0%Z files.

Lemma recorded_bytes_nonneg files : Forall deliverable files → (0 <= recorded_bytes files)%Z.
Proof.
  unfold recorded_bytes. induction 1 as [|f files [_ Hf] _ IH]; cbn; [lia|].
  destruct (Hf (initial_world empty_fs)) as (body & _ & _ & Hl). lia.
Qed.

Context {S J : Type} {AW : ArchiveWriter S} {exact : bool}.
Context {L : ArchiveWriterLaws S exact} {T : ArchiveWriterTotal S exact}.
Context (MaxSizeBytes : Z) (Hmax : (0 <= MaxSizeBytes < max_int64)%Z).

(** Ready for the next entry. *)
Definition ready (s : S) : Prop := img_closed (aw_image s) = false ∧ (aw_pending s <= 0)%Z.

Lemma LimitReader_all body n :
  rs_body_err body = None → (Z.of_nat (length (rs_body body)) < n)%Z →
  LimitReader body n = (rs_body body, None).
Proof.
  intros He Hn. unfold LimitReader. rewrite take_Z_take, take_ge, He by lia. by case_match.
Qed.

Lemma writeFile_complete ino path f pb s w :
  deliverable f → sanitizeArchivePath (file_ArchivePath f) = inr path → ready s →
  (0 <= pb)%Z → (pb + file_FileSize f <= MaxSizeBytes)%Z →
  ∃ s' w', run (writeFile MaxSizeBytes ino path f pb s) w =
             ((inr (pb + file_FileSize f)%Z, s'), w') ∧ ready s'.
Proof.
  intros [(path' & Hp' & Hlen) Hf] Hp [Hc Hpend] Hpb Hfit. rewrite Hp in Hp'. injection Hp' as <-.
  destruct (Hf w) as (body & Hb & Herr & Hl). unfold writeFile. rewrite run_bind.
  destruct (run_Fetch f w) as [k Hk]. rewrite Hk, Hb. rewrite run_bind, run_writer_call.
  rewrite Hfault. pose proof (sanitized_no_slash _ _ Hp) as Hs.
  destruct (total_CreateFile path (file_FileSize f) s) as [s1 Hs1]; [done..|lia|].
  destruct (law_CreateFile _ _ _ _ _ Hs1 Hs) as (He1 & _ & Hp1 & _).
  pose proof (proj1 law_open path (file_FileSize f) None s) as Hc1. rewrite Hs1 in Hc1 |- *.
  rewrite limit_value, LimitReader_all by (done || lia).
  rewrite run_bind, run_writer_call, Hshort. cbn [fst snd].
  destruct (total_Write (rs_body body) s1 _ _ _ He1) as [s2 Hs2].
  { destruct exact; [lia|done]. }
  destruct (law_Write _ _ _ _ _ _ _ _ Hs2 He1) as (_ & _ & Hp2 & _).
  { destruct exact; [lia|done]. }
  pose proof (proj1 (proj2 law_open) (rs_body body) None s1) as Hc2. rewrite Hs2 in Hc2 |- *.
  cbn [fst snd] in *. rewrite Hl.
  replace (add64 pb (file_FileSize f)) with (pb + file_FileSize f)%Z.
  2:{ symmetry. apply wrap64_id. unfold in_int64, min_int64, max_int64 in *. lia. }
  destruct (Z.ltb_spec MaxSizeBytes (pb + file_FileSize f)); [lia|].
  eexists _, _. split; [done|]. split; [congruence|]. destruct exact; lia.
Qed.

Lemma write_files_complete onProgress ino files : Forall deliverable files → ∀ pf pb s (j : J) w,
  ready s → (0 <= pb)%Z → (pb + recorded_bytes files <= MaxSizeBytes)%Z →
  ∃ s' j' w', run (write_files MaxSizeBytes Background onProgress ino files pf pb s j) w =
             ((None, s', j'), w') ∧ ready s'.
Proof.
  induction 1 as [|f files Hf Hfs IH]; intros pf pb s j w Hr Hpb Hfit; [cbn; by eexists _, _, _|].
  pose proof (recorded_bytes_nonneg _ Hfs) as Hnn.
  change (recorded_bytes (f :: files)) with (file_FileSize f + recorded_bytes files)%Z in Hfit.
  cbn [write_files ctx_Err]. rewrite run_bind. cbn [run].
  destruct Hf as [(path & Hp & Hlen) Hbody]. rewrite Hp.
  destruct (Hbody w) as (body & _ & _ & Hl).
  replace (add64 pb (file_FileSize f)) with (pb + file_FileSize f)%Z.
  2:{ symmetry. apply wrap64_id. unfold in_int64, min_int64, max_int64 in *. lia. }
  destruct (Z.ltb_spec MaxSizeBytes (pb + file_FileSize f)); [lia|].
  destruct (writeFile_complete ino path f pb s w) as (s1 & w1 & Hw & Hr1); try done.
  { by split; [exists path|]. }
  rewrite run_bind, Hw, run_bind. destruct (run _ w1) as [u w2]. apply IH; [done|lia|lia].
Qed.

Lemma write_dirs_complete ino dirs : Forall nameable dirs → ∀ s w, ready s →
  ∃ s' w', run (write_dirs ino dirs s) w = ((None, s'), w') ∧ ready s'.
Proof.
  induction 1 as [|d dirs (path & Hp & Hlen) _ IH]; intros s w [Hc Hpend]; [cbn; by eexists _, _|].
  cbn [write_dirs]. rewrite Hp, run_bind, run_writer_call, Hfault.
  destruct (total_CreateDir path s) as [s1 Hs1]; [done..|].
  pose proof (proj2 (proj2 law_open) path None s) as Hc1. rewrite Hs1 in Hc1 |- *.
  apply IH. destruct (law_CreateDir _ _ _ _ Hs1) as (_ & _ & ?). cbn in Hc1. split; [congruence|lia].
Qed.

Lemma generate_with_complete ino m onProgress (j : J) w :
  Forall deliverable (man_Files m) → Forall nameable (man_EmptyFolders m) →
  (recorded_bytes (man_Files m) <= MaxSizeBytes)%Z →
  (run (generate_with MaxSizeBytes Background ino m onProgress j) w).1.1.1 = None.
Proof.
  intros Hf Hd Hfit. unfold generate_with. rewrite run_bind. destruct law_new as (_ & Hn2 & Hn3).
  destruct (write_files_complete onProgress ino (man_Files m) Hf 0 0 aw_new j w)
    as (s1 & j1 & w1 & -> & Hr1); [split; [done|lia]|lia|lia|].
  rewrite run_bind.
  destruct (write_dirs_complete ino _ Hd s1 w1 Hr1) as (s2 & w2 & -> & Hr2).
  rewrite run_bind, run_writer_call, Hfault. destruct Hr2 as [Hc2 Hp2].
  by destruct (total_Close s2 Hc2 Hp2) as [s3 ->].
Qed.
End complete.

Section generate_complete.
Context {UT : UnicodeTables} {ENV : Env} {FF : FileFetcher}.

Lemma Generate_succeeds {J} MaxSizeBytes ino m onProgress (j : J) w :
  (∀ t, env_fault t = None) → (∀ t, env_short_write t = None) →
  (0 <= MaxSizeBytes < max_int64)%Z →
  Forall deliverable (man_Files m) → Forall nameable (man_EmptyFolders m) →
  (recorded_bytes (man_Files m) <= MaxSizeBytes)%Z →
  (run (Generate (NewGenerator MaxSizeBytes) Background ino m onProgress j) w).1.1 = None.
Proof.
  intros Hf Hs Hmax Hfiles Hdirs Hfit. unfold Generate.
  destruct (bool_decide _); rewrite run_bind.
  - pose proof (generate_with_complete (S := tar_state) Hf Hs MaxSizeBytes Hmax ino m onProgress j w
      Hfiles Hdirs Hfit) as H. by destruct (run _ w) as [[[r s] j'] w1].
  - pose proof (generate_with_complete (S := zip_state) Hf Hs MaxSizeBytes Hmax ino m onProgress j w
      Hfiles Hdirs Hfit) as H. by destruct (run _ w) as [[[r s] j'] w1].
Qed.

(** Generation is not refused without cause: on a disk without faults,
    with storage servers that deliver every file whole and as recorded, paths
    that can name an entry and recorded sizes that together are within
    [MaxSizeBytes], [Generate] returns nil, for either format. *)
Theorem Generate_complete {J} MaxSizeBytes ino m onProgress (j : J) w :
  (∀ t, env_fault t = None) → (∀ t, env_short_write t = None) →
  (0 <= MaxSizeBytes < max_int64)%Z →
  Forall deliverable (man_Files m) → Forall nameable (man_EmptyFolders m) →
  (recorded_bytes (man_Files m) <= MaxSizeBytes)%Z →
  (run (Generate (NewGenerator MaxSizeBytes) Background ino m onProgress j) w).1.1 = None.
Proof. apply Generate_succeeds. Qed.

(** C38: with [MaxSizeBytes] set to the largest [int64], "no limit", the
    read limit [MaxSizeBytes - processed + 1] of the first file wraps around
    to a negative number: whatever the storage server delivers, a ZIP entry is
    written empty and [writeFile] reports success. *)
Theorem writeFile_limit_wraps ino path f body s w :
  (run (Fetch f) w).1 = inr body →
  (∀ t, env_fault t = None) → (∀ t, env_short_write t = None) →
  HasSuffix path [slash] = false → (Z.of_nat (length path) <= 65535)%Z →
  let r := run (writeFile (S := zip_state) max_int64 ino path f 0 s) w in
  r.1.1 = inr 0%Z ∧ aw_entries r.1.2 = aw_entries s ++ [FileEntry path []].
Proof.
  intros Hb Hf Hs Hsuf Hlen. unfold writeFile. rewrite run_bind.
  destruct (run_Fetch f w) as [k ->]. rewrite Hb, run_bind, run_writer_call, Hf. cbn [aw_CreateFile zipArchiveWriter].
  unfold zip_CreateFile, zip_CreateHeader.
  destruct (Z.ltb_spec 65535 (Z.of_nat (length path))); [lia|]. rewrite Hsuf.
  replace (add64 (sub64 max_int64 0) 1) with min_int64 by (by vm_compute).
  unfold LimitReader. rewrite take_Z_take. change (Z.to_nat min_int64) with 0.
  destruct (Z.ltb_spec (Z.of_nat (length (rs_body body))) min_int64);
    [unfold min_int64 in *; lia|].
  rewrite run_bind, run_writer_call, Hs. cbn [aw_Write zipArchiveWriter]. unfold zip_Write.
  cbn [fst snd z_entries]. rewrite last_snoc. cbn [take]. rewrite append_data_snoc. done.
Qed.
End generate_complete.

(** ** Concrete runs *)

Definition sample_servers : httpStorageClient :=
  NewHTTPStorageClient (server_map [mkStorageServer (lit "https://s1") (lit "k1")]) Second.

(** A manifest of one two-byte file and one empty folder. *)
Definition sample_manifest (exportType : ExportType) : ArchiveManifest :=
  mkManifest (lit "root") (lit "Out.zip") exportType [sample_file (lit "Out/a.txt") 2]
    [sample_folder (lit "Out/e")] 1 2.

Definition sample_env : Env := quiet_env empty_db sample_http.
Definition sample_fetcher : FileFetcher := @StorageFetcher (@httpStorageClient_Get sample_tables sample_env sample_servers).

(** The archive directory with one open, empty file. *)
Definition sample_world : World :=
  initial_world (mkFs {[ lit "d/j.zip.tmp" := DFile 0 ]} {[ 0 := empty_image ]} 1).

Abbreviation sample_Generate t :=
  (@Generate sample_tables sample_env sample_fetcher unit (NewGenerator 10) Background 0 (sample_manifest t) None tt).

Lemma Generate_success_witness :
  (run (sample_Generate ExportTypeTar) sample_world).1 = (None, tt) ∧
  ∃ es, container_for (UT := sample_tables) (FF := sample_fetcher) (exact := true) 10
          (sample_manifest ExportTypeTar) es.
Proof.
  assert ((run (sample_Generate ExportTypeTar) sample_world).1 = (None, tt)) as H by (by vm_compute).
  split; [exact H|].
  destruct (@Generate_success sample_tables sample_env sample_fetcher 10 unit
    Background 0 (sample_manifest ExportTypeTar) None tt sample_world tt
    (run (sample_Generate ExportTypeTar) sample_world).2) as (_ & es & _ & Hc).
  - by vm_compute.
  - exact (λ _ _ _, I).
  - rewrite <- H. apply surjective_pairing.
  - exists es. exact Hc.
Defined.

Lemma Generate_bounded_witness :
  ∃ img, fs_data (w_fs (run (sample_Generate ExportTypeZip) sample_world).2) !! 0 = Some img ∧
         (Z.of_nat (bytes_of (img_entries img)) <= 11)%Z.
Proof.
  eexists. split; [by vm_compute|].
  apply (@Generate_bounded sample_tables sample_env sample_fetcher 10 ltac:(by vm_compute) unit
    Background 0 (sample_manifest ExportTypeZip) None tt sample_world
    (run (sample_Generate ExportTypeZip) sample_world).1
    (run (sample_Generate ExportTypeZip) sample_world).2); [done|by vm_compute| |by vm_compute].
  apply surjective_pairing.
Defined.

Lemma Generate_complete_witness :
  (run (sample_Generate ExportTypeZip) sample_world).1.1 = None.
Proof.
  apply (@Generate_complete sample_tables sample_env sample_fetcher unit 10 0
    (sample_manifest ExportTypeZip) None tt sample_world); [done|done|by vm_compute| | |by vm_compute].
  - apply Forall_singleton. split.
    + exists (lit "Out/a.txt"). split; [by vm_compute|done].
    + intros w. exists (mkHttpResponse 200 (lit "hi") None). done.
  - apply Forall_singleton. exists (lit "Out/e"). split; [by vm_compute|done].
Defined.

Lemma writeFile_limit_wraps_witness :
  let r := run (@writeFile sample_tables sample_env sample_fetcher zip_state _ max_int64 0 (lit "a")
                  (sample_file (lit "Out/a.txt") 2) 0 aw_new) sample_world in
  r.1.1 = inr 0%Z ∧ aw_entries r.1.2 = [FileEntry (lit "a") []].
Proof.
  refine (@writeFile_limit_wraps sample_tables sample_env sample_fetcher 0 (lit "a")
    (sample_file (lit "Out/a.txt") 2) (mkHttpResponse 200 (lit "hi") None) aw_new sample_world
    _ _ _ _ _); [by vm_compute|done|done|by vm_compute|done].
Defined.
