(* ===== verification/Service.v ===== *)
(** * The archive service (internal/service/archive.go)

    [CreateJob], [ProcessJob] and what they call, as programs over the shared
    [World]: each access to the job store, the token service, the queue, the
    disk, the database and the clock is one atomic action. *)

From S2P Require Import Prelude GoString GoPath GoError Model Config Sanitize Validate Manifest Prog.
From S2P Require Import JobStore Token FS World Storage Writer Repository Client Generator.

Local Open Scope go_scope.

(** ** The stores as the service calls them *)

Definition jobs_Create (j : Job) : prog World (option error) := with_jobs (store_Create j).
Definition jobs_Get (jobID : str) : prog World (error + Job) :=
  with_jobs (λ m, (store_Get jobID m, m)).
Definition jobs_Update (j : Job) : prog World (option error) := with_jobs (store_Update j).
Definition jobs_Delete (jobID : str) : prog World (option error) := with_jobs (store_Delete jobID).
Definition jobs_List : prog World (list Job) := with_jobs (λ m, (store_List m, m)).

Definition tokens_Issue {UT : UnicodeTables} {ENV : Env} (jobID : str) (ttl : duration)
    : prog World (error + str) :=
  with_tokens (λ t m, token_Issue (env_rand t) jobID ttl (env_now t) m).
Definition tokens_Validate {ENV : Env} (jobID tok : str) : prog World (option error) :=
  e ← with_tokens (λ _ m, (m !! tok, m));
  now ← Now;
  Ret (token_Validate jobID tok now e).
Definition tokens_Revoke (jobID : str) : prog World unit :=
  with_tokens (λ _ m, (tt, token_Revoke jobID m)).

(** [if err != nil { return fmt.Errorf(msg + "%w", err) }]. *)
Definition wrapped {UT : UnicodeTables} {A} (msg : str) (p : prog World (error + A))
    : prog World (error + A) :=
  r ← p; Ret (match r with inl err => inl (Errorf_w msg err []) | inr a => inr a end).

Section service.
Context {UT : UnicodeTables} {UL : UuidLib} {ENV : Env} {REPO : ArchiveRepository} {FF : FileFetcher}.
Context (cfg : ArchiveConfig).

(** [New]: an empty queue, and the service accepts. *)
Definition service_New (w : World) : World := set_accepting true (set_queue [] w).

(** [s.accepting.Load()] and [StopAccepting]. *)
Definition accepting_Load : prog World bool := atomic (λ w, (w_accepting w, w)).
Definition StopAccepting : prog World unit := atomic (λ w, (tt, set_accepting false w)).

(** [select { case s.queue <- id: default: }] on a channel of capacity
    [QueueSize]: whether the send happened. *)
Definition try_send (jobID : str) : prog World bool :=
  atomic (λ w, if (Z.of_nat (length (w_queue w)) <? ac_QueueSize cfg)%Z
               then (true, set_queue (w_queue w ++ [jobID]) w) else (false, w)).

(** ** CreateJob *)

Definition new_job (id rootFolderID archiveName : str) (exportType : ExportType) (now : time) : Job :=
  mkJob id rootFolderID archiveName exportType JobStatusQueued 0 0 0 0 [] [] [] now now 0 None 0.

Definition validateRequest (req : ArchiveRequest) : error + (str * str * ExportType) :=
  let? rootFolderID := validateRootFolderID (req_RootFolderID req) in
  let? archiveName := validateArchiveName (req_ArchiveName req) in
  let? exportType := validateExportType (req_ExportType req) in
  inr (rootFolderID, archiveName, exportType).

Definition CreateJob (req : ArchiveRequest) : prog World (error + Job) :=
  accepting ← accepting_Load;
  if negb accepting then Ret (inl (Sentinel ErrNotAccepting))
  else
    let* (rootFolderID, archiveName, exportType) := Ret (validateRequest req) in
    let* exists_ := wrapped (lit "verify root folder: ") (FolderExists rootFolderID) in
    if negb exists_ then Ret (inl (Sentinel ErrFolderNotFound))
    else
      now ← Now;
      id ← observe env_uuid;
      let j := new_job id rootFolderID archiveName exportType now in
      err ← jobs_Create j;
      match err with
      | Some err => Ret (inl (Errorf_w (lit "create job record: ") err []))
      | None =>
          sent ← try_send (job_ID j);
          if (sent : bool) then Ret (inr j)
          else _ ← jobs_Delete (job_ID j); Ret (inl (Sentinel ErrQueueFull))
      end.

Definition GetJob (jobID : str) : prog World (error + Job) := jobs_Get jobID.
Definition ValidateDownloadToken (jobID tok : str) : prog World (option error) :=
  tokens_Validate jobID tok.
Definition OpenArchive (jobID : str) : prog World (error + dirent) :=
  storage_Open (ac_TempDir cfg) jobID.

(** ** ProcessJob *)

Definition buildManifest (j : Job) : prog World (error + ArchiveManifest) :=
  let* folders := wrapped (lit "get folder tree: ") (GetFolderTree (job_RootFolderID j)) in
  let* files := wrapped (lit "get files for folder tree: ") (GetFilesForFolderTree (job_RootFolderID j)) in
  Ret (inr (assemble_manifest j folders files)).

(** [failJob]: the cause goes to the log only. *)
Definition failJob (j : Job) (safeMessage : str) (cause : error) : prog World unit :=
  now ← Now;
  let j := set_UpdatedAt now (set_ErrorMessage safeMessage (set_Status JobStatusFailed j)) in
  _ ← jobs_Update j;
  Ret tt.

(** The closure over [j] that [generateArchive] passes to [Generate]. *)
Definition onProgress (processedFiles processedBytes : Z) (j : Job) : prog World Job :=
  now ← Now;
  let j := set_UpdatedAt now (set_ProcessedBytes processedBytes (set_ProcessedFiles processedFiles j)) in
  _ ← jobs_Update j;
  Ret j.

(** The error, and [j] as the progress callback left it. *)
Definition generateArchive (ctx : context) (j : Job) (manifest : ArchiveManifest)
    : prog World (option error * Job) :=
  r ← storage_Create (ac_TempDir cfg) (job_ID j);
  match r with
  | inl err => Ret (Some (Errorf_w (lit "create temp archive: ") err []), j)
  | inr ino =>
      '(genErr, j) ← Generate (NewGenerator (ac_MaxSizeBytes cfg)) ctx ino manifest (Some onProgress) j;
      closeErr ← observe env_fault;
      match genErr, closeErr with
      | Some err, _ => _ ← storage_Delete (ac_TempDir cfg) (job_ID j); Ret (Some err, j)
      | None, Some m =>
          _ ← storage_Delete (ac_TempDir cfg) (job_ID j);
          Ret (Some (Errorf_w (lit "close temp archive: ") (OsError false m) []), j)
      | None, None =>
          e ← storage_RenameTemp (ac_TempDir cfg) (job_ID j);
          match e with
          | Some err =>
              _ ← storage_Delete (ac_TempDir cfg) (job_ID j);
              Ret (Some (Errorf_w (lit "finalize archive: ") err []), j)
          | None => Ret (None, j)
          end
      end
  end.

(** The fields [completeJob] sets. *)
Definition completed_job (tok : str) (now : time) (j : Job) : Job :=
  set_UpdatedAt now (set_ExpiresAt (now + ac_Expiry cfg)%Z (set_CompletedAt (Some now)
    (set_DownloadToken tok (set_ArchivePath (job_ID j ++ lit "." ++ Extension (job_ExportType j))
      (set_Status JobStatusCompleted j))))).

Definition completeJob (j : Job) : prog World unit :=
  now ← Now;
  r ← tokens_Issue (job_ID j) (ac_Expiry cfg);
  match r with
  | inl err => failJob j (lit "failed to issue download token") err
  | inr tok => _ ← jobs_Update (completed_job tok now j); Ret tt
  end.

(** [ProcessJob] once the manifest is known. *)
Definition process_manifest (ctx : context) (j : Job) (manifest : ArchiveManifest) : prog World unit :=
  now ← Now;
  let j := set_UpdatedAt now (set_TotalBytes (man_TotalBytes manifest)
             (set_TotalFiles (man_TotalFiles manifest) j)) in
  e ← jobs_Update j;
  match e with
  | Some _ => Ret tt
  | None =>
      if (ac_MaxSizeBytes cfg <? man_TotalBytes manifest)%Z then
        failJob j (lit "archive exceeds maximum allowed size")
          (ErrorString (lit "total bytes " ++ Itoa (man_TotalBytes manifest)
                        ++ lit " exceeds limit " ++ Itoa (ac_MaxSizeBytes cfg)))
      else
        '(e, j) ← generateArchive ctx j manifest;
        match e with
        | Some err => failJob j (lit "failed to generate archive") err
        | None => completeJob j
        end
  end.

Definition ProcessJob (ctx : context) (jobID : str) : prog World unit :=
  r ← jobs_Get jobID;
  match r with
  | inl _ => Ret tt
  | inr j =>
      started ← Now;
      let j := set_UpdatedAt started (set_Status JobStatusProcessing (set_StartedAt started j)) in
      e ← jobs_Update j;
      match e with
      | Some _ => Ret tt
      | None =>
          r ← buildManifest j;
          match r with
          | inl err => failJob j (lit "failed to read archive manifest from database") err
          | inr manifest => process_manifest ctx j manifest
          end
      end
  end.
End service.

(** ** Creating a job *)

Section create.
Context {UT : UnicodeTables} {UL : UuidLib} {ENV : Env} {REPO : ArchiveRepository}.
Context (cfg : ArchiveConfig).

Lemma wrapped_observer {A} msg (p : prog World (error + A)) : observer p → observer (wrapped msg p).
Proof. intros Hp. apply observer_bind; [done|]. intros. apply observer_Ret. Qed.

(** The job a request for [req] becomes. *)
Definition job_of_request (req : ArchiveRequest) (j : Job) : Prop :=
  ∃ root name type now, validateRequest req = inr (root, name, type) ∧
  j = new_job (job_ID j) root name type now.

(** [j] was recorded and queued, and nothing else happened. *)
Definition job_created (j : Job) (w w' : World) : Prop :=
  w_jobs w !! job_ID j = None ∧ w_jobs w' = <[job_ID j := j]> (w_jobs w) ∧
  w_queue w' = w_queue w ++ [job_ID j] ∧
  w_tokens w' = w_tokens w ∧ w_fs w' = w_fs w ∧ w_accepting w' = w_accepting w ∧ w_life w' = w_life w.

Lemma CreateJob_run req w :
  ∃ r w', run (CreateJob cfg req) w = (r, w') ∧
  match r with
  | inl err => same_state w w' ∧
      (w_accepting w = false → err = Sentinel ErrNotAccepting) ∧
      (err = Sentinel ErrQueueFull → (ac_QueueSize cfg <= Z.of_nat (length (w_queue w)))%Z)
  | inr j => job_created j w w' ∧ job_of_request req j ∧ w_accepting w = true ∧
      (Z.of_nat (length (w_queue w')) <= ac_QueueSize cfg)%Z
  end.
Proof.
  unfold CreateJob. rewrite run_bind. unfold accepting_Load. rewrite run_atomic.
  destruct (w_accepting w) eqn:Hacc; cbn [negb]; [|by eexists _, _].
  rewrite run_try. cbn [run].
  destruct (validateRequest req) as [err|[[root name] type]] eqn:Hv.
  { eexists _, _. split; [done|]. split_and!; [done..|]. intros ->.
    exfalso. unfold validateRequest, validateRootFolderID, validateArchiveName, validateExportType in Hv.
    by cases_in Hv. }
  rewrite run_try.
  destruct (run_observer (wrapped (lit "verify root folder: ") (FolderExists root)) w) as
    (r & w1 & Hr & Hs1); [apply wrapped_observer, FolderExists_observer|]. rewrite Hr.
  destruct r as [err|[]]; cbn [negb].
  { eexists _, _. split; [done|]. split_and!; [done..|]. intros ->. exfalso.
    unfold wrapped, Errorf_w in Hr. rewrite run_bind in Hr.
    destruct (run (FolderExists root) w) as [[|] ?]; cbn in Hr; congruence. }
  2:{ by eexists _, _. }
  rewrite run_bind. unfold Now, observe at 1. rewrite run_atomic. rewrite run_bind.
  unfold observe. rewrite run_atomic. cbn [w_tick tick].
  set (w2 := tick (tick w1)). set (j := new_job _ _ _ _ _).
  assert (same_state w w2) as (Hj & Ht & Hf & Hq & Ha & Hsh).
  { etransitivity; [exact Hs1|]. apply (same_state_iter 2). }
  rewrite run_bind. unfold jobs_Create, with_jobs. rewrite run_atomic. unfold store_Create.
  rewrite Hj. destruct (w_jobs w !! job_ID j) eqn:Hid; cbn [run].
  { eexists _, _. split; [done|]. unfold same_state. by split_and!. }
  rewrite run_bind. unfold try_send. rewrite run_atomic. cbn [w_queue set_jobs]. rewrite Hq.
  destruct (Z.ltb_spec (Z.of_nat (length (w_queue w))) (ac_QueueSize cfg)) as [Hlt|Hge].
  - eexists _, _. split; [done|]. unfold job_created. split_and!; try done.
    + by exists root, name, type, (env_now (w_tick w1)).
    + cbn. rewrite length_app. cbn. lia.
  - rewrite run_bind. unfold jobs_Delete, with_jobs. rewrite run_atomic. eexists _, _. split; [done|].
    unfold same_state. split_and!; try done. cbn. by rewrite delete_insert_id.
Qed.

(** C26: an accepted request: the service was accepting, the request passed
    validation, and exactly one job is recorded under a new ID, in state
    queued, with its ID at the end of the queue, which stays within its
    capacity; tokens and disk are untouched. *)
Theorem CreateJob_accepted req w j w' :
  run (CreateJob cfg req) w = (inr j, w') →
  job_created j w w' ∧ job_of_request req j ∧ w_accepting w = true ∧
  (Z.of_nat (length (w_queue w')) <= ac_QueueSize cfg)%Z.
Proof. intros Hr. destruct (CreateJob_run req w) as (r & w1 & H1 & H2). rewrite Hr in H1. by simplify_eq. Qed.

(** C25: a refused request leaves no trace: whatever the reason, jobs, queue,
    tokens and disk are as before (the job record of a full queue is rolled
    back); during shutdown every request is refused with [ErrNotAccepting],
    and [ErrQueueFull] means the queue was at its capacity. *)
Theorem CreateJob_refused req w err w' :
  run (CreateJob cfg req) w = (inl err, w') →
  same_state w w' ∧ (w_accepting w = false → err = Sentinel ErrNotAccepting) ∧
  (err = Sentinel ErrQueueFull → (ac_QueueSize cfg <= Z.of_nat (length (w_queue w)))%Z).
Proof. intros Hr. destruct (CreateJob_run req w) as (r & w1 & H1 & H2). rewrite Hr in H1. by simplify_eq. Qed.

(** A good request is not refused: if the service accepts, the request
    validates, the repository finds the folder, the new ID is fresh and the
    queue has room, [CreateJob] returns a job. *)
Theorem CreateJob_admits req root name type w w1 :
  w_accepting w = true → validateRequest req = inr (root, name, type) →
  run (FolderExists root) w = (inr true, w1) →
  w_jobs w !! env_uuid (S (w_tick w1)) = None →
  (Z.of_nat (length (w_queue w)) < ac_QueueSize cfg)%Z →
  ∃ w', run (CreateJob cfg req) w =
          (inr (new_job (env_uuid (S (w_tick w1))) root name type (env_now (w_tick w1))), w').
Proof.
  intros Ha Hv Hf Hid Hq. destruct (run_observer (FolderExists root) w) as (r & w1' & Hr & Hs);
    [apply FolderExists_observer|]. rewrite Hf in Hr. simplify_eq. destruct Hs as (Hj & _ & _ & Hqq & _).
  unfold CreateJob. rewrite run_bind. unfold accepting_Load. rewrite run_atomic, Ha. cbn [negb].
  rewrite run_try. cbn [run]. rewrite Hv, run_try. unfold wrapped. rewrite run_bind, Hf. cbn [run negb].
  rewrite run_bind. unfold Now, observe. rewrite run_atomic, run_bind, run_atomic. cbn [w_tick tick].
  rewrite run_bind. unfold jobs_Create, with_jobs. rewrite run_atomic. unfold store_Create.
  cbn [w_jobs tick job_ID new_job]. rewrite Hj, Hid. cbn [run].
  rewrite run_bind. unfold try_send. rewrite run_atomic. cbn [w_queue set_jobs tick]. rewrite Hqq.
  destruct (Z.ltb_spec (Z.of_nat (length (w_queue w))) (ac_QueueSize cfg)); [|lia]. by eexists.
Qed.
End create.
