(* ===== verification/HttpMsg.v ===== *)
(** * HTTP requests and responses (internal/handler, internal/server)

    A request is what the handlers read of it; a response is its status, the
    headers the handlers set and its body as a value, whose text is
    [body_text]. *)

From S2P Require Import Prelude GoString GoError Model Wire FS.

(** ** Requests and responses *)

(** The headers of a range request (RFC 9110), each empty when absent. *)
Record conditions := mkConditions {
  cd_range : str;
  cd_if_range : str;
  cd_if_match : str;
  cd_if_none_match : str;
  cd_if_modified_since : str;
  cd_if_unmodified_since : str
}.

Definition unconditional : conditions := mkConditions [] [] [] [] [] [].

Record request := mkHttp {
  rq_method : str;
  rq_path : list str;                  (* the segments of a clean path *)
  rq_api_token : str;                  (* Header.Get("X-API-Token") *)
  rq_query : str;                      (* URL.RawQuery *)
  rq_origin : str;                     (* Header.Get("Origin") *)
  rq_acr_headers : str;                (* Header.Get("Access-Control-Request-Headers") *)
  rq_conditions : conditions;
  rq_body : request_body
}.

(** A range of bytes of a file, and what [http.ServeContent] sends of one. *)
Record httpRange := mkRange { rg_start : Z; rg_length : Z }.

Inductive content :=
| Whole
| Part (r : httpRange)
| Parts (boundary ctype : str) (rs : list httpRange).    (* multipart/byteranges *)

Inductive body :=
| ErrorBody (msg : str)                                        (* errorBody *)
| CreatedBody (jobID status eventsURL : str) (expiresIn : Z)   (* createArchiveResponse *)
| FileBody (f : dirent) (c : content)                          (* http.ServeContent *)
| EventStream (evs : list sse_event)
| TextBody (msg : str)                                         (* http.Error *)
| NoBody.

Record response := mkResponse {
  re_status : Z;
  re_headers : list (str * str);
  re_body : body
}.

(** The text of a body the handlers write themselves. *)
Definition body_text (b : body) : option str :=
  match b with
  | ErrorBody msg => Some (json_text (errorBody_fields msg))
  | CreatedBody jobID status eventsURL expiresIn =>
      Some (json_text (createArchiveResponse_fields jobID status eventsURL expiresIn))
  | EventStream evs => Some (stream_text evs)
  | TextBody msg => Some (msg ++ [lf])
  | NoBody => Some []
  | FileBody _ _ => None
  end.

(** [http.Header] with its keys in canonical form. *)
Definition Header_Get (k : str) (h : list (str * str)) : str :=
  default [] (snd <$> head (filter (λ kv, kv.1 = k) h)).
Definition Header_Del (k : str) (h : list (str * str)) : list (str * str) := filter (λ kv, kv.1 ≠ k) h.
Definition Header_Set (k v : str) (h : list (str * str)) : list (str * str) := Header_Del k h ++ [(k, v)].

Lemma Header_Get_Set k v h : Header_Get k (Header_Set k v h) = v.
Proof.
  unfold Header_Get, Header_Set, Header_Del. rewrite filter_app.
  assert (filter (λ kv, kv.1 = k) (filter (λ kv, kv.1 ≠ k) h) = []) as ->.
  { induction h as [|x h IH]; [done|]. rewrite !filter_cons. case_decide; [|done].
    by rewrite filter_cons_False. }
  rewrite filter_cons_True by done. done.
Qed.

Lemma Header_Get_Set_ne k k' v h : k ≠ k' → Header_Get k (Header_Set k' v h) = Header_Get k h.
Proof.
  intros Hne. unfold Header_Get, Header_Set, Header_Del. rewrite filter_app, filter_cons_False by (cbn; congruence).
  rewrite filter_nil, app_nil_r. do 3 f_equal. induction h as [|x h IH]; [done|].
  rewrite (filter_cons (λ kv, kv.1 ≠ k')). case_decide as E; rewrite !filter_cons; [by rewrite IH|].
  rewrite (decide_False (P := x.1 = k)); [done|]. congruence.
Qed.

Definition json_header : str * str := (lit "Content-Type", lit "application/json").

Definition writeError (status : Z) (safeMessage : str) : response :=
  mkResponse status [json_header] (ErrorBody safeMessage).

Definition StatusOK : Z := 200.
Definition StatusPartialContent : Z := 206.
Definition StatusNotModified : Z := 304.
Definition StatusPreconditionFailed : Z := 412.
Definition StatusRequestedRangeNotSatisfiable : Z := 416.
Definition StatusNoContent : Z := 204.
Definition StatusAccepted : Z := 202.
Definition StatusBadRequest : Z := 400.
Definition StatusUnauthorized : Z := 401.
Definition StatusNotFound : Z := 404.
Definition StatusMethodNotAllowed : Z := 405.
Definition StatusConflict : Z := 409.
Definition StatusInternalServerError : Z := 500.
Definition StatusServiceUnavailable : Z := 503.

(** What [ServeMux] answers itself, through [http.Error]. *)
Definition text_headers : list (str * str) :=
  [(lit "Content-Type", lit "text/plain; charset=utf-8"); (lit "X-Content-Type-Options", lit "nosniff")].
Definition NotFound : response :=
  mkResponse StatusNotFound text_headers (TextBody (lit "404 page not found")).
Definition MethodNotAllowed (allow : str) : response :=
  mkResponse StatusMethodNotAllowed ((lit "Allow", allow) :: text_headers) (TextBody (lit "Method Not Allowed")).
