(* ===== verification/ServeContent.v ===== *)
(** * http.ServeContent (net/http, as internal/handler/download.go uses it)

    Conditional requests, byte ranges and the response for one open file.
    [env_bytes] gives the file's bytes, [env_http_time] and [env_http_date]
    read and write HTTP dates. *)

From stdpp Require Import pretty.
From S2P Require Import Prelude GoString GoError GoConv Json Model Wire Prog FS World HttpMsg.

Local Open Scope go_scope.

(** ** Texts *)

(** [textproto.TrimString]. *)
Definition is_ascii_space (c : ascii) : bool :=
  existsb (λ d, bool_decide (c = d)) [" "%char; "009"%char; "010"%char; "013"%char].
Definition TrimString (s : str) : str :=
  rev (drop_while is_ascii_space (rev (drop_while is_ascii_space s))).

(** [strings.Cut] at one byte. *)
Fixpoint Cut (s : str) (c : ascii) : option (str * str) :=
  match s with
  | [] => None
  | x :: s' =>
      if bool_decide (x = c) then Some ([], s')
      else match Cut s' c with
           | Some (before, after) => Some (x :: before, after)
           | None => None
           end
  end.

(** [scanETag]: what follows the tag, or [None] when there is no tag. *)
Definition etag_char (c : ascii) : bool :=
  let n := code c in ((n =? 0x21) || ((0x23 <=? n) && (n <=? 0x7e)) || (0x80 <=? n))%Z.

Fixpoint etag_rest (s : str) : option str :=
  match s with
  | [] => None
  | c :: s' => if bool_decide (c = dquote) then Some s'
               else if etag_char c then etag_rest s' else None
  end.

Definition scanETag (s : str) : option str :=
  match TrimPrefix (TrimString s) (lit "W/") with
  | c :: s' => if bool_decide (c = dquote) then etag_rest s' else None
  | [] => None
  end.

(** The loop of [checkIfMatch] and [checkIfNoneMatch] over a list of tags.
    The handler sets no Etag, so no tag matches: whether the loop meets a
    star. *)
Fixpoint etags_star (fuel : nat) (s : str) : bool :=
  match fuel with
  | O => false
  | S fuel' =>
      match TrimString s with
      | [] => false
      | c :: s' =>
          if bool_decide (c = ","%char) then etags_star fuel' s'
          else if bool_decide (c = "*"%char) then true
          else match scanETag (c :: s') with
               | None => false
               | Some remain => etags_star fuel' remain
               end
      end
  end.

(** ** Preconditions *)

Inductive condResult := condNone | condTrue | condFalse.

(** The Unix epoch, since Go's zero time. *)
Definition unixEpochTime : time := (62135596800 * Second)%Z.
Definition isZeroTime (t : time) : bool := IsZero t || (t =? unixEpochTime)%Z.

(** [t.Truncate(time.Second)]. *)
Definition TruncateSecond (t : time) : time := (t - t mod Second)%Z.

Inductive precondition := PreconditionFails | NotModified | Proceed (rangeHeader : str).

Section serve.
Context {UT : UnicodeTables} {ENV : Env}.

Definition checkIfMatch (c : conditions) : condResult :=
  if bool_decide (cd_if_match c = []) then condNone
  else if etags_star (S (length (cd_if_match c))) (cd_if_match c) then condTrue else condFalse.

Definition checkIfNoneMatch (c : conditions) : condResult :=
  if bool_decide (cd_if_none_match c = []) then condNone
  else if etags_star (S (length (cd_if_none_match c))) (cd_if_none_match c) then condFalse else condTrue.

(** The two date conditions; [None] when there is nothing to compare. *)
Definition not_after (header : str) (modtime : time) : option bool :=
  if bool_decide (header = []) || isZeroTime modtime then None
  else match env_http_time header with
       | None => None
       | Some t => Some (TruncateSecond modtime <=? t)%Z
       end.

Definition checkIfUnmodifiedSince (c : conditions) (modtime : time) : condResult :=
  match not_after (cd_if_unmodified_since c) modtime with
  | None => condNone
  | Some true => condTrue
  | Some false => condFalse
  end.

Definition checkIfModifiedSince (r : request) (modtime : time) : condResult :=
  if negb (bool_decide (rq_method r = lit "GET") || bool_decide (rq_method r = lit "HEAD")) then condNone
  else match not_after (cd_if_modified_since (rq_conditions r)) modtime with
       | None => condNone
       | Some true => condFalse
       | Some false => condTrue
       end.

Definition checkIfRange (r : request) (modtime : time) : condResult :=
  let ir := cd_if_range (rq_conditions r) in
  if negb (bool_decide (rq_method r = lit "GET") || bool_decide (rq_method r = lit "HEAD")) then condNone
  else if bool_decide (ir = []) then condNone
  else match scanETag ir with
       | Some _ => condFalse
       | None =>
           if IsZero modtime then condFalse
           else match env_http_time ir with
                | None => condFalse
                | Some t => if (t / Second =? modtime / Second)%Z then condTrue else condFalse
                end
       end.

Definition checkPreconditions (r : request) (modtime : time) : precondition :=
  let c := rq_conditions r in
  let ch := match checkIfMatch c with condNone => checkIfUnmodifiedSince c modtime | ch => ch end in
  match ch with
  | condFalse => PreconditionFails
  | _ =>
      let proceed :=
        match checkIfRange r modtime with
        | condFalse => Proceed []
        | _ => Proceed (cd_range c)
        end in
      match checkIfNoneMatch c with
      | condFalse => if bool_decide (rq_method r = lit "GET") || bool_decide (rq_method r = lit "HEAD")
                     then NotModified else PreconditionFails
      | condNone => match checkIfModifiedSince r modtime with condFalse => NotModified | _ => proceed end
      | condTrue => proceed
      end
  end.

(** ** Ranges *)

Inductive range_error := InvalidRange | errNoOverlap.
#[global] Instance range_error_eq_dec : EqDecision range_error.
Proof. solve_decision. Defined.

Definition range_error_text (e : range_error) : str :=
  match e with
  | InvalidRange => lit "invalid range"
  | errNoOverlap => lit "invalid range: failed to overlap"
  end.

(** One element of the list: nothing, a range beyond the end, or a range. *)
Inductive range_item := EmptyItem | BeyondEnd | RangeItem (r : httpRange).

Definition parse_item (ra : str) (size : Z) : option range_item :=
  let ra := TrimString ra in
  if bool_decide (ra = []) then Some EmptyItem
  else match Cut ra "-"%char with
  | None => None
  | Some (start, end_) =>
      let start := TrimString start in
      let end_ := TrimString end_ in
      if bool_decide (start = []) then
        if bool_decide (end_ = []) || bool_decide (head end_ = Some "-"%char) then None
        else match ParseInt end_ with
             | inl _ => None
             | inr i => if (i <? 0)%Z then None
                        else let i := Z.min i size in Some (RangeItem (mkRange (size - i) (size - (size - i))))
             end
      else match ParseInt start with
           | inl _ => None
           | inr i =>
               if (i <? 0)%Z then None
               else if (size <=? i)%Z then Some BeyondEnd
               else if bool_decide (end_ = []) then Some (RangeItem (mkRange i (size - i)))
               else match ParseInt end_ with
                    | inl _ => None
                    | inr e => if (e <? i)%Z then None
                               else let e := if (size <=? e)%Z then (size - 1)%Z else e in
                                    Some (RangeItem (mkRange i (e - i + 1)))
                    end
           end
  end.

Fixpoint parse_items (items : list str) (size : Z) (noOverlap : bool) (ranges : list httpRange)
    : range_error + list httpRange :=
  match items with
  | [] => if noOverlap && bool_decide (length ranges = 0) then inl errNoOverlap else inr ranges
  | ra :: items' =>
      match parse_item ra size with
      | None => inl InvalidRange
      | Some EmptyItem => parse_items items' size noOverlap ranges
      | Some BeyondEnd => parse_items items' size true ranges
      | Some (RangeItem r) => parse_items items' size noOverlap (ranges ++ [r])
      end
  end.

Definition parseRange (s : str) (size : Z) : range_error + list httpRange :=
  if bool_decide (s = []) then inr []
  else if negb (HasPrefix s (lit "bytes=")) then inl InvalidRange
  else parse_items (Split (drop 6 s) ","%char) size false [].

(** [sumRangesSize], in int64. *)
Definition sumRangesSize (rs : list httpRange) : Z := foldl (λ n r, add64 n (rg_length r)) 0%Z rs.

Definition contentRange (r : httpRange) (size : Z) : str :=
  lit "bytes " ++ Itoa (rg_start r) ++ lit "-" ++ Itoa (rg_start r + rg_length r - 1) ++ lit "/" ++ Itoa size.

(** ** The bytes of a response *)

Definition slice (data : str) (r : httpRange) : str :=
  take (Z.to_nat (rg_length r)) (drop (Z.to_nat (rg_start r)) data).

Definition crlf : str := ["013"%char; "010"%char].

(** One part as [multipart.Writer] writes it; the first has no line break
    before its boundary. *)
Definition part_header (first : bool) (boundary ctype : str) (size : Z) (r : httpRange) : str :=
  (if first then [] else crlf) ++ lit "--" ++ boundary ++ crlf ++
  lit "Content-Range: " ++ contentRange r size ++ crlf ++ lit "Content-Type: " ++ ctype ++ crlf ++ crlf.

Fixpoint part_headers (first : bool) (boundary ctype : str) (size : Z) (rs : list httpRange) : list str :=
  match rs with
  | [] => []
  | r :: rs' => part_header first boundary ctype size r :: part_headers false boundary ctype size rs'
  end.

Definition closing (boundary : str) : str := crlf ++ lit "--" ++ boundary ++ lit "--" ++ crlf.

Definition multipart_text (boundary ctype : str) (data : str) (rs : list httpRange) : str :=
  concat (zip_with (λ hd r, hd ++ slice data r)
            (part_headers true boundary ctype (Z.of_nat (length data)) rs) rs) ++ closing boundary.

(** [rangesMIMESize]: the framing written to a counter, plus the lengths. *)
Definition rangesMIMESize (boundary : str) (rs : list httpRange) (ctype : str) (size : Z) : Z :=
  foldl (λ n r, add64 n (rg_length r))
    (Z.of_nat (length (concat (part_headers true boundary ctype size rs) ++ closing boundary))) rs.

Definition content_bytes (data : str) (c : content) : str :=
  match c with
  | Whole => data
  | Part r => slice data r
  | Parts boundary ctype rs => multipart_text boundary ctype data rs
  end.

(** The bytes of the file at [i]. *)
Definition file_bytes (s : fs image) (i : nat) : str :=
  match fs_data s !! i with Some img => env_bytes img | None => [] end.

(** ** Serving *)

Definition setLastModified (modtime : time) (h : list (str * str)) : list (str * str) :=
  if isZeroTime modtime then h else Header_Set (lit "Last-Modified") (env_http_date modtime) h.

(** [serveError] and [http.Error]. *)
Definition serveError (h : list (str * str)) (text : str) (status : Z) : response :=
  let h := Header_Del (lit "Last-Modified") (Header_Del (lit "Etag")
             (Header_Del (lit "Content-Encoding") (Header_Del (lit "Cache-Control") h))) in
  mkResponse status
    (Header_Set (lit "X-Content-Type-Options") (lit "nosniff")
       (Header_Set (lit "Content-Type") (lit "text/plain; charset=utf-8") (Header_Del (lit "Content-Length") h)))
    (TextBody text).

Definition writeNotModified (h : list (str * str)) : response :=
  mkResponse StatusNotModified
    (Header_Del (lit "Content-Encoding") (Header_Del (lit "Content-Length") (Header_Del (lit "Content-Type") h)))
    NoBody.

(** [content.Seek]: to the end, which tells the size; to a position. *)
Definition seek_end (f : dirent) : prog World (error + Z) :=
  syscall (λ flt s,
    (match flt, f with
     | Some m, _ => inl (OsError false m)
     | None, DFile i => inr (Z.of_nat (length (file_bytes s i)))
     | None, DDir => match env_dir_end with
                     | Some n => inr n
                     | None => inl (OsError false (lit "invalid argument"))
                     end
     end, s)).

Definition seek_to (pos : Z) : prog World (option error) :=
  syscall (λ flt s, (match flt with
                     | Some m => Some (OsError false m)
                     | None => if (pos <? 0)%Z then Some (OsError false (lit "invalid argument")) else None
                     end, s)).

Definition sizeFunc (f : dirent) : prog World (option Z) :=
  r ← seek_end f;
  match r with
  | inl _ => Ret None
  | inr size =>
      e ← seek_to 0;
      Ret (match e with Some _ => None | None => Some size end)
  end.

(** The end of [serveContent]: [n] bytes of [c]. *)
Definition send_content (r : request) (h : list (str * str)) (code n : Z) (f : dirent) (c : content) : response :=
  let h := Header_Set (lit "Content-Length") (Itoa n) (Header_Set (lit "Accept-Ranges") (lit "bytes") h) in
  mkResponse code h (if bool_decide (rq_method r = lit "HEAD") then NoBody else FileBody f c).

Definition serve_ranges (r : request) (h : list (str * str)) (size : Z) (f : dirent) (ranges : list httpRange)
    : prog World response :=
  match ranges with
  | [] => Ret (send_content r h StatusOK size f Whole)
  | [ra] =>
      e ← seek_to (rg_start ra);
      match e with
      | Some err => Ret (serveError h (Error err) StatusRequestedRangeNotSatisfiable)
      | None => Ret (send_content r (Header_Set (lit "Content-Range") (contentRange ra size) h)
                       StatusPartialContent (rg_length ra) f (Part ra))
      end
  | _ =>
      let ctype := Header_Get (lit "Content-Type") h in
      counting ← observe env_boundary;
      boundary ← observe env_boundary;
      Ret (send_content r
             (Header_Set (lit "Content-Type") (lit "multipart/byteranges; boundary=" ++ boundary) h)
             StatusPartialContent (rangesMIMESize counting ranges ctype size) f (Parts boundary ctype ranges))
  end.

(** [http.ServeContent], for a handler that set the Content-Type. *)
Definition ServeContent (r : request) (h : list (str * str)) (modtime : time) (f : dirent) : prog World response :=
  let h := setLastModified modtime h in
  match checkPreconditions r modtime with
  | PreconditionFails => Ret (mkResponse StatusPreconditionFailed h NoBody)
  | NotModified => Ret (writeNotModified h)
  | Proceed rangeReq =>
      s ← sizeFunc f;
      match s with
      | None => Ret (serveError h (lit "seeker can't seek") StatusInternalServerError)
      | Some size =>
          if (size <? 0)%Z then
            Ret (serveError h (lit "negative content size computed") StatusInternalServerError)
          else match parseRange rangeReq size with
          | inl e =>
              if bool_decide (e = errNoOverlap) && (size =? 0)%Z then serve_ranges r h size f []
              else
                let h := if bool_decide (e = errNoOverlap)
                         then Header_Set (lit "Content-Range") (lit "bytes */" ++ Itoa size) h else h in
                Ret (serveError h (range_error_text e) StatusRequestedRangeNotSatisfiable)
          | inr ranges =>
              serve_ranges r h size f (if (size <? sumRangesSize ranges)%Z then [] else ranges)
          end
      end
  end.
End serve.

(** ** Facts: ranges lie in the file *)

Definition in_file (size : Z) (r : httpRange) : Prop :=
  (0 <= rg_start r)%Z ∧ (0 <= rg_length r)%Z ∧ (rg_start r + rg_length r <= size)%Z.

Lemma parse_item_in_file ra size r :
  (0 <= size)%Z → parse_item ra size = Some (RangeItem r) → in_file size r.
Proof.
  intros Hs. unfold parse_item, in_file. intros H. cases_in H; breflect; cbn; try lia.
  destruct (Z.leb_spec size z0); lia.
Qed.

Lemma parse_items_in_file items size no rs rs' :
  (0 <= size)%Z → Forall (in_file size) rs → parse_items items size no rs = inr rs' → Forall (in_file size) rs'.
Proof.
  intros Hs. revert no rs. induction items as [|ra items IH]; intros no rs Hrs; cbn [parse_items].
  { case_match; [done|]. by intros [= <-]. }
  destruct (parse_item ra size) as [[| |r]|] eqn:E; [by apply IH..| |done].
  apply IH, Forall_app_2, Forall_singleton; [done|]. by eapply parse_item_in_file.
Qed.

Lemma parseRange_in_file s size rs : (0 <= size)%Z → parseRange s size = inr rs → Forall (in_file size) rs.
Proof.
  intros Hs. unfold parseRange. intros H. cases_in H; [constructor|]. by eapply parse_items_in_file.
Qed.

Lemma slice_length data r : in_file (Z.of_nat (length data)) r → Z.of_nat (length (slice data r)) = rg_length r.
Proof. intros (? & ? & ?). unfold slice. rewrite length_take, length_drop. lia. Qed.

(** ** Facts: Content-Length *)

Definition lengths (rs : list httpRange) : Z := foldr (λ r n, rg_length r + n)%Z 0%Z rs.

Lemma foldl_add64 rs : ∀ n, in_int64 n → foldl (λ n r, add64 n (rg_length r)) n rs = wrap64 (n + lengths rs).
Proof.
  induction rs as [|r rs IH]; intros n Hn; cbn.
  - by rewrite Z.add_0_r, wrap64_id.
  - rewrite IH by apply wrap64_range. unfold add64. rewrite wrap64_add_l. f_equal. unfold lengths. lia.
Qed.

Lemma part_headers_length first b b' ctype size rs : length b = length b' →
  length (concat (part_headers first b ctype size rs)) = length (concat (part_headers first b' ctype size rs)).
Proof.
  intros Hb. revert first. induction rs as [|r rs IH]; intros first; cbn [part_headers concat]; [done|].
  rewrite !length_app, IH. f_equal. unfold part_header. rewrite !length_app. lia.
Qed.

Lemma part_headers_count first b ctype size rs : length (part_headers first b ctype size rs) = length rs.
Proof. revert first. induction rs as [|r rs IH]; intros first; cbn; [done|]. by rewrite IH. Qed.

Lemma parts_length data rs : Forall (in_file (Z.of_nat (length data))) rs → ∀ hds : list str,
  length hds = length rs →
  Z.of_nat (length (concat (zip_with (λ hd r, hd ++ slice data r) hds rs)))
    = (Z.of_nat (length (concat hds)) + lengths rs)%Z.
Proof.
  induction 1 as [|r rs Hr _ IH]; intros [|hd hds] Hl; try done. cbn [zip_with concat lengths foldr].
  rewrite !length_app, !Nat2Z.inj_add, slice_length, IH by (done || (cbn in Hl; lia)).
  change (foldr _ _ _) with (lengths rs). lia.
Qed.

Lemma multipart_length b b' ctype data rs :
  length b = length b' → Forall (in_file (Z.of_nat (length data))) rs →
  in_int64 (Z.of_nat (length (multipart_text b ctype data rs))) →
  rangesMIMESize b' rs ctype (Z.of_nat (length data)) = Z.of_nat (length (multipart_text b ctype data rs)).
Proof.
  intros Hb Hrs Hin.
  assert (Z.of_nat (length (multipart_text b ctype data rs)) =
    (Z.of_nat (length (concat (part_headers true b' ctype (Z.of_nat (length data)) rs) ++ closing b'))
     + lengths rs)%Z) as E.
  { unfold multipart_text. rewrite !length_app, !Nat2Z.inj_add, parts_length by (done || apply part_headers_count).
    rewrite (part_headers_length true b b') by done. unfold closing. rewrite !length_app, Hb. lia. }
  assert (0 <= lengths rs)%Z as Hnn.
  { clear -Hrs. induction Hrs as [|r rs (? & ? & ?) _ IH]; cbn; [lia|]. unfold lengths in IH. lia. }
  unfold rangesMIMESize. rewrite foldl_add64, <- E; [by apply wrap64_id|].
  unfold in_int64, min_int64 in *. lia.
Qed.

(** ** Every response to a request for a file *)

Section serve_facts.
Context {UT : UnicodeTables} {ENV : Env}.
Implicit Types (r : request) (h : list (str * str)).

(** What the response tells about a file of [data]: how much of it is sent,
    under which status and headers. *)
Definition served_well (r : request) (data : str) (f : dirent) (resp : response) : Prop :=
  match re_body resp with
  | FileBody f' c =>
      f' = f ∧ rq_method r ≠ lit "HEAD" ∧
      (in_int64 (Z.of_nat (length (content_bytes data c))) →
         Header_Get (lit "Content-Length") (re_headers resp) = Itoa (Z.of_nat (length (content_bytes data c)))) ∧
      match c with
      | Whole => re_status resp = StatusOK
      | Part ra => re_status resp = StatusPartialContent ∧ in_file (Z.of_nat (length data)) ra ∧
          Header_Get (lit "Content-Range") (re_headers resp) = contentRange ra (Z.of_nat (length data))
      | Parts _ _ rs => re_status resp = StatusPartialContent ∧ Forall (in_file (Z.of_nat (length data))) rs
      end
  | NoBody => rq_method r = lit "HEAD" ∨ re_status resp ∈ [StatusNotModified; StatusPreconditionFailed]
  | TextBody _ => re_status resp = StatusRequestedRangeNotSatisfiable
  | _ => False
  end.

Lemma run_seek_to pos w :
  env_fault (w_tick w) = None → (0 <= pos)%Z → run (seek_to pos) w = (None, set_fs (w_fs w) (tick w)).
Proof.
  intros Hf Hp. unfold seek_to, syscall. rewrite run_atomic, Hf. by rewrite (proj2 (Z.ltb_ge pos 0)).
Qed.

Lemma run_sizeFunc i w : (∀ t, env_fault t = None) →
  ∃ w', run (sizeFunc (DFile i)) w = (Some (Z.of_nat (length (file_bytes (w_fs w) i))), w').
Proof.
  intros Hf. unfold sizeFunc. rewrite run_bind. unfold seek_end, syscall. rewrite run_atomic, Hf.
  rewrite run_bind, run_seek_to by done. by eexists.
Qed.

Lemma send_content_well r h code n f c data :
  (in_int64 (Z.of_nat (length (content_bytes data c))) → n = Z.of_nat (length (content_bytes data c))) →
  match c with
  | Whole => code = StatusOK
  | Part ra => code = StatusPartialContent ∧ in_file (Z.of_nat (length data)) ra ∧
      Header_Get (lit "Content-Range") h = contentRange ra (Z.of_nat (length data))
  | Parts _ _ rs => code = StatusPartialContent ∧ Forall (in_file (Z.of_nat (length data))) rs
  end →
  served_well r data f (send_content r h code n f c).
Proof.
  intros Hn Hc. unfold send_content, served_well. cbn [re_body]. case_bool_decide as Hm; [by left|].
  split_and!; [done|done| |].
  - intros Hin. cbn. rewrite Header_Get_Set, Hn; done.
  - destruct c; cbn; [done| |done]. by rewrite !Header_Get_Set_ne.
Qed.

Lemma serve_ranges_well r h f rs data w :
  (∀ t, env_fault t = None) → (∀ t, length (env_boundary t) = 60) →
  Forall (in_file (Z.of_nat (length data))) rs →
  served_well r data f (run (serve_ranges r h (Z.of_nat (length data)) f rs) w).1.
Proof.
  intros Hf Hb Hrs. destruct rs as [|ra [|rb rs]]; cbn [serve_ranges].
  - by apply send_content_well.
  - rewrite Forall_singleton in Hrs. rewrite run_bind, run_seek_to by (done || apply Hrs). cbn [run fst].
    apply send_content_well; [intros _; cbn; by rewrite slice_length|]. split_and!; [done|done|apply Header_Get_Set].
  - cbv zeta. rewrite run_bind, run_observe, run_bind, run_observe. cbn [run fst].
    apply send_content_well; [|done]. intros Hin. apply multipart_length; [by rewrite !Hb|done|done].
Qed.

Lemma setLastModified_ne modtime h k : k ≠ lit "Last-Modified" →
  Header_Get k (setLastModified modtime h) = Header_Get k h.
Proof. intros Hk. unfold setLastModified. case_match; [done|]. by apply Header_Get_Set_ne. Qed.

(** A plain GET is answered with the whole file, under the headers the handler
    set. *)
Lemma ServeContent_whole r h modtime i w :
  (∀ t, env_fault t = None) → rq_method r = lit "GET" → rq_conditions r = unconditional →
  ∃ hs, (run (ServeContent r h modtime (DFile i)) w).1 = mkResponse StatusOK hs (FileBody (DFile i) Whole) ∧
    Header_Get (lit "Content-Length") hs = Itoa (Z.of_nat (length (file_bytes (w_fs w) i))) ∧
    (isZeroTime modtime = false → Header_Get (lit "Last-Modified") hs = env_http_date modtime) ∧
    ∀ k, k ∉ [lit "Content-Length"; lit "Accept-Ranges"; lit "Last-Modified"] → Header_Get k hs = Header_Get k h.
Proof.
  intros Hf Hm Hc. unfold ServeContent. cbv zeta.
  assert (checkPreconditions r modtime = Proceed []) as ->.
  { unfold checkPreconditions, checkIfMatch, checkIfUnmodifiedSince, checkIfNoneMatch, checkIfModifiedSince,
      not_after, checkIfRange. rewrite Hc, Hm. done. }
  destruct (run_sizeFunc i w Hf) as [w1 E]. rewrite run_bind, E. clear E. set (size := Z.of_nat _).
  rewrite (proj2 (Z.ltb_ge size 0)) by lia. cbn [parseRange bool_decide]. unfold parseRange.
  rewrite bool_decide_true by done. assert ((size <? sumRangesSize [])%Z = false) as -> by (apply Z.ltb_ge; cbn; lia).
  cbn [serve_ranges run fst]. unfold send_content. rewrite Hm, bool_decide_false by done. eexists.
  split; [reflexivity|]. split; [apply Header_Get_Set|]. split.
  - intros Hz. rewrite !Header_Get_Set_ne by done. unfold setLastModified.
    rewrite Hz. apply Header_Get_Set.
  - intros k Hk. rewrite !Header_Get_Set_ne by set_solver. apply setLastModified_ne. set_solver.
Qed.

(** Every answer [ServeContent] gives for an archive file, whatever
    range and condition headers the client sends, when the kernel does not
    fail: 200 with the whole file, 206 with ranges that all lie inside the
    file (a single one named by Content-Range), 304 or 412 without a body, or
    416; no body for HEAD; and Content-Length is the exact number of bytes of
    the body, multipart framing included. *)
Lemma ServeContent_well r h modtime i w :
  (∀ t, env_fault t = None) → (∀ t, length (env_boundary t) = 60) →
  served_well r (file_bytes (w_fs w) i) (DFile i) (run (ServeContent r h modtime (DFile i)) w).1.
Proof.
  intros Hf Hb. unfold ServeContent. cbv zeta. destruct (checkPreconditions r modtime) as [| |rangeReq].
  - right. right. left.
  - right. left.
  - destruct (run_sizeFunc i w Hf) as [w1 E]. rewrite run_bind, E. clear E. set (data := file_bytes (w_fs w) i).
    rewrite (proj2 (Z.ltb_ge _ 0)) by lia. destruct (parseRange rangeReq _) as [e|rs] eqn:Hp.
    + destruct (bool_decide (e = errNoOverlap) && _); [|done]. by apply serve_ranges_well.
    + apply parseRange_in_file in Hp; [|lia]. apply serve_ranges_well; [done|done|]. by case_match.
Qed.
End serve_facts.

(** ** Facts: the range of a resumed download *)

Lemma Itoa_digits k : (0 <= k)%Z → Itoa k ≠ [] ∧ Forall is_digit (Itoa k).
Proof.
  intros Hk. destruct k as [|p|p]; [split; [done|by apply Forall_singleton; eexists]| |lia].
  destruct (pretty_digits (N.pos p) "" ltac:(done)) as (c & ds & E & Hc & _ & Hds).
  change (Itoa (Z.pos p)) with (lit (pretty_N_go (N.pos p) "")). rewrite E, app_nil_r.
  split; [done|]. by apply Forall_cons.
Qed.

Lemma digit_not c d : is_digit c → digit_val d = None → c ≠ d.
Proof. intros [v Hv] Hd ->. congruence. Qed.

Lemma digits_notin s d : Forall is_digit s → digit_val d = None → d ∉ s.
Proof. intros Hs Hd Hin. rewrite Forall_forall in Hs. by apply (digit_not d d (Hs d Hin)). Qed.

Lemma digit_not_space c : is_digit c → is_ascii_space c = false.
Proof.
  intros Hc. unfold is_ascii_space. cbn [existsb].
  by rewrite !bool_decide_false by (by apply digit_not).
Qed.

Lemma TrimString_id s : Forall (λ c, is_ascii_space c = false) s → TrimString s = s.
Proof.
  assert (∀ l, Forall (λ c, is_ascii_space c = false) l → drop_while is_ascii_space l = l) as H.
  { intros l Hl. destruct Hl as [|c l Hc _]; [done|]. cbn [drop_while]. by rewrite Hc. }
  intros Hs. unfold TrimString. rewrite (H s), H, rev_involutive by (done || by apply Forall_rev). done.
Qed.

Lemma Cut_app a b c : c ∉ a → Cut (a ++ c :: b) c = Some (a, b).
Proof.
  induction a as [|x a IH]; cbn; intros Hc; [by rewrite bool_decide_true|].
  rewrite bool_decide_false, IH by set_solver. done.
Qed.

(** A Range header for the bytes from [k] on, or from [k] to [e]. *)
Definition range_header (k : Z) (e : option Z) : str :=
  lit "bytes=" ++ Itoa k ++ "-"%char :: match e with Some e => Itoa e | None => [] end.

Lemma parseRange_header k e size :
  (0 <= k < size)%Z → in_int64 size → (∀ e', e = Some e' → (k <= e')%Z ∧ in_int64 e') →
  parseRange (range_header k e) size =
    inr [mkRange k (Z.min (default (size - 1)%Z e) (size - 1) - k + 1)].
Proof.
  intros Hk Hs He. destruct (Itoa_digits k ltac:(lia)) as [Hne Hd].
  set (tail := match e with Some e => Itoa e | None => [] end).
  assert (Forall is_digit tail) as Ht.
  { destruct e as [e|]; [|constructor]. destruct (He e eq_refl). apply Itoa_digits. lia. }
  assert (∀ s, Forall is_digit s → TrimString s = s) as Htrim.
  { intros s Hs'. apply TrimString_id. eapply Forall_impl; [exact Hs'|]. apply digit_not_space. }
  assert (parse_item (Itoa k ++ "-"%char :: tail) size =
    Some (RangeItem (mkRange k (Z.min (default (size - 1)%Z e) (size - 1) - k + 1)))) as Hp.
  { unfold parse_item. rewrite TrimString_id, bool_decide_false.
    2:{ by destruct (Itoa k). }
    2:{ apply Forall_app_2; [|apply Forall_cons; split; [done|]];
          (eapply Forall_impl; [eassumption|]); apply digit_not_space. }
    rewrite Cut_app by by apply digits_notin. rewrite !Htrim by done. rewrite bool_decide_false by done.
    rewrite ParseInt_Itoa by (unfold in_int64, min_int64 in *; lia).
    rewrite (proj2 (Z.ltb_ge k 0)), (proj2 (Z.leb_gt size k)) by lia. subst tail. destruct e as [e|]; cbn [default].
    - destruct (He e eq_refl) as [Hke Hin].
      rewrite bool_decide_false by (apply Itoa_digits; lia). rewrite ParseInt_Itoa by done.
      rewrite (proj2 (Z.ltb_ge e k)) by lia. do 4 f_equal. destruct (Z.leb_spec size e); cbn; lia.
    - rewrite bool_decide_true by done. do 3 f_equal. cbn. lia. }
  unfold parseRange, range_header. fold tail. rewrite bool_decide_false by done.
  rewrite (proj2 (HasPrefix_spec _ (lit "bytes="))) by eauto. cbn [negb].
  change (drop 6 (lit "bytes=" ++ ?x)) with x.
  rewrite Split_single; [cbn [parse_items]; by rewrite Hp|].
  rewrite elem_of_app, elem_of_cons. intros [Hin|[|Hin]]; [|done|]; by apply digits_notin in Hin.
Qed.

Section resume.
Context {UT : UnicodeTables} {ENV : Env}.

(** A GET for a range, unconditional or if the file is still the one of the
    Last-Modified date the client was given. *)
Definition resumes (modtime : time) (range : str) (r : request) : Prop :=
  rq_method r = lit "GET" ∧ ∃ ir, rq_conditions r = mkConditions range ir [] [] [] [] ∧
  (ir = [] ∨ ir = env_http_date modtime ∧ modtime ≠ 0%Z).

(** What the library documents of its dates: they are read back to the
    second, and are no entity tags. *)
Definition dates_read_back (modtime : time) : Prop :=
  env_http_time (env_http_date modtime) = Some (TruncateSecond modtime) ∧ scanETag (env_http_date modtime) = None.

Lemma resumes_proceeds modtime range r : dates_read_back modtime → resumes modtime range r →
  checkPreconditions r modtime = Proceed range.
Proof.
  intros [Hd Ht] (Hm & ir & Hc & Hir). unfold checkPreconditions, checkIfMatch, checkIfUnmodifiedSince,
    checkIfNoneMatch, checkIfModifiedSince, not_after, checkIfRange. rewrite Hc, Hm. cbn [orb negb
    cd_if_match cd_if_none_match cd_if_unmodified_since cd_if_modified_since cd_if_range cd_range].
  rewrite !(bool_decide_true (lit "GET" = lit "GET")) by done. cbn [orb negb].
  rewrite !(bool_decide_true (([] : str) = [])) by done. cbn [orb].
  destruct Hir as [->|[-> Hz]]; [by rewrite bool_decide_true|]. case_bool_decide; [done|]. rewrite Ht, Hd.
  unfold IsZero. rewrite (proj2 (Z.eqb_neq modtime 0)) by done.
  assert (TruncateSecond modtime / Second = modtime / Second)%Z as ->.
  { unfold TruncateSecond, Second. Z.to_euclidean_division_equations. lia. }
  by rewrite Z.eqb_refl.
Qed.

(** Ranges: a GET for the bytes of the archive from [k] on, or
    from [k] to [e], plain or guarded by an If-Range with the Last-Modified
    date of the file, is answered 206 with exactly those bytes, so that the
    bytes before, the body and the bytes after are the file; with no end
    given, the body is all the rest.  Content-Length and Content-Range say
    so. *)
Lemma ServeContent_resumes r h modtime i k e w :
  (∀ t, env_fault t = None) → dates_read_back modtime → resumes modtime (range_header k e) r →
  let data := file_bytes (w_fs w) i in let size := Z.of_nat (length data) in
  (0 <= k < size)%Z → in_int64 size → (∀ e', e = Some e' → (k <= e')%Z ∧ in_int64 e') →
  ∃ ra hs, (run (ServeContent r h modtime (DFile i)) w).1
    = mkResponse StatusPartialContent hs (FileBody (DFile i) (Part ra)) ∧
  rg_start ra = k ∧ (∀ e', e = Some e' → rg_length ra = Z.min e' (size - 1) - k + 1)%Z ∧
  (e = None → k + rg_length ra = size)%Z ∧
  take (Z.to_nat k) data ++ content_bytes data (Part ra) ++ drop (Z.to_nat (k + rg_length ra)) data = data ∧
  Header_Get (lit "Content-Range") hs = contentRange ra size ∧
  Header_Get (lit "Content-Length") hs = Itoa (rg_length ra) ∧
  ∀ k, k ∉ [lit "Content-Range"; lit "Content-Length"; lit "Accept-Ranges"; lit "Last-Modified"] →
    Header_Get k hs = Header_Get k h.
Proof.
  intros Hf Hd Hr data size Hk Hs He. pose proof (resumes_proceeds modtime _ r Hd Hr) as Hp.
  destruct Hr as [Hm _]. set (n := (Z.min (default (size - 1)%Z e) (size - 1) - k + 1)%Z).
  assert (0 < n ∧ k + n <= size)%Z as [Hn Hn'].
  { subst n. destruct e as [e|]; cbn; [destruct (He e eq_refl)|]; lia. }
  unfold ServeContent. cbv zeta. rewrite Hp. destruct (run_sizeFunc i w Hf) as [w1 E].
  rewrite run_bind, E. clear E. fold data size. rewrite (proj2 (Z.ltb_ge size 0)) by lia.
  rewrite parseRange_header by done. fold n.
  assert (sumRangesSize [mkRange k n] = n) as Hsum.
  { cbn. unfold add64. rewrite Z.add_0_l. apply wrap64_id. unfold in_int64, min_int64, max_int64 in *. lia. }
  rewrite Hsum, (proj2 (Z.ltb_ge size n)) by lia. cbn [serve_ranges rg_start].
  rewrite run_bind, run_seek_to by (done || lia). cbn [run fst]. unfold send_content. rewrite Hm.
  rewrite bool_decide_false by done. exists (mkRange k n). eexists. split; [reflexivity|]. cbn [rg_start rg_length].
  split_and!; [done| | | | |apply Header_Get_Set|].
  - intros e' ->. subst n. cbn. lia.
  - intros ->. subst n. cbn. lia.
  - cbn [content_bytes]. unfold slice. cbn [rg_start rg_length].
    rewrite Z2Nat.inj_add, <- drop_drop, take_drop, take_drop by lia. done.
  - rewrite !Header_Get_Set_ne by done. apply Header_Get_Set.
  - intros x Hx. rewrite !Header_Get_Set_ne by set_solver. apply setLastModified_ne. set_solver.
Qed.
End resume.

(** ** A concrete file *)

Definition served_env : Env := quiet_env empty_db no_http.
Definition served_image : image := mkImage ExportTypeTar [FileEntry (lit "a") (lit "hello world")] true.
Definition served_world : World :=
  initial_world (mkFs {[ lit "d/x.tar" := DFile 0 ]} {[ 0 := served_image ]} 1).
Definition range_request (range if_range : str) : request :=
  mkHttp (lit "GET") [] [] [] [] [] (mkConditions range if_range [] [] [] []) (mkBody [] None).

(** Two ranges: a multipart body. *)
Lemma ServeContent_well_witness :
  let resp := (run (@ServeContent sample_tables served_env (range_request (lit "bytes=0-2, -4") [])
                 [(lit "Content-Type", lit "application/x-tar")] 5000000000 (DFile 0)) served_world).1 in
  re_status resp = StatusPartialContent ∧
  served_well (range_request (lit "bytes=0-2, -4") []) (lit "tarahello world") (DFile 0) resp.
Proof.
  cbn zeta. split; [by vm_compute|].
  apply (@ServeContent_well sample_tables served_env (range_request (lit "bytes=0-2, -4") [])
    [(lit "Content-Type", lit "application/x-tar")] 5000000000 0 served_world); [done|].
  intros t. apply length_replicate.
Defined.

Lemma ServeContent_resumes_witness :
  ∃ ra hs, (run (@ServeContent sample_tables served_env (range_request (range_header 6 None) (lit "5"))
             [(lit "Content-Type", lit "application/x-tar")] 5000000000 (DFile 0)) served_world).1
    = mkResponse StatusPartialContent hs (FileBody (DFile 0) (Part ra)) ∧
  take 6 (lit "tarahello world") ++ content_bytes (lit "tarahello world") (Part ra) = lit "tarahello world".
Proof.
  destruct (@ServeContent_resumes sample_tables served_env (range_request (range_header 6 None) (lit "5"))
    [(lit "Content-Type", lit "application/x-tar")] 5000000000 0 6 None served_world)
    as (ra & hs & Hr & Hs & _ & Hall & Hcat & _); [done| | |by vm_compute|by vm_compute|done|].
  - by vm_compute.
  - split; [done|]. exists (lit "5"). split; [done|]. right. by vm_compute.
  - exists ra, hs. split; [exact Hr|]. specialize (Hall eq_refl).
    rewrite Hall, Nat2Z.id, drop_all, app_nil_r in Hcat. exact Hcat.
Defined.
