(* ===== verification/Http.v ===== *)
(** * HTTP (internal/handler, internal/server)

    The three handlers, the middleware and the routes. *)

From S2P Require Import Prelude GoString GoUtf8 GoPath GoError Model Url Wire Config Sanitize Validate Manifest Prog.
From S2P Require Import JobStore Token FS Sql World Storage Writer Repository Client Generator Service HttpMsg ServeContent.

Local Open Scope go_scope.

(** [int64(d.Seconds())].  The source goes through a float64, which is exact
    to the second for durations below 2^24 seconds (194 days). *)
Definition whole_seconds (d : duration) : Z := Z.quot d Second.

(** ** contentDisposition *)

Definition fallback_rune (r : Z) : Z :=
  if ((r <? 0x20) || (0x7e <? r) || (r =? code dquote) || (r =? code backslash))%Z
  then code "_"%char else r.

Definition contentDisposition (name : str) : str :=
  let fallback := MapRunes fallback_rune name in
  let fallback := if bool_decide (fallback = []) then lit "archive.zip" else fallback in
  lit "attachment; filename=" ++ [dquote] ++ fallback ++ [dquote] ++ lit "; filename*=UTF-8''"
    ++ PathEscape name.

(** ** The handlers

    The service is its settings (its state is in [World]); the shutdown
    context of the [SSEHandler] is [w_shutdown]. *)
Record ArchiveHandler := mkArchiveHandler {
  ah_svc : ArchiveConfig;
  ah_expiry : duration;
  ah_baseURL : str
}.
Definition NewArchiveHandler (svc : ArchiveConfig) (expiry : duration) (baseURL : str) : ArchiveHandler :=
  mkArchiveHandler svc expiry baseURL.

Record SSEHandler := mkSSEHandler {
  sh_svc : ArchiveConfig;
  sh_pollInterval : duration;
  sh_expiry : duration;
  sh_baseURL : str
}.
Definition NewSSEHandler (svc : ArchiveConfig) (pollInterval expiry : duration) (baseURL : str) : SSEHandler :=
  mkSSEHandler svc pollInterval expiry baseURL.

Record DownloadHandler := mkDownloadHandler { dh_svc : ArchiveConfig }.
Definition NewDownloadHandler (svc : ArchiveConfig) : DownloadHandler := mkDownloadHandler svc.

Section handlers.
Context {UT : UnicodeTables} {UL : UuidLib} {ENV : Env} {REPO : ArchiveRepository}.

(** ** POST /internal/archives *)

Definition handleCreateError (err : error) : response :=
  if Is err ErrValidation then writeError StatusBadRequest (Error err)
  else if Is err ErrFolderNotFound then writeError StatusNotFound (lit "root folder not found")
  else if Is err ErrQueueFull then
    writeError StatusServiceUnavailable (lit "archive service is busy, try again shortly")
  else if Is err ErrNotAccepting then
    writeError StatusServiceUnavailable (lit "archive service is shutting down")
  else writeError StatusInternalServerError (lit "archive creation failed").

Definition Create (h : ArchiveHandler) (r : request) : prog World response :=
  match Decode_request (rq_body r) with
  | inl _ => Ret (writeError StatusBadRequest (lit "invalid request body"))
  | inr req =>
      res ← CreateJob (ah_svc h) req;
      Ret (match res with
           | inl err => handleCreateError err
           | inr j =>
               mkResponse StatusAccepted [json_header]
                 (CreatedBody (job_ID j) (status_text (job_Status j))
                    (ah_baseURL h ++ lit "/archives/" ++ job_ID j ++ lit "/events")
                    (whole_seconds (ah_expiry h)))
           end)
  end.

(** ** GET /archives/{job_id}/download *)

Definition download_headers (j : Job) : list (str * str) :=
  [(lit "Content-Type", ContentType (job_ExportType j));
   (lit "Content-Disposition", contentDisposition (job_ArchiveName j))].

Definition Download (h : DownloadHandler) (r : request) (jobID : str) : prog World response :=
  let tok := Query_Get (rq_query r) (lit "token") in
  if bool_decide (tok = []) then Ret (writeError StatusUnauthorized (lit "missing download token"))
  else
    res ← GetJob jobID;
    match res with
    | inl err =>
        if Is err ErrNotFound then Ret (writeError StatusNotFound (lit "job not found"))
        else Ret (writeError StatusInternalServerError (lit "download failed"))
    | inr j =>
        if negb (bool_decide (job_Status j = JobStatusCompleted)) then
          Ret (writeError StatusConflict (lit "archive is not ready for download"))
        else
          e ← ValidateDownloadToken jobID tok;
          match e with
          | Some err =>
              if Is err ErrTokenExpired
              then Ret (writeError StatusUnauthorized (lit "download token expired"))
              else Ret (writeError StatusUnauthorized (lit "invalid download token"))
          | None =>
              res ← OpenArchive (dh_svc h) (job_ID j);
              match res with
              | inl _ => Ret (writeError StatusInternalServerError (lit "download failed"))
              | inr f => ServeContent r (download_headers j) (default 0%Z (job_CompletedAt j)) f
              end
          end
    end.

(** ** GET /archives/{job_id}/events *)

(** [w] is the [statusWriter] of the logging middleware, which is always an
    [http.Flusher], so the branch for writers that cannot stream is absent.
    The closure [send]: the events it writes for one snapshot of the job,
    [done], and the last progress sent ([None] while [sentAny] is false). *)
Definition send (h : SSEHandler) (now : time) (last : option ProgressEvent) (current : Job)
    : list sse_event * bool * option ProgressEvent :=
  match job_Status current with
  | JobStatusCompleted =>
      ([EvCompleted (mkCompleted (job_ID current)
          (sh_baseURL h ++ lit "/archives/" ++ job_ID current ++ lit "/download")
          (job_DownloadToken current) (whole_seconds (job_ExpiresAt current - now)))], true, last)
  | JobStatusFailed | JobStatusExpired =>
      let msg := job_ErrorMessage current in
      let msg := if bool_decide (msg = []) then lit "archive job failed" else msg in
      ([EvError (mkErrorEvent msg)], true, last)
  | JobStatusQueued | JobStatusProcessing =>
      let progress := mkProgress (job_ProcessedFiles current) (job_TotalFiles current)
                        (job_ProcessedBytes current) (job_TotalBytes current) in
      if bool_decide (last = Some progress) then ([], false, last)
      else ([EvProgress progress], false, Some progress)
  end.

(** The loop's [select]: whether it stops, because the client disconnected or
    the server shuts down; otherwise its ticker fired. *)
Definition poll_select : prog World bool :=
  atomic (λ w, (match env_ctx (w_tick w) with
                | Some _ => true
                | None => w_shutdown w && env_select (w_tick w)
                end, tick w)).

(** The poll loop, for at most [fuel] ticks. *)
Fixpoint poll_loop (h : SSEHandler) (fuel : nat) (jobID : str) (last : option ProgressEvent) (sent : list sse_event)
    : prog World (list sse_event) :=
  match fuel with
  | O => Ret sent
  | S fuel' =>
      stop ← poll_select;
      if (stop : bool) then Ret sent
      else
        r ← GetJob jobID;
        match r with
        | inl err =>
            if Is err ErrNotFound
            then Ret (sent ++ [EvError (mkErrorEvent (lit "job no longer available"))])
            else poll_loop h fuel' jobID last sent
        | inr current =>
            now ← Now;
            let '(evs, done, last) := send h now last current in
            if (done : bool) then Ret (sent ++ evs) else poll_loop h fuel' jobID last (sent ++ evs)
        end
  end.

Definition sse_headers : list (str * str) :=
  [(lit "Content-Type", lit "text/event-stream"); (lit "Cache-Control", lit "no-cache");
   (lit "Connection", lit "keep-alive")].

Definition Events (h : SSEHandler) (fuel : nat) (jobID : str) : prog World response :=
  r ← GetJob jobID;
  match r with
  | inl err =>
      if Is err ErrNotFound then Ret (writeError StatusNotFound (lit "job not found"))
      else Ret (writeError StatusInternalServerError (lit "failed to open event stream"))
  | inr j =>
      now ← Now;
      let '(evs, done, last) := send h now None j in
      if (done : bool) then Ret (mkResponse StatusOK sse_headers (EventStream evs))
      else evs ← poll_loop h fuel jobID last evs; Ret (mkResponse StatusOK sse_headers (EventStream evs))
  end.

(** ** Routes *)

(** [requireAPIToken]. *)
Definition requireAPIToken (token : str) (next : request → prog World response) (r : request)
    : prog World response :=
  if (length token =? 0) || negb (ConstantTimeCompare (rq_api_token r) token =? 1)%Z
  then Ret (writeError StatusUnauthorized (lit "unauthorized"))
  else next r.

(** The mux [New] builds; a GET route also serves HEAD. *)
Definition is_GET (r : request) : bool :=
  bool_decide (rq_method r = lit "GET") || bool_decide (rq_method r = lit "HEAD").

Definition mux (selfAPIToken : str) (ah : ArchiveHandler) (sh : SSEHandler) (dh : DownloadHandler) (fuel : nat)
    (r : request) : prog World response :=
  match rq_path r with
  | [a; b] =>
      if bool_decide (a = lit "internal") && bool_decide (b = lit "archives") then
        if bool_decide (rq_method r = lit "POST") then requireAPIToken selfAPIToken (Create ah) r
        else Ret (MethodNotAllowed (lit "POST"))
      else Ret NotFound
  | [a; jobID; b] =>
      if bool_decide (a = lit "archives") && bool_decide (b = lit "events") then
        if is_GET r then Events sh fuel jobID else Ret (MethodNotAllowed (lit "GET, HEAD"))
      else if bool_decide (a = lit "archives") && bool_decide (b = lit "download") then
        if is_GET r then Download dh r jobID else Ret (MethodNotAllowed (lit "GET, HEAD"))
      else Ret NotFound
  | _ => Ret NotFound
  end.

(** [cors] answers OPTIONS itself with 204, and adds its headers to every
    other response. *)
Definition cors_headers (r : request) : list (str * str) :=
  (if negb (bool_decide (rq_origin r = []))
   then [(lit "Access-Control-Allow-Origin", rq_origin r);
         (lit "Access-Control-Allow-Credentials", lit "true"); (lit "Vary", lit "Origin")]
   else [(lit "Access-Control-Allow-Origin", lit "*")]) ++
  [(lit "Access-Control-Expose-Headers",
    lit "Accept-Ranges, Content-Disposition, Content-Length, Content-Range, Content-Type, Last-Modified")].

Definition preflight_headers (r : request) : list (str * str) :=
  [(lit "Access-Control-Allow-Methods", lit "GET, POST, PUT, PATCH, DELETE, OPTIONS")] ++
  (if negb (bool_decide (rq_acr_headers r = []))
   then [(lit "Access-Control-Allow-Headers", rq_acr_headers r);
         (lit "Vary", lit "Access-Control-Request-Headers")]
   else [(lit "Access-Control-Allow-Headers", lit "*")]) ++
  [(lit "Access-Control-Max-Age", lit "86400")].

Definition cors (next : request → prog World response) (r : request) : prog World response :=
  if bool_decide (rq_method r = lit "OPTIONS")
  then Ret (mkResponse StatusNoContent (cors_headers r ++ preflight_headers r) NoBody)
  else
    resp ← next r;
    Ret (mkResponse (re_status resp) (cors_headers r ++ re_headers resp) (re_body resp)).

(** The handler chain of [New] inside the request log. *)
Definition serve (cfg : ArchiveConfig) (baseURL selfAPIToken : str) (fuel : nat) (r : request) : prog World response :=
  cors (mux selfAPIToken (NewArchiveHandler cfg (ac_Expiry cfg) baseURL)
          (NewSSEHandler cfg 500000000 (ac_Expiry cfg) baseURL) (NewDownloadHandler cfg) fuel) r.

(** ** The request log *)

(** The calls a handler makes on its [http.ResponseWriter]. *)
Inductive writer_call := WriteHeader (status : Z) | WriteBody | Flush.

Definition writer_calls (resp : response) : list writer_call :=
  WriteHeader (re_status resp) ::
  match re_body resp with
  | EventStream evs => Flush :: (evs ≫= λ _, [WriteBody; Flush])
  | NoBody => []
  | _ => [WriteBody]
  end.

(** [statusWriter]: the status it recorded after some calls, 200 until then. *)
Definition statusWriter_status (calls : list writer_call) : Z :=
  foldl (λ status c, match c with WriteHeader s => s | WriteBody | Flush => status end) StatusOK calls.

Record access_log := mkAccessLog {
  al_method : str;
  al_path : list str;
  al_status : Z;
  al_duration_ms : Z
}.

Definition requestLogger (next : request → prog World response) (r : request) : prog World (response * access_log) :=
  start ← Now;
  resp ← next r;
  now ← Now;
  Ret (resp, mkAccessLog (rq_method r) (rq_path r) (statusWriter_status (writer_calls resp))
               (Z.quot (now - start) 1000000)).

Definition handle (cfg : ArchiveConfig) (baseURL selfAPIToken : str) (fuel : nat) (r : request)
    : prog World (response * access_log) :=
  requestLogger (serve cfg baseURL selfAPIToken fuel) r.

Lemma logged_status resp : statusWriter_status (writer_calls resp) = re_status resp.
Proof.
  unfold statusWriter_status, writer_calls. cbn [foldl]. destruct (re_body resp); try done.
  cbn [foldl]. induction evs as [|e evs IH]; [done|]. exact IH.
Qed.
End handlers.

(** [http.Server] as [New] builds it: no limit on a whole request or
    response. *)
Record http_server := mkHttpServer {
  hs_Addr : str;
  hs_Handler : nat → request → prog World (response * access_log);
  hs_ReadHeaderTimeout : duration;
  hs_IdleTimeout : duration
}.

Definition server_New {UT : UnicodeTables} {UL : UuidLib} {ENV : Env} {REPO : ArchiveRepository}
    (cfg : Config.ServerConfig) (archive : ArchiveConfig) : http_server :=
  mkHttpServer (Addr cfg) (handle archive (sv_PublicBaseURL cfg) (sv_SelfAPIToken cfg))
    (sv_ReadTimeout cfg) (sv_IdleTimeout cfg).

Lemma url_safe_unreserved c : url_safe c → unreserved c = true.
Proof.
  unfold unreserved. intros [H|[->| ->]]; [|by vm_compute..].
  apply orb_true_intro. left. rewrite !orb_true_iff, !andb_true_iff, !Z.leb_le. lia.
Qed.

(** A token is its own query value. *)
Lemma Query_Get_token raw : Query_Get (lit "token=" ++ EncodeToString raw) (lit "token") = EncodeToString raw.
Proof.
  pose proof (EncodeToString_url_safe raw) as Hs. revert Hs. generalize (EncodeToString raw). intros tok Hs.
  assert (QueryEscape tok = tok) as E.
  { induction Hs as [|c t Hc _ IH]; [done|]. change (QueryEscape (c :: t)) with (query_byte c ++ QueryEscape t).
    unfold query_byte. by rewrite (url_safe_unreserved c Hc), IH. }
  rewrite <- (Query_Get_Set [] (lit "token") tok) at 2. do 2 f_equal.
  change (lit "token=" ++ tok = lit "token=" ++ QueryEscape tok). by rewrite E.
Qed.

(** ** Who may do what *)

Section access.
Context {UT : UnicodeTables} {UL : UuidLib} {ENV : Env} {REPO : ArchiveRepository}.
Context (cfg : ArchiveConfig) (baseURL selfAPIToken : str).

Lemma run_GetJob id w : run (GetJob id) w = (store_Get id (w_jobs w), set_jobs (w_jobs w) w).
Proof. unfold GetJob, jobs_Get, with_jobs. by rewrite run_atomic. Qed.

Lemma run_ValidateDownloadToken id tok w :
  run (ValidateDownloadToken id tok) w =
    (token_Validate id tok (env_now (S (w_tick w))) (w_tokens w !! tok), tick (set_tokens (w_tokens w) (tick w))).
Proof.
  unfold ValidateDownloadToken, tokens_Validate. rewrite run_bind. unfold with_tokens.
  rewrite run_atomic, run_bind. unfold Now, observe. by rewrite run_atomic.
Qed.

Lemma run_OpenArchive svc id w :
  run (OpenArchive svc id) w =
    (match sys_open (finalPath (ac_TempDir svc) id) (env_fault (w_tick w)) (w_fs w) with
     | inl err => inl (Errorf_w (lit "open archive: ") err [])
     | inr f => inr f
     end, set_fs (w_fs w) (tick w)).
Proof. unfold OpenArchive, storage_Open. rewrite run_bind. unfold syscall. by rewrite run_atomic. Qed.

(** A download changes no state. *)
Lemma GetJob_reader id : reader (GetJob id).
Proof. intros w. done. Qed.

Lemma ServeContent_reader r h modtime f : reader (ServeContent r h modtime f).
Proof.
  unfold ServeContent. cbv zeta. case_match; [done|done|]. apply reader_bind.
  { apply reader_bind; [by intros w|]. intros [e|n]; [done|]. by apply reader_bind; [intros w|]. }
  assert (∀ h size rs, reader (serve_ranges r h size f rs)) as Hr.
  { intros h' size [|ra [|rb rs]]; [done|by apply reader_bind; [intros w|intros []]|].
    cbn [serve_ranges]. cbv zeta. apply reader_bind; [apply reader_observe|]. intros b.
    by apply reader_bind; [apply reader_observe|]. }
  intros [size|]; [|done]. case_match; [done|]. destruct (parseRange _ _) as [e|rs]; [|apply Hr].
  case_match; [apply Hr|done].
Qed.

Lemma Download_reader h r id : reader (Download h r id).
Proof.
  unfold Download. cbv zeta. case_bool_decide; [done|]. apply reader_bind; [apply GetJob_reader|].
  intros [e|j]; [by case_match|]. case_match; [done|]. apply reader_bind; [by intros w|].
  intros [e|]; [by case_match|]. apply reader_bind; [|intros []; [done|apply ServeContent_reader]].
  intros w. cbn. unfold sys_open. by repeat case_match.
Qed.

(** The token of the request is good for job [id], which is [j], in [w]. *)
Definition authorized (tok id : str) (j : Job) (w : World) : Prop :=
  tok ≠ [] ∧ w_jobs w !! id = Some j ∧ job_Status j = JobStatusCompleted ∧
  ∃ e, w_tokens w !! tok = Some e ∧ ent_jobID e = id ∧ (env_now (S (w_tick w)) <= ent_expiresAt e)%Z.

(** When the checks pass, the file of the final name is served. *)
Lemma Download_run h r id j f w :
  authorized (Query_Get (rq_query r) (lit "token")) id j w → env_fault (S (S (w_tick w))) = None →
  fs_names (w_fs w) !! finalPath (ac_TempDir (dh_svc h)) (job_ID j) = Some f →
  ∃ w', same_state w w' ∧
    run (Download h r id) w = run (ServeContent r (download_headers j) (default 0%Z (job_CompletedAt j)) f) w'.
Proof.
  intros (Htok & Hj & Hs & e & He & Hid & Hexp) Hflt Hf. unfold Download. cbv zeta. rewrite bool_decide_false by done.
  rewrite run_bind, run_GetJob. unfold store_Get. rewrite Hj, (bool_decide_true (job_Status j = _)) by done. cbn [negb].
  rewrite run_bind, run_ValidateDownloadToken. cbn [w_tick w_tokens set_jobs]. rewrite He. unfold token_Validate.
  rewrite (proj2 (ConstantTimeCompare_spec _ _) Hid), (proj2 (Z.ltb_ge _ _) Hexp). cbn [Z.eqb Pos.eqb negb].
  rewrite run_bind, run_OpenArchive. unfold sys_open. cbn [w_fs w_tick tick set_jobs set_tokens]. rewrite Hflt, Hf.
  eexists. split; [|reflexivity]. done.
Qed.

(** C7: archive data goes only to an authorised client: a download that is
    answered with anything but one of the handler's own error messages had a
    non-empty token that was issued for this very job and has not expired,
    and the job is completed; the answer is then [ServeContent]'s for the
    file under that job's final name, with the job's content type and
    name. *)
Theorem Download_authorized h r id w :
  let resp := (run (Download h r id) w).1 in
  ¬ (∃ msg, re_body resp = ErrorBody msg) →
  ∃ j f w', authorized (Query_Get (rq_query r) (lit "token")) id j w ∧ same_state w w' ∧
  fs_names (w_fs w) !! finalPath (ac_TempDir (dh_svc h)) (job_ID j) = Some f ∧
  resp = (run (ServeContent r (download_headers j) (default 0%Z (job_CompletedAt j)) f) w').1.
Proof.
  cbn zeta. unfold Download, authorized. set (tok := Query_Get _ _). cbv zeta. case_bool_decide as Htok; [naive_solver|].
  rewrite run_bind, run_GetJob. unfold store_Get.
  destruct (w_jobs w !! id) as [j|] eqn:Hj; [|naive_solver].
  case_bool_decide as Hs; cbn [negb]; [|naive_solver].
  rewrite run_bind, run_ValidateDownloadToken. cbn [w_tick w_tokens set_jobs].
  destruct (token_Validate _ _ _ _) as [err|] eqn:Hv; [case_match; naive_solver|].
  rewrite run_bind, run_OpenArchive. unfold sys_open. cbn [w_fs w_tick tick set_jobs set_tokens].
  destruct (env_fault _); [naive_solver|].
  destruct (fs_names (w_fs w) !! _) as [f|] eqn:Hf; [|naive_solver]. intros _.
  unfold token_Validate in Hv. destruct (w_tokens w !! tok) as [e|] eqn:He; [|done].
  destruct (Z.eqb_spec (ConstantTimeCompare (ent_jobID e) id) 1) as [Hc|]; [|done]. cbn [negb] in Hv.
  apply ConstantTimeCompare_spec in Hc. destruct (Z.ltb_spec (ent_expiresAt e) (env_now (S (w_tick w)))); [done|].
  exists j, f. eexists. split; [by eauto 10|]. split; [|split; [done|reflexivity]]. done.
Qed.


(** Streaming events changes no state. *)
Lemma poll_loop_reader h n id : ∀ last sent, reader (poll_loop h n id last sent).
Proof.
  induction n as [|n IH]; intros last sent; [done|]. cbn [poll_loop].
  apply reader_bind; [by intros w|]. intros []; [done|].
  apply reader_bind; [apply GetJob_reader|]. intros [e|j]; [case_match; [done|apply IH]|].
  apply reader_bind; [apply reader_observe|]. intros now.
  destruct (send _ _ _ _) as [[evs []] last']; [done|apply IH].
Qed.

Lemma Events_reader h n id : reader (Events h n id).
Proof.
  unfold Events. apply reader_bind; [apply GetJob_reader|]. intros [e|j]; [by case_match|].
  apply reader_bind; [apply reader_observe|]. intros now. destruct (send _ _ _ _) as [[evs []] last]; [done|].
  apply reader_bind; [apply poll_loop_reader|done].
Qed.

Lemma requireAPIToken_spec token next r :
  (rq_api_token r = token ∧ token ≠ [] ∧ requireAPIToken token next r = next r) ∨
  ((rq_api_token r ≠ token ∨ token = []) ∧
   requireAPIToken token next r = Ret (writeError StatusUnauthorized (lit "unauthorized"))).
Proof.
  unfold requireAPIToken. destruct token as [|c token]; [by right; auto|].
  destruct (Z.eqb_spec (ConstantTimeCompare (rq_api_token r) (c :: token)) 1) as [E|E]; cbn.
  - apply ConstantTimeCompare_spec in E. by left.
  - right. split; [|done]. left. intros E'. apply E. by apply ConstantTimeCompare_spec.
Qed.

(** C9: only the holder of the configured API token can change anything over
    HTTP: if serving a request changed the jobs, the queue, the tokens, the
    disk or the accepting flag, it was a POST to /internal/archives carrying
    exactly the configured, non-empty token. *)
Theorem only_authorized_changes n r w :
  ¬ same_state w (run (serve cfg baseURL selfAPIToken n r) w).2 →
  rq_method r = lit "POST" ∧ rq_path r = [lit "internal"; lit "archives"] ∧
  rq_api_token r = selfAPIToken ∧ selfAPIToken ≠ [].
Proof.
  intros Hch. unfold serve, cors in Hch. case_bool_decide; [by exfalso; apply Hch|].
  rewrite run_bind in Hch.
  set (p := mux _ _ _ _ n r) in Hch. destruct (run p w) as [resp w'] eqn:E. cbn in Hch.
  assert (¬ same_state w (run p w).2) as Hm by (by rewrite E). clear E Hch. subst p.
  unfold mux in Hm.
  destruct (rq_path r) as [|a [|b [|c [|]]]]; try (by exfalso; apply Hm).
  - destruct (bool_decide (a = _)) eqn:Ea, (bool_decide (b = _)) eqn:Eb; cbn in Hm; try (by exfalso; apply Hm).
    case_bool_decide as Hpost; [|by exfalso; apply Hm]. breflect. subst.
    destruct (requireAPIToken_spec selfAPIToken (Create (NewArchiveHandler cfg (ac_Expiry cfg) baseURL)) r) as [(? & ? & _)|[_ E]]; [done|].
    rewrite E in Hm. by exfalso; apply Hm.
  - repeat case_match; try (by exfalso; apply Hm); exfalso; apply Hm;
      [apply reader_run, Events_reader|apply reader_run, Download_reader].
Qed.
End access.

(** ** What clients are told *)

Section messages.
Context {UT : UnicodeTables} {UL : UuidLib} {ENV : Env} {REPO : ArchiveRepository}.

(** Every text a refused request can be answered with. *)
Definition create_messages : list (Z * str) :=
  [(StatusBadRequest, lit "invalid request body");
   (StatusBadRequest, lit "validation error: root_folder_id is required");
   (StatusBadRequest, lit "validation error: root_folder_id is not a valid UUID");
   (StatusBadRequest, lit "validation error: archive_name is required");
   (StatusBadRequest, lit "validation error: archive_name must be 1-255 characters and contain no path separators");
   (StatusBadRequest, lit "validation error: archive_name is invalid");
   (StatusBadRequest, lit "validation error: export_type must be " ++ [dquote] ++ lit "zip" ++ [dquote]
                      ++ lit " or " ++ [dquote] ++ lit "tar" ++ [dquote]);
   (StatusNotFound, lit "root folder not found");
   (StatusServiceUnavailable, lit "archive service is busy, try again shortly");
   (StatusServiceUnavailable, lit "archive service is shutting down");
   (StatusInternalServerError, lit "archive creation failed")].

(** The error is one of the service's own or wraps none of its sentinels. *)
Definition opaque_error (e : error) : Prop := ∀ s, s ≠ ErrNotFound → Is e s = false.

Lemma handleCreateError_opaque e : opaque_error e →
  handleCreateError e = writeError StatusInternalServerError (lit "archive creation failed").
Proof. intros Ho. unfold handleCreateError. by rewrite !Ho. Qed.

Lemma validation_message req err : validateRequest req = inl err →
  ∃ msg, handleCreateError err = writeError StatusBadRequest msg ∧ (StatusBadRequest, msg) ∈ create_messages.
Proof.
  unfold validateRequest, validateRootFolderID, validateArchiveName, validateExportType. intros H.
  cases_in H; (eexists; split; [reflexivity|]); unfold create_messages; cbn;
    repeat (first [left; reflexivity | right]).
Qed.

(** The answer to a create request tells the client nothing internal: it
    is the 202 body for the accepted job, or one of eleven fixed pairs of
    status and text; database errors and the like all become the same 500.
    This holds when the repository's errors do not themselves wrap one of
    the service's error values. *)
Theorem Create_responses h r w :
  (∀ id w1 e, (run (FolderExists id) w1).1 = inl e → opaque_error e) →
  let resp := (run (Create h r) w).1 in
  (∃ j, resp = mkResponse StatusAccepted [json_header] (CreatedBody (job_ID j) (lit "queued")
          (ah_baseURL h ++ lit "/archives/" ++ job_ID j ++ lit "/events") (whole_seconds (ah_expiry h)))) ∨
  ∃ status msg, resp = writeError status msg ∧ (status, msg) ∈ create_messages.
Proof.
  intros Hrepo. cbn zeta. unfold Create. destruct (Decode_request (rq_body r)) as [e|req].
  { right. eexists _, _. split; [done|]. left. }
  rewrite run_bind. unfold CreateJob. rewrite run_bind. unfold accepting_Load. rewrite run_atomic.
  destruct (w_accepting w); cbn [negb].
  2:{ right. eexists _, _. split; [reflexivity|]. unfold create_messages. do 9 right. left. }
  rewrite run_try. cbn [run]. destruct (validateRequest req) as [err|[[root name] type]] eqn:Hv.
  { right. destruct (validation_message req err Hv) as (msg & Hm & Hin). cbn. eauto. }
  rewrite run_try. unfold wrapped. rewrite run_bind. pose proof (Hrepo root w) as Ho.
  destruct (run (FolderExists root) w) as [[e|[]] w1]; cbn [run negb fst] in *.
  - right. eexists _, _. split; [apply handleCreateError_opaque; intros s Hs; by apply (Ho e eq_refl)|].
    unfold create_messages. do 10 right. left.
  - rewrite !run_bind, run_Now, run_bind, run_observe, run_bind.
    unfold jobs_Create, with_jobs. rewrite run_atomic. unfold store_Create.
    destruct (w_jobs _ !! _); cbn [run].
    { right. eexists _, _. split; [by apply handleCreateError_opaque|]. unfold create_messages. do 10 right. left. }
    rewrite run_bind. unfold try_send. rewrite run_atomic.
    match goal with |- context [if ?b then _ else _] => destruct b end.
    + left. eexists. reflexivity.
    + rewrite run_bind. unfold jobs_Delete, with_jobs. rewrite run_atomic. right. eexists _, _.
      split; [reflexivity|]. unfold create_messages. do 8 right. left.
  - right. eexists _, _. split; [reflexivity|]. unfold create_messages. do 7 right. left.
Qed.

(** ** The event stream *)

(** No two neighbours are equal. *)
Fixpoint no_repeat {A} (l : list A) : Prop :=
  match l with
  | x :: ((y :: _) as l') => x ≠ y ∧ no_repeat l'
  | _ => True
  end.

Definition terminal (e : sse_event) : Prop := match e with EvProgress _ => False | _ => True end.

(** Progress reports, no two in a row alike, then at most one final event. *)
Definition good_stream (evs : list sse_event) : Prop :=
  ∃ ps fin, evs = (EvProgress <$> ps) ++ fin ∧ no_repeat ps ∧ (fin = [] ∨ ∃ e, fin = [e] ∧ terminal e).

Lemma no_repeat_snoc {A} (l : list A) x : no_repeat l → last l ≠ Some x → no_repeat (l ++ [x]).
Proof.
  induction l as [|y [|z l] IH]; cbn; [done| |].
  - intros _ Hne. split; [congruence|done].
  - intros [? ?] ?. split; [done|]. by apply IH.
Qed.

Lemma send_good h now ps j evs done last' :
  no_repeat ps → send h now (last ps) j = (evs, done, last') →
  if (done : bool) then good_stream ((EvProgress <$> ps) ++ evs)
  else ∃ ps', (EvProgress <$> ps) ++ evs = EvProgress <$> ps' ∧ no_repeat ps' ∧ last' = last ps'.
Proof.
  intros Hps Hs. unfold send in Hs. destruct (job_Status j).
  1,2: case_bool_decide as Hl; simplify_eq.
  - exists ps. by rewrite app_nil_r.
  - eexists (ps ++ [_]). rewrite fmap_app, last_snoc. split_and!; [done|by apply no_repeat_snoc|done].
  - exists ps. by rewrite app_nil_r.
  - eexists (ps ++ [_]). rewrite fmap_app, last_snoc. split_and!; [done|by apply no_repeat_snoc|done].
  - simplify_eq. exists ps, [EvCompleted (mkCompleted (job_ID j)
      (sh_baseURL h ++ lit "/archives/" ++ job_ID j ++ lit "/download") (job_DownloadToken j)
      (whole_seconds (job_ExpiresAt j - now)))]. split_and!; [done..|]. right. by eexists.
  - simplify_eq. eexists ps, [_]. split_and!; [done..|]. right. by eexists.
  - simplify_eq. eexists ps, [_]. split_and!; [done..|]. right. by eexists.
Qed.

Lemma poll_loop_good h Inv n id : (∀ w w', Inv w → same_state w w' → Inv w') → ∀ ps, no_repeat ps →
  safe_post Inv good_stream (poll_loop h n id (last ps) (EvProgress <$> ps)).
Proof.
  intros HI. induction n as [|n IH]; intros ps Hps; cbn [poll_loop].
  { exists ps, []. rewrite app_nil_r. auto. }
  eapply (safe_post_bind _ (λ _, True)).
  { apply safe_post_atomic. intros w Hw. split; [|done]. by apply (HI w). }
  intros [] _. { exists ps, []. rewrite app_nil_r. auto. }
  eapply (safe_post_bind _ (λ _, True)).
  { apply safe_post_atomic. intros w Hw. split; [|done]. by apply (HI w). }
  intros [e|j] _.
  { case_match; [|by apply IH]. exists ps, [EvError (mkErrorEvent (lit "job no longer available"))].
    split_and!; [done..|]. right. by eexists. }
  eapply (safe_post_bind _ (λ _, True)).
  { apply safe_post_atomic. intros w Hw. split; [|done]. by apply (HI w). }
  intros now _. destruct (send h now (last ps) j) as [[evs done] last'] eqn:Hs.
  apply send_good in Hs; [|done]. destruct done; [done|]. destruct Hs as (ps' & -> & Hps' & ->). by apply IH.
Qed.

(** C27: whatever the workers and the cleanup do to the job between two polls,
    the event stream of a connection is a sequence of progress reports, no
    two in a row alike, followed by at most one final event (completed or
    error), after which nothing more is sent. *)
Theorem Events_stream h n id :
  safe_post (λ _, True) (λ resp, match re_body resp with EventStream evs => good_stream evs | _ => True end)
    (Events h n id).
Proof.
  unfold Events. eapply (safe_post_bind _ (λ _, True)); [by apply safe_post_atomic|].
  intros [e|j] _; [by case_match|].
  eapply (safe_post_bind _ (λ _, True)); [by apply safe_post_atomic|]. intros now _.
  destruct (send h now None j) as [[evs done] last'] eqn:Hs.
  apply (send_good h now []) in Hs; [|done]. cbn in Hs. destruct done; [done|].
  destruct Hs as (ps & -> & Hps & ->).
  eapply safe_post_bind; [by apply (poll_loop_good h (λ _, True))|]. intros evs Hg. exact Hg.
Qed.
End messages.

(** ** The download's file name *)

(** Percent-decoding, as a client reads the filename* parameter. *)
(** May stand inside a quoted string as it is. *)
Definition quotable (c : ascii) : Prop :=
  (0x20 <= code c <= 0x7e)%Z ∧ c ≠ dquote ∧ c ≠ backslash.

(** Letters, digits, percent and the punctuation [PathEscape] keeps. *)
Definition param_char (c : ascii) : Prop := unescaped c = true ∨ c = "%"%char.

Lemma fallback_rune_range r : (0 <= r)%Z →
  (0x20 <= fallback_rune r <= 0x7e)%Z ∧ fallback_rune r ≠ code dquote ∧ fallback_rune r ≠ code backslash.
Proof.
  intros Hr. unfold fallback_rune. destruct (_ || _) eqn:E.
  - vm_compute. repeat split; congruence.
  - breflect. lia.
Qed.

Lemma runes_nonneg s : Forall (λ ru, (0 <= ru.1)%Z) (runes s).
Proof.
  unfold runes. generalize (length s) as n. intros n. revert s.
  induction n as [|n IH]; intros [|c s]; cbn [runes_loop]; try constructor.
  destruct (DecodeRune (c :: s)) as [r w] eqn:E. constructor; [|apply IH]. cbn.
  destruct (Z.ltb_spec (code c) 0x80) as [H|H].
  - rewrite DecodeRune_ascii in E by done. simplify_eq. apply code_range.
  - pose proof (DecodeRune_high c s H) as Hh. rewrite E in Hh. cbn in Hh. lia.
Qed.

Lemma fallback_quotable name : Forall quotable (MapRunes fallback_rune name).
Proof.
  unfold MapRunes. apply Forall_concat, Forall_fmap. eapply Forall_impl; [apply runes_nonneg|].
  intros [r u] Hr. cbn in *. destruct (fallback_rune_range r Hr) as (H1 & H2 & H3).
  rewrite EncodeRune_ascii by lia. apply Forall_singleton.
  assert (code (chr (fallback_rune r)) = fallback_rune r) as Hc by (rewrite code_chr, Z.mod_small; lia).
  split; [lia|]. split; intros E; rewrite E in Hc; congruence.
Qed.

Lemma PathEscape_chars s : Forall param_char (PathEscape s).
Proof.
  apply Forall_bind. apply Forall_true. intros c. unfold path_byte, compose. cbv beta.
  destruct (unescaped c) eqn:E; [apply Forall_singleton; by left|].
  eapply Forall_impl; [apply percent_byte_chars|]. intros d [Hd| ->]; [left|by right].
  unfold unescaped. by rewrite Hd.
Qed.

(** C30: the Content-Disposition value cannot be broken out of by any archive
    name: it is exactly the two parameters, the first a non-empty quoted
    string of printable ASCII without quotes or backslashes, the second free
    of separators, quotes, spaces and control bytes; and percent-decoding the
    second gives back the name byte for byte. *)
Theorem contentDisposition_safe name :
  ∃ fb esc, contentDisposition name =
    lit "attachment; filename=" ++ [dquote] ++ fb ++ [dquote] ++ lit "; filename*=UTF-8''" ++ esc ∧
  fb ≠ [] ∧ Forall quotable fb ∧ Forall param_char esc ∧ PathUnescape esc = Some name.
Proof.
  unfold contentDisposition.
  exists (if bool_decide (MapRunes fallback_rune name = []) then lit "archive.zip"
          else MapRunes fallback_rune name), (PathEscape name).
  split_and!; [done| | |apply PathEscape_chars|apply PathUnescape_Escape].
  - case_bool_decide; [|done]. by vm_compute.
  - case_bool_decide; [|apply fallback_quotable].
    repeat constructor; vm_compute; congruence.
Qed.
