(* ===== verification/Process.v ===== *)
(** * What processing a job achieves (internal/service/archive.go, [ProcessJob])

    A run of [ProcessJob] ends with its job completed or failed, and what
    each of the two means for the job record, the tokens and the disk. *)

From S2P Require Import Prelude GoString GoPath GoError Model Json Url Wire Config Sanitize Validate Manifest Prog.
From S2P Require Import JobStore Token FS Sql World Storage Writer Repository Client Generator Service HttpMsg ServeContent Http.

Section process.
Context {UT : UnicodeTables} {UL : UuidLib} {ENV : Env} {REPO : ArchiveRepository} {FF : FileFetcher}.
Context (cfg : ArchiveConfig).

(** ** What a step of processing may change *)

(** Only the record of [id], which still exists, and the disk moved. *)
Definition job_frame (id : str) (w w' : World) : Prop :=
  is_Some (w_jobs w' !! id) ∧ (∀ i, i ≠ id → w_jobs w' !! i = w_jobs w !! i) ∧
  w_tokens w' = w_tokens w ∧ w_queue w' = w_queue w ∧ w_accepting w' = w_accepting w.

Lemma job_frame_refl id w : is_Some (w_jobs w !! id) → job_frame id w w.
Proof. intros ?. unfold job_frame. by split_and!. Qed.

Lemma job_frame_trans id w1 w2 w3 : job_frame id w1 w2 → job_frame id w2 w3 → job_frame id w1 w3.
Proof.
  intros (?&Ho1&?&?&?) (?&Ho2&?&?&?). unfold job_frame. split_and!; try done; try congruence.
  intros i Hi. rewrite Ho2, Ho1; done.
Qed.

Lemma job_frame_ignores_fs id w : ignores_fs (job_frame id w).
Proof.
  intros w1 w2 (?&?&?&?&?) (Hj&?&?&?&?). unfold job_frame. rewrite Hj. split_and!; try done; congruence.
Qed.

Lemma job_frame_same id w w' : is_Some (w_jobs w !! id) → same_but_fs w w' → job_frame id w w'.
Proof. intros Hs. by apply job_frame_ignores_fs, job_frame_refl. Qed.

Lemma same_state_but_fs w w' : same_state w w' → same_but_fs w w'.
Proof. by intros (?&?&?&?&?&?). Qed.

Lemma run_jobs_Update j w :
  is_Some (w_jobs w !! job_ID j) →
  run (jobs_Update j) w = (None, set_jobs (<[job_ID j := j]> (w_jobs w)) w).
Proof.
  intros [j0 Hj0]. unfold jobs_Update, with_jobs. rewrite run_atomic. unfold store_Update. by rewrite Hj0.
Qed.

Lemma job_frame_update j w :
  job_frame (job_ID j) w (set_jobs (<[job_ID j := j]> (w_jobs w)) w).
Proof.
  unfold job_frame. split_and!; try done; cbn; [by rewrite lookup_insert_eq|]. intros i Hi. by rewrite lookup_insert_ne.
Qed.

(** ** Progress *)

(** [j'] is [j] with other progress counters. *)
Definition core (j : Job) : Job := set_UpdatedAt 0 (set_ProcessedBytes 0 (set_ProcessedFiles 0 j)).
Definition progressed (j j' : Job) : Prop := core j' = core j.

Lemma progressed_ID j j' : progressed j j' → job_ID j' = job_ID j.
Proof. intros Hp. change (job_ID (core j') = job_ID (core j)). by rewrite Hp. Qed.

Lemma onProgress_safe w0 j a b j' :
  progressed j j' → safe_post (job_frame (job_ID j) w0) (progressed j) (onProgress a b j').
Proof.
  intros Hp. eapply safe_post_bind; [apply observe_safe, job_frame_ignores_fs|]. intros now _.
  set (j1 := set_UpdatedAt now _).
  assert (progressed j j1) as Hp1 by (unfold progressed in *; rewrite <- Hp; done).
  eapply safe_post_bind; [|by intros _ _]. apply (safe_post_atomic _ (λ _, True)).
  intros w Hw. split; [|done]. pose proof Hw as (Hs & _). rewrite <- (progressed_ID j j1 Hp1) in *.
  pose proof (run_jobs_Update j1 w Hs) as Hu. unfold jobs_Update, with_jobs in Hu. rewrite run_atomic in Hu.
  rewrite Hu. eapply job_frame_trans; [exact Hw|]. apply job_frame_update.
Qed.

Lemma onProgress_ok :
  progress_ok (λ a b j, job_ProcessedFiles j = a ∧ job_ProcessedBytes j = b) (Some onProgress).
Proof.
  intros a b j w. unfold onProgress. rewrite run_bind. unfold Now, observe. rewrite run_atomic, run_bind.
  unfold jobs_Update, with_jobs. rewrite run_atomic. destruct (store_Update _ _). done.
Qed.

(** ** Generating and publishing *)

Context (Hdir : ac_TempDir cfg ≠ []) (Hmax : (0 <= ac_MaxSizeBytes cfg < max_int64)%Z).
Abbreviation temp id := (tempPath (ac_TempDir cfg) id).
Abbreviation final id := (finalPath (ac_TempDir cfg) id).

(** The final file of [id] is a finished container for [m]; no temporary
    file is left. *)
Definition published (id : str) (m : ArchiveManifest) (es : list archive_entry) (w : World) : Prop :=
  (∃ ino, fs_names (w_fs w) !! final id = Some (DFile ino) ∧
          fs_data (w_fs w) !! ino = Some (mkImage (format_of m) es true)) ∧
  fs_names (w_fs w) !! temp id = None ∧ container_for (exact := is_tar m) (ac_MaxSizeBytes cfg) m es.

(** Nothing new is offered under the final name of [id]. *)
Definition unpublished (id : str) (w w' : World) : Prop :=
  fs_names (w_fs w') !! final id = fs_names (w_fs w) !! final id ∨ fs_names (w_fs w') !! final id = None.

(** [Delete] after a failure. *)
Lemma storage_Delete_frame id w :
  same_but_fs w (run (storage_Delete (ac_TempDir cfg) id) w).2 ∧
  unpublished id w (run (storage_Delete (ac_TempDir cfg) id) w).2.
Proof.
  unfold storage_Delete. pose proof (remove_all_spec [temp id; final id] w) as H.
  destruct (run _ w) as [r w']. destruct H as (Hs & (_ & _ & Hr) & _). split; [done|].
  destruct (Hr (final id)) as [?|[_ ?]]; [by left|by right].
Qed.

(** After [Delete], a failed generation. *)
Lemma delete_after_failure id (e : error) (j : Job) w0 w :
  job_frame id w0 w → unpublished id w0 w →
  let r := run (_ ← storage_Delete (ac_TempDir cfg) id; Ret (Some e, j)) w in
  r.1 = (Some e, j) ∧ job_frame id w0 r.2 ∧ unpublished id w0 r.2.
Proof.
  intros Hf Hu. cbn zeta. rewrite run_bind. destruct (storage_Delete_frame id w) as [Hs Hun].
  destruct (run _ w) as [r w1]. cbn in *. split_and!; [done|by eapply job_frame_ignores_fs|].
  unfold unpublished in *. destruct Hun as [->|?]; [done|by right].
Qed.

(** What the counters of a job that went through [Generate] say. *)
Definition counters (m : ArchiveManifest) (j j' : Job) (es : list archive_entry) : Prop :=
  (man_Files m = [] ∧ j' = j) ∨
  (job_ProcessedFiles j' = wrap64 (Z.of_nat (length (man_Files m))) ∧
   job_ProcessedBytes j' = Z.of_nat (bytes_of es)).

Lemma generateArchive_spec ctx j m w e j' w' :
  plain_id (job_ID j) → is_Some (w_jobs w !! job_ID j) →
  run (generateArchive cfg ctx j m) w = ((e, j'), w') →
  job_frame (job_ID j) w w' ∧ progressed j j' ∧
  match e with
  | None => ∃ es, published (job_ID j) m es w' ∧ counters m j j' es
  | Some _ => unpublished (job_ID j) w w'
  end.
Proof.
  intros Hid Hs. unfold generateArchive. rewrite run_bind.
  destruct (run (storage_Create _ _) w) as [[err|ino] w1] eqn:Hc.
  { apply storage_Create_error in Hc as [Hf Hfs]. cbn. intros. simplify_eq.
    split_and!; [by apply job_frame_same|done|]. left. by rewrite Hfs. }
  apply storage_Create_ok in Hc as (Hf1 & Ht1 & _ & Hq1). rewrite run_bind.
  assert (job_frame (job_ID j) w w1) as F1 by (by apply job_frame_same).
  assert (final (job_ID j) ≠ temp (job_ID j)) as Hne.
  { intros E. symmetry in E. revert E. by apply temp_final_ne. }
  pose proof (safe_post_run (job_frame (job_ID j) w) _ _ w1 (Generate_safe (job_frame (job_ID j) w)
    (job_frame_ignores_fs _ _) (progressed j) (Some onProgress)
    (ac_MaxSizeBytes cfg) ctx ino m j ltac:(intros g a b j0 [= <-] Hp; by apply onProgress_safe) eq_refl) F1) as [F2 Hp].
  destruct (run (Generate _ _ _ _ _ _) w1) as [[genErr j2] w2] eqn:Hg. cbn [fst snd] in F2, Hp.
  apply (Generate_spec _ Hmax _ _ _ _ _ _ _ _ _ _ onProgress_ok) in Hg as ((Hn2 & _ & _) & _ & Hok).
  pose proof (progressed_ID j j2 Hp) as Hj2. rewrite run_bind. unfold observe. rewrite run_atomic.
  assert (job_frame (job_ID j) w (tick w2)) as F3 by (by eapply job_frame_ignores_fs).
  assert (unpublished (job_ID j) w (tick w2)) as U3.
  { left. cbn. rewrite Hn2. by apply Hq1. }
  rewrite Hj2. destruct genErr as [err|].
  { intros Hr. destruct (delete_after_failure (job_ID j) err j2 w (tick w2) F3 U3) as (H1 & H2 & H3).
    rewrite Hr in H1, H2, H3. cbn in *. by simplify_eq. }
  destruct (env_fault (w_tick w2)) as [msg|].
  { intros Hr. destruct (delete_after_failure (job_ID j) (Errorf_w (lit "close temp archive: ")
      (OsError false msg) []) j2 w (tick w2) F3 U3) as (H1 & H2 & H3).
    rewrite Hr in H1, H2, H3. cbn in *. by simplify_eq. }
  rewrite run_bind. destruct (run (storage_RenameTemp _ _) (tick w2)) as [[err|] w4] eqn:Hren.
  { apply storage_RenameTemp_error in Hren as [Hf4 Hfs4]. intros Hr.
    destruct (delete_after_failure (job_ID j) (Errorf_w (lit "finalize archive: ") err []) j2 w w4)
      as (H1 & H2 & H3); [by eapply job_frame_ignores_fs|unfold unpublished; by rewrite Hfs4|].
    rewrite Hr in H1, H2, H3. cbn in *. by simplify_eq. }
  apply storage_RenameTemp_ok in Hren as (Hf4 & Hd4 & d & Hd & Hn4). cbn. intros. simplify_eq.
  split_and!; [by eapply job_frame_ignores_fs|done|].
  destruct (Hok eq_refl) as (es & Hes & Hcont & Hrep). exists es. split; [split_and!|].
  - exists ino. rewrite Hn4, lookup_insert_eq, Hd4. cbn in Hd |- *. rewrite Hn2, Ht1 in Hd. by simplify_eq.
  - rewrite Hn4, lookup_insert_ne by done. apply lookup_delete_eq.
  - done.
  - destruct Hrep as [(? & ? & _)|[? ?]]; [by left|by right].
Qed.

(** ** Outcomes *)

(** The messages a client may see on a failed job. *)
Definition safe_messages : list str :=
  [lit "failed to read archive manifest from database"; lit "archive exceeds maximum allowed size";
   lit "failed to generate archive"; lit "failed to issue download token"].

(** The job failed: one of the fixed messages, no token issued, and no
    archive offered (unless the token was what failed). *)
Definition failed_outcome (j : Job) (w w' : World) : Prop :=
  job_Status j = JobStatusFailed ∧ job_ErrorMessage j ∈ safe_messages ∧ w_tokens w' = w_tokens w ∧
  (job_ErrorMessage j = lit "failed to issue download token" ∨ unpublished (job_ID j) w w').

(** The job completed: its archive is the manifest of what the repository
    returned for [j0], and its token opens it until [Expiry] after issue. *)
Definition completed_outcome (j0 j : Job) (w w' : World) : Prop :=
  job_Status j = JobStatusCompleted ∧
  (job_ArchiveName j = job_ArchiveName j0 ∧ job_ExportType j = job_ExportType j0) ∧
  job_ArchivePath j = job_ID j ++ lit "." ++ Extension (job_ExportType j0) ∧
  (∃ t raw, job_CompletedAt j = Some (env_now t) ∧ job_ExpiresAt j = (env_now t + ac_Expiry cfg)%Z ∧
     env_rand (S t) = inr raw ∧ job_DownloadToken j = EncodeToString raw ∧
     w_tokens w' = <[job_DownloadToken j := mkEntry (job_ID j) (env_now (S t) + ac_Expiry cfg)%Z]> (w_tokens w)) ∧
  ∃ folders files es w1 w2, (run (GetFolderTree (job_RootFolderID j0)) w1).1 = inr folders ∧
    (run (GetFilesForFolderTree (job_RootFolderID j0)) w2).1 = inr files ∧
    let m := assemble_manifest j0 folders files in
    published (job_ID j) m es w' ∧ job_TotalFiles j = man_TotalFiles m ∧
    job_TotalBytes j = man_TotalBytes m ∧ (man_TotalBytes m <= ac_MaxSizeBytes cfg)%Z ∧
    (files ≠ [] → job_ProcessedFiles j = wrap64 (Z.of_nat (length files)) ∧
                  job_ProcessedBytes j = Z.of_nat (bytes_of es)).

Lemma job_frame_tick id w w' : job_frame id w w' → job_frame id w (tick w').
Proof. intros H. by eapply job_frame_ignores_fs. Qed.

(** The record of [id] after an update. *)
Lemma job_frame_store j id w0 w : job_ID j = id → job_frame id w0 w →
  run (jobs_Update j) w = (None, set_jobs (<[id := j]> (w_jobs w)) w) ∧
  job_frame id w0 (set_jobs (<[id := j]> (w_jobs w)) w).
Proof.
  intros <- Hf. pose proof Hf as (Hs & _). split; [by apply run_jobs_Update|].
  eapply job_frame_trans; [exact Hf|]. apply job_frame_update.
Qed.

Lemma failJob_run j id msg c w0 w : job_ID j = id → job_frame id w0 w → msg ∈ safe_messages →
  (msg = lit "failed to issue download token" ∨ unpublished id w0 w) →
  let w' := (run (failJob j msg c) w).2 in
  job_frame id w0 w' ∧ ∃ j', w_jobs w' !! id = Some j' ∧ job_ID j' = id ∧ failed_outcome j' w0 w'.
Proof.
  intros <- Hf Hm Hu. cbn zeta. unfold failJob. rewrite run_bind, run_Now. cbv zeta.
  set (j' := set_UpdatedAt _ _). rewrite run_bind.
  destruct (job_frame_store j' (job_ID j) w0 (tick w)) as [Hr Hf']; [done|by apply job_frame_tick|].
  rewrite Hr. cbn [run snd]. split; [done|]. exists j'. cbn [w_jobs set_jobs].
  rewrite lookup_insert_eq. split_and!; [done|done|]. unfold failed_outcome.
  destruct Hf as (_ & _ & Ht & _). split_and!; try done.
Qed.

Lemma completeJob_run j0 j1 j id folders files es w0 w1 w2 w :
  let m := assemble_manifest j0 folders files in
  job_ID j0 = id → progressed j1 j → job_frame id w0 w →
  j1 = set_UpdatedAt (job_UpdatedAt j1) (set_TotalBytes (man_TotalBytes m) (set_TotalFiles (man_TotalFiles m)
         (set_UpdatedAt (job_StartedAt j1) (set_Status JobStatusProcessing (set_StartedAt (job_StartedAt j1) j0))))) →
  (run (GetFolderTree (job_RootFolderID j0)) w1).1 = inr folders →
  (run (GetFilesForFolderTree (job_RootFolderID j0)) w2).1 = inr files →
  (man_TotalBytes m <= ac_MaxSizeBytes cfg)%Z →
  published id m es w → counters m j1 j es →
  let w' := (run (completeJob cfg j) w).2 in
  (∀ i, i ≠ id → w_jobs w' !! i = w_jobs w0 !! i) ∧ w_queue w' = w_queue w0 ∧
  w_accepting w' = w_accepting w0 ∧
  ∃ j', w_jobs w' !! id = Some j' ∧ job_ID j' = id ∧
        (completed_outcome j0 j' w0 w' ∨ failed_outcome j' w0 w').
Proof.
  intros m Hid Hp Hf Hj1 Hfo Hfi Hsz Hpub Hcnt. cbn zeta. unfold completeJob. rewrite run_bind, run_Now.
  pose proof (progressed_ID _ _ Hp) as HidJ. rewrite Hj1 in HidJ. cbn in HidJ. rewrite Hid in HidJ.
  assert (core j = core j1) as Hcore by exact Hp.
  rewrite run_bind. unfold tokens_Issue, with_tokens. rewrite run_atomic. unfold token_Issue.
  destruct (env_rand (w_tick (tick w))) as [err|raw] eqn:Hrand.
  - pose proof Hf as (Hsome & Hoth & Htok & Hq & Ha).
    assert (job_frame id w0 (set_tokens (w_tokens (tick w)) (tick (tick w)))) as Hf2 by done.
    destruct (failJob_run j id (lit "failed to issue download token") (Errorf_w (lit "generate token: ") err [])
      w0 _ HidJ Hf2) as ((_ & ? & _ & ? & ?) & j' & ? & ? & ?); [|by left|].
    { unfold safe_messages. rewrite !elem_of_cons. auto. }
    split_and!; try done. exists j'. auto.
  - set (tok := EncodeToString raw). rewrite run_bind. set (w3 := set_tokens _ _).
    set (j' := completed_job cfg tok (env_now (w_tick w)) j).
    pose proof Hf as (Hsome & Hoth & Htok & Hq & Ha).
    rewrite (run_jobs_Update j' w3); [|by change (is_Some (w_jobs w !! job_ID j)); rewrite HidJ].
    change (job_ID j') with (job_ID j). rewrite HidJ. cbn [run snd]. split_and!; try done.
    { intros i Hi. cbn. rewrite lookup_insert_ne by done. by apply Hoth. }
    exists j'. cbn. rewrite lookup_insert_eq. split_and!; [done|done|]. left.
    assert (job_ArchiveName j = job_ArchiveName j0 ∧ job_ExportType j = job_ExportType j0 ∧
            job_TotalFiles j = man_TotalFiles m ∧ job_TotalBytes j = man_TotalBytes m) as (Hn & He & HTf & HTb).
    { change (job_ArchiveName (core j) = job_ArchiveName j0 ∧ job_ExportType (core j) = job_ExportType j0 ∧
        job_TotalFiles (core j) = man_TotalFiles m ∧ job_TotalBytes (core j) = man_TotalBytes m).
      rewrite Hcore, Hj1. done. }
    unfold completed_outcome. split_and!.
    + done.
    + done.
    + done.
    + cbn. by rewrite He.
    + exists (w_tick w), raw. cbn. rewrite HidJ, Htok. done.
    + exists folders, files, es, w1, w2. cbn zeta. change (job_ID j') with (job_ID j). rewrite HidJ.
      split_and!; try done. intros Hne. destruct Hcnt as [[Hnil _]|[? ?]].
      * unfold m, assemble_manifest in Hnil. cbn in Hnil. by apply fmap_nil_inv in Hnil.
      * cbn. rewrite <- (length_fmap (λ f, set_file_path (rebaseArchivePath (file_ArchivePath f)
          (archiveRootDir (job_ArchiveName j0))) f) files). done.
Qed.

Lemma buildManifest_run j w :
  ∃ r w', run (buildManifest j) w = (r, w') ∧ same_state w w' ∧
  (∀ m, r = inr m → ∃ folders files w1 w2,
     (run (GetFolderTree (job_RootFolderID j)) w1).1 = inr folders ∧
     (run (GetFilesForFolderTree (job_RootFolderID j)) w2).1 = inr files ∧
     m = assemble_manifest j folders files).
Proof.
  unfold buildManifest, wrapped. rewrite run_try, run_bind.
  destruct (run_observer (GetFolderTree (job_RootFolderID j)) w) as (a & w1 & H1 & S1);
    [apply GetFolderTree_observer|]. rewrite H1. cbn [run].
  destruct a as [e|folders]; [by eexists _, _|]. rewrite run_try, run_bind.
  destruct (run_observer (GetFilesForFolderTree (job_RootFolderID j)) w1) as (b & w2 & H2 & S2);
    [apply GetFilesForFolderTree_observer|]. rewrite H2. cbn [run].
  assert (same_state w w2) as Hs by (by etransitivity).
  destruct b as [e|files]; [by eexists _, _|]. eexists _, _. split; [done|]. split; [done|].
  intros m [= <-]. exists folders, files, w, w1. rewrite H1, H2. done.
Qed.

(** The first half of [ProcessJob]: the job is marked processing and the
    manifest is read. *)
Definition started_job (t : time) (j0 : Job) : Job :=
  set_UpdatedAt t (set_Status JobStatusProcessing (set_StartedAt t j0)).

Lemma ProcessJob_start ctx id j0 w :
  w_jobs w !! id = Some j0 → job_ID j0 = id →
  ∃ t w2 r w3, run (buildManifest (started_job t j0)) w2 = (r, w3) ∧
  job_frame id w w3 ∧ w_fs w3 = w_fs w ∧
  run (ProcessJob cfg ctx id) w =
    run (match r with
         | inl err => failJob (started_job t j0) (lit "failed to read archive manifest from database") err
         | inr m => process_manifest cfg ctx (started_job t j0) m
         end) w3.
Proof.
  intros Hj0 Hid. unfold ProcessJob. rewrite run_bind. unfold jobs_Get, with_jobs.
  rewrite run_atomic. unfold store_Get. rewrite Hj0. rewrite run_bind, run_Now. cbv zeta.
  set (w1 := tick (set_jobs (w_jobs w) w)). set (t := env_now _). fold (started_job t j0).
  assert (job_frame id w w1) as F1 by (by apply job_frame_same; [eauto|]).
  destruct (job_frame_store (started_job t j0) id w w1 Hid F1) as [Hr2 F2]. rewrite run_bind, Hr2.
  set (w2 := set_jobs (<[id := started_job t j0]> (w_jobs w1)) w1) in *. rewrite run_bind.
  destruct (buildManifest_run (started_job t j0) w2) as (r & w3 & Hb & S3 & Hm). rewrite Hb.
  exists t, w2, r, w3. split_and!; [done| |by destruct S3 as (_ & _ & -> & _)|done].
  eapply job_frame_ignores_fs, same_state_but_fs; done.
Qed.

(** What every outcome leaves alone, and that there is one. *)
Definition processed (id : str) (j0 : Job) (w w' : World) : Prop :=
  (∀ i, i ≠ id → w_jobs w' !! i = w_jobs w !! i) ∧ w_queue w' = w_queue w ∧
  w_accepting w' = w_accepting w ∧
  ∃ j', w_jobs w' !! id = Some j' ∧ job_ID j' = id ∧
        (completed_outcome j0 j' w w' ∨ failed_outcome j' w w').

Lemma processed_failed id j0 j msg c w0 w : job_ID j = id → job_frame id w0 w → msg ∈ safe_messages →
  unpublished id w0 w → processed id j0 w0 (run (failJob j msg c) w).2.
Proof.
  intros Hid Hf Hm Hu. destruct (failJob_run j id msg c w0 w Hid Hf Hm (or_intror Hu))
    as ((_ & ? & _ & ? & ?) & j' & ? & ? & ?). unfold processed. split_and!; try done. exists j'. auto.
Qed.

(** The second half, on a record marked processing. *)
Lemma process_manifest_run ctx id j0 t folders files wa wb w w3 :
  let m := assemble_manifest j0 folders files in
  job_ID j0 = id → plain_id id → job_frame id w w3 → w_fs w3 = w_fs w →
  (run (GetFolderTree (job_RootFolderID j0)) wa).1 = inr folders →
  (run (GetFilesForFolderTree (job_RootFolderID j0)) wb).1 = inr files →
  processed id j0 w (run (process_manifest cfg ctx (started_job t j0) m) w3).2.
Proof.
  intros m Hid Hpl F3 E3 Hfo Hfi. unfold process_manifest. rewrite run_bind, run_Now. cbv zeta.
  set (j2 := set_UpdatedAt _ (set_TotalBytes _ _)).
  destruct (job_frame_store j2 id w (tick w3) Hid (job_frame_tick _ _ _ F3)) as [Hr4 F4].
  rewrite run_bind, Hr4. set (w4 := set_jobs (<[id := j2]> (w_jobs (tick w3))) (tick w3)) in *.
  assert (unpublished id w w4) as U4 by (left; cbn; by rewrite E3).
  destruct (Z.ltb_spec (ac_MaxSizeBytes cfg) (man_TotalBytes m)) as [Hbig|Hfit].
  { apply processed_failed; [done|done|unfold safe_messages; set_solver|done]. }
  rewrite run_bind. destruct (run (generateArchive cfg ctx j2 m) w4) as [[e j3] w5] eqn:Hg.
  apply generateArchive_spec in Hg as (F5 & Hp & Hres); [|by change (plain_id (job_ID j0)); rewrite Hid|].
  2:{ change (job_ID j2) with (job_ID j0). rewrite Hid. by destruct F4. }
  change (job_ID j2) with (job_ID j0) in *. rewrite Hid in *.
  assert (job_frame id w w5) as F by (by eapply job_frame_trans).
  assert (job_ID j3 = id) as Hid3 by (by rewrite (progressed_ID _ _ Hp)).
  destruct e as [err|].
  { apply processed_failed; [done|done|unfold safe_messages; set_solver|].
    destruct Hres as [Hr|Hr]; [left|by right]. rewrite Hr. cbn. by rewrite E3. }
  destruct Hres as (es & Hpub & Hcnt).
  by apply (completeJob_run j0 j2 j3 id folders files es w wa wb w5).
Qed.

Lemma ProcessJob_run ctx id j0 w :
  w_jobs w !! id = Some j0 → job_ID j0 = id → plain_id id →
  processed id j0 w (run (ProcessJob cfg ctx id) w).2.
Proof.
  intros Hj0 Hid Hpl. destruct (ProcessJob_start ctx id j0 w Hj0 Hid) as (t & w2 & r & w3 & Hb & F3 & E3 & ->).
  destruct (buildManifest_run (started_job t j0) w2) as (r' & w3' & Hb' & _ & Hm). rewrite Hb in Hb'.
  injection Hb' as <- <-. destruct r as [err|m].
  { apply processed_failed; [done|done|unfold safe_messages; set_solver|left; by rewrite E3]. }
  destruct (Hm m eq_refl) as (folders & files & wa & wb & Hfo & Hfi & ->).
  exact (process_manifest_run ctx id j0 t folders files wa wb w w3 Hid Hpl F3 E3 Hfo Hfi).
Qed.

(** ** Jobs that complete *)

(** Nothing outside fails, and the two names of [id] are not directories. *)
Definition healthy (id : str) (w : World) : Prop :=
  (∀ t, env_fault t = None) ∧ (∀ t, env_short_write t = None) ∧ (∀ t, ∃ raw, env_rand t = inr raw) ∧
  fs_names (w_fs w) !! temp id ≠ Some DDir ∧ fs_names (w_fs w) !! final id ≠ Some DDir.

Lemma storage_Create_total id w : (∀ t, env_fault t = None) → fs_names (w_fs w) !! temp id ≠ Some DDir →
  ∃ i w1, run (storage_Create (ac_TempDir cfg) id) w = (inr i, w1).
Proof.
  intros Hf Hd. unfold storage_Create. rewrite run_bind. unfold syscall. rewrite run_atomic.
  unfold sys_create. rewrite Hf. destruct (fs_names (w_fs w) !! temp id) as [[i|]|]; [|done|]; cbn; eauto.
Qed.

Lemma storage_RenameTemp_total id i w : (∀ t, env_fault t = None) →
  fs_names (w_fs w) !! temp id = Some (DFile i) → fs_names (w_fs w) !! final id ≠ Some DDir →
  ∃ w1, run (storage_RenameTemp (ac_TempDir cfg) id) w = (None, w1).
Proof.
  intros Hf Ht Hd. unfold storage_RenameTemp. rewrite run_bind. unfold syscall. rewrite run_atomic.
  unfold sys_rename. rewrite Hf, Ht. destruct (fs_names (w_fs w) !! final id) as [[?|]|]; [|done|]; cbn; eauto.
Qed.

Lemma generateArchive_total j m w :
  plain_id (job_ID j) → healthy (job_ID j) w →
  Forall deliverable (man_Files m) → Forall nameable (man_EmptyFolders m) →
  (recorded_bytes (man_Files m) <= ac_MaxSizeBytes cfg)%Z →
  is_Some (w_jobs w !! job_ID j) →
  ∃ j' w', run (generateArchive cfg Background j m) w = ((None, j'), w').
Proof.
  intros Hid (Hf & Hsw & _ & Ht & Hfi) Hfiles Hdirs Hsz Hs. unfold generateArchive. rewrite run_bind.
  destruct (storage_Create_total (job_ID j) w Hf Ht) as (i & w1 & Hc). rewrite Hc.
  apply storage_Create_ok in Hc as (Hsf & Ht1 & _ & Hq1). rewrite run_bind.
  pose proof (Generate_succeeds (ac_MaxSizeBytes cfg) i m (Some onProgress) j w1 Hf Hsw Hmax Hfiles Hdirs Hsz) as Hg.
  pose proof (safe_post_run (job_frame (job_ID j) w) _ _ w1 (Generate_safe (job_frame (job_ID j) w)
    (job_frame_ignores_fs _ _) (progressed j) (Some onProgress)
    (ac_MaxSizeBytes cfg) Background i m j ltac:(intros g a b j0 [= <-] Hp; by apply onProgress_safe) eq_refl) (job_frame_same _ _ _ Hs Hsf)) as [_ Hp].
  destruct (run (Generate _ _ _ _ _ _) w1) as [[e j2] w2] eqn:Hr. cbn in Hg, Hp. subst e.
  apply (Generate_spec _ Hmax _ _ _ _ _ _ _ _ _ _ onProgress_ok) in Hr as ((Hn2 & _ & _) & _ & _).
  rewrite run_bind. unfold observe. rewrite run_atomic, Hf, (progressed_ID _ _ Hp), run_bind.
  destruct (storage_RenameTemp_total (job_ID j) i (tick w2)) as [w3 ->]; [done|..].
  - cbn. by rewrite Hn2.
  - cbn. rewrite Hn2, Hq1; [done|]. intros E. symmetry in E. revert E. by apply temp_final_ne.
  - by eexists _, _.
Qed.

Lemma process_manifest_total id j0 t m w w3 :
  job_ID j0 = id → plain_id id → healthy id w → job_frame id w w3 → w_fs w3 = w_fs w →
  Forall deliverable (man_Files m) → Forall nameable (man_EmptyFolders m) →
  man_TotalBytes m = recorded_bytes (man_Files m) →
  (recorded_bytes (man_Files m) <= ac_MaxSizeBytes cfg)%Z →
  ∃ j, w_jobs (run (process_manifest cfg Background (started_job t j0) m) w3).2 !! id = Some j ∧
       job_Status j = JobStatusCompleted.
Proof.
  intros Hid Hpl Hh F3 E3 Hfiles Hdirs Htot Hsz. unfold process_manifest.
  rewrite run_bind, run_Now. cbv zeta. set (j2 := set_UpdatedAt _ (set_TotalBytes _ _)).
  destruct (job_frame_store j2 id w (tick w3) Hid (job_frame_tick _ _ _ F3)) as [Hr4 F4].
  rewrite run_bind, Hr4. set (w4 := set_jobs (<[id := j2]> (w_jobs (tick w3))) (tick w3)) in *.
  destruct (Z.ltb_spec (ac_MaxSizeBytes cfg) (man_TotalBytes m)) as [?|Hfit]; [lia|].
  assert (job_ID j2 = id) as Hid2 by done. destruct F4 as [Hsome _]. rewrite <- Hid2 in Hpl, Hsome.
  assert (healthy (job_ID j2) w4) as Hh4.
  { rewrite Hid2. destruct Hh as (? & ? & ? & ? & ?). unfold healthy. cbn. by rewrite E3. }
  rewrite run_bind.
  destruct (generateArchive_total j2 m w4 Hpl Hh4 Hfiles Hdirs Hsz Hsome) as (j3 & w5 & Hg).
  rewrite Hg. apply generateArchive_spec in Hg as ((Hs5 & _) & Hp & _); [|done|done].
  rewrite <- (progressed_ID _ _ Hp) in Hs5. unfold completeJob.
  rewrite run_bind, run_Now, run_bind. unfold tokens_Issue, with_tokens. rewrite run_atomic.
  destruct Hh as (_ & _ & Hrand & _). destruct (Hrand (w_tick (tick w5))) as [raw Hraw].
  unfold token_Issue. rewrite Hraw, run_bind, run_jobs_Update by exact Hs5.
  eexists. split; [cbn; rewrite (progressed_ID _ _ Hp), Hid2; apply lookup_insert_eq|done].
Qed.

(** Jobs complete when nothing fails: if the database answers both
    queries, the storage servers deliver every file whole and as recorded,
    the paths can name entries, the recorded sizes together are within the
    limit and the kernel and the random source do not fail, [ProcessJob]
    ends with the job completed. *)
Lemma ProcessJob_finishes id j0 folders files w :
  w_jobs w !! id = Some j0 → job_ID j0 = id → plain_id id → healthy id w →
  (∀ w1, (run (GetFolderTree (job_RootFolderID j0)) w1).1 = inr folders) →
  (∀ w1, (run (GetFilesForFolderTree (job_RootFolderID j0)) w1).1 = inr files) →
  let m := assemble_manifest j0 folders files in
  Forall deliverable (man_Files m) → Forall nameable (man_EmptyFolders m) →
  (recorded_bytes (man_Files m) <= ac_MaxSizeBytes cfg)%Z →
  ∃ j, w_jobs (run (ProcessJob cfg Background id) w).2 !! id = Some j ∧ job_Status j = JobStatusCompleted.
Proof.
  intros Hj0 Hid Hpl Hh Hfo Hfi m Hfiles Hdirs Hsz.
  destruct (ProcessJob_start Background id j0 w Hj0 Hid) as (t & w2 & r & w3 & Hb & F3 & E3 & ->).
  assert (r = inr m) as ->.
  { unfold buildManifest, wrapped in Hb. rewrite run_try, run_bind in Hb. specialize (Hfo w2).
    change (job_RootFolderID (started_job t j0)) with (job_RootFolderID j0) in Hb.
    destruct (run (GetFolderTree _) w2) as [? w2']. cbn in Hfo, Hb. subst. rewrite run_try, run_bind in Hb.
    specialize (Hfi w2'). destruct (run (GetFilesForFolderTree _) w2'). cbn in Hfi, Hb. subst.
    cbn in Hb. by simplify_eq. }
  apply (process_manifest_total id j0 t m w w3); try done.
  pose proof (recorded_bytes_nonneg _ Hfiles) as Hnn.
  change (total_bytes (man_Files m) = recorded_bytes (man_Files m)). rewrite total_bytes_wrap.
  change (foldr _ _ _) with (recorded_bytes (man_Files m)). apply wrap64_id.
  unfold in_int64, min_int64, max_int64 in *. lia.
Qed.

End process.

(** C1: processing a job ends it, whatever the database answers, the storage
    servers deliver, the disk and the random source do, as long as every query
    and every body comes to an end (the client sets no limit on the time a body
    takes) and the size limit is not the largest [int64] (for which see
    [Generator.writeFile_limit_wraps]): the record is completed or failed,
    never left processing.  Completed means the final file is a finished
    container of exactly the manifest built from the repository's answers, no
    temporary file remains, the recorded totals and counters agree with it, and
    one token for this job was issued.  Failed means one of four fixed
    messages, no token, and nothing new under the final name unless only the
    token could not be issued.  Other jobs, the queue and the accepting flag
    are untouched. *)
Theorem ProcessJob_outcome {UT : UnicodeTables} {ENV : Env} {REPO : ArchiveRepository} {FF : FileFetcher}
    (cfg : ArchiveConfig) ctx id j0 w :
  ac_TempDir cfg ≠ [] → (0 <= ac_MaxSizeBytes cfg < max_int64)%Z →
  w_jobs w !! id = Some j0 → job_ID j0 = id → plain_id id →
  processed cfg id j0 w (run (ProcessJob cfg ctx id) w).2.
Proof. intros Hdir Hmax. by apply ProcessJob_run. Qed.

(** ** A concrete run *)

Definition service_env : Env := quiet_env sample_db sample_http.
Definition service_repo : ArchiveRepository := @pgArchiveRepository sample_tables service_env c_collation 2.
Definition service_fetcher : FileFetcher := @StorageFetcher (@httpStorageClient_Get sample_tables service_env sample_servers).
Definition any_uuid : UuidLib := {| uuid_t := str; uuid_Parse := inr; uuid_String := λ s, s |}.
Definition service_cfg : ArchiveConfig := mkArchiveConfig (lit "d") 10 100 1 1 10 1.
Definition service_req : ArchiveRequest := mkRequest (lit "r") (lit " Out.zip ") (lit "tar").

Abbreviation sample_CreateJob :=
  (@CreateJob sample_tables any_uuid service_env service_repo service_cfg service_req).
Abbreviation sample_ProcessJob :=
  (@ProcessJob sample_tables service_env service_repo service_fetcher service_cfg Background).

(** The state after the request was accepted, and its job. *)
Definition queued_world : World := (run sample_CreateJob (initial_world empty_fs)).2.
Definition queued_job : Job :=
  new_job (lit "job-2") (lit "r") (lit "Out.zip") (lit "tar") 1001.

Lemma CreateJob_accepted_witness :
  run sample_CreateJob (initial_world empty_fs) = (inr queued_job, queued_world) ∧
  job_created queued_job (initial_world empty_fs) queued_world.
Proof.
  assert (run sample_CreateJob (initial_world empty_fs) = (inr queued_job, queued_world)) as H
    by (by vm_compute).
  split; [exact H|].
  apply (@CreateJob_accepted sample_tables any_uuid service_env service_repo service_cfg
    service_req (initial_world empty_fs) queued_job queued_world H).
Defined.

(** The queue of one is now full: the next request is rolled back. *)
Lemma CreateJob_refused_witness :
  (run sample_CreateJob queued_world).1 = inl (Sentinel ErrQueueFull) ∧
  same_state queued_world (run sample_CreateJob queued_world).2.
Proof.
  split; [by vm_compute|].
  apply (@CreateJob_refused sample_tables any_uuid service_env service_repo service_cfg
    service_req queued_world (Sentinel ErrQueueFull)). by vm_compute.
Defined.

Lemma CreateJob_admits_witness :
  ∃ w', run sample_CreateJob (initial_world empty_fs) = (inr queued_job, w').
Proof.
  apply (@CreateJob_admits sample_tables any_uuid service_env service_repo service_cfg
    service_req (lit "r") (lit "Out.zip") (lit "tar") (initial_world empty_fs)
    (tick (initial_world empty_fs))); by vm_compute.
Defined.

Lemma service_cfg_dir : ac_TempDir service_cfg ≠ [].
Proof. done. Qed.
Lemma service_cfg_max : (0 <= ac_MaxSizeBytes service_cfg < max_int64)%Z.
Proof. by vm_compute. Qed.
Lemma plain_job_2 : plain_id (lit "job-2").
Proof. apply (bool_decide_unpack _). by vm_compute. Qed.

Lemma ProcessJob_outcome_witness :
  @processed sample_tables service_env service_repo service_fetcher service_cfg (lit "job-2") queued_job
    queued_world (run (sample_ProcessJob (lit "job-2")) queued_world).2.
Proof.
  apply (@ProcessJob_outcome sample_tables service_env service_repo service_fetcher service_cfg);
    [exact service_cfg_dir|exact service_cfg_max|by vm_compute|done|exact plain_job_2].
Defined.

(** The sample server delivers two bytes for any file it hosts. *)
Lemma sample_deliverable f path :
  @sanitizeArchivePath sample_tables (file_ArchivePath f) = inr path →
  (Z.of_nat (length path) <=? 65535)%Z = true → file_HostedAt f = lit "https://s1" →
  file_FileSize f = 2%Z → @deliverable sample_tables service_fetcher f.
Proof.
  intros Hp Hl Hh Hs. split; [exists path; split; [done|by apply Z.leb_le]|]. intros w.
  exists (mkHttpResponse 200 (lit "hi") None). rewrite Hs. split_and!; [|done|done].
  cbn [Fetch service_fetcher StorageFetcher]. unfold StorageFetcher_Fetch. rewrite Hh. by vm_compute.
Qed.

(** What the repository answers for the sample folder, and its manifest. *)
Definition sample_folders : list ArchiveFolder :=
  default [] (folderTreeQuery (COL := c_collation) sample_db (lit "r")).
Definition sample_files : list ArchiveFile :=
  default [] (filesForFolderTreePageQuery (COL := c_collation) sample_db (lit "r") None 10).
Definition sample_manifest : ArchiveManifest :=
  @assemble_manifest sample_tables queued_job sample_folders sample_files.

Lemma sample_manifest_ok :
  Forall (@deliverable sample_tables service_fetcher) (man_Files sample_manifest) ∧
  Forall (@nameable sample_tables) (man_EmptyFolders sample_manifest) ∧
  (recorded_bytes (man_Files sample_manifest) <= ac_MaxSizeBytes service_cfg)%Z.
Proof.
  split_and!.
  - assert (man_Files sample_manifest = [mkFile (lit "1") (lit "b.txt") (lit "Out/b.txt") 2 (lit "https://s1") (lit "/1v2") 2 (lit "h");
      mkFile (lit "2") (lit "a.txt") (lit "Out/sub/a.txt") 1 (lit "https://s1") (lit "/2v1") 2 (lit "h")]) as -> by (by vm_compute).
    apply Forall_cons_2; [|apply Forall_cons_2; [|apply Forall_nil_2]].
    + by apply (sample_deliverable _ (lit "Out/b.txt")); vm_compute.
    + by apply (sample_deliverable _ (lit "Out/sub/a.txt")); vm_compute.
  - assert (man_EmptyFolders sample_manifest = []) as -> by (by vm_compute). constructor.
  - by vm_compute.
Qed.

Lemma ProcessJob_finishes_witness :
  ∃ j, w_jobs (run (sample_ProcessJob (lit "job-2")) queued_world).2 !! lit "job-2" = Some j ∧
       job_Status j = JobStatusCompleted.
Proof.
  apply (@ProcessJob_finishes sample_tables service_env service_repo service_fetcher service_cfg
    service_cfg_dir service_cfg_max (lit "job-2") queued_job sample_folders sample_files).
  - by vm_compute.
  - done.
  - exact plain_job_2.
  - split_and!; [done|done|by eexists|by vm_compute|by vm_compute].
  - intros w. by vm_compute.
  - intros w. by vm_compute.
  - apply sample_manifest_ok.
  - apply sample_manifest_ok.
  - apply sample_manifest_ok.
Defined.

(** ** The same run over HTTP *)

Definition sample_secret : str := lit "s3cret".
Definition create_request : request :=
  mkHttp (lit "POST") [lit "internal"; lit "archives"] sample_secret [] [] [] unconditional
    (mkBody (Marshal (request_fields service_req)) None).

Abbreviation sample_serve :=
  (@serve sample_tables any_uuid service_env service_repo service_cfg [] sample_secret 0).

Lemma only_authorized_changes_witness :
  ¬ same_state (initial_world empty_fs) (run (sample_serve create_request) (initial_world empty_fs)).2 ∧
  rq_api_token create_request = sample_secret.
Proof.
  assert (¬ same_state (initial_world empty_fs) (run (sample_serve create_request) (initial_world empty_fs)).2)
    as H by (intros (_ & _ & _ & Hq & _); by vm_compute in Hq).
  split; [exact H|].
  apply (@only_authorized_changes sample_tables any_uuid service_env service_repo service_cfg [] sample_secret
    0 create_request (initial_world empty_fs) H).
Defined.

(** The job processed, and the download with its token. *)
Definition done_world : World := (run (sample_ProcessJob (lit "job-2")) queued_world).2.
Definition done_token : str := default [] (job_DownloadToken <$> w_jobs done_world !! lit "job-2").

Definition download_request (tok : str) : request :=
  mkHttp (lit "GET") [lit "archives"; lit "job-2"; lit "download"] [] (lit "token=" ++ tok) [] [] unconditional
    (mkBody [] None).

Abbreviation sample_Download :=
  (@Download sample_tables service_env (NewDownloadHandler service_cfg) (download_request done_token) (lit "job-2")).

Lemma Download_authorized_witness :
  re_status (run sample_Download done_world).1 = StatusOK ∧
  ∃ e, w_tokens done_world !! done_token = Some e ∧ ent_jobID e = lit "job-2".
Proof.
  split; [by vm_compute|].
  destruct (@Download_authorized sample_tables service_env (NewDownloadHandler service_cfg)
    (download_request done_token) (lit "job-2") done_world)
    as (j & f & w' & (_ & _ & _ & e & He & Hid & _) & _).
  - intros [msg Hm]. by vm_compute in Hm.
  - exists e. replace done_token with (Query_Get (rq_query (download_request done_token)) (lit "token")) at 1
      by (by vm_compute). split; [exact He|exact Hid].
Defined.

Definition resume_request (tok : str) : request :=
  mkHttp (lit "GET") [lit "archives"; lit "job-2"; lit "download"] [] (lit "token=" ++ tok) [] []
    (mkConditions (range_header 4 None) (lit "0") [] [] [] []) (mkBody [] None).


Lemma Create_responses_witness :
  let resp := (run (@Create sample_tables any_uuid service_env service_repo (NewArchiveHandler service_cfg 100 []) create_request)
                 queued_world).1 in
  resp = writeError StatusServiceUnavailable (lit "archive service is busy, try again shortly") ∧
  (re_status resp, lit "archive service is busy, try again shortly") ∈ create_messages.
Proof.
  cbn zeta. set (resp := (run _ _).1). assert (resp = writeError StatusServiceUnavailable
    (lit "archive service is busy, try again shortly")) as E by (by vm_compute).
  split; [exact E|].
  destruct (@Create_responses sample_tables any_uuid service_env service_repo (NewArchiveHandler service_cfg 100 []) create_request
    queued_world) as [(j & Hj)|(status & msg & Hr & Hin)].
  - intros id w1 e. by vm_compute.
  - exfalso. fold resp in Hj. rewrite E in Hj. discriminate Hj.
  - fold resp in Hr. rewrite E in Hr |- *. injection Hr as <- <-. exact Hin.
Defined.
