(* ===== verification/Cleanup.v ===== *)
(** * The cleanup sweep (internal/worker/cleanup.go)

    [isExpired], [removeJob] and [sweep]; the order in which [jobs.List]
    delivers the jobs is Go's map order, so it is a parameter. *)

From S2P Require Import Prelude GoString GoPath GoError Model Config Prog JobStore Token FS Sql World.
From S2P Require Import Storage Writer Repository Client Generator Service.

(** [Cleanup].  The job store and the token service are those of [World], and
    [cu_files] is the directory of the [LocalArchiveStorage]. *)
Record Cleanup := mkCleanup {
  cu_files : str;
  cu_interval : duration;
  cu_ttlFallback : duration
}.

Definition NewCleanup (files : str) (interval ttlFallback : duration) : Cleanup :=
  mkCleanup files interval ttlFallback.

Section cleanup.
Context {UT : UnicodeTables} {ENV : Env}.
Context (c : Cleanup).
Abbreviation dir := (cu_files c).
Abbreviation ttlFallback := (cu_ttlFallback c).

Definition isExpired (j : Job) (now : time) : bool :=
  let deadline := job_ExpiresAt j in
  let deadline := if IsZero deadline then (job_CreatedAt j + ttlFallback)%Z else deadline in
  (deadline <? now)%Z.

(** Failures are logged, not returned. *)
Definition removeJob (jobID : str) : prog World unit :=
  _ ← storage_Delete dir jobID;
  _ ← tokens_Revoke jobID;
  _ ← jobs_Delete jobID;
  Ret tt.

(** The loop over the jobs: removes the expired, returns the others' IDs. *)
Fixpoint sweep_jobs (jobs : list Job) (now : time) (tracked : gset str) : prog World (gset str) :=
  match jobs with
  | [] => Ret tracked
  | j :: jobs' =>
      if isExpired j now then _ ← removeJob (job_ID j); sweep_jobs jobs' now tracked
      else sweep_jobs jobs' now ({[job_ID j]} ∪ tracked)
  end.

(** The loop over the files on disk. *)
Fixpoint sweep_files (ids : list str) (tracked : gset str) : prog World unit :=
  match ids with
  | [] => Ret tt
  | id :: ids' =>
      if bool_decide (id ∈ tracked) then sweep_files ids' tracked
      else _ ← storage_Delete dir id; sweep_files ids' tracked
  end.

(** A sweep once it has listed the jobs and read the clock. *)
Definition sweep_listed (jobs : list Job) (now : time) : prog World unit :=
  tracked ← sweep_jobs jobs now ∅;
  r ← storage_ListJobIDs dir;
  match r with
  | inl _ => Ret tt
  | inr ids => sweep_files ids tracked
  end.

Definition sweep (order : list Job → list Job) : prog World unit :=
  jobs ← jobs_List;
  now ← Now;
  sweep_listed (order jobs) now.

(** ** What a sweep removes *)

(** The job has not passed its deadline: [ExpiresAt] once it is set, and
    [CreatedAt] plus the fallback lifetime until then. *)
Definition live (j : Job) (now : time) : Prop :=
  if decide (job_ExpiresAt j = 0%Z) then (now <= job_CreatedAt j + ttlFallback)%Z
  else (now <= job_ExpiresAt j)%Z.

Lemma isExpired_false j now : isExpired j now = false ↔ live j now.
Proof.
  unfold isExpired, live, IsZero. destruct (Z.eqb_spec (job_ExpiresAt j) 0), (decide _); try lia.
Qed.

Lemma isExpired_true j now : isExpired j now = true ↔ ¬ live j now.
Proof. rewrite <- isExpired_false. by destruct (isExpired j now). Qed.

Context (Hdir : dir ≠ []).

(** [w'] is [w] after a sweep step that concerns only jobs in [R]: records
    and tokens of the others stay, and so do the files of every plain ID
    outside [R]. *)
Definition removes (R : str → Prop) (w w' : World) : Prop :=
  (∀ id, ¬ R id → w_jobs w' !! id = w_jobs w !! id) ∧
  (∀ id j, w_jobs w' !! id = Some j → w_jobs w !! id = Some j) ∧
  (∀ tok e, w_tokens w !! tok = Some e → ¬ R (ent_jobID e) → w_tokens w' !! tok = Some e) ∧
  (∀ tok e, w_tokens w' !! tok = Some e → w_tokens w !! tok = Some e) ∧
  (∀ id, plain_id id → ¬ R id →
     fs_names (w_fs w') !! tempPath dir id = fs_names (w_fs w) !! tempPath dir id ∧
     fs_names (w_fs w') !! finalPath dir id = fs_names (w_fs w) !! finalPath dir id) ∧
  (∀ q, fs_names (w_fs w') !! q = fs_names (w_fs w) !! q ∨ fs_names (w_fs w') !! q = None) ∧
  fs_data (w_fs w') = fs_data (w_fs w) ∧
  w_queue w' = w_queue w ∧ w_accepting w' = w_accepting w.

Lemma removes_refl R w : removes R w w.
Proof. unfold removes. split_and!; auto. Qed.

Lemma removes_trans R w1 w2 w3 : removes R w1 w2 → removes R w2 w3 → removes R w1 w3.
Proof.
  intros (A1&A2&A3&A4&A5&A6&A7&A8&A9) (B1&B2&B3&B4&B5&B6&B7&B8&B9). unfold removes. split_and!.
  - intros id Hr. rewrite B1, A1; done.
  - eauto.
  - eauto.
  - eauto.
  - intros id Hp Hr. destruct (B5 id Hp Hr) as [-> ->]. auto.
  - intros q. destruct (B6 q) as [->|?]; auto.
  - congruence.
  - congruence.
  - congruence.
Qed.

Lemma removes_mono (R R' : str → Prop) w w' : (∀ id, R id → R' id) → removes R w w' → removes R' w w'.
Proof. intros HR (?&?&?&?&?&?&?&?&?). unfold removes. split_and!; try done; intros; eauto. Qed.

Lemma removes_same R w w' : same_state w w' → removes R w w'.
Proof.
  intros (E1 & E2 & E3 & E4 & E5 & E6). unfold removes. rewrite E1, E2, E3, E4, E5. split_and!; auto.
Qed.

(** [Delete] concerns one job. *)
Lemma Delete_removes id w :
  plain_id id → removes (λ x, x = id) w (run (storage_Delete dir id) w).2.
Proof using Hdir.
  intros Hid. unfold storage_Delete. pose proof (remove_all_spec [tempPath dir id; finalPath dir id] w) as H.
  destruct (run _ w) as [r w']. destruct H as ((E1 & E2 & E3 & E4 & E5) & (Hd & _ & Hr) & _). cbn.
  assert (∀ q, q ≠ tempPath dir id → q ≠ finalPath dir id → fs_names (w_fs w') !! q = fs_names (w_fs w) !! q) as Hq.
  { intros q H1 H2. destruct (Hr q) as [?|[Hin _]]; [done|]. set_solver. }
  unfold removes. rewrite E1, E2, E3, E4. split_and!; auto.
  - intros x Hx Hne. split; apply Hq.
    + intros E. by apply tempPath_inj in E.
    + by apply temp_final_ne.
    + intros E. symmetry in E. revert E. by apply temp_final_ne.
    + intros E. by apply finalPath_inj in E.
  - intros q. destruct (Hr q) as [?|[_ ?]]; auto.
Qed.

Lemma removeJob_run id w :
  plain_id id → let w' := (run (removeJob id) w).2 in
  removes (λ x, x = id) w w' ∧ w_jobs w' !! id = None ∧
  (∀ tok e, w_tokens w' !! tok = Some e → ent_jobID e ≠ id) ∧
  ((∀ t, env_fault t = None) →
     fs_names (w_fs w') !! tempPath dir id = None ∧ fs_names (w_fs w') !! finalPath dir id = None).
Proof using Hdir.
  intros Hid w'. subst w'. unfold removeJob. rewrite run_bind.
  pose proof (Delete_removes id w Hid) as Hd.
  pose proof (remove_all_spec [tempPath dir id; finalPath dir id] w) as Hall.
  unfold storage_Delete in *. destruct (run (remove_all _) w) as [r w1]. cbn in Hd.
  destruct Hall as (_ & _ & Hgone & Hnf). rewrite run_bind. unfold tokens_Revoke, with_tokens.
  rewrite run_atomic, run_bind. unfold jobs_Delete, with_jobs. rewrite run_atomic. cbn. split_and!.
  - eapply removes_trans; [exact Hd|]. unfold removes. cbn. split_and!; try by auto.
    + intros x Hx. by rewrite lookup_delete_ne.
    + intros x j. rewrite lookup_delete. by case_decide.
    + intros tok e He Hne. by rewrite token_Revoke_lookup, He, bool_decide_false.
    + intros tok e. rewrite token_Revoke_lookup. repeat case_match; naive_solver.
  - apply lookup_delete_eq.
  - intros tok e. rewrite token_Revoke_lookup. repeat case_match; try done. breflect. naive_solver.
  - intros Hf. split; apply Hgone; auto; set_solver.
Qed.

(** Nothing is left of job [id]. *)
Definition gone (id : str) (w : World) : Prop :=
  w_jobs w !! id = None ∧ (∀ tok e, w_tokens w !! tok = Some e → ent_jobID e ≠ id) ∧
  ((∀ t, env_fault t = None) →
     fs_names (w_fs w) !! tempPath dir id = None ∧ fs_names (w_fs w) !! finalPath dir id = None).

Lemma gone_removes R id w w' : gone id w → removes R w w' → gone id w'.
Proof.
  intros (Hj & Ht & Hf) (_ & A2 & _ & A4 & _ & A6 & _). split_and!.
  - destruct (w_jobs w' !! id) eqn:E; [|done]. apply A2 in E. congruence.
  - eauto.
  - intros Hnf. destruct (Hf Hnf) as [H1 H2].
    destruct (A6 (tempPath dir id)) as [->| ->], (A6 (finalPath dir id)) as [->| ->]; auto.
Qed.

Lemma sweep_jobs_run jobs now : Forall (λ j, plain_id (job_ID j)) jobs → ∀ tracked w,
  let '(tracked', w') := run (sweep_jobs jobs now tracked) w in
  removes (λ x, ∃ j, j ∈ jobs ∧ job_ID j = x ∧ isExpired j now = true) w w' ∧
  (∀ x, x ∈ tracked' ↔ x ∈ tracked ∨ ∃ j, j ∈ jobs ∧ job_ID j = x ∧ isExpired j now = false) ∧
  (∀ j, j ∈ jobs → isExpired j now = true → gone (job_ID j) w').
Proof using Hdir.
  induction 1 as [|j jobs Hj _ IH]; intros tracked w; cbn [sweep_jobs run].
  { split_and!; [apply removes_refl|set_solver|set_solver]. }
  destruct (isExpired j now) eqn:Hx.
  - rewrite run_bind. destruct (removeJob_run (job_ID j) w Hj) as (Hr & H1 & H2 & H3).
    destruct (run (removeJob _) w) as [u w1]. cbn [snd] in *.
    specialize (IH tracked w1). destruct (run (sweep_jobs _ _ _) w1) as [tracked' w'].
    destruct IH as (Hr2 & Ht & Hg). split_and!.
    + eapply removes_trans.
      * eapply removes_mono; [|exact Hr]. cbn. intros x ->. exists j. split; [left|done].
      * eapply removes_mono; [|exact Hr2]. cbn. intros x (j' & ? & ?). exists j'. split; [by right|done].
    + intros x. rewrite Ht. setoid_rewrite elem_of_cons. split; [naive_solver|].
      intros [?|(j' & [->|?] & ? & ?)]; [by left|congruence|right; eauto].
    + intros j' [->|Hin]%elem_of_cons Hx'; [|by apply Hg]. by eapply gone_removes.
  - specialize (IH ({[job_ID j]} ∪ tracked) w). destruct (run (sweep_jobs _ _ _) w) as [tracked' w'].
    destruct IH as (Hr2 & Ht & Hg). split_and!.
    + eapply removes_mono; [|exact Hr2]. cbn. intros x (j' & ? & ?). exists j'. split; [by right|done].
    + intros x. rewrite Ht, elem_of_union, elem_of_singleton. setoid_rewrite elem_of_cons. split.
      * intros [[->|?]|(j' & ? & ? & ?)]; [right; exists j; auto|by left|right; eauto 6].
      * intros [?|(j' & [->|?] & <- & ?)]; [auto|auto|right; eauto].
    + intros j' [->|Hin]%elem_of_cons Hx'; [congruence|by apply Hg].
Qed.

Lemma sweep_files_run ids tracked : Forall plain_id ids → ∀ w,
  let w' := (run (sweep_files ids tracked) w).2 in
  removes (λ x, x ∈ ids ∧ x ∉ tracked) w w' ∧ w_jobs w' = w_jobs w ∧ w_tokens w' = w_tokens w ∧
  ((∀ t, env_fault t = None) → ∀ id, id ∈ ids → id ∉ tracked →
     fs_names (w_fs w') !! tempPath dir id = None ∧ fs_names (w_fs w') !! finalPath dir id = None).
Proof using Hdir.
  induction 1 as [|id ids Hid _ IH]; intros w; cbn [sweep_files run].
  { split_and!; [apply removes_refl|done|done|]. intros _ id ?%not_elem_of_nil. done. }
  case_bool_decide as Hin.
  - specialize (IH w). cbn zeta in IH. destruct IH as (Hr & Ej & Et & Hg). split_and!; [|done|done|].
    + eapply removes_mono; [|exact Hr]. cbn. intros x [? ?]. split; [by right|done].
    + intros Hf x [->|Hx]%elem_of_cons Hn; [done|by apply Hg].
  - rewrite run_bind. pose proof (Delete_removes id w Hid) as Hd.
    pose proof (remove_all_spec [tempPath dir id; finalPath dir id] w) as Hall.
    unfold storage_Delete in *. destruct (run (remove_all _) w) as [r w1]. cbn in Hd.
    destruct Hall as ((E1 & E2 & _) & _ & Hgone & Hnf). specialize (IH w1). cbn zeta in IH.
    destruct IH as (Hr & Ej & Et & Hg). split_and!; [|congruence|congruence|].
    + eapply removes_trans.
      * eapply removes_mono; [|exact Hd]. cbn. intros x ->. split; [left|done].
      * eapply removes_mono; [|exact Hr]. cbn. intros x [? ?]. split; [by right|done].
    + intros Hf x [->|Hx]%elem_of_cons Hn; [|by apply Hg].
      destruct Hr as (_ & _ & _ & _ & _ & A6 & _).
      assert (∀ q, q ∈ [tempPath dir id; finalPath dir id] →
        fs_names (w_fs (run (sweep_files ids tracked) w1).2) !! q = None) as Hq.
      { intros q Hq. destruct (A6 q) as [->| ->]; [|done]. apply Hgone; auto. }
      split; apply Hq; set_solver.
Qed.

Lemma ListJobIDs_run w :
  let '(r, w') := run (storage_ListJobIDs dir) w in
  same_state w w' ∧
  (∀ ids, r = inr ids → Forall plain_id ids) ∧
  ((∀ t, env_fault t = None) → ∃ ids, r = inr ids ∧ ∀ id, plain_id id →
     (∃ i, fs_names (w_fs w) !! tempPath dir id = Some (DFile i) ∨
           fs_names (w_fs w) !! finalPath dir id = Some (DFile i)) → id ∈ ids).
Proof using Hdir.
  destruct (env_fault (w_tick w)) eqn:Hf.
  - unfold storage_ListJobIDs. rewrite run_bind. unfold syscall. rewrite run_atomic.
    unfold sys_readdir. rewrite Hf. cbn. split_and!; [done|done|]. intros Hn. congruence.
  - destruct (storage_ListJobIDs_ids dir Hdir w Hf) as (ids & -> & _ & Hin). split_and!; [done|..].
    + intros ids' [= <-]. apply Forall_forall. intros id [? _]%Hin. done.
    + intros _. exists ids. split; [done|]. intros id Hid Hi. apply Hin. auto.
Qed.

(** [id] is a job that is still alive at [now]. *)
Definition alive (jobs : gmap str Job) (now : time) (id : str) : Prop :=
  ∃ j, jobs !! id = Some j ∧ live j now.

Definition plain_jobs (jobs : gmap str Job) : Prop := ∀ id j, jobs !! id = Some j → plain_id id.

(** An archive file of [id] is on disk. *)
Definition has_file (w : World) (id : str) : Prop :=
  ∃ i, fs_names (w_fs w) !! tempPath dir id = Some (DFile i) ∨
       fs_names (w_fs w) !! finalPath dir id = Some (DFile i).

Lemma has_file_removes R w w' id : removes R w w' → has_file w' id → has_file w id.
Proof.
  intros (_ & _ & _ & _ & _ & A6 & _) [i Hi]. exists i.
  destruct (A6 (tempPath dir id)), (A6 (finalPath dir id)); destruct Hi; intuition congruence.
Qed.

Lemma sweep_run order w :
  (∀ l, order l ≡ₚ l) → keyed (w_jobs w) → plain_jobs (w_jobs w) →
  let now := env_now (w_tick w) in let w' := (run (sweep order) w).2 in
  removes (λ id, ¬ alive (w_jobs w) now id) w w' ∧
  (∀ id j, w_jobs w !! id = Some j → isExpired j now = true → gone id w') ∧
  ((∀ t, env_fault t = None) → ∀ id, plain_id id → has_file w' id → alive (w_jobs w) now id).
Proof using Hdir.
  intros Hord Hk Hp. cbn zeta. set (now := env_now (w_tick w)).
  assert (∀ j, j ∈ order (store_List (w_jobs w)) ↔ w_jobs w !! job_ID j = Some j) as Hin.
  { intros j. rewrite Hord. by apply elem_of_store_List. }
  unfold sweep. rewrite run_bind. unfold jobs_List, with_jobs. rewrite run_atomic, run_bind.
  unfold Now, observe. rewrite run_atomic. cbn [w_tick set_jobs]. fold now.
  set (w1 := tick (set_jobs (w_jobs w) w)). assert (same_state w w1) as S1 by done.
  unfold sweep_listed. rewrite run_bind. pose proof (sweep_jobs_run (order (store_List (w_jobs w))) now) as Hs.
  specialize (Hs ltac:(apply Forall_forall; intros j Hj%Hin; eauto) ∅ w1).
  destruct (run (sweep_jobs _ _ _) w1) as [tracked w2]. destruct Hs as (R2 & Ht & Hg).
  assert (∀ id, id ∈ tracked ↔ alive (w_jobs w) now id) as Halive.
  { intros id. rewrite Ht. setoid_rewrite Hin. split.
    - intros [?|(j & ? & <- & ?%isExpired_false)]; [set_solver|]. by exists j.
    - intros (j & Hj & Hx%isExpired_false). right. exists j. by rewrite (Hk _ _ Hj). }
  assert (removes (λ id, ¬ alive (w_jobs w) now id) w w2) as R2'.
  { eapply removes_trans; [by apply removes_same|]. eapply removes_mono; [|exact R2]. cbn.
    intros id (j & Hj%Hin & <- & Hx) (j' & Hj' & Hx'%isExpired_false). congruence. }
  assert (∀ id j, w_jobs w !! id = Some j → isExpired j now = true → gone id w2) as Hg'.
  { intros id j Hj Hx. rewrite <- (Hk _ _ Hj). apply Hg; [|done]. apply Hin. by rewrite (Hk _ _ Hj). }
  rewrite run_bind. pose proof (ListJobIDs_run w2) as Hl.
  destruct (run (storage_ListJobIDs dir) w2) as [r w3]. destruct Hl as (S3 & Hplain & Hlist).
  assert (removes (λ id, ¬ alive (w_jobs w) now id) w w3) as R3
    by (eapply removes_trans; [exact R2'|by apply removes_same]).
  assert (∀ id j, w_jobs w !! id = Some j → isExpired j now = true → gone id w3) as Hg3
    by (intros id j ? ?; eapply gone_removes; [by eapply Hg'|by apply (removes_same (λ _, True))]).
  destruct r as [e|ids].
  { cbn. split_and!; [done|done|]. intros Hf. destruct (Hlist Hf) as (? & [=] & _). }
  destruct (sweep_files_run ids tracked (Hplain ids eq_refl) w3) as (R4 & _ & _ & Hfiles).
  assert (removes (λ id, ¬ alive (w_jobs w) now id) w3 (run (sweep_files ids tracked) w3).2) as R4'
    by (eapply removes_mono; [|exact R4]; cbn; intros id [_ Hn] ?%Halive; done).
  split_and!; [by eapply removes_trans|intros id j ? ?; eapply gone_removes; [by eapply Hg3|exact R4']|].
  intros Hf id Hid Hfile. apply Halive. destruct (decide (id ∈ tracked)) as [|Hn]; [done|]. exfalso.
  destruct (Hlist Hf) as (? & [= <-] & Hall).
  assert (id ∈ ids) as Hidin.
  { apply Hall; [done|]. destruct S3 as (_ & _ & E3 & _). apply (has_file_removes _ _ _ _ R4') in Hfile.
    unfold has_file in Hfile. by rewrite E3 in Hfile. }
  destruct (Hfiles Hf id Hidin Hn) as [H1 H2], Hfile as [i [Hi|Hi]]; congruence.
Qed.

(** The record, the tokens and the files of [id] are left alone. *)
Definition spares (id : str) (w w' : World) : Prop :=
  w_jobs w' !! id = w_jobs w !! id ∧
  (∀ tok e, w_tokens w !! tok = Some e → ent_jobID e = id → w_tokens w' !! tok = Some e) ∧
  fs_names (w_fs w') !! tempPath dir id = fs_names (w_fs w) !! tempPath dir id ∧
  fs_names (w_fs w') !! finalPath dir id = fs_names (w_fs w) !! finalPath dir id.

Abbreviation sparing id p := (guar (λ _, True) (spares id) (λ _, True) p).

Lemma storage_Delete_spares id x : plain_id id → plain_id x → x ≠ id → sparing id (storage_Delete dir x).
Proof using Hdir.
  intros Hid Hx Hne. unfold storage_Delete.
  assert (tempPath dir id ∉ [tempPath dir x; finalPath dir x]) as Ht.
  { intros [E|E%list_elem_of_singleton]%elem_of_cons; [by apply tempPath_inj in E|by apply temp_final_ne in E]. }
  assert (finalPath dir id ∉ [tempPath dir x; finalPath dir x]) as Hf.
  { intros [E|E%list_elem_of_singleton]%elem_of_cons; [symmetry in E; by apply temp_final_ne in E|by apply finalPath_inj in E]. }
  revert Ht Hf. generalize [tempPath dir x; finalPath dir x]. intros ps Ht Hf.
  induction ps as [|q ps IH]; [done|]. rewrite not_elem_of_cons in Ht, Hf. cbn [remove_all].
  apply (guar_bind _ _ (λ _, True)).
  - apply guar_atomic. intros w _. destruct (sys_remove q _ _) as [r s'] eqn:E.
    apply sys_remove_spec in E as ((_ & _ & Hq) & _). cbn. split_and!; [done|split_and!; [done|done|..]|done].
    + destruct (Hq (tempPath dir id)) as [?|[?%list_elem_of_singleton _]]; [done|]. tauto.
    + destruct (Hq (finalPath dir id)) as [?|[?%list_elem_of_singleton _]]; [done|]. tauto.
  - intros [e|] _; [destruct (negb _); [done|]|]; apply IH; tauto.
Qed.

Lemma removeJob_spares id x : plain_id id → plain_id x → x ≠ id → sparing id (removeJob x).
Proof using Hdir.
  intros Hid Hx Hne. apply guar_then; [by apply storage_Delete_spares|].
  apply guar_then; [|apply guar_then; [|done]]; apply guar_atomic; intros w _;
    (split_and!; [done|split_and!; try done|done]); cbn.
  - intros tok e He <-. by rewrite token_Revoke_lookup, He, bool_decide_false.
  - by rewrite lookup_delete_ne.
Qed.

(** Whatever happens between its actions, a sweep spares every job that was
    live in its list. *)
Lemma sweep_listed_spares jobs now id j :
  Forall (λ j, plain_id (job_ID j)) jobs → (∀ j', j' ∈ jobs → job_ID j' = id → j' = j) →
  j ∈ jobs → job_ID j = id → live j now → sparing id (sweep_listed jobs now).
Proof using Hdir.
  intros Hp Hu Hj Hid Hl%isExpired_false.
  assert (plain_id id) as Hpl by (eapply Forall_forall in Hp; [|exact Hj]; by rewrite Hid in Hp).
  apply (guar_bind _ _ (λ tracked, id ∈ tracked)).
  - assert (∀ tracked, id ∈ tracked ∨ j ∈ jobs → guar (λ _, True) (spares id) (λ tr, id ∈ tr) (sweep_jobs jobs now tracked)) as H;
      [|apply H; by right].
    clear Hj. induction Hp as [|j' jobs Hp' _ IH]; intros tracked Hin; cbn [sweep_jobs]; [set_solver|].
    assert (∀ x, x ∈ jobs → job_ID x = id → x = j) as Hu' by (intros; apply Hu; [by right|done]).
    destruct (isExpired j' now) eqn:E.
    + assert (j' ≠ j) as Hjj by (intros ->; congruence). apply guar_then; [|apply IH; [done|set_solver]].
      apply removeJob_spares; [done|done|]. intros Hx. apply Hjj, Hu; [by left|done].
    + apply IH; [done|]. set_solver.
  - intros tracked Ht. apply (guar_bind _ _ (λ r, ∀ ids, r = inr ids → Forall plain_id ids)).
    + apply (guar_bind _ _ (λ r, match r with inl _ => True | inr l => ∀ n, (n, false) ∈ l → slash ∉ n end)).
      * apply guar_atomic. intros w _. unfold sys_readdir. destruct (env_fault (w_tick w)); cbn; (split_and!; [done|done|]); [done|].
        intros n. rewrite merge_sort_Permutation. intros (q & d & _ & -> & _)%elem_of_entries_of. apply base_name_noslash.
      * intros [e|l] Hsl ids [= <-]. apply Forall_forall. intros x Hx. by eapply listed_plain.
    + intros [e|ids] Hids; [done|]. specialize (Hids ids eq_refl). clear -Hids Ht Hpl Hdir.
      induction Hids as [|x ids Hx _ IH]; [done|]. cbn [sweep_files]. case_bool_decide as Hb; [done|].
      apply guar_then; [|done]. apply storage_Delete_spares; [done|done|]. by intros ->.
Qed.

(** C12: a sweep does not harm the live jobs it knows.  Undisturbed, and even
    when system calls fail, it leaves every job that is not past its deadline
    its record, all its tokens and its archive files, and the queue and all
    file contents untouched.  And whatever other goroutines do between its
    actions: no action a sweep takes after it listed the jobs and read the
    clock touches the record, a token or a file of a job that was in that list
    and live at that time. *)
Theorem sweep_keeps_live order w :
  (∀ l, order l ≡ₚ l) → keyed (w_jobs w) → plain_jobs (w_jobs w) →
  let w' := (run (sweep order) w).2 in
  (∀ id, alive (w_jobs w) (env_now (w_tick w)) id → spares id w w') ∧
  fs_data (w_fs w') = fs_data (w_fs w) ∧ w_queue w' = w_queue w ∧
  ∀ now id, alive (w_jobs w) now id →
    guar (λ _, True) (spares id) (λ _, True) (sweep_listed (order (store_List (w_jobs w))) now).
Proof using Hdir.
  intros Hord Hk Hp w'. destruct (sweep_run order w Hord Hk Hp) as (HR & _ & _). fold w' in HR.
  destruct HR as (A1&A2&A3&A4&A5&A6&A7&A8&A9). split_and!; [|done|done|].
  - intros id Ha. destruct (A5 id) as [? ?]; [by destruct Ha as (j & ? & _); eauto|tauto|]. split_and!; [|..|done|done].
    + apply A1. tauto.
    + intros tok e He <-. apply A3; [done|tauto].
  - assert (∀ j, j ∈ order (store_List (w_jobs w)) ↔ w_jobs w !! job_ID j = Some j) as Hin.
    { intros j. rewrite Hord. by apply elem_of_store_List. }
    intros now id (j & Hj & Hl). pose proof (Hk _ _ Hj) as Hid. apply (sweep_listed_spares _ _ _ j); try done.
    + apply Forall_forall. intros x Hx%Hin. eauto.
    + intros x Hx%Hin Hxi. congruence.
    + apply Hin. by rewrite Hid.
Qed.

(** C19: a sweep reclaims everything else: each job past its deadline loses
    its record and all its tokens, and, when no system call fails, its files;
    and every archive or temporary file then on disk belongs to a live job,
    so files left behind by a crash or an earlier process are gone. *)
Theorem sweep_reclaims order w :
  (∀ l, order l ≡ₚ l) → keyed (w_jobs w) → plain_jobs (w_jobs w) →
  let now := env_now (w_tick w) in let w' := (run (sweep order) w).2 in
  (∀ id j, w_jobs w' !! id = Some j ↔ w_jobs w !! id = Some j ∧ live j now) ∧
  (∀ id j, w_jobs w !! id = Some j → ¬ live j now → gone id w') ∧
  ((∀ t, env_fault t = None) → ∀ id, plain_id id → has_file w' id → alive (w_jobs w) now id).
Proof using Hdir.
  intros Hord Hk Hp now w'. destruct (sweep_run order w Hord Hk Hp) as (HR & Hg & Hf).
  fold now w' in HR, Hg, Hf. split_and!; [|intros id j Hj Hn; by eapply Hg, isExpired_true|done].
  destruct HR as (A1&A2&_). intros id j. split.
  - intros Hj. pose proof (A2 _ _ Hj) as Hj0. split; [done|]. apply isExpired_false.
    destruct (isExpired j now) eqn:Hx; [|done]. destruct (Hg id j Hj0 Hx) as [Hnone _]. congruence.
  - intros [Hj Hl]. rewrite A1; [done|]. intros Hn. apply Hn. by exists j.
Qed.
End cleanup.

(** ** A concrete sweep *)

(** At time 1000: "a" expired, "b" is live, and the file of "x" is an orphan. *)
Definition sweep_env : Env := quiet_env empty_db no_http.
Definition sweeper : Cleanup := NewCleanup (lit "d") 1 10.
Definition live_job : Job := set_ExpiresAt 5000 (sample_job (lit "b") (lit "Out.zip") ExportTypeZip).
Definition sweep_world : World :=
  set_jobs {[ lit "a" := sample_job (lit "a") (lit "Out.zip") ExportTypeZip; lit "b" := live_job ]}
    (initial_world (mkFs {[ lit "d/b.zip" := DFile 0; lit "d/x.zip.tmp" := DFile 1 ]}
      {[ 0 := empty_image; 1 := empty_image ]} 2)).

Lemma sweep_world_keyed : keyed (w_jobs sweep_world).
Proof.
  assert (map_Forall (λ id j, job_ID j = id) (w_jobs sweep_world)) as H
    by (apply (bool_decide_unpack _); by vm_compute). exact H.
Qed.

Lemma sweep_world_plain : plain_jobs (w_jobs sweep_world).
Proof.
  assert (map_Forall (λ id _, slash ∉ id) (w_jobs sweep_world)) as H
    by (apply (bool_decide_unpack _); by vm_compute). exact H.
Qed.

Lemma sweep_keeps_live_witness :
  w_jobs (run (@sweep sample_tables sweep_env sweeper id) sweep_world).2 !! lit "b" = Some live_job ∧
  fs_names (w_fs (run (@sweep sample_tables sweep_env sweeper id) sweep_world).2) !! lit "d/b.zip"
    = Some (DFile 0).
Proof.
  destruct (@sweep_keeps_live sample_tables sweep_env sweeper ltac:(done) id sweep_world
    ltac:(done) sweep_world_keyed sweep_world_plain) as [H _].
  destruct (H (lit "b")) as (H1 & _ & _ & H2); [exists live_job; by vm_compute|].
  rewrite H1. split; [by vm_compute|]. rewrite (eq_refl : lit "d/b.zip" = finalPath (cu_files sweeper) (lit "b")).
  rewrite H2. by vm_compute.
Defined.

Lemma sweep_reclaims_witness :
  let w' := (run (@sweep sample_tables sweep_env sweeper id) sweep_world).2 in
  gone (ENV := sweep_env) sweeper (lit "a") w' ∧ ¬ has_file sweeper w' (lit "x").
Proof.
  cbn zeta. destruct (@sweep_reclaims sample_tables sweep_env sweeper ltac:(done) id sweep_world
    ltac:(done) sweep_world_keyed sweep_world_plain) as (_ & Hg & Hf).
  split.
  - apply (Hg (lit "a") (sample_job (lit "a") (lit "Out.zip") ExportTypeZip)); [by vm_compute|].
    intros H. by vm_compute in H.
  - intros Hx. destruct (Hf ltac:(done) (lit "x")) as (j & Hj & _); [|exact Hx|by vm_compute in Hj].
    apply (bool_decide_unpack _). by vm_compute.
Defined.
