(* ===== verification/Interference.v ===== *)
(** * Processing a job while others run

    What [ProcessJob] (internal/service/archive.go) does to the shared state
    when requests, sweeps and other workers act between any two of its own
    actions: a rule for the invariants it keeps, and the obligation it takes
    on when it marks a job as processing. *)

From S2P Require Import Prelude GoString GoPath GoError Model Config Sanitize Validate Manifest Prog.
From S2P Require Import JobStore Token FS Sql World Storage Writer Repository Client Generator Service Process.

(** ** Invariants *)

Section keeps.
Context {UT : UnicodeTables} {ENV : Env} {REPO : ArchiveRepository} {FF : FileFetcher}.
Context (cfg : ArchiveConfig) (id : str).

(** The job [id] is processed.  [Inv] does not look at the disk, and the
    guarantee [G] allows the disk to change; [Good] holds of the record a
    worker reads and is kept by everything it does to its copy; storing a good
    record and issuing a token keep [Inv]. *)
Record processing_rule (Inv : World → Prop) (G : World → World → Prop) (Good : Job → Prop)
    (Tok : str → Prop) : Prop := {
  pr_fs : ignores_fs Inv;
  pr_guar w w' : same_but_fs w w' → G w w';
  pr_get : guar Inv G (λ r, match r with inl _ => True | inr j => Good j end) (jobs_Get id);
  pr_update j : Good j → job_Status j ≠ JobStatusQueued → guar Inv G (λ _, True) (jobs_Update j);
  pr_issue i : guar Inv G (λ r, match r with inl _ => True | inr tok => Tok tok end)
                 (tokens_Issue i (ac_Expiry cfg));
  pr_started t j : Good j → Good (started_job t j);
  pr_totals t m j : Good j → job_Status j = JobStatusProcessing → (0 <= man_TotalFiles m)%Z →
    in_int64 (man_TotalBytes m) →
    Good (set_UpdatedAt t (set_TotalBytes (man_TotalBytes m) (set_TotalFiles (man_TotalFiles m) j)));
  pr_progress t a b j : Good j → job_Status j = JobStatusProcessing → in_int64 a → in_int64 b →
    Good (set_UpdatedAt t (set_ProcessedBytes b (set_ProcessedFiles a j)));
  pr_failed t msg j : Good j → msg ∈ safe_messages →
    Good (set_UpdatedAt t (set_ErrorMessage msg (set_Status JobStatusFailed j)));
  pr_completed tok now j : Good j → Tok tok → Good (completed_job cfg tok now j)
}.

Context {Inv : World → Prop} {G : World → World → Prop} {Good : Job → Prop} {Tok : str → Prop}.
Context (HR : processing_rule Inv G Good Tok).

Lemma observer_bind_keeps {A B} (p : prog World A) (k : A → prog World B) Q :
  observer p → (∀ a, guar Inv G Q (k a)) → guar Inv G Q (p ≫= k).
Proof using HR. intros Hp Hk. eapply guar_bind; [apply observer_guar; [apply HR|apply HR|done]|]. auto. Qed.

Lemma Now_keeps {B} (k : time → prog World B) Q :
  (∀ t, guar Inv G Q (k t)) → guar Inv G Q (Now ≫= k).
Proof using HR. apply observer_bind_keeps, observer_observe. Qed.

Lemma failJob_keeps j msg c : Good j → msg ∈ safe_messages → guar Inv G (λ _, True) (failJob j msg c).
Proof using HR.
  intros Hj Hm. apply Now_keeps. intros now. eapply guar_bind; [|done]. by apply HR; [apply HR|].
Qed.

(** A record in a worker's hands. *)
Definition in_hand (j : Job) : Prop := Good j ∧ job_Status j = JobStatusProcessing.

Lemma update_in_hand j : in_hand j → guar Inv G (λ _, True) (jobs_Update j).
Proof using HR. intros [Hj Hs]. apply HR; [done|]. by rewrite Hs. Qed.

Lemma onProgress_keeps a b j : in_int64 a → in_int64 b → in_hand j → guar Inv G in_hand (onProgress a b j).
Proof using HR.
  intros Ha Hb [Hj Hs]. apply Now_keeps. intros now. cbn zeta.
  assert (in_hand (set_UpdatedAt now (set_ProcessedBytes b (set_ProcessedFiles a j)))) as Hj'
    by (split; [by apply HR|done]).
  eapply guar_bind; [by apply update_in_hand|]. intros _ _. exact Hj'.
Qed.

Lemma storage_Delete_keeps dir i : guar Inv G (λ _, True) (storage_Delete dir i).
Proof using HR.
  unfold storage_Delete. induction [tempPath dir i; finalPath dir i] as [|p ps IH]; [done|].
  cbn [remove_all]. eapply guar_bind; [apply syscall_guar; apply HR|]. intros [e|] _; [|done].
  by destruct (negb _).
Qed.

Lemma generateArchive_keeps ctx j m : in_hand j →
  guar Inv G (λ r, in_hand r.2) (generateArchive cfg ctx j m).
Proof using HR.
  intros Hj. eapply (guar_bind _ _ (λ _, True)).
  { eapply guar_bind; [apply syscall_guar; apply HR|]. done. }
  intros [e|ino] _; [done|].
  eapply (guar_bind _ _ (λ r, in_hand r.2)).
  { apply Generate_guar; [apply HR|apply HR| |done]. intros g a b j' [= <-]. apply onProgress_keeps. }
  intros [genErr j'] Hj'. cbn in Hj'. apply observer_bind_keeps; [apply observer_observe|]. intros closeErr.
  assert (∀ e : option error, guar Inv G (λ r : option error * Job, in_hand r.2)
    (_ ← storage_Delete (ac_TempDir cfg) (job_ID j'); Ret (e, j'))) as Hdel
    by (intros e; eapply guar_bind; [apply storage_Delete_keeps|done]).
  destruct genErr, closeErr; try apply Hdel.
  eapply (guar_bind _ _ (λ _, True)).
  { eapply guar_bind; [apply syscall_guar; apply HR|]. done. }
  intros [e|] _; [apply Hdel|done].
Qed.

Lemma completeJob_keeps j : Good j → guar Inv G (λ _, True) (completeJob cfg j).
Proof using HR.
  intros Hj. apply Now_keeps. intros now. eapply guar_bind; [apply HR|]. intros [e|tok] Htok.
  - apply failJob_keeps; [done|]. unfold safe_messages. set_solver.
  - eapply guar_bind; [by apply HR; [apply HR|]|done].
Qed.

Lemma buildManifest_observer j : observer (buildManifest j).
Proof.
  apply observer_try; [apply wrapped_observer, GetFolderTree_observer|]. intros folders.
  apply observer_try; [apply wrapped_observer, GetFilesForFolderTree_observer|]. done.
Qed.

Lemma total_bytes_range files : in_int64 (total_bytes files).
Proof.
  unfold total_bytes. assert (in_int64 0) as H0 by (unfold in_int64, min_int64, max_int64; lia).
  revert H0. generalize 0%Z. induction files as [|f files IH]; intros z Hz; cbn; [done|]. apply IH, wrap64_range.
Qed.

(** The totals of the manifest a job is processed with. *)
Lemma buildManifest_keeps j : guar Inv G
  (λ r, match r with inl _ => True | inr m => (0 <= man_TotalFiles m)%Z ∧ in_int64 (man_TotalBytes m) end)
  (buildManifest j).
Proof using HR.
  assert (∀ A msg (p : prog World (error + A)), observer p → guar Inv G
    (λ r, match r with inl _ => True | inr _ => True end) (wrapped msg p)) as Hw.
  { intros A msg p Hp. eapply guar_mono; [done| |apply observer_guar; [apply HR|apply HR|by apply wrapped_observer]].
    by intros []. }
  eapply (guar_try _ _ (λ _, True)); [apply Hw, GetFolderTree_observer|]. intros folders _.
  eapply (guar_try _ _ (λ _, True)); [apply Hw, GetFilesForFolderTree_observer|]. intros files _.
  cbn. split; [lia|apply total_bytes_range].
Qed.

Lemma process_manifest_keeps ctx j m : in_hand j → (0 <= man_TotalFiles m)%Z → in_int64 (man_TotalBytes m) →
  guar Inv G (λ _, True) (process_manifest cfg ctx j m).
Proof using HR.
  intros [Hj Hs] Hm1 Hm2. unfold process_manifest. apply Now_keeps. intros now. cbn zeta.
  set (j2 := set_UpdatedAt _ (set_TotalBytes _ _)).
  assert (in_hand j2) as Hj2 by (split; [by apply HR|done]).
  eapply guar_bind; [by apply update_in_hand|]. intros [e|] _; [done|].
  case_match. { apply failJob_keeps; [apply Hj2|unfold safe_messages; set_solver]. }
  eapply guar_bind; [by apply generateArchive_keeps|]. intros [[e|] j3] [Hj3 _]; cbn in Hj3.
  - apply failJob_keeps; [done|unfold safe_messages; set_solver].
  - by apply completeJob_keeps.
Qed.

(** [ProcessJob] from the first update on. *)
Definition process_started (ctx : context) (j : Job) : prog World unit :=
  e ← jobs_Update j;
  match e with
  | Some _ => Ret tt
  | None =>
      r ← buildManifest j;
      match r with
      | inl err => failJob j (lit "failed to read archive manifest from database") err
      | inr manifest => process_manifest cfg ctx j manifest
      end
  end.

Lemma process_started_keeps ctx j : in_hand j → guar Inv G (λ _, True) (process_started ctx j).
Proof using HR.
  intros Hj. eapply guar_bind; [by apply update_in_hand|]. intros [e|] _; [done|].
  eapply guar_bind; [apply buildManifest_keeps|]. intros [e|m] Hm.
  { apply failJob_keeps; [apply Hj|unfold safe_messages; set_solver]. }
  destruct Hm. by apply process_manifest_keeps.
Qed.

Lemma started_in_hand t j : Good j → in_hand (started_job t j).
Proof using HR. intros Hj. split; [by apply HR|done]. Qed.

Lemma ProcessJob_keeps ctx : guar Inv G (λ _, True) (ProcessJob cfg ctx id).
Proof using HR.
  eapply guar_bind; [apply HR|]. intros [e|j] Hj; [done|]. apply Now_keeps. intros t.
  by apply process_started_keeps, started_in_hand.
Qed.
End keeps.

(** ** Obligations

    [ok id w] is what should hold of each job at any time; an action may break
    it for a job only if its goroutine is then obliged to mend it. *)

Section duty.
Context (Inv : World → Prop) (ok : str → World → Prop).

(** [p] will mend [id] before it returns, whatever others do meanwhile, as
    long as they keep [Inv]. *)
Fixpoint obliged {A} (id : str) (p : prog World A) : Prop :=
  match p with
  | Ret _ => False
  | Atomic f k => ∀ w, Inv w → ok id (f w).2 ∨ obliged id (k (f w).1)
  end.

(** After each action of [p] the job is well, or [p] is obliged to it. *)
Fixpoint dutiful {A} (id : str) (p : prog World A) : Prop :=
  match p with
  | Ret _ => True
  | Atomic f k => ∀ w, Inv w → (ok id (f w).2 ∨ obliged id (k (f w).1)) ∧ dutiful id (k (f w).1)
  end.

(** [p] never breaks a job without being obliged to it from then on. *)
Fixpoint responsible {A} (p : prog World A) : Prop :=
  match p with
  | Ret _ => True
  | Atomic f k => ∀ w, Inv w →
      (∀ id, ok id w → ok id (f w).2 ∨ obliged id (k (f w).1)) ∧ responsible (k (f w).1)
  end.

Definition duty {A} (id : str) (p : prog World A) : Prop := obliged id p ∧ dutiful id p.

Lemma obliged_bind_l {A B} id (p : prog World A) (k : A → prog World B) : obliged id p → obliged id (p ≫= k).
Proof.
  induction p as [a|X f k' IH]; cbn; [done|]. intros Hp w Hw. destruct (Hp w Hw) as [?|?]; [by left|right].
  by apply IH.
Qed.

Lemma obliged_bind_r {A B} id (Q : A → Prop) (p : prog World A) (k : A → prog World B) :
  safe_post Inv Q p → (∀ a, Q a → obliged id (k a)) → obliged id (p ≫= k).
Proof.
  intros Hp Hk. induction p as [a|X f k' IH]; cbn in *; [auto|]. intros w Hw. right.
  destruct (Hp w Hw) as [_ ?]. by apply IH.
Qed.

Lemma duty_bind {A B} id (Q : A → Prop) (p : prog World A) (k : A → prog World B) :
  safe_post Inv Q p → (∀ a, Q a → duty id (k a)) → duty id (p ≫= k).
Proof.
  intros Hp Hk. split; [eapply obliged_bind_r; [done|]; intros a Ha; by apply Hk|].
  induction p as [a|X f k' IH]; cbn in *; [by apply Hk|]. intros w Hw. destruct (Hp w Hw) as [_ Hp'].
  split; [right|by apply IH]. eapply obliged_bind_r; [done|]. intros a Ha. by apply Hk.
Qed.

(** A program that breaks at most [id] and is dutiful about it is
    responsible. *)
Lemma dutiful_responsible {A} id (Q : A → Prop) (p : prog World A) :
  guar Inv (λ w w', ∀ i, i ≠ id → ok i w → ok i w') Q p → dutiful id p → responsible p.
Proof.
  induction p as [a|X f k IH]; cbn; [done|]. intros Hg Hd w Hw.
  destruct (Hg w Hw) as (_ & HG & Hg'), (Hd w Hw) as [Hs Hd']. split; [|by apply IH].
  intros i Hi. destruct (decide (i = id)) as [->|Hne]; [done|]. left. by apply HG.
Qed.

(** A program that breaks nothing is responsible. *)
Lemma quiet_responsible {A} (Q : A → Prop) (p : prog World A) :
  guar Inv (λ w w', ∀ i, ok i w → ok i w') Q p → responsible p.
Proof.
  induction p as [a|X f k IH]; cbn; [done|]. intros Hg w Hw. destruct (Hg w Hw) as (_ & HG & Hg').
  split; [|by apply IH]. intros i Hi. left. by apply HG.
Qed.

Lemma responsible_bind {A B} (Q : A → Prop) (p : prog World A) (k : A → prog World B) :
  safe_post Inv Q p → responsible p → (∀ a, Q a → responsible (k a)) → responsible (p ≫= k).
Proof.
  intros Hp Hr Hk. induction p as [a|X f k' IH]; cbn in *; [auto|]. intros w Hw.
  destruct (Hp w Hw) as [_ Hp'], (Hr w Hw) as [Hs Hr']. split; [|by apply IH].
  intros i Hi. destruct (Hs i Hi) as [?|?]; [by left|right]. by apply obliged_bind_l.
Qed.

(** The goroutines together: what is not well, one of them will mend. *)
Record owned (c : conf) : Prop := {
  owned_state : Inv c.2;
  owned_safe : Forall (safe Inv) c.1;
  owned_threads : Forall responsible c.1;
  owned_all : ∀ id, ok id c.2 ∨ ∃ i p, c.1 !! i = Some p ∧ obliged id p
}.

Lemma owned_step spawnable c c' :
  (∀ p, spawnable p → safe Inv p ∧ responsible p) → step spawnable c c' → owned c → owned c'.
Proof.
  intros Hsp Hst [Hi Hsafe Hr Hall]. destruct Hst as [ths w i X f k Hlk|ths w p Hp]; cbn in *.
  - pose proof (Forall_lookup_1 _ _ _ _ Hsafe Hlk w Hi) as [Hi' Hs'].
    pose proof (Forall_lookup_1 _ _ _ _ Hr Hlk w Hi) as [Hact Hr'].
    pose proof (lookup_lt_Some _ _ _ Hlk) as Hlt.
    split; cbn; [done|by apply Forall_insert|by apply Forall_insert|]. intros id.
    assert (obliged id (k (f w).1) → ∃ j p, <[i := k (f w).1]> ths !! j = Some p ∧ obliged id p) as Hown
      by (intros ?; exists i, (k (f w).1); by rewrite list_lookup_insert_eq).
    destruct (Hall id) as [Hid|(j & p & Hl & Hob)]; [destruct (Hact id Hid); auto|].
    destruct (decide (j = i)) as [->|Hne].
    + rewrite Hlk in Hl. simplify_eq. destruct (Hob w Hi); auto.
    + right. exists j, p. by rewrite list_lookup_insert_ne.
  - destruct (Hsp p Hp). split; cbn; [done|apply Forall_app_2; [done|by apply Forall_singleton]..|].
    intros id. destruct (Hall id) as [?|(i & q & Hl & ?)]; [by left|right]. exists i, q.
    by rewrite lookup_app_l by (by eapply lookup_lt_Some).
Qed.

Lemma owned_steps spawnable c c' :
  (∀ p, spawnable p → safe Inv p ∧ responsible p) → rtc (step spawnable) c c' → owned c → owned c'.
Proof. intros Hsp. induction 1 as [|c c1 c2 Hs _ IH]; [done|]. intros Hc. eapply IH, owned_step; eauto. Qed.
End duty.

(** ** Jobs marked as processing *)


(** The record of [id] is not marked as processing. *)
Definition settled (id : str) (w : World) : Prop :=
  ∀ j, w_jobs w !! id = Some j → job_Status j ≠ JobStatusProcessing.

(** A transition that unsettles no job but those in [R], and starts or ends
    no worker. *)
Definition settles (R : str → Prop) (w w' : World) : Prop :=
  w_workers w' = w_workers w ∧ ∀ id, ¬ R id → settled id w → settled id w'.

Lemma settles_same R w w' : w_jobs w' = w_jobs w → w_workers w' = w_workers w → settles R w w'.
Proof. intros E Ew. split; [done|]. intros id _ H j. rewrite E. apply H. Qed.

Lemma settled_update id j w : settled id w → job_ID j ≠ id ∨ job_Status j ≠ JobStatusProcessing →
  settled id (set_jobs (store_Update j (w_jobs w)).2 w).
Proof.
  intros Hs Hj j'. unfold store_Update. destruct (w_jobs w !! job_ID j); cbn; [|apply Hs].
  rewrite lookup_insert. case_decide; [intros [= <-]; by destruct Hj|apply Hs].
Qed.


Section settle.
Context (Inv : World → Prop).
Abbreviation obliged := (obliged Inv settled).
Abbreviation dutiful := (dutiful Inv settled).
Abbreviation responsible := (responsible Inv settled).
Abbreviation duty := (duty Inv settled).

Lemma settles_responsible {A} id (Q : A → Prop) (p : prog World A) :
  guar Inv (settles (λ i, i = id)) Q p → dutiful id p → responsible p.
Proof. intros Hg. apply (dutiful_responsible _ _ _ Q). eapply guar_mono; [|done|exact Hg]. by intros w w' [_ H]. Qed.

Lemma settles_quiet {A} (Q : A → Prop) (p : prog World A) : guar Inv (settles (λ _, False)) Q p → responsible p.
Proof.
  intros Hg. apply (quiet_responsible _ _ Q). eapply guar_mono; [|done|exact Hg].
  intros w w' [_ H] i. apply H. tauto.
Qed.

(** Storing a record of [id]: the last word, or to be followed by more. *)
Lemma duty_update {B} id j (k : option error → prog World B) :
  job_ID j = id → (∀ e, dutiful id (k (Some e))) →
  duty id (k None) ∨ (job_Status j ≠ JobStatusProcessing ∧ dutiful id (k None)) →
  duty id (jobs_Update j ≫= k).
Proof.
  intros Hid He Hn.
  assert (∀ w, let r := store_Update j (w_jobs w) in
    (∃ e, r.1 = Some e ∧ settled id (set_jobs r.2 w)) ∨
    (r.1 = None ∧ (job_Status j ≠ JobStatusProcessing → settled id (set_jobs r.2 w)))) as Hu.
  { intros w. unfold store_Update. destruct (w_jobs w !! job_ID j) eqn:E; cbn.
    - right. split; [done|]. intros Hs j'. cbn. rewrite Hid, lookup_insert_eq. by intros [= <-].
    - left. eexists. split; [done|]. intros j'. cbn. by rewrite <- Hid, E. }
  split; cbn; intros w _; specialize (Hu w); destruct (store_Update j (w_jobs w)) as [[e|] m]; cbn in *.
  - left. destruct Hu as [(? & _ & ?)|[? _]]; [done|done].
  - destruct Hn as [[? _]|[Hs _]]; [by right|left]. destruct Hu as [(? & ? & _)|[_ ?]]; [done|auto].
  - split; [left|apply He]. destruct Hu as [(? & _ & ?)|[? _]]; [done|done].
  - destruct Hn as [[? ?]|[Hs ?]]; split; auto. left. destruct Hu as [(? & ? & _)|[_ ?]]; [done|auto].
Qed.

(** ** The pool

    [n] goroutines that may be obliged, and any others that unsettle nothing. *)
Definition quiet (p : prog World unit) : Prop := guar Inv (settles (λ _, False)) (λ _, True) p.

(** A worker that has not called [wg.Done] yet: it will do so at most once,
    as its last action. *)
Fixpoint unfinished (p : prog World unit) : Prop :=
  match p with
  | Ret _ => True
  | Atomic f k => ∀ w, Inv w →
      (w_workers (f w).2 = w_workers w ∧ unfinished (k (f w).1)) ∨
      (w_workers (f w).2 = pred (w_workers w) ∧ k (f w).1 = Ret tt)
  end.

Lemma unfinished_bind {A} R (Q : A → Prop) (p : prog World A) (k : A → prog World unit) :
  guar Inv (settles R) Q p → (∀ a, Q a → unfinished (k a)) → unfinished (p ≫= k).
Proof.
  intros Hp Hk. induction p as [a|X f k' IH]; cbn in *; [auto|]. intros w Hw.
  destruct (Hp w Hw) as (_ & [? _] & ?). left. split; [done|]. by apply IH.
Qed.

Record pool_inv (n : nat) (c : conf) : Prop := {
  pool_inv_state : Inv c.2;
  pool_safe : Forall (safe Inv) c.1;
  pool_workers : ∀ i p, i < n → c.1 !! i = Some p → responsible p ∧ unfinished p;
  pool_others : ∀ i p, n ≤ i → c.1 !! i = Some p → quiet p;
  pool_size : n ≤ length c.1;
  pool_owned : ∀ id, settled id c.2 ∨ ∃ i p, i < n ∧ c.1 !! i = Some p ∧ obliged id p;
  (* the wait group counts the workers that have not called [Done] *)
  pool_count : ∃ F : gset nat,
    (∀ i, i ∈ F → i < n ∧ c.1 !! i = Some (Ret tt)) ∧ size F + w_workers c.2 = n
}.

(** A thread's action seen by the others. *)
Lemma pool_action n ths w i X (f : World → X * World) k :
  pool_inv n (ths, w) → ths !! i = Some (Atomic f k) →
  ∀ id, settled id w → settled id (f w).2 ∨ (i < n ∧ obliged id (k (f w).1)).
Proof.
  intros [Hi _ Hw Ho _ _ _] Hlk id Hid. cbn in *. destruct (decide (i < n)) as [Hin|Hin].
  - destruct (Hw i _ Hin Hlk) as [Hr _]. destruct (Hr w Hi) as [Hs _]. destruct (Hs id Hid); auto.
  - destruct (Ho i _ ltac:(lia) Hlk w Hi) as (_ & [_ HG] & _). left. apply HG; [tauto|done].
Qed.

Lemma pool_action_count n ths w i X (f : World → X * World) k :
  pool_inv n (ths, w) → ths !! i = Some (Atomic f k) →
  ∃ F : gset nat, (∀ j, j ∈ F → j < n ∧ <[i := k (f w).1]> ths !! j = Some (Ret tt)) ∧
    size F + w_workers (f w).2 = n.
Proof.
  intros [Hi _ Hw Ho _ _ (F & HF & Hc)] Hlk. cbn in *. pose proof (lookup_lt_Some _ _ _ Hlk) as Hlt.
  assert (i ∉ F) as HiF by (intros HiF; destruct (HF i HiF) as [_ ?]; congruence).
  assert (∀ j, j ∈ F → j < n ∧ <[i := k (f w).1]> ths !! j = Some (Ret tt)) as HF'.
  { intros j Hj. rewrite list_lookup_insert_ne by congruence. by apply HF. }
  destruct (decide (i < n)) as [Hin|Hin].
  - destruct (Hw i _ Hin Hlk) as [_ Hu]. destruct (Hu w Hi) as [[-> _]|[E Hk]]; [by exists F|].
    exists ({[i]} ∪ F). split.
    + intros j [->%elem_of_singleton|Hj]%elem_of_union; [|by apply HF'].
      by rewrite list_lookup_insert_eq, Hk.
    + assert (size F < n).
      { assert (F ⊆ set_seq 0 n ∖ {[i]}) as Hsub.
        { intros j Hj. destruct (HF j Hj). apply elem_of_difference. rewrite elem_of_set_seq. set_solver by lia. }
        apply subseteq_size in Hsub. rewrite size_difference, size_set_seq, size_singleton in Hsub; [lia|].
        intros j ->%elem_of_singleton. apply elem_of_set_seq. lia. }
      rewrite size_union, size_singleton by set_solver. lia.
  - destruct (Ho i _ ltac:(lia) Hlk w Hi) as (_ & [-> _] & _). by exists F.
Qed.

Lemma pool_step n spawnable c c' :
  (∀ p, spawnable p → quiet p) → step spawnable c c' → pool_inv n c → pool_inv n c'.
Proof.
  intros Hsp Hst Hc. destruct Hst as [ths w i X f k Hlk|ths w p Hp].
  - pose proof (pool_action _ _ _ _ _ _ _ Hc Hlk) as Hact.
    pose proof (pool_action_count _ _ _ _ _ _ _ Hc Hlk) as Hcnt.
    destruct Hc as [Hi Hsafe Hw Ho Hn Hown _]. cbn in *.
    pose proof (lookup_lt_Some _ _ _ Hlk) as Hlt.
    pose proof (Forall_lookup_1 _ _ _ _ Hsafe Hlk w Hi) as [Hi' Hsafe'].
    split; cbn; [done|by apply Forall_insert| | |by rewrite length_insert| |done].
    + intros j p Hj [(-> & <- & _)|[_ Hl]]%list_lookup_insert_Some; [|by eapply Hw].
      destruct (Hw j _ Hj Hlk) as [Hr Hu]. split; [by apply Hr|].
      by destruct (Hu w Hi) as [[_ ?]|[_ ->]].
    + intros j p Hj [(-> & <- & _)|[_ Hl]]%list_lookup_insert_Some; [|by eapply Ho].
      by destruct (Ho j _ Hj Hlk w Hi) as (_ & _ & ?).
    + intros id. destruct (Hown id) as [Hid|(j & p & Hj & Hl & Hob)].
      * destruct (Hact id Hid) as [?|[Hin ?]]; [by left|right]. exists i, (k (f w).1).
        by rewrite list_lookup_insert_eq.
      * destruct (decide (j = i)) as [->|Hne].
        -- rewrite Hlk in Hl. simplify_eq. destruct (Hob w Hi) as [?|?]; [by left|right].
           exists i, (k (f w).1). by rewrite list_lookup_insert_eq.
        -- right. exists j, p. by rewrite list_lookup_insert_ne.
  - destruct Hc as [Hi Hsafe Hw Ho Hn Hown (F & HF & Hc)]. cbn in *.
    split; cbn; [done|apply Forall_app; split; [done|]| | |rewrite length_app; lia| |].
    + apply Forall_singleton. by eapply safe_post_safe, guar_safe_post, Hsp.
    + intros i q Hin Hl. rewrite lookup_app_l in Hl by lia. by eapply Hw.
    + intros i q Hin Hl. apply lookup_app_Some in Hl as [Hl|[_ Hl]]; [by eapply Ho|].
      apply list_lookup_singleton_Some in Hl as [_ <-]. by apply Hsp.
    + intros id. destruct (Hown id) as [?|(i & q & Hin & Hl & ?)]; [by left|right].
      exists i, q. rewrite lookup_app_l by lia. done.
    + exists F. split; [|done]. intros j Hj. destruct (HF j Hj). by rewrite lookup_app_l by lia.
Qed.

Lemma pool_steps n spawnable c c' :
  (∀ p, spawnable p → quiet p) → rtc (step spawnable) c c' → pool_inv n c → pool_inv n c'.
Proof. intros Hsp. induction 1 as [|c c1 c2 Hs _ IH]; [done|]. intros Hc. eapply IH, pool_step; eauto. Qed.

(** Once the wait group is at zero, every job is settled. *)
Lemma pool_settled n c : pool_inv n c → w_workers c.2 = 0 → ∀ id, settled id c.2.
Proof.
  intros [_ _ _ _ _ Hown (F & HF & Hc)] Hz id. destruct (Hown id) as [?|(i & p & Hi & Hl & Hob)]; [done|].
  assert (F = set_seq 0 n) as ->.
  { apply leibniz_equiv, set_subseteq_size_equiv.
    - intros j Hj. apply elem_of_set_seq. destruct (HF j Hj). lia.
    - rewrite size_set_seq. lia. }
  destruct (HF i) as [_ E]; [apply elem_of_set_seq; lia|]. rewrite E in Hl. by simplify_eq.
Qed.
End settle.

(** ** [ProcessJob] settles what it unsettles *)

Section process_duty.
Context {UT : UnicodeTables} {ENV : Env} {REPO : ArchiveRepository} {FF : FileFetcher}.
Context (cfg : ArchiveConfig) (id : str).
Context {Inv : World → Prop} {Good : Job → Prop} {Tok : str → Prop}.
Context (HR : processing_rule cfg id Inv (settles (λ i, i = id)) Good Tok).
Context (Hgood : ∀ j, Good j → job_ID j = id).

Lemma keeps_post {A} (Q : A → Prop) (p : prog World A) :
  guar Inv (settles (λ i, i = id)) Q p → safe_post Inv Q p.
Proof. apply guar_safe_post. Qed.
#[local] Hint Resolve keeps_post : core.

Lemma duty_Now {B} (k : time → prog World B) : (∀ t, duty Inv settled id (k t)) → duty Inv settled id (Now ≫= k).
Proof using HR.
  intros Hk. eapply (duty_bind _ _ _ (λ _, True)); [|auto]. apply observe_safe. apply HR.
Qed.

Lemma failJob_duty j msg c : Good j → duty Inv settled id (failJob j msg c).
Proof using HR Hgood.
  intros Hj. apply duty_Now. intros now. apply duty_update; [exact (Hgood j Hj)|done|]. by right.
Qed.

Lemma completeJob_duty j : Good j → duty Inv settled id (completeJob cfg j).
Proof using HR Hgood.
  intros Hj. apply duty_Now. intros now. eapply duty_bind; [apply keeps_post, HR|]. intros [e|tok] Htok.
  - by apply failJob_duty.
  - apply duty_update; [exact (Hgood j Hj)|done|]. by right.
Qed.

Lemma process_manifest_duty ctx j m : in_hand (Good := Good) j → (0 <= man_TotalFiles m)%Z → in_int64 (man_TotalBytes m) →
  duty Inv settled id (process_manifest cfg ctx j m).
Proof using HR Hgood.
  intros [Hj Hs] Hm1 Hm2. unfold process_manifest. apply duty_Now. intros now. cbn zeta.
  set (j2 := set_UpdatedAt _ (set_TotalBytes _ _)).
  assert (in_hand (Good := Good) j2) as Hj2 by (split; [by apply HR|done]).
  apply duty_update; [exact (Hgood j Hj)|done|]. left. case_match; [apply failJob_duty, Hj2|].
  eapply duty_bind; [eapply keeps_post, generateArchive_keeps; [exact HR|exact Hj2]|].
  intros [[e|] j3] [Hj3 _]; cbn in Hj3; [by apply failJob_duty|by apply completeJob_duty].
Qed.

Lemma process_started_duty ctx j : in_hand (Good := Good) j → duty Inv settled id (process_started cfg ctx j).
Proof using HR Hgood.
  intros Hj. apply duty_update; [apply Hgood, Hj|done|]. left.
  eapply duty_bind; [eapply keeps_post, buildManifest_keeps; exact HR|]. intros [e|m] Hm.
  - apply failJob_duty, Hj.
  - destruct Hm. by apply process_manifest_duty.
Qed.

Lemma ProcessJob_responsible ctx : responsible Inv settled (ProcessJob cfg ctx id).
Proof using HR Hgood.
  assert (∀ A (p : prog World A), reader p → responsible Inv settled p) as Hread.
  { intros A p. induction p as [a|X f k IH]; cbn; [done|]. intros Hp w Hw. destruct (Hp w) as [Hs Hk].
    split; [|by apply IH]. intros i Hi. left. intros j. rewrite (proj1 Hs). apply Hi. }
  eapply responsible_bind; [apply keeps_post, HR|by apply Hread; intros w|]. intros [e|j] Hj; [done|].
  eapply (responsible_bind _ _ (λ _, True)); [apply observe_safe, HR|apply Hread, reader_observe|]. intros t _.
  pose proof (started_in_hand cfg id HR t j Hj) as Hh.
  eapply settles_responsible; [by eapply process_started_keeps|]. by apply process_started_duty.
Qed.
End process_duty.
