(* ===== verification/Worker.v ===== *)
(** * The worker pool and the cleanup loop (internal/worker)

    The loops of the background goroutines.  A [select] with several ready
    cases takes one at random: the environment decides ([env_select]).  A
    blocked goroutine takes another round.  [fuel] bounds the rounds looked
    at; a loop returns [true] when it ended by itself. *)

From S2P Require Import Prelude GoString GoPath GoError Model Config Sanitize Validate Manifest Prog.
From S2P Require Import JobStore Token FS Sql World Storage Writer Repository Client Generator Service Process.
From S2P Require Import Interference Cleanup.

Section loops.
Context {UT : UnicodeTables} {ENV : Env} {REPO : ArchiveRepository} {FF : FileFetcher}.
Context (cfg : ArchiveConfig).

(** The two cases of the worker's [select], or neither is ready.  Nothing
    closes the queue. *)
Inductive worker_case := PoolDone | TakeJob (jobID : str) | NotReady.

Definition worker_select : prog World worker_case :=
  atomic (λ w,
    match w_queue w with
    | [] => if w_shutdown w then (PoolDone, w) else (NotReady, w)
    | jobID :: q =>
        if w_shutdown w && env_select (w_tick w) then (PoolDone, tick w)
        else (TakeJob jobID, tick (set_queue q w))
    end).

(** [Pool.loop]. *)
Fixpoint worker_loop (fuel : nat) : prog World bool :=
  match fuel with
  | O => Ret false
  | S fuel' =>
      c ← worker_select;
      match c with
      | PoolDone => Ret true
      | NotReady => worker_loop fuel'
      | TakeJob jobID => _ ← ProcessJob cfg Background jobID; worker_loop fuel'
      end
  end.

(** [p.wg.Done()], [p.wg.Add(1)]. *)
Definition wg_Done : prog World unit := atomic (λ w, (tt, set_workers (pred (w_workers w)) w)).
Definition wg_Add (w : World) : World := set_workers (S (w_workers w)) w.

(** The goroutine [Pool.Run] starts for each worker. *)
Definition worker (fuel : nat) : prog World unit :=
  ended ← worker_loop fuel; if (ended : bool) then wg_Done else Ret tt.

(** The cleanup worker's [select]: whether it stops; otherwise its ticker
    fired. *)
Definition cleanup_select : prog World bool :=
  atomic (λ w, (w_shutdown w && env_select (w_tick w), tick w)).

(** How [Cleanup.Run] left: it returned, it panicked, or [fuel] ticks were
    not enough. *)
Inductive run_end := Returned | Panicked | StillRunning.

(** The loop of [Cleanup.Run]: one sweep per tick. *)
Fixpoint cleanup_rounds (c : Cleanup) (fuel : nat) (order : list Job → list Job) : prog World run_end :=
  match fuel with
  | O => Ret StillRunning
  | S fuel' =>
      stop ← cleanup_select;
      if (stop : bool) then Ret Returned
      else _ ← sweep c order; cleanup_rounds c fuel' order
  end.

(** [Cleanup.Run]: [time.NewTicker] panics unless the interval is positive;
    a sweep at the start and one per tick. *)
Definition Cleanup_Run (c : Cleanup) (fuel : nat) (order : list Job → list Job) : prog World run_end :=
  if (cu_interval c <=? 0)%Z then Ret Panicked
  else _ ← sweep c order; cleanup_rounds c fuel order.

(** The goroutine of [run] around it.  Its deferred [close(cleanupDone)] runs
    during a panic too, which then ends the process with status 2. *)
Definition close_cleanupDone : prog World unit := atomic (λ w, (tt, set_cleanup_done true w)).

Definition cleanup_worker (fuel : nat) (order : list Job → list Job) : prog World unit :=
  let cleanup := NewCleanup (ac_TempDir cfg) (ac_CleanupInterval cfg) (ac_Expiry cfg) in
  ended ← Cleanup_Run cleanup fuel order;
  match ended with
  | Returned => close_cleanupDone
  | Panicked => _ ← close_cleanupDone; atomic (λ w, (tt, add_event (Exited 2) w))
  | StillRunning => Ret tt
  end.

(** ** Workers stop

    The queue and the flags, which processing leaves alone. *)

Definition control (q : list str) (acc : bool) (life : lifecycle) (w : World) : Prop :=
  w_queue w = q ∧ w_accepting w = acc ∧ w_life w = life.

Lemma control_rule id q acc life :
  processing_rule cfg id (control q acc life) (λ _ _, True) (λ _, True) (λ _, True).
Proof.
  split; try done.
  - intros w w' (?&?&?) (?&?&?&?&?). unfold control. split_and!; congruence.
  - apply guar_atomic. intros w Hw. split_and!; [done|done|]. by destruct (store_Get _ _).
  - intros j _ _. apply guar_atomic. intros w Hw. by destruct (store_Update _ _).
  - intros i. apply guar_atomic. intros w Hw. by destruct (token_Issue _ _ _ _ _) as [[] ?].
Qed.

Lemma ProcessJob_control ctx id w :
  control (w_queue w) (w_accepting w) (w_life w) (run (ProcessJob cfg ctx id) w).2.
Proof.
  pose proof (safe_post_run (control (w_queue w) (w_accepting w) (w_life w)) (λ _, True)
    (ProcessJob cfg ctx id) w) as H. apply H; [|done].
  eapply guar_safe_post, ProcessJob_keeps, control_rule.
Qed.

(** C23: a worker stops: once the shutdown context is done, a worker left to
    itself returns after finishing at most the jobs that are queued, whatever
    those jobs do and whichever ready case each [select] takes; the jobs it
    did not take stay queued, in order. *)
Theorem worker_stops fuel w :
  w_shutdown w = true → length (w_queue w) < fuel →
  (run (worker_loop fuel) w).1 = true ∧
  ∃ k, w_queue (run (worker_loop fuel) w).2 = drop k (w_queue w).
Proof.
  revert w. induction fuel as [|fuel IH]; intros w Hsh Hq; [lia|]. cbn [worker_loop].
  rewrite run_bind. unfold worker_select. rewrite run_atomic. destruct (w_queue w) as [|id q] eqn:E.
  { rewrite Hsh. cbn. split; [done|]. exists 0. by rewrite E. }
  rewrite Hsh. cbn [andb]. destruct (env_select (w_tick w)).
  { cbn. split; [done|]. exists 0. by rewrite E. }
  rewrite run_bind. set (w1 := tick (set_queue q w)). destruct (ProcessJob_control Background id w1) as (Hq1 & _ & Hs1).
  destruct (run (ProcessJob cfg Background id) w1) as [[] w2]. cbn in Hq1, Hs1.
  destruct (IH w2) as [Hr [k Hk]]; [unfold w_shutdown; by rewrite Hs1|rewrite Hq1; cbn in Hq; lia|]. split; [done|].
  exists (S k). by rewrite Hk, Hq1.
Qed.

(** A cleanup interval of zero or less, which [validate] does not refuse, ends
    the process at once: before the first sweep, with the state as it was. *)
Lemma cleanup_worker_panics fuel order w :
  (ac_CleanupInterval cfg <= 0)%Z →
  run (cleanup_worker fuel order) w = (tt, add_event (Exited 2) (set_cleanup_done true w)).
Proof.
  intros Hi%Z.leb_le. unfold cleanup_worker, Cleanup_Run. cbn [NewCleanup cu_interval].
  rewrite Hi. done.
Qed.
End loops.

(** ** The pool *)

(** [Pool]: the service is its settings (its state is in [World] and its
    dependencies are the classes); the wait group is [w_workers]. *)
Record Pool := mkPool { pl_svc : ArchiveConfig; pl_workers : Z }.

(** [worker.NewPool]. *)
Definition worker_NewPool (svc : ArchiveConfig) (workers : Z) : Pool := mkPool svc workers.

(** [Pool.Run]. *)
Definition Pool_Run {UT : UnicodeTables} {ENV : Env} {REPO : ArchiveRepository} {FF : FileFetcher}
    (p : Pool) (fuel : nat) (c : conf) : conf :=
  Nat.iter (Z.to_nat (pl_workers p)) (λ c, (c.1 ++ [worker (pl_svc p) fuel], wg_Add c.2)) c.

Lemma worker_stops_witness :
  (run (@worker_loop sample_tables service_env service_repo service_fetcher service_cfg 2)
     (set_shutdown true queued_world)).1 = true.
Proof.
  apply (@worker_stops sample_tables service_env service_repo service_fetcher service_cfg 2
    (set_shutdown true queued_world)); [reflexivity|]. by vm_compute.
Defined.
