(* ===== verification/Shutdown.v ===== *)
(** * Shutdown (cmd/server/main.go, [shutdown])

    The ordered shutdown of the main goroutine: it stops new jobs, cancels
    the shutdown context, and waits for the workers, the cleanup worker and
    the HTTP server, each wait bounded by one deadline. *)

From S2P Require Import Prelude GoString GoError Model Config Prog World Service.

(** What the main goroutine does is recorded. *)
Definition event (e : main_event) : prog World unit := atomic (λ w, (tt, add_event e w)).
Definition log_Info (msg : str) : prog World unit := event (LogLine (lit "INFO") msg).
Definition log_Warn (msg : str) : prog World unit := event (LogLine (lit "WARN") msg).
Definition log_Error (msg : str) : prog World unit := event (LogLine (lit "ERROR") msg).

(** [cancelShutdown()]. *)
Definition cancelShutdown : prog World unit := atomic (λ w, (tt, set_shutdown true w)).

(** [net/http] as [shutdown] sees it: whether the server has no active
    connection left, and what closing the listener returned. *)
Class HttpServer := {
  srv_idle : nat → bool;
  srv_close_error : option error
}.

Section shutdown.
Context {ENV : Env} {SRV : HttpServer}.

(** A [select] of a channel that is closed once [ready] holds, and of
    [ctx.Done()].  When the deadline has passed as well, or the goroutine that
    closes the channel has not run yet, the environment decides.  At most
    [fuel] looks. *)
Fixpoint wait_for (fuel : nat) (c : wait_case) (ready : World → bool) (deadline : time)
    : prog World (option wait_case) :=
  match fuel with
  | O => Ret None
  | S fuel' =>
      r ← atomic (λ w,
        if ready w && env_select (w_tick w) then (Some c, tick (add_event (Waited c) w))
        else if (deadline <=? env_now (w_tick w))%Z
        then (Some DeadlineExceeded, tick (add_event (Waited DeadlineExceeded) w))
        else (None, tick w));
      match r with
      | Some c' => Ret (Some c')
      | None => wait_for fuel' c ready deadline
      end
  end.

(** [httpServer.Shutdown(ctx)]: its error. *)
Definition server_Shutdown (fuel : nat) (deadline : time) : prog World (option (option error)) :=
  r ← wait_for fuel ServerIdle (λ w, srv_idle (w_tick w)) deadline;
  Ret (match r with
       | None => None
       | Some ServerIdle => Some srv_close_error
       | Some _ => Some (Some (ErrorString (lit "context deadline exceeded")))
       end).

(** [shutdown]; [false] when [fuel] looks were not enough for some wait. *)
Definition shutdown (fuel : nat) (timeout : duration) : prog World bool :=
  now ← Now;
  let deadline := (now + timeout)%Z in
  _ ← event (Acquired TimeoutContext);
  _ ← StopAccepting;
  _ ← cancelShutdown;
  r ← wait_for fuel WorkersDone (λ w, bool_decide (w_workers w = 0)) deadline;
  match r with
  | None => Ret false
  | Some c =>
      _ ← match c with
          | WorkersDone => log_Info (lit "all workers stopped")
          | _ => log_Warn (lit "shutdown timeout exceeded before all workers stopped")
          end;
      r ← wait_for fuel CleanupDone w_cleanup_done deadline;
      match r with
      | None => Ret false
      | Some _ =>
          r ← server_Shutdown fuel deadline;
          match r with
          | None => Ret false
          | Some err =>
              _ ← match err with
                  | Some _ => log_Error (lit "http server shutdown error")
                  | None => Ret tt
                  end;
              _ ← log_Info (lit "shutdown complete");
              _ ← event (Released TimeoutContext);
              Ret true
          end
      end
  end.

(** ** It returns *)

(** Whatever the other goroutines do between the actions of [p], as long as
    the clock does not go back from reading [t], [p] returns a result in [Q]. *)
Fixpoint ends {A} (Q : A → Prop) (t : nat) (p : prog World A) : Prop :=
  match p with
  | Ret a => Q a
  | Atomic f k => ∀ w, t ≤ w_tick w → w_tick w ≤ w_tick (f w).2 ∧ ends Q (w_tick (f w).2) (k (f w).1)
  end.

Lemma ends_bind {A B} (Q : A → Prop) (R : B → Prop) t (p : prog World A) k :
  ends Q t p → (∀ a t', Q a → t ≤ t' → ends R t' (k a)) → ends R t (p ≫= k).
Proof.
  revert t. induction p as [a|X f k' IH]; cbn; intros t Hp Hk; [by apply Hk|]. intros w Hw.
  destruct (Hp w Hw) as [Hm Hp']. split; [done|]. apply IH; [done|]. intros a t' Ha Ht. apply Hk; [done|lia].
Qed.

Lemma ends_atomic {X} t (f : World → X * World) :
  (∀ w, w_tick w ≤ w_tick (f w).2) → ends (λ _, True) t (atomic f).
Proof. intros Hf w _. cbn. auto. Qed.

(** An action on the way. *)
Lemma ends_then {X B} (R : B → Prop) t (f : World → X * World) k :
  (∀ w, w_tick w ≤ w_tick (f w).2) → (∀ x t', t ≤ t' → ends R t' (k x)) → ends R t (atomic f ≫= k).
Proof. intros Hf Hk. eapply ends_bind; [by apply ends_atomic|]. auto. Qed.

Lemma wait_for_ends fuel c ready deadline T t :
  (∀ t', T ≤ t' → (deadline <= env_now t')%Z) → 0 < fuel → T < t + fuel →
  ends (λ r, r = Some c ∨ r = Some DeadlineExceeded) t (wait_for fuel c ready deadline).
Proof.
  intros Hclock. revert t. induction fuel as [|fuel IH]; intros t Hf HT; [lia|]. cbn. intros w Hw.
  destruct (ready w && env_select (w_tick w)); cbn; [by auto|].
  destruct (Z.leb_spec deadline (env_now (w_tick w))) as [|Hlt]; cbn; [by auto|].
  split; [lia|]. assert (w_tick w < T).
  { apply Nat.nle_gt. intros HTw. specialize (Hclock _ HTw). lia. }
  apply IH; lia.
Qed.

Lemma server_Shutdown_ends fuel deadline T t :
  (∀ t', T ≤ t' → (deadline <= env_now t')%Z) → 0 < fuel → T < t + fuel →
  ends (λ r, r ≠ None) t (server_Shutdown fuel deadline).
Proof.
  intros Hc Hf HT. eapply ends_bind; [by eapply wait_for_ends|]. by intros a t' [-> | ->] _.
Qed.

(** C16: shutdown is bounded by its timeout: if the timeout elapses within any
    [T] readings of the clock, [shutdown] returns after at most [T + 1] looks
    at each of its three waits, whatever the workers, the cleanup worker and
    the requests do meanwhile, even if none of them ever finishes. *)
Theorem shutdown_returns fuel timeout T t :
  (∀ t t', t + T ≤ t' → (env_now t + timeout <= env_now t')%Z) → T < fuel →
  ends (λ returned, returned = true) t (shutdown fuel timeout).
Proof.
  intros Hclock Hf. unfold shutdown, Now, observe. intros w Hw. cbn [atomic fst snd]. split; [cbn; lia|].
  set (d := (env_now (w_tick w) + timeout)%Z). cbn [w_tick tick].
  assert (∀ t', w_tick w + T ≤ t' → (d <= env_now t')%Z) as Hd by (intros; by apply Hclock).
  apply ends_then; [by intros; cbn|]. intros _ t1 H1. apply ends_then; [by intros; cbn|]. intros _ t2 H2.
  apply ends_then; [by intros; cbn|]. intros _ t3 H3.
  eapply ends_bind; [apply (wait_for_ends _ _ _ _ (w_tick w + T)); [done|lia|lia]|]. intros r t4 Hr H4.
  assert (∃ c, r = Some c) as [c ->] by (destruct Hr; eauto).
  apply (ends_bind (λ _, True)); [by destruct c; apply ends_atomic; intros; cbn|]. intros _ t5 _ H5.
  eapply ends_bind; [apply (wait_for_ends _ _ _ _ (w_tick w + T)); [done|lia|lia]|]. intros r t6 Hr' H6.
  assert (∃ c', r = Some c') as [c' ->] by (destruct Hr'; eauto).
  eapply ends_bind; [apply (server_Shutdown_ends _ _ (w_tick w + T)); [done|lia|lia]|]. intros [err|] t7 Herr H7; [|done].
  apply (ends_bind (λ _, True)); [by destruct err; [apply ends_atomic; intros; cbn|]|]. intros _ t8 _ H8.
  do 2 (apply ends_then; [by intros; cbn|]; intros). done.
Qed.
End shutdown.

(** A server that never becomes idle. *)
Definition busy_server : HttpServer := {| srv_idle := λ _, false; srv_close_error := None |}.

Lemma shutdown_returns_witness :
  @ends bool (λ r, r = true) 0 (@shutdown (quiet_env empty_db no_http) busy_server 6 5%Z).
Proof.
  apply (@shutdown_returns (quiet_env empty_db no_http) busy_server 6 5%Z 5 0); [|lia].
  intros t t' Ht. cbn. lia.
Defined.
