(* ===== verification/Concurrency.v ===== *)
(** * The goroutines together (internal/worker, internal/service)

    What holds in every interleaving of any number of requests, workers,
    sweeps and a shutdown. *)

From S2P Require Import Prelude GoString GoPath GoError Model Json Url Wire Config Sanitize Validate Manifest Prog.
From S2P Require Import JobStore Token FS Sql World Storage Writer Repository Client Generator Service HttpMsg ServeContent Http Process.
From S2P Require Import Interference Cleanup Worker Shutdown.

(** ** The invariant *)

Section invariant.
Context {UT : UnicodeTables} {UL : UuidLib} {ENV : Env} {REPO : ArchiveRepository} {FF : FileFetcher} {SRV : HttpServer}.
Context (cfg : ArchiveConfig) (baseURL selfAPIToken : str).

(** A token [Issue] made: the encoding of bytes the random source delivered. *)
Definition issued (tok : str) : Prop := ∃ t raw, env_rand t = inr raw ∧ tok = EncodeToString raw.

(** What every job record says, in the store or in a worker's hands. *)
Record job_wf (j : Job) : Prop := {
  wf_root : ∃ u, job_RootFolderID j = uuid_String u;
  wf_name : valid_name (job_ArchiveName j);
  wf_type : job_ExportType j = ExportTypeZip ∨ job_ExportType j = ExportTypeTar;
  wf_message : job_ErrorMessage j ∈ [] :: safe_messages;
  wf_counters : (0 <= job_TotalFiles j)%Z ∧ in_int64 (job_TotalBytes j) ∧
                in_int64 (job_ProcessedFiles j) ∧ in_int64 (job_ProcessedBytes j);
  wf_status :
    match job_Status j with
    | JobStatusQueued => job_ErrorMessage j = [] ∧ job_DownloadToken j = []
    | JobStatusProcessing => True
    | JobStatusCompleted =>
        (∃ now, job_CompletedAt j = Some now ∧ job_ExpiresAt j = (now + ac_Expiry cfg)%Z) ∧
        issued (job_DownloadToken j) ∧
        job_ArchivePath j = job_ID j ++ lit "." ++ Extension (job_ExportType j)
    | JobStatusFailed => job_ErrorMessage j ∈ safe_messages
    | JobStatusExpired => False
    end
}.

Record service_inv (w : World) : Prop := {
  inv_keyed : keyed (w_jobs w);
  inv_jobs : ∀ id j, w_jobs w !! id = Some j → job_wf j;
  inv_queue : (Z.of_nat (length (w_queue w)) <= ac_QueueSize cfg)%Z;
  inv_tokens : ∀ tok e, w_tokens w !! tok = Some e → issued tok;
  inv_waited : Waited WorkersDone ∈ w_trace w → w_workers w = 0
}.

Lemma service_inv_fs : ignores_fs service_inv.
Proof.
  intros w w' [] (E1 & E2 & E3 & E4 & E5). unfold w_trace, w_workers in *.
  split; unfold w_trace, w_workers; by rewrite ?E1, ?E2, ?E3, ?E5.
Qed.
#[local] Hint Resolve service_inv_fs : core.

(** A change of the job map that keeps the records well formed. *)
Lemma inv_set_jobs m w : service_inv w → keyed m → (∀ id j, m !! id = Some j → job_wf j) →
  service_inv (set_jobs m w).
Proof. intros [] ??. by split. Qed.

Lemma inv_insert j w : service_inv w → job_wf j → service_inv (set_jobs (<[job_ID j := j]> (w_jobs w)) w).
Proof.
  intros Hw Hj. apply inv_set_jobs; [done|apply keyed_insert, Hw|].
  intros id j' Hl. rewrite lookup_insert in Hl. case_decide; simplify_eq; [done|]. by eapply Hw.
Qed.

(** What the goroutines other than the workers guarantee: they never mark a
    job as processing.  A worker does so only for its own job. *)
Abbreviation none := (λ _ : str, False).
Abbreviation only id := (λ i : str, i = id).

Lemma settles_disk R w w' : same_but_fs w w' → settles R w w'.
Proof. intros (E & _ & _ & _ & El). apply settles_same; [done|]. unfold w_workers. by rewrite El. Qed.
#[local] Hint Resolve settles_disk : core.

(** A guarantee that allows everything the goroutines do that neither create
    nor process a job: leaving the records and the queue alone, and deleting
    a record. *)
Record tame (G : World → World → Prop) : Prop := {
  tame_same w w' : w_jobs w' = w_jobs w → w_queue w' = w_queue w → w_workers w' = w_workers w → G w w';
  tame_delete id w : G w (set_jobs (delete id (w_jobs w)) w)
}.

Lemma settles_tame R : tame (settles R).
Proof.
  split; [intros; by apply settles_same|]. intros id w. split; [done|]. intros i _ Hs j. cbn.
  rewrite lookup_delete. case_decide; [done|apply Hs].
Qed.
#[local] Hint Resolve settles_tame : core.

Lemma tame_disk G w w' : tame G → same_but_fs w w' → G w w'.
Proof. intros HG (E & _ & Eq & _ & El). apply HG; [done|done|]. unfold w_workers. by rewrite El. Qed.

Lemma tame_guar {X} G (f : World → X * World) : tame G →
  (∀ w, service_inv w → service_inv (f w).2 ∧ w_jobs (f w).2 = w_jobs w ∧ w_queue (f w).2 = w_queue w ∧
     w_workers (f w).2 = w_workers w) →
  guar service_inv G (λ _, True) (atomic f).
Proof.
  intros HG Hf. apply guar_atomic. intros w Hw. destruct (Hf w Hw) as (? & ? & ? & ?).
  split_and!; [done|by apply HG|done].
Qed.

Lemma jobs_Get_guar R id :
  guar service_inv (settles R) (λ r, match r with inl _ => True | inr j => job_wf j ∧ job_ID j = id end) (jobs_Get id).
Proof.
  apply guar_atomic. intros w Hw. split_and!; [by apply inv_set_jobs; apply Hw|by apply settles_same|].
  cbn. unfold store_Get. destruct (w_jobs w !! id) eqn:E; [|done]. split; [by eapply Hw|]. by eapply (inv_keyed _ Hw).
Qed.

Lemma jobs_Update_guar j : job_wf j → guar service_inv (settles (only (job_ID j))) (λ _, True) (jobs_Update j).
Proof.
  intros Hj. apply guar_atomic. intros w Hw. split_and!; [|split; [by cbn; destruct (store_Update _ _)|intros id Hid Hs]|done].
  - unfold store_Update. destruct (w_jobs w !! job_ID j); [by apply inv_insert|by apply inv_set_jobs; apply Hw].
  - pose proof (settled_update id j w Hs) as H. destruct (store_Update j (w_jobs w)). apply H. left. congruence.
Qed.

Lemma jobs_Create_guar j : job_wf j → job_Status j = JobStatusQueued →
  guar service_inv (settles none) (λ _, True) (jobs_Create j).
Proof.
  intros Hj Hq. apply guar_atomic. intros w Hw. unfold store_Create.
  destruct (w_jobs w !! job_ID j) eqn:E; (split_and!; [| |done]).
  - by apply inv_set_jobs; apply Hw.
  - by apply settles_same.
  - by apply inv_insert.
  - split; [done|]. intros id _ Hs j'. cbn. rewrite lookup_insert. case_decide; [intros [= <-]; by rewrite Hq|apply Hs].
Qed.

Lemma jobs_Delete_guar G id : tame G → guar service_inv G (λ _, True) (jobs_Delete id).
Proof.
  intros HG. apply guar_atomic. intros w Hw. split_and!; [|apply (tame_delete _ HG)|done].
  apply inv_set_jobs; [done|apply keyed_delete, Hw|].
  intros id' j' Hl. rewrite lookup_delete in Hl. case_decide; simplify_eq. by eapply Hw.
Qed.

(** Actions that leave the jobs alone. *)
Lemma control_guar {X} R (f : World → X * World) :
  (∀ w, service_inv w →
    service_inv (f w).2 ∧ w_jobs (f w).2 = w_jobs w ∧ w_workers (f w).2 = w_workers w) →
  guar service_inv (settles R) (λ _, True) (atomic f).
Proof.
  intros Hf. apply guar_atomic. intros w Hw. destruct (Hf w Hw) as (? & ? & ?).
  split_and!; [done|by apply settles_same|done].
Qed.

Lemma reader_keeps {A} R (p : prog World A) : reader p → guar service_inv (settles R) (λ _, True) p.
Proof. apply reader_guar; auto. Qed.

Lemma observer_keeps {A} R (p : prog World A) : observer p → guar service_inv (settles R) (λ _, True) p.
Proof. apply observer_guar; auto. Qed.

(** ** Requests *)

Lemma new_job_wf req id root name type now :
  validateRequest req = inr (root, name, type) → job_wf (new_job id root name type now).
Proof.
  unfold validateRequest. intros H.
  destruct (validateRootFolderID _) as [|root'] eqn:Hr; [done|].
  destruct (validateArchiveName _) as [|name'] eqn:Hn; [done|].
  destruct (validateExportType _) as [|type'] eqn:Ht; [done|]. simplify_eq. split; cbn.
  - unfold validateRootFolderID in Hr. cases_in Hr. eauto.
  - by apply validateArchiveName_accepts in Hn as [_ ?].
  - by apply validateExportType_ok in Ht.
  - left.
  - unfold in_int64, min_int64, max_int64. lia.
  - done.
Qed.

Lemma CreateJob_guar req : guar service_inv (settles none) (λ _, True) (CreateJob cfg req).
Proof.
  eapply (guar_bind _ _ (λ _, True)); [by apply control_guar|]. intros [] _; cbn [negb]; [|done].
  eapply (guar_try _ _ (λ r, validateRequest req = inr r)); [by cbn; destruct (validateRequest req)|].
  intros [[root name] type] Hv.
  eapply (guar_try _ _ (λ _, True)).
  { eapply guar_mono; [done| |apply observer_keeps, wrapped_observer, FolderExists_observer].
    by intros [?|?] _. }
  intros [] _; cbn [negb]; [|done]. apply (guar_bind _ _ (λ _, True)); [apply observe_guar; auto|]. intros now _.
  eapply guar_bind; [apply observe_guar; auto|]. intros id _. cbn zeta.
  eapply guar_bind; [by eapply jobs_Create_guar; [eapply new_job_wf|]|]. intros [e|] _; [done|].
  eapply (guar_bind _ _ (λ _, True)).
  { apply control_guar. intros w Hw.
    destruct (Z.ltb_spec (Z.of_nat (length (w_queue w))) (ac_QueueSize cfg)); [|done].
    split; [|done]. destruct Hw. split; cbn; try done. rewrite length_app. cbn. lia. }
  intros [] _; [done|]. apply guar_then; [by apply jobs_Delete_guar|done].
Qed.

Lemma mux_guar ah sh dh n r : ah_svc ah = cfg →
  guar service_inv (settles none) (λ _, True) (mux selfAPIToken ah sh dh n r).
Proof.
  intros Hah. unfold mux. destruct (rq_path r) as [|a [|b [|c [|]]]]; try done.
  - repeat (case_match; [|done]). unfold requireAPIToken. case_match; [done|]. unfold Create. rewrite Hah.
    destruct (Decode_request (rq_body r)); [done|]. by eapply guar_bind; [apply CreateJob_guar|].
  - case_match; [case_match; [apply reader_keeps, Events_reader|done]|].
    case_match; [|done]. case_match; [apply reader_keeps, Download_reader|done].
Qed.

Lemma serve_guar n r : guar service_inv (settles none) (λ _, True) (serve cfg baseURL selfAPIToken n r).
Proof. unfold serve, cors. case_match; [done|]. eapply guar_bind; [by apply mux_guar|done]. Qed.

Lemma handle_guar n r : guar service_inv (settles none) (λ _, True) (handle cfg baseURL selfAPIToken n r).
Proof.
  eapply guar_bind; [apply observe_guar; auto|]. intros start _. eapply guar_bind; [apply serve_guar|]. intros resp _.
  by eapply guar_bind; [apply observe_guar; auto|].
Qed.

(** ** Workers *)

Lemma service_rule id : processing_rule cfg id service_inv (settles (only id)) (λ j, job_wf j ∧ job_ID j = id) issued.
Proof.
  split; auto.
  - apply jobs_Get_guar.
  - intros j [Hj <-] _. by apply jobs_Update_guar.
  - intros i. apply guar_atomic. intros w Hw. unfold token_Issue.
    destruct (env_rand (w_tick w)) as [e|raw] eqn:Er; cbn;
      (split_and!; [|by apply settles_same|try done; by exists (w_tick w), raw]); destruct Hw; split; cbn; try done.
    intros tok en Hl. rewrite lookup_insert in Hl. case_decide; simplify_eq; [by exists (w_tick w), raw|eauto].
  - by intros t j [[] ?].
  - intros t m j [[? ? ? ? (?&?&?&?)] ?] Hs ??. by split.
  - intros t a b j [[? ? ? ? (?&?&?&?)] ?] Hs ??. by split.
  - intros t msg j [[] ?] Hm. split; [|done]. split; cbn; try done; by right.
  - intros tok now j [[] ?] Htok. split; [|done]. split; cbn; try done. split_and!; eauto.
Qed.

Lemma ProcessJob_guar ctx id : guar service_inv (settles (only id)) (λ _, True) (ProcessJob cfg ctx id).
Proof. eapply ProcessJob_keeps, service_rule. Qed.

Lemma worker_select_guar R : guar service_inv (settles R) (λ _, True) worker_select.
Proof.
  apply control_guar. intros w Hw. destruct (w_queue w) as [|id q] eqn:E; [by case_match|].
  case_match; [split; [|done]; by apply (service_inv_fs w)|]. split; [|done].
  destruct Hw as [? ? Hq ?]. split; try done. cbn. rewrite E in Hq. cbn in Hq. lia.
Qed.

Lemma worker_loop_safe n : safe_post service_inv (λ _, True) (worker_loop cfg n).
Proof.
  induction n as [|n IH]; [done|]. cbn [worker_loop].
  eapply safe_post_bind; [eapply guar_safe_post, (worker_select_guar none)|]. intros [|id|] _; [done| |done].
  eapply safe_post_bind; [eapply guar_safe_post, ProcessJob_guar|]. done.
Qed.

Lemma worker_loop_responsible n : responsible service_inv settled (worker_loop cfg n).
Proof.
  induction n as [|n IH]; [done|]. cbn [worker_loop].
  eapply responsible_bind; [eapply guar_safe_post, (worker_select_guar none)|eapply settles_quiet, worker_select_guar|].
  intros [|id|] _; [done| |done].
  eapply responsible_bind; [eapply guar_safe_post, ProcessJob_guar| |done].
  eapply ProcessJob_responsible; [apply service_rule|]. by intros j [_ ?].
Qed.

(** ** Sweeps *)

Section tame_goroutines.
Context {G : World → World → Prop} (HG : tame G).
#[local] Hint Resolve HG : core.

Lemma disk_allowed w w' : same_but_fs w w' → G w w'.
Proof using HG. by apply tame_disk. Qed.
#[local] Hint Resolve disk_allowed : core.

Lemma tokens_Revoke_guar id : guar service_inv G (λ _, True) (tokens_Revoke id).
Proof using HG.
  apply tame_guar; [done|]. intros w Hw. cbn. split; [|done]. destruct Hw. split; cbn; try done.
  intros tok e. rewrite token_Revoke_lookup. repeat case_match; naive_solver.
Qed.

Lemma storage_Delete_guar dir id : guar service_inv G (λ _, True) (storage_Delete dir id).
Proof using HG.
  unfold storage_Delete. induction [tempPath dir id; finalPath dir id] as [|p ps IH]; [done|].
  cbn [remove_all]. eapply guar_bind; [apply syscall_guar; auto|]. intros [e|] _; [|done].
  by destruct (negb _).
Qed.

Lemma sweep_guar c order : guar service_inv G (λ _, True) (sweep c order).
Proof using HG.
  eapply (guar_bind _ _ (λ _, True)).
  { apply tame_guar; [done|]. intros w Hw. split; [by apply inv_set_jobs; apply Hw|done]. }
  intros jobs _. eapply guar_bind; [apply observe_guar; auto|]. intros now _. eapply (guar_bind _ _ (λ _, True)).
  { generalize (∅ : gset str). induction (order jobs) as [|j l IH]; intros tracked; [done|].
    cbn [sweep_jobs]. destruct (isExpired c j now); [|apply IH]. apply guar_then; [|apply IH].
    apply guar_then; [apply storage_Delete_guar|]. apply guar_then; [apply tokens_Revoke_guar|].
    by apply guar_then; [by apply jobs_Delete_guar|]. }
  intros tracked _. eapply (guar_bind _ _ (λ _, True)).
  { eapply guar_bind; [apply syscall_guar; auto|]. done. }
  intros [e|ids] _; [done|]. induction ids as [|id ids IH]; [done|]. cbn [sweep_files].
  destruct (bool_decide _); [done|]. apply guar_then; [apply storage_Delete_guar|done].
Qed.

Lemma Cleanup_Run_guar c n order : guar service_inv G (λ _, True) (Cleanup_Run c n order).
Proof using HG.
  unfold Cleanup_Run. case_match; [done|]. apply guar_then; [apply sweep_guar|]. induction n as [|n IH]; [done|]. cbn [cleanup_rounds].
  eapply (guar_bind _ _ (λ _, True)).
  { apply tame_guar; [done|]. intros w Hw. split; [|done]. by apply (service_inv_fs w). }
  intros [] _; [done|]. by apply guar_then; [apply sweep_guar|].
Qed.

(** Recording what the main goroutine did, except that it saw the workers
    end. *)
Lemma event_guar e : e ≠ Waited WorkersDone → guar service_inv G (λ _, True) (event e).
Proof using HG.
  intros He. apply tame_guar; [done|]. intros w [? ? ? ? Hw]. split_and!; [|done..]. split; try done.
  cbn. intros [?|?%list_elem_of_singleton]%elem_of_app; [auto|done].
Qed.

Lemma cleanup_worker_guar n order : guar service_inv G (λ _, True) (cleanup_worker cfg n order).
Proof using HG.
  assert (guar service_inv G (λ _, True) close_cleanupDone) as Hc.
  { apply tame_guar; [done|]. intros w [? ? ? ?]. split_and!; [by split|done..]. }
  eapply guar_bind; [apply Cleanup_Run_guar|]. intros [] _; [done| |done].
  apply guar_then; [done|]. by apply (event_guar (Exited 2)).
Qed.

Lemma wait_for_guar fuel c ready deadline :
  (∀ w, c = WorkersDone → ready w = true → w_workers w = 0) →
  guar service_inv G (λ _, True) (wait_for fuel c ready deadline).
Proof using HG.
  intros Hr. induction fuel as [|fuel IH]; [done|]. cbn [wait_for].
  eapply guar_bind; [apply tame_guar; [done|]|by intros [] _]. intros w Hw.
  assert (∀ c', (c' = WorkersDone → w_workers w = 0) → service_inv (tick (add_event (Waited c') w))) as Hc'.
  { intros c' Hz. destruct Hw as [? ? ? ? Hw]. split; try done. cbn.
    intros [?|E%list_elem_of_singleton]%elem_of_app; [auto|]. simplify_eq. auto. }
  destruct (ready w) eqn:E; cbn [andb]; [destruct (env_select _)|]; [|destruct (_ <=? _)%Z..];
    (split_and!; [|done..]); try (by apply Hc'; auto); by apply (service_inv_fs w).
Qed.

Lemma shutdown_guar fuel timeout : guar service_inv G (λ _, True) (shutdown fuel timeout).
Proof using HG.
  unfold shutdown. eapply guar_bind; [apply observe_guar; auto|]. intros now _. cbn zeta.
  apply guar_then; [by apply event_guar|].
  apply guar_then; [apply tame_guar; [done|]; intros w [? ? ? ?]; (split_and!; [by split|done..])|].
  apply guar_then; [apply tame_guar; [done|]; intros w [? ? ? ?]; (split_and!; [by split|done..])|].
  eapply guar_bind; [apply wait_for_guar; by intros w _ ?%bool_decide_eq_true|]. intros [c|] _; [|done].
  apply guar_then; [by destruct c; apply event_guar|].
  eapply guar_bind; [by apply wait_for_guar|]. intros [c'|] _; [|done].
  eapply (guar_bind _ _ (λ _, True)); [by eapply guar_bind; [by apply wait_for_guar|]|]. intros [err|] _; [|done].
  apply guar_then; [by destruct err; [apply event_guar|]|].
  by do 2 (apply guar_then; [by apply event_guar|]).
Qed.
End tame_goroutines.

(** ** All of them together *)

(** The goroutines besides the workers: one per request, the cleanup worker,
    and the main goroutine shutting down. *)
Inductive bystander : prog World unit → Prop :=
| go_request n r : bystander (_ ← handle cfg baseURL selfAPIToken n r; Ret tt)
| go_cleanup n order : bystander (cleanup_worker cfg n order)
| go_shutdown n timeout : bystander (_ ← shutdown n timeout; Ret tt).

Inductive goroutine : prog World unit → Prop :=
| go_worker n : goroutine (worker cfg n)
| go_bystander p : bystander p → goroutine p.

Lemma bystander_quiet p : bystander p → quiet service_inv p.
Proof.
  intros Hp. destruct Hp; unfold quiet.
  - by apply guar_then; [apply handle_guar|].
  - by apply cleanup_worker_guar.
  - by apply guar_then; [apply shutdown_guar, settles_tame|].
Qed.

Lemma wg_Done_inv w : service_inv w → service_inv (set_workers (pred (w_workers w)) w).
Proof. intros [? ? ? ? Hw]. split; try done. cbn. intros Hin. by rewrite (Hw Hin). Qed.

Lemma goroutine_safe p : goroutine p → safe service_inv p.
Proof.
  intros Hp. apply (safe_post_safe _ (λ _, True)). destruct Hp as [n|p Hp].
  - eapply safe_post_bind; [apply worker_loop_safe|]. intros [] _; [|done].
    apply safe_post_atomic. intros w Hw. split; [by apply wg_Done_inv|done].
  - by eapply guar_safe_post, bystander_quiet.
Qed.

Lemma initial_inv s : (0 <= ac_QueueSize cfg)%Z → service_inv (initial_world s).
Proof.
  intros Hq. unfold initial_world, NewMemoryStore, NewInMemoryService. split; cbn; [apply keyed_empty| |lia| |by intros ?%elem_of_nil];
    intros ?? E; by rewrite lookup_empty in E.
Qed.

(** In every interleaving of any number of requests, workers, cleanup
    sweeps and a shutdown, starting from a fresh process with any files on
    disk: every record is filed under its own ID and is well formed (a
    validated name, folder ID and export type; completed only with a token,
    completion time and an expiry exactly [Expiry] later; failed only with
    one of four fixed messages, and never any other message, so no internal
    error text reaches a client; never "expired"), the queue stays within its
    capacity, and every stored token is the encoding of random bytes. *)
Theorem service_invariant s ths w :
  (0 <= ac_QueueSize cfg)%Z →
  rtc (step goroutine) ([], initial_world s) (ths, w) → service_inv w.
Proof.
  intros Hq Hr. destruct (safe_interleaving goroutine service_inv [] (initial_world s) ths w) as [Hi _];
    [apply goroutine_safe|done|by apply initial_inv|constructor|done].
Qed.

(** ** The pool and the shutdown *)

(** The pool as [run] builds it. *)
Abbreviation pool := (worker_NewPool cfg (ac_Workers cfg)).

Lemma Pool_Run_conf fuel ths w :
  Pool_Run pool fuel (ths, w) =
    let n := Z.to_nat (ac_Workers cfg) in
    (ths ++ replicate n (worker cfg fuel), Nat.iter n wg_Add w).
Proof.
  unfold Pool_Run. cbn [pool pl_workers pl_svc worker_NewPool]. cbn zeta. induction (Z.to_nat (ac_Workers cfg)) as [|n IH].
  - cbn. by rewrite app_nil_r.
  - rewrite Nat.iter_succ, IH. cbn [fst snd]. by rewrite <- app_assoc, <- replicate_S_end.
Qed.

Lemma wg_Add_iter n w : w_workers (Nat.iter n wg_Add w) = n + w_workers w ∧
  w_jobs (Nat.iter n wg_Add w) = w_jobs w ∧ w_trace (Nat.iter n wg_Add w) = w_trace w.
Proof.
  induction n as [|n IH]; [done|]. rewrite Nat.iter_succ. destruct IH as (E & <- & <-). split_and!; [|done|done].
  change (S (w_workers (Nat.iter n wg_Add w)) = S (n + w_workers w)). by rewrite E.
Qed.

Lemma wg_Add_inv n w : service_inv w → Waited WorkersDone ∉ w_trace w → service_inv (Nat.iter n wg_Add w).
Proof.
  intros Hw Ht. induction n as [|n IH]; [done|]. destruct (wg_Add_iter n w) as (_ & _ & E).
  destruct IH as [? ? ? ? _]. split; try done. change (Waited WorkersDone ∈ w_trace (Nat.iter n wg_Add w) →
    w_workers (Nat.iter (S n) wg_Add w) = 0). rewrite E. by intros ?%Ht.
Qed.

Lemma worker_unfinished fuel : unfinished service_inv (worker cfg fuel).
Proof.
  assert (∀ n, guar service_inv (settles (λ _, True)) (λ _, True) (worker_loop cfg n)) as Hl.
  { induction n as [|n IH]; [done|]. cbn [worker_loop].
    eapply guar_bind; [apply worker_select_guar|]. intros [|id|] _; [done| |done].
    apply guar_then; [|done]. eapply guar_mono; [|done|apply ProcessJob_guar].
    intros w w' [? _]. split; [done|]. tauto. }
  eapply unfinished_bind; [apply Hl|]. intros [] _; [|done]. intros w _. right. done.
Qed.

Lemma worker_responsible fuel : responsible service_inv settled (worker cfg fuel).
Proof.
  eapply responsible_bind; [apply worker_loop_safe|apply worker_loop_responsible|].
  intros [] _; [|done]. intros w _. split; [|done]. intros id Hid. by left.
Qed.

(** The state in which the main program starts the pool. *)
Record ready (w : World) : Prop := {
  ready_inv : service_inv w;
  ready_trace : Waited WorkersDone ∉ w_trace w;
  ready_workers : w_workers w = 0;
  ready_jobs : ∀ id, settled id w
}.

Lemma pool_started fuel w others : ready w → Forall (quiet service_inv) others →
  pool_inv service_inv (Z.to_nat (ac_Workers cfg))
    ((Pool_Run pool fuel ([], w)).1 ++ others, (Pool_Run pool fuel ([], w)).2).
Proof.
  intros [Hw Ht H0 Hs] Ho. rewrite Pool_Run_conf. cbn zeta. cbn [app fst snd]. set (n := Z.to_nat (ac_Workers cfg)).
  destruct (wg_Add_iter n w) as (Ew & Ej & _). split; cbn.
  - by apply wg_Add_inv.
  - apply Forall_app. split; [apply Forall_replicate, goroutine_safe; constructor|].
    eapply Forall_impl; [exact Ho|]. intros p Hp. by eapply safe_post_safe, guar_safe_post.
  - intros i p Hi Hl. rewrite lookup_app_l in Hl by (by rewrite length_replicate).
    apply lookup_replicate in Hl as [-> _]. split; [apply worker_responsible|apply worker_unfinished].
  - intros i p Hi [[_ ?]%lookup_replicate|[_ Hl]]%lookup_app_Some; [lia|]. by eapply Forall_lookup_1.
  - rewrite length_app, length_replicate. lia.
  - intros id. left. intros j. rewrite Ej. apply Hs.
  - exists ∅. rewrite size_empty. split; [set_solver|]. lia.
Qed.

(** What an observer of a reachable state learns about the jobs. *)
Lemma pool_reachable spawnable n c ths w :
  (∀ p, spawnable p → quiet service_inv p) → rtc (step spawnable) c (ths, w) → pool_inv service_inv n c →
  service_inv w ∧
  (∀ id j, w_jobs w !! id = Some j → job_Status j = JobStatusProcessing →
     ∃ i p, i < n ∧ ths !! i = Some p ∧ obliged service_inv settled id p) ∧
  (w_workers w = 0 ∨ Waited WorkersDone ∈ w_trace w →
     ∀ id j, w_jobs w !! id = Some j → job_Status j ≠ JobStatusProcessing).
Proof.
  intros Hsp Hr Hc. assert (pool_inv service_inv n (ths, w)) as Hp by (by eapply pool_steps).
  split_and!; [apply Hp| |].
  - intros id j Hl Hs. destruct (pool_owned _ _ _ Hp id) as [Hid|?]; [|done]. by destruct (Hid j Hl).
  - intros Hz id j. apply (pool_settled _ _ _ Hp). destruct Hz as [?|Hin]; [done|].
    apply (pool_inv_state _ _ _ Hp), Hin.
Qed.

(** ** What a client can read from the event stream *)

(** Every message is one of five fixed texts, and a token is one that was
    issued. *)
Definition event_ok (e : sse_event) : Prop :=
  match e with
  | EvProgress _ => True
  | EvCompleted c => issued (ce_DownloadToken c)
  | EvError e => ee_Message e ∈ safe_messages ++ [lit "job no longer available"]
  end.

Lemma send_ok h now last j : job_wf j → Forall event_ok (send h now last j).1.1.
Proof.
  intros [_ _ _ _ _ Hs]. unfold send. destruct (job_Status j); cbn.
  1,2: case_bool_decide; [apply Forall_nil_2|by apply Forall_singleton].
  - apply Forall_singleton. destruct Hs as (_ & Hraw & _). exact Hraw.
  - apply Forall_singleton. cbn. rewrite bool_decide_false by (intros E; rewrite E in Hs; by apply (bool_decide_pack _) in Hs).
    change (job_ErrorMessage j ∈ safe_messages ++ [lit "job no longer available"]). apply elem_of_app. by left.
  - done.
Qed.

Lemma poll_loop_ok h n id : ∀ last sent, Forall event_ok sent →
  safe_post service_inv (Forall event_ok) (poll_loop h n id last sent).
Proof.
  induction n as [|n IH]; intros last sent Hs; [done|]. cbn [poll_loop].
  eapply (safe_post_bind _ (λ _, True)).
  { apply safe_post_atomic. intros w Hw. split; [|done]. by apply (service_inv_fs w). }
  intros [] _; [done|].
  eapply safe_post_bind; [eapply guar_safe_post, (jobs_Get_guar none)|]. intros [e|j] Hj.
  { case_match; [|by apply IH]. apply Forall_app. split; [done|]. apply Forall_singleton.
    unfold event_ok. apply elem_of_app. right. left. }
  destruct Hj as [Hj _].
  eapply safe_post_bind; [by apply observe_safe|]. intros now _. pose proof (send_ok h now last j Hj) as Hok.
  destruct (send h now last j) as [[evs done] last']. cbn in Hok.
  assert (Forall event_ok (sent ++ evs)) by (by apply Forall_app). destruct done; [done|by apply IH].
Qed.

(** Whatever other goroutines do while a stream is open, as long as they keep
    the invariant. *)
Lemma Events_safe h n id :
  safe_post service_inv
    (λ resp, match re_body resp with EventStream evs => Forall event_ok evs | _ => True end)
    (Events h n id).
Proof.
  unfold Events. eapply safe_post_bind; [eapply guar_safe_post, (jobs_Get_guar none)|].
  intros [e|j] Hj; [by case_match|]. destruct Hj as [Hj _].
  eapply safe_post_bind; [by apply observe_safe|]. intros now _. pose proof (send_ok h now None j Hj) as Hok.
  destruct (send h now None j) as [[evs []] last']; cbn in Hok; [done|].
  eapply safe_post_bind; [by apply poll_loop_ok|]. intros evs' H'. exact H'.
Qed.
End invariant.

(** ** Two races

    Concrete interleavings in an environment where nothing fails. *)

Definition race_crew (cfg : ArchiveConfig) : list (prog World unit) :=
  [ @cleanup_worker sample_tables service_env cfg 0 id;
    (_ ← @handle sample_tables any_uuid service_env service_repo cfg [] sample_secret 0 create_request; Ret tt);
    @worker sample_tables service_env service_repo service_fetcher cfg 1 ].

Abbreviation race_step cfg :=
  (step (@goroutine sample_tables any_uuid service_env service_repo service_fetcher busy_server cfg [] sample_secret)).

Lemma race_reachable cfg sch :
  rtc (race_step cfg) ([], initial_world empty_fs)
    (run_schedule sch (race_crew cfg, initial_world empty_fs)).
Proof.
  etransitivity; [|apply run_schedule_rtc]. apply (spawn_rtc _ (race_crew cfg) []).
  unfold race_crew. repeat apply Forall_cons_2; [do 2 constructor|do 2 constructor|constructor|apply Forall_nil_2].
Qed.

(** The sweep lists the jobs; a request is accepted and its worker opens the
    temporary file; the sweep goes on, lists the files and finds one of a job
    it does not know.  Its next action deletes that file; the worker goes on. *)
Definition stale_snapshot : list nat := [0] ++ replicate 20 1 ++ replicate 10 2 ++ replicate 2 0.
Definition after_deletion : list nat := replicate 30 0 ++ replicate 60 2.

Abbreviation race_file := (tempPath (lit "d") (lit "job-3")).

(** C36: a sweep can fail a healthy job: [sweep] takes its list of jobs before
    it lists the files, so the temporary file of a job created in between
    looks orphaned.  In an environment where no system call fails, a state is
    reachable in which the job's record says processing and is not expired and
    its temporary file exists; the next action of the cleanup worker (the
    goroutine with index 0) deletes that file and leaves the record; and from
    there a state is reachable in which the worker has failed the job. *)
Theorem sweep_deletes_file_of_new_job :
  ∃ c1 c3 j1 j3 i, rtc (race_step service_cfg) (race_crew service_cfg, initial_world empty_fs) c1 ∧
  let c2 := run_thread 0 c1 in
  w_jobs c1.2 !! lit "job-3" = Some j1 ∧ job_Status j1 = JobStatusProcessing ∧
  isExpired (NewCleanup (lit "d") 10 100) j1 (@env_now service_env (w_tick c1.2)) = false ∧
  fs_names (w_fs c1.2) !! race_file = Some (DFile i) ∧
  fs_names (w_fs c2.2) !! race_file = None ∧ w_jobs c2.2 !! lit "job-3" = Some j1 ∧
  (∀ t, @env_fault service_env t = None) ∧
  rtc (race_step service_cfg) c2 c3 ∧ w_jobs c3.2 !! lit "job-3" = Some j3 ∧
  job_Status j3 = JobStatusFailed ∧ job_ErrorMessage j3 = lit "failed to generate archive".
Proof.
  set (c1 := run_schedule stale_snapshot (race_crew service_cfg, initial_world empty_fs)).
  set (c3 := run_schedule after_deletion (run_thread 0 c1)).
  destruct (w_jobs c1.2 !! lit "job-3") as [j1|] eqn:E1; [|exfalso; revert E1; by vm_compute].
  destruct (w_jobs c3.2 !! lit "job-3") as [j3|] eqn:E3; [|exfalso; revert E3; by vm_compute].
  exists c1, c3, j1, j3, 0. cbv zeta.
  assert (w_jobs (run_thread 0 c1).2 = w_jobs c1.2) as Ej by (vm_compute; reflexivity).
  rewrite Ej. split_and!; [apply run_schedule_rtc|done|..|done| |apply run_schedule_rtc|done| |].
  - revert E1. vm_compute. by intros [= <-].
  - revert E1. vm_compute. by intros [= <-].
  - by vm_compute.
  - by vm_compute.
  - by intros t.
  - revert E3. vm_compute. by intros [= <-].
  - revert E3. vm_compute. by intros [= <-].
Qed.

(** A job that takes longer than [Expiry]: the sweep removes it while its
    worker is still generating the archive. *)
Definition hasty_cfg : ArchiveConfig := mkArchiveConfig (lit "d") 10 5 1 1 10 1.
Definition slow_job : list nat := replicate 20 1 ++ replicate 8 2 ++ replicate 30 0 ++ replicate 60 2.

(** C37: a job whose processing outlasts [Expiry] loses its record to the
    sweep while it runs; [completeJob] then still issues a token before its
    update of the record fails.  A reachable state, with every goroutine
    finished, has a token for a job that does not exist, and the next sweep
    leaves that token in place: nothing ever revokes it. *)
Theorem token_outlives_removed_job :
  ∃ ths w tok e, rtc (race_step hasty_cfg) ([], initial_world empty_fs) (ths, w) ∧
  Forall (λ p, p = Ret tt) ths ∧
  w_tokens w !! tok = Some e ∧ w_jobs w !! ent_jobID e = None ∧
  w_tokens (run (@sweep sample_tables service_env (NewCleanup (lit "d") 1 5) id) w).2 !! tok = Some e.
Proof.
  pose proof (race_reachable hasty_cfg slow_job) as Hr. set (c := run_schedule _ _) in *.
  assert (c.1 = [Ret tt; Ret tt; Ret tt]) as Hf by (by vm_compute).
  exists c.1, c.2, (EncodeToString (replicate 32 (chr 28))), (mkEntry (lit "job-3") 1033).
  split_and!; [by destruct c|rewrite Hf; by repeat constructor|by vm_compute..].
Qed.

(** ** A concrete interleaving *)

Lemma service_invariant_witness :
  @service_inv any_uuid service_env service_cfg
    (run_schedule stale_snapshot (race_crew service_cfg, initial_world empty_fs)).2.
Proof.
  eapply (@service_invariant sample_tables any_uuid service_env service_repo service_fetcher busy_server
    service_cfg [] sample_secret empty_fs (run_schedule stale_snapshot (race_crew service_cfg, initial_world empty_fs)).1); [done|].
  rewrite <- surjective_pairing. apply race_reachable.
Defined.
