(* ===== verification/Main.v ===== *)
(** * The main program (cmd/server/main.go, internal/repository/postgres.go)

    [startup] is [run] up to its [go] statements, [main_running] the rest of
    it, and [boot] the goroutines of the process in between.  The process
    environment, [pgx], the TCP listener and the signals are the parameter
    [Host]. *)

From S2P Require Import Prelude GoString GoPath GoError Model Json Wire Config Logger Sanitize Validate Manifest Prog.
From S2P Require Import JobStore Token FS Sql World Storage Writer Repository Client Generator Service HttpMsg ServeContent Http Process.
From S2P Require Import Interference Cleanup Worker Shutdown Concurrency.

(** [pgxpool.Config]; [pc_conn] is what the URL says. *)
Record PoolConfig := mkPoolConfig {
  pc_conn : str;
  pc_MaxConns : Z;
  pc_MinConns : Z;
  pc_MaxConnLifetime : duration;
  pc_MaxConnIdleTime : duration
}.

(** How [httpServer.Serve] returned. *)
Inductive serve_result := ServeFailed (err : error) | ErrServerClosed | ServeNil.

Class Host := {
  host_dotenv : error + gmap str str;              (* godotenv.Load *)
  host_environ : gmap str str;
  pgx_ParseConfig : str → error + PoolConfig;
  pgx_NewWithConfig : PoolConfig → option error;
  pgx_Ping : nat → option error;
  host_listen : str → option error;                (* net.Listen *)
  host_signal : nat → bool;                        (* SIGINT or SIGTERM arrived *)
  host_serve : nat → option serve_result           (* Serve has returned *)
}.

Section main.
Context {UT : UnicodeTables} {UL : UuidLib} {URL : UrlLib} {ENV : Env} {COL : Collation}.
Context {SRV : HttpServer} {HOST : Host}.

(** ** Start *)

Definition NewPool (cfg : DatabaseConfig) : prog World (error + unit) :=
  match pgx_ParseConfig (dc_URL cfg) with
  | inl err => Ret (inl (Errorf_w (lit "parse database url: ") err []))
  | inr poolCfg =>
      let poolCfg := mkPoolConfig (pc_conn poolCfg) (dc_MaxConns cfg) (dc_MinConns cfg)
                       (dc_MaxConnLifetime cfg) (dc_MaxConnIdleTime cfg) in
      match pgx_NewWithConfig poolCfg with
      | Some err => Ret (inl (Errorf_w (lit "create connection pool: ") err []))
      | None =>
          _ ← event (Acquired DatabasePool);
          _ ← event (Acquired PingContext);
          r ← observe pgx_Ping;
          match r with
          | Some err =>
              _ ← event (Released DatabasePool);
              _ ← event (Released PingContext);
              Ret (inl (Errorf_w (lit "ping database: ") err []))
          | None => _ ← event (Released PingContext); Ret (inr tt)
          end
      end
  end.

(** [run] until the worker pool starts: the calls deferred so far, latest
    first, and the settings with the storage client, or the error [run]
    returns. *)
Definition startup : prog World (list resource * (error + (Config * httpStorageClient))) :=
  match Load host_dotenv host_environ with
  | inl err => Ret ([], inl (Errorf_w (lit "load config: ") err []))
  | inr cfg =>
      match logger_New (c_Log cfg) with
      | inl err => Ret ([], inl (Errorf_w (lit "init logger: ") err []))
      | inr _ =>
          _ ← event (Acquired LogOutput);
          _ ← log_Info (lit "starting archive service");
          _ ← event (Acquired SignalHandler);
          r ← NewPool (c_Database cfg);
          match r with
          | inl err => Ret ([SignalHandler; LogOutput], inl (Errorf_w (lit "connect to database: ") err []))
          | inr _ =>
              _ ← log_Info (lit "connected to database");
              r ← NewLocalArchiveStorage (ac_TempDir (c_Archive cfg));
              match r with
              | inl err => Ret ([DatabasePool; SignalHandler; LogOutput],
                                inl (Errorf_w (lit "init archive storage: ") err []))
              | inr _ =>
                  r ← ListServers;
                  match r with
                  | inl err => Ret ([DatabasePool; SignalHandler; LogOutput],
                                    inl (Errorf_w (lit "load storage servers: ") err []))
                  | inr storageServers =>
                      _ ← match storageServers with
                          | [] => log_Warn (lit "no storage servers found; archive jobs referencing file data will fail")
                          | _ => Ret tt
                          end;
                      _ ← log_Info (lit "loaded storage servers from database");
                      _ ← atomic (λ w, (tt, service_New (set_tokens NewInMemoryService (set_jobs NewMemoryStore w))));
                      _ ← event (Acquired ShutdownContext);
                      Ret ([ShutdownContext; DatabasePool; SignalHandler; LogOutput],
                           inr (cfg, NewHTTPStorageClient (server_map storageServers) (stc_RequestTimeout (c_Storage cfg))))
                  end
              end
          end
      end
  end.

(** ** Running *)

(** The [select] [run] blocks in; the goroutine around [Serve] sends no
    error when the server was closed.  At most [fuel] looks. *)
Definition server_error (r : serve_result) : option error :=
  match r with ServeFailed err => Some err | _ => None end.

Inductive main_case := SignalReceived | ServerStopped (err : option error).

Fixpoint main_select (fuel : nat) : prog World (option main_case) :=
  match fuel with
  | O => Ret None
  | S fuel' =>
      r ← observe (λ t, (host_signal t, host_serve t, env_select t));
      match r with
      | (true, None, _) | (true, Some _, true) => Ret (Some SignalReceived)
      | (_, Some res, _) => Ret (Some (ServerStopped (server_error res)))
      | (false, None, _) => main_select fuel'
      end
  end.

(** [run] after its [go] statements: what it returns. *)
Definition main_serving (fuel : nat) (cfg : Config) : prog World (option (option error)) :=
  let addr := Addr (c_Server cfg) in
  match host_listen addr with
  | Some err => Ret (Some (Some (Errorf_w (lit "listen on " ++ addr ++ lit ": ") err [])))
  | None =>
      _ ← event (Listening addr);
      _ ← log_Info (lit "http server listening");
      r ← main_select fuel;
      match r with
      | None => Ret None
      | Some (ServerStopped err) =>
          _ ← match err with
              | Some _ => log_Error (lit "http server failed")
              | None => Ret tt
              end;
          Ret (Some err)
      | Some SignalReceived =>
          _ ← log_Info (lit "shutdown signal received");
          returned ← shutdown fuel (sv_ShutdownTimeout (c_Server cfg));
          Ret (if (returned : bool) then Some None else None)
      end
  end.

(** ** Return *)

(** The deferred calls. *)
Definition release (r : resource) : prog World unit :=
  _ ← match r with ShutdownContext => cancelShutdown | _ => Ret tt end;
  event (Released r).

Fixpoint release_all (deferred : list resource) : prog World unit :=
  match deferred with
  | [] => Ret tt
  | r :: deferred' => _ ← release r; release_all deferred'
  end.

(** [main] once [run] returned [err]. *)
Definition exit_status (err : option error) : Z := match err with Some _ => 1 | None => 0 end.

Definition exit (deferred : list resource) (err : option error) : prog World unit :=
  _ ← release_all deferred;
  event (Exited (exit_status err)).

(** The main goroutine once the others are started. *)
Definition main_running (fuel : nat) (cfg : Config) (deferred : list resource)
    : prog World (option (option error)) :=
  r ← main_serving fuel cfg;
  match r with
  | None => Ret None
  | Some err => _ ← exit deferred err; Ret (Some err)
  end.

(** The whole of it, [go] statements as events: what [run] returned, or
    [None] when [fuel] looks were not enough for a wait. *)
Definition main (fuel : nat) : prog World (option (option error)) :=
  '(deferred, r) ← startup;
  match r with
  | inl err => _ ← exit deferred (Some err); Ret (Some (Some err))
  | inr (cfg, _) =>
      _ ← event (StartedWorkers (Z.to_nat (ac_Workers (c_Archive cfg))));
      _ ← event StartedCleanup;
      main_running fuel cfg deferred
  end.

(** ** The process

    The goroutines once [startup] succeeded in a state [w]: the workers, the
    cleanup worker and the main goroutine. *)
Section process.
Context (cfg : Config) (storageClient : httpStorageClient) (deferred : list resource) (fuel : nat).

Definition process_repo : ArchiveRepository := pgArchiveRepository fuel.
Definition process_fetcher : FileFetcher := StorageFetcher (SC := httpStorageClient_Get storageClient).

Definition boot (order : list Job → list Job) (w : World) : conf :=
  let n := Z.to_nat (ac_Workers (c_Archive cfg)) in
  let c := @Pool_Run UT ENV process_repo process_fetcher (worker_NewPool (c_Archive cfg) (ac_Workers (c_Archive cfg))) fuel
             ([], add_event StartedCleanup (add_event (StartedWorkers n) w)) in
  (c.1 ++ [@cleanup_worker UT ENV (c_Archive cfg) fuel order; (_ ← main_running fuel cfg deferred; Ret tt)], c.2).

(** Requests are served by a goroutine each. *)
Definition handles (p : prog World unit) : Prop :=
  ∃ n r, p = (_ ← hs_Handler (@server_New UT UL ENV process_repo (c_Server cfg) (c_Archive cfg)) n r; Ret tt).
End process.

(** ** What [startup] leaves behind *)

Record fresh (w : World) : Prop := {
  fresh_jobs : w_jobs w = ∅;
  fresh_tokens : w_tokens w = ∅;
  fresh_queue : w_queue w = [];
  fresh_workers : w_workers w = 0;
  fresh_trace : Waited WorkersDone ∉ w_trace w
}.

Lemma fresh_fs : ignores_fs fresh.
Proof.
  intros w w' [] (E1 & E2 & E3 & _ & E5). unfold w_workers, w_trace in *.
  split; unfold w_workers, w_trace; by rewrite ?E1, ?E2, ?E3, ?E5.
Qed.
#[local] Hint Resolve fresh_fs : core.

Lemma fresh_event e : e ≠ Waited WorkersDone → safe_post fresh (λ _, True) (event e).
Proof.
  intros He. apply safe_post_atomic. intros w []. split; [|done]. split; try done.
  cbn. intros [?|?%list_elem_of_singleton]%elem_of_app; auto.
Qed.

Lemma NewPool_fresh cfg : safe_post fresh (λ _, True) (NewPool cfg).
Proof.
  unfold NewPool. destruct (pgx_ParseConfig _); [done|]. cbn zeta. case_match; [done|].
  do 2 (eapply safe_post_bind; [by apply fresh_event|]; intros _ _).
  eapply safe_post_bind; [by apply observe_safe|].
  intros [e|] _; repeat (eapply safe_post_bind; [by apply fresh_event|]; intros _ _); done.
Qed.

Lemma startup_fresh :
  safe_post fresh (λ r, match r.2 with inl _ => True | inr (cfg, _) => valid cfg end) startup.
Proof.
  unfold startup. destruct (Load _ _) as [e|cfg] eqn:Hcfg; [done|]. apply Load_validated in Hcfg.
  destruct (logger_New _); [done|]. do 3 (eapply safe_post_bind; [by apply fresh_event|]; intros _ _).
  eapply safe_post_bind; [apply NewPool_fresh|]. intros [e|_] _; [done|].
  eapply safe_post_bind; [by apply fresh_event|]. intros _ _.
  eapply (safe_post_bind _ (λ _, True)); [by eapply safe_post_bind; [by apply syscall_safe|]|].
  intros [e|_] _; [done|].
  eapply safe_post_bind; [apply (observer_safe _ fresh_fs), ListServers_observer|]. intros [e|servers] _; [done|].
  eapply (safe_post_bind _ (λ _, True)); [by destruct servers; [apply fresh_event|]|]. intros _ _.
  eapply safe_post_bind; [by apply fresh_event|]. intros _ _.
  eapply (safe_post_bind _ (λ _, True)); [by apply safe_post_atomic; intros w []|]. intros _ _.
  by eapply safe_post_bind; [by apply fresh_event|].
Qed.

Lemma fresh_ready cfg w : valid cfg → fresh w → ready (c_Archive cfg) w.
Proof.
  intros (_ & _ & _ & _ & _ & Hq & _) [Ej Et Eq Ew Htr]. split; try done.
  - split; rewrite ?Ej, ?Et, ?Eq; cbn; [apply keyed_empty| |lia| |done]; intros ?? E; by rewrite lookup_empty in E.
  - intros id j. by rewrite Ej, lookup_empty.
Qed.

(** ** The process keeps its invariants *)

Section process_facts.
Context (cfg : Config) (storageClient : httpStorageClient) (deferred : list resource) (fuel : nat).
#[local] Existing Instance process_repo | 0.
#[local] Instance facts_fetcher : FileFetcher := process_fetcher storageClient.

Abbreviation inv := (service_inv (c_Archive cfg)).
Context {G : World → World → Prop} (HG : tame G).

Lemma main_select_guar n : guar inv G (λ _, True) (main_select n).
Proof using HG.
  induction n as [|n IH]; [done|]. cbn [main_select].
  eapply guar_bind; [apply observe_guar; [apply service_inv_fs|by intros; apply tame_disk]|].
  by intros [[[] [res|]] []] _.
Qed.

Lemma cancelShutdown_guar : guar inv G (λ _, True) cancelShutdown.
Proof using HG. apply tame_guar; [done|]. intros w [? ? ? ?]. split_and!; [by split|done..]. Qed.

Lemma exit_guar err : guar inv G (λ _, True) (exit deferred err).
Proof using HG.
  apply guar_then; [|by apply (event_guar _ HG)]. induction deferred as [|r l IH]; [done|]. cbn [release_all].
  apply guar_then; [|done]. apply guar_then; [|by apply (event_guar _ HG)].
  destruct r; try done. apply cancelShutdown_guar.
Qed.

Lemma main_running_guar : guar inv G (λ _, True) (_ ← main_running fuel cfg deferred; Ret tt).
Proof using HG.
  apply guar_then; [|done]. apply (guar_bind _ _ (λ _, True));
    [|by intros [err|] _; [apply guar_then; [apply exit_guar|]|]].
  unfold main_serving. cbn zeta. case_match; [done|].
  do 2 (apply guar_then; [by apply (event_guar _ HG)|]).
  eapply guar_bind; [apply main_select_guar|]. intros [[|err]|] _; [| |done].
  - apply guar_then; [by apply (event_guar _ HG)|]. by eapply guar_bind; [apply (shutdown_guar _ HG)|].
  - apply guar_then; [by destruct err; [apply (event_guar _ HG)|]|done].
Qed.
End process_facts.

(** After a successful start-up nothing has happened yet. *)
Lemma startup_ready s deferred cfg storageClient w0 :
  run startup (initial_world s) = ((deferred, inr (cfg, storageClient)), w0) → valid cfg ∧ fresh w0.
Proof.
  intros Hst. destruct (safe_post_run fresh _ startup (initial_world s) startup_fresh) as [Hf Hv].
  { split; try done. by intros ?%elem_of_nil. }
  by rewrite Hst in Hf, Hv.
Qed.

Lemma boot_pool cfg storageClient deferred fuel order w0 : valid cfg → fresh w0 →
  pool_inv (service_inv (c_Archive cfg)) (Z.to_nat (ac_Workers (c_Archive cfg)))
    (boot cfg storageClient deferred fuel order w0).
Proof.
  intros Hv Hf. apply (@pool_started UT UL ENV (process_repo fuel) (process_fetcher storageClient) SRV (c_Archive cfg)
    (sv_PublicBaseURL (c_Server cfg)) (sv_SelfAPIToken (c_Server cfg))).
  - apply fresh_ready; [done|]. destruct Hf. split; try done. cbn. rewrite !elem_of_app, !list_elem_of_singleton. naive_solver.
  - repeat apply Forall_cons_2; [by apply cleanup_worker_guar, settles_tame|by apply main_running_guar, settles_tame|apply Forall_nil_2].
Qed.

Lemma handles_bystander cfg fuel p : handles cfg fuel p →
  @bystander UT UL ENV (process_repo fuel) SRV (c_Archive cfg) (sv_PublicBaseURL (c_Server cfg)) (sv_SelfAPIToken (c_Server cfg)) p.
Proof. intros (n & r & ->). constructor. Qed.

(** C4: the whole process: whatever the environment, once [startup] succeeds
    every interleaving of the configured workers, the cleanup worker, the main
    goroutine with its shutdown and any requests keeps the service's
    invariant (every record is filed under its own ID and well formed: a
    validated name, folder ID and export type, counters that are 64-bit
    integers, completed only with a token, completion time and an expiry
    exactly [Expiry] later, failed only with one of four fixed messages, never
    "expired"; the queue is within its capacity; every stored token encodes
    bytes the random source delivered); each record marked as processing belongs to a worker obliged
    to complete, fail or find it removed; and when the wait group is at zero,
    and whenever the shutdown saw the workers end before its deadline, no
    record is left as processing. *)
Theorem process_sound s fuel order deferred cfg storageClient w0 ths w :
  run startup (initial_world s) = ((deferred, inr (cfg, storageClient)), w0) →
  rtc (step (handles cfg fuel)) (boot cfg storageClient deferred fuel order w0) (ths, w) →
  service_inv (c_Archive cfg) w ∧
  (∀ id j, w_jobs w !! id = Some j → job_Status j = JobStatusProcessing →
     ∃ i p, i < Z.to_nat (ac_Workers (c_Archive cfg)) ∧ ths !! i = Some p ∧
       obliged (service_inv (c_Archive cfg)) settled id p) ∧
  (w_workers w = 0 ∨ Waited WorkersDone ∈ w_trace w →
     ∀ id j, w_jobs w !! id = Some j → job_Status j ≠ JobStatusProcessing).
Proof.
  intros [Hv Hf]%startup_ready Hr. eapply pool_reachable; [|exact Hr|by apply boot_pool].
  intros p Hp. eapply bystander_quiet. by apply handles_bystander.
Qed.

(** C31: an event stream tells its client nothing internal: from a successful
    start-up, in every interleaving of the process with a stream opened at any
    moment for any job ID, every error event the client is sent carries one of
    five fixed texts, and every completed event a token that is the encoding of
    bytes the random source delivered. *)
Theorem Events_no_leak s fuel order deferred cfg storageClient w0 h n id resp c :
  run startup (initial_world s) = ((deferred, inr (cfg, storageClient)), w0) →
  rtc (watch_step (handles cfg fuel)) (Events h n id, boot cfg storageClient deferred fuel order w0) (Ret resp, c) →
  match re_body resp with EventStream evs => Forall event_ok evs | _ => True end.
Proof.
  intros [Hv Hf]%startup_ready Hr. pose proof (boot_pool cfg storageClient deferred fuel order w0 Hv Hf) as Hp.
  rewrite (surjective_pairing (boot _ _ _ _ _ _)) in Hr. revert Hr.
  apply (watched_post _ (service_inv (c_Archive cfg))
    (λ resp, match re_body resp with EventStream evs => Forall event_ok evs | _ => True end)).
  - intros p Hp'%handles_bystander. by eapply safe_post_safe, guar_safe_post, bystander_quiet.
  - apply (pool_inv_state _ _ _ Hp).
  - apply (pool_safe _ _ _ Hp).
  - apply Events_safe.
Qed.

(** ** Resources *)

(** The resources held after a sequence of events, latest first; [None] when
    one is released that is not the latest.  Only the context of the ping, whose
    cancellation [NewPool] defers, may be outlived by it: a pool that does not
    answer is closed first. *)
Definition resource_step (held : option (list resource)) (e : main_event) : option (list resource) :=
  match e, held with
  | Acquired r, Some held => Some (r :: held)
  | Released r, Some (r' :: held) =>
      if bool_decide (r = r') then Some held
      else match r', held with
           | PingContext, r'' :: held' => if bool_decide (r = r'') then Some (PingContext :: held') else None
           | _, _ => None
           end
  | Released _, _ => None
  | _, held => held
  end.
Definition held_resources (tr : list main_event) : option (list resource) := foldl resource_step (Some []) tr.

(** Every run of [p] from the trace [tr], with other goroutines that leave
    the trace alone, ends with a trace and a result in [Q]. *)
Fixpoint traced {A} (Q : list main_event → A → Prop) (tr : list main_event) (p : prog World A) : Prop :=
  match p with
  | Ret a => Q tr a
  | Atomic f k => ∀ w, w_trace w = tr → traced Q (w_trace (f w).2) (k (f w).1)
  end.

Lemma traced_bind {A B} (Q : list main_event → A → Prop) (R : list main_event → B → Prop) tr (p : prog World A) k :
  traced Q tr p → (∀ tr' a, Q tr' a → traced R tr' (k a)) → traced R tr (p ≫= k).
Proof.
  revert tr. induction p as [a|X f k' IH]; cbn; intros tr Hp Hk; [auto|]. intros w Hw. apply IH; auto.
Qed.

Lemma traced_mono {A} (Q R : list main_event → A → Prop) tr (p : prog World A) :
  traced Q tr p → (∀ tr' a, Q tr' a → R tr' a) → traced R tr p.
Proof. revert tr. induction p as [a|X f k IH]; cbn; intros tr Hp HQ; [auto|]. intros w Hw. apply IH; auto. Qed.

(** Programs that record nothing. *)
Lemma traced_reader {A} tr (p : prog World A) : reader p → traced (λ tr' _, tr' = tr) tr p.
Proof.
  induction p as [a|X f k IH]; cbn; [done|]. intros Hp w Hw. destruct (Hp w) as [(_&_&_&_&_&El) Hk].
  unfold w_trace in *. rewrite El, Hw. auto.
Qed.

Lemma traced_silent {X B} R tr (f : World → X * World) (k : X → prog World B) :
  (∀ w, w_trace (f w).2 = w_trace w) → (∀ x, traced R tr (k x)) → traced R tr (atomic f ≫= k).
Proof. intros Hf Hk w Hw. cbn. rewrite Hf, Hw. apply Hk. Qed.

Lemma traced_event {B} R tr e (k : unit → prog World B) :
  traced R (tr ++ [e]) (k tt) → traced R tr (event e ≫= k).
Proof. intros Hk w Hw. cbn. by rewrite Hw. Qed.

Lemma traced_last (R : list main_event → unit → Prop) tr e : R (tr ++ [e]) tt → traced R tr (event e).
Proof. intros HR w Hw. cbn. by rewrite Hw. Qed.

Lemma held_app tr e : held_resources (tr ++ [e]) = resource_step (held_resources tr) e.
Proof. unfold held_resources. by rewrite foldl_app. Qed.

(** No server is started. *)
Definition offline (tr : list main_event) : Prop :=
  ∀ e, e ∈ tr → match e with StartedWorkers _ | StartedCleanup | Listening _ => False | _ => True end.

Lemma offline_app tr e : offline tr → offline [e] → offline (tr ++ [e]).
Proof. intros H1 H2 e' [Hi|Hi]%elem_of_app; [exact (H1 e' Hi)|exact (H2 e' Hi)]. Qed.

Definition holding (held : list resource) (tr : list main_event) : Prop :=
  held_resources tr = Some held ∧ offline tr.

Lemma holding_event {B} R held tr e (k : unit → prog World B) held' :
  holding held tr → resource_step (Some held) e = Some held' → offline [e] →
  (∀ tr', holding held' tr' → traced R tr' (k tt)) → traced R tr (event e ≫= k).
Proof.
  intros [Hh Ho] Hs He Hk. apply traced_event, Hk. split; [by rewrite held_app, Hh|by apply offline_app].
Qed.

Lemma holding_last held tr e held' :
  holding held tr → resource_step (Some held) e = Some held' → offline [e] →
  traced (λ tr' _, holding held' tr') tr (event e).
Proof.
  intros [Hh Ho] Hs He. apply traced_last. split; [by rewrite held_app, Hh|by apply offline_app].
Qed.

Ltac step_event := eapply holding_event; [eassumption|reflexivity|by intros ? ->%list_elem_of_singleton|]; intros.

Lemma NewPool_holding cfg held tr :
  holding held tr →
  traced (λ tr' r, holding (match r with inl _ => held | inr _ => DatabasePool :: held end) tr') tr (NewPool cfg).
Proof.
  intros Hh. unfold NewPool. destruct (pgx_ParseConfig _); [done|]. cbn zeta. case_match; [done|]. do 2 step_event.
  apply traced_silent; [done|]. intros [e|]; by repeat step_event.
Qed.

Lemma startup_holding : traced (λ tr r, holding r.1 tr) [] startup.
Proof.
  assert (holding [] []) as H0 by (split; [done|by intros e ?%elem_of_nil]).
  unfold startup. destruct (Load _ _) as [e|cfg]; [done|]. destruct (logger_New _); [done|].
  do 3 step_event. eapply traced_bind; [by apply NewPool_holding|]. intros tr3 [e|_] H3; [done|].
  step_event. eapply traced_bind; [by apply traced_reader, reader_bind; [intros w|]|]. intros tr5 [e|_] E5; [by subst|]. subst tr5.
  eapply traced_bind; [apply traced_reader, observer_reader, ListServers_observer|].
  intros tr6 [e|servers] E6; [by subst|]. subst tr6.
  eapply (traced_bind (λ tr' _, holding [DatabasePool; SignalHandler; LogOutput] tr')).
  { destruct servers; [|done]. eapply holding_last; [eassumption|done|]. by intros ? ->%list_elem_of_singleton. }
  intros tr7 _ H7. step_event. apply traced_silent; [done|]. intros _. by step_event.
Qed.

(** Waiting and logging acquire nothing. *)
Definition holds (held : list resource) (tr : list main_event) : Prop := held_resources tr = Some held.

Lemma holds_event {B} R held tr e (k : unit → prog World B) held' :
  holds held tr → resource_step (Some held) e = Some held' →
  (∀ tr', holds held' tr' → traced R tr' (k tt)) → traced R tr (event e ≫= k).
Proof. intros Hh Hs Hk. apply traced_event, Hk. unfold holds in *. by rewrite held_app, Hh. Qed.

Ltac step_log := eapply holds_event; [eassumption|reflexivity|]; intros.

Lemma wait_for_holds n c ready deadline held tr :
  holds held tr → traced (λ tr' _, holds held tr') tr (wait_for n c ready deadline).
Proof.
  revert tr. induction n as [|n IH]; intros tr Hh; [done|]. cbn. intros w Hw.
  assert (∀ c', holds held (w_trace w ++ [Waited c'])) as Hc
    by (intros c'; unfold holds in *; by rewrite held_app, Hw, Hh).
  destruct (ready w && env_select (w_tick w)); cbn; [apply Hc|]. destruct (_ <=? _)%Z; cbn; [apply Hc|].
  apply IH. change (holds held (w_trace w)). by rewrite Hw.
Qed.

Lemma shutdown_holds n timeout held tr :
  holds held tr → traced (λ tr' r, r = true → holds held tr') tr (shutdown n timeout).
Proof.
  intros Hh. unfold shutdown. apply traced_silent; [done|]. intros now. cbn zeta. step_log.
  do 2 (apply traced_silent; [done|]; intros _).
  eapply traced_bind; [by apply wait_for_holds|]. intros tr2 [c|] H2; [|done].
  apply (traced_bind (λ tr' _, holds (TimeoutContext :: held) tr')).
  { destruct c; apply traced_last; unfold holds in *; by rewrite held_app, H2. }
  intros tr3 _ H3. eapply traced_bind; [by apply wait_for_holds|]. intros tr4 [c'|] H4; [|done].
  apply (traced_bind (λ tr' _, holds (TimeoutContext :: held) tr')).
  { eapply traced_bind; [by apply wait_for_holds|]. done. }
  intros tr5 [err|] H5; [|done]. apply (traced_bind (λ tr' _, holds (TimeoutContext :: held) tr')).
  { destruct err; [|done]. apply traced_last. unfold holds in *. by rewrite held_app, H5. }
  intros tr6 _ H6. step_log. step_log. intros _. assumption.
Qed.

Lemma main_serving_holds n cfg held tr :
  holds held tr → traced (λ tr' r, r ≠ None → holds held tr') tr (main_serving n cfg).
Proof.
  intros Hh. unfold main_serving. cbn zeta. case_match; [by intros _|]. do 2 step_log.
  apply (traced_bind (λ tr' _, holds held tr')).
  { assert (∀ m, reader (main_select m)) as Hr; [|eapply traced_mono; [by apply traced_reader|by intros ?? ->]].
    induction m as [|m IH]; [done|]. cbn [main_select]. apply reader_bind; [apply reader_observe|].
    by intros [[[] [res|]] []]. }
  intros tr3 [[|err]|] H3; [| |by intros []].
  - step_log. eapply traced_bind; [by apply shutdown_holds|]. intros tr5 [] H5; [|by intros []]. intros _. by apply H5.
  - apply (traced_bind (λ tr' _, holds held tr')); [|by intros ? _ ? _]. destruct err; [|done].
    apply traced_last. unfold holds in *. by rewrite held_app, H3.
Qed.

(** The exit status is recorded last, with nothing held. *)
Definition released (status : Z) (tr : list main_event) : Prop :=
  ∃ tr', tr = tr' ++ [Exited status] ∧ holds [] tr'.

Lemma exit_released deferred err tr :
  holds deferred tr →
  traced (λ tr' _, released (exit_status err) tr' ∧ (offline tr → offline tr'))
    tr (exit deferred err).
Proof.
  intros Hh. apply (traced_bind (λ tr' _, holds [] tr' ∧ (offline tr → offline tr'))).
  - revert tr Hh. induction deferred as [|r l IH]; intros tr Hh; [done|]. cbn [release_all].
    assert (traced (λ tr' _, tr' = tr ++ [Released r]) tr (release r)) as Hr.
    { eapply (traced_bind (λ tr' _, tr' = tr)); [by destruct r; try done; intros w Hw; cbn|].
      intros ? _ ->. by apply traced_last. }
    eapply traced_bind; [exact Hr|]. intros ? _ ->. eapply traced_mono; [apply IH|].
    + unfold holds in *. rewrite held_app, Hh. cbn. by rewrite bool_decide_true.
    + intros tr' _ [? Ho]. split; [done|]. intros H0. apply Ho, offline_app; [done|].
      by intros ? ->%list_elem_of_singleton.
  - intros tr' _ [H' Ho]. apply traced_last. split; [by exists tr'|]. intros H0.
    apply offline_app; [auto|]. by intros ? ->%list_elem_of_singleton.
Qed.

(** C13: the main program releases what it acquired on every path: whatever
    the environment and the other goroutines do, when [main] ends (by a failed
    start, a failed listener or server, or a shutdown) the log output, the
    signal handler, the database pool and the three contexts it acquired have
    each been released once, in the reverse order (but for a pool that does not
    answer its ping, closed just before the ping's context), before it exits with the status
    of its error; and a start that fails exits with status 1 without having
    started a worker, the cleanup or the listener. *)
Theorem main_releases fuel :
  traced (λ tr r, match r with Some err => released (exit_status err) tr | None => True end) [] (main fuel) ∧
  traced (λ tr r, offline tr ∧ ∀ err, r.2 = inl err →
    traced (λ tr' _, released 1 tr' ∧ offline tr') tr (exit r.1 (Some err))) [] startup.
Proof.
  split.
  - unfold main. eapply traced_bind; [apply startup_holding|]. intros tr [deferred [e|[cfg storageClient]]] [Hh Ho].
    + eapply traced_bind; [by apply exit_released|]. by intros tr' _ [? _].
    + change (holds deferred tr) in Hh. do 2 step_log.
      eapply traced_bind; [by apply main_serving_holds|]. intros tr3 [err|] H'; [|done].
      eapply traced_bind; [by apply exit_released, H'|]. by intros tr2 _ [? _].
  - eapply traced_mono; [apply startup_holding|]. intros tr [deferred r] [Hh Ho]. split; [done|]. cbn. intros err ->.
    eapply traced_mono; [by apply (exit_released _ (Some err))|]. intros tr' _ [? ?]. auto.
Qed.
End main.

(** ** A concrete process: one worker, a request, a signal *)

Definition sample_host : Host := {|
  host_dotenv := no_dotenv;
  host_environ := {[ lit "DATABASE_URL" := lit "postgres://db"; lit "SELF_API_TOKEN" := sample_secret;
                     lit "ARCHIVE_TEMP_DIR" := lit "d"; lit "ARCHIVE_WORKERS" := lit "1" ]};
  pgx_ParseConfig := λ u, inr (mkPoolConfig u 4 0 0%Z 0%Z);
  pgx_NewWithConfig := λ _, None;
  pgx_Ping := λ _, None;
  host_listen := λ _, None;
  host_signal := λ _, true;
  host_serve := λ _, None
|}.

Definition sample_startup := @startup sample_tables no_urls service_env c_collation sample_host.
Definition started : World := (run sample_startup (initial_world empty_fs)).2.
Definition started_cfg : Config :=
  match (run sample_startup (initial_world empty_fs)).1.2 with
  | inr (cfg, _) => cfg
  | inl _ => mkConfig (mkAppConfig []) (Config.mkServerConfig [] 0 0 0 0 0 [] [])
               (mkDatabaseConfig [] 0 0 0 0) (mkLogConfig [] [] [] 0 0 0 false) service_cfg (mkStorageConfig 0)
  end.
Definition started_client : httpStorageClient :=
  match (run sample_startup (initial_world empty_fs)).1.2 with inr (_, c) => c | inl _ => NewHTTPStorageClient ∅ 0 end.
Definition started_deferred : list resource := [ShutdownContext; DatabasePool; SignalHandler; LogOutput].

Definition booted : conf :=
  @boot sample_tables service_env c_collation busy_server sample_host started_cfg started_client started_deferred
    50 id started.

(** The process with one request. *)
Definition crew : conf :=
  (booted.1 ++ [ (_ ← hs_Handler (@server_New sample_tables any_uuid service_env
                        (@process_repo sample_tables service_env c_collation 50) (c_Server started_cfg)
                        (c_Archive started_cfg)) 0 create_request; Ret tt) ], booted.2).

Abbreviation sample_step :=
  (step (@handles sample_tables any_uuid service_env c_collation started_cfg 50)).

Lemma crew_reachable sch : rtc sample_step booted (run_schedule sch crew).
Proof.
  etransitivity; [|apply run_schedule_rtc]. unfold crew. rewrite (surjective_pairing booted) at 1.
  apply spawn_rtc, Forall_singleton. by exists 0, create_request.
Qed.

Lemma sample_started :
  run sample_startup (initial_world empty_fs) = (started_deferred, inr (started_cfg, started_client), started).
Proof. vm_compute. reflexivity. Qed.

(** The request is accepted and its job processed, the signal arrives, and
    the shutdown sees the worker end. *)
Definition graceful : conf :=
  run_schedule (replicate 20 3 ++ replicate 40 0 ++ replicate 9 2 ++ replicate 40 0 ++ replicate 9 2) crew.

(** A request that passed the check of the accepting flag before the signal
    is answered 202 although every worker has ended: its job stays queued. *)
Definition late_request : conf :=
  run_schedule (replicate 3 3 ++ replicate 8 2 ++ replicate 40 0 ++ replicate 9 2 ++ replicate 20 3) crew.

Lemma late_request_stranded :
  map (λ x, job_Status x.2) (map_to_list (w_jobs late_request.2)) = [JobStatusQueued] ∧
  w_workers late_request.2 = 0 ∧ w_accepting late_request.2 = false ∧ length (w_queue late_request.2) = 1.
Proof. by vm_compute. Qed.

Lemma process_sound_witness :
  map (λ x, job_Status x.2) (map_to_list (w_jobs graceful.2)) = [JobStatusCompleted] ∧
  ∀ id j, w_jobs graceful.2 !! id = Some j → job_Status j ≠ JobStatusProcessing.
Proof.
  split; [by vm_compute|].
  apply (@process_sound sample_tables any_uuid no_urls service_env c_collation busy_server sample_host
    empty_fs 50 id started_deferred started_cfg started_client started graceful.1 graceful.2).
  - exact sample_started.
  - rewrite <- surjective_pairing. apply crew_reachable.
  - right. apply (bool_decide_unpack _). by vm_compute.
Defined.

Lemma graceful_reachable : rtc sample_step booted graceful.
Proof. apply crew_reachable. Qed.

(** A stream opened after [graceful]: it is told of the completed job. *)
Lemma Events_no_leak_witness :
  let sh := NewSSEHandler (c_Archive started_cfg) 500000000 (ac_Expiry (c_Archive started_cfg)) [] in
  let resp := (run (@Events service_env sh 1 (lit "job-6")) graceful.2).1 in
  match re_body resp with EventStream evs => length evs = 1 ∧ Forall (@event_ok service_env) evs | _ => False end.
Proof.
  intros sh resp. assert (match re_body resp with EventStream evs => Forall (@event_ok service_env) evs | _ => True end) as H.
  { apply (@Events_no_leak sample_tables any_uuid no_urls service_env c_collation busy_server sample_host
      empty_fs 50 id started_deferred started_cfg started_client started sh 1 (lit "job-6") resp
      (graceful.1, (run (@Events service_env sh 1 (lit "job-6")) graceful.2).2)).
    - exact sample_started.
    - exact (watch_after _ (@Events service_env sh 1 (lit "job-6")) booted graceful graceful_reachable). }
  assert (match re_body resp with EventStream evs => length evs = 1 | _ => False end) as Hl by (vm_compute; reflexivity).
  by destruct (re_body resp).
Defined.
