(* ===== verification/Queue.v ===== *)
(** * The job queue (internal/service, internal/worker)

    No accepted job is lost: in every interleaving, a job whose record says
    "queued" is in the queue, or in the hands of a goroutine that will take
    it out of that state.  And a worker left alone takes the queued jobs in
    the order in which they were accepted. *)

From S2P Require Import Prelude GoString GoPath GoError Model Json Wire Config Logger Sanitize Validate Manifest Prog.
From S2P Require Import JobStore Token FS Sql World Storage Writer Repository Client Generator Service HttpMsg ServeContent Http Process.
From S2P Require Import Interference Cleanup Worker Shutdown Concurrency Main.

(** If the record of [id] says it is queued, it is. *)
Definition kept (id : str) (w : World) : Prop :=
  ∀ j, w_jobs w !! id = Some j → job_Status j = JobStatusQueued → id ∈ w_queue w.

Definition keeps (w w' : World) : Prop := ∀ id, kept id w → kept id w'.

Lemma keeps_same w w' : w_jobs w' = w_jobs w → w_queue w' = w_queue w → keeps w w'.
Proof. intros Ej Eq id. unfold kept. by rewrite Ej, Eq. Qed.

Lemma keeps_tame : tame keeps.
Proof.
  split; [intros; by apply keeps_same|]. intros id w i Hk j. cbn. rewrite lookup_delete.
  case_decide; [done|apply Hk].
Qed.
#[local] Hint Resolve keeps_tame : core.

(** Storing a record that does not say "queued" leaves its job well. *)
Lemma kept_stored j w : job_Status j ≠ JobStatusQueued → kept (job_ID j) (set_jobs (store_Update j (w_jobs w)).2 w).
Proof.
  intros Hs. unfold store_Update. destruct (w_jobs w !! job_ID j) eqn:E; intros j'; cbn.
  - rewrite lookup_insert_eq. by intros [= <-].
  - by rewrite E.
Qed.

Lemma keeps_stored j w : job_Status j ≠ JobStatusQueued → keeps w (set_jobs (store_Update j (w_jobs w)).2 w).
Proof.
  intros Hs i Hk. destruct (decide (i = job_ID j)) as [->|Hne]; [by apply kept_stored|]. intros j'.
  unfold store_Update. destruct (w_jobs w !! job_ID j); cbn; [rewrite lookup_insert_ne by done|]; apply Hk.
Qed.

Section accountable.
Context {UT : UnicodeTables} {UL : UuidLib} {ENV : Env} {REPO : ArchiveRepository} {FF : FileFetcher}.
Context (cfg : ArchiveConfig).
Abbreviation inv := (service_inv cfg).
Abbreviation accountable := (responsible inv kept).

Lemma tame_accountable {A} (p : prog World A) : guar inv keeps (λ _, True) p → accountable p.
Proof. apply quiet_responsible. Qed.

Lemma reader_accountable {A} (p : prog World A) : reader p → accountable p.
Proof.
  intros Hp. apply tame_accountable, reader_guar; [apply service_inv_fs| |done].
  intros w w'. by apply tame_disk.
Qed.

(** ** Workers *)

Lemma processing_keeps id : processing_rule cfg id inv keeps (λ j, job_wf cfg j ∧ job_ID j = id) issued.
Proof.
  destruct (service_rule cfg id) as [Hfs _ Hget Hupd Hissue ? ? ? ? ?]. split; try done.
  - intros w w'. by apply tame_disk.
  - intros w Hw. destruct (Hget w Hw) as (? & _ & ?). split_and!; [done|by apply keeps_same|done].
  - intros j Hj Hs w Hw. destruct (Hupd j Hj Hs w Hw) as (? & _ & ?). split_and!; [done| |done].
    pose proof (keeps_stored j w Hs) as Hk. cbn. by destruct (store_Update j (w_jobs w)).
  - intros i w Hw. destruct (Hissue i w Hw) as (? & _ & ?). split_and!; [done| |done].
    apply keeps_same; cbn; by destruct (token_Issue _ _ _ _ _).
Qed.

Lemma ProcessJob_accountable ctx id : accountable (ProcessJob cfg ctx id).
Proof. apply tame_accountable. eapply ProcessJob_keeps, processing_keeps. Qed.

(** Once called for [id], [ProcessJob] takes it out of the state "queued". *)
Lemma ProcessJob_takes ctx id : obliged inv kept id (ProcessJob cfg ctx id).
Proof.
  assert (∀ X B (f : World → X * World) (k : X → prog World B),
    (∀ w, inv w → kept id (f w).2 ∨ obliged inv kept id (k (f w).1)) →
    obliged inv kept id (atomic f ≫= k)) as Hstep by (intros X B f k H w Hw; exact (H w Hw)).
  unfold ProcessJob, jobs_Get, with_jobs. apply Hstep. intros w Hw. unfold store_Get.
  destruct (w_jobs w !! id) as [j|] eqn:E; cbn [fst snd]; [right|left; intros j; cbn; by rewrite E].
  unfold Now, observe. apply Hstep. intros w1 _. right. cbn [fst]. cbv zeta. apply Hstep. intros w2 _. left.
  set (j' := set_UpdatedAt _ _). pose proof (kept_stored j' w2 ltac:(done)) as Hk.
  rewrite <- (inv_keyed _ _ Hw id j E). change (job_ID j) with (job_ID j').
  by destruct (store_Update j' (w_jobs w2)).
Qed.

Lemma worker_loop_accountable n : accountable (worker_loop cfg n).
Proof.
  induction n as [|n IH]; [done|]. cbn [worker_loop].
  pose proof (ProcessJob_takes Background) as Htake. pose proof (ProcessJob_accountable Background) as Hacc.
  pose proof (λ id, guar_safe_post _ _ _ _ (ProcessJob_guar cfg Background id)) as Hsafe.
  revert Htake Hacc Hsafe. generalize (ProcessJob cfg Background). intros P Htake Hacc Hsafe w Hw. cbn.
  destruct (w_queue w) as [|id q] eqn:Eq.
  { destruct (w_shutdown w); cbn; (split; [by left|done]). }
  destruct (w_shutdown w && env_select (w_tick w)); cbn.
  { split; [by left|done]. }
  split.
  - intros i Hk. destruct (decide (i = id)) as [->|Hne]; [right; by apply obliged_bind_l|left].
    intros j Hj Hs. cbn. pose proof (Hk j Hj Hs) as Hin. rewrite Eq in Hin. set_solver.
  - by eapply responsible_bind.
Qed.

Lemma worker_accountable n : accountable (worker cfg n).
Proof.
  eapply responsible_bind; [apply worker_loop_safe|apply worker_loop_accountable|].
  intros [] _; [|done]. intros w _. split; [|done]. by left.
Qed.

(** ** Requests *)

(** The end of [CreateJob]: the record is stored, and queued or removed. *)
Lemma enqueue_accountable j : job_wf cfg j →
  accountable (err ← jobs_Create j;
    match err with
    | Some err => Ret (inl (Errorf_w (lit "create job record: ") err []))
    | None => sent ← try_send cfg (job_ID j);
              if (sent : bool) then Ret (inr j)
              else _ ← jobs_Delete (job_ID j); Ret (inl (Sentinel ErrQueueFull))
    end).
Proof.
  intros Hj w Hw. cbn. unfold store_Create. destruct (w_jobs w !! job_ID j) eqn:E; cbn.
  { split; [|done]. intros i Hk. left. by apply (keeps_same w). }
  split.
  - intros i Hk. destruct (decide (i = job_ID j)) as [->|Hne].
    + right. intros w1 _. destruct (_ <? _)%Z; [left|right]; cbn.
      * intros j' _ _. cbn. apply elem_of_app. right. by left.
      * intros w2 _. left. intros j'. cbn. by rewrite lookup_delete_eq.
    + left. intros j'. cbn. rewrite lookup_insert_ne by done. apply Hk.
  - intros w1 _. destruct (_ <? _)%Z; cbn; (split; [|try done]).
    + intros i Hk. left. intros j' Hj' Hs. cbn. apply elem_of_app. left. by apply (Hk j').
    + by left.
    + intros w2 _. split; [|done]. intros i Hk. left. by apply keeps_tame.
Qed.

Lemma CreateJob_accountable req : accountable (CreateJob cfg req).
Proof.
  assert (∀ A (p : prog World A), reader p → safe_post inv (λ _, True) p) as Hsafe.
  { intros A p. apply reader_safe. intros w w' Hw (?&?&?&?&?&?). by apply (service_inv_fs cfg w). }
  assert (∀ A B (p : prog World A) (k : A → prog World B), reader p → (∀ a, accountable (k a)) →
    accountable (p ≫= k)) as Hbind.
  { intros A B p k Hp Hk. eapply responsible_bind; [by apply Hsafe|by apply reader_accountable|auto]. }
  unfold CreateJob. apply Hbind; [by intros w|]. intros []; cbn [negb]; [|done].
  unfold try. cbn [mbind prog_mbind prog_bind]. destruct (validateRequest req) as [e|[[root name] type]] eqn:Hv; [done|].
  apply Hbind; [apply observer_reader, wrapped_observer, FolderExists_observer|]. intros [e|[]]; cbn [negb]; [done| |done].
  apply Hbind; [apply reader_observe|]. intros now. apply Hbind; [apply reader_observe|]. intros id. cbn zeta.
  apply enqueue_accountable. by eapply new_job_wf.
Qed.

Lemma handle_accountable baseURL selfAPIToken n r : accountable (handle cfg baseURL selfAPIToken n r).
Proof.
  assert (∀ A (p : prog World A), accountable p → guar inv (settles (λ _, False)) (λ _, True) p →
    ∀ B (k : A → prog World B), (∀ a, accountable (k a)) → accountable (p ≫= k)) as Hbind.
  { intros A p Hp Hg B k Hk. eapply responsible_bind; [by eapply guar_safe_post|done|auto]. }
  assert (∀ A f, accountable (@observe A f)) as Ho by (intros; apply reader_accountable, reader_observe).
  assert (∀ A f, guar inv (settles (λ _, False)) (λ _, True) (@observe A f)) as Hog
    by (intros; apply observe_guar; [apply service_inv_fs|apply settles_disk]).
  apply Hbind; [apply Ho|apply Hog|]. intros start. apply Hbind; [|apply serve_guar|].
  2:{ intros resp. by apply Hbind; [apply Ho|apply Hog|]. }
  unfold serve, cors. case_match; [done|]. eapply (responsible_bind _ _ (λ _, True)); [| |done].
  { by eapply guar_safe_post, mux_guar. }
  unfold mux. destruct (rq_path r) as [|a [|b [|c [|]]]]; try done.
  - repeat (case_match; [|done]). unfold requireAPIToken. case_match; [done|].
    unfold Create. destruct (Decode_request (rq_body r)); [done|].
    eapply responsible_bind; [eapply guar_safe_post, CreateJob_guar|apply CreateJob_accountable|done].
  - case_match; [case_match; [apply reader_accountable, Events_reader|done]|].
    case_match; [|done]. case_match; [apply reader_accountable, Download_reader|done].
Qed.
End accountable.

(** ** A worker left alone

    One job is taken from the queue and processed. *)
Section drain.
Context {UT : UnicodeTables} {ENV : Env} {REPO : ArchiveRepository} {FF : FileFetcher}.
Context (cfg : ArchiveConfig).

Definition take_and_process (w : World) (id : str) : World :=
  (run (ProcessJob cfg Background id) (tick (set_queue (drop 1 (w_queue w)) w))).2.

(** All of a queue, in its order. *)
Definition in_order : list str → World → World := flip (foldl take_and_process).

Lemma take_and_process_control w id :
  w_queue (take_and_process w id) = drop 1 (w_queue w) ∧ w_shutdown (take_and_process w id) = w_shutdown w.
Proof.
  unfold take_and_process. destruct (ProcessJob_control cfg Background id (tick (set_queue (drop 1 (w_queue w)) w)))
    as (Hq & _ & Hl). by rewrite Hq; unfold w_shutdown; rewrite Hl.
Qed.

Lemma worker_loop_run fuel : ∀ w, w_shutdown w = false → length (w_queue w) <= fuel →
  run (worker_loop cfg fuel) w = (false, in_order (w_queue w) w).
Proof.
  induction fuel as [|fuel IH]; intros w Hsh Hl.
  { destruct (w_queue w) eqn:E; [|cbn in Hl; lia]. done. }
  cbn [worker_loop]. rewrite run_bind. unfold worker_select. rewrite run_atomic, Hsh. cbn [andb].
  destruct (w_queue w) as [|id q] eqn:E.
  { cbn [run fst snd]. rewrite (IH w Hsh), E; [done|]. rewrite E. cbn. lia. }
  rewrite run_bind. destruct (take_and_process_control w id) as [Hq Hs]. unfold take_and_process in Hq, Hs.
  rewrite E in Hq, Hs. cbn [drop] in Hq, Hs. unfold in_order, flip. cbn [foldl]. unfold take_and_process at 2.
  rewrite E. cbn [drop]. destruct (run (ProcessJob cfg Background id) _) as [[] w1]. cbn [snd] in *.
  rewrite IH, Hq; [done|congruence|]. rewrite Hq, drop_0. cbn in Hl. lia.
Qed.

(** The job's record says how it ended. *)
Definition ended (id : str) (w : World) : Prop :=
  ∃ j, w_jobs w !! id = Some j ∧ (job_Status j = JobStatusCompleted ∨ job_Status j = JobStatusFailed).

Context (Hdir : ac_TempDir cfg ≠ []) (Hmax : (0 <= ac_MaxSizeBytes cfg < max_int64)%Z).

Lemma take_and_process_ends id w : keyed (w_jobs w) → plain_jobs (w_jobs w) →
  let w' := take_and_process w id in
  keyed (w_jobs w') ∧ plain_jobs (w_jobs w') ∧
  (∀ i, is_Some (w_jobs w !! i) → is_Some (w_jobs w' !! i)) ∧
  (is_Some (w_jobs w !! id) → ended id w') ∧ (∀ i, ended i w → ended i w').
Proof using Hdir Hmax.
  intros Hk Hp. cbv zeta. unfold take_and_process. set (w1 := tick _).
  change (w_jobs w) with (w_jobs w1) in Hk, Hp |- *. change (ended ?i w) with (ended i w1).
  destruct (w_jobs w1 !! id) as [j0|] eqn:E.
  - destruct (ProcessJob_run cfg Hdir Hmax Background id j0 w1 E (Hk _ _ E) (Hp _ _ E))
      as (Hoth & _ & _ & j & Hj & Hid & Hout). set (w' := (run _ w1).2) in *.
    assert (ended id w') as Hend by (exists j; split; [done|]; destruct Hout as [[? _]|[? _]]; auto).
    assert (∀ i j', w_jobs w' !! i = Some j' → i = id ∧ j' = j ∨ w_jobs w1 !! i = Some j') as Hcase.
    { intros i j' Hi. destruct (decide (i = id)) as [->|Hne]; [left; split; congruence|right]. by rewrite <- Hoth. }
    split_and!; [| | |done|].
    + intros i j' [[-> ->]|Hi]%Hcase; auto.
    + intros i j' [[-> ->]|Hi]%Hcase; eauto.
    + intros i Hi. destruct (decide (i = id)) as [->|Hne]; [by rewrite Hj|by rewrite Hoth].
    + intros i Hi. destruct (decide (i = id)) as [->|Hne]; [done|]. unfold ended. by rewrite Hoth.
  - assert (run (ProcessJob cfg Background id) w1 = (tt, set_jobs (w_jobs w1) w1)) as ->.
    { unfold ProcessJob. rewrite run_bind. unfold jobs_Get, with_jobs. rewrite run_atomic. unfold store_Get. by rewrite E. }
    by split_and!.
Qed.

Lemma in_order_ends q : ∀ w, keyed (w_jobs w) → plain_jobs (w_jobs w) →
  (∀ i, ended i w → ended i (in_order q w)) ∧
  (∀ id, id ∈ q → is_Some (w_jobs w !! id) → ended id (in_order q w)).
Proof using Hdir Hmax.
  induction q as [|x q IH]; intros w Hk Hp; [split; [done|]; by intros ? ?%elem_of_nil|].
  destruct (take_and_process_ends x w Hk Hp) as (Hk' & Hp' & Hs & Hx & He).
  destruct (IH _ Hk' Hp') as [IH1 IH2]. change (in_order (x :: q) w) with (in_order q (take_and_process w x)).
  split; [auto|]. intros id [->|Hin]%elem_of_cons Hid; [by apply IH1, Hx|]. by apply IH2, Hs.
Qed.

(** C6: a worker drains the queue: while no shutdown is under way, as long as
    every query and every body comes to an end and the size limit is not the
    largest [int64], a worker
    left to itself takes every queued job, in the order of the queue, and
    processes it to its end before it takes the next: afterwards the queue
    is empty and each of the jobs that has a record is completed or failed. *)
Theorem worker_drains fuel w :
  w_shutdown w = false → length (w_queue w) <= fuel → keyed (w_jobs w) → plain_jobs (w_jobs w) →
  let w' := (run (worker_loop cfg fuel) w).2 in
  w' = in_order (w_queue w) w ∧ w_queue w' = [] ∧
  ∀ id, id ∈ w_queue w → is_Some (w_jobs w !! id) → ended id w'.
Proof using Hdir Hmax.
  intros Hsh Hl Hk Hp. cbv zeta. rewrite worker_loop_run by done. cbn [snd]. split_and!; [done| |by apply in_order_ends].
  clear. assert (∀ q w, w_queue (in_order q w) = drop (length q) (w_queue w)) as H.
  { induction q as [|x q IH]; intros w0; [done|]. change (in_order (x :: q) w0) with (in_order q (take_and_process w0 x)).
    rewrite IH, (proj1 (take_and_process_control w0 x)), drop_drop. done. }
  rewrite H. by apply drop_all.
Qed.
End drain.

(** ** The whole process *)

Section process.
Context {UT : UnicodeTables} {UL : UuidLib} {URL : UrlLib} {ENV : Env} {COL : Collation}.
Context {SRV : HttpServer} {HOST : Host}.

Lemma boot_owned cfg storageClient deferred fuel order w0 : valid cfg → fresh w0 →
  owned (service_inv (c_Archive cfg)) kept (boot cfg storageClient deferred fuel order w0).
Proof.
  intros Hv Hf. pose proof (fresh_ready cfg w0 Hv Hf) as [Hi Ht _ _].
  unfold boot. cbn zeta. rewrite Pool_Run_conf. cbn zeta. cbn [app fst snd].
  set (w1 := add_event StartedCleanup _). set (n := Z.to_nat _).
  assert (service_inv (c_Archive cfg) w1 ∧ Waited WorkersDone ∉ w_trace w1) as [Hi1 Ht1].
  { assert (Waited WorkersDone ∉ w_trace w1) as Ht1.
    { cbn. rewrite !elem_of_app, !list_elem_of_singleton. naive_solver. }
    split; [|done]. destruct Hi. by split. }
  split; cbn [fst snd].
  - by apply wg_Add_inv.
  - apply Forall_app_2; [apply Forall_replicate|repeat apply Forall_cons_2; [..|apply Forall_nil_2]].
    + apply (goroutine_safe (UL := UL) (SRV := SRV) (REPO := process_repo fuel) (FF := process_fetcher storageClient) (c_Archive cfg) [] []). constructor.
    + eapply safe_post_safe, guar_safe_post, cleanup_worker_guar, keeps_tame.
    + eapply safe_post_safe, guar_safe_post, main_running_guar, keeps_tame.
  - apply Forall_app_2; [apply Forall_replicate, worker_accountable|repeat apply Forall_cons_2; [..|apply Forall_nil_2]].
    + apply tame_accountable, cleanup_worker_guar, keeps_tame.
    + apply tame_accountable, main_running_guar, keeps_tame.
  - intros id. left. intros j. destruct (wg_Add_iter n w1) as (_ & -> & _).
    change (w_jobs w1) with (w_jobs w0). by rewrite (fresh_jobs _ Hf), lookup_empty.
Qed.

(** C5: no accepted job is lost: from a successful start-up, in every
    interleaving of the workers, the cleanup worker, the main goroutine with
    its shutdown and any requests, a job whose record says "queued" is in the
    queue, or a goroutine holds it that will, before it returns and whatever
    the others do, put it in the queue, start it or remove its record; when
    no goroutine is left, it is in the queue. *)
Theorem queued_jobs_kept s fuel order deferred cfg storageClient w0 ths w :
  run startup (initial_world s) = ((deferred, inr (cfg, storageClient)), w0) →
  rtc (step (handles cfg fuel)) (boot cfg storageClient deferred fuel order w0) (ths, w) →
  ∀ id j, w_jobs w !! id = Some j → job_Status j = JobStatusQueued →
  (id ∈ w_queue w ∨ ∃ i p, ths !! i = Some p ∧ obliged (service_inv (c_Archive cfg)) kept id p) ∧
  (Forall (λ p, p = Ret tt) ths → id ∈ w_queue w).
Proof.
  intros [Hv Hf]%startup_ready Hr id j Hj Hs.
  assert (owned (service_inv (c_Archive cfg)) kept (ths, w)) as [_ _ _ Hall].
  { eapply owned_steps; [|exact Hr|by apply boot_owned]. intros p (n & r & ->).
    assert (accountable : responsible (service_inv (c_Archive cfg)) kept (hs_Handler (server_New (REPO := process_repo fuel)
      (c_Server cfg) (c_Archive cfg)) n r)) by apply handle_accountable.
    split.
    - eapply safe_post_safe, (guar_safe_post _ _ (λ _, True)), guar_then; [apply handle_guar|done].
    - eapply responsible_bind; [eapply guar_safe_post, handle_guar|exact accountable|done]. }
  cbn in Hall. destruct (Hall id) as [Hk|(i & p & Hl & Hob)]; split.
  - left. by apply (Hk j).
  - intros _. by apply (Hk j).
  - right. by exists i, p.
  - intros Hd. rewrite (Forall_lookup_1 _ _ _ _ Hd Hl) in Hob. done.
Qed.
End process.

(** ** Concrete states *)

Lemma worker_drains_witness :
  w_queue queued_world = [lit "job-2"] ∧
  ended (lit "job-2")
    (run (@worker_loop sample_tables service_env service_repo service_fetcher service_cfg 5) queued_world).2.
Proof.
  split; [by vm_compute|].
  destruct (@worker_drains sample_tables service_env service_repo service_fetcher service_cfg
    service_cfg_dir service_cfg_max 5 queued_world) as (_ & _ & H).
  - by vm_compute.
  - vm_compute. lia.
  - assert (map_Forall (λ id j, job_ID j = id) (w_jobs queued_world)) as H
      by (apply (bool_decide_unpack _); by vm_compute). exact H.
  - assert (map_Forall (λ id _, slash ∉ id) (w_jobs queued_world)) as H
      by (apply (bool_decide_unpack _); by vm_compute). exact H.
  - apply H; apply (bool_decide_unpack _); by vm_compute.
Defined.

(** The job of [late_request] was accepted after the workers had ended: it is
    still in the queue. *)
Lemma queued_jobs_kept_witness :
  ∃ id j, w_jobs late_request.2 !! id = Some j ∧ job_Status j = JobStatusQueued ∧
  (id ∈ w_queue late_request.2 ∨ ∃ i p, late_request.1 !! i = Some p ∧
     obliged (@service_inv any_uuid service_env (c_Archive started_cfg)) kept id p).
Proof.
  assert (job_Status <$> w_jobs late_request.2 !! lit "job-16" = Some JobStatusQueued) as E
    by (vm_compute; reflexivity).
  destruct (w_jobs late_request.2 !! lit "job-16") as [j|] eqn:Hj; [|discriminate E]. injection E as Hs.
  exists (lit "job-16"), j. split_and!; [exact Hj|exact Hs|].
  apply (@queued_jobs_kept sample_tables any_uuid no_urls service_env c_collation busy_server sample_host
    empty_fs 50 (λ l, l) started_deferred started_cfg started_client started late_request.1 late_request.2
    sample_started) with (j := j); [|exact Hj|exact Hs].
  rewrite <- surjective_pairing. apply crew_reachable.
Defined.
