(* ===== verification/EndToEnd.v ===== *)
(** * From the request to the download

    The components together: a create request that was accepted, the worker
    that takes its job, the event stream that reports it, and the download
    with the token from the stream. *)

From S2P Require Import Prelude GoString GoPath GoError Model Json Url Wire Config Logger Sanitize Validate Manifest Prog.
From S2P Require Import JobStore Token FS Sql World Storage Writer Repository Client Generator Service HttpMsg ServeContent Http Process.
From S2P Require Import Interference Cleanup Worker Shutdown Concurrency Main Queue.

Section journey.
Context {UT : UnicodeTables} {UL : UuidLib} {ENV : Env} {REPO : ArchiveRepository} {FF : FileFetcher}.
Context (cfg : ArchiveConfig) (ah : ArchiveHandler) (sh : SSEHandler) (dh : DownloadHandler).

(** ** Creating *)

Lemma handleCreateError_status e : re_status (handleCreateError e) ≠ StatusAccepted.
Proof. unfold handleCreateError. by repeat case_match. Qed.

(** A 202 means that [CreateJob] made the job the answer names. *)
Lemma Create_202 r w resp w1 :
  run (Create ah r) w = (resp, w1) → re_status resp = StatusAccepted →
  ∃ req j, Decode_request (rq_body r) = inr req ∧ run (CreateJob (ah_svc ah) req) w = (inr j, w1) ∧
  resp = mkResponse StatusAccepted [json_header] (CreatedBody (job_ID j) (status_text (job_Status j))
    (ah_baseURL ah ++ lit "/archives/" ++ job_ID j ++ lit "/events") (whole_seconds (ah_expiry ah))).
Proof.
  unfold Create. destruct (Decode_request (rq_body r)) as [e|req]; [by intros [= <- <-]|].
  rewrite run_bind. destruct (run (CreateJob _ req) w) as [[e|j] w'] eqn:E; cbn [run]; intros [= <- <-] Hs.
  - by apply handleCreateError_status in Hs.
  - exists req, j. by rewrite E.
Qed.

Lemma CreateJob_uuid svc req w j w1 : run (CreateJob svc req) w = (inr j, w1) → ∃ t, job_ID j = env_uuid t.
Proof.
  unfold CreateJob. rewrite run_bind. unfold accepting_Load. rewrite run_atomic.
  destruct (w_accepting w); cbn [negb]; [|done]. rewrite run_try. cbn [run].
  destruct (validateRequest req) as [e|[[root name] type]]; [done|]. rewrite run_try.
  destruct (run (wrapped _ _) w) as [[e|[]] w']; cbn [negb]; [done| |done].
  rewrite run_bind, run_Now, run_bind, run_observe. cbv zeta. set (j' := new_job _ _ _ _ _).
  rewrite run_bind. destruct (run (jobs_Create j') _) as [[e|] w2]; [done|]. rewrite run_bind.
  destruct (run (try_send svc (job_ID j')) w2) as [[] w3].
  - intros [= <- _]. by eexists.
  - rewrite run_bind. by destruct (run (jobs_Delete _) w3).
Qed.

(** ** Reporting *)

Lemma Events_completed n id j w :
  w_jobs w !! id = Some j → job_Status j = JobStatusCompleted →
  ∃ now, (run (Events sh n id) w).1 = mkResponse StatusOK sse_headers (EventStream [EvCompleted
    (mkCompleted (job_ID j) (sh_baseURL sh ++ lit "/archives/" ++ job_ID j ++ lit "/download")
       (job_DownloadToken j) (whole_seconds (job_ExpiresAt j - now)))]).
Proof.
  intros Hj Hs. unfold Events. rewrite run_bind, run_GetJob. unfold store_Get. rewrite Hj.
  rewrite run_bind, run_Now. unfold send. rewrite Hs. by eexists.
Qed.

(** ** The whole way *)

(** Nothing outside fails: the kernel, the random source and the clock do what
    they promise, IDs are file names, and no directory is in the way. *)
Record calm (w : World) : Prop := {
  calm_fault t : env_fault t = None;
  calm_write t : env_short_write t = None;
  calm_rand t : ∃ raw, env_rand t = inr raw ∧ length raw = tokenBytes;
  calm_clock t : (env_now t <= env_now (S t))%Z;
  calm_uuid t : plain_id (env_uuid t);
  calm_names id : fs_names (w_fs w) !! tempPath (ac_TempDir cfg) id ≠ Some DDir ∧
                  fs_names (w_fs w) !! finalPath (ac_TempDir cfg) id ≠ Some DDir
}.

(** A GET of the archive with the token [tok], no ranges or conditions. *)
Definition downloads (tok : str) (r : request) : Prop :=
  rq_method r = lit "GET" ∧ rq_conditions r = unconditional ∧ rq_query r = lit "token=" ++ tok.

Context (Hah : ah_svc ah = cfg) (Hdh : dh_svc dh = cfg).
Context (Hdir : ac_TempDir cfg ≠ []) (Hmax : (0 <= ac_MaxSizeBytes cfg < max_int64)%Z).

(** A completed job is served to whoever brings its token before it expires. *)
Lemma completed_download j0 j id m es w' w2 r :
  (∀ t, env_fault t = None) → w_jobs w' !! id = Some j → job_ID j = id → job_Status j = JobStatusCompleted →
  job_DownloadToken j ≠ [] →
  (∃ raw e, job_DownloadToken j = EncodeToString raw ∧ w_tokens w' !! job_DownloadToken j = Some e ∧
     ent_jobID e = id ∧ (job_ExpiresAt j <= ent_expiresAt e)%Z) →
  published cfg id m es w' → job_ArchiveName j = job_ArchiveName j0 → job_ExportType j = job_ExportType j0 →
  same_state w' w2 → (env_now (S (w_tick w2)) <= job_ExpiresAt j)%Z → downloads (job_DownloadToken j) r →
  ∃ ino hs, (run (Download dh r id) w2).1 = mkResponse StatusOK hs (FileBody (DFile ino) Whole) ∧
    fs_data (w_fs w2) !! ino = Some (mkImage (format_of m) es true) ∧
    Header_Get (lit "Content-Type") hs = ContentType (job_ExportType j0) ∧
    Header_Get (lit "Content-Disposition") hs = contentDisposition (job_ArchiveName j0) ∧
    Header_Get (lit "Content-Length") hs = Itoa (Z.of_nat (length (file_bytes (w_fs w2) ino))).
Proof using Hdh.
  intros Hf Hj Hid Hs Hne (raw & e & Hraw & He & Hej & Hexp) ((ino & Hfin & Hdata) & _ & _) En Et
    (Ej & Etk & Efs & _) Hnow (Hm & Hc & Hq).
  assert (Query_Get (rq_query r) (lit "token") = job_DownloadToken j) as Htok by (rewrite Hq, Hraw; apply Query_Get_token).
  destruct (Download_run dh r id j (DFile ino) w2) as (w3 & (_ & _ & Efs3 & _) & ->).
  - rewrite Htok. split_and!; [done|by rewrite Ej|done|]. exists e. rewrite Etk. split_and!; [done|done|lia].
  - apply Hf.
  - by rewrite Hdh, Hid, Efs.
  - destruct (ServeContent_whole r (download_headers j) (default 0%Z (job_CompletedAt j)) ino w3 Hf Hm Hc)
      as (hs & -> & Hl & _ & Hk). exists ino, hs. rewrite <- Efs3. split_and!; [done|by rewrite Efs3, Efs| | |done].
    + rewrite Hk, <- Et; [done|]. by apply (bool_decide_unpack _).
    + rewrite Hk, <- En; [done|]. by apply (bool_decide_unpack _).
Qed.

(** The worker's part: the one queued job is processed to completion. *)
Lemma worker_completes fuel id j0 folders files w1 :
  calm w1 → w_queue w1 = [id] → w_shutdown w1 = false → 1 <= fuel →
  w_jobs w1 !! id = Some j0 → job_ID j0 = id → plain_id id →
  (∀ w, (run (GetFolderTree (job_RootFolderID j0)) w).1 = inr folders) →
  (∀ w, (run (GetFilesForFolderTree (job_RootFolderID j0)) w).1 = inr files) →
  let m := assemble_manifest j0 folders files in
  Forall deliverable (man_Files m) → Forall nameable (man_EmptyFolders m) →
  (recorded_bytes (man_Files m) <= ac_MaxSizeBytes cfg)%Z →
  let w2 := (run (worker_loop cfg fuel) w1).2 in
  ∃ j es t raw, w_jobs w2 !! id = Some j ∧ job_ID j = id ∧ job_Status j = JobStatusCompleted ∧
    job_ArchiveName j = job_ArchiveName j0 ∧ job_ExportType j = job_ExportType j0 ∧
    job_ExpiresAt j = (env_now t + ac_Expiry cfg)%Z ∧ env_rand (S t) = inr raw ∧
    job_DownloadToken j = EncodeToString raw ∧
    w_tokens w2 !! job_DownloadToken j = Some (mkEntry id (env_now (S t) + ac_Expiry cfg)%Z) ∧
    published cfg id m es w2.
Proof using Hdir Hmax.
  intros Hc Hq Hsh Hfu Hj0 Hid Hpl Hfo Hfi m Hdel Hnam Hsz w2.
  set (w1' := tick (set_queue [] w1)).
  assert (w2 = (run (ProcessJob cfg Background id) w1').2) as Ew2.
  { subst w2. rewrite worker_loop_run; [|done|by rewrite Hq]. rewrite Hq. unfold in_order, flip, take_and_process.
    cbn [foldl snd]. by rewrite Hq. }
  assert (healthy cfg id w1') as Hh.
  { destruct Hc as [Hf Hw Hr ? ? Hn]. split_and!; [exact Hf|exact Hw| |apply Hn..]. intros t. destruct (Hr t) as (raw & ? & _). eauto. }
  destruct (ProcessJob_finishes cfg Hdir Hmax id j0 folders files w1' Hj0 Hid Hpl Hh Hfo Hfi Hdel Hnam Hsz) as (j & Hj & Hs).
  destruct (ProcessJob_run cfg Hdir Hmax Background id j0 w1' Hj0 Hid Hpl) as (_ & _ & _ & j' & Hj' & Hid' & Hout).
  rewrite <- Ew2 in *. rewrite Hj in Hj'. injection Hj' as <-.
  destruct Hout as [Hcomp|[? _]]; [|congruence].
  destruct Hcomp as (_ & [Hn Ht] & _ & (t & raw & _ & Hexp & Hraw & Htok & Htoks) & fo & fi & es & u1 & u2 & Hfo' & Hfi' & Hpub & _).
  rewrite Hid' in Htoks, Hpub. rewrite Hfo in Hfo'. rewrite Hfi in Hfi'. injection Hfo' as <-. injection Hfi' as <-.
  exists j, es, t, raw. split_and!; try done.
  rewrite Htoks, lookup_insert_eq. done.
Qed.

(** The three steps together. *)
Lemma delivered r w0 resp w1 id st url secs j0 folders files fuel n :
  calm w0 → w_queue w0 = [] → w_shutdown w0 = false →
  run (Create ah r) w0 = (resp, w1) → re_status resp = StatusAccepted → re_body resp = CreatedBody id st url secs →
  w_jobs w1 !! id = Some j0 →
  (∀ w, (run (GetFolderTree (job_RootFolderID j0)) w).1 = inr folders) →
  (∀ w, (run (GetFilesForFolderTree (job_RootFolderID j0)) w).1 = inr files) →
  let m := assemble_manifest j0 folders files in
  Forall deliverable (man_Files m) → Forall nameable (man_EmptyFolders m) →
  (recorded_bytes (man_Files m) <= ac_MaxSizeBytes cfg)%Z → 1 <= fuel →
  let w2 := (run (worker_loop cfg fuel) w1).2 in
  ∃ j c es t, w_jobs w2 !! id = Some j ∧ job_ExpiresAt j = (env_now t + ac_Expiry cfg)%Z ∧
  (run (Events sh n id) w2).1 = mkResponse StatusOK sse_headers (EventStream [EvCompleted c]) ∧ ce_JobID c = id ∧
  container_for (exact := is_tar m) (ac_MaxSizeBytes cfg) m es ∧
  ∀ w3 r3, same_state w2 w3 → (env_now (S (w_tick w3)) <= job_ExpiresAt j)%Z → downloads (ce_DownloadToken c) r3 →
  ∃ ino hs, (run (Download dh r3 id) w3).1 = mkResponse StatusOK hs (FileBody (DFile ino) Whole) ∧
    fs_data (w_fs w3) !! ino = Some (mkImage (format_of m) es true) ∧
    Header_Get (lit "Content-Type") hs = ContentType (job_ExportType j0) ∧
    Header_Get (lit "Content-Disposition") hs = contentDisposition (job_ArchiveName j0) ∧
    Header_Get (lit "Content-Length") hs = Itoa (Z.of_nat (length (file_bytes (w_fs w3) ino))).
Proof using Hah Hdh Hdir Hmax.
  intros Hc Hq Hsh Hr Hst Hb Hj0 Hfo Hfi m Hdel Hnam Hsz Hfu w2.
  destruct (Create_202 r w0 resp w1 Hr Hst) as (req & j1 & _ & Hcj & ->). cbn in Hb. rewrite Hah in Hcj.
  assert (job_ID j1 = id) as Hid1 by congruence.
  destruct (CreateJob_uuid cfg req w0 j1 w1 Hcj) as [tu Hu].
  destruct (CreateJob_run cfg req w0) as (r' & w1' & Hrun & Hres). rewrite Hcj in Hrun. injection Hrun as <- <-.
  destruct Hres as ((_ & Ej & Eq & _ & Efs & _ & El) & _). rewrite Hid1 in *.
  rewrite Ej, lookup_insert_eq in Hj0. injection Hj0 as <-.
  assert (calm w1) as Hc1 by (destruct Hc; split; try done; by rewrite Efs).
  assert (w_shutdown w1 = false) as Hsh1.
  { unfold w_shutdown in *. by rewrite El. }
  destruct (worker_completes fuel id j1 folders files w1) as
    (j & es & t & raw & Hj & Hid & Hs & Hn & Ht & Hexp & Hraw & Htok & Hent & Hpub); try done.
  { by rewrite Eq, Hq. } { by rewrite Ej, lookup_insert_eq. } { rewrite Hu. apply Hc. }
  fold w2 in Hj, Hent, Hpub. destruct (Events_completed n id j w2 Hj Hs) as [now Hev].
  eexists j, _, es, t. split_and!; [done|done|exact Hev|done|apply Hpub|]. cbn [ce_DownloadToken].
  intros w3 r3 Hsame Hnow Hdl. destruct (calm_rand _ Hc (S t)) as (raw' & Hraw' & Hlen).
  eapply completed_download; try done; [apply Hc|rewrite Htok|].
  - intros E. rewrite Hraw in Hraw'. injection Hraw' as <-. destruct (token_text raw raw Hlen Hlen) as [Hl _].
    rewrite E in Hl. done.
  - eexists raw, _. split_and!; [done|exact Hent|done|]. cbn. rewrite Hexp. pose proof (calm_clock _ Hc t). lia.
Qed.
End journey.

(** C2: an accepted request becomes the archive that its client downloads.
    When the kernel, the random source and the clock do not fail, both queries
    answer, every file's body arrives whole and as recorded and its path and
    those of the empty folders can name entries, the recorded sizes together
    are within the size limit, which is not the largest [int64], and no other
    job is queued: after a create request was answered 202 with a job ID and a
    worker ran, the event stream of that ID is the single completed event with
    a token, and until the job's expiry ([Expiry] after its completion) a GET
    with this token is answered 200 with the whole of a file that is the
    finished container of the requested format for exactly the manifest of the
    requested folder, under the requested name and content type and with its
    exact length. *)
Theorem archive_delivered {UT : UnicodeTables} {UL : UuidLib} {ENV : Env} {REPO : ArchiveRepository} {FF : FileFetcher}
    (cfg : ArchiveConfig) (ah : ArchiveHandler) (sh : SSEHandler) (dh : DownloadHandler)
    r w0 resp w1 id st url secs j0 folders files fuel n :
  ah_svc ah = cfg → dh_svc dh = cfg → ac_TempDir cfg ≠ [] → (0 <= ac_MaxSizeBytes cfg < max_int64)%Z →
  calm cfg w0 → w_queue w0 = [] → w_shutdown w0 = false →
  run (Create ah r) w0 = (resp, w1) → re_status resp = StatusAccepted → re_body resp = CreatedBody id st url secs →
  w_jobs w1 !! id = Some j0 →
  (∀ w, (run (GetFolderTree (job_RootFolderID j0)) w).1 = inr folders) →
  (∀ w, (run (GetFilesForFolderTree (job_RootFolderID j0)) w).1 = inr files) →
  let m := assemble_manifest j0 folders files in
  Forall deliverable (man_Files m) → Forall nameable (man_EmptyFolders m) →
  (recorded_bytes (man_Files m) <= ac_MaxSizeBytes cfg)%Z → 1 <= fuel →
  let w2 := (run (worker_loop cfg fuel) w1).2 in
  ∃ j c es t, w_jobs w2 !! id = Some j ∧ job_ExpiresAt j = (env_now t + ac_Expiry cfg)%Z ∧
  (run (Events sh n id) w2).1 = mkResponse StatusOK sse_headers (EventStream [EvCompleted c]) ∧ ce_JobID c = id ∧
  container_for (exact := is_tar m) (ac_MaxSizeBytes cfg) m es ∧
  ∀ w3 r3, same_state w2 w3 → (env_now (S (w_tick w3)) <= job_ExpiresAt j)%Z → downloads (ce_DownloadToken c) r3 →
  ∃ ino hs, (run (Download dh r3 id) w3).1 = mkResponse StatusOK hs (FileBody (DFile ino) Whole) ∧
    fs_data (w_fs w3) !! ino = Some (mkImage (format_of m) es true) ∧
    Header_Get (lit "Content-Type") hs = ContentType (job_ExportType j0) ∧
    Header_Get (lit "Content-Disposition") hs = contentDisposition (job_ArchiveName j0) ∧
    Header_Get (lit "Content-Length") hs = Itoa (Z.of_nat (length (file_bytes (w_fs w3) ino))).
Proof. intros Hah Hdh Hdir Hmax. by apply delivered. Qed.

(** ** A concrete journey *)

Lemma sample_calm : @calm service_env service_cfg (initial_world empty_fs).
Proof.
  split; try done.
  - intros t. eexists. split; [reflexivity|]. apply length_replicate.
  - intros t. cbn. lia.
  - intros t. unfold plain_id. cbn [env_uuid service_env quiet_env]. rewrite elem_of_app. intros [H|H].
    + by apply (bool_decide_pack _) in H.
    + eapply (digits_notin _ slash); [apply Itoa_digits|done|exact H]. lia.
Qed.

Abbreviation sample_ah := (NewArchiveHandler service_cfg (ac_Expiry service_cfg) []).
Abbreviation sample_sh := (NewSSEHandler service_cfg 500000000 (ac_Expiry service_cfg) []).
Abbreviation sample_dh := (NewDownloadHandler service_cfg).

(** The state after the request, and after the worker. *)
Definition requested : World :=
  (run (@Create sample_tables any_uuid service_env service_repo sample_ah create_request) (initial_world empty_fs)).2.
Definition worked : World :=
  (run (@worker_loop sample_tables service_env service_repo service_fetcher service_cfg 3) requested).2.

Lemma archive_delivered_witness :
  ∃ c ino hs,
  (run (@Events service_env sample_sh 0 (lit "job-2")) worked).1
    = mkResponse StatusOK sse_headers (EventStream [EvCompleted c]) ∧
  (run (@Download sample_tables service_env sample_dh (download_request (ce_DownloadToken c)) (lit "job-2")) worked).1
    = mkResponse StatusOK hs (FileBody (DFile ino) Whole).
Proof.
  destruct (@archive_delivered sample_tables any_uuid service_env service_repo service_fetcher service_cfg
    sample_ah sample_sh sample_dh create_request (initial_world empty_fs)
    (run (@Create sample_tables any_uuid service_env service_repo sample_ah create_request) (initial_world empty_fs)).1
    requested (lit "job-2") (lit "queued") (lit "/archives/job-2/events") 0 queued_job
    sample_folders sample_files 3 0) as (j & c & es & t & Hj & Hexp & Hev & _ & _ & Hdl).
  - done.
  - done.
  - exact service_cfg_dir.
  - exact service_cfg_max.
  - exact sample_calm.
  - done.
  - done.
  - apply surjective_pairing.
  - by vm_compute.
  - by vm_compute.
  - by vm_compute.
  - intros w. by vm_compute.
  - intros w. by vm_compute.
  - apply sample_manifest_ok.
  - apply sample_manifest_ok.
  - apply sample_manifest_ok.
  - lia.
  - destruct (Hdl worked (download_request (ce_DownloadToken c))) as (ino & hs & Hd & _).
    + done.
    + change (w_jobs worked !! lit "job-2" = Some j) in Hj.
      assert (job_ExpiresAt <$> w_jobs worked !! lit "job-2" = Some 1120%Z) as He by (vm_compute; reflexivity).
      rewrite Hj in He. injection He as ->. vm_compute. discriminate.
    + split_and!; reflexivity.
    + exists c, ino, hs. split; [exact Hev|exact Hd].
Defined.
